(* ===== verification/_CoqProject ===== *)
-Q . S2P
Prelude.v
GoStrings.v
Utils.v
Bitset.v
Persister.v
Raft.v
RaftFacts.v
RaftCluster.v
RaftBase.v
RaftElection.v
RaftLog.v
RaftRun.v
RaftTheorems.v
RaftBounds.v
RaftLock.v
RaftClean.v
RaftSpec.v
RaftSafety.v
RaftRefine.v
Json.v
Porcupine.v
PorcupineList.v
Linearizability.v
PorcupineSearch.v
PorcupineOps.v
KvModel.v
PorcupineTheorems.v
Visualization.v
Partials.v
VisualizationJson.v
VisualizationTheorems.v
KvSrv.v
KvSrvFacts.v
KvSrvTheorems.v
Mr.v
MrFacts.v
MrData.v
MrApps.v
MrTheorems.v
MrSystem.v
MrSystemFacts.v
MrSystemTheorems.v
MrTiming.v
Programs.v
LabGob.v
LabGobTheorems.v
LabRpc.v
LabRpcFacts.v
LabRpcClient.v
LabRpcTheorems.v
ShardKv.v
ShardKvTheorems.v
Harness.v
HarnessFacts.v
RaftConfig.v
RaftConfigFacts.v
RaftTyping.v
RaftMonitor.v
RaftObserve.v
RaftConfigTheorems.v
RaftSafetyTheorems.v
RaftNet.v
RaftNetFacts.v
RaftNetRefine.v
RaftNetSim.v
RaftNetSafe.v
RaftNetTheorems.v
LabServers.v
KvRaftConfig.v
KvRaftConfigFacts.v
KvRaftConfigTheorems.v
KvSrvConfig.v
KvSrvConfigTheorems.v
KvSrvNet.v
KvSrvNetFacts.v
KvSrvNetRefine.v
KvSrvNetProgress.v
KvSrvNetTheorems.v
ShardKvConfig.v
ShardKvConfigTheorems.v
