(* ===== verification/Prelude.v ===== *)
(** * A verification development for the MIT 6.5840 labs (Go)

    The repository implements the labs of a distributed systems course under
    src/src: MapReduce (mr, mrapps, main/mrsequential.go), a key-value server
    with at-most-once requests (kvsrv), Raft (raft), the simulated network all
    labs run on (labrpc), and the porcupine linearizability checker with a
    key-value model (porcupine, models) that the tests judge histories with.
    The later labs (kvraft, shardctrler, shardkv) have clerks, and servers whose
    handlers are still empty.  Raft peers, clerks and servers only meet through
    labrpc calls, whose arguments labgob encodes; the MapReduce workers talk to
    their coordinator through net/rpc.  In every lab with a network a harness
    (config.go) starts, crashes, connects and partitions the servers, and judges
    what the peers apply; the tests hand the histories of clerks to porcupine.

    ** How the code is represented

    A function that runs under a mutex, or touches local state only, is a Rocq
    function on explicit state.  Code with several goroutines is a machine whose
    actions are the critical sections, channel operations and timers, in any
    order; random draws and scheduling choices are arguments of the actions.
    [int] is [Z] (widths are written out where they matter: 64-bit words of the
    bitset, the 32-bit hash of worker.go, the counters of labrpc), slices are
    lists with index checks, Go maps are [gmap]s, nil is [None].  A run-time
    panic and [log.Fatal] are the outcomes [Panic] and [Fatal] below; a loop
    that need not end has fuel and returns [None] when the fuel runs out.

    ** The files

    - Prelude: outcomes with their monad, slices, words, quorums, automation.
      GoStrings: the functions of strings, strconv and sort that are used.
      Json (encoding/json, with unicode/utf8): the text that the workers and
      the visualization write, and a reader of it.
      Utils: [randstring], [makeSeed], [nrand] and [DPrintf], which several
      packages repeat.
    - Raft (raft/raft.go): the peer, a definition per critical section.
      Persister (raft/persister.go).  RaftFacts: each handler by itself.
      RaftCluster: peers, pending RPCs and goroutines as a step relation.
      RaftBase, RaftElection, RaftLog: its invariants.  RaftRun: an interpreter
      of the relation for concrete runs.  RaftTheorems, RaftBounds,
      RaftLock (where the mutex is left locked): the properties.
    - RaftSpec: an abstract Raft without messages, and why it is safe.  RaftClean:
      the runs without resent entries.  RaftSafety (the relation between cluster and
      abstract Raft), RaftRefine (a lemma per step), RaftSafetyTheorems.
    - Bitset (porcupine/bitset.go), Porcupine (model.go, checker.go,
      porcupine.go; modules [heap], [checker], [porcupine]), KvModel
      (models/kv.go), Visualization (the data of visualization.go) and
      VisualizationJson (their JSON value and the page).
      Linearizability: the specification.  PorcupineList, PorcupineSearch,
      PorcupineOps, Partials: linked list, search, sorting, the recorded sequences
      and why they are longest.
      PorcupineTheorems, VisualizationTheorems: the properties.
    - KvSrv (kvsrv/server.go, client.go, common.go; modules [kvsrv], [clerk],
      [kvsys]), KvSrvFacts, KvSrvTheorems.
    - KvSrvNet: the clerks as processes that call the server object through
      labrpc, under the harness.  KvSrvNetFacts (its invariant), KvSrvNetRefine
      (simulation by the machine of KvSrv), KvSrvNetProgress, KvSrvNetTheorems.
    - Mr (mr/coordinator.go, worker.go, rpc.go, main/mrsequential.go), MrApps
      (mrapps), MrFacts (the coordinator as a machine), MrData (files and
      output), MrTheorems.  MrSystem: coordinator, worker processes that can be
      killed anywhere, files and timers as one machine; MrSystemFacts,
      MrSystemTheorems.  MrTiming: [nparallel] of mtiming.go and rtiming.go.
      Programs: the command lines in main/.
    - LabGob (labgob/labgob.go), LabGobTheorems.
    - LabRpc (labrpc/labrpc.go), LabRpcFacts, LabRpcClient (calls as their
      callers see them), LabRpcTheorems.
    - ShardKv (the clerks of shardctrler and shardkv), ShardKvTheorems.
    - Harness: the heap, the values and the methods that the harnesses put on the
      network, HarnessFacts.  LabServers: the servers of kvraft, shardctrler and
      shardkv (server.go), and the interface [Service] with its laws.
    - RaftConfig (raft/config.go), RaftConfigFacts (invariants of the network and
      the heap under its operations), RaftTyping (its operations return),
      RaftMonitor (the appliers), RaftObserve
      (the methods that ask the peers), RaftConfigTheorems.
    - RaftNet: the goroutines of raft.go as processes that call each other through
      labrpc, under that harness.  RaftNetFacts (where requests go), RaftNetRefine
      (goroutines as pending RPCs), RaftNetSim (simulation by RaftCluster),
      RaftNetSafe (no event ends the process), RaftNetTheorems.
    - KvRaftConfig (kvraft/config.go in [kvcfg], shardctrler/config.go in
      [ctrlcfg], both over [Service]), KvRaftConfigFacts, KvRaftConfigTheorems.
    - KvSrvConfig (kvsrv/config.go), KvSrvConfigTheorems.
    - ShardKvConfig (shardkv/config.go), ShardKvConfigTheorems.

    ** What is proved

    - Raft: one vote per peer and term, in every run; at most one leader per
      term, append-only leader logs and panic freedom in the runs in which every
      election is won in the term it began in ([timely]); in every run, in-order
      application and no lost wake-up of the applier; the commit rule, the
      replication of the leader's log, the conflict hint and the back-up rule as
      functional specifications.  [timely] is needed: [collectVotes] does not
      compare terms, and [stale_election_two_leaders] is a run with two leaders;
      [resend_diverges] is a run in which a resent AppendEntries makes two peers
      apply different commands.  In the runs in which, besides, no peer is handed
      entries that it already has ([clean_exec]), the cluster refines the abstract
      Raft: peers never apply different commands at one index, leaders have what is
      committed, logs match, and the applier does not panic.  The peers over labrpc
      refine the cluster, so these results hold for them; there, too, nothing but the
      applier can end the process.  Terms are bounded by the number of elections.
      [restart_votes_again] and [single_peer_no_leader] are further limits of the code;
      [handleAppendEntries] can return with the mutex locked, which only happens to a
      peer that is killed ([mutex_released], [mutex_leaked]).
    - Checker: [checkSingle] ends and decides linearizability, for every model
      whose [Equal] is sound; the exported functions combine partitions right
      under every schedule and timeout; [lift]/[unlift] are inverse; the bitset
      refines finite sets; every recorded partial linearization is legal, so
      the visualization never panics, and if no search was killed the one shown for
      an operation is a longest of all that contain it; the script of the page reads
      the data up to the replacement of invalid UTF-8 and the rounding of numbers to
      doubles, and no description can end the script.
    - kvsrv: histories of concurrent clerks over a network that loses requests
      and replies are linearizable and pass the checker, and the data are the
      completed operations executed once each, if no reply to a put of a client
      without table entry is lost; [lost_put_not_linearizable] shows why.  The
      same clerks over labrpc refine that machine, so the result holds for them;
      they never crash, and every operation can return.
    - MapReduce: the coordinator under any interleaving of requests, reports and
      timeouts (no task lost, reduces after maps, [Done] only when done); the
      output of a distributed job is that of the sequential program up to the
      order of lines, whenever workers crash and whatever RPCs are lost, and the
      job can always be finished; this needs a reduce function that does not
      depend on the order of values, a map function whose output is valid UTF-8
      ([invalid_utf8_output]: the intermediate files are JSON), and a temporary
      directory without files of an earlier job ([stale_file_in_output]).
    - labrpc: a call runs its handler at most once and returns true only with the
      reply of that execution, which is what RaftCluster and KvSrv build on; a
      call cut off from its server fails; a call on a reliable path succeeds;
      dispatch reaches the named method.
    - labgob: [checkType] ends on recursive types and complains once per type,
      [checkDefault] on cyclic values.
    - Shard clerks: routing to the owners of a shard, and termination of [Get] and
      [PutAppend] once the controllers have settled and an owner accepts.
    - Harnesses: the memory stays well-typed and the operations of the Raft
      harness return; after any history exactly the ends between current instances of
      connected peers are enabled; a restarted server reads what was saved last
      from a persister that its predecessor cannot reach; the appliers accept
      exactly the runs of RaftCluster in which all peers agree; [checkOneLeader]
      is right in [timely] runs, [one] and [wait] end in bounded time with an
      agreement, snapshots survive their encoding; partitions put the leader in
      the minority; clerks reach exactly the servers they are meant to, in the
      sharded service by the names of a join.

    ** Parameters, bounds and fuel

    [sort.Sort] and [sort.Slice] are interfaces with their contract ([Sorter],
    [KeySorter], [PartialSorter]), the iteration order of Go maps is
    [RangeOrder], encoding/gob is [Gob] in LabGob and, behind labgob, [Codec] with
    the round trip [CodecLaws] in LabRpc, the missing handlers of the sharded
    service are [Env].  The goroutines that run while a harness sleeps or waits
    for a lock are a function [env], or any [background] step.
    Fuel never hides divergence: [checkSingle_decides] and
    [CheckOperations_correct] give a bound from which every fuel yields the
    answer, [checker.length] has one unit per node of the heap, [apply_loop] and
    [reduce_runs] one per remaining entry, [checkType_terminates] bounds the
    recursion by the number of types and [checkDefault_bounded] by the depth three,
    [one_agreement] bounds the loops by their time, and [shardkv_clerk] states
    when the clerks return.

    ** What is not modelled

    The style sheet and the JavaScript in the constant [html] of visualization.go,
    the sockets of mr (what becomes of an RPC is an argument), the handlers that the
    later labs leave empty, and, outside the harnesses, real time: sleeps and
    timeouts are actions that may happen at any moment.  [persist] and [readPersist] have no effect in
    the code, so RaftCluster and RaftNet have no restarts; RaftConfig has.  The test functions
    themselves are not modelled. *)

From stdpp Require Export prelude gmap list strings sorting.
From Stdlib Require Export ZArith Lia.

(** ** Outcomes of Go code

    A Go function either returns, panics at run time (index out of range, nil
    dereference, an explicit [panic]) or ends the process through
    [log.Fatal]/[log.Fatalf].  The strings only document which. *)
Inductive outcome (A : Type) : Type :=
  | Done (a : A)
  | Panic (why : string)
  | Fatal (why : string).
Arguments Done {A} _.
Arguments Panic {A} _.
Arguments Fatal {A} _.

#[export] Instance outcome_ret : MRet outcome := λ A a, Done a.
#[export] Instance outcome_bind : MBind outcome := λ A B f m,
  match m with
  | Done a => f a
  | Panic w => Panic w
  | Fatal w => Fatal w
  end.
#[export] Instance outcome_fmap : FMap outcome := λ A B f m,
  match m with
  | Done a => Done (f a)
  | Panic w => Panic w
  | Fatal w => Fatal w
  end.

Declare Scope go_scope.
Delimit Scope go_scope with go.
Notation "'let!' x := e 'in' k" := (mbind (M := outcome) (λ x, k) e)
  (at level 10, x name, e at level 99, k at level 200,
   format "'[v' 'let!'  x  :=  e  'in' '/' k ']'") : go_scope.
Notation "'let!' ' x := e 'in' k" := (mbind (M := outcome) (fun x => k) e)
  (at level 10, x strict pattern, e at level 99, k at level 200,
   format "'[v' 'let!'  ' x  :=  e  'in' '/' k ']'") : go_scope.
Open Scope go_scope.

(** The computation returned normally. *)
Definition returns {A} (m : outcome A) : Prop := ∃ a, m = Done a.

Lemma bind_Done {A B} (m : outcome A) (f : A → outcome B) b :
  (m ≫= f) = Done b ↔ ∃ a, m = Done a ∧ f a = Done b.
Proof. destruct m; simpl; naive_solver. Qed.

Lemma fmap_Done {A B} (f : A → B) (m : outcome A) b :
  (f <$> m) = Done b ↔ ∃ a, m = Done a ∧ b = f a.
Proof. destruct m; simpl; naive_solver. Qed.

Lemma Done_inj {A} (a b : A) : Done a = Done b → a = b.
Proof. naive_solver. Qed.

(** Inverts every [... = Done _] built from binds in the context. *)
Ltac inv_done :=
  repeat match goal with
  | H : mbind _ _ = Done _ |- _ =>
      apply bind_Done in H;
      let x := fresh "x" in let Hx := fresh "Hx" in destruct H as (x & Hx & H)
  | H : fmap _ _ = Done _ |- _ =>
      apply fmap_Done in H;
      let x := fresh "x" in let Hx := fresh "Hx" in destruct H as (x & Hx & H)
  | H : mret _ = Done _ |- _ => unfold mret, outcome_ret in H
  | H : Done _ = Done _ |- _ => apply Done_inj in H
  | H : Panic _ = Done _ |- _ => discriminate H
  | H : Fatal _ = Done _ |- _ => discriminate H
  | H : (_, _) = (_, _) |- _ => apply pair_equal_spec in H as [? ?]
  end; simplify_eq.

(** Splits the conditionals of the goal and of the hypotheses. *)
Ltac split_ifs :=
  repeat match goal with
  | |- context [if ?b then _ else _] => destruct b eqn:?
  | H : context [if ?b then _ else _] |- _ => destruct b eqn:?
  end.

(** Runs an equation [prog = Done r] through all its branches. *)
Ltac go_inv := repeat (progress (inv_done; split_ifs)); inv_done.

(** Turns boolean comparisons on Z into propositions. *)
Ltac z_bool :=
  repeat match goal with
  | H : (_ && _)%bool = true |- _ => apply andb_true_iff in H as [? ?]
  | H : (_ && _)%bool = false |- _ => apply andb_false_iff in H
  | H : (_ || _)%bool = true |- _ => apply orb_true_iff in H
  | H : (_ || _)%bool = false |- _ => apply orb_false_iff in H as [? ?]
  | H : negb _ = true |- _ => apply negb_true_iff in H
  | H : negb _ = false |- _ => apply negb_false_iff in H
  | H : (_ =? _)%Z = true |- _ => apply Z.eqb_eq in H
  | H : (_ =? _)%Z = false |- _ => apply Z.eqb_neq in H
  | H : (_ <? _)%Z = true |- _ => apply Z.ltb_lt in H
  | H : (_ <? _)%Z = false |- _ => apply Z.ltb_ge in H
  | H : (_ <=? _)%Z = true |- _ => apply Z.leb_le in H
  | H : (_ <=? _)%Z = false |- _ => apply Z.leb_gt in H
  | H : bool_decide _ = true |- _ => apply bool_decide_eq_true in H
  | H : bool_decide _ = false |- _ => apply bool_decide_eq_false in H
  end.

(** ** Slices

    A Go slice is a list; [int] indices are [Z].  Reading or writing outside
    [0 .. len-1] panics, and so does slicing outside [0 .. len]. *)
Definition zlen {A} (l : list A) : Z := Z.of_nat (length l).

Definition idx {A} (l : list A) (i : Z) : outcome A :=
  if (i <? 0)%Z then Panic "index out of range"
  else match l !! Z.to_nat i with
       | Some x => Done x
       | None => Panic "index out of range"
       end.

Definition set_idx {A} (l : list A) (i : Z) (x : A) : outcome (list A) :=
  if (0 <=? i)%Z && (i <? zlen l)%Z then Done (<[Z.to_nat i := x]> l)
  else Panic "index out of range".

(** [l[:k]] and [l[k:]]. *)
Definition slice_to {A} (l : list A) (k : Z) : outcome (list A) :=
  if (0 <=? k)%Z && (k <=? zlen l)%Z then Done (take (Z.to_nat k) l)
  else Panic "slice bounds out of range".

Definition slice_from {A} (l : list A) (k : Z) : outcome (list A) :=
  if (0 <=? k)%Z && (k <=? zlen l)%Z then Done (drop (Z.to_nat k) l)
  else Panic "slice bounds out of range".

Section slices.
Context {A : Type}.
Implicit Types (l : list A) (x : A) (i k : Z).

Lemma zlen_nonneg l : (0 ≤ zlen l)%Z.
Proof. unfold zlen. lia. Qed.

Lemma zlen_app l1 l2 : zlen (l1 ++ l2) = (zlen l1 + zlen l2)%Z.
Proof. unfold zlen. rewrite length_app. lia. Qed.

Lemma zlen_insert l (n : nat) x : zlen (<[n := x]> l) = zlen l.
Proof. unfold zlen. by rewrite length_insert. Qed.

Lemma idx_Done l i x :
  idx l i = Done x ↔ (0 ≤ i)%Z ∧ l !! Z.to_nat i = Some x.
Proof.
  unfold idx. destruct (Z.ltb_spec i 0); [naive_solver lia|].
  destruct (l !! Z.to_nat i); naive_solver.
Qed.

Lemma idx_lt l i x : idx l i = Done x → (0 ≤ i < zlen l)%Z.
Proof.
  intros [? ?%lookup_lt_Some]%idx_Done. unfold zlen. lia.
Qed.

Lemma idx_total l i : (0 ≤ i < zlen l)%Z → ∃ x, idx l i = Done x.
Proof.
  unfold zlen. intros Hi.
  destruct (lookup_lt_is_Some_2 l (Z.to_nat i)) as [x Hx]; [lia|].
  exists x. apply idx_Done. split; [lia|done].
Qed.

Lemma idx_nat l (n : nat) : idx l (Z.of_nat n) =
  match l !! n with Some x => Done x | None => Panic "index out of range" end.
Proof.
  unfold idx. destruct (Z.ltb_spec (Z.of_nat n) 0); [lia|]. by rewrite Nat2Z.id.
Qed.

Lemma set_idx_Done l i x l' :
  set_idx l i x = Done l' ↔ (0 ≤ i < zlen l)%Z ∧ l' = <[Z.to_nat i := x]> l.
Proof.
  unfold set_idx.
  destruct (Z.leb_spec 0 i), (Z.ltb_spec i (zlen l)); simpl; naive_solver lia.
Qed.

Lemma slice_to_Done l k l' :
  slice_to l k = Done l' ↔ (0 ≤ k ≤ zlen l)%Z ∧ l' = take (Z.to_nat k) l.
Proof.
  unfold slice_to.
  destruct (Z.leb_spec 0 k), (Z.leb_spec k (zlen l)); simpl; naive_solver lia.
Qed.

Lemma slice_from_Done l k l' :
  slice_from l k = Done l' ↔ (0 ≤ k ≤ zlen l)%Z ∧ l' = drop (Z.to_nat k) l.
Proof.
  unfold slice_from.
  destruct (Z.leb_spec 0 k), (Z.leb_spec k (zlen l)); simpl; naive_solver lia.
Qed.

Lemma idx_set_idx_eq l i x l' :
  set_idx l i x = Done l' → idx l' i = Done x.
Proof.
  intros [Hi ->]%set_idx_Done. apply idx_Done. split; [lia|].
  apply list_lookup_insert_eq. unfold zlen in Hi. lia.
Qed.

Lemma idx_set_idx_ne l i j x l' :
  set_idx l i x = Done l' → i ≠ j → idx l' j = idx l j.
Proof.
  intros [Hi ->]%set_idx_Done Hne. unfold idx.
  destruct (Z.ltb_spec j 0); [done|].
  rewrite list_lookup_insert_ne by lia. done.
Qed.
End slices.

(** ** Filters *)
Lemma filter_none {A} (P : A → Prop) `{∀ x, Decision (P x)} (l : list A) :
  (∀ x, x ∈ l → ¬ P x) → filter P l = [].
Proof.
  induction l as [|x l IH]; intros Hno; [done|]. rewrite filter_cons_False by (apply Hno; left).
  apply IH. intros y Hy. apply Hno. by right.
Qed.

Lemma filter_every {A} (P : A → Prop) `{∀ x, Decision (P x)} (l : list A) :
  (∀ x, x ∈ l → P x) → filter P l = l.
Proof.
  induction l as [|x l IH]; intros Hall; [done|]. rewrite filter_cons_True by (apply Hall; left).
  f_equal. apply IH. intros y Hy. apply Hall. by right.
Qed.

Lemma mjoin_cons {A} (x : list A) l : mjoin (x :: l) = x ++ mjoin l.
Proof. done. Qed.

Lemma mjoin_snoc {A} (l : list (list A)) x : mjoin (l ++ [x]) = mjoin l ++ x.
Proof.
  induction l as [|y l IH]; [apply app_nil_r|]. by rewrite <- app_comm_cons, !mjoin_cons, IH, app_assoc.
Qed.

(** ** Quorums *)

(** Two majorities of [0 .. n-1] share a member. *)
Lemma quorum_intersection (n : nat) (l1 l2 : list nat) :
  NoDup l1 → NoDup l2 → Forall (λ j, j < n) l1 → Forall (λ j, j < n) l2 →
  (Z.of_nat n / 2 < zlen l1)%Z → (Z.of_nat n / 2 < zlen l2)%Z →
  ∃ j, j ∈ l1 ∧ j ∈ l2.
Proof.
  intros Hd1 Hd2 Hb1 Hb2 Hq1 Hq2.
  destruct (decide (Exists (λ j, j ∈ l2) l1)) as [(j & ? & ?)%Exists_exists|Hno]; [by eauto|].
  exfalso. assert (NoDup (l1 ++ l2)) as Hd.
  { apply NoDup_app. split_and!; [done| |done]. intros j H1 H2. apply Hno, Exists_exists. eauto. }
  assert (length (l1 ++ l2) ≤ length (seq 0 n)) as Hlen.
  { apply submseteq_length, NoDup_submseteq; [done|]. intros j Hj. apply elem_of_seq.
    rewrite Forall_forall in Hb1, Hb2. apply elem_of_app in Hj as [?|?]; naive_solver lia. }
  rewrite length_app, length_seq in Hlen. unfold zlen in *.
  pose proof (Z.div_mod (Z.of_nat n) 2 ltac:(lia)).
  pose proof (Z.mod_pos_bound (Z.of_nat n) 2 ltac:(lia)). lia.
Qed.

(** ** Machine words *)
Definition u64 (x : Z) : Z := (x mod 2 ^ 64)%Z.
Definition u32 (x : Z) : Z := (x mod 2 ^ 32)%Z.

Lemma testbit_u64 (x i : Z) :
  Z.testbit (u64 x) i = (i <? 64)%Z && Z.testbit x i.
Proof.
  unfold u64. destruct (Z.ltb_spec i 64).
  - by rewrite Z.mod_pow2_bits_low.
  - rewrite Z.mod_pow2_bits_high by lia. done.
Qed.

(** A word is below [2^n] exactly when no bit from [n] on is set. *)
Lemma word_bits_above (n x : Z) :
  (0 ≤ n)%Z → (0 ≤ x < 2 ^ n)%Z ↔ (0 ≤ x)%Z ∧ ∀ i, (n ≤ i)%Z → Z.testbit x i = false.
Proof.
  intros Hn. split.
  - intros [H0 H1]. split; [done|]. intros i Hi.
    rewrite <- (Z.mod_small x (2 ^ n)) by done. by apply Z.mod_pow2_bits_high.
  - intros [H0 H1]. split; [done|].
    assert (x = x mod 2 ^ n)%Z as ->; [|apply Z.mod_pos_bound; lia].
    apply Z.bits_inj'. intros i Hi. destruct (Z.ltb_spec i n).
    + by rewrite Z.mod_pow2_bits_low.
    + rewrite Z.mod_pow2_bits_high by lia. by apply H1.
Qed.

Create HintDb go.
Create Rewrite HintDb go_rw.
#[export] Hint Resolve zlen_nonneg idx_lt : go.
#[export] Hint Rewrite @zlen_app @zlen_insert : go_rw.
