(* ===== verification/GoStrings.v ===== *)
(** * The string functions of Go's standard library that the sources use

    [strconv.Itoa], [strconv.Atoi], [strings.Split] with a one-byte separator,
    [strings.FieldsFunc] over bytes, and the lemmas on them. *)

From Stdlib Require Import Ascii DecimalString DecimalPos DecimalZ.
From S2P Require Import Prelude.

Module gostrings.

(** [strconv.Itoa], and [%d] of [fmt]. *)
Definition Itoa (z : Z) : string := NilZero.string_of_int (Z.to_int z).

(** [strconv.Atoi]: an optional sign and decimal digits, in the range of a
    64-bit [int]; anything else is an error. *)
Definition Atoi (s : string) : option Z :=
  n ← match s with
      | String "+"%char s' => (Z.of_int ∘ Decimal.Pos) <$> NilZero.uint_of_string s'
      | _ => Z.of_int <$> NilZero.int_of_string s
      end;
  if (-(2 ^ 63) <=? n)%Z && (n <? 2 ^ 63)%Z then Some n else None.

(** [strings.Split(s, sep)] for a separator of one byte. *)
Fixpoint Split (sep : Ascii.ascii) (s : string) : list string :=
  match s with
  | "" => [""]
  | String c s' =>
      if Ascii.eqb c sep then "" :: Split sep s'
      else match Split sep s' with
           | w :: ws => String c w :: ws
           | [] => [String c ""]
           end
  end.

(** [strings.FieldsFunc]: the maximal runs of bytes for which [f] is false. *)
Fixpoint FieldsFunc_loop (f : Ascii.ascii → bool) (cur : string) (s : string) : list string :=
  match s with
  | "" => match cur with "" => [] | _ => [cur] end
  | String c s' =>
      if f c then
        match cur with
        | "" => FieldsFunc_loop f "" s'
        | _ => cur :: FieldsFunc_loop f "" s'
        end
      else FieldsFunc_loop f (cur +:+ String c "") s'
  end.
Definition FieldsFunc (f : Ascii.ascii → bool) (s : string) : list string := FieldsFunc_loop f "" s.

(** [strings.Join] *)
Fixpoint Join (l : list string) (sep : string) : string :=
  match l with
  | [] => ""
  | [s] => s
  | s :: l' => s +:+ sep +:+ Join l' sep
  end.

(** [sort.Strings]: bytewise lexicographic order. *)
Definition sort_Strings (l : list string) : list string := merge_sort String.le l.

Lemma sort_Strings_perm l : sort_Strings l ≡ₚ l.
Proof. apply merge_sort_Permutation. Qed.

(** Sorting forgets the order. *)
Lemma sort_Strings_eq l l' : l ≡ₚ l' → sort_Strings l = sort_Strings l'.
Proof.
  intros Hp. apply (StronglySorted_unique String.le).
  - apply (StronglySorted_merge_sort _).
  - apply (StronglySorted_merge_sort _).
  - by rewrite !sort_Strings_perm.
Qed.

(** ** Lemmas *)

Fixpoint no_char (c : Ascii.ascii) (s : string) : Prop :=
  match s with "" => True | String d s' => d ≠ c ∧ no_char c s' end.

Lemma no_char_app c s t : no_char c (s +:+ t) ↔ no_char c s ∧ no_char c t.
Proof. induction s as [|d s IH]; simpl; [tauto|]. rewrite IH. tauto. Qed.

Lemma Split_no_char c s : no_char c s → Split c s = [s].
Proof.
  induction s as [|d s IH]; simpl; [done|]. intros [Hd Hs]. rewrite (IH Hs).
  by destruct (Ascii.eqb_spec d c).
Qed.

Lemma Split_cons c s t : no_char c s → Split c (s +:+ String c t) = s :: Split c t.
Proof.
  induction s as [|d s IH]; simpl; intros Hs.
  - by rewrite Ascii.eqb_refl.
  - destruct Hs as [Hd Hs]. rewrite (IH Hs). by destruct (Ascii.eqb_spec d c).
Qed.

(** The decimal digits. *)
Definition is_digit (c : Ascii.ascii) : bool :=
  (48 <=? N_of_ascii c)%N && (N_of_ascii c <=? 57)%N.

Lemma uint_no_char c d : is_digit c = false → no_char c (NilEmpty.string_of_uint d).
Proof. intros Hc. induction d; simpl; try done; (split; [by intros <-|done]). Qed.

Lemma Itoa_no_char c z : is_digit c = false → (0 ≤ z)%Z → no_char c (Itoa z).
Proof.
  intros Hc Hz. unfold Itoa, Z.to_int. destruct z as [|p|p]; [split; [by intros <-|done]| |lia].
  unfold NilZero.string_of_int, NilZero.string_of_uint.
  destruct (Pos.to_uint p) eqn:E; [split; [by intros <-|done]|..]; rewrite <- E; by apply uint_no_char.
Qed.

Lemma Itoa_no_dash z : (0 ≤ z)%Z → no_char "-"%char (Itoa z).
Proof. by apply Itoa_no_char. Qed.

Lemma Itoa_no_slash z : (0 ≤ z)%Z → no_char "/"%char (Itoa z).
Proof. by apply Itoa_no_char. Qed.

Lemma Itoa_not_plus z s : Itoa z ≠ String "+"%char s.
Proof.
  unfold Itoa, Z.to_int. destruct z as [|p|p]; [done| |done].
  unfold NilZero.string_of_int, NilZero.string_of_uint. by destruct (Pos.to_uint p).
Qed.

Lemma int_of_string_of_int z : NilZero.int_of_string (Itoa z) = Some (Z.to_int z).
Proof.
  unfold Itoa. apply NilZero.isi.
  - unfold Z.to_int. destruct z as [|p|p]; [done| |done].
    intros [= Hp]. pose proof (DecimalPos.Unsigned.of_to p) as Hof. by rewrite Hp in Hof.
  - unfold Z.to_int. destruct z as [|p|p]; [done|done|].
    intros [= Hp]. pose proof (DecimalPos.Unsigned.of_to p) as Hof. by rewrite Hp in Hof.
Qed.

(** Parsing what was printed. *)
Lemma Atoi_Itoa z : (-(2 ^ 63) ≤ z < 2 ^ 63)%Z → Atoi (Itoa z) = Some z.
Proof.
  intros Hz. unfold Atoi. pose proof (Itoa_not_plus z) as Hp.
  pose proof (int_of_string_of_int z) as Hi.
  assert ((match Itoa z with
      | String "+"%char s' => (Z.of_int ∘ Decimal.Pos) <$> NilZero.uint_of_string s'
      | _ => Z.of_int <$> NilZero.int_of_string (Itoa z)
      end) = Some z) as ->.
  { rewrite Hi. simpl. rewrite DecimalZ.of_to.
    destruct (Itoa z) as [|[[] [] [] [] [] [] [] []] s']; try done. by destruct (Hp s'). }
  simpl. destruct (Z.leb_spec (-(2 ^ 63)) z), (Z.ltb_spec z (2 ^ 63)); simpl; lia || done.
Qed.

Lemma Itoa_inj z z' : Itoa z = Itoa z' → z = z'.
Proof.
  intros Heq. pose proof (int_of_string_of_int z) as H1. rewrite Heq in H1.
  rewrite int_of_string_of_int in H1. simplify_eq.
  rewrite <- (DecimalZ.of_to z), <- (DecimalZ.of_to z'). congruence.
Qed.

End gostrings.
