(* ===== verification/Utils.v ===== *)
(** * Helpers that several packages repeat

    [randstring], [makeSeed] and [nrand] (the harnesses and clerks have a copy
    each), and [DPrintf].  What the random source delivers is an argument. *)

From Stdlib Require Import Ascii.
From S2P Require Import Prelude.

(** ** randstring *)
Module randname.

(** The alphabet of [base64.URLEncoding]. *)
Definition alphabet : list ascii :=
  String.list_ascii_of_string "ABCDEFGHIJKLMNOPQRSTUVWXYZabcdefghijklmnopqrstuvwxyz0123456789-_".

(** The character of a 6-bit number. *)
Definition char_of (v : Z) : ascii := default "A"%char (alphabet !! Z.to_nat v).

(** [EncodeToString]: four characters for three bytes, and padding. *)
Fixpoint EncodeToString (b : list Z) : list ascii :=
  match b with
  | [] => []
  | [x] => [char_of (Z.shiftr x 2); char_of (Z.shiftl (Z.land x 3) 4); "="%char; "="%char]
  | [x; y] =>
      [char_of (Z.shiftr x 2); char_of (Z.lor (Z.shiftl (Z.land x 3) 4) (Z.shiftr y 4));
       char_of (Z.shiftl (Z.land y 15) 2); "="%char]
  | x :: y :: z :: b' =>
      char_of (Z.shiftr x 2) :: char_of (Z.lor (Z.shiftl (Z.land x 3) 4) (Z.shiftr y 4)) ::
      char_of (Z.lor (Z.shiftl (Z.land y 15) 2) (Z.shiftr z 6)) :: char_of (Z.land z 63) ::
      EncodeToString b'
  end.

(** [draw k] is the k-th byte that [crand.Read] delivers. *)
Definition randstring (draw : nat → Z) (n : Z) : outcome (list ascii) :=
  if (n <? 0)%Z then Panic "makeslice: len out of range"
  else
    let b := (λ k, draw k mod 256)%Z <$> seq 0 (Z.to_nat (2 * n)) in
    let s := EncodeToString b in
    if (zlen s <? n)%Z then Panic "slice bounds out of range" else Done (take (Z.to_nat n) s).

(** ** A name has [n] characters and no padding *)

Lemma char_of_alphabet v : char_of v ∈ alphabet.
Proof.
  unfold char_of. destruct (alphabet !! Z.to_nat v) as [c|] eqn:Hc; [by eapply list_elem_of_lookup_2|left].
Qed.

Lemma encode_prefix m : ∀ b k, length b ≤ m → k ≤ length b →
  k ≤ length (EncodeToString b) ∧ ∀ c, c ∈ take k (EncodeToString b) → c ∈ alphabet.
Proof.
  induction m as [|m IH]; intros b k Hm Hk.
  { destruct b; [|simpl in Hm; lia]. simpl in *. split; [lia|]. rewrite take_nil. by intros c ?%not_elem_of_nil. }
  destruct b as [|x [|y [|z b]]].
  - simpl in *. split; [lia|]. rewrite take_nil. by intros c ?%not_elem_of_nil.
  - simpl in *. split; [lia|]. destruct k as [|[|k]]; [by intros c ?%not_elem_of_nil| |lia].
    intros c ->%list_elem_of_singleton. apply char_of_alphabet.
  - simpl in *. split; [lia|]. destruct k as [|[|[|k]]]; [by intros c ?%not_elem_of_nil|..|lia].
    + intros c ->%list_elem_of_singleton. apply char_of_alphabet.
    + intros c [->| ->%list_elem_of_singleton]%elem_of_cons; apply char_of_alphabet.
  - simpl in *. destruct (IH b (k - 4)) as [Hlen Hc]; [lia..|]. split; [lia|].
    intros c. do 4 (destruct k as [|k]; [by intros ?%not_elem_of_nil|];
      intros [->|Hc']%elem_of_cons; [apply char_of_alphabet|revert Hc']).
    intros Hc'. apply Hc. by replace (S (S (S (S k))) - 4) with k by lia.
Qed.

Lemma randstring_spec draw n : (0 ≤ n)%Z → ∃ s, randstring draw n = Done s ∧ zlen s = n ∧
  ∀ c, c ∈ s → c ∈ alphabet.
Proof.
  intros Hn. unfold randstring. destruct (Z.ltb_spec n 0); [lia|].
  set (b := _ <$> seq 0 _). assert (length b = Z.to_nat (2 * n)) as Hb by (unfold b; by rewrite length_fmap, length_seq).
  destruct (encode_prefix (length b) b (Z.to_nat n)) as [Hlen Hc]; [done|lia|].
  destruct (Z.ltb_spec (zlen (EncodeToString b)) n) as [Hlt|_]; [unfold zlen in Hlt; lia|].
  eexists. split; [done|]. split; [unfold zlen; rewrite length_take; lia|done].
Qed.

End randname.

(** ** makeSeed and nrand *)
Module randint.
Open Scope Z_scope.

(** [bigx.Int64()]: the low 64 bits as a signed number. *)
Definition Int64 (x : Z) : Z := let y := x mod 2 ^ 64 in if y <? 2 ^ 63 then y else y - 2 ^ 64.

(** [rand.Int(reader, max)] delivers some number of [0 .. max-1]. *)
Definition rand_Int (draw max : Z) : Z := draw mod max.

Definition makeSeed (draw : Z) : Z :=
  let max := Z.shiftl 1 62 in
  let bigx := rand_Int draw max in
  Int64 bigx.

Definition nrand : Z → Z := makeSeed.

(** The conversion loses nothing, and every number below [2^62] can be drawn. *)
Lemma makeSeed_range x : (0 ≤ makeSeed x < 2 ^ 62) ∧ (0 ≤ x < 2 ^ 62 → makeSeed x = x).
Proof.
  unfold makeSeed, rand_Int, Int64. change (Z.shiftl 1 62) with (2 ^ 62).
  pose proof (Z.mod_pos_bound x (2 ^ 62) ltac:(lia)). rewrite (Z.mod_small (x mod 2 ^ 62)) by lia.
  rewrite (proj2 (Z.ltb_lt _ _)) by lia. split; [done|]. intros Hx. by apply Z.mod_small.
Qed.

End randint.

(** ** DPrintf *)
Module debug.

Definition Debug : bool := false.

(** The log with the formatted line. *)
Definition DPrintf (out : list string) (line : string) : list string :=
  if Debug then out ++ [line] else out.

End debug.
