(* ===== verification/Bitset.v ===== *)
(** * porcupine/bitset.go: the checker's set of linearized operations

    A [bitset] is a slice of [uint64] words; bit [pos] lives in word [pos/64]
    at position [pos mod 64].  The file models every function of bitset.go and
    relates the words to the finite set of positions they denote. *)

From S2P Require Import Prelude.

Module bitset.

(** [type bitset []uint64] *)
Notation t := (list Z) (only parsing).

(** [uint64] left shift. *)
Definition shl64 (x n : Z) : Z := u64 (Z.shiftl x n).

(** [math/bits.OnesCount64]: the number of one bits of a 64-bit word. *)
Definition OnesCount64 (v : Z) : Z :=
  Z.of_nat (length (filter (λ i, Z.testbit v (Z.of_nat i) = true) (seq 0 64))).

Definition newBitset (bits : Z) : t :=
  let extra := if negb (bits mod 64 =? 0)%Z then 1%Z else 0%Z in
  let chunks := (bits / 64 + extra)%Z in
  replicate (Z.to_nat chunks) 0%Z.

(** [make] + [copy]: an equal, unshared slice. *)
Definition clone (b : t) : t :=
  let dataCopy := replicate (length b) 0%Z in
  take (length dataCopy) b ++ drop (length b) dataCopy.

Definition bitsetIndex (pos : Z) : Z * Z := (pos / 64, pos mod 64)%Z.

(** [set] and [clear] write the word in place; the model returns the new
    contents. *)
Definition set (b : t) (pos : Z) : outcome t :=
  let '(major, minor) := bitsetIndex pos in
  let! w := idx b major in
  set_idx b major (Z.lor w (shl64 1 minor)).

Definition clear (b : t) (pos : Z) : outcome t :=
  let '(major, minor) := bitsetIndex pos in
  let! w := idx b major in
  set_idx b major (Z.ldiff w (shl64 1 minor)).

Definition get (b : t) (pos : Z) : outcome bool :=
  let '(major, minor) := bitsetIndex pos in
  let! w := idx b major in
  Done (negb (Z.land w (shl64 1 minor) =? 0)%Z).

Definition popcnt (b : t) : Z :=
  foldl (λ total v, total + OnesCount64 v)%Z 0%Z b.

Definition hash (b : t) : Z :=
  foldl (λ h v, Z.lxor h v) (u64 (popcnt b)) b.

Fixpoint equals_loop (b b2 : t) : bool :=
  match b, b2 with
  | v :: b', v2 :: b2' => if negb (v =? v2)%Z then false else equals_loop b' b2'
  | _, _ => true
  end.

Definition equals (b b2 : t) : bool :=
  if negb (zlen b =? zlen b2)%Z then false else equals_loop b b2.

(** ** Well-formedness and denotation *)

(** Every word is a [uint64]. *)
Definition wf (b : t) : Prop := Forall (λ w, (0 ≤ w < 2 ^ 64)%Z) b.

(** Positions a bitset of this length can hold. *)
Definition in_range (b : t) (pos : Z) : Prop := (0 ≤ pos < 64 * zlen b)%Z.

(** Bit [pos] of the whole bitset. *)
Definition bit (b : t) (pos : Z) : bool :=
  Z.testbit (default 0%Z (b !! Z.to_nat (pos / 64))) (pos mod 64).

(** [b] denotes the set [X] of positions. *)
Definition denotes (b : t) (X : gset Z) : Prop :=
  wf b ∧ ∀ pos, pos ∈ X ↔ in_range b pos ∧ bit b pos = true.

(** ** Lemmas on words *)

Lemma testbit_shl64 m i : (0 ≤ m < 64)%Z →
  Z.testbit (shl64 1 m) i = bool_decide (i = m).
Proof.
  intros Hm. unfold shl64. rewrite testbit_u64, Z.shiftl_1_l.
  rewrite Z.pow2_bits_eqb by lia.
  destruct (Z.ltb_spec i 64), (Z.eqb_spec m i), (bool_decide_reflect (i = m));
    simpl; lia || done.
Qed.

Lemma land_shl64 w m : (0 ≤ m < 64)%Z →
  negb (Z.land w (shl64 1 m) =? 0)%Z = Z.testbit w m.
Proof.
  intros Hm. destruct (Z.testbit w m) eqn:E.
  - apply negb_true_iff, Z.eqb_neq. intros Heq.
    apply (f_equal (λ x, Z.testbit x m)) in Heq.
    rewrite Z.land_spec, E, testbit_shl64, Z.bits_0 in Heq by done.
    by rewrite bool_decide_eq_true_2 in Heq.
  - apply negb_false_iff, Z.eqb_eq, Z.bits_inj'. intros i Hi.
    rewrite Z.land_spec, testbit_shl64, Z.bits_0 by done.
    destruct (bool_decide_reflect (i = m)); subst; rewrite ?E; by rewrite ?andb_false_r.
Qed.

Lemma lor_word w v :
  (0 ≤ w < 2 ^ 64 → 0 ≤ v < 2 ^ 64 → 0 ≤ Z.lor w v < 2 ^ 64)%Z.
Proof.
  rewrite !word_bits_above by lia. intros [? Hw] [? Hv]. split.
  - by apply Z.lor_nonneg.
  - intros i Hi. by rewrite Z.lor_spec, Hw, Hv.
Qed.

Lemma ldiff_word w v : (0 ≤ w < 2 ^ 64 → 0 ≤ Z.ldiff w v < 2 ^ 64)%Z.
Proof.
  rewrite !word_bits_above by lia. intros [? Hw]. split.
  - apply Z.ldiff_nonneg. by left.
  - intros i Hi. by rewrite Z.ldiff_spec, Hw.
Qed.

Lemma lxor_word w v :
  (0 ≤ w < 2 ^ 64 → 0 ≤ v < 2 ^ 64 → 0 ≤ Z.lxor w v < 2 ^ 64)%Z.
Proof.
  rewrite !word_bits_above by lia. intros [? Hw] [? Hv]. split.
  - by apply Z.lxor_nonneg.
  - intros i Hi. by rewrite Z.lxor_spec, Hw, Hv.
Qed.

Lemma shl64_word m : (0 ≤ shl64 1 m < 2 ^ 64)%Z.
Proof. apply Z.mod_pos_bound. lia. Qed.

#[local] Hint Resolve lor_word ldiff_word lxor_word shl64_word : go.

(** A word is determined by its 64 low bits. *)
Lemma word_ext w v :
  (0 ≤ w < 2 ^ 64 → 0 ≤ v < 2 ^ 64 →
   (∀ i, 0 ≤ i < 64 → Z.testbit w i = Z.testbit v i) → w = v)%Z.
Proof.
  rewrite !word_bits_above by lia. intros [? Hw] [? Hv] Heq.
  apply Z.bits_inj'. intros i Hi. destruct (Z.ltb_spec i 64).
  - apply Heq. lia.
  - by rewrite Hw, Hv.
Qed.

(** ** Reading and writing one bit *)

Lemma in_range_index b pos : in_range b pos →
  (0 ≤ pos / 64 < zlen b)%Z ∧ (0 ≤ pos mod 64 < 64)%Z.
Proof. unfold in_range. intros ?. split; [|apply Z.mod_pos_bound; lia].
  split; [apply Z.div_pos; lia|apply Z.div_lt_upper_bound; lia].
Qed.

Lemma idx_word b pos : in_range b pos →
  ∃ w, idx b (pos / 64) = Done w ∧ b !! Z.to_nat (pos / 64) = Some w.
Proof.
  intros [Hi _]%in_range_index. destruct (idx_total b (pos / 64)) as [w Hw]; [done|].
  exists w. split; [done|]. by apply idx_Done in Hw as [_ ?].
Qed.

Lemma get_bit b pos : in_range b pos → get b pos = Done (bit b pos).
Proof.
  intros Hr. destruct (idx_word b pos Hr) as (w & Hw & Hl).
  destruct (in_range_index b pos Hr). unfold get, bitsetIndex, bit.
  rewrite Hw, Hl. simpl. by rewrite land_shl64.
Qed.

Lemma pos_split pos p : (pos / 64 = p / 64 → pos mod 64 = p mod 64 → pos = p)%Z.
Proof. intros. rewrite (Z.div_mod pos 64), (Z.div_mod p 64) by lia. congruence. Qed.

(** Both writers replace one word by [f w (1 << minor)]; this lemma does the
    work for [set] and [clear] at once. *)
Lemma write_bit (f : Z → Z → Z) (v : bool) b pos :
  (∀ w m i, (0 ≤ m < 64)%Z →
     Z.testbit (f w (shl64 1 m)) i = if bool_decide (i = m) then v else Z.testbit w i) →
  (∀ w m, (0 ≤ w < 2 ^ 64)%Z → (0 ≤ f w (shl64 1 m) < 2 ^ 64)%Z) →
  in_range b pos →
  ∃ b', (let! w := idx b (pos / 64) in
         set_idx b (pos / 64) (f w (shl64 1 (pos mod 64)))) = Done b' ∧
    length b' = length b ∧ (wf b → wf b') ∧
    ∀ p, in_range b p → bit b' p = if bool_decide (p = pos) then v else bit b p.
Proof.
  intros Hf Hwf Hr. destruct (idx_word b pos Hr) as (w & Hw & Hl).
  destruct (in_range_index b pos Hr) as [Hi Hm]. rewrite Hw. simpl.
  eexists. split; [by apply set_idx_Done|]. rewrite length_insert. repeat split; auto.
  - intros Hb. apply Forall_insert; [done|]. apply Hwf.
    by apply (Forall_lookup_1 _ _ _ _ Hb Hl).
  - intros p Hp. destruct (in_range_index b p Hp) as [Hpi Hpm]. unfold bit.
    destruct (decide (p / 64 = pos / 64)%Z) as [Heq|Hne].
    + rewrite Heq, list_lookup_insert_eq by (unfold zlen in Hi; lia). simpl.
      rewrite Hf by done. rewrite Hl. simpl.
      destruct (bool_decide_reflect (p = pos)) as [->|Hne].
      * by rewrite bool_decide_eq_true_2.
      * rewrite bool_decide_eq_false_2; [done|]. intros ?. by apply Hne, pos_split.
    + rewrite list_lookup_insert_ne by lia.
      rewrite (bool_decide_eq_false_2 (p = pos)) by congruence. done.
Qed.

Lemma set_bit b pos : in_range b pos →
  ∃ b', set b pos = Done b' ∧ length b' = length b ∧ (wf b → wf b') ∧
    ∀ p, in_range b p → bit b' p = if bool_decide (p = pos) then true else bit b p.
Proof.
  apply (write_bit Z.lor true); auto with go.
  intros w m i Hm. rewrite Z.lor_spec, testbit_shl64 by done.
  case_bool_decide; [apply orb_true_r|apply orb_false_r].
Qed.

Lemma clear_bit b pos : in_range b pos →
  ∃ b', clear b pos = Done b' ∧ length b' = length b ∧ (wf b → wf b') ∧
    ∀ p, in_range b p → bit b' p = if bool_decide (p = pos) then false else bit b p.
Proof.
  apply (write_bit Z.ldiff false); auto with go.
  intros w m i Hm. rewrite Z.ldiff_spec, testbit_shl64 by done.
  case_bool_decide; simpl; [apply andb_false_r|apply andb_true_r].
Qed.

(** Outside the words, all three accessors panic (Go's bounds check). *)
Lemma out_of_range_panics b pos : ¬ in_range b pos →
  get b pos = Panic "index out of range" ∧ set b pos = Panic "index out of range" ∧
  clear b pos = Panic "index out of range".
Proof.
  intros Hr. unfold get, set, clear, bitsetIndex.
  assert (idx b (pos / 64) = Panic "index out of range") as ->; [|done].
  unfold idx. destruct (Z.ltb_spec (pos / 64) 0) as [|H0]; [done|].
  rewrite lookup_ge_None_2; [done|]. unfold in_range, zlen in Hr.
  assert (0 ≤ pos)%Z. { destruct (Z.ltb_spec pos 0); [|done].
    assert (pos / 64 < 0)%Z by (apply Z.div_lt_upper_bound; lia). lia. }
  assert (Z.of_nat (length b) ≤ pos / 64)%Z; [|lia].
  apply Z.div_le_lower_bound; lia.
Qed.

(** ** Refinement of finite sets *)

Lemma denotes_in_range b X pos : denotes b X → pos ∈ X → in_range b pos.
Proof. intros [_ H] ?. by apply H. Qed.

Lemma bit_replicate n pos : bit (replicate n 0%Z) pos = false.
Proof.
  unfold bit. destruct (replicate n 0%Z !! Z.to_nat (pos / 64)) as [w|] eqn:E; simpl.
  - apply lookup_replicate in E as [-> _]. apply Z.bits_0.
  - apply Z.bits_0.
Qed.

Lemma newBitset_chunks bits : (0 ≤ bits)%Z →
  (bits ≤ 64 * zlen (newBitset bits) < bits + 64)%Z.
Proof.
  intros Hb. unfold newBitset, zlen. rewrite length_replicate.
  pose proof (Z.div_mod bits 64 ltac:(lia)).
  pose proof (Z.mod_pos_bound bits 64 ltac:(lia)).
  pose proof (Z.div_pos bits 64 Hb ltac:(lia)).
  destruct (Z.eqb_spec (bits mod 64) 0); simpl; lia.
Qed.

Lemma newBitset_empty bits : denotes (newBitset bits) ∅.
Proof.
  split.
  - apply Forall_replicate. lia.
  - intros pos. unfold newBitset. rewrite bit_replicate. set_solver.
Qed.

Lemma clone_id b : clone b = b.
Proof.
  unfold clone. rewrite length_replicate, take_ge by done.
  rewrite drop_ge by (by rewrite length_replicate). apply app_nil_r.
Qed.

Lemma get_denotes b X pos :
  denotes b X → in_range b pos → get b pos = Done (bool_decide (pos ∈ X)).
Proof.
  intros [_ H] Hr. rewrite get_bit by done. f_equal.
  destruct (bool_decide_reflect (pos ∈ X)) as [Hx|Hx]; [by apply H in Hx as [_ ?]|].
  apply not_true_is_false. intros Hb. by apply Hx, H.
Qed.

Lemma in_range_length b b' pos : length b' = length b → in_range b pos ↔ in_range b' pos.
Proof. intros H. unfold in_range, zlen. by rewrite H. Qed.

Lemma write_denotes (v : bool) b b' X pos :
  denotes b X → in_range b pos → length b' = length b → (wf b → wf b') →
  (∀ p, in_range b p → bit b' p = if bool_decide (p = pos) then v else bit b p) →
  denotes b' (if v then X ∪ {[pos]} else X ∖ {[pos]}).
Proof.
  intros [Hwf H] Hr Hlen Hwf' Hb. split; [auto|]. intros p.
  rewrite <- (in_range_length b b') by done.
  assert (p ∈ (if v then X ∪ {[pos]} else X ∖ {[pos]}) ↔
          if bool_decide (p = pos) then v = true else p ∈ X) as ->.
  { clear. case_bool_decide; destruct v; set_solver. }
  split.
  - intros Hp. assert (in_range b p) by (case_bool_decide; [by subst|by apply H]).
    split; [done|]. rewrite Hb by done. case_bool_decide; [done|by apply H].
  - intros [Hp Hbit]. rewrite Hb in Hbit by done. case_bool_decide; [done|by apply H].
Qed.

Lemma set_denotes b X pos : denotes b X → in_range b pos →
  ∃ b', set b pos = Done b' ∧ length b' = length b ∧ denotes b' (X ∪ {[pos]}).
Proof.
  intros H Hr. destruct (set_bit b pos Hr) as (b' & ? & ? & ? & ?).
  exists b'. split_and!; [done..|]. by apply (write_denotes true b).
Qed.

Lemma clear_denotes b X pos : denotes b X → in_range b pos →
  ∃ b', clear b pos = Done b' ∧ length b' = length b ∧ denotes b' (X ∖ {[pos]}).
Proof.
  intros H Hr. destruct (clear_bit b pos Hr) as (b' & ? & ? & ? & ?).
  exists b'. split_and!; [done..|]. by apply (write_denotes false b).
Qed.

(** Two bitsets of one length that denote the same set are the same words. *)
Lemma denotes_inj b1 b2 X :
  length b1 = length b2 → denotes b1 X → denotes b2 X → b1 = b2.
Proof.
  intros Hlen [Hw1 H1] [Hw2 H2]. apply list_eq. intros k.
  destruct (b1 !! k) as [w1|] eqn:E1, (b2 !! k) as [w2|] eqn:E2; [|exfalso..|done].
  2: { apply lookup_lt_Some in E1. apply lookup_ge_None in E2. lia. }
  2: { apply lookup_lt_Some in E2. apply lookup_ge_None in E1. lia. }
  f_equal. pose proof (lookup_lt_Some _ _ _ E1).
  apply word_ext; [by apply (Forall_lookup_1 _ _ _ _ Hw1 E1)|by apply (Forall_lookup_1 _ _ _ _ Hw2 E2)|].
  intros i Hi. set (pos := (64 * Z.of_nat k + i)%Z).
  assert (pos / 64 = Z.of_nat k)%Z as Hd by (symmetry; apply (Z.div_unique _ _ _ i); lia).
  assert (pos mod 64 = i)%Z as Hm by (symmetry; apply (Z.mod_unique _ _ (Z.of_nat k)); lia).
  assert (in_range b1 pos) as Hr by (unfold in_range, zlen; lia).
  assert (bit b1 pos = bit b2 pos) as Hbit.
  { apply eq_true_iff_eq. pose proof (in_range_length b1 b2 pos (eq_sym Hlen)).
    specialize (H1 pos). specialize (H2 pos). naive_solver. }
  unfold bit in Hbit. by rewrite Hd, Hm, Nat2Z.id, E1, E2 in Hbit.
Qed.

Lemma equals_loop_spec b b2 : length b = length b2 → equals_loop b b2 = true ↔ b = b2.
Proof.
  revert b2. induction b as [|v b IH]; intros [|v2 b2] Hlen; simplify_eq/=; [done|].
  destruct (Z.eqb_spec v v2); simpl; [rewrite IH by lia|]; naive_solver.
Qed.

Lemma equals_eq b b2 : equals b b2 = true ↔ b = b2.
Proof.
  unfold equals, zlen. destruct (Z.eqb_spec (Z.of_nat (length b)) (Z.of_nat (length b2)));
    simpl; [apply equals_loop_spec; lia|].
  split; [done|intros ->; done].
Qed.

Lemma hash_word b : wf b → (0 ≤ hash b < 2 ^ 64)%Z.
Proof.
  unfold hash. assert (0 ≤ u64 (popcnt b) < 2 ^ 64)%Z as Hs
    by (apply Z.mod_pos_bound; lia).
  revert Hs. generalize (u64 (popcnt b)). induction b as [|v b IH]; intros h Hh Hwf; [done|].
  apply Forall_cons in Hwf as [Hv Hwf]. simpl. apply IH; auto with go.
Qed.

(** *** Population count *)

(** The positions whose bit is set, in increasing order. *)
Definition positions (b : t) : list Z :=
  filter (λ p, bit b p = true) (seqZ 0 (64 * zlen b)).

Lemma popcnt_cons v b : popcnt (v :: b) = (OnesCount64 v + popcnt b)%Z.
Proof.
  unfold popcnt. simpl. generalize (OnesCount64 v).
  enough (∀ a c, foldl (λ total v, total + OnesCount64 v)%Z (a + c)%Z b
     = (a + foldl (λ total v, total + OnesCount64 v)%Z c b)%Z) as H.
  { intros z. by rewrite <- H, Z.add_comm. }
  induction b as [|w b IH]; intros a c; simpl; [done|]. by rewrite <- IH, Z.add_assoc.
Qed.

Lemma length_filter_fmap {A B} (P : B → Prop) `{∀ x, Decision (P x)} (f : A → B) l :
  length (filter P (f <$> l)) = length (filter (λ x, P (f x)) l).
Proof. induction l; simpl; [done|]. rewrite !filter_cons. case_decide; simpl; auto. Qed.

Lemma bit_cons_low v b (i : nat) : (i < 64)%nat → bit (v :: b) (Z.of_nat i) = Z.testbit v (Z.of_nat i).
Proof. intros. unfold bit. rewrite Z.div_small, Z.mod_small by lia. done. Qed.

Lemma bit_cons_high v b p : (0 ≤ p)%Z → bit (v :: b) (64 + p) = bit b p.
Proof.
  intros. unfold bit. replace (64 + p)%Z with (p + 1 * 64)%Z by lia.
  rewrite Z.div_add, Z.mod_add by lia.
  pose proof (Z.div_pos p 64 ltac:(lia) ltac:(lia)).
  replace (Z.to_nat (p / 64 + 1)) with (S (Z.to_nat (p / 64))) by lia. done.
Qed.

Lemma popcnt_positions b : popcnt b = zlen (positions b).
Proof.
  induction b as [|v b IH]; [done|]. rewrite popcnt_cons, IH. unfold positions.
  assert (64 * zlen (v :: b) = 64 + 64 * zlen b)%Z as -> by (unfold zlen; simpl; lia).
  rewrite seqZ_app by (unfold zlen; lia). rewrite filter_app, zlen_app. f_equal.
  - unfold OnesCount64, zlen, seqZ. f_equal. rewrite length_filter_fmap.
    change (Z.to_nat 64) with 64%nat.
    assert (∀ l, Forall (λ i, i < 64)%nat l →
      length (filter (λ i, Z.testbit v (Z.of_nat i) = true) l) =
      length (filter (λ x, bit (v :: b) (Z.of_nat x + 0) = true) l)) as Hl.
    { induction l as [|i l IHl]; intros Hl; [done|]. apply Forall_cons in Hl as [Hi Hl].
      rewrite !filter_cons, Z.add_0_r, bit_cons_low by done. case_decide; simpl; auto. }
    apply Hl, Forall_forall. intros i Hi%elem_of_seq. lia.
  - rewrite Z.add_comm, <- fmap_add_seqZ. unfold zlen at 1 3.
    rewrite length_filter_fmap. f_equal.
    assert (∀ l, Forall (λ i, 0 ≤ i)%Z l →
      length (filter (λ p, bit b p = true) l) =
      length (filter (λ x, bit (v :: b) (64 + x) = true) l)) as Hl.
    { induction l as [|i l IHl]; intros Hl; [done|]. apply Forall_cons in Hl as [Hi Hl].
      rewrite !filter_cons, bit_cons_high by done. case_decide; simpl; auto. }
    apply Hl, Forall_forall. intros i Hi%elem_of_seqZ. lia.
Qed.

Lemma popcnt_size b X : denotes b X → popcnt b = Z.of_nat (size X).
Proof.
  intros [_ H]. rewrite popcnt_positions. unfold zlen. f_equal.
  assert (X = list_to_set (positions b)) as ->.
  { apply set_eq. intros p. rewrite H, elem_of_list_to_set. unfold positions.
    rewrite list_elem_of_filter, elem_of_seqZ. unfold in_range. naive_solver lia. }
  rewrite size_list_to_set; [done|]. apply NoDup_filter, NoDup_seqZ.
Qed.

End bitset.
