(* ===== verification/Persister.v ===== *)
(** * raft/persister.go: stable storage for Raft state and snapshots

    A slice of bytes that may be [nil] is an [option (list Z)]; [None] is Go's
    [nil], whose length is 0.  [Save] replaces both slices by fresh clones, so a
    [Copy] that shares the old slices never observes a later [Save]. *)

From S2P Require Import Prelude.

Notation bytes := (list Z) (only parsing).

Record Persister := MkPersister {
  raftstate : option bytes;
  snapshot : option bytes;
}.

(** [len] of a possibly nil byte slice. *)
Definition blen (b : option bytes) : Z := zlen (default [] b).

Module persister.

Definition MakePersister : Persister := {| raftstate := None; snapshot := None |}.

(** [make] never returns nil, so a clone of nil is an empty non-nil slice. *)
Definition clone (orig : option bytes) : option bytes := Some (default [] orig).

Definition Copy (ps : Persister) : Persister :=
  {| raftstate := raftstate ps; snapshot := snapshot ps |}.

Definition ReadRaftState (ps : Persister) : option bytes := clone (raftstate ps).

Definition RaftStateSize (ps : Persister) : Z := blen (raftstate ps).

Definition Save (ps : Persister) (rs sn : option bytes) : Persister :=
  {| raftstate := clone rs; snapshot := clone sn |}.

Definition ReadSnapshot (ps : Persister) : option bytes := clone (snapshot ps).

Definition SnapshotSize (ps : Persister) : Z := blen (snapshot ps).

Lemma blen_clone b : blen (clone b) = blen b.
Proof. done. Qed.

Lemma clone_idemp b : clone (clone b) = clone b.
Proof. done. Qed.

End persister.
