(* ===== verification/Raft.v ===== *)
(** * raft/raft.go: one Raft peer

    The struct, the RPC argument and reply types, and every operation that
    runs under [rf.mu] as a function from the peer's state to its new state and
    result.  Goroutines and the network are in RaftCluster.v; here each
    critical section is one definition.

    Conventions: [int] is [Z]; [time.Now()] is a [now] argument in
    milliseconds; the empty interface [Command] is [option Cmd] with [None] for
    nil; [rf.peers] only matters through its length; [rf.condApply] is whether
    [CommitChecker] is parked in [Wait]; a run-time panic is [Panic]. *)

From S2P Require Import Prelude.
From S2P Require Import Persister.
Open Scope Z_scope.

(** [func min] *)
Definition min (a b : Z) : Z := if a <? b then a else b.

Inductive ServerState := Follower | Candidate | Leader | Dead.

#[export] Instance ServerState_eq_dec : EqDecision ServerState.
Proof. solve_decision. Defined.

Definition HeartBeatTimeOut : Z := 100.
Definition ElectTimeOutBase : Z := 450.

(** ** Data *)
Section data.
Context {Cmd : Type}.

Record LogEntry := MkEntry {
  le_Command : option Cmd;
  le_Term : Z;
  le_Index : Z;
}.

Record ApplyMsg := MkApplyMsg {
  am_CommandValid : bool;
  am_Command : option Cmd;
  am_CommandIndex : Z;
  am_SnapshotValid : bool;
  am_Snapshot : option (list Z);
  am_SnapshotTerm : Z;
  am_SnapshotIndex : Z;
}.

Record Raft := MkRaft {
  persister : Persister;
  me : Z;
  peers : nat;
  dead : Z;
  currentTerm : Z;
  votedFor : Z;
  log : list LogEntry;
  state : ServerState;
  commitIndex : Z;
  lastApplied : Z;
  nextIndex : list Z;
  matchIndex : list Z;
  lastReceive : Z;
  condApply : bool;
}.

Record RequestVoteArgs := MkRequestVoteArgs {
  rv_Term : Z;
  rv_CandidateId : Z;
  rv_LastLogIndex : Z;
  rv_LastLogTerm : Z;
}.

Record RequestVoteReply := MkRequestVoteReply {
  rvr_Term : Z;
  rvr_VoteGranted : bool;
}.

Record AppendEntriesArgs := MkAppendEntriesArgs {
  ae_Term : Z;
  ae_LeaderID : Z;
  ae_PrevLogIndex : Z;
  ae_PrevLogTerm : Z;
  ae_Entries : list LogEntry;
  ae_LeaderCommit : Z;
}.

Record AppendEntriesReply := MkAppendEntriesReply {
  aer_Term : Z;
  aer_Success : bool;
  aer_ConflictIndex : Z;
  aer_ConflictTerm : Z;
}.
End data.
Arguments LogEntry : clear implicits.
Arguments ApplyMsg : clear implicits.
Arguments Raft : clear implicits.
Arguments AppendEntriesArgs : clear implicits.

(** ** Field assignments *)
Section updates.
Context {Cmd : Type}.
Implicit Types rf : Raft Cmd.

Definition with_persister (p : Persister) rf := MkRaft p (me rf) (peers rf) (dead rf)
  (currentTerm rf) (votedFor rf) (log rf) (state rf) (commitIndex rf)
  (lastApplied rf) (nextIndex rf) (matchIndex rf) (lastReceive rf) (condApply rf).
Definition with_dead (d : Z) rf := MkRaft (persister rf) (me rf) (peers rf) d
  (currentTerm rf) (votedFor rf) (log rf) (state rf) (commitIndex rf)
  (lastApplied rf) (nextIndex rf) (matchIndex rf) (lastReceive rf) (condApply rf).
Definition with_currentTerm (t : Z) rf := MkRaft (persister rf) (me rf) (peers rf) (dead rf)
  t (votedFor rf) (log rf) (state rf) (commitIndex rf)
  (lastApplied rf) (nextIndex rf) (matchIndex rf) (lastReceive rf) (condApply rf).
Definition with_votedFor (v : Z) rf := MkRaft (persister rf) (me rf) (peers rf) (dead rf)
  (currentTerm rf) v (log rf) (state rf) (commitIndex rf)
  (lastApplied rf) (nextIndex rf) (matchIndex rf) (lastReceive rf) (condApply rf).
Definition with_log (l : list (LogEntry Cmd)) rf := MkRaft (persister rf) (me rf) (peers rf) (dead rf)
  (currentTerm rf) (votedFor rf) l (state rf) (commitIndex rf)
  (lastApplied rf) (nextIndex rf) (matchIndex rf) (lastReceive rf) (condApply rf).
Definition with_state (s : ServerState) rf := MkRaft (persister rf) (me rf) (peers rf) (dead rf)
  (currentTerm rf) (votedFor rf) (log rf) s (commitIndex rf)
  (lastApplied rf) (nextIndex rf) (matchIndex rf) (lastReceive rf) (condApply rf).
(** [rf.commitIndex = c; rf.condApply.Signal()], which the code always writes
    together: the parked applier, if any, is made runnable. *)
Definition with_commitIndex_signal (c : Z) rf := MkRaft (persister rf) (me rf) (peers rf) (dead rf)
  (currentTerm rf) (votedFor rf) (log rf) (state rf) c
  (lastApplied rf) (nextIndex rf) (matchIndex rf) (lastReceive rf) false.
Definition with_lastApplied (a : Z) rf := MkRaft (persister rf) (me rf) (peers rf) (dead rf)
  (currentTerm rf) (votedFor rf) (log rf) (state rf) (commitIndex rf)
  a (nextIndex rf) (matchIndex rf) (lastReceive rf) (condApply rf).
Definition with_nextIndex (n : list Z) rf := MkRaft (persister rf) (me rf) (peers rf) (dead rf)
  (currentTerm rf) (votedFor rf) (log rf) (state rf) (commitIndex rf)
  (lastApplied rf) n (matchIndex rf) (lastReceive rf) (condApply rf).
Definition with_matchIndex (m : list Z) rf := MkRaft (persister rf) (me rf) (peers rf) (dead rf)
  (currentTerm rf) (votedFor rf) (log rf) (state rf) (commitIndex rf)
  (lastApplied rf) (nextIndex rf) m (lastReceive rf) (condApply rf).
Definition with_lastReceive (t : Z) rf := MkRaft (persister rf) (me rf) (peers rf) (dead rf)
  (currentTerm rf) (votedFor rf) (log rf) (state rf) (commitIndex rf)
  (lastApplied rf) (nextIndex rf) (matchIndex rf) t (condApply rf).
Definition with_condApply (w : bool) rf := MkRaft (persister rf) (me rf) (peers rf) (dead rf)
  (currentTerm rf) (votedFor rf) (log rf) (state rf) (commitIndex rf)
  (lastApplied rf) (nextIndex rf) (matchIndex rf) (lastReceive rf) w.
End updates.

Module raft.
Section raft.
Context {Cmd : Type}.
Implicit Types rf : Raft Cmd.

(** ** Small helpers *)
Definition getLastLogIndex rf : Z := zlen (log rf) - 1.

Definition getLastLogTerm rf : outcome Z :=
  if getLastLogIndex rf <? 0 then Panic "empty slice"
  else let! e := idx (log rf) (getLastLogIndex rf) in Done (le_Term e).

Definition GetState rf : Z * bool :=
  (currentTerm rf, bool_decide (state rf = Leader)).

Definition isLogUpToDate rf (cLastIdx cLastTerm : Z) : outcome bool :=
  let lastLogIndex := getLastLogIndex rf in
  let! lastLogTerm := getLastLogTerm rf in
  if lastLogTerm <? cLastTerm then Done true
  else if (cLastTerm =? lastLogTerm) && (lastLogIndex <=? cLastIdx) then Done true
  else Done false.

Definition convertToCandidate rf : Raft Cmd :=
  with_votedFor (me rf)
    (with_currentTerm (currentTerm rf + 1) (with_state Candidate rf)).

Definition convertToFollower (now : Z) (term : Z) rf : Raft Cmd :=
  with_lastReceive now (with_votedFor (-1) (with_currentTerm term (with_state Follower rf))).

Definition convertToLeader rf : Raft Cmd :=
  let lastIndex := getLastLogIndex rf in
  with_matchIndex (replicate (peers rf) 0)
    (with_nextIndex (replicate (peers rf) (lastIndex + 1)) (with_state Leader rf)).

Definition Kill rf : Raft Cmd := with_state Dead (with_dead 1 rf).
Definition killed rf : bool := dead rf =? 1.

(** [Start]: the command goes to the end of a leader's log. *)
Definition Start rf (command : option Cmd) : Raft Cmd * (Z * Z * bool) :=
  if negb (bool_decide (state rf = Leader)) then (rf, (-1, currentTerm rf, false))
  else
    let term := currentTerm rf in
    let entry := MkEntry command term 0 in
    let rf := with_log (log rf ++ [entry]) rf in
    (rf, (getLastLogIndex rf, term, true)).

(** ** RequestVote handler *)
Definition RequestVote (now : Z) rf (args : RequestVoteArgs)
    : outcome (Raft Cmd * RequestVoteReply) :=
  if rv_Term args <? currentTerm rf then
    Done (rf, MkRequestVoteReply (currentTerm rf) false)
  else
    let rf :=
      if currentTerm rf <? rv_Term args
      then with_state Follower (with_currentTerm (rv_Term args) (with_votedFor (-1) rf))
      else rf in
    if (votedFor rf =? -1) || (votedFor rf =? rv_CandidateId args) then
      let! last := idx (log rf) (zlen (log rf) - 1) in
      if (le_Term last <? rv_LastLogTerm args)
         || ((rv_LastLogTerm args =? le_Term last)
             && (zlen (log rf) - 1 <=? rv_LastLogIndex args)) then
        let rf := with_currentTerm (rv_Term args) rf in
        let rf' := with_lastReceive now
                     (with_state Follower (with_votedFor (rv_CandidateId args) rf)) in
        Done (rf', MkRequestVoteReply (currentTerm rf) true)
      else Done (rf, MkRequestVoteReply (currentTerm rf) false)
    else Done (rf, MkRequestVoteReply (currentTerm rf) false).

(** ** AppendEntries handler *)

(** [for i := PrevLogIndex; i >= 0; i-- { if log[i].Term != ConflictTerm
    { ConflictIndex = i + 1; break } }]; [k] is [i + 1], and the field keeps
    its zero value when the loop runs out. *)
Fixpoint conflictIndex_loop (l : list (LogEntry Cmd)) (ct : Z) (k : nat) : outcome Z :=
  match k with
  | O => Done 0
  | S i =>
      let! e := idx l (Z.of_nat i) in
      if negb (le_Term e =? ct) then Done (Z.of_nat i + 1)
      else conflictIndex_loop l ct i
  end.

(** The rejection reply of the consistency check.  The debug call reads the
    last log entry even when printing is off. *)
Definition AppendEntries_reject rf (args : AppendEntriesArgs Cmd) : outcome AppendEntriesReply :=
  let! _ := idx (log rf) (zlen (log rf) - 1) in
  if zlen (log rf) <=? ae_PrevLogIndex args then
    Done (MkAppendEntriesReply (currentTerm rf) false (zlen (log rf)) (-1))
  else
    let! e := idx (log rf) (ae_PrevLogIndex args) in
    let! ci := conflictIndex_loop (log rf) (le_Term e)
                 (Z.to_nat (ae_PrevLogIndex args + 1)) in
    Done (MkAppendEntriesReply (currentTerm rf) false ci (le_Term e)).

(** Steps 3 and 4: drop a conflicting suffix, then append all the entries. *)
Definition AppendEntries_log rf (args : AppendEntriesArgs Cmd) : outcome (list (LogEntry Cmd)) :=
  let! l :=
    match ae_Entries args with
    | [] => Done (log rf)
    | e0 :: _ =>
        if ae_PrevLogIndex args + 1 <? zlen (log rf) then
          let! e := idx (log rf) (ae_PrevLogIndex args + 1) in
          if negb (le_Term e =? le_Term e0)
          then slice_to (log rf) (ae_PrevLogIndex args + 1)
          else Done (log rf)
        else Done (log rf)
    end in
  Done (l ++ ae_Entries args).

(** [PrevLogIndex >= len(log) || log[PrevLogIndex].Term != PrevLogTerm] *)
Definition AppendEntries_mismatch rf (args : AppendEntriesArgs Cmd) : outcome bool :=
  if zlen (log rf) <=? ae_PrevLogIndex args then Done true
  else let! e := idx (log rf) (ae_PrevLogIndex args) in
       Done (negb (le_Term e =? ae_PrevLogTerm args)).

Definition AppendEntries (now : Z) rf (args : AppendEntriesArgs Cmd)
    : outcome (Raft Cmd * AppendEntriesReply) :=
  if ae_Term args <? currentTerm rf then
    Done (rf, MkAppendEntriesReply (currentTerm rf) false 0 0)
  else
    let rf := with_lastReceive now rf in
    let rf :=
      if currentTerm rf <? ae_Term args
      then with_state Follower (with_votedFor (-1) (with_currentTerm (ae_Term args) rf))
      else rf in
    let! mismatch := AppendEntries_mismatch rf args in
    if (mismatch : bool) then
      let! reply := AppendEntries_reject rf args in
      Done (rf, reply)
    else
      let! l := AppendEntries_log rf args in
      let rf := with_log l rf in
      let reply := MkAppendEntriesReply (currentTerm rf) true 0 0 in
      let rf :=
        if commitIndex rf <? ae_LeaderCommit args
        then with_commitIndex_signal (min (ae_LeaderCommit args) (getLastLogIndex rf)) rf
        else rf in
      Done (rf, reply).

(** ** The leader's side of AppendEntries *)

(** The inner [for i := range rf.peers] of the commit rule: whether the count
    passes [len(peers)/2] before the peers run out. *)
Fixpoint commit_count_loop rf (N : Z) (ps : list nat) (count : Z) : outcome bool :=
  match ps with
  | [] => Done false
  | i :: ps' =>
      let! mi := idx (matchIndex rf) (Z.of_nat i) in
      let! hit := (if N <=? mi
                   then let! e := idx (log rf) N in Done (le_Term e =? currentTerm rf)
                   else Done false) in
      if (hit : bool) then
        if Z.of_nat (peers rf) / 2 <? count + 1 then Done true
        else commit_count_loop rf N ps' (count + 1)
      else commit_count_loop rf N ps' count
  end.

(** [for N > rf.commitIndex { ...; N-- }]: [fuel] is [N - commitIndex], which
    bounds the iterations since [N] falls and [commitIndex] never does. *)
Fixpoint commit_loop (fuel : nat) (N : Z) rf : outcome (Raft Cmd) :=
  match fuel with
  | O => Done rf
  | S fuel =>
      if commitIndex rf <? N then
        let! hit := commit_count_loop rf N (seq 0 (peers rf)) 1 in
        commit_loop fuel (N - 1)
          (if (hit : bool) then with_commitIndex_signal N rf else rf)
      else Done rf
  end.

(** [for i := getLastLogIndex(); i >= 0; i--] searching for the last entry of
    term [ct]; [k] is [i + 1] and -1 means not found. *)
Fixpoint lastIndexOfTerm_loop (l : list (LogEntry Cmd)) (ct : Z) (k : nat) : outcome Z :=
  match k with
  | O => Done (-1)
  | S i =>
      let! e := idx l (Z.of_nat i) in
      if le_Term e =? ct then Done (Z.of_nat i) else lastIndexOfTerm_loop l ct i
  end.

(** The part of [handleAppendEntries] that runs when the RPC returned, as a change of
    the peer's state.  On its last branch the code returns without [rf.mu.Unlock()]:
    [handleAppendEntries_holds] tells when, and RaftLock.v shows that only a killed
    peer gets there. *)
Definition handleAppendEntries (now : Z) rf (serverTo : Z)
    (args : AppendEntriesArgs Cmd) (reply : AppendEntriesReply) : outcome (Raft Cmd) :=
  if negb (ae_Term args =? currentTerm rf) then Done rf
  else if aer_Success reply then
    let mi := ae_PrevLogIndex args + zlen (ae_Entries args) in
    let! m := set_idx (matchIndex rf) serverTo mi in
    let! n := set_idx (nextIndex rf) serverTo (mi + 1) in
    let rf := with_nextIndex n (with_matchIndex m rf) in
    let N := zlen (log rf) - 1 in
    commit_loop (Z.to_nat (N - commitIndex rf)) N rf
  else if currentTerm rf <? aer_Term reply then
    Done (convertToFollower now (aer_Term reply) rf)
  else if (aer_Term reply =? currentTerm rf) && bool_decide (state rf = Leader) then
    let! next :=
      (if negb (aer_ConflictTerm reply =? 0) then
         let! conflictIndex :=
           lastIndexOfTerm_loop (log rf) (aer_ConflictTerm reply) (Z.to_nat (getLastLogIndex rf + 1)) in
         if negb (conflictIndex =? -1) then Done (conflictIndex + 1)
         else Done (aer_ConflictIndex reply)
       else Done (aer_ConflictIndex reply)) in
    let! n := set_idx (nextIndex rf) serverTo next in
    Done (with_nextIndex n rf)
  else Done rf.

(** The path that reaches the closing brace with the mutex held: a rejection of the
    current term, no newer term in the reply, and the peer no longer a leader of the
    reply's term. *)
Definition handleAppendEntries_holds rf (args : AppendEntriesArgs Cmd) (reply : AppendEntriesReply) : bool :=
  (ae_Term args =? currentTerm rf) && negb (aer_Success reply) && negb (currentTerm rf <? aer_Term reply)
  && negb ((aer_Term reply =? currentTerm rf) && bool_decide (state rf = Leader)).

(** The arguments [SendHeartBeats] builds for peer [i]. *)
Definition heartbeat_args rf (i : nat) : outcome (AppendEntriesArgs Cmd) :=
  let! ni := idx (nextIndex rf) (Z.of_nat i) in
  let! prev := idx (log rf) (ni - 1) in
  let! entries :=
    (if ni <=? zlen (log rf) - 1 then slice_from (log rf) ni else Done []) in
  Done (MkAppendEntriesArgs (currentTerm rf) (me rf) (ni - 1) (le_Term prev) entries (commitIndex rf)).

Fixpoint heartbeat_round rf (ps : list nat) : outcome (list (nat * AppendEntriesArgs Cmd)) :=
  match ps with
  | [] => Done []
  | i :: ps' =>
      if Z.of_nat i =? me rf then heartbeat_round rf ps'
      else
        let! args := heartbeat_args rf i in
        let! rest := heartbeat_round rf ps' in
        Done ((i, args) :: rest)
  end.

(** One iteration of [SendHeartBeats]: [None] when the loop returns, the RPCs
    it spawns otherwise. *)
Definition SendHeartBeats rf : outcome (option (list (nat * AppendEntriesArgs Cmd))) :=
  if killed rf then Done None
  else if negb (bool_decide (state rf = Leader)) then Done None
  else let! msgs := heartbeat_round rf (seq 0 (peers rf)) in Done (Some msgs).

(** ** Elections *)

(** The critical section of [KickOffElection], with the arguments it sends. *)
Definition KickOffElection (now : Z) rf : outcome (Raft Cmd * RequestVoteArgs) :=
  let rf := with_lastReceive now
              (with_votedFor (me rf)
                 (with_state Candidate (with_currentTerm (currentTerm rf + 1) rf))) in
  let! lt := getLastLogTerm rf in
  Done (rf, MkRequestVoteArgs (currentTerm rf) (me rf) (getLastLogIndex rf) lt).

(** The peers a vote is requested from. *)
Definition vote_targets rf : list nat :=
  filter (λ i : nat, Z.of_nat i ≠ me rf) (seq 0 (peers rf)).

(** [handleRequestVote] once the RPC returned: the vote sent on [voteCh], if
    any. *)
Definition handleRequestVote (now : Z) rf (args : RequestVoteArgs) (reply : RequestVoteReply)
    : Raft Cmd * option bool :=
  if negb (bool_decide (state rf = Candidate)) || negb (currentTerm rf =? rv_Term args)
  then (rf, None)
  else if currentTerm rf <? rvr_Term reply
  then (convertToFollower now (rvr_Term reply) rf, None)
  else (rf, Some (rvr_VoteGranted reply)).

(** The body of the [collectVotes] loop after a vote was received: the new
    peer state, the new count, and whether the function returns. *)
Definition collectVotes rf (vote : bool) (votesReceived : Z) : Raft Cmd * Z * bool :=
  let votesReceived := if vote then votesReceived + 1 else votesReceived in
  if negb (bool_decide (state rf = Candidate)) then (rf, votesReceived, true)
  else if Z.of_nat (peers rf) / 2 <? votesReceived
  then (convertToLeader rf, votesReceived, true)
  else (rf, votesReceived, false).

(** Whether an iteration of [ticker] starts an election; [rdTimeOut] is the
    randomised timeout in milliseconds. *)
Definition getElectionTimeout (rand : Z) : Z := 50 + rand mod 300.
Definition getRandomElectTimeOut (plusMs : Z) : Z := plusMs + ElectTimeOutBase.
Definition ticker (now rdTimeOut : Z) rf : bool :=
  negb (killed rf) && negb (bool_decide (state rf = Leader)) && (rdTimeOut <? now - lastReceive rf).

(** ** Applying committed entries *)

(** [for rf.commitIndex > rf.lastApplied { ... applyCh <- msg }] *)
Fixpoint apply_loop (fuel : nat) rf : outcome (Raft Cmd * list (ApplyMsg Cmd)) :=
  match fuel with
  | O => Done (rf, [])
  | S fuel =>
      if lastApplied rf <? commitIndex rf then
        let rf := with_lastApplied (lastApplied rf + 1) rf in
        let! e := idx (log rf) (lastApplied rf) in
        let msg := MkApplyMsg true (le_Command e) (lastApplied rf) false None 0 0 in
        let! '(rf, msgs) := apply_loop fuel rf in
        Done (rf, msg :: msgs)
      else Done (rf, [])
  end.

(** One critical section of [CommitChecker]: it parks in [Wait] when there is
    nothing to apply and drains the committed entries otherwise. *)
Definition CommitChecker rf : outcome (Raft Cmd * list (ApplyMsg Cmd)) :=
  if commitIndex rf <=? lastApplied rf then Done (with_condApply true rf, [])
  else apply_loop (Z.to_nat (commitIndex rf - lastApplied rf)) rf.

(** ** Persistence and construction *)

(** [persist] encodes the three persistent fields; the encoder is labgob's. *)
Definition persist (encode : Z → Z → list (LogEntry Cmd) → list Z) rf : Raft Cmd :=
  let raftstate := encode (currentTerm rf) (votedFor rf) (log rf) in
  with_persister (persister.Save (persister rf) (Some raftstate) None) rf.

(** [readPersist] looks at the length and then has an empty body. *)
Definition readPersist rf (data : option (list Z)) : Raft Cmd :=
  if bool_decide (data = None) || (blen data <? 1) then rf else rf.

Definition Snapshot rf (index : Z) (snapshot : option (list Z)) : Raft Cmd := rf.

Definition Make (now : Z) (npeers : nat) (id : Z) (ps : Persister) : Raft Cmd :=
  let rf := MkRaft ps id npeers 0 0 0 [] Follower 0 0 [] [] 0 false in
  let rf := convertToFollower now 0 rf in
  let rf := with_matchIndex (replicate npeers 0) (with_nextIndex (replicate npeers 0) rf) in
  let rf := with_log (log rf ++ [MkEntry None 0 0]) rf in
  let rf := with_lastReceive now rf in
  readPersist rf (persister.ReadRaftState ps).
End raft.
End raft.
