(* ===== verification/RaftCluster.v ===== *)
(** * A cluster of Raft peers (raft/raft.go)

    The goroutines of raft.go and the RPCs between the peers as a labelled step
    relation.  Every step runs one critical section of Raft.v:

    - [step_kick] is [KickOffElection] up to the [go handleRequestVote] loop;
    - [step_vote_request]/[step_vote_reply] run the RPC handler and then the
      part of [handleRequestVote] after [sendRequestVote] returned true;
    - [step_collect] is one iteration of [collectVotes];
    - [step_heartbeat] is one iteration of [SendHeartBeats];
    - [step_append_request]/[step_append_reply] run [AppendEntries] and the part
      of [handleAppendEntries] after [sendAppendEntries] returned true;
    - [step_apply] is one critical section of [CommitChecker];
    - [step_start], [step_kill] are calls of the service;
    - [step_lose_vote]/[step_lose_append]: [Call] returned false.

    labrpc runs a handler at most once per [Call], in any order and after any
    delay, so an RPC is one pending task that is consumed by its steps.  The
    receive of [collectVotes] only touches the channel and a local, so it is
    merged with the critical section that follows it. *)

From S2P Require Import Prelude.
From S2P Require Import Persister.
From S2P Require Import Raft.
From S2P Require Import RaftFacts.
Open Scope Z_scope.

Module cluster.

(** One run of [KickOffElection]: the peer, the arguments it sent, the buffered
    [voteCh], and the locals of [collectVotes]. *)
Record election := MkElection {
  el_server : nat;
  el_args : RequestVoteArgs;
  el_chan : list bool;
  el_votes : Z;
  el_iter : nat;
  el_returned : bool;
}.

(** A RequestVote call: not yet handled, or handled and not yet returned.
    [eid] is the election it belongs to. *)
Inductive vote_rpc :=
  | VReq (eid dst : nat)
  | VRep (eid dst : nat) (reply : RequestVoteReply).

Definition vote_rpc_eid (r : vote_rpc) : nat :=
  match r with VReq e _ => e | VRep e _ _ => e end.
Definition vote_rpc_dst (r : vote_rpc) : nat :=
  match r with VReq _ d => d | VRep _ d _ => d end.

(** Events of a run that the theorems talk about. *)
Inductive label {Cmd : Type} :=
  | LKick (eid i : nat) (t : Z)          (** [i] starts election [eid] in term [t] *)
  | LGrant (j : nat) (t : Z) (c : nat)   (** [j] grants its vote of term [t] to [c] *)
  | LPush (eid j : nat)                  (** a positive vote of [j] enters [voteCh] *)
  | LWin (eid i : nat) (te t : Z)        (** election [eid], begun in [te], makes [i] leader of [t] *)
  | LApply (i : nat) (msgs : list (ApplyMsg Cmd))
  | LTau.
Arguments label : clear implicits.

Section cluster.
Context {Cmd : Type}.

Inductive append_rpc :=
  | AReq (src dst : nat) (args : AppendEntriesArgs Cmd)
  | ARep (src dst : nat) (args : AppendEntriesArgs Cmd) (reply : AppendEntriesReply).

Record cluster := MkCluster {
  nodes : list (Raft Cmd);
  elections : list election;
  votes : list vote_rpc;
  appends : list append_rpc;
}.

Definition init (n : nat) : cluster :=
  MkCluster ((λ i, raft.Make 0 n (Z.of_nat i) persister.MakePersister) <$> seq 0 n) [] [] [].

Definition set_node (i : nat) (rf : Raft Cmd) (σ : cluster) : cluster :=
  MkCluster (<[i := rf]> (nodes σ)) (elections σ) (votes σ) (appends σ).

Definition push_vote (el : election) (o : option bool) : election :=
  MkElection (el_server el) (el_args el)
    (el_chan el ++ match o with Some b => [b] | None => [] end)
    (el_votes el) (el_iter el) (el_returned el).

Definition push_label (eid j : nat) (o : option bool) : label Cmd :=
  match o with Some true => LPush eid j | _ => LTau end.

Definition grant_label (j : nat) (args : RequestVoteArgs) (r : RequestVoteReply) : label Cmd :=
  if rvr_VoteGranted r then LGrant j (rv_Term args) (Z.to_nat (rv_CandidateId args)) else LTau.

(** A peer turns leader exactly when the state changes from Candidate. *)
Definition win_label (eid : nat) (el : election) (rf rf' : Raft Cmd) : label Cmd :=
  if bool_decide (state rf = Candidate) && bool_decide (state rf' = Leader)
  then LWin eid (el_server el) (rv_Term (el_args el)) (currentTerm rf') else LTau.

Inductive step (σ : cluster) : label Cmd → cluster → Prop :=
  | step_kick i now rf rf' args :
      nodes σ !! i = Some rf →
      raft.KickOffElection now rf = Done (rf', args) →
      step σ (LKick (length (elections σ)) i (rv_Term args))
        (MkCluster (<[i := rf']> (nodes σ))
           (elections σ ++ [MkElection i args [] 1 0 false])
           (votes σ ++ (VReq (length (elections σ)) <$> raft.vote_targets rf'))
           (appends σ))
  | step_vote_request l1 l2 eid dst el now rf rf' r :
      votes σ = l1 ++ VReq eid dst :: l2 →
      elections σ !! eid = Some el →
      nodes σ !! dst = Some rf →
      raft.RequestVote now rf (el_args el) = Done (rf', r) →
      step σ (grant_label dst (el_args el) r)
        (MkCluster (<[dst := rf']> (nodes σ)) (elections σ)
           (l1 ++ VRep eid dst r :: l2) (appends σ))
  | step_vote_reply l1 l2 eid dst el now rf rf' r o :
      votes σ = l1 ++ VRep eid dst r :: l2 →
      elections σ !! eid = Some el →
      nodes σ !! el_server el = Some rf →
      raft.handleRequestVote now rf (el_args el) r = (rf', o) →
      step σ (push_label eid dst o)
        (MkCluster (<[el_server el := rf']> (nodes σ)) (<[eid := push_vote el o]> (elections σ))
           (l1 ++ l2) (appends σ))
  | step_collect eid el b ch rf rf' v ret :
      elections σ !! eid = Some el →
      el_returned el = false →
      el_chan el = b :: ch →
      nodes σ !! el_server el = Some rf →
      Z.of_nat (el_iter el) < Z.of_nat (peers rf) - 1 →
      raft.collectVotes rf b (el_votes el) = (rf', v, ret) →
      step σ (win_label eid el rf rf')
        (MkCluster (<[el_server el := rf']> (nodes σ))
           (<[eid := MkElection (el_server el) (el_args el) ch v (S (el_iter el)) ret]> (elections σ))
           (votes σ) (appends σ))
  | step_heartbeat i rf msgs :
      nodes σ !! i = Some rf →
      raft.SendHeartBeats rf = Done (Some msgs) →
      step σ LTau
        (MkCluster (nodes σ) (elections σ) (votes σ)
           (appends σ ++ ((λ m, AReq i m.1 m.2) <$> msgs)))
  | step_append_request l1 l2 src dst args now rf rf' r :
      appends σ = l1 ++ AReq src dst args :: l2 →
      nodes σ !! dst = Some rf →
      raft.AppendEntries now rf args = Done (rf', r) →
      step σ LTau
        (MkCluster (<[dst := rf']> (nodes σ)) (elections σ) (votes σ)
           (l1 ++ ARep src dst args r :: l2))
  | step_append_reply l1 l2 src dst args r now rf rf' :
      appends σ = l1 ++ ARep src dst args r :: l2 →
      nodes σ !! src = Some rf →
      raft.handleAppendEntries now rf (Z.of_nat dst) args r = Done rf' →
      step σ LTau
        (MkCluster (<[src := rf']> (nodes σ)) (elections σ) (votes σ) (l1 ++ l2))
  | step_apply i rf rf' msgs :
      nodes σ !! i = Some rf →
      condApply rf = false →
      raft.CommitChecker rf = Done (rf', msgs) →
      step σ (LApply i msgs) (set_node i rf' σ)
  | step_start i rf c :
      nodes σ !! i = Some rf →
      step σ LTau (set_node i (raft.Start rf c).1 σ)
  | step_kill i rf :
      nodes σ !! i = Some rf →
      step σ LTau (set_node i (raft.Kill rf) σ)
  | step_lose_vote l1 l2 m :
      votes σ = l1 ++ m :: l2 →
      step σ LTau (MkCluster (nodes σ) (elections σ) (l1 ++ l2) (appends σ))
  | step_lose_append l1 l2 m :
      appends σ = l1 ++ m :: l2 →
      step σ LTau (MkCluster (nodes σ) (elections σ) (votes σ) (l1 ++ l2)).

(** Runs of a cluster of [n] peers; the newest event comes first. *)
Inductive exec (n : nat) : list (label Cmd) → cluster → Prop :=
  | exec_init : exec n [] (init n)
  | exec_step tr σ l σ' : exec n tr σ → step σ l σ' → exec n (l :: tr) σ'.

End cluster.
Arguments append_rpc : clear implicits.
Arguments cluster : clear implicits.
End cluster.
