(* ===== verification/RaftBase.v ===== *)
(** * Structural invariant of a Raft cluster

    What holds of every peer and every pending RPC in every run, whatever the
    network does: identities, slice shapes, the sentinel entry, terms of log
    entries, and well-formed RPCs.  The election and log theorems build on it. *)

From S2P Require Import Prelude.
From S2P Require Import Persister.
From S2P Require Import Raft.
From S2P Require Import RaftFacts.
From S2P Require Import RaftCluster.
Open Scope Z_scope.

Import raft_facts cluster.

Module raft_base.
Section raft_base.
Context {Cmd : Type}.
Implicit Types (rf : Raft Cmd) (σ : cluster Cmd).

(** The sentinel has term 0, every real entry a positive term. *)
Definition entries_ok (es : list (LogEntry Cmd)) : Prop := Forall (λ e, 1 ≤ le_Term e) es.
Definition log_ok (l : list (LogEntry Cmd)) : Prop :=
  ∃ e es, l = e :: es ∧ le_Term e = 0 ∧ entries_ok es.

Record node_ok (n i : nat) rf : Prop := {
  n_me : me rf = Z.of_nat i;
  n_peers : peers rf = n;
  n_log : log_ok (log rf);
  n_next : length (nextIndex rf) = n;
  n_match : length (matchIndex rf) = n;
  n_commit : 0 ≤ commitIndex rf;
  n_applied : 0 ≤ lastApplied rf;
  n_term : 0 ≤ currentTerm rf;
  n_active : state rf = Candidate ∨ state rf = Leader → 1 ≤ currentTerm rf;
}.

Record args_ok (args : AppendEntriesArgs Cmd) : Prop := {
  a_prev : 0 ≤ ae_PrevLogIndex args;
  a_zero : ae_PrevLogIndex args = 0 → ae_PrevLogTerm args = 0;
  a_entries : entries_ok (ae_Entries args);
  a_term : 1 ≤ ae_Term args;
}.

(** A rejection in the leader's own term hints at a proper index. *)
Definition reply_ok (args : AppendEntriesArgs Cmd) (r : AppendEntriesReply) : Prop :=
  ae_Term args ≤ aer_Term r ∧
  (aer_Success r = false → aer_Term r = ae_Term args →
   1 ≤ aer_ConflictIndex r ≤ ae_PrevLogIndex args).

Definition append_ok (n : nat) (m : append_rpc Cmd) : Prop :=
  match m with
  | AReq src dst args => (src < n)%nat ∧ (dst < n)%nat ∧ src ≠ dst ∧ args_ok args
  | ARep src dst args r =>
      (src < n)%nat ∧ (dst < n)%nat ∧ src ≠ dst ∧ args_ok args ∧ reply_ok args r
  end.

Definition election_ok (n : nat) (el : election) : Prop :=
  (el_server el < n)%nat ∧ rv_CandidateId (el_args el) = Z.of_nat (el_server el) ∧
  1 ≤ rv_Term (el_args el).

Definition vote_ok (n : nat) (els : list election) (m : vote_rpc) : Prop :=
  ∃ el, els !! vote_rpc_eid m = Some el ∧
    (vote_rpc_dst m < n)%nat ∧ vote_rpc_dst m ≠ el_server el.

Record base (n : nat) σ : Prop := {
  b_len : length (nodes σ) = n;
  b_node : ∀ i rf, nodes σ !! i = Some rf → node_ok n i rf;
  b_append : Forall (append_ok n) (appends σ);
  b_election : Forall (election_ok n) (elections σ);
  b_vote : Forall (vote_ok n (elections σ)) (votes σ);
}.

(** ** Lists with one element changed *)

Lemma Forall_consume {A} (P : A → Prop) l1 x l2 :
  Forall P (l1 ++ x :: l2) → P x ∧ Forall P (l1 ++ l2).
Proof. rewrite !Forall_app, Forall_cons. naive_solver. Qed.

Lemma Forall_replace {A} (P : A → Prop) l1 x y l2 :
  Forall P (l1 ++ x :: l2) → P y → Forall P (l1 ++ y :: l2).
Proof. rewrite !Forall_app, !Forall_cons. naive_solver. Qed.

Lemma lookup_insert_cases {A} (l : list A) i j x y :
  <[i := x]> l !! j = Some y → (j = i ∧ y = x) ∨ (j ≠ i ∧ l !! j = Some y).
Proof. intros [(-> & -> & _)|[? ?]]%list_lookup_insert_Some; auto. Qed.

Lemma base_set_node n σ i rf rf' :
  base n σ → nodes σ !! i = Some rf → node_ok n i rf' →
  length (<[i := rf']> (nodes σ)) = n ∧
  ∀ j r, <[i := rf']> (nodes σ) !! j = Some r → node_ok n j r.
Proof.
  intros Hb Hi Hok. split; [rewrite length_insert; apply Hb|].
  intros j r [[-> ->]|[? ?]]%lookup_insert_cases; [done|]. by apply Hb.
Qed.

(** ** Logs *)

Lemma log_ok_nonempty l : log_ok l → l ≠ [].
Proof. intros (e & es & -> & _). done. Qed.

Lemma log_ok_zlen l : log_ok l → 1 ≤ zlen l.
Proof. intros (e & es & -> & _). unfold zlen. simpl. lia. Qed.

Lemma log_ok_app l es : log_ok l → entries_ok es → log_ok (l ++ es).
Proof.
  intros (e & es' & -> & ? & ?) ?. exists e, (es' ++ es).
  split_and!; [done..|]. by apply Forall_app.
Qed.

Lemma log_ok_take l (k : nat) : log_ok l → (1 ≤ k)%nat → log_ok (take k l).
Proof.
  intros (e & es & -> & ? & ?) ?. destruct k as [|k]; [lia|]. exists e, (take k es).
  split_and!; [done..|]. by apply Forall_take.
Qed.

Lemma log_ok_accept l prev es :
  log_ok l → 0 ≤ prev → entries_ok es → log_ok (accept_log l prev es).
Proof.
  intros Hl Hp Hes. unfold accept_log. destruct es as [|e0 es]; [done|].
  destruct (_ && _); apply log_ok_app; auto. apply log_ok_take; [done|lia].
Qed.

Lemma log_ok_term_pos l j : log_ok l → 1 ≤ j < zlen l → 1 ≤ term_at l j.
Proof.
  intros (e & es & -> & _ & Hes) Hj.
  destruct (idx_term_at (e :: es) j) as (x & Hx & <-); [lia|].
  apply idx_Done in Hx as [_ Hx]. destruct (Z.to_nat j) as [|k] eqn:E; [lia|].
  simpl in Hx. by apply (Forall_lookup_1 _ _ _ _ Hes Hx).
Qed.

Lemma log_ok_term_zero l : log_ok l → term_at l 0 = 0.
Proof. intros (e & es & -> & ? & _). done. Qed.

Lemma log_ok_drop l (k : nat) : log_ok l → (1 ≤ k)%nat → entries_ok (drop k l).
Proof.
  intros (e & es & -> & _ & Hes) ?. destruct k as [|k]; [lia|]. simpl. by apply Forall_drop.
Qed.

(** A rejection hint always lies in [1 .. PrevLogIndex]. *)
Lemma reject_hint l term args r :
  log_ok l → args_ok args → ¬ prev_matches l args → reject_reply l term args r →
  1 ≤ aer_ConflictIndex r ≤ ae_PrevLogIndex args.
Proof.
  intros Hl Ha Hmm (_ & _ & H). pose proof (log_ok_zlen l Hl).
  destruct (Z.leb_spec (zlen l) (ae_PrevLogIndex args)) as [Hge|Hlt]; [lia|].
  destruct H as (Hct & Hb & Hrun & Hstop). pose proof (a_prev _ Ha).
  destruct (decide (1 ≤ aer_ConflictIndex r)) as [|Hz]; [lia|]. exfalso. apply Hmm.
  pose proof (Hrun 0 ltac:(lia)) as Hr0. rewrite (log_ok_term_zero l Hl) in Hr0.
  destruct (decide (ae_PrevLogIndex args = 0)) as [E|Hne].
  - split; [lia|]. rewrite (a_zero _ Ha E), E. by apply log_ok_term_zero.
  - pose proof (log_ok_term_pos l (ae_PrevLogIndex args) Hl ltac:(lia)). lia.
Qed.

(** ** Each critical section keeps a peer well-formed *)

(** Rewrites the goal with the field equations of the context. *)
Ltac fields := repeat match goal with H : ?f ?x = ?f ?y |- context [?f ?x] =>
  is_var x; is_var y; rewrite H end.

Ltac node := constructor; simpl; try done; try (intros [?|?]; done || lia).

Lemma Make_ok n i : node_ok n i (raft.Make (Cmd := Cmd) 0 n (Z.of_nat i) persister.MakePersister).
Proof.
  node; rewrite ?length_replicate; try done.
  exists (MkEntry None 0 0), []. repeat split; constructor.
Qed.

Lemma KickOff_ok n i now rf rf' args :
  node_ok n i rf → raft.KickOffElection now rf = Done (rf', args) →
  node_ok n i rf' ∧ currentTerm rf' = currentTerm rf + 1 ∧ votedFor rf' = Z.of_nat i ∧
  state rf' = Candidate ∧ log rf' = log rf ∧
  rv_Term args = currentTerm rf' ∧ rv_CandidateId args = Z.of_nat i.
Proof.
  intros [] H. unfold raft.KickOffElection in H. inv_done. simpl.
  split_and!; try done. node; lia.
Qed.

Lemma RequestVote_ok n i now rf args rf' r :
  node_ok n i rf → raft.RequestVote now rf args = Done (rf', r) →
  node_ok n i rf' ∧ (state rf' = Leader → state rf = Leader ∧ currentTerm rf' = currentTerm rf) ∧
  (rf' = rf ∨ state rf' = Follower) ∧ nextIndex rf' = nextIndex rf.
Proof.
  intros [] H. unfold raft.RequestVote in H. go_inv; z_bool; simpl in *;
    split_and!; try (by left); try (by right); try done; node; lia.
Qed.

Lemma handleRequestVote_ok n i now rf args r rf' o :
  node_ok n i rf → raft.handleRequestVote now rf args r = (rf', o) →
  node_ok n i rf' ∧ ballot_le rf rf' ∧ log rf' = log rf ∧
  (rf' = rf ∨ state rf' = Follower).
Proof.
  intros [] H. unfold raft.handleRequestVote in H. split_ifs; simplify_eq; z_bool;
    split_and!; try (by left); try (by right); try done; try (split; simpl; lia); node; lia.
Qed.

Lemma collectVotes_ok n i rf b v rf' v' ret :
  node_ok n i rf → raft.collectVotes rf b v = (rf', v', ret) →
  node_ok n i rf' ∧ same_ballot rf rf' ∧ log rf' = log rf ∧
  v' = (if b then v + 1 else v) ∧
  (rf' = rf ∨ (state rf = Candidate ∧ rf' = raft.convertToLeader rf ∧ Z.of_nat n / 2 < v')).
Proof.
  intros Hn H. pose proof Hn as []. unfold raft.collectVotes in H.
  destruct (bool_decide_reflect (state rf = Candidate)) as [Hs|Hs]; simpl in H;
    [|simplify_eq; split_and!; try done; by left].
  destruct (Z.ltb_spec (Z.of_nat (peers rf) / 2) (if b then v + 1 else v)); simplify_eq/=;
    [|split_and!; try done; by left].
  split_and!; try done; [|right; by eauto].
  node; rewrite ?length_replicate; auto.
Qed.

Lemma AppendEntries_ok n i now rf args rf' r :
  node_ok n i rf → args_ok args → raft.AppendEntries now rf args = Done (rf', r) →
  node_ok n i rf' ∧ reply_ok args r.
Proof.
  intros [] Ha H. apply AppendEntries_inv in H as (Ho & (?&?&?&?&?&?&?) & [? _] & Hs & _).
  assert (state rf' = Candidate ∨ state rf' = Leader → 1 ≤ currentTerm rf').
  { rewrite Hs. intros Hs'. destruct (currentTerm rf <? ae_Term args); [naive_solver|].
    pose proof (n_active0 Hs'). lia. }
  destruct Ho as [? -> ->|? Hmm Hr ? ? ? ?|? Hpm -> ? Hlog Hc ?].
  - split; [done|]. split; simpl; lia.
  - split; [constructor; fields; done || lia|].
    pose proof Hr as (_ & ? & _). split; [lia|]. intros _ _.
    by eapply reject_hint.
  - assert (log_ok (log rf')). { rewrite Hlog. apply log_ok_accept; [done|apply Ha..]. }
    pose proof (log_ok_zlen (log rf') ltac:(done)).
    split; [|split; simpl; [lia|done]]. constructor; fields; try done; try lia.
    rewrite Hc. destruct (Z.ltb_spec (commitIndex rf) (ae_LeaderCommit args)); lia.
Qed.

Lemma node_ok_shape n i rf : node_ok n i rf → shape rf.
Proof. intros []. split_and!; try congruence. by apply log_ok_nonempty. Qed.

Lemma commit_advanced_fields rf N rf' : commit_advanced rf N rf' →
  me rf' = me rf ∧ peers rf' = peers rf ∧ log rf' = log rf ∧ nextIndex rf' = nextIndex rf ∧
  matchIndex rf' = matchIndex rf ∧ same_ballot rf rf' ∧ state rf' = state rf ∧
  commitIndex rf ≤ commitIndex rf' ∧ lastApplied rf' = lastApplied rf ∧
  (condApply rf' = true → rf' = rf).
Proof. intros [[-> _]|(M & -> & ? & _)]; simpl; split_and!; try done; lia. Qed.

Lemma handleAppendEntries_ok n i now rf (dst : nat) args r rf' :
  node_ok n i rf → (dst < n)%nat → dst ≠ i → (i < n)%nat →
  raft.handleAppendEntries now rf (Z.of_nat dst) args r = Done rf' →
  node_ok n i rf' ∧ hae_outcome now rf (Z.of_nat dst) args r rf' ∧ ballot_le rf rf' ∧
  log rf' = log rf ∧ (state rf' = state rf ∧ same_ballot rf rf' ∨ state rf' = Follower).
Proof.
  intros Hn Hd Hne Hi H. pose proof Hn as [].
  destruct (handleAppendEntries_total now rf dst args r) as (rf2 & H2 & Ho);
    [by eapply node_ok_shape|lia|lia|].
  rewrite H in H2. apply Done_inj in H2 as <-.
  destruct Ho as [->|rf1 ? ? -> Hadv|? ->|k ? ? ? ? ? ->] eqn:E; clear E.
  - split_and!; try done. by left.
  - pose proof (commit_advanced_fields _ _ _ Hadv) as (?&?&?&?&?&[]&?&?&?&_). simpl in *.
    split_and!; [|by eapply hae_success|apply same_ballot_le; by split|done|by left].
    constructor; try congruence; try lia;
      repeat match goal with H : ?x = _ |- context [?x] => rewrite H end;
      rewrite ?length_insert; done.
  - split_and!; [|by apply hae_newterm|split; simpl; lia|done|by right]. node; lia.
  - split_and!; [|by eapply hae_backup|done|done|by left].
    node. by rewrite length_insert.
Qed.

Lemma apply_loop_inv fuel rf rf' msgs : raft.apply_loop fuel rf = Done (rf', msgs) →
  rf' = with_lastApplied (lastApplied rf + zlen msgs) rf ∧
  am_CommandIndex <$> msgs = seqZ (lastApplied rf + 1) (zlen msgs) ∧
  (commitIndex rf - lastApplied rf ≤ Z.of_nat fuel → commitIndex rf ≤ lastApplied rf').
Proof.
  revert rf rf' msgs. induction fuel as [|fuel IH]; intros rf rf' msgs H; simpl in H.
  { inv_done. split_and!; [|done|lia]. destruct rf'; unfold with_lastApplied, zlen; simpl.
    f_equal. lia. }
  destruct (Z.ltb_spec (lastApplied rf) (commitIndex rf)).
  - inv_done. destruct x0 as [rf2 ms]. inv_done. apply IH in Hx0 as (-> & Hi & Hc). csimpl in *.
    assert (zlen (MkApplyMsg true (le_Command x) (lastApplied rf + 1) false None 0 0 :: ms)
            = 1 + zlen ms) as -> by (unfold zlen; simpl; lia).
    split_and!.
    + destruct rf; unfold with_lastApplied; simpl. f_equal. lia.
    + rewrite Hi. rewrite (seqZ_cons (lastApplied rf + 1)) by (pose proof (zlen_nonneg ms); lia).
      f_equal. f_equal; lia.
    + lia.
  - inv_done. split_and!; [|done|lia]. destruct rf'; unfold with_lastApplied, zlen; simpl.
    f_equal. lia.
Qed.

Lemma CommitChecker_inv rf rf' msgs : raft.CommitChecker rf = Done (rf', msgs) →
  (commitIndex rf ≤ lastApplied rf ∧ rf' = with_condApply true rf ∧ msgs = []) ∨
  (lastApplied rf < commitIndex rf ∧ rf' = with_lastApplied (lastApplied rf + zlen msgs) rf ∧
   am_CommandIndex <$> msgs = seqZ (lastApplied rf + 1) (zlen msgs)).
Proof.
  unfold raft.CommitChecker. destruct (Z.leb_spec (commitIndex rf) (lastApplied rf)); intros H'.
  - inv_done. by left.
  - apply apply_loop_inv in H' as (? & ? & _). right. split_and!; try done. 
Qed.

Lemma CommitChecker_ok n i rf rf' msgs :
  node_ok n i rf → raft.CommitChecker rf = Done (rf', msgs) → node_ok n i rf'.
Proof.
  intros [] [(? & -> & ->)|(? & -> & ?)]%CommitChecker_inv; node.
  pose proof (zlen_nonneg msgs). lia.
Qed.

Lemma Start_ok n i rf c : node_ok n i rf → node_ok n i (raft.Start rf c).1.
Proof.
  intros Hn. unfold raft.Start. case_bool_decide as Hs; simpl; [|done].
  pose proof Hn as []. node. apply log_ok_app; [done|]. constructor; [|done]. simpl. auto.
Qed.

Lemma Kill_ok n i rf : node_ok n i rf → node_ok n i (raft.Kill rf).
Proof. intros []. node. Qed.

(** Heartbeats that were built describe well-formed calls. *)
Lemma heartbeat_round_inv n i rf ps msgs :
  node_ok n i rf → raft.heartbeat_round rf ps = Done msgs →
  Forall (λ m, m.1 ∈ ps ∧ m.1 ≠ i ∧ heartbeat_for rf m.1 m.2 ∧
    ∃ ni, nextIndex rf !! m.1 = Some ni ∧ 1 ≤ ni ≤ zlen (log rf)) msgs.
Proof.
  intros Hn. revert msgs. induction ps as [|p ps IH]; intros msgs H; simpl in H; [by inv_done|].
  destruct (Z.eqb_spec (Z.of_nat p) (me rf)).
  - apply IH in H. eapply Forall_impl; [done|]. intros m (?&?&?&?).
    split_and!; try done. by right.
  - apply bind_Done in H as (args & Ha & H). apply bind_Done in H as (rest & Hr & H).
    apply Done_inj in H as <-. constructor.
    + simpl. split_and!; [by left|rewrite (n_me _ _ _ Hn) in *; lia|..].
      all: unfold raft.heartbeat_args in Ha; inv_done; apply idx_Done in Hx as [_ Hni];
        rewrite Nat2Z.id in Hni; rename Hx0 into Hp; pose proof (idx_lt _ _ _ Hp).
      * exists x. split; [done|]. rewrite (term_at_Done _ _ _ Hp).
        f_equal. destruct (Z.leb_spec x (zlen (log rf) - 1)).
        -- by apply slice_from_Done in Hx1 as [_ ->].
        -- inv_done. rewrite drop_ge; [done|]. unfold zlen in *. lia.
      * exists x. split; [done|lia].
    + eapply Forall_impl; [by apply IH|]. intros m (?&?&?&?). split_and!; try done. by right.
Qed.

Lemma SendHeartBeats_inv rf msgs : raft.SendHeartBeats rf = Done (Some msgs) →
  state rf = Leader ∧ raft.killed rf = false ∧
  raft.heartbeat_round rf (seq 0 (peers rf)) = Done msgs.
Proof. unfold raft.SendHeartBeats. intros H. go_inv. by z_bool. Qed.

Lemma heartbeat_args_ok n i rf j args ni :
  node_ok n i rf → state rf = Leader → heartbeat_for rf j args →
  nextIndex rf !! j = Some ni → 1 ≤ ni ≤ zlen (log rf) → args_ok args.
Proof.
  intros Hn Hs (ni' & Hni' & ->) Hni Hr. simplify_eq. constructor; simpl.
  - lia.
  - intros ->. by apply log_ok_term_zero, Hn.
  - apply log_ok_drop; [apply Hn|lia].
  - apply Hn. by right.
Qed.

(** ** The invariant *)

Lemma vote_ok_mono n els els' m :
  (∀ e el, els !! e = Some el → ∃ el', els' !! e = Some el' ∧ el_server el' = el_server el) →
  vote_ok n els m → vote_ok n els' m.
Proof.
  intros Hm (el & He & ? & ?). destruct (Hm _ _ He) as (el' & ? & Hs).
  exists el'. split_and!; congruence.
Qed.

Lemma Forall_vote_ok_insert n els eid el el' ms :
  els !! eid = Some el → el_server el' = el_server el →
  Forall (vote_ok n els) ms → Forall (vote_ok n (<[eid := el']> els)) ms.
Proof.
  intros He Hs Hf. eapply Forall_impl; [exact Hf|]. intros m. apply vote_ok_mono. intros e x Hx.
  destruct (decide (e = eid)) as [->|].
  - exists el'. rewrite list_lookup_insert_eq by (by eapply lookup_lt_Some). naive_solver.
  - exists x. by rewrite list_lookup_insert_ne.
Qed.

Lemma election_ok_update n el chan v k ret :
  election_ok n el → election_ok n (MkElection (el_server el) (el_args el) chan v k ret).
Proof. done. Qed.

Lemma base_node_lt n σ i rf : base n σ → nodes σ !! i = Some rf → (i < n)%nat.
Proof. intros Hb Hi%lookup_lt_Some. by rewrite <- (b_len _ _ Hb). Qed.

Lemma base_step n σ l σ' : base n σ → step σ l σ' → base n σ'.
Proof.
  intros Hb Hst. destruct Hst; pose proof Hb as [Hlen Hnode Happ Hel Hvote].
  - (* kick *)
    apply Hnode in H as Hn. pose proof (base_node_lt _ _ _ _ Hb H) as Hlt.
    destruct (KickOff_ok _ _ _ _ _ _ Hn H0) as (Hn' & ? & ? & ? & ? & Ht & Hc).
    destruct (base_set_node _ _ _ _ _ Hb H Hn'). constructor; simpl; try done.
    + apply Forall_app. split; [done|]. constructor; [|done]. split_and!; simpl; [done..|].
      rewrite Ht. apply Hn'. by left.
    + apply Forall_app. split.
      * eapply Forall_impl; [exact Hvote|]. intros m. apply vote_ok_mono. intros e el He.
        exists el. rewrite lookup_app_l by (by eapply lookup_lt_Some). done.
      * apply Forall_fmap, Forall_forall. intros j Hj. eexists. simpl.
        rewrite lookup_app_r, Nat.sub_diag by done. split; [done|].
        unfold raft.vote_targets in Hj.
        apply list_elem_of_filter in Hj as [Hne Hj%elem_of_seq].
        rewrite (n_me _ _ _ Hn') in Hne. rewrite (n_peers _ _ _ Hn') in Hj. simpl. lia.
  - (* vote request *)
    rewrite H in Hvote. pose proof Hvote as (Hv & _)%Forall_consume.
    destruct (RequestVote_ok _ _ _ _ _ _ _ (Hnode _ _ H1) H2) as [Hn' _].
    destruct (base_set_node _ _ _ _ _ Hb H1 Hn'). constructor; simpl; try done.
    by eapply Forall_replace.
  - (* vote reply *)
    rewrite H in Hvote. apply Forall_consume in Hvote as [_ Hvote].
    destruct (handleRequestVote_ok _ _ _ _ _ _ _ _ (Hnode _ _ H1) H2) as [Hn' _].
    destruct (base_set_node _ _ _ _ _ Hb H1 Hn'). constructor; simpl; try done.
    + apply Forall_insert; [done|]. apply election_ok_update.
      by apply (Forall_lookup_1 _ _ _ _ Hel H0).
    + by eapply Forall_vote_ok_insert.
  - (* collect *)
    destruct (collectVotes_ok _ _ _ _ _ _ _ _ (Hnode _ _ H2) H4) as [Hn' _].
    destruct (base_set_node _ _ _ _ _ Hb H2 Hn'). constructor; simpl; try done.
    + apply Forall_insert; [done|]. apply election_ok_update.
      by apply (Forall_lookup_1 _ _ _ _ Hel H).
    + by eapply Forall_vote_ok_insert.
  - (* heartbeat *)
    constructor; simpl; try done. apply Forall_app. split; [done|].
    apply SendHeartBeats_inv in H0 as (Hs & _ & Hx).
    apply heartbeat_round_inv with (n := n) (i := i) in Hx; [|auto].
    apply Forall_fmap. eapply Forall_impl; [exact Hx|]. intros [j args] (Hj & Hne & Hf & ni & ? & ?).
    simpl in *. apply elem_of_seq in Hj. rewrite (n_peers _ _ _ (Hnode _ _ H)) in Hj.
    pose proof (base_node_lt _ _ _ _ Hb H).
    split_and!; [done|lia|done|]. by eapply heartbeat_args_ok; eauto.
  - (* append request *)
    rewrite H in Happ. pose proof Happ as [(? & ? & ? & Ha) _]%Forall_consume.
    destruct (AppendEntries_ok _ _ _ _ _ _ _ (Hnode _ _ H0) Ha H1) as [Hn' Hr].
    destruct (base_set_node _ _ _ _ _ Hb H0 Hn'). constructor; simpl; try done.
    eapply Forall_replace; [exact Happ|]. done.
  - (* append reply *)
    rewrite H in Happ. apply Forall_consume in Happ as [(? & ? & ? & Ha & ?) Happ].
    destruct (handleAppendEntries_ok n src now rf dst args r rf') as [Hn' _]; auto.
    destruct (base_set_node _ _ _ _ _ Hb H0 Hn'). by constructor.
  - destruct (base_set_node _ _ _ _ _ Hb H (CommitChecker_ok _ _ _ _ _ (Hnode _ _ H) H1)).
    by constructor.
  - destruct (base_set_node _ _ _ _ _ Hb H (Start_ok _ _ _ c (Hnode _ _ H))). by constructor.
  - destruct (base_set_node _ _ _ _ _ Hb H (Kill_ok _ _ _ (Hnode _ _ H))). by constructor.
  - rewrite H in Hvote. apply Forall_consume in Hvote as [_ ?]. by constructor.
  - rewrite H in Happ. apply Forall_consume in Happ as [_ ?]. by constructor.
Qed.

Lemma base_init n : base n (init (Cmd := Cmd) n).
Proof.
  constructor; simpl; [by rewrite length_fmap, length_seq| |by constructor..].
  intros i rf Hi. apply list_lookup_fmap_Some_1 in Hi as (k & -> & Hk).
  apply lookup_seq in Hk as [-> ?]. apply Make_ok.
Qed.

Lemma exec_base n tr σ : exec n tr σ → base n σ.
Proof. induction 1; eauto using base_init, base_step. Qed.

End raft_base.
End raft_base.
