(* ===== verification/RaftElection.v ===== *)
(** * Votes and leaders of a Raft cluster

    From the events of a run: a peer votes at most once per term; the votes an
    election counted were all cast, by distinct peers, in the election's own
    term; hence at most one peer leads a term as long as every win happens in the
    term its election began in ([timely]). *)

From S2P Require Import Prelude.
From S2P Require Import Persister.
From S2P Require Import Raft.
From S2P Require Import RaftFacts.
From S2P Require Import RaftCluster.
From S2P Require Import RaftBase.
Open Scope Z_scope.

Import raft_facts cluster raft_base.

Module raft_election.
Section raft_election.
Context {Cmd : Type}.
Implicit Types (rf : Raft Cmd) (σ : cluster Cmd) (tr : list (label Cmd)).

(** Event [l] is a vote of [j] for [c] in term [t]; starting an election is a
    vote for oneself. *)
Definition label_vote (l : label Cmd) (j : nat) (t : Z) (c : nat) : Prop :=
  l = LGrant j t c ∨ (c = j ∧ ∃ eid, l = LKick eid j t).

Definition voted tr (j : nat) (t : Z) (c : nat) : Prop := ∃ l, l ∈ tr ∧ label_vote l j t c.

Lemma voted_cons tr l j t c : voted (l :: tr) j t c ↔ label_vote l j t c ∨ voted tr j t c.
Proof. unfold voted. set_solver. Qed.

(** Peers whose positive vote entered the channel of election [eid]. *)
Definition label_push (eid : nat) (l : label Cmd) : option nat :=
  match l with LPush e j => if decide (e = eid) then Some j else None | _ => None end.
Definition pushed tr (eid : nat) : list nat := omap (label_push eid) tr.

(** Every peer turned leader in the term its election began in. *)
Definition timely tr : Prop := ∀ eid i te t, LWin eid i te t ∈ tr → te = t.

(** ** How a step changes one peer *)

(** Only [collectVotes] makes leaders, and it says so. *)
Definition lead_change (l : label Cmd) (j : nat) rf rf' : Prop :=
  state rf' = Leader →
  (state rf = Leader ∧ currentTerm rf' = currentTerm rf) ∨
  ∃ eid te, l = LWin eid j te (currentTerm rf').

(** A vote event is a vote the peer was free to cast. *)
Definition vote_change (l : label Cmd) (j : nat) rf rf' : Prop :=
  ∀ t c, label_vote l j t c →
    currentTerm rf' = t ∧ votedFor rf' = Z.of_nat c ∧
    (currentTerm rf = t → votedFor rf = -1 ∨ votedFor rf = Z.of_nat c).

Definition node_change (l : label Cmd) (j : nat) rf rf' : Prop :=
  ballot_le rf rf' ∧ lead_change l j rf rf' ∧ vote_change l j rf rf'.

Definition label_quiet (l : label Cmd) : Prop := ∀ j t c, ¬ label_vote l j t c.

Lemma quiet_tau : label_quiet LTau.
Proof. intros j t c [?|(_ & ? & ?)]; done. Qed.

Lemma quiet_apply i ms : label_quiet (LApply i ms).
Proof. intros j t c [?|(_ & ? & ?)]; done. Qed.

Lemma quiet_push eid j o : label_quiet (push_label eid j o).
Proof. intros ? t c [H|(_ & ? & H)]; unfold push_label in H; by destruct o as [[]|]. Qed.

Lemma quiet_win eid el rf rf' : label_quiet (win_label eid el rf rf').
Proof. intros ? t c [H|(_ & ? & H)]; unfold win_label in H; by destruct (_ && _). Qed.

Lemma node_change_quiet l j rf rf' :
  label_quiet l → ballot_le rf rf' → lead_change l j rf rf' → node_change l j rf rf'.
Proof. intros Hq ? ?. split_and!; try done. intros t c Hv. by apply Hq in Hv. Qed.

Lemma lead_change_same l j rf rf' :
  state rf' = state rf → currentTerm rf' = currentTerm rf → lead_change l j rf rf'.
Proof. intros ? ? ?. left. split; congruence. Qed.

Lemma lead_change_follower l j rf rf' : rf' = rf ∨ state rf' = Follower → lead_change l j rf rf'.
Proof. intros [->|H] Hs; [by left|congruence]. Qed.

#[local] Hint Resolve quiet_tau quiet_apply quiet_push quiet_win : go.

(** The peers not touched by a step did not vote in it. *)
Definition label_owner (l : label Cmd) : option nat :=
  match l with LGrant j _ _ => Some j | LKick _ i _ => Some i | _ => None end.

Lemma label_vote_owner l j t c : label_vote l j t c → label_owner l = Some j.
Proof. intros [->|(-> & ? & ->)]; done. Qed.

Lemma node_change_other l j rf : label_owner l ≠ Some j → node_change l j rf rf.
Proof.
  intros Hl. split_and!; [done|by intros ?; left|].
  intros t c Hv%label_vote_owner. done.
Qed.

Lemma quiet_owner l : label_quiet l → label_owner l = None.
Proof.
  intros Hq. destruct l; simpl; try done; exfalso.
  - apply (Hq i t i). right. eauto.
  - apply (Hq j t c). by left.
Qed.

(** A step that replaces peer [i] changes all peers as [node_change] says. *)
Lemma insert_change l i rf rf' (ns : list (Raft Cmd)) :
  ns !! i = Some rf → node_change l i rf rf' →
  (label_owner l = None ∨ label_owner l = Some i) →
  ∀ j r', <[i := rf']> ns !! j = Some r' → ∃ r, ns !! j = Some r ∧ node_change l j r r'.
Proof.
  intros Hi Hc Ho j r' [[-> ->]|[Hne Hj]]%lookup_insert_cases; [by eauto|].
  exists r'. split; [done|]. apply node_change_other. destruct Ho; congruence.
Qed.

Lemma RequestVote_change n el dst now rf rf' r :
  node_ok n dst rf → election_ok n el → raft.RequestVote now rf (el_args el) = Done (rf', r) →
  node_change (grant_label dst (el_args el) r) dst rf rf'.
Proof.
  intros Hn (? & Hc & ?) Hrv. pose proof (RequestVote_inv _ _ _ _ _ Hrv) as (Hb & _ & _ & _ & _ & Hg).
  destruct (RequestVote_ok _ _ _ _ _ _ _ Hn Hrv) as (_ & Hl & _ & _). split_and!; [done|by left; auto|].
  intros t c Hv. unfold grant_label in Hv. rewrite Hc, Nat2Z.id in Hv.
  destruct (rvr_VoteGranted r); [|by apply quiet_tau in Hv].
  destruct (Hg eq_refl) as (Ht & Hf & _ & Hfree). rewrite Hc in Hf, Hfree.
  destruct Hv as [[= <- <-]|(_ & ? & [=])]. auto.
Qed.

Lemma KickOff_change n i eid now rf rf' args :
  node_ok n i rf → raft.KickOffElection now rf = Done (rf', args) →
  node_change (LKick eid i (rv_Term args)) i rf rf'.
Proof.
  intros Hn H. destruct (KickOff_ok _ _ _ _ _ _ Hn H) as (_ & Ht & Hv & Hs & _ & Ha & _).
  split_and!.
  - split; [lia|]. intros; lia.
  - intros Hl. congruence.
  - intros t c [[=]|(-> & ? & [= _ <-])]. split_and!; [congruence|done|lia].
Qed.

Lemma collectVotes_change n eid el rf b rf' v ret :
  node_ok n (el_server el) rf → raft.collectVotes rf b (el_votes el) = (rf', v, ret) →
  node_change (win_label eid el rf rf') (el_server el) rf rf'.
Proof.
  intros Hn H. destruct (collectVotes_ok _ _ _ _ _ _ _ _ Hn H) as (_ & Hb & _ & _ & Hcase).
  apply node_change_quiet; [auto with go|by apply same_ballot_le|].
  destruct Hcase as [->|(Hs & -> & _)]; [by apply lead_change_same|].
  intros _. right. unfold win_label. rewrite !bool_decide_eq_true_2 by done. simpl. eauto.
Qed.

Lemma step_change n σ l σ' : base n σ → step σ l σ' →
  ∀ j rf', nodes σ' !! j = Some rf' → ∃ rf, nodes σ !! j = Some rf ∧ node_change l j rf rf'.
Proof.
  intros Hb Hst. pose proof (b_node _ _ Hb) as Hnode.
  assert (∀ j rf', nodes σ !! j = Some rf' →
    ∃ rf, nodes σ !! j = Some rf ∧ node_change LTau j rf rf') as Hsame.
  { intros j r Hj. exists r. split; [done|]. by apply node_change_other. }
  destruct Hst; simpl; try exact Hsame.
  - eapply insert_change; [done|by eapply KickOff_change; eauto|by right].
  - eapply insert_change; [done|..].
    + eapply RequestVote_change; [by apply Hnode| |done].
      by apply (Forall_lookup_1 _ _ _ _ (b_election _ _ Hb) H0).
    + unfold grant_label. destruct (rvr_VoteGranted r); [by right|by left].
  - destruct (handleRequestVote_ok _ _ _ _ _ _ _ _ (Hnode _ _ H1) H2) as (_ & ? & _ & ?).
    eapply insert_change; [done| |left; apply quiet_owner; auto with go].
    apply node_change_quiet; auto using lead_change_follower with go.
  - eapply insert_change; [done|by eapply collectVotes_change; eauto|].
    left. apply quiet_owner. auto with go.
  - apply AppendEntries_inv in H1 as (Ho & _ & ? & Hs & _).
    eapply insert_change; [done| |by left]. apply node_change_quiet; [auto with go|done|].
    intros Hl. left. rewrite Hs in Hl.
    destruct (Z.ltb_spec (currentTerm rf) (ae_Term args)); [done|].
    split; [done|]. destruct Ho; subst; lia.
  - pose proof (b_append _ _ Hb) as Happ. rewrite H in Happ.
    apply Forall_consume in Happ as [(? & ? & ? & Ha & ?) _].
    destruct (handleAppendEntries_ok n src now rf dst args r rf') as (_ & _ & ? & _ & Hs); auto.
    eapply insert_change; [done| |by left]. apply node_change_quiet; [auto with go|done|].
    destruct Hs as [[? []]|?]; [by apply lead_change_same|apply lead_change_follower; auto].
  - eapply insert_change; [done| |by left].
    apply CommitChecker_inv in H1 as [(_ & -> & _)|(_ & -> & _)];
      apply node_change_quiet; auto with go; by apply lead_change_same || done.
  - eapply insert_change; [done| |by left]. unfold raft.Start.
    destruct (bool_decide _); simpl; apply node_change_quiet; auto with go;
      by apply lead_change_same || done.
  - eapply insert_change; [done| |by left]. apply node_change_quiet; auto with go; done.
Qed.

(** ** One vote per term *)

(** Every vote is at most as new as the voter's term, and a vote of the current
    term is still recorded in [votedFor]. *)
Definition votes_recorded tr σ : Prop := ∀ j t c, voted tr j t c →
  ∃ rf, nodes σ !! j = Some rf ∧ t ≤ currentTerm rf ∧
    (currentTerm rf = t → votedFor rf = Z.of_nat c).

Definition one_vote tr : Prop := ∀ j t c1 c2, voted tr j t c1 → voted tr j t c2 → c1 = c2.

Lemma step_nodes_length n σ l σ' : base n σ → step σ l σ' → length (nodes σ') = length (nodes σ).
Proof. intros Hb Hst. rewrite (b_len _ _ Hb). by eapply b_len, base_step. Qed.

Lemma step_forward n σ l σ' j rf : base n σ → step σ l σ' → nodes σ !! j = Some rf →
  ∃ rf', nodes σ' !! j = Some rf' ∧ node_change l j rf rf'.
Proof.
  intros Hb Hst Hj. destruct (lookup_lt_is_Some_2 (nodes σ') j) as [rf' Hj'].
  { rewrite (step_nodes_length n σ l σ') by done. by eapply lookup_lt_Some. }
  destruct (step_change n σ l σ' Hb Hst j rf' Hj') as (rf0 & ? & ?). simplify_eq. eauto.
Qed.

Lemma label_vote_node n σ l σ' j t c : base n σ → step σ l σ' → label_vote l j t c →
  ∃ rf, nodes σ !! j = Some rf.
Proof.
  intros Hb Hst Hv%label_vote_owner.
  destruct Hst; simpl in Hv; try done;
    try (unfold grant_label, push_label, win_label in Hv; repeat case_match; simplify_eq/=);
    eauto.
Qed.

Lemma votes_step n tr σ l σ' : base n σ → step σ l σ' →
  votes_recorded tr σ ∧ one_vote tr → votes_recorded (l :: tr) σ' ∧ one_vote (l :: tr).
Proof.
  intros Hb Hst [Hr Ho].
  assert (∀ j t c c', label_vote l j t c → voted tr j t c' → c' = c) as Hnew.
  { intros j t c c' Hl Hv. destruct (Hr _ _ _ Hv) as (rf & Hj & Hle & Heq).
    destruct (step_forward n σ l σ' j rf Hb Hst Hj) as (rf' & _ & [Hm _] & _ & Hvc).
    destruct (Hvc _ _ Hl) as (Ht & _ & Hfree).
    assert (currentTerm rf = t) as Hct by lia. specialize (Heq Hct).
    destruct (Hfree Hct); lia. }
  split.
  - intros j t c [Hl|Hv]%voted_cons.
    + destruct (label_vote_node n σ l σ' j t c Hb Hst Hl) as [rf Hj].
      destruct (step_forward n σ l σ' j rf Hb Hst Hj) as (rf' & Hj' & _ & _ & Hvc).
      destruct (Hvc _ _ Hl) as (Ht & Hf & _). exists rf'. split_and!; [done|lia|done].
    + destruct (Hr _ _ _ Hv) as (rf & Hj & Hle & Heq).
      destruct (step_forward n σ l σ' j rf Hb Hst Hj) as (rf' & Hj' & [Hm Hkeep] & _).
      exists rf'. split_and!; [done|lia|]. intros Ht. rewrite Hkeep; [apply Heq; lia|lia|].
      rewrite Heq by lia. lia.
  - intros j t c1 c2 [H1|H1]%voted_cons [H2|H2]%voted_cons;
      [|symmetry; by eauto|by eauto..].
    destruct H1 as [->|(-> & e1 & ->)], H2 as [?|(-> & e2 & ?)]; congruence.
Qed.

Lemma exec_votes n tr σ : exec n tr σ → votes_recorded tr σ ∧ one_vote tr.
Proof.
  induction 1 as [|tr σ l σ' Hex IH Hst].
  - split; [intros j t c (? & ?%elem_of_nil & _)|intros j t c1 c2 (? & ?%elem_of_nil & _)]; done.
  - eapply votes_step; eauto using exec_base.
Qed.

(** ** What an election has counted *)

Definition count_true (bs : list bool) : Z := zlen (filter (λ b, b = true) bs).

(** Peers whose call of election [eid] is still pending. *)
Definition pending_of (eid : nat) (m : vote_rpc) : option nat :=
  if decide (vote_rpc_eid m = eid) then Some (vote_rpc_dst m) else None.
Definition pending (eid : nat) (ms : list vote_rpc) : list nat := omap (pending_of eid) ms.

(** The votes counted or waiting in the channel of [eid] come from distinct
    peers that each voted for its server in its term. *)
Record election_inv n tr (ms : list vote_rpc) (eid : nat) (el : election) : Prop := {
  e_kick : LKick eid (el_server el) (rv_Term (el_args el)) ∈ tr;
  e_nodup : NoDup (pending eid ms ++ pushed tr eid);
  e_pushed : ∀ j, j ∈ pushed tr eid → (j < n)%nat ∧ j ≠ el_server el ∧
               voted tr j (rv_Term (el_args el)) (el_server el);
  e_count : el_votes el + count_true (el_chan el) = 1 + zlen (pushed tr eid);
}.

(** A reply that carries a vote comes from a peer that voted. *)
Definition reply_inv tr (els : list election) (m : vote_rpc) : Prop :=
  match m with
  | VRep eid dst r => rvr_VoteGranted r = true → ∀ el, els !! eid = Some el →
      voted tr dst (rv_Term (el_args el)) (el_server el)
  | VReq _ _ => True
  end.

Record elections_inv n tr (els : list election) (ms : list vote_rpc) : Prop := {
  ei_all : ∀ eid el, els !! eid = Some el → election_inv n tr ms eid el;
  ei_replies : Forall (reply_inv tr els) ms;
  ei_fresh : ∀ eid, (length els ≤ eid)%nat → pushed tr eid = [];
}.

Lemma pushed_quiet l tr eid : label_push eid l = None → pushed (l :: tr) eid = pushed tr eid.
Proof. intros H. unfold pushed. simpl. by rewrite H. Qed.

Lemma reply_inv_mono l tr els m : reply_inv tr els m → reply_inv (l :: tr) els m.
Proof. destruct m; simpl; [done|]. intros H ? el ?. apply voted_cons. right. auto. Qed.

Lemma election_inv_mono n l tr ms eid el : label_push eid l = None →
  election_inv n tr ms eid el → election_inv n (l :: tr) ms eid el.
Proof.
  intros Hl []. constructor; rewrite ?pushed_quiet by done; try done.
  - by right.
  - intros j Hj. destruct (e_pushed0 j Hj) as (? & ? & ?).
    split_and!; try done. apply voted_cons. by right.
Qed.

Lemma elections_inv_mono n l tr els ms : (∀ eid, label_push eid l = None) →
  elections_inv n tr els ms → elections_inv n (l :: tr) els ms.
Proof.
  intros Hl []. constructor.
  - intros. apply election_inv_mono; auto.
  - eapply Forall_impl; [done|]. intros m. apply reply_inv_mono.
  - intros eid ?. rewrite pushed_quiet; auto.
Qed.

(** Removing or answering a call. *)
Lemma pending_app eid l1 l2 : pending eid (l1 ++ l2) = pending eid l1 ++ pending eid l2.
Proof. apply omap_app. Qed.

Lemma pending_cons eid m ms :
  pending eid (m :: ms) = match pending_of eid m with Some j => [j] | None => [] end ++ pending eid ms.
Proof. unfold pending. simpl. by destruct (pending_of eid m). Qed.

Lemma elections_inv_lose n tr els l1 m l2 :
  elections_inv n tr els (l1 ++ m :: l2) → elections_inv n tr els (l1 ++ l2).
Proof.
  intros []. constructor; [|by apply Forall_consume in ei_replies0 as []|done].
  intros eid el He. destruct (ei_all0 eid el He). constructor; try done.
  eapply sublist_NoDup; [exact e_nodup0|]. apply sublist_app; [|done].
  rewrite !pending_app, pending_cons. apply sublist_app; [done|]. by apply sublist_inserts_l.
Qed.

Lemma pending_none eid ms : Forall (λ m, vote_rpc_eid m ≠ eid) ms → pending eid ms = [].
Proof.
  induction 1 as [|m ms Hm _ IH]; [done|]. rewrite pending_cons, IH. unfold pending_of.
  by rewrite decide_False.
Qed.

Lemma pending_targets eid ps : pending eid (VReq eid <$> ps) = ps.
Proof.
  induction ps as [|p ps IH]; [done|]. rewrite fmap_cons, pending_cons, IH. unfold pending_of.
  simpl. by rewrite decide_True.
Qed.

Lemma vote_ok_eid n els m : vote_ok n els m → (vote_rpc_eid m < length els)%nat.
Proof. intros (el & He & _). by eapply lookup_lt_Some. Qed.

Lemma elections_inv_kick n tr els ms i args ps :
  Forall (vote_ok n els) ms → NoDup ps →
  elections_inv n tr els ms →
  elections_inv n (LKick (length els) i (rv_Term args) :: tr)
    (els ++ [MkElection i args [] 1 0 false]) (ms ++ (VReq (length els) <$> ps)).
Proof.
  intros Hms Hps Hinv. pose proof (elections_inv_mono n (LKick (length els) i (rv_Term args))
    tr els ms (λ _, eq_refl) Hinv) as [Hall Hrep Hfresh]. constructor.
  - intros eid el [He|[Hlen He]]%lookup_app_Some.
    + pose proof (lookup_lt_Some _ _ _ He) as Hlt. destruct (Hall eid el He). constructor; try done.
      rewrite pending_app, (pending_none eid (_ <$> _)), app_nil_r; [done|].
      apply Forall_fmap, Forall_forall. intros j _. simpl. lia.
    + apply list_lookup_singleton_Some in He as [Heid <-].
      assert (eid = length els) as -> by lia.
      constructor; rewrite ?(Hfresh (length els)) by done; simpl; [by left| |set_solver|done].
      rewrite app_nil_r, pending_app, pending_targets, pending_none; [done|].
      eapply Forall_impl; [exact Hms|]. intros m Hm%vote_ok_eid. lia.
  - apply Forall_app. split; [|by apply Forall_fmap, Forall_forall].
    rewrite Forall_forall in Hrep, Hms |- *. intros m Hm. specialize (Hrep m Hm).
    destruct m as [|e d r]; [done|]. intros Hg el He. apply (Hrep Hg).
    rewrite lookup_app_l in He; [done|]. by apply (vote_ok_eid n els (VRep e d r)), Hms.
  - intros eid He. rewrite length_app in He. apply Hfresh. lia.
Qed.

Lemma elections_inv_answer n tr els l1 l2 eid dst r el :
  els !! eid = Some el → rv_CandidateId (el_args el) = Z.of_nat (el_server el) →
  elections_inv n tr els (l1 ++ VReq eid dst :: l2) →
  elections_inv n (grant_label dst (el_args el) r :: tr) els (l1 ++ VRep eid dst r :: l2).
Proof.
  intros He Hc Hinv. apply (elections_inv_mono n (grant_label dst (el_args el) r)) in Hinv as [Hall Hrep Hfresh].
  2: { intros e. unfold grant_label. by destruct (rvr_VoteGranted r). }
  constructor; [| |done].
  - intros e el' He'. destruct (Hall e el' He'). constructor; try done.
    rewrite pending_app, pending_cons in *. done.
  - eapply Forall_replace; [exact Hrep|]. intros Hg el' He'. simplify_eq. apply voted_cons. left.
    left. unfold grant_label. by rewrite Hg, Hc, Nat2Z.id.
Qed.

Lemma count_true_app bs cs : count_true (bs ++ cs) = count_true bs + count_true cs.
Proof. unfold count_true. by rewrite filter_app, zlen_app. Qed.

(** Changing the channel and counter of election [eid] without a new vote. *)
Lemma elections_inv_update n tr els ms eid el el' :
  els !! eid = Some el → el_server el' = el_server el → el_args el' = el_args el →
  el_votes el' + count_true (el_chan el') = el_votes el + count_true (el_chan el) →
  elections_inv n tr els ms → elections_inv n tr (<[eid := el']> els) ms.
Proof.
  intros He Hs Ha Hcnt []. constructor.
  - intros e x [[-> ->]|[Hne Hx]]%lookup_insert_cases; [|by apply ei_all0].
    destruct (ei_all0 eid el He). constructor; rewrite ?Hs, ?Ha; try done. lia.
  - eapply Forall_impl; [exact ei_replies0|]. intros [|e d r]; [done|]. intros Hr Hg x Hx.
    apply lookup_insert_cases in Hx as [[-> ->]|[Hne Hx]]; [rewrite Hs, Ha|]; auto.
  - intros e. rewrite length_insert. apply ei_fresh0.
Qed.

Lemma elections_inv_push n tr els l1 l2 eid dst r el :
  els !! eid = Some el → (dst < n)%nat → dst ≠ el_server el → rvr_VoteGranted r = true →
  elections_inv n tr els (l1 ++ VRep eid dst r :: l2) →
  elections_inv n (LPush eid dst :: tr) (<[eid := push_vote el (Some true)]> els) (l1 ++ l2).
Proof.
  intros He Hd Hne Hg Hinv. pose proof (elections_inv_lose _ _ _ _ _ _ Hinv) as [Hall' Hrep' Hfresh'].
  destruct Hinv as [Hall Hrep Hfresh]. pose proof (lookup_lt_Some _ _ _ He) as Hlt.
  assert (∀ e, e ≠ eid → label_push e (LPush eid dst : label Cmd) = None) as Hother.
  { intros e Hn. simpl. by rewrite decide_False. }
  assert (pushed (LPush eid dst :: tr) eid = dst :: pushed tr eid) as Hpush.
  { unfold pushed. simpl. by rewrite decide_True. }
  constructor.
  - intros e x [[-> ->]|[Hn Hx]]%lookup_insert_cases; [|by apply election_inv_mono; auto].
    destruct (Hall eid el He). constructor; rewrite ?Hpush; simpl.
    + by right.
    + rewrite <- Permutation_middle. rewrite pending_app, pending_cons in *. unfold pending_of in e_nodup0.
      simpl in e_nodup0. rewrite decide_True in e_nodup0 by done.
      eapply NoDup_Permutation_proper; [|exact e_nodup0]. solve_Permutation.
    + intros j [->|Hj]%elem_of_cons.
      * split_and!; [done..|]. apply voted_cons. right.
        apply Forall_consume in Hrep as [Hr _]. by apply Hr.
      * destruct (e_pushed0 j Hj) as (? & ? & ?). split_and!; try done. apply voted_cons. by right.
    + rewrite count_true_app. unfold zlen. simpl. unfold zlen in e_count0.
      change (count_true [true]) with 1. lia.
  - eapply Forall_impl; [exact Hrep'|]. intros [|e d r']; [done|]. intros Hr Hg' x Hx.
    apply voted_cons. right.
    apply lookup_insert_cases in Hx as [[-> ->]|[Hn Hx]]; [simpl|]; auto.
  - intros e. rewrite length_insert. intros Hle. rewrite pushed_quiet; [auto|]. apply Hother. lia.
Qed.

Lemma elections_step n tr σ l σ' : base n σ → step σ l σ' →
  elections_inv n tr (elections σ) (votes σ) → elections_inv n (l :: tr) (elections σ') (votes σ').
Proof.
  intros Hb Hst Hinv. pose proof (b_vote _ _ Hb) as Hvote.
  destruct Hst; simpl; try (by apply elections_inv_mono).
  - apply elections_inv_kick; [done| |done]. apply NoDup_filter, NoDup_seq.
  - rewrite H in Hinv. eapply elections_inv_answer; [done| |exact Hinv].
    by apply (Forall_lookup_1 _ _ _ _ (b_election _ _ Hb) H0).
  - rewrite H in Hinv, Hvote. apply Forall_consume in Hvote as [(el' & He' & Hd & Hne) _].
    simpl in *. simplify_eq.
    assert (o = None ∨ o = Some (rvr_VoteGranted r)) as Ho.
    { unfold raft.handleRequestVote in H2. split_ifs; simplify_eq; auto. }
    assert (∀ o', count_true (match o' with Some b => [b] | None => [] end) = 0 →
      push_label (Cmd := Cmd) eid dst o' = LTau →
      elections_inv n (push_label eid dst o' :: tr) (<[eid:=push_vote el o']> (elections σ)) (l1 ++ l2))
      as Hno.
    { intros o' Hc ->. apply elections_inv_mono; [done|].
      eapply elections_inv_update; try done; [|by eapply elections_inv_lose].
      simpl. rewrite count_true_app. lia. }
    destruct Ho as [->| ->]; [by apply Hno|].
    destruct (rvr_VoteGranted r) eqn:Hg; [by eapply elections_inv_push|by apply Hno].
  - apply elections_inv_mono; [intros e; unfold win_label; by destruct (_ && _)|].
    destruct (collectVotes_ok _ _ _ _ _ _ _ _ (b_node _ _ Hb _ _ H2) H4) as (_ & _ & _ & -> & _).
    eapply elections_inv_update; try done. simpl. rewrite H1. unfold count_true.
    rewrite filter_cons. destruct b; simpl; [|done]. unfold zlen. simpl. lia.
  - apply elections_inv_mono; [done|]. rewrite H in Hinv. by eapply elections_inv_lose.
Qed.

Lemma exec_elections n tr σ : exec n tr σ → elections_inv n tr (elections σ) (votes σ).
Proof.
  induction 1 as [|tr σ l σ' Hex IH Hst]; [by constructor|].
  eapply elections_step; eauto using exec_base.
Qed.

(** ** Winners *)

Definition wins_inv n tr σ : Prop := ∀ eid i te t, LWin eid i te t ∈ tr →
  ∃ el, elections σ !! eid = Some el ∧ el_server el = i ∧ rv_Term (el_args el) = te ∧
    Z.of_nat n / 2 < 1 + zlen (pushed tr eid).

Definition leaders_inv tr σ : Prop := ∀ i rf, nodes σ !! i = Some rf → state rf = Leader →
  ∃ eid te, LWin eid i te (currentTerm rf) ∈ tr.

(** An election keeps its server and its arguments. *)
Lemma step_election σ l σ' eid el : step σ l σ' → elections σ !! eid = Some el →
  ∃ el', elections σ' !! eid = Some el' ∧ el_server el' = el_server el ∧ el_args el' = el_args el.
Proof.
  assert (∀ e x x', elections σ !! e = Some x → el_server x' = el_server x → el_args x' = el_args x →
    elections σ !! eid = Some el →
    ∃ el', <[e := x']> (elections σ) !! eid = Some el' ∧
      el_server el' = el_server el ∧ el_args el' = el_args el) as Hins.
  { intros e x x' Hx ? ? He. destruct (decide (e = eid)) as [->|].
    - exists x'. rewrite list_lookup_insert_eq by (by eapply lookup_lt_Some). naive_solver.
    - exists el. by rewrite list_lookup_insert_ne. }
  intros Hst He. destruct Hst; simpl; eauto.
  exists el. rewrite lookup_app_l by (by eapply lookup_lt_Some). done.
Qed.

Lemma pushed_le l tr eid : zlen (pushed tr eid) ≤ zlen (pushed (l :: tr) eid).
Proof.
  destruct (label_push eid l) as [j|] eqn:E; [|by rewrite pushed_quiet].
  assert (pushed (l :: tr) eid = j :: pushed tr eid) as -> by (unfold pushed; simpl; by rewrite E).
  unfold zlen. simpl. lia.
Qed.

(** A winning event is a [collectVotes] that passed the majority test. *)
Lemma step_win n tr σ l σ' e i te t : base n σ → step σ l σ' →
  elections_inv n (l :: tr) (elections σ') (votes σ') → l = LWin e i te t →
  ∃ el, elections σ' !! e = Some el ∧ el_server el = i ∧ rv_Term (el_args el) = te ∧
    Z.of_nat n / 2 < 1 + zlen (pushed (l :: tr) e).
Proof.
  intros Hb Hst Hinv Hl. destruct Hst; try done;
    try (unfold grant_label, push_label in Hl; by repeat case_match).
  unfold win_label in Hl. case_match eqn:E; [|done]. injection Hl as <- <- <- <-.
  pose proof (lookup_lt_Some _ _ _ H) as Hlt.
  eexists. split; [by apply list_lookup_insert_eq|]. simpl. split_and!; [done..|].
  destruct (collectVotes_ok _ _ _ _ _ _ _ _ (b_node _ _ Hb _ _ H2) H4) as (_ & _ & _ & _ & Hc).
  apply andb_true_iff in E as [E1%bool_decide_eq_true E2%bool_decide_eq_true].
  destruct Hc as [->|(_ & _ & Hq)]; [congruence|].
  simpl in Hinv. destruct (ei_all _ _ _ _ Hinv eid _ (list_lookup_insert_eq _ _ _ Hlt)) as [_ _ _ Hcnt].
  simpl in Hcnt. unfold count_true in Hcnt.
  pose proof (zlen_nonneg (filter (λ b, b = true) ch)). lia.
Qed.

Lemma wins_step n tr σ l σ' : base n σ → step σ l σ' →
  elections_inv n (l :: tr) (elections σ') (votes σ') → wins_inv n tr σ → wins_inv n (l :: tr) σ'.
Proof.
  intros Hb Hst Hinv Hw eid i te t [Hl|Hin]%elem_of_cons.
  - symmetry in Hl. by eapply step_win.
  - destruct (Hw _ _ _ _ Hin) as (el & He & <- & <- & Hq).
    destruct (step_election _ _ _ _ _ Hst He) as (el' & He' & Hs & Ha).
    exists el'. pose proof (pushed_le l tr eid). split_and!; [done|done|congruence|lia].
Qed.

Lemma exec_wins n tr σ : exec n tr σ → wins_inv n tr σ ∧ leaders_inv tr σ.
Proof.
  induction 1 as [|tr σ l σ' Hex [Hw Hl] Hst].
  - split; [intros ???? []%elem_of_nil|]. intros i rf Hi Hs.
    apply list_lookup_fmap_Some_1 in Hi as (k & -> & _). done.
  - pose proof (exec_base _ _ _ Hex) as Hb. split.
    + eapply wins_step; try done. eapply exec_elections. by econstructor.
    + intros i rf' Hi Hs. destruct (step_change n σ l σ' Hb Hst i rf' Hi) as (rf & Hi0 & _ & Hlead & _).
      destruct (Hlead Hs) as [[Hs0 Ht]|(eid & te & ->)].
      * destruct (Hl i rf Hi0 Hs0) as (eid & te & ?). exists eid, te. rewrite Ht. by right.
      * exists eid, te. by left.
Qed.

(** The voters behind a timely win: a majority of the peers, each of which voted
    for the winner in that term. *)
Lemma win_quorum n tr σ eid i te t : exec n tr σ → timely tr → LWin eid i te t ∈ tr →
  ∃ q, NoDup q ∧ Forall (λ j, (j < n)%nat) q ∧ Z.of_nat n / 2 < zlen q ∧
    ∀ j, j ∈ q → voted tr j t i.
Proof.
  intros Hex Htm Hw. destruct (exec_wins _ _ _ Hex) as [Hwins _].
  destruct (Hwins _ _ _ _ Hw) as (el & He & <- & <- & Hq).
  rewrite <- (Htm _ _ _ _ Hw).
  destruct (ei_all _ _ _ _ (exec_elections _ _ _ Hex) eid el He) as [Hk Hnd Hp _].
  pose proof (Forall_lookup_1 _ _ _ _ (b_election _ _ (exec_base _ _ _ Hex)) He) as (? & _ & _).
  exists (el_server el :: pushed tr eid). split_and!.
  - apply NoDup_cons. split; [|by apply NoDup_app in Hnd as (_ & _ & ?)].
    intros Hin. by destruct (Hp _ Hin) as (_ & ? & _).
  - constructor; [done|]. apply Forall_forall. intros j Hj. by apply Hp.
  - unfold zlen in *. simpl. lia.
  - intros j [->|Hj]%elem_of_cons; [|by apply Hp].
    exists (LKick eid (el_server el) (rv_Term (el_args el))). split; [done|]. right. eauto.
Qed.

Lemma win_unique n tr σ e1 e2 i1 i2 te1 te2 t : exec n tr σ → timely tr →
  LWin e1 i1 te1 t ∈ tr → LWin e2 i2 te2 t ∈ tr → i1 = i2.
Proof.
  intros Hex Htm H1 H2.
  destruct (win_quorum _ _ _ _ _ _ _ Hex Htm H1) as (q1 & Hn1 & Hf1 & Hq1 & Hv1).
  destruct (win_quorum _ _ _ _ _ _ _ Hex Htm H2) as (q2 & Hn2 & Hf2 & Hq2 & Hv2).
  destruct (quorum_intersection n q1 q2) as (j & Hj1 & Hj2); auto.
  destruct (exec_votes _ _ _ Hex) as [_ Hone]. apply (Hone j t); auto.
Qed.

Lemma leader_unique n tr σ i1 i2 rf1 rf2 : exec n tr σ → timely tr →
  nodes σ !! i1 = Some rf1 → nodes σ !! i2 = Some rf2 →
  state rf1 = Leader → state rf2 = Leader → currentTerm rf1 = currentTerm rf2 → i1 = i2.
Proof.
  intros Hex Htm H1 H2 Hs1 Hs2 Ht. destruct (exec_wins _ _ _ Hex) as [_ Hl].
  destruct (Hl _ _ H1 Hs1) as (e1 & te1 & Hw1). destruct (Hl _ _ H2 Hs2) as (e2 & te2 & Hw2).
  rewrite Ht in Hw1.
  exact (win_unique _ _ _ _ _ _ _ _ _ _ Hex Htm Hw1 Hw2).
Qed.

End raft_election.
End raft_election.
