(* ===== verification/RaftLog.v ===== *)
(** * Leaders' logs, panics, and application order in a Raft cluster

    Under timely elections: a leader never removes entries from its log during
    its term, its [nextIndex] values stay inside the log, and no handler or
    goroutine that talks to the network panics.  In every run: a parked
    [CommitChecker] has nothing to apply, and each peer applies indices 1, 2, 3,
    ... without gaps or repetitions. *)

From S2P Require Import Prelude.
From S2P Require Import Persister.
From S2P Require Import Raft.
From S2P Require Import RaftFacts.
From S2P Require Import RaftCluster.
From S2P Require Import RaftBase.
From S2P Require Import RaftElection.
Open Scope Z_scope.

Import raft_facts cluster raft_base raft_election.

Module raft_log.
Section raft_log.
Context {Cmd : Type}.
Implicit Types (rf : Raft Cmd) (σ : cluster Cmd) (tr : list (label Cmd)).

(** Peer [i] became leader of term [t] at some point of the run. *)
Definition led tr (i : nat) (t : Z) : Prop := ∃ eid te, LWin eid i te t ∈ tr.

Lemma led_cons l tr i t : led tr i t → led (l :: tr) i t.
Proof. intros (eid & te & ?). exists eid, te. by right. Qed.

Lemma timely_cons l tr : timely (l :: tr) → timely tr.
Proof. intros H eid i te t ?. apply (H eid i). by right. Qed.

(** A pending AppendEntries was sent by a leader of its term, and describes
    entries that leader still has if it is still in that term. *)
Definition sent_by tr σ (src : nat) (args : AppendEntriesArgs Cmd) : Prop :=
  led tr src (ae_Term args) ∧
  ∃ rf, nodes σ !! src = Some rf ∧ ae_Term args ≤ currentTerm rf ∧
    (currentTerm rf = ae_Term args →
     ae_PrevLogIndex args + zlen (ae_Entries args) < zlen (log rf)).

Definition append_src (m : append_rpc Cmd) : nat :=
  match m with AReq src _ _ => src | ARep src _ _ _ => src end.
Definition append_args (m : append_rpc Cmd) : AppendEntriesArgs Cmd :=
  match m with AReq _ _ args => args | ARep _ _ args _ => args end.

Record log_inv tr σ : Prop := {
  li_next : ∀ i rf, nodes σ !! i = Some rf → state rf = Leader → next_ok rf;
  li_sent : Forall (λ m, sent_by tr σ (append_src m) (append_args m)) (appends σ);
}.

(** An AppendEntries of term [t] never reaches a peer that led term [t]. *)
Lemma no_self_append n tr σ l1 l2 src dst args :
  exec n tr σ → timely tr → log_inv tr σ →
  appends σ = l1 ++ AReq src dst args :: l2 → ¬ led tr dst (ae_Term args).
Proof.
  intros Hex Htm Hinv Happ (e2 & te2 & Hw2).
  pose proof (li_sent _ _ Hinv) as Hs. rewrite Happ in Hs. apply Forall_consume in Hs as [Hs _].
  destruct Hs as [(e1 & te1 & Hw1) _].
  pose proof (b_append _ _ (exec_base _ _ _ Hex)) as Hb. rewrite Happ in Hb.
  apply Forall_consume in Hb as [(_ & _ & Hne & _) _]. apply Hne.
  exact (win_unique _ _ _ _ _ _ _ _ _ _ Hex Htm Hw1 Hw2).
Qed.

(** ** Leader append-only *)
Lemma leader_log_grows n tr σ l σ' i rf rf' :
  exec n tr σ → timely tr → log_inv tr σ → step σ l σ' →
  nodes σ !! i = Some rf → nodes σ' !! i = Some rf' →
  led tr i (currentTerm rf) → currentTerm rf' = currentTerm rf →
  log rf `prefix_of` log rf'.
Proof.
  intros Hex Htm Hinv Hst Hi Hi' Hled Ht. pose proof (exec_base _ _ _ Hex) as Hb.
  pose proof (b_node _ _ Hb _ _ Hi) as Hn.
  destruct Hst; simpl in Hi'; try (simplify_eq; done);
    apply lookup_insert_cases in Hi' as [[-> ->]|[Hne Hi']]; try (by simplify_eq); simplify_eq.
  - destruct (KickOff_ok _ _ _ _ _ _ Hn H0) as (_ & _ & _ & _ & -> & _). done.
  - destruct (RequestVote_inv _ _ _ _ _ H2) as (_ & -> & _). done.
  - destruct (handleRequestVote_ok _ _ _ _ _ _ _ _ Hn H2) as (_ & _ & -> & _). done.
  - destruct (collectVotes_ok _ _ _ _ _ _ _ _ Hn H4) as (_ & _ & -> & _). done.
  - apply AppendEntries_inv in H1 as (Ho & _).
    destruct Ho as [? -> _|? ? ? ? -> ? ?|? ? ? Hct ? ? ?]; [done..|].
    exfalso. eapply no_self_append; try done. by rewrite <- Hct, Ht.
  - pose proof (b_append _ _ Hb) as Happ. rewrite H in Happ.
    apply Forall_consume in Happ as [(? & ? & ? & _) _].
    eapply handleAppendEntries_ok in H1 as (_ & _ & _ & -> & _); eauto.
  - apply CommitChecker_inv in H1 as [(_ & -> & _)|(_ & -> & _)]; done.
  - unfold raft.Start. destruct (bool_decide _); simpl; [by apply prefix_app_r|done].
Qed.

(** ** The invariant is kept *)

Lemma prefix_zlen {A} (l1 l2 : list A) : l1 `prefix_of` l2 → zlen l1 ≤ zlen l2.
Proof. intros ?%prefix_length. unfold zlen. lia. Qed.

Lemma sent_by_step n tr σ l σ' src args :
  exec n tr σ → timely tr → log_inv tr σ → step σ l σ' →
  sent_by tr σ src args → sent_by (l :: tr) σ' src args.
Proof.
  intros Hex Htm Hinv Hst [Hled (rf & Hi & Hle & Hbound)]. split; [by apply led_cons|].
  destruct (step_forward n σ l σ' src rf (exec_base _ _ _ Hex) Hst Hi) as (rf' & Hi' & [Hmono _] & _).
  exists rf'. split_and!; [done|lia|]. intros Ht. assert (currentTerm rf = ae_Term args) as Ht0 by lia.
  specialize (Hbound Ht0). rewrite <- Ht0 in Hled.
  assert (log rf `prefix_of` log rf') as Hp%prefix_zlen; [|lia].
  eapply leader_log_grows; eauto. lia.
Qed.

Lemma sent_step n tr σ l σ' : exec n tr σ → timely tr → log_inv tr σ → step σ l σ' →
  Forall (λ m, sent_by (l :: tr) σ' (append_src m) (append_args m)) (appends σ').
Proof.
  intros Hex Htm Hinv Hst.
  assert (Forall (λ m, sent_by (l :: tr) σ' (append_src m) (append_args m)) (appends σ)) as Hold.
  { eapply Forall_impl; [exact (li_sent _ _ Hinv)|]. intros m. by eapply sent_by_step. }
  destruct Hst; simpl in *; try exact Hold.
  - (* heartbeat *)
    apply Forall_app. split; [done|]. apply SendHeartBeats_inv in H0 as (Hs & _ & Hr).
    pose proof (exec_base _ _ _ Hex) as Hb.
    apply (heartbeat_round_inv n i) in Hr; [|by apply (b_node _ _ Hb)].
    apply Forall_fmap. eapply Forall_impl; [exact Hr|]. intros [j args] (_ & _ & Hf & ni & Hni & Hrange).
    simpl in *. destruct Hf as (ni' & Hni' & ->). simplify_eq. split; simpl.
    + apply led_cons. destruct (exec_wins _ _ _ Hex) as [_ Hl]. by apply (Hl i rf).
    + exists rf. split_and!; [done|lia|]. intros _. unfold zlen in *. rewrite length_drop. lia.
  - rewrite H in Hold. eapply Forall_replace; [exact Hold|].
    by apply Forall_consume in Hold as [? _].
  - rewrite H in Hold. by apply Forall_consume in Hold as [_ ?].
  - rewrite H in Hold. by apply Forall_consume in Hold as [_ ?].
Qed.

Lemma next_ok_grow rf rf' :
  next_ok rf → nextIndex rf' = nextIndex rf → log rf `prefix_of` log rf' → next_ok rf'.
Proof. intros H Hn Hl%prefix_zlen i ni Hi. rewrite Hn in Hi. apply H in Hi. lia. Qed.

Lemma next_ok_insert rf rf' (j : nat) k :
  next_ok rf → nextIndex rf' = <[j := k]> (nextIndex rf) → log rf' = log rf →
  1 ≤ k ≤ zlen (log rf) → next_ok rf'.
Proof.
  intros H Hn Hl Hk i ni Hi. rewrite Hn in Hi. rewrite Hl.
  apply lookup_insert_cases in Hi as [[-> ->]|[_ Hi]]; [lia|]. by apply H in Hi.
Qed.

Lemma next_ok_reply n tr σ l1 l2 src dst args r now rf rf' :
  exec n tr σ → log_inv tr σ → appends σ = l1 ++ ARep src dst args r :: l2 →
  nodes σ !! src = Some rf → next_ok rf →
  hae_outcome now rf (Z.of_nat dst) args r rf' → state rf' = Leader → next_ok rf'.
Proof.
  intros Hex Hinv Happ Hi Hok Ho Hs.
  pose proof (b_append _ _ (exec_base _ _ _ Hex)) as Hb. rewrite Happ in Hb.
  apply Forall_consume in Hb as [(_ & _ & _ & Ha & _ & Hr) _].
  pose proof (li_sent _ _ Hinv) as Hsent. rewrite Happ in Hsent.
  apply Forall_consume in Hsent as [[_ (rf0 & ? & _ & Hbound)] _]. simpl in *. simplify_eq.
  pose proof (a_prev _ Ha). pose proof (zlen_nonneg (ae_Entries args)).
  destruct Ho as [->|rf1 Ht ? -> Hadv|? ->|k Ht Hns Hrt ? Hbk ->] eqn:E; clear E.
  - done.
  - destruct (commit_advanced_fields _ _ _ Hadv) as (_ & _ & Hl & Hn & _). simpl in *.
    eapply next_ok_insert; [exact Hok|exact Hn|done|]. specialize (Hbound (eq_sym Ht)). lia.
  - done.
  - eapply next_ok_insert; [exact Hok|done|done|]. specialize (Hbound (eq_sym Ht)).
    destruct Hbk as [(_ & c & -> & ? & _)|[-> _]]; [lia|].
    specialize (Hr Hns ltac:(lia)). lia.
Qed.

Lemma next_step n tr σ l σ' i rf' : exec n tr σ → timely tr → log_inv tr σ → step σ l σ' →
  nodes σ' !! i = Some rf' → state rf' = Leader → next_ok rf'.
Proof.
  intros Hex Htm Hinv Hst Hi' Hs. pose proof (exec_base _ _ _ Hex) as Hb.
  pose proof (b_node _ _ Hb) as Hnode. pose proof (li_next _ _ Hinv) as Hnext.
  assert (∀ rf, nodes σ !! i = Some rf → state rf = Leader → currentTerm rf' = currentTerm rf →
    nextIndex rf' = nextIndex rf → next_ok rf') as Hkeep.
  { intros rf Hi Hs0 Ht Hn. eapply next_ok_grow; [by apply (Hnext i rf)|done|].
    eapply leader_log_grows; eauto. destruct (exec_wins _ _ _ Hex) as [_ Hl]. by apply (Hl i rf). }
  destruct Hst; simpl in Hi'; try (eapply Hnext; eassumption);
    apply lookup_insert_cases in Hi' as [[-> ->]|[Hne Hi']]; try (eapply Hnext; eassumption).
  - destruct (KickOff_ok _ _ _ _ _ _ (Hnode _ _ H) H0) as (_ & _ & _ & ? & _). congruence.
  - destruct (RequestVote_ok _ _ _ _ _ _ _ (Hnode _ _ H1) H2) as (_ & Hl & _ & ?).
    destruct (Hl Hs). by eapply Hkeep.
  - destruct (handleRequestVote_ok _ _ _ _ _ _ _ _ (Hnode _ _ H1) H2) as (_ & _ & _ & [->|?]);
      [by eapply Hnext|congruence].
  - destruct (collectVotes_ok _ _ _ _ _ _ _ _ (Hnode _ _ H2) H4) as (_ & _ & _ & _ & [->|(_ & -> & _)]);
      [by eapply Hnext|]. intros j ni Hj. simpl in *. apply lookup_replicate in Hj as [-> _].
    pose proof (log_ok_zlen (log rf) (n_log _ _ _ (Hnode _ _ H2))). unfold raft.getLastLogIndex. lia.
  - apply AppendEntries_inv in H1 as (Ho & (_ & _ & ? & _) & _ & Hst & _).
    rewrite Hst in Hs. destruct (Z.ltb_spec (currentTerm rf) (ae_Term args)); [done|].
    eapply Hkeep; try done. destruct Ho; subst; lia.
  - pose proof (b_append _ _ Hb) as Happ. rewrite H in Happ.
    apply Forall_consume in Happ as [(? & ? & ? & _) _].
    eapply handleAppendEntries_ok in H1 as (_ & Ho & _ & _ & Hcase); eauto.
    destruct Hcase as [[Heq _]|?]; [|congruence].
    eapply next_ok_reply; eauto. eapply Hnext; eauto. congruence.
  - apply CommitChecker_inv in H1 as [(_ & -> & _)|(_ & -> & _)]; eapply Hkeep; eauto.
  - unfold raft.Start in *. destruct (bool_decide_reflect (state rf = Leader)); simpl in *;
      eapply Hkeep; eauto.
  - done.
Qed.

Lemma exec_log n tr σ : exec n tr σ → timely tr → log_inv tr σ.
Proof.
  induction 1 as [|tr σ l σ' Hex IH Hst]; intros Htm.
  - constructor; simpl; [|done]. intros i rf Hi.
    apply list_lookup_fmap_Some_1 in Hi as (k & -> & _). done.
  - apply timely_cons in Htm. specialize (IH Htm). constructor.
    + intros i rf Hi Hs. eapply next_step; eauto.
    + by eapply sent_step.
Qed.

(** ** No panics *)

(** Every critical section that is about to run on a pending RPC, and every
    heartbeat round and election start, returns. *)
Record no_panic σ : Prop := {
  np_vote : ∀ eid dst el rf now, VReq eid dst ∈ votes σ → elections σ !! eid = Some el →
    nodes σ !! dst = Some rf → returns (raft.RequestVote now rf (el_args el));
  np_append : ∀ src dst args rf now, AReq src dst args ∈ appends σ →
    nodes σ !! dst = Some rf → returns (raft.AppendEntries now rf args);
  np_reply : ∀ src dst args r rf now, ARep src dst args r ∈ appends σ →
    nodes σ !! src = Some rf → returns (raft.handleAppendEntries now rf (Z.of_nat dst) args r);
  np_kick : ∀ i rf now, nodes σ !! i = Some rf → returns (raft.KickOffElection now rf);
  np_heartbeat : ∀ i rf, nodes σ !! i = Some rf → returns (raft.SendHeartBeats rf);
}.

Lemma KickOff_returns rf now : log_ok (log rf) → returns (raft.KickOffElection now rf).
Proof.
  intros Hl. pose proof (log_ok_zlen _ Hl).
  unfold raft.KickOffElection, raft.getLastLogTerm, raft.getLastLogIndex. simpl.
  destruct (Z.ltb_spec (zlen (log rf) - 1) 0); [lia|].
  destruct (idx_total (log rf) (zlen (log rf) - 1)) as [e ->]; [lia|]. by eexists.
Qed.

Lemma SendHeartBeats_returns n i rf :
  node_ok n i rf → (state rf = Leader → next_ok rf) → returns (raft.SendHeartBeats rf).
Proof.
  intros Hn Hok. unfold raft.SendHeartBeats. destruct (raft.killed rf); [by eexists|].
  case_bool_decide as Hs; simpl; [|by eexists].
  destruct (heartbeat_round_spec rf (seq 0 (peers rf))) as (msgs & -> & _); [auto|..|by eexists].
  apply Forall_seq. intros j Hj. rewrite (n_next _ _ _ Hn). rewrite (n_peers _ _ _ Hn) in Hj. lia.
Qed.

Lemma exec_no_panic n tr σ : exec n tr σ → timely tr → no_panic σ.
Proof.
  intros Hex Htm. pose proof (exec_base _ _ _ Hex) as Hb.
  pose proof (b_node _ _ Hb) as Hnode. constructor.
  - intros eid dst el rf now _ _ Hi.
    destruct (RequestVote_total now rf (el_args el)) as (rf' & r & ->); [|by eexists].
    by apply log_ok_nonempty, (n_log _ _ _ (Hnode _ _ Hi)).
  - intros src dst args rf now Hm Hi. pose proof (b_append _ _ Hb) as Ha.
    rewrite Forall_forall in Ha. destruct (Ha _ Hm) as (_ & _ & _ & Hargs).
    destruct (AppendEntries_total now rf args) as (rf' & r & -> & _); [|by apply Hargs|by eexists].
    by apply log_ok_nonempty, (n_log _ _ _ (Hnode _ _ Hi)).
  - intros src dst args r rf now Hm Hi. pose proof (b_append _ _ Hb) as Ha.
    rewrite Forall_forall in Ha. destruct (Ha _ Hm) as (? & ? & ? & _).
    pose proof (n_peers _ _ _ (Hnode _ _ Hi)).
    destruct (handleAppendEntries_total now rf dst args r) as (rf' & -> & _);
      [by eapply node_ok_shape, Hnode|lia|lia|by eexists].
  - intros i rf now Hi. apply KickOff_returns, (n_log _ _ _ (Hnode _ _ Hi)).
  - intros i rf Hi. eapply SendHeartBeats_returns; [by apply Hnode|].
    intros Hs. by eapply (li_next _ _ (exec_log _ _ _ Hex Htm)).
Qed.

(** ** The applier *)

(** [CommitChecker] is parked only when everything committed is applied. *)
Definition no_lost_wakeup rf : Prop := condApply rf = true → commitIndex rf ≤ lastApplied rf.

(** How the commands applied by peer [i] in a run are numbered. *)
Definition label_applied (i : nat) (l : label Cmd) : list Z :=
  match l with LApply j msgs => if decide (j = i) then am_CommandIndex <$> msgs else [] | _ => [] end.
Definition applied tr (i : nat) : list Z := concat (label_applied i <$> reverse tr).

Definition applier_change (l : label Cmd) (i : nat) rf rf' : Prop :=
  (no_lost_wakeup rf → no_lost_wakeup rf') ∧
  (label_applied i l = seqZ (lastApplied rf + 1) (lastApplied rf' - lastApplied rf) ∧
   lastApplied rf ≤ lastApplied rf').

Lemma applier_same l i rf rf' : label_applied i l = [] →
  condApply rf' = condApply rf → commitIndex rf' = commitIndex rf →
  lastApplied rf' = lastApplied rf → applier_change l i rf rf'.
Proof.
  intros Hl Hw Hc Ha. unfold applier_change, no_lost_wakeup. rewrite Hl, Hw, Hc, Ha.
  split_and!; [done| |lia]. by rewrite Z.sub_diag.
Qed.

Lemma applier_signal l i rf rf' : label_applied i l = [] →
  condApply rf' = false → lastApplied rf' = lastApplied rf → applier_change l i rf rf'.
Proof.
  intros Hl Hw Ha. unfold applier_change, no_lost_wakeup. rewrite Hl, Hw, Ha.
  split_and!; [done| |lia]. by rewrite Z.sub_diag.
Qed.

Lemma RequestVote_applier now rf args rf' r l i : label_applied i l = [] →
  raft.RequestVote now rf args = Done (rf', r) → applier_change l i rf rf'.
Proof. intros Hl H. unfold raft.RequestVote in H. go_inv; by apply applier_same. Qed.

Lemma step_applier n σ l σ' : base n σ → step σ l σ' →
  ∀ i rf', nodes σ' !! i = Some rf' → ∃ rf, nodes σ !! i = Some rf ∧ applier_change l i rf rf'.
Proof.
  intros Hb Hst i rf' Hi'. pose proof (b_node _ _ Hb) as Hnode.
  assert (∀ l0, label_applied i l0 = [] → nodes σ !! i = Some rf' →
    ∃ rf, nodes σ !! i = Some rf ∧ applier_change l0 i rf rf') as Hsame.
  { intros l0 ? ?. exists rf'. split; [done|]. by apply applier_same. }
  destruct Hst; simpl in Hi'; try (by apply Hsame);
    apply lookup_insert_cases in Hi' as [[-> ->]|[Hne Hi']];
    try (apply Hsame; [|done]; unfold grant_label, push_label, win_label;
         repeat case_match; simpl; by rewrite ?decide_False);
    (eexists; split; [eassumption|]).
  - unfold raft.KickOffElection in H0. inv_done. by apply applier_same.
  - eapply RequestVote_applier; [|done]. unfold grant_label. by case_match.
  - unfold raft.handleRequestVote in H2. split_ifs; simplify_eq; apply applier_same; try done;
      unfold push_label; by repeat case_match.
  - destruct (collectVotes_ok _ _ _ _ _ _ _ _ (Hnode _ _ H2) H4) as (_ & _ & _ & _ & [->|(_ & -> & _)]);
      apply applier_same; try done; unfold win_label; by case_match.
  - apply AppendEntries_inv in H1 as (Ho & (_ & _ & _ & _ & ? & _) & _).
    destruct Ho as [? -> _| |? ? ? ? ? Hc Hw]; [by apply applier_same..|].
    destruct (commitIndex rf <? ae_LeaderCommit args); [by apply applier_signal|by apply applier_same].
  - pose proof (b_append _ _ Hb) as Happ. rewrite H in Happ.
    apply Forall_consume in Happ as [(? & ? & ? & _) _].
    eapply handleAppendEntries_ok in H1 as (_ & Ho & _); eauto.
    destruct Ho as [->|rf1 ? ? -> Hadv|? ->|k ? ? ? ? ? ->]; try (by apply applier_same).
    destruct Hadv as [[-> _]|(M & -> & _)]; [by apply applier_same|by apply applier_signal].
  - unfold applier_change, no_lost_wakeup.
    apply CommitChecker_inv in H1 as [(Hle & -> & ->)|(Hlt & -> & Hm)]; simpl; rewrite decide_True by done.
    + split_and!; [done| |lia]. by rewrite Z.sub_diag.
    + split_and!; [congruence| |pose proof (zlen_nonneg msgs); lia].
      rewrite Hm. f_equal. lia.
  - unfold raft.Start. destruct (bool_decide _); by apply applier_same.
  - by apply applier_same.
Qed.

Lemma applied_cons l tr i : applied (l :: tr) i = applied tr i ++ label_applied i l.
Proof.
  unfold applied. rewrite reverse_cons, fmap_app, concat_app. simpl. by rewrite app_nil_r.
Qed.

Lemma exec_applied n tr σ : exec n tr σ → ∀ i rf, nodes σ !! i = Some rf →
  no_lost_wakeup rf ∧ 0 ≤ lastApplied rf ∧ applied tr i = seqZ 1 (lastApplied rf).
Proof.
  induction 1 as [|tr σ l σ' Hex IH Hst]; intros i rf' Hi.
  - apply list_lookup_fmap_Some_1 in Hi as (k & -> & _). split_and!; [done|simpl; lia|done].
  - destruct (step_applier n σ l σ' (exec_base _ _ _ Hex) Hst i rf' Hi) as (rf & Hi0 & Hw & Hl & Hle).
    destruct (IH i rf Hi0) as (? & ? & Happ). split_and!; [auto|lia|].
    rewrite applied_cons, Happ, Hl. rewrite (Z.add_comm (lastApplied rf)), <- seqZ_app by lia.
    f_equal. lia.
Qed.

End raft_log.
End raft_log.
