(* ===== verification/RaftRun.v ===== *)
(** * Executing a Raft cluster

    A scheduler-driven interpreter of the step relation of RaftCluster.v: an
    [action] says which goroutine runs next, [run] executes a list of actions, and
    [run_exec] shows that what it computes is a run of the cluster.  The concrete
    runs used as witnesses and as counterexamples are built with it. *)

From S2P Require Import Prelude.
From S2P Require Import Persister.
From S2P Require Import Raft.
From S2P Require Import RaftFacts.
From S2P Require Import RaftCluster.
From S2P Require Import RaftElection.
Open Scope Z_scope.

Import cluster raft_election.

Module raft_run.

(** Which goroutine runs; a [k] is a position in the list of pending RPCs. *)
Inductive action {Cmd : Type} :=
  | AKick (i : nat) (now : Z)
  | AVote (k : nat) (now : Z)
  | AVoteReply (k : nat) (now : Z)
  | ACollect (eid : nat)
  | AHeartbeat (i : nat)
  | AAppend (k : nat) (now : Z)
  | AAppendReply (k : nat) (now : Z)
  | AApply (i : nat)
  | AStart (i : nat) (c : option Cmd)
  | AKill (i : nat)
  | ALoseVote (k : nat)
  | ALoseAppend (k : nat).
Arguments action : clear implicits.

Section raft_run.
Context {Cmd : Type}.
Implicit Types (σ : cluster Cmd).

Definition of_outcome {A} (m : outcome A) : option A :=
  match m with Done a => Some a | _ => None end.

(** [l = take k l ++ x :: drop (S k) l] *)
Definition pick {A} (k : nat) (l : list A) : option (list A * A * list A) :=
  x ← l !! k; Some (take k l, x, drop (S k) l).

Definition run1 σ (a : action Cmd) : option (label Cmd * cluster Cmd) :=
  match a with
  | AKick i now =>
      rf ← nodes σ !! i;
      '(rf', args) ← of_outcome (raft.KickOffElection now rf);
      Some (LKick (length (elections σ)) i (rv_Term args),
        MkCluster (<[i := rf']> (nodes σ))
           (elections σ ++ [MkElection i args [] 1 0 false])
           (votes σ ++ (VReq (length (elections σ)) <$> raft.vote_targets rf'))
           (appends σ))
  | AVote k now =>
      '(l1, m, l2) ← pick k (votes σ);
      match m with
      | VReq eid dst =>
          el ← elections σ !! eid; rf ← nodes σ !! dst;
          '(rf', r) ← of_outcome (raft.RequestVote now rf (el_args el));
          Some (grant_label dst (el_args el) r,
            MkCluster (<[dst := rf']> (nodes σ)) (elections σ)
              (l1 ++ VRep eid dst r :: l2) (appends σ))
      | VRep _ _ _ => None
      end
  | AVoteReply k now =>
      '(l1, m, l2) ← pick k (votes σ);
      match m with
      | VReq _ _ => None
      | VRep eid dst r =>
          el ← elections σ !! eid; rf ← nodes σ !! el_server el;
          let '(rf', o) := raft.handleRequestVote now rf (el_args el) r in
          Some (push_label eid dst o,
            MkCluster (<[el_server el := rf']> (nodes σ)) (<[eid := push_vote el o]> (elections σ))
              (l1 ++ l2) (appends σ))
      end
  | ACollect eid =>
      el ← elections σ !! eid;
      if el_returned el then None else
      match el_chan el with
      | [] => None
      | b :: ch =>
          rf ← nodes σ !! el_server el;
          if Z.of_nat (el_iter el) <? Z.of_nat (peers rf) - 1 then
            let '(rf', v, ret) := raft.collectVotes rf b (el_votes el) in
            Some (win_label eid el rf rf',
              MkCluster (<[el_server el := rf']> (nodes σ))
                (<[eid := MkElection (el_server el) (el_args el) ch v (S (el_iter el)) ret]> (elections σ))
                (votes σ) (appends σ))
          else None
      end
  | AHeartbeat i =>
      rf ← nodes σ !! i;
      om ← of_outcome (raft.SendHeartBeats rf);
      msgs ← om;
      Some (LTau, MkCluster (nodes σ) (elections σ) (votes σ)
                    (appends σ ++ ((λ m, AReq i m.1 m.2) <$> msgs)))
  | AAppend k now =>
      '(l1, m, l2) ← pick k (appends σ);
      match m with
      | AReq src dst args =>
          rf ← nodes σ !! dst;
          '(rf', r) ← of_outcome (raft.AppendEntries now rf args);
          Some (LTau, MkCluster (<[dst := rf']> (nodes σ)) (elections σ) (votes σ)
                        (l1 ++ ARep src dst args r :: l2))
      | ARep _ _ _ _ => None
      end
  | AAppendReply k now =>
      '(l1, m, l2) ← pick k (appends σ);
      match m with
      | AReq _ _ _ => None
      | ARep src dst args r =>
          rf ← nodes σ !! src;
          rf' ← of_outcome (raft.handleAppendEntries now rf (Z.of_nat dst) args r);
          Some (LTau, MkCluster (<[src := rf']> (nodes σ)) (elections σ) (votes σ) (l1 ++ l2))
      end
  | AApply i =>
      rf ← nodes σ !! i;
      if condApply rf then None else
      '(rf', msgs) ← of_outcome (raft.CommitChecker rf);
      Some (LApply i msgs, set_node i rf' σ)
  | AStart i c => rf ← nodes σ !! i; Some (LTau, set_node i (raft.Start rf c).1 σ)
  | AKill i => rf ← nodes σ !! i; Some (LTau, set_node i (raft.Kill rf) σ)
  | ALoseVote k =>
      '(l1, _, l2) ← pick k (votes σ);
      Some (LTau, MkCluster (nodes σ) (elections σ) (l1 ++ l2) (appends σ))
  | ALoseAppend k =>
      '(l1, _, l2) ← pick k (appends σ);
      Some (LTau, MkCluster (nodes σ) (elections σ) (votes σ) (l1 ++ l2))
  end.

Fixpoint run_from (tr : list (label Cmd)) σ (acts : list (action Cmd))
    : option (list (label Cmd) * cluster Cmd) :=
  match acts with
  | [] => Some (tr, σ)
  | a :: acts => '(l, σ') ← run1 σ a; run_from (l :: tr) σ' acts
  end.

Definition run (n : nat) (acts : list (action Cmd)) : option (list (label Cmd) * cluster Cmd) :=
  run_from [] (init n) acts.

Lemma of_outcome_Some {A} (m : outcome A) a : of_outcome m = Some a → m = Done a.
Proof. destruct m; naive_solver. Qed.

Lemma pick_Some {A} k (l : list A) l1 x l2 : pick k l = Some (l1, x, l2) → l = l1 ++ x :: l2.
Proof.
  unfold pick. intros (y & Hy & [= <- <- <-])%bind_Some. by rewrite take_drop_middle.
Qed.

Ltac run_inv := repeat match goal with
  | H : (_ ≫= _) = Some _ |- _ => apply bind_Some in H as (? & ? & H)
  | x : (_ * _)%type |- _ => destruct x
  | H : of_outcome _ = Some _ |- _ => apply of_outcome_Some in H
  | H : pick _ _ = Some _ |- _ => apply pick_Some in H
  | H : (let '(_, _) := ?e in _) = Some _ |- _ => destruct e eqn:?
  | H : (if ?b then _ else _) = Some _ |- _ => destruct b eqn:?
  | H : (match ?e with _ => _ end) = Some _ |- _ => destruct e eqn:?
  | H : None = Some _ |- _ => discriminate H
  | H : Some _ = Some _ |- _ => injection H as <- <-
  end.

Lemma run1_step σ a l σ' : run1 σ a = Some (l, σ') → step σ l σ'.
Proof.
  intros H. destruct a; simpl in H; run_inv; simplify_eq; z_bool; econstructor; eauto.
Qed.

Lemma run_from_exec n tr σ acts tr' σ' :
  exec n tr σ → run_from tr σ acts = Some (tr', σ') → exec n tr' σ'.
Proof.
  revert tr σ. induction acts as [|a acts IH]; intros tr σ Hex H; simpl in H; [by simplify_eq|].
  apply bind_Some in H as ([l σ1] & H1%run1_step & H). eapply IH; [|exact H]. by econstructor.
Qed.

Lemma run_exec n acts tr σ : run n acts = Some (tr, σ) → exec n tr σ.
Proof. apply run_from_exec, exec_init. Qed.

(** A decision procedure for [timely]. *)
Definition label_timely (l : label Cmd) : bool :=
  match l with LWin _ _ te t => te =? t | _ => true end.

Lemma timely_forallb tr : forallb label_timely tr = true → timely (Cmd := Cmd) tr.
Proof.
  intros H eid i te t Hin. rewrite forallb_forall in H.
  specialize (H (LWin eid i te t) (proj1 (list_elem_of_In _ _) Hin)). simpl in H. lia.
Qed.

End raft_run.

(** ** Concrete runs *)

(** Peer 0 of three is elected in term 1 with the vote of peer 1. *)
Definition elect0 {Cmd} : list (action Cmd) :=
  [AKick 0 0; AVote 0 0; AVoteReply 0 0; ACollect 0].

Definition run_of {Cmd} (acts : list (action Cmd)) := default ([], init 3) (run 3 acts).

Lemma run_of_exec {Cmd} (acts : list (action Cmd)) :
  run 3 acts ≠ None → exec 3 (run_of acts).1 (run_of acts).2.
Proof.
  unfold run_of. intros H. destruct (run 3 acts) as [[tr σ]|] eqn:E; [|done]. by apply run_exec in E.
Qed.

(** Peer 0 is elected, replicates one command on peer 1 and commits it; both
    apply it. *)
Definition commit_one : list (action nat) :=
  elect0 ++ [AStart 0 (Some 7%nat); AHeartbeat 0; AAppend 0 0; AAppendReply 0 0; AApply 0;
             AHeartbeat 0; AAppend 1 0; AAppendReply 1 0; AApply 1].

(** The reply of peer 1 to a vote request of term 1 is in the channel when peer 0
    starts another election; the old [collectVotes] then makes it leader of term
    2.  Peers 1 and 2 elect peer 2 in the same term. *)
Definition stale_win : list (action nat) :=
  [AKick 0 0; AVote 0 0; AVoteReply 0 0; AKick 0 0; ACollect 0;
   AKick 2 0; AKick 2 0; AVote 6 0; AVoteReply 6 0; ACollect 3].

(** A heartbeat round is repeated before the first reply: peer 1 stores the
    command twice, and later applies it again where the leader applied another. *)
Definition resend : list (action nat) :=
  elect0 ++ [AStart 0 (Some 1%nat); AHeartbeat 0; AHeartbeat 0;
             AAppend 0 0; AAppend 2 0; AAppendReply 0 0; AAppendReply 1 0;
             AStart 0 (Some 2%nat); AHeartbeat 0; AAppend 2 0; AAppendReply 2 0;
             AApply 0; AHeartbeat 0; AAppend 3 0; AApply 1].

End raft_run.
