(* ===== verification/RaftTheorems.v ===== *)
(** * The properties of raft/raft.go

    Each theorem about the Raft peer and the Raft cluster, with the concrete
    instance that shows its hypotheses can hold. *)

From S2P Require Import Prelude.
From S2P Require Import Persister.
From S2P Require Import Raft.
From S2P Require Import RaftFacts.
From S2P Require Import RaftCluster.
From S2P Require Import RaftBase.
From S2P Require Import RaftElection.
From S2P Require Import RaftLog.
From S2P Require Import RaftRun.
Open Scope Z_scope.

Import raft_facts cluster raft_base raft_election raft_log raft_run.

Section cluster_theorems.
Context {Cmd : Type}.
Implicit Types (rf : Raft Cmd) (σ : cluster Cmd) (tr : list (label Cmd)).

(** C9: Election safety.  In every run of a cluster of [n] peers, whatever the
    network loses, delays or reorders, two peers that are leaders of the same term
    are the same peer, provided every win happened in the term its election began
    in.  (Without that proviso [collectVotes] can turn votes of one term into
    leadership of the next; see [stale_election_two_leaders].) *)
Theorem election_safety n tr σ i1 i2 rf1 rf2 :
  exec n tr σ → timely tr →
  nodes σ !! i1 = Some rf1 → nodes σ !! i2 = Some rf2 →
  state rf1 = Leader → state rf2 = Leader → currentTerm rf1 = currentTerm rf2 → i1 = i2.
Proof. apply leader_unique. Qed.

(** C14: One vote per term.  In every run, timely or not, a peer never votes for
    two different candidates in one term (its own candidacy counts as a vote), and
    its latest vote is the one recorded in [votedFor]. *)
Theorem one_vote_per_term n tr σ j t c1 c2 :
  exec n tr σ → voted tr j t c1 → voted tr j t c2 →
  c1 = c2 ∧ ∃ rf, nodes σ !! j = Some rf ∧ t ≤ currentTerm rf ∧
    (currentTerm rf = t → votedFor rf = Z.of_nat c1).
Proof.
  intros Hex H1 H2. destruct (exec_votes _ _ _ Hex) as [Hr Ho].
  split; [by apply (Ho j t)|by apply Hr].
Qed.

(** C15: Leader append-only.  As long as elections are timely, a step never removes
    or overwrites an entry of a peer that is leader before and in the same term
    after it. *)
Theorem leader_append_only n tr σ l σ' i rf rf' :
  exec n tr σ → timely tr → step σ l σ' →
  nodes σ !! i = Some rf → nodes σ' !! i = Some rf' →
  state rf = Leader → currentTerm rf' = currentTerm rf →
  log rf `prefix_of` log rf'.
Proof.
  intros Hex Htm Hst Hi Hi' Hs Ht. eapply leader_log_grows; eauto using exec_log.
  destruct (exec_wins _ _ _ Hex) as [_ Hl]. by apply (Hl i rf).
Qed.

(** No panics on the network side.  As long as elections are timely, every
    RequestVote, AppendEntries and reply that is pending, every heartbeat round and
    every election start returns: no index of [rf.log], [rf.nextIndex] or
    [rf.matchIndex] is out of range. *)
Theorem network_panic_free n tr σ : exec n tr σ → timely tr → no_panic σ.
Proof. apply exec_no_panic. Qed.

(** C18: In-order application.  In every run the indices a peer has sent on
    [applyCh] are exactly 1, 2, ..., [lastApplied], in this order. *)
Theorem applied_in_order n tr σ i rf :
  exec n tr σ → nodes σ !! i = Some rf → applied tr i = seqZ 1 (lastApplied rf).
Proof. intros Hex Hi. by apply (exec_applied _ _ _ Hex i rf). Qed.

(** No lost wake-up.  In every run, a [CommitChecker] that is parked in
    [condApply.Wait] has applied everything that is committed: each advance of
    [commitIndex] signals it. *)
Theorem applier_never_sleeps_on_work n tr σ i rf :
  exec n tr σ → nodes σ !! i = Some rf → condApply rf = true → commitIndex rf ≤ lastApplied rf.
Proof. intros Hex Hi. by apply (exec_applied _ _ _ Hex i rf). Qed.
End cluster_theorems.

Section peer_theorems.
Context {Cmd : Type}.
Implicit Types (rf : Raft Cmd) (l : list (LogEntry Cmd)).

(** C35: Rejected AppendEntries and the conflict hint.  The handler answers true
    exactly if the call is of a current term and the previous entry matches; a
    rejection leaves log and commit index alone.  A call of an old term leaves the
    whole peer alone and is answered with its term and no hint (zeros); a call of a
    current term is answered with the hint of the fast back-up: the log length and
    -1 if the log is too short, otherwise the conflicting term and the first index of
    the run of that term that ends at [PrevLogIndex]. *)
Theorem conflict_hint now rf args rf' r :
  raft.AppendEntries now rf args = Done (rf', r) →
  (aer_Success r = true ↔ currentTerm rf ≤ ae_Term args ∧ prev_matches (log rf) args) ∧
  (aer_Success r = false → log rf' = log rf ∧ commitIndex rf' = commitIndex rf) ∧
  (ae_Term args < currentTerm rf → rf' = rf ∧ r = MkAppendEntriesReply (currentTerm rf) false 0 0) ∧
  (currentTerm rf ≤ ae_Term args → ¬ prev_matches (log rf) args →
     currentTerm rf' = ae_Term args ∧ reject_reply (log rf) (ae_Term args) args r).
Proof.
  intros H. apply AppendEntries_inv in H as [[? -> ->|? Hmm Hr ? ? ? ?|? Hpm -> ? ? ? ?] _].
  - simpl. split_and!; [split; [done|lia]|done|done|lia].
  - pose proof Hr as (Hf & _). split_and!; [|done|lia|done]. rewrite Hf. split; [done|tauto].
  - simpl. split_and!; [tauto|done|lia|tauto].
Qed.

(** Replication.  When the follower agrees with the leader's log below
    [nextIndex] and holds nothing from there on, or holds a conflicting entry
    there, the heartbeat the leader builds for it makes its log equal to the
    leader's, and the reply says so. *)
Theorem append_replicates now (leader follower f' : Raft Cmd) j ni args r :
  next_ok leader → nextIndex leader !! j = Some ni →
  raft.heartbeat_args leader j = Done args →
  currentTerm follower ≤ currentTerm leader →
  take (Z.to_nat ni) (log follower) = take (Z.to_nat ni) (log leader) →
  (zlen (log follower) = ni ∨
   ni < zlen (log follower) ∧ ni < zlen (log leader) ∧
   term_at (log follower) ni ≠ term_at (log leader) ni) →
  raft.AppendEntries now follower args = Done (f', r) →
  log f' = log leader ∧ aer_Success r = true.
Proof.
  intros Hok Hni Hh Hterm Hagree Hcase H.
  destruct (heartbeat_args_spec leader j Hok) as (args' & Hh' & ni' & Hni' & Hargs);
    [by eapply lookup_lt_Some|]. rewrite Hh in Hh'. apply Done_inj in Hh' as <-. simplify_eq.
  specialize (Hok j ni Hni). unfold zlen in *.
  assert (∀ k, (k < Z.to_nat ni)%nat → log follower !! k = log leader !! k) as Hsame.
  { intros k Hk. rewrite <- (lookup_take_lt (log follower) (Z.to_nat ni)) by done.
    by rewrite Hagree, lookup_take_lt. }
  assert (prev_matches (log follower)
    (MkAppendEntriesArgs (currentTerm leader) (me leader) (ni - 1) (term_at (log leader) (ni - 1))
       (drop (Z.to_nat ni) (log leader)) (commitIndex leader))) as Hpm.
  { unfold prev_matches, zlen. simpl. split; [lia|]. unfold term_at, idx.
    destruct (ni - 1 <? 0); [done|].
    rewrite (Hsame (Z.to_nat (ni - 1))) by lia. done. }
  apply AppendEntries_inv in H as [[? ? ?|? ? ? ? ? ? ?|? _ -> _ -> _ _] _]; simpl in *; [lia|done|].
  split; [|done]. unfold accept_log.
  transitivity (take (Z.to_nat ni) (log follower) ++ drop (Z.to_nat ni) (log leader));
    [|by rewrite Hagree, take_drop].
  replace (ni - 1 + 1) with ni by lia.
  destruct (drop (Z.to_nat ni) (log leader)) as [|e0 es] eqn:Hd.
  - rewrite app_nil_r. destruct Hcase as [Hlen|(_ & Hlt & _)].
    + by rewrite take_ge by lia.
    + apply (f_equal length) in Hd. rewrite length_drop in Hd. simpl in Hd. lia.
  - destruct Hcase as [Hlen|(Hlt & Hlt' & Hne)].
    + rewrite (take_ge (log follower)) by lia. unfold zlen.
      destruct (Z.ltb_spec ni (Z.of_nat (length (log follower)))); [lia|done].
    + assert (term_at (log leader) ni = le_Term e0) as Ht0.
      { apply term_at_Done, idx_Done. split; [lia|].
        apply (f_equal (.!! 0%nat)) in Hd. by rewrite lookup_drop, Nat.add_0_r in Hd. }
      unfold zlen. destruct (Z.ltb_spec ni (Z.of_nat (length (log follower)))); [|lia].
      rewrite Ht0 in Hne. destruct (Z.eqb_spec (term_at (log follower) ni) (le_Term e0)); done.
Qed.

(** The commit rule.  A successful reply moves [commitIndex] to the greatest
    index above it whose entry has the leader's term and is, by [matchIndex] with
    the replying peer updated, on a majority; if there is none it stays. *)
Theorem commit_rule now rf (serverTo : nat) args r rf' :
  shape rf → (2 ≤ peers rf)%nat → (serverTo < peers rf)%nat →
  ae_Term args = currentTerm rf → aer_Success r = true →
  raft.handleAppendEntries now rf (Z.of_nat serverTo) args r = Done rf' →
  let mi := ae_PrevLogIndex args + zlen (ae_Entries args) in
  matchIndex rf' = <[serverTo := mi]> (matchIndex rf) ∧
  nextIndex rf' = <[serverTo := mi + 1]> (nextIndex rf) ∧
  log rf' = log rf ∧ commitIndex rf ≤ commitIndex rf' ∧
  (commitIndex rf < commitIndex rf' → committable rf' (commitIndex rf')) ∧
  (∀ M, commitIndex rf' < M < zlen (log rf) → ¬ committable rf' M).
Proof.
  intros Hsh Hp Hs Ht Hok H mi.
  destruct (handleAppendEntries_total now rf serverTo args r Hsh Hp Hs) as (rf2 & H2 & Ho).
  rewrite H in H2. apply Done_inj in H2 as <-.
  unfold raft.handleAppendEntries in H. rewrite Ht, Z.eqb_refl, Hok in H. simpl in H.
  destruct Hsh as (Hl & Hn & Hm & Hc).
  rewrite !(proj2 (set_idx_Done _ _ _ _)) in H by (split; [unfold zlen; lia|reflexivity]).
  rewrite Nat2Z.id in H. simpl in H. fold mi in H.
  match type of H with raft.commit_loop _ _ ?r1 = _ => set (rf1 := r1) in H end.
  destruct (commit_loop_spec (Z.to_nat (zlen (log rf) - 1 - commitIndex rf)) (zlen (log rf) - 1) rf1)
    as (rf2 & Hrun & Hadv); simpl; [by rewrite length_insert|done|done|lia|lia|].
  rewrite H in Hrun. apply Done_inj in Hrun as <-.
  destruct Hadv as [[-> Hno]|(M & -> & HM & Hcom & Hno)]; simpl in *; split_and!; try done; try lia.
  - intros M HM. apply Hno. lia.
  - intros M' HM'. apply Hno. lia.
Qed.

(** The back-up rule.  A rejection in the leader's own term moves
    [nextIndex] of the peer to one past the leader's last entry of the conflicting
    term, or to the follower's hint if the leader has no entry of that term, and
    changes nothing else. *)
Theorem backup_rule now rf (serverTo : nat) args r rf' :
  shape rf → (serverTo < peers rf)%nat → state rf = Leader →
  ae_Term args = currentTerm rf → aer_Success r = false → aer_Term r = currentTerm rf →
  raft.handleAppendEntries now rf (Z.of_nat serverTo) args r = Done rf' →
  ∃ n, backup_index (log rf) r n ∧ rf' = with_nextIndex (<[serverTo := n]> (nextIndex rf)) rf.
Proof.
  intros (Hl & Hn & Hm & Hc) Hs Hst Ht Hok Hrt H. unfold raft.handleAppendEntries in H.
  rewrite Ht, Z.eqb_refl, Hok, Hrt, Z.ltb_irrefl, Z.eqb_refl, bool_decide_eq_true_2 in H by done.
  destruct (backup_loop_spec rf r Hl) as (n & Hbk & Hspec). simpl in H. rewrite Hbk in H. simpl in H.
  rewrite (proj2 (set_idx_Done _ _ _ _)) in H by (split; [unfold zlen; lia|reflexivity]).
  apply Done_inj in H as <-. exists n. by rewrite Nat2Z.id.
Qed.

(** The vote rule.  RequestVote grants exactly when the candidate's term is
    not old, the peer has no other vote in it, and the unused helper
    [isLogUpToDate] (last term, then last index) accepts the candidate's log: the
    inlined test and the helper agree. *)
Theorem vote_rule now rf args rf' r up :
  raft.RequestVote now rf args = Done (rf', r) →
  raft.isLogUpToDate rf (rv_LastLogIndex args) (rv_LastLogTerm args) = Done up →
  rvr_VoteGranted r = true ↔
    currentTerm rf ≤ rv_Term args ∧ up = true ∧
    (rv_Term args = currentTerm rf → votedFor rf = -1 ∨ votedFor rf = rv_CandidateId args).
Proof.
  intros H Hup. unfold raft.isLogUpToDate, raft.getLastLogTerm, raft.getLastLogIndex in Hup.
  destruct (Z.ltb_spec (zlen (log rf) - 1) 0) as [|Hpos]; [done|].
  destruct (idx_term_at (log rf) (zlen (log rf) - 1)) as (e & He & _); [lia|].
  rewrite He in Hup. simpl in Hup. unfold raft.RequestVote in H.
  destruct (Z.ltb_spec (rv_Term args) (currentTerm rf)) as [Hold|Hcur].
  { inv_done. simpl. naive_solver lia. }
  set (rf1 := if currentTerm rf <? rv_Term args then _ else _) in H.
  assert (log rf1 = log rf) as Hlog by (subst rf1; by destruct (_ <? _)).
  assert ((votedFor rf1 =? -1) || (votedFor rf1 =? rv_CandidateId args) = true ↔
    (rv_Term args = currentTerm rf → votedFor rf = -1 ∨ votedFor rf = rv_CandidateId args)) as Hfree.
  { subst rf1. rewrite orb_true_iff, !Z.eqb_eq.
    destruct (Z.ltb_spec (currentTerm rf) (rv_Term args)); simpl; naive_solver lia. }
  rewrite Hlog, He in H. clearbody rf1. simpl in H.
  destruct (_ || _) eqn:Hb1 in H; [|inv_done; simpl; naive_solver].
  assert (up = (le_Term e <? rv_LastLogTerm args)
               || ((rv_LastLogTerm args =? le_Term e) && (zlen (log rf) - 1 <=? rv_LastLogIndex args)))
    as Hup'.
  { destruct (le_Term e <? rv_LastLogTerm args); simpl; [by inv_done|].
    destruct (_ && _); by inv_done. }
  rewrite <- Hup' in H. destruct up; inv_done; simpl; naive_solver.
Qed.

(** What the applier sends.  With [commitIndex] inside the log, one critical
    section of [CommitChecker] sends the commands at [lastApplied+1 ..
    commitIndex], each with its own index, and ends with [lastApplied =
    commitIndex]. *)
Theorem checker_applies_committed rf :
  0 ≤ lastApplied rf → lastApplied rf < commitIndex rf → commitIndex rf < zlen (log rf) →
  raft.CommitChecker rf =
    Done (with_lastApplied (commitIndex rf) rf,
          imap (λ k e, apply_msg (le_Command e) (lastApplied rf + 1 + Z.of_nat k))
            (take (Z.to_nat (commitIndex rf - lastApplied rf))
               (drop (Z.to_nat (lastApplied rf + 1)) (log rf)))).
Proof.
  intros Ha Hc Hl. unfold raft.CommitChecker.
  destruct (Z.leb_spec (commitIndex rf) (lastApplied rf)); [lia|].
  apply apply_loop_spec; [done|done|lia].
Qed.
End peer_theorems.

(** Two leaders of one term (finding).  There is a run of three peers, with no
    crash and every message handled at most once, that ends with peers 0 and 2 both
    leaders of term 2: [collectVotes] does not compare the term of the votes it
    counts with [currentTerm]. *)
Theorem stale_election_two_leaders :
  ∃ tr σ rf0 rf2, exec (Cmd := nat) 3 tr σ ∧ nodes σ !! 0%nat = Some rf0 ∧ nodes σ !! 2%nat = Some rf2 ∧
    raft.GetState rf0 = (2, true) ∧ raft.GetState rf2 = (2, true).
Proof.
  exists (run_of stale_win).1, (run_of stale_win).2. do 2 eexists. split.
  - apply run_of_exec. vm_compute. discriminate.
  - split_and!; [vm_compute; reflexivity..].
Qed.

(** Resent entries break agreement (finding).  There is a run of three peers
    with timely elections in which peers 0 and 1 apply different commands at index 2:
    an AppendEntries delivered again before its first reply is processed appends its
    entries a second time instead of recognising them. *)
Theorem resend_diverges :
  ∃ tr σ ms0 ms1 c0 c1, exec (Cmd := nat) 3 tr σ ∧ timely tr ∧
    LApply 0 ms0 ∈ tr ∧ LApply 1 ms1 ∈ tr ∧
    apply_msg (Some c0) 2 ∈ ms0 ∧ apply_msg (Some c1) 2 ∈ ms1 ∧ c0 ≠ c1.
Proof.
  exists (run_of resend).1, (run_of resend).2,
    [apply_msg (Some 1%nat) 1; apply_msg (Some 2%nat) 2],
    [apply_msg (Some 1%nat) 1; apply_msg (Some 1%nat) 2], 2%nat, 1%nat.
  split_and!.
  - apply run_of_exec. vm_compute. discriminate.
  - apply timely_forallb. vm_compute. reflexivity.
  - apply list_elem_of_lookup. exists 3%nat. vm_compute. reflexivity.
  - apply list_elem_of_lookup. exists 0%nat. vm_compute. reflexivity.
  - apply list_elem_of_lookup. by exists 1%nat.
  - apply list_elem_of_lookup. by exists 1%nat.
  - done.
Qed.

(** ** Instances *)

Lemma commit_one_exec : exec 3 (run_of commit_one).1 (run_of commit_one).2.
Proof. apply run_of_exec. vm_compute. discriminate. Qed.

Lemma commit_one_timely : timely (run_of commit_one).1.
Proof. apply timely_forallb. vm_compute. reflexivity. Qed.

(** The peers at the end of [commit_one]. *)
Definition one_node (i : nat) : Raft nat :=
  default (raft.Make 0 3 0 persister.MakePersister) (nodes (run_of commit_one).2 !! i).

Lemma election_safety_witness :
  state (one_node 0) = Leader ∧
  ∀ i rf, nodes (run_of commit_one).2 !! i = Some rf → state rf = Leader → currentTerm rf = 1 → i = 0%nat.
Proof.
  split; [vm_compute; reflexivity|]. intros i rf Hi Hs Ht.
  apply (election_safety 3 (run_of commit_one).1 (run_of commit_one).2 i 0%nat rf (one_node 0));
    [exact commit_one_exec|exact commit_one_timely|exact Hi|vm_compute; reflexivity|exact Hs
    |vm_compute; reflexivity|rewrite Ht; vm_compute; reflexivity].
Defined.

Lemma one_vote_per_term_witness :
  0%nat = 0%nat ∧ ∃ rf, nodes (run_of commit_one).2 !! 1%nat = Some rf ∧ 1 ≤ currentTerm rf ∧
    (currentTerm rf = 1 → votedFor rf = 0).
Proof.
  assert (voted (run_of commit_one).1 1 1 0) as Hv.
  { exists (LGrant 1 1 0). split; [|by left]. apply list_elem_of_lookup. exists 11%nat.
    vm_compute. reflexivity. }
  exact (one_vote_per_term 3 _ _ 1 1 0 0 commit_one_exec Hv Hv).
Defined.

Lemma leader_append_only_witness :
  log (one_node 0) `prefix_of` log (raft.Start (one_node 0) (Some 9%nat)).1.
Proof.
  apply (leader_append_only 3 (run_of commit_one).1 (run_of commit_one).2 LTau
    (set_node 0 (raft.Start (one_node 0) (Some 9%nat)).1 (run_of commit_one).2) 0%nat);
    [exact commit_one_exec|exact commit_one_timely|apply step_start; vm_compute; reflexivity
    |vm_compute; reflexivity..].
Defined.

Lemma network_panic_free_witness : no_panic (run_of commit_one).2.
Proof. exact (network_panic_free 3 _ _ commit_one_exec commit_one_timely). Defined.

Lemma applied_in_order_witness :
  applied (run_of commit_one).1 1 = seqZ 1 (lastApplied (one_node 1)) ∧ lastApplied (one_node 1) = 1.
Proof.
  split; [|vm_compute; reflexivity].
  apply (applied_in_order 3 _ (run_of commit_one).2 1); [exact commit_one_exec|vm_compute; reflexivity].
Defined.

(** After one more critical section of its [CommitChecker], peer 1 is parked. *)
Definition commit_one_parked : list (action nat) := commit_one ++ [AApply 1].
Lemma applier_never_sleeps_on_work_witness :
  ∃ rf, nodes (run_of commit_one_parked).2 !! 1%nat = Some rf ∧ condApply rf = true ∧
    commitIndex rf ≤ lastApplied rf.
Proof.
  eexists. split; [vm_compute; reflexivity|]. split; [reflexivity|].
  apply (applier_never_sleeps_on_work 3 (run_of commit_one_parked).1 (run_of commit_one_parked).2 1);
    [apply run_of_exec; vm_compute; discriminate|vm_compute; reflexivity|reflexivity].
Defined.

(** A peer of three in term [t] with a log of the given terms. *)
Definition peer (s : ServerState) (t : Z) (terms : list Z) : Raft nat :=
  with_state s (with_currentTerm t
    (with_log ((λ x, MkEntry (Some 0%nat) x 0) <$> terms) (raft.Make 0 3 0 persister.MakePersister))).

Lemma conflict_hint_witness :
  (∃ rf' r, raft.AppendEntries 5 (peer Follower 2 [0; 1; 2; 2])
             (MkAppendEntriesArgs 3 1 3 3 [] 0) = Done (rf', r) ∧
    log rf' = log (peer Follower 2 [0; 1; 2; 2]) ∧ currentTerm rf' = 3 ∧
    reject_reply (log (peer Follower 2 [0; 1; 2; 2])) 3 (MkAppendEntriesArgs 3 1 3 3 [] 0) r) ∧
  ∃ rf' r, raft.AppendEntries 5 (peer Follower 2 [0; 1; 2; 2])
             (MkAppendEntriesArgs 1 1 1 1 [] 0) = Done (rf', r) ∧
    r = MkAppendEntriesReply 2 false 0 0.
Proof.
  split.
  - destruct (raft.AppendEntries 5 (peer Follower 2 [0; 1; 2; 2]) (MkAppendEntriesArgs 3 1 3 3 [] 0))
      as [[rf' r]| |] eqn:E; [|vm_compute in E; discriminate E..].
    destruct (conflict_hint _ _ _ _ _ E) as (Hs & Hl & _ & Hr).
    assert (¬ prev_matches (log (peer Follower 2 [0; 1; 2; 2])) (MkAppendEntriesArgs 3 1 3 3 [] 0)) as Hm.
    { intros [_ Hm]. vm_compute in Hm. discriminate Hm. }
    destruct Hr as [Ht Hr]; [vm_compute; discriminate|exact Hm|].
    exists rf', r. split; [reflexivity|]. split; [apply Hl, Hr|]. split; [exact Ht|exact Hr].
  - destruct (raft.AppendEntries 5 (peer Follower 2 [0; 1; 2; 2]) (MkAppendEntriesArgs 1 1 1 1 [] 0))
      as [[rf' r]| |] eqn:E; [|vm_compute in E; discriminate E..].
    destruct (conflict_hint _ _ _ _ _ E) as (_ & _ & Ho & _).
    exists rf', r. split; [reflexivity|]. apply Ho. vm_compute. reflexivity.
Defined.

Definition wit_leader : Raft nat := with_nextIndex [4; 2; 4] (peer Leader 3 [0; 1; 3; 3]).
Lemma append_replicates_witness :
  ∃ args f' r, raft.heartbeat_args wit_leader 1 = Done args ∧
    raft.AppendEntries 5 (peer Follower 2 [0; 1; 2; 2]) args = Done (f', r) ∧
    log f' = log wit_leader ∧ aer_Success r = true.
Proof.
  do 3 eexists. split; [vm_compute; reflexivity|]. split; [vm_compute; reflexivity|].
  eapply (append_replicates 5 wit_leader (peer Follower 2 [0; 1; 2; 2]) _ 1 2);
    [|vm_compute; reflexivity|vm_compute; reflexivity|vm_compute; discriminate|vm_compute; reflexivity
    |right; split_and!; vm_compute; congruence|vm_compute; reflexivity].
  intros [|[|[|i]]] ni Hi; simpl in Hi; simplify_eq; vm_compute; split; discriminate.
Defined.

Lemma commit_rule_witness :
  ∃ rf', raft.handleAppendEntries 5 (with_matchIndex [0; 0; 0] wit_leader) 1
           (MkAppendEntriesArgs 3 0 1 1 [MkEntry None 3 0; MkEntry None 3 0] 0)
           (MkAppendEntriesReply 3 true 0 0) = Done rf' ∧
    commitIndex rf' = 3 ∧ committable rf' 3.
Proof.
  eexists. split; [vm_compute; reflexivity|]. split; [reflexivity|].
  eapply (commit_rule 5 (with_matchIndex [0; 0; 0] wit_leader) 1
    (MkAppendEntriesArgs 3 0 1 1 [MkEntry None 3 0; MkEntry None 3 0] 0)
    (MkAppendEntriesReply 3 true 0 0));
    [|vm_compute; lia|vm_compute; lia|reflexivity|reflexivity|vm_compute; reflexivity|vm_compute; reflexivity].
  split_and!; try reflexivity; vm_compute; discriminate.
Defined.

Lemma backup_rule_witness :
  ∃ rf' n, raft.handleAppendEntries 5 wit_leader 1 (MkAppendEntriesArgs 3 0 3 3 [] 0)
             (MkAppendEntriesReply 3 false 2 1) = Done rf' ∧
    backup_index (log wit_leader) (MkAppendEntriesReply 3 false 2 1) n ∧
    rf' = with_nextIndex (<[1%nat := n]> (nextIndex wit_leader)) wit_leader.
Proof.
  eexists. edestruct (backup_rule 5 wit_leader 1 (MkAppendEntriesArgs 3 0 3 3 [] 0)
    (MkAppendEntriesReply 3 false 2 1)) as (n & Hn & Heq);
    [| | | | | | |exists n; split; [|split; [exact Hn|exact Heq]]];
    [|vm_compute; lia|reflexivity|reflexivity|reflexivity|reflexivity|vm_compute; reflexivity
     |vm_compute; reflexivity].
  split_and!; try reflexivity; vm_compute; discriminate.
Defined.

Lemma checker_applies_committed_witness :
  ∃ rf' ms, raft.CommitChecker (with_commitIndex_signal 2 (peer Follower 2 [0; 1; 2; 2])) = Done (rf', ms) ∧
    lastApplied rf' = 2 ∧ am_CommandIndex <$> ms = [1; 2].
Proof.
  do 2 eexists. split.
  - apply (checker_applies_committed (with_commitIndex_signal 2 (peer Follower 2 [0; 1; 2; 2])));
      vm_compute; congruence.
  - split; vm_compute; reflexivity.
Defined.
