(* ===== verification/RaftBounds.v ===== *)
(** * Bounds on a Raft cluster

    Terms only come from elections, so a term is at most the number of elections
    that began: the 64-bit counters of raft.go do not wrap around in practice.  A
    cluster of one peer, whose [collectVotes] has nothing to receive, never has a
    leader, and a peer that restarts can vote again in a term. *)

From S2P Require Import Prelude Persister Raft RaftFacts RaftCluster RaftBase RaftElection RaftLog RaftRun.
Open Scope Z_scope.

Import raft_facts cluster raft_base raft_election raft_log raft_run.

Section bounds.
Context {Cmd : Type}.
Implicit Types (rf : Raft Cmd) (σ : cluster Cmd) (tr : list (label Cmd)).

(** ** Terms *)

Definition is_kick (l : label Cmd) : bool := match l with LKick _ _ _ => true | _ => false end.

(** How many elections began. *)
Definition kicks tr : Z := zlen (filter (λ l, is_kick l = true) tr).

Lemma kicks_cons l tr : kicks (l :: tr) = (if is_kick l then 1 else 0) + kicks tr.
Proof. unfold kicks. rewrite filter_cons. destruct (is_kick l); simpl; [|done]. unfold zlen. simpl. lia. Qed.

Definition vote_rpc_le (K : Z) (m : vote_rpc) : Prop :=
  match m with VReq _ _ => True | VRep _ _ r => rvr_Term r ≤ K end.
Definition append_rpc_le (K : Z) (m : append_rpc Cmd) : Prop :=
  match m with AReq _ _ args => ae_Term args ≤ K | ARep _ _ args r => ae_Term args ≤ K ∧ aer_Term r ≤ K end.

(** Every term in the system is at most [K]. *)
Record terms_le (K : Z) σ : Prop := {
  tl_node : Forall (λ rf, currentTerm rf ≤ K) (nodes σ);
  tl_election : Forall (λ el, rv_Term (el_args el) ≤ K) (elections σ);
  tl_vote : Forall (vote_rpc_le K) (votes σ);
  tl_append : Forall (append_rpc_le K) (appends σ);
}.

Lemma terms_le_mono K K' σ : K ≤ K' → terms_le K σ → terms_le K' σ.
Proof.
  intros HK [H1 H2 H3 H4]. split; (eapply Forall_impl; [eassumption|]); simpl; try lia.
  - intros [|? ? r]; simpl; lia.
  - intros [? ? args|? ? args r]; simpl; lia.
Qed.

Lemma AppendEntries_term now rf args rf' r : raft.AppendEntries now rf args = Done (rf', r) →
  currentTerm rf' = Z.max (currentTerm rf) (ae_Term args) ∧ aer_Term r = currentTerm rf'.
Proof.
  intros H. apply AppendEntries_inv in H as ([? -> ->|? _ (_ & ? & _) ? _ _ _|? _ -> ? _ _ _] & _); simpl; lia.
Qed.

Lemma RequestVote_term now rf args rf' r : raft.RequestVote now rf args = Done (rf', r) →
  currentTerm rf' ≤ Z.max (currentTerm rf) (rv_Term args) ∧ rvr_Term r = currentTerm rf'.
Proof. intros H. unfold raft.RequestVote in H. go_inv; z_bool; simpl; lia. Qed.

Lemma handleRequestVote_term now rf args r rf' o : raft.handleRequestVote now rf args r = (rf', o) →
  currentTerm rf' ≤ Z.max (currentTerm rf) (rvr_Term r).
Proof. intros H. unfold raft.handleRequestVote in H. split_ifs; simplify_eq; simpl; lia. Qed.

(** A step that replaces one peer. *)
Lemma terms_le_node K i rf (ns : list (Raft Cmd)) : Forall (λ rf, currentTerm rf ≤ K) ns → currentTerm rf ≤ K →
  Forall (λ rf, currentTerm rf ≤ K) (<[i := rf]> ns).
Proof. intros. by apply Forall_insert. Qed.

Lemma terms_le_set K i rf σ : terms_le K σ → currentTerm rf ≤ K → terms_le K (set_node i rf σ).
Proof. intros [H1 H2 H3 H4] Hrf. by split; simpl; [apply terms_le_node|..]. Qed.

Lemma terms_step n σ l σ' K : base n σ → step σ l σ' → terms_le K σ → terms_le ((if is_kick l then 1 else 0) + K) σ'.
Proof.
  intros Hb Hst Ht.
  assert (∀ i rf, nodes σ !! i = Some rf → currentTerm rf ≤ K) as Hnode.
  { intros i rf Hi. by apply (Forall_lookup_1 _ _ _ _ (tl_node _ _ Ht) Hi). }
  destruct Hst; simpl.
  - apply (terms_le_mono K (1 + K)) in Ht as [H1 H2 H3 H4]; [|lia].
    destruct (KickOff_ok _ _ _ _ _ _ (b_node _ _ Hb _ _ H) H0) as (_ & Hct & _ & _ & _ & Hta & _). pose proof (Hnode _ _ H).
    split; simpl; [apply terms_le_node; [done|lia]| | |done].
    + apply Forall_app. split; [done|]. constructor; [simpl; lia|done].
    + apply Forall_app. split; [done|]. by apply Forall_fmap, Forall_forall.
  - replace (is_kick _) with false by (unfold grant_label; by destruct (rvr_VoteGranted r)). destruct Ht as [H4 H5 H6 H7].
    pose proof (Forall_lookup_1 _ _ _ _ H5 H0) as Hel. pose proof (Hnode _ _ H1). simpl in Hel.
    apply RequestVote_term in H2 as [Hct Hr]. split; simpl; [apply terms_le_node; [done|lia]|done| |done].
    rewrite H in H6. eapply Forall_replace; [exact H6|]. simpl. lia.
  - replace (is_kick _) with false by (unfold push_label; by destruct o as [[]|]). destruct Ht as [H4 H5 H6 H7].
    rewrite H in H6. apply Forall_consume in H6 as [Hr H6]. simpl in Hr. pose proof (Hnode _ _ H1).
    apply handleRequestVote_term in H2. split; simpl; [apply terms_le_node; [done|lia]| |done|done].
    apply Forall_insert; [done|]. by apply (Forall_lookup_1 _ _ _ _ H5 H0).
  - replace (is_kick _) with false by (unfold win_label; by destruct (_ && _)). destruct Ht as [H5 H6 H7 H8].
    destruct (collectVotes_ok _ _ _ _ _ _ _ _ (b_node _ _ Hb _ _ H2) H4) as (_ & [Hct _] & _). pose proof (Hnode _ _ H2).
    split; simpl; [apply terms_le_node; [done|lia]| |done|done]. apply Forall_insert; [done|].
    by apply (Forall_lookup_1 _ _ _ _ H6 H).
  - destruct Ht as [H1 H2 H3 H4]. split; simpl; try done. apply Forall_app. split; [done|].
    apply SendHeartBeats_inv in H0 as (_ & _ & H0). apply (heartbeat_round_inv n i) in H0; [|by apply (b_node _ _ Hb)].
    apply Forall_fmap. eapply Forall_impl; [exact H0|]. intros [j args] (_ & _ & (ni & _ & Heq) & _). simpl in *. subst args. simpl. by eapply Hnode.
  - destruct Ht as [H2 H3 H4 H5]. rewrite H in H5. pose proof H5 as [Ha _]%Forall_consume. simpl in Ha.
    pose proof (Hnode _ _ H0). apply AppendEntries_term in H1 as [Hct Hr].
    split; simpl; [apply terms_le_node; [done|lia]|done|done|]. eapply Forall_replace; [exact H5|]. simpl. lia.
  - destruct Ht as [H2 H3 H4 H5]. rewrite H in H5. apply Forall_consume in H5 as [Ha H5]. simpl in Ha.
    pose proof (Hnode _ _ H0). pose proof (b_append _ _ Hb) as Hba. rewrite H in Hba.
    apply Forall_consume in Hba as [(? & ? & ? & _) _].
    destruct (handleAppendEntries_ok n src now rf dst args r rf') as (_ & Ho & _ & _ & Hs); auto; [by apply (b_node _ _ Hb)|].
    split; simpl; try done. apply terms_le_node; [done|].
    destruct Ho as [->|rf1 _ _ -> Hadv|_ ->|k _ _ _ _ _ ->]; simpl; try lia.
    destruct (commit_advanced_fields _ _ _ Hadv) as (_ & _ & _ & _ & _ & [-> _] & _). done.
  - pose proof (Hnode _ _ H). apply terms_le_set; [done|]. by apply CommitChecker_inv in H1 as [(_ & -> & _)|(_ & -> & _)].
  - pose proof (Hnode _ _ H). apply terms_le_set; [done|]. unfold raft.Start. by destruct (bool_decide _).
  - pose proof (Hnode _ _ H). by apply terms_le_set.
  - destruct Ht as [H2 H3 H4 H5]. rewrite H in H4. apply Forall_consume in H4 as [_ H4]. by split.
  - destruct Ht as [H2 H3 H4 H5]. rewrite H in H5. apply Forall_consume in H5 as [_ H5]. by split.
Qed.

Lemma exec_terms n tr σ : exec n tr σ → terms_le (kicks tr) σ.
Proof.
  induction 1 as [|tr σ l σ' Hex IH Hst].
  - split; simpl; try done. by apply Forall_fmap, Forall_forall.
  - rewrite kicks_cons. eapply terms_step; [by eapply exec_base|done|done].
Qed.

(** C40: Terms are bounded.  In every run the term of a peer, and every term in a
    message, is at most the number of elections that began, and the term of every
    peer is not negative: [currentTerm] does not leave the range of [int] unless
    2^63 elections begin. *)
Theorem terms_bounded n tr σ i rf : exec n tr σ → nodes σ !! i = Some rf →
  0 ≤ currentTerm rf ≤ kicks tr ∧ terms_le (kicks tr) σ.
Proof.
  intros Hex Hi. pose proof (exec_terms _ _ _ Hex) as Ht. split; [|done].
  split; [apply (b_node _ _ (exec_base _ _ _ Hex) _ _ Hi)|]. by apply (Forall_lookup_1 _ _ _ _ (tl_node _ _ Ht) Hi).
Qed.

(** ** One peer *)

(** A cluster of one peer has no leader (finding).  [collectVotes] looks at the number
    of votes only after it received one, [len(rf.peers)-1] times at most: with one
    peer the loop does not run, and the vote of the peer for itself, which is a
    majority, is never counted. *)
Theorem single_peer_no_leader tr σ i rf : exec 1 tr σ → nodes σ !! i = Some rf → state rf ≠ Leader.
Proof.
  intros Hex Hi Hs. destruct (exec_wins _ _ _ Hex) as [_ Hl]. destruct (Hl _ _ Hi Hs) as (eid & te & Hin).
  clear Hl Hi Hs. revert Hin. generalize (currentTerm rf) as t. induction Hex as [|tr σ l σ' Hex IH Hst]; intros t.
  { by intros ?%elem_of_nil. }
  intros [Heq|Hin]%elem_of_cons; [|by eapply IH].
  pose proof (exec_base _ _ _ Hex) as Hb. destruct Hst; try done;
    try (unfold grant_label, push_label in Heq; by repeat case_match).
  rewrite (n_peers _ _ _ (b_node _ _ Hb _ _ H2)) in H3. lia.
Qed.

(** ** Restarts *)

(** A new peer votes for the first candidate. *)
Lemma Make_votes (ps : Persister) (id c : Z) : ∃ rf' r,
  raft.RequestVote 0 (raft.Make (Cmd := Cmd) 0 3 id ps) (MkRequestVoteArgs 1 c 0 0) = Done (rf', r) ∧
  rvr_VoteGranted r = true ∧ votedFor rf' = c.
Proof.
  assert (log (raft.Make (Cmd := Cmd) 0 3 id ps) = [MkEntry None 0 0] ∧ currentTerm (raft.Make (Cmd := Cmd) 0 3 id ps) = 0) as [Hl Ht].
  { unfold raft.Make, raft.readPersist. by destruct (_ || _). }
  generalize dependent (raft.Make (Cmd := Cmd) 0 3 id ps). intros rf Hl Ht. unfold raft.RequestVote. simpl. rewrite Ht. simpl.
  rewrite Hl. simpl. eauto.
Qed.

(** A restart forgets the vote (finding).  A peer that has granted its vote of term 1
    to one candidate and saved its state with [persist] is made again from what it
    saved, and grants its vote of term 1 to another candidate: [readPersist] has an
    empty body. *)
Theorem restart_votes_again (encode : Z → Z → list (LogEntry Cmd) → list Z) c1 c2 :
  ∃ rf1 r1 rf2 r2,
    raft.RequestVote 0 (raft.Make 0 3 1 persister.MakePersister) (MkRequestVoteArgs 1 c1 0 0) = Done (rf1, r1) ∧
    rvr_VoteGranted r1 = true ∧ votedFor rf1 = c1 ∧
    raft.RequestVote 0 (raft.Make 0 3 1 (persister (raft.persist encode rf1))) (MkRequestVoteArgs 1 c2 0 0) = Done (rf2, r2) ∧
    rvr_VoteGranted r2 = true ∧ votedFor rf2 = c2.
Proof.
  destruct (Make_votes persister.MakePersister 1 c1) as (rf1 & r1 & ? & ? & ?).
  destruct (Make_votes (persister (raft.persist encode rf1)) 1 c2) as (rf2 & r2 & ? & ? & ?).
  exists rf1, r1, rf2, r2. by split_and!.
Qed.
End bounds.

Lemma terms_bounded_witness :
  ∃ rf, nodes (run_of stale_win).2 !! 2%nat = Some rf ∧ currentTerm rf = 2 ∧ 0 ≤ currentTerm rf ≤ kicks (run_of stale_win).1 ∧
    terms_le (kicks (run_of stale_win).1) (run_of stale_win).2.
Proof.
  eexists. split; [vm_compute; reflexivity|]. split; [reflexivity|].
  apply (terms_bounded 3 (run_of stale_win).1 (run_of stale_win).2 2).
  - apply run_of_exec. vm_compute. discriminate.
  - vm_compute. reflexivity.
Defined.
