(* ===== verification/RaftLock.v ===== *)
(** * The mutex of handleAppendEntries (raft/raft.go)

    [handleAppendEntries] has a path that returns with [rf.mu] locked
    ([handleAppendEntries_holds]), after which the peer would answer nothing.  A peer
    that sent AppendEntries in its current term is still the leader of that term
    unless it was killed, so only a killed peer can take the path. *)

From S2P Require Import Prelude Persister Raft RaftFacts RaftCluster RaftBase RaftElection RaftLog RaftRun.
Open Scope Z_scope.

Import raft_facts cluster raft_base raft_election raft_log raft_run.

Section lock.
Context {Cmd : Type}.
Implicit Types (rf : Raft Cmd) (σ : cluster Cmd) (tr : list (label Cmd)).

(** What a step does to a peer: a leader stays one within its term. *)
Definition stays rf rf' : Prop :=
  currentTerm rf ≤ currentTerm rf' ∧ (raft.killed rf = true → raft.killed rf' = true) ∧
  (currentTerm rf' = currentTerm rf → state rf = Leader → state rf' = Leader ∨ raft.killed rf' = true).

(** Candidates and leaders have voted for themselves. *)
Definition self_vote (i : nat) rf : Prop :=
  state rf = Candidate ∨ state rf = Leader → votedFor rf = Z.of_nat i.

Lemma stays_refl rf : stays rf rf.
Proof. split_and!; [done|done|]. by left. Qed.

Lemma stays_same rf rf' : currentTerm rf' = currentTerm rf → dead rf' = dead rf → state rf' = state rf → stays rf rf'.
Proof. intros H1 H2 H3. unfold stays, raft.killed. rewrite H1, H2, H3. split_and!; [lia|done|by left]. Qed.

Lemma insert_stays i rf rf' (ns : list (Raft Cmd)) : ns !! i = Some rf → (∀ j r, ns !! j = Some r → self_vote j r) →
  stays rf rf' ∧ self_vote i rf' →
  ∀ j r', <[i := rf']> ns !! j = Some r' → ∃ r, ns !! j = Some r ∧ stays r r' ∧ self_vote j r'.
Proof.
  intros Hi Hsv [Hs Hv] j r' [[-> ->]|[Hne Hj]]%lookup_insert_cases; [by eauto|].
  exists r'. split_and!; [done|apply stays_refl|by apply Hsv].
Qed.

(** A leader does not grant its vote again in its term. *)
Lemma RequestVote_stays i now rf args rf' r : rv_CandidateId args ≠ Z.of_nat i → self_vote i rf →
  raft.RequestVote now rf args = Done (rf', r) → stays rf rf' ∧ self_vote i rf'.
Proof.
  intros Hne Hsv H. unfold raft.RequestVote in H. unfold self_vote, stays, raft.killed in *.
  go_inv; z_bool; simpl in *; (split; [split_and!; try lia; try done|]); auto; try (by intros [?|?]); try (by left).
  all: intros _ Hl; exfalso; specialize (Hsv (or_intror Hl)); lia.
Qed.

Lemma AppendEntries_stays i now rf args rf' r : self_vote i rf → raft.AppendEntries now rf args = Done (rf', r) →
  stays rf rf' ∧ self_vote i rf'.
Proof.
  intros Hsv H. apply AppendEntries_inv in H as (Ho & (_ & _ & _ & _ & _ & Hd & _) & [Hct _] & Hs & Hv).
  unfold self_vote, stays, raft.killed in *. rewrite Hd, Hs, Hv.
  destruct (Z.ltb_spec (currentTerm rf) (ae_Term args)) as [Hlt|Hle]; (split; [split_and!; [done|done|]|]); auto.
  - intros Heq _. exfalso. destruct Ho; subst; lia.
  - by intros [?|?].
Qed.

Lemma handleRequestVote_stays i now rf args r rf' o : self_vote i rf → raft.handleRequestVote now rf args r = (rf', o) →
  stays rf rf' ∧ self_vote i rf'.
Proof.
  intros Hsv H. unfold raft.handleRequestVote in H. split_ifs; simplify_eq; z_bool;
    try (split; [apply stays_refl|done]). unfold stays, self_vote. simpl.
  split; [split_and!; [lia|done|lia]|]. by intros [?|?].
Qed.

Lemma handleAppendEntries_stays n i now rf (dst : nat) args r rf' : node_ok n i rf → (dst < n)%nat → dst ≠ i → (i < n)%nat →
  self_vote i rf → raft.handleAppendEntries now rf (Z.of_nat dst) args r = Done rf' → stays rf rf' ∧ self_vote i rf'.
Proof.
  intros Hn Hd Hne Hi Hsv H. destruct (handleAppendEntries_ok _ _ _ _ _ _ _ _ Hn Hd Hne Hi H) as (_ & Ho & _).
  destruct Ho as [->|rf1 ? ? -> Hadv|? ->|k ? ? ? ? ? ->].
  - split; [apply stays_refl|done].
  - destruct Hadv as [[-> _]|(M & -> & _)]; (split; [by apply stays_same|done]).
  - unfold stays, self_vote. simpl. split; [split_and!; [lia|done|lia]|]. by intros [?|?].
  - split; [by apply stays_same|done].
Qed.

Lemma collectVotes_stays i rf b v rf' v' ret : self_vote i rf → raft.collectVotes rf b v = (rf', v', ret) →
  stays rf rf' ∧ self_vote i rf'.
Proof.
  intros Hsv H. unfold raft.collectVotes in H. destruct (bool_decide_reflect (state rf = Candidate)) as [Hc|_]; simpl in H;
    [|simplify_eq; split; [apply stays_refl|done]].
  destruct (_ <? _); simplify_eq; [|split; [apply stays_refl|done]].
  unfold stays, self_vote. simpl. split; [split_and!; [lia|done|by left]|]. intros _. apply Hsv. by left.
Qed.

Lemma step_stays n σ l σ' : base n σ → (∀ i rf, nodes σ !! i = Some rf → self_vote i rf) → step σ l σ' →
  ∀ i rf', nodes σ' !! i = Some rf' → ∃ rf, nodes σ !! i = Some rf ∧ stays rf rf' ∧ self_vote i rf'.
Proof.
  intros Hb Hsv Hst. pose proof (b_node _ _ Hb) as Hnode.
  assert (∀ i rf', nodes σ !! i = Some rf' → ∃ rf, nodes σ !! i = Some rf ∧ stays rf rf' ∧ self_vote i rf') as Hsame.
  { intros i rf Hi. exists rf. split_and!; [done|apply stays_refl|by apply Hsv]. }
  destruct Hst; simpl; try exact Hsame; (eapply insert_stays; [done|done|]).
  - destruct (KickOff_ok _ _ _ _ _ _ (Hnode _ _ H) H0) as (_ & Ht & Hv & Hs & _). split; [|by intros _].
    split_and!; [lia| |lia]. unfold raft.KickOffElection in H0. inv_done. done.
  - pose proof (b_vote _ _ Hb) as Hvs. rewrite H in Hvs. apply Forall_consume in Hvs as [(el' & He & _ & Hne) _].
    simpl in He, Hne. simplify_eq. destruct (Forall_lookup_1 _ _ _ _ (b_election _ _ Hb) H0) as (_ & Hc & _).
    eapply RequestVote_stays; [|by apply Hsv|done]. rewrite Hc. lia.
  - eapply handleRequestVote_stays; [by apply Hsv|done].
  - eapply collectVotes_stays; [by apply Hsv|done].
  - eapply AppendEntries_stays; [by apply Hsv|done].
  - pose proof (b_append _ _ Hb) as Happ. rewrite H in Happ. apply Forall_consume in Happ as [(? & ? & ? & _) _].
    eapply (handleAppendEntries_stays n src now rf dst); eauto.
  - pose proof (Hsv _ _ H). apply CommitChecker_inv in H1 as [(_ & -> & _)|(_ & -> & _)]; (split; [by apply stays_same|done]).
  - pose proof (Hsv _ _ H). unfold raft.Start. destruct (bool_decide _); (split; [by apply stays_same|done]).
  - split; [split_and!; [done|done|by right]|]. by intros [?|?].
Qed.

(** The sender and the term of a call. *)
Definition append_src (m : append_rpc Cmd) : nat := match m with AReq src _ _ | ARep src _ _ _ => src end.
Definition append_term (m : append_rpc Cmd) : Z := match m with AReq _ _ args | ARep _ _ args _ => ae_Term args end.

Lemma step_calls n σ l σ' m : base n σ → step σ l σ' → m ∈ appends σ' →
  (∃ m', m' ∈ appends σ ∧ append_src m' = append_src m ∧ append_term m' = append_term m) ∨
  (∃ rf, nodes σ' !! append_src m = Some rf ∧ state rf = Leader ∧ append_term m = currentTerm rf).
Proof.
  intros Hb Hst. destruct Hst; simpl; intros Hm; try (left; by exists m).
  - apply elem_of_app in Hm as [Hm|Hm]; [left; by exists m|right].
    apply list_elem_of_fmap in Hm as ([j args] & -> & Hj). exists rf. simpl.
    apply SendHeartBeats_inv in H0 as (Hs & _ & H0). apply (heartbeat_round_inv n i) in H0; [|by apply (b_node _ _ Hb)].
    rewrite Forall_forall in H0. destruct (H0 _ Hj) as (_ & _ & (ni & _ & Heq) & _). simpl in Heq. by subst args.
  - left. apply elem_of_app in Hm as [Hm|[->|Hm]%elem_of_cons].
    + exists m. rewrite H. split_and!; [set_solver|done..].
    + exists (AReq src dst args). rewrite H. split_and!; [set_solver|done..].
    + exists m. rewrite H. split_and!; [set_solver|done..].
  - left. exists m. rewrite H. split_and!; [set_solver|done..].
  - left. exists m. rewrite H. split_and!; [set_solver|done..].
Qed.

(** The sender of a call of its current term leads it or was killed. *)
Definition lead_ok (t : Z) rf : Prop :=
  t ≤ currentTerm rf ∧ (t = currentTerm rf → state rf = Leader ∨ raft.killed rf = true).

Lemma exec_calls n tr σ : exec n tr σ →
  (∀ i rf, nodes σ !! i = Some rf → self_vote i rf) ∧
  (∀ m rf, m ∈ appends σ → nodes σ !! append_src m = Some rf → lead_ok (append_term m) rf).
Proof.
  induction 1 as [|tr σ l σ' Hex [Hsv Hm] Hst].
  { split; simpl; [|by intros m rf ?%not_elem_of_nil]. intros i rf. rewrite list_lookup_fmap.
    destruct (seq 0 n !! i); simpl; [|done]. intros [= <-]. by intros [?|?]. }
  pose proof (exec_base _ _ _ Hex) as Hb. pose proof (step_stays _ _ _ _ Hb Hsv Hst) as Hs. split.
  - intros i rf Hi. by destruct (Hs i rf Hi) as (? & _ & _ & ?).
  - intros m rf Hin Hi. destruct (step_calls _ _ _ _ _ Hb Hst Hin) as [(m' & Hin' & Hsrc & Ht)|(rf0 & Hi0 & Hl & Ht)].
    + destruct (Hs _ _ Hi) as (rf1 & Hi1 & (Hct & Hk & Hld) & _). rewrite <- Hsrc in Hi1.
      destruct (Hm m' rf1 Hin' Hi1) as [Hle Hok]. rewrite <- Ht. split; [lia|]. intros Heq.
      assert (append_term m' = currentTerm rf1) as Heq1 by lia. destruct (Hok Heq1) as [Hl|Hd]; [|by right; apply Hk].
      apply Hld; [lia|done].
    + simplify_eq. split; [lia|]. by left.
Qed.

(** The mutex.  When the reply to an AppendEntries call arrives, in any run,
    [handleAppendEntries] returns with [rf.mu] locked only if the peer was killed
    meanwhile. *)
Theorem mutex_released n tr σ l1 l2 src dst args r rf :
  exec n tr σ → appends σ = l1 ++ ARep src dst args r :: l2 → nodes σ !! src = Some rf →
  raft.handleAppendEntries_holds rf args r = true → raft.killed rf = true.
Proof.
  intros Hex Ha Hsrc Hh. pose proof (exec_base _ _ _ Hex) as Hb. pose proof (b_append _ _ Hb) as Happ.
  rewrite Ha in Happ. apply Forall_consume in Happ as [(_ & _ & _ & _ & Hr & _) _].
  destruct (exec_calls _ _ _ Hex) as [_ Hc]. destruct (Hc (ARep src dst args r) rf) as [_ Hl]; [|done|].
  { rewrite Ha. set_solver. }
  simpl in Hl. unfold raft.handleAppendEntries_holds in Hh. rewrite !andb_true_iff, !negb_true_iff in Hh.
  destruct Hh as [[[Ht _] Hle] Hno]. apply Z.eqb_eq in Ht. apply Z.ltb_ge in Hle.
  destruct (Hl Ht) as [Hst|]; [|done]. rewrite bool_decide_eq_true_2 in Hno by done.
  rewrite andb_true_r in Hno. apply Z.eqb_neq in Hno. lia.
Qed.
End lock.

(** Peer 0 leads term 1 and stores a command on peer 1 only, is elected again in
    term 2, and is killed before the rejection of its heartbeat by peer 2 arrives. *)
Definition killed_leader : list (action nat) :=
  elect0 ++ [AStart 0 (Some 7%nat); AHeartbeat 0; AAppend 0 0; AAppendReply 0 0;
    AKick 0 0; AVote 1 0; AVoteReply 1 0; ACollect 1; AHeartbeat 0; AAppend 2 0; AKill 0].

(** The path is taken: the goroutine of the killed peer ends with the mutex locked. *)
Theorem mutex_leaked : ∃ l1 args r rf,
  exec 3 (run_of killed_leader).1 (run_of killed_leader).2 ∧
  appends (run_of killed_leader).2 = l1 ++ [ARep 0 2 args r] ∧
  nodes (run_of killed_leader).2 !! 0%nat = Some rf ∧
  raft.handleAppendEntries_holds rf args r = true ∧ raft.killed rf = true.
Proof.
  eexists (take 2 (appends (run_of killed_leader).2)), _, _, _.
  split; [apply run_of_exec; vm_compute; discriminate|].
  split; [vm_compute; reflexivity|]. split; [vm_compute; reflexivity|]. split; vm_compute; reflexivity.
Qed.
