(* ===== verification/RaftClean.v ===== *)
(** * Runs of a Raft cluster without resent entries

    AppendEntries appends its entries without comparing them with those the peer
    already has, unless the first one conflicts; see [resend_diverges].  Here are the
    runs in which that does no harm, and how to recognise them. *)

From S2P Require Import Prelude Persister Raft RaftFacts RaftCluster RaftRun.
Open Scope Z_scope.

Import raft_facts cluster raft_run.

Module raft_clean.
Section raft_clean.
Context {Cmd : Type}.
Implicit Types (rf : Raft Cmd) (σ : cluster Cmd) (tr : list (label Cmd)).

(** The first new entry is not in the log yet. *)
Definition fits (l : list (LogEntry Cmd)) (args : AppendEntriesArgs Cmd) : Prop :=
  match ae_Entries args with
  | [] => True
  | e0 :: _ => zlen l ≤ ae_PrevLogIndex args + 1 ∨ term_at l (ae_PrevLogIndex args + 1) ≠ le_Term e0
  end.

#[global] Instance fits_dec (l : list (LogEntry Cmd)) args : Decision (fits l args).
Proof. unfold fits. destruct (ae_Entries args); apply _. Defined.
#[global] Instance prev_matches_dec (l : list (LogEntry Cmd)) args : Decision (prev_matches l args).
Proof. unfold prev_matches. apply _. Defined.

(** If the peer accepts the call, its entries fit. *)
Definition clean_call rf (args : AppendEntriesArgs Cmd) : bool :=
  negb (bool_decide (currentTerm rf ≤ ae_Term args)) || negb (bool_decide (prev_matches (log rf) args))
  || bool_decide (fits (log rf) args).

Lemma clean_call_fits rf args : clean_call rf args = true → currentTerm rf ≤ ae_Term args → prev_matches (log rf) args →
  fits (log rf) args.
Proof.
  unfold clean_call. intros Hc Ht Hp. rewrite !bool_decide_eq_true_2 in Hc by done. simpl in Hc.
  by apply (bool_decide_eq_true_1 (fits (log rf) args)).
Qed.

(** The step runs the handler of an AppendEntries call. *)
Definition delivers σ σ' (dst : nat) (args : AppendEntriesArgs Cmd) : Prop :=
  ∃ l1 l2 src r, appends σ = l1 ++ AReq src dst args :: l2 ∧ appends σ' = l1 ++ ARep src dst args r :: l2.

Definition clean_step σ σ' : Prop := ∀ dst args rf, delivers σ σ' dst args → nodes σ !! dst = Some rf → clean_call rf args = true.

Inductive clean_exec (n : nat) : list (label Cmd) → cluster Cmd → Prop :=
  | clean_init : clean_exec n [] (init n)
  | clean_more tr σ l σ' : clean_exec n tr σ → step σ l σ' → clean_step σ σ' → clean_exec n (l :: tr) σ'.

Lemma clean_exec_exec n tr σ : clean_exec n tr σ → exec n tr σ.
Proof. induction 1; [apply exec_init|by eapply exec_step]. Qed.

(** ** Steps that are clean *)

Lemma clean_same σ σ' : appends σ' = appends σ → clean_step σ σ'.
Proof. intros Heq dst args rf (l1 & l2 & src & r & H1 & H2). rewrite Heq, H1 in H2. apply app_inv_head in H2. done. Qed.

Lemma clean_shorter σ l1 m l2 : appends σ = l1 ++ m :: l2 → ∀ σ', appends σ' = l1 ++ l2 → clean_step σ σ'.
Proof.
  intros H1 σ' H2 dst args rf (k1 & k2 & src & r & H3 & H4). rewrite H1 in H3. rewrite H2 in H4.
  apply (f_equal length) in H3, H4. rewrite !length_app in *. simpl in *. lia.
Qed.

Lemma clean_longer σ σ' ms : (∀ m, m ∈ ms → ∃ src dst args, m = AReq src dst args) → appends σ' = appends σ ++ ms → clean_step σ σ'.
Proof.
  intros Hms H1 dst args rf (l1 & l2 & src & r & H2 & H3). rewrite H1, H2, <- app_assoc in H3. by apply app_inv_head in H3.
Qed.

Lemma clean_handled σ l1 l2 src dst args r rf : appends σ = l1 ++ AReq src dst args :: l2 → nodes σ !! dst = Some rf →
  clean_call rf args = true → ∀ σ', appends σ' = l1 ++ ARep src dst args r :: l2 → clean_step σ σ'.
Proof.
  intros H1 Hi Hc σ' H2 dst' args' rf' (k1 & k2 & src' & r' & H3 & H4) Hi'. rewrite H1 in H3. rewrite H2 in H4.
  assert (length k1 = length l1) as Hlen.
  { apply (f_equal (.!! length k1)) in H3, H4. rewrite (list_lookup_middle k1) in H3, H4 by done.
    destruct (Nat.lt_total (length k1) (length l1)) as [Hlt|[|Hlt]]; [|done|].
    - rewrite lookup_app_l in H3, H4 by done. congruence.
    - rewrite lookup_app_r in H3, H4 by lia. destruct (length k1 - length l1)%nat eqn:E; [lia|]. simpl in H3, H4. congruence. }
  apply app_inj_1 in H3 as [-> [= -> -> -> ->]]; [|done]. rewrite Hi in Hi'. by simplify_eq.
Qed.

(** ** Recognising clean runs *)

Definition clean_pair σ (p : append_rpc Cmd * append_rpc Cmd) : bool :=
  match p with
  | (AReq _ dst args, ARep _ _ _ _) => match nodes σ !! dst with Some rf => clean_call rf args | None => true end
  | _ => true
  end.
Definition clean_check σ σ' : bool := forallb (clean_pair σ) (zip (appends σ) (appends σ')).

Lemma clean_check_step σ σ' : clean_check σ σ' = true → clean_step σ σ'.
Proof.
  unfold clean_check. rewrite forallb_forall. intros H dst args rf (l1 & l2 & src & r & H1 & H2) Hi.
  specialize (H (AReq src dst args, ARep src dst args r)). simpl in H. rewrite Hi in H.
  apply H, list_elem_of_In, list_elem_of_lookup. exists (length l1).
  apply lookup_zip_Some. rewrite H1, H2, !list_lookup_middle by done. done.
Qed.

Fixpoint clean_from σ (acts : list (action Cmd)) : bool :=
  match acts with
  | [] => true
  | act :: acts => match run1 σ act with Some (_, σ') => clean_check σ σ' && clean_from σ' acts | None => true end
  end.

Lemma clean_from_exec n tr σ acts tr' σ' : clean_exec n tr σ → clean_from σ acts = true →
  run_from tr σ acts = Some (tr', σ') → clean_exec n tr' σ'.
Proof.
  revert tr σ. induction acts as [|act acts IH]; intros tr σ Hex Hc H; simpl in *; [by simplify_eq|].
  apply bind_Some in H as ([l σ1] & H1 & H). rewrite H1 in Hc. apply andb_true_iff in Hc as [Hc Hr].
  eapply IH; [|exact Hr|exact H]. econstructor; [done|by eapply run1_step|by apply clean_check_step].
Qed.

Lemma run_of_clean (acts : list (action Cmd)) : run 3 acts ≠ None → clean_from (init 3) acts = true →
  clean_exec 3 (run_of acts).1 (run_of acts).2.
Proof.
  unfold run_of. intros H Hc. destruct (run 3 acts) as [[tr σ]|] eqn:E; [|done].
  eapply clean_from_exec; [apply clean_init|exact Hc|exact E].
Qed.
End raft_clean.
End raft_clean.
