(* ===== verification/RaftSpec.v ===== *)
(** * An abstract Raft

    What the peers decide, without messages: terms, logs, the log of the leader of
    each term, the logs with which candidates asked for votes, the votes, and how
    much of a leader's log each peer has acknowledged in its term.  The invariant
    [ainv] says that a leader has everything that an earlier term may still commit;
    [chosen_agree] is the agreement that follows.  RaftSafety.v shows that the
    cluster takes these steps. *)

From S2P Require Import Prelude Persister Raft RaftFacts.
From stdpp Require Import functions.
Open Scope Z_scope.

Import raft_facts.

Module raft_spec.

(** ** Agreement of logs *)

Section agree.
Context {A : Type}.
Implicit Types l k : list A.

(** The first [m] entries are there and the same. *)
Definition agree (m : nat) l k : Prop := take m l = take m k ∧ (m ≤ length l)%nat ∧ (m ≤ length k)%nat.

Lemma agree_refl m l : (m ≤ length l)%nat → agree m l l.
Proof. intros ?. by repeat split. Qed.

Lemma agree_sym m l k : agree m l k → agree m k l.
Proof. intros (? & ? & ?). by repeat split. Qed.

Lemma agree_trans m l k h : agree m l k → agree m k h → agree m l h.
Proof. intros (H1 & ? & ?) (H2 & ? & ?). unfold agree; split_and!; [by rewrite H1|done..]. Qed.

Lemma agree_le m m' l k : agree m l k → (m' ≤ m)%nat → agree m' l k.
Proof.
  intros (H1 & ? & ?) Hle. unfold agree; split_and!; [|lia..].
  by rewrite <- (Nat.min_l m' m), <- !take_take, H1 by done.
Qed.

Lemma agree_prefix m l k k' : agree m l k → k `prefix_of` k' → agree m l k'.
Proof.
  intros (H1 & ? & ?) [h ->]. unfold agree. rewrite length_app. split_and!; [|lia..]. by rewrite take_app_le by lia.
Qed.

Lemma agree_lookup m l k i : agree m l k → (i < m)%nat → l !! i = k !! i.
Proof.
  intros (H1 & _) Hi. by rewrite <- (lookup_take_lt l m i), <- (lookup_take_lt k m i), H1 by done.
Qed.

Lemma agree_take m l : (m ≤ length l)%nat → agree m (take m l) l.
Proof. intros ?. unfold agree; split_and!; [by rewrite take_idemp|rewrite length_take; lia|done]. Qed.

(** Two logs that reach into a third. *)
Lemma agree_join m p l k h : agree m l h → agree p k h → (m ≤ p)%nat → agree m l k.
Proof. intros H1 H2 Hle. eapply agree_trans; [exact H1|]. apply agree_sym. by eapply agree_le. Qed.
End agree.

Section spec.
Context {Cmd : Type} (n : nat).
Notation entries := (list (LogEntry Cmd)).

(** ** States and steps *)

Record astate := MkAstate {
  a_term : nat → Z;
  a_log : nat → entries;
  a_lead : Z → entries;           (* the log of the leader of a term, [] without one *)
  a_cand : Z → nat → entries;     (* the log with which a candidate asked for votes *)
  a_ack : Z → nat → nat;          (* how many entries of [a_lead] a peer acknowledged *)
  a_vote : nat → Z → nat → Prop;  (* a peer voted in a term for a candidate *)
}.
Implicit Types a : astate.

Definition quorum (P : nat → Prop) : Prop :=
  ∃ q, NoDup q ∧ Forall (λ j, (j < n)%nat) q ∧ Z.of_nat n / 2 < zlen q ∧ ∀ j, j ∈ q → P j.

Lemma quorum_meet P Q : quorum P → quorum Q → ∃ j, P j ∧ Q j.
Proof.
  intros (q1 & Hd1 & Hf1 & Hn1 & HP) (q2 & Hd2 & Hf2 & Hn2 & HQ).
  destruct (quorum_intersection n q1 q2) as (j & H1 & H2); [done..|]. eauto.
Qed.

Lemma quorum_impl (P Q : nat → Prop) : quorum P → (∀ j, P j → Q j) → quorum Q.
Proof. intros (q & ? & ? & ? & HP) HPQ. exists q. split_and!; auto. Qed.

(** The last entry of [l] is not newer than the last entry of [c], and among logs
    that end in the same term [c] is not shorter: the test of RequestVote. *)
Definition up_to_date (l c : entries) : Prop := ∃ el ec,
  l !! (length l - 1)%nat = Some el ∧ c !! (length c - 1)%nat = Some ec ∧
  (le_Term el < le_Term ec ∨ le_Term el = le_Term ec ∧ (length l ≤ length c)%nat).

Definition upd2 {K} `{EqDecision K} {B} (t : K) (j : nat) (x : B) (f : K → nat → B) : K → nat → B :=
  λ t' j', if decide (t' = t ∧ j' = j) then x else f t' j'.

Lemma upd2_eq {K} `{EqDecision K} {B} (t : K) j (x : B) f : upd2 t j x f t j = x.
Proof. unfold upd2. by rewrite decide_True. Qed.
Lemma upd2_ne {K} `{EqDecision K} {B} (t t' : K) j j' (x : B) f : ¬ (t' = t ∧ j' = j) → upd2 t j x f t' j' = f t' j'.
Proof. intros. unfold upd2. by rewrite decide_False. Qed.

Definition add_vote (j : nat) (t : Z) (c : nat) (V : nat → Z → nat → Prop) : nat → Z → nat → Prop :=
  λ j' t' c', (j' = j ∧ t' = t ∧ c' = c) ∨ V j' t' c'.

Inductive astep a : astate → Prop :=
  (* a peer hears of a later term *)
  | as_term j t : a_term a j ≤ t →
      astep a (MkAstate (<[j := t]> (a_term a)) (a_log a) (a_lead a) (a_cand a) (a_ack a) (a_vote a))
  (* a peer asks for votes in a new term *)
  | as_kick j t : a_term a j < t →
      astep a (MkAstate (<[j := t]> (a_term a)) (a_log a) (a_lead a) (upd2 t j (a_log a j) (a_cand a)) (a_ack a)
        (add_vote j t j (a_vote a)))
  (* a peer votes *)
  | as_grant j t c : a_term a j ≤ t → t ≤ a_term a c → up_to_date (a_log a j) (a_cand a t c) →
      astep a (MkAstate (<[j := t]> (a_term a)) (a_log a) (a_lead a) (a_cand a) (a_ack a) (add_vote j t c (a_vote a)))
  (* a candidate with a majority of votes leads the term *)
  | as_win c t : 0 < t → a_lead a t = [] → quorum (λ j, a_vote a j t c) → 
      astep a (MkAstate (a_term a) (a_log a) (<[t := a_cand a t c]> (a_lead a)) (a_cand a) (a_ack a) (a_vote a))
  (* the leader appends an entry of its term *)
  | as_append c t e : a_term a c = t → a_lead a t ≠ [] → a_log a c = a_lead a t → le_Term e = t →
      astep a (MkAstate (a_term a) (<[c := a_log a c ++ [e]]> (a_log a)) (<[t := a_lead a t ++ [e]]> (a_lead a)) (a_cand a)
        (upd2 t c (S (length (a_lead a t))) (a_ack a)) (a_vote a))
  (* a peer takes over [k] entries of the leader of [t] *)
  | as_accept j t l k : a_term a j ≤ t → a_lead a t ≠ [] → agree k l (a_lead a t) →
      (∀ m, agree m (a_log a j) (a_lead a t) → agree m l (a_lead a t)) →
      (∀ i e, l !! i = Some e → agree (S i) l (a_lead a (le_Term e)) ∧ le_Term e ≤ t) →
      astep a (MkAstate (<[j := t]> (a_term a)) (<[j := l]> (a_log a)) (a_lead a) (a_cand a)
        (upd2 t j (a_ack a t j `max` k)%nat (a_ack a)) (a_vote a)).

(** ** What is and what may be committed *)

(** Index [N] of the leader of [t] holds an entry of its own term. *)
Definition key a (t : Z) (N : nat) : Prop := ∃ e, a_lead a t !! N = Some e ∧ le_Term e = t.

(** A majority has acknowledged it, or still can. *)
Definition choosable a (t : Z) (N : nat) : Prop := quorum (λ j, (N < a_ack a t j)%nat ∨ a_term a j ≤ t).
Definition chosen a (t : Z) (N : nat) : Prop := key a t N ∧ quorum (λ j, (N < a_ack a t j)%nat).

Lemma chosen_choosable a t N : chosen a t N → choosable a t N.
Proof. intros [_ Hq]. eapply quorum_impl; [exact Hq|]. by left. Qed.

(** Every entry comes with the log of the leader of its term up to it. *)
Definition matches a (l : entries) : Prop := ∀ i e, l !! i = Some e → agree (S i) l (a_lead a (le_Term e)).

Record ainv a : Prop := {
  ai_lead t : matches a (a_lead a t);
  ai_log j : matches a (a_log a j);
  ai_cand t c : matches a (a_cand a t c);
  ai_lead_terms t i e : a_lead a t !! i = Some e → le_Term e ≤ t;
  ai_log_terms j i e : a_log a j !! i = Some e → le_Term e ≤ a_term a j;
  ai_cand_terms t c i e : a_cand a t c !! i = Some e → le_Term e < t;
  ai_ack_le t j : (a_ack a t j ≤ length (a_lead a t))%nat;
  ai_ack_term t j : (0 < a_ack a t j)%nat → t ≤ a_term a j;
  ai_vote_term j t c : a_vote a j t c → t ≤ a_term a j ∧ t ≤ a_term a c;
  ai_elected t : a_lead a t ≠ [] → t = 0 ∨ 0 < t ∧ ∃ c, quorum (λ j, a_vote a j t c);
  (* what a peer acknowledged is in its log *)
  ai_kept j t N : key a t N → choosable a t N → (N < a_ack a t j)%nat → agree (S N) (a_log a j) (a_lead a t);
  (* a vote goes to a log that has it *)
  ai_voted j T c t N : a_vote a j T c → t < T → key a t N → choosable a t N → (N < a_ack a t j)%nat →
    agree (S N) (a_cand a T c) (a_lead a t);
  (* leader completeness *)
  ai_complete t T N : t < T → a_lead a T ≠ [] → key a t N → choosable a t N → agree (S N) (a_lead a T) (a_lead a t);
}.

(** ** What steps keep *)

Record forward a a' : Prop := {
  fw_term j : a_term a j ≤ a_term a' j;
  fw_lead t : a_lead a t `prefix_of` a_lead a' t;
  fw_ack t j : (a_ack a t j ≤ a_ack a' t j)%nat;
  fw_closed t j : t < a_term a j → a_ack a' t j = a_ack a t j;
  fw_cand t c : t ≤ a_term a c → a_cand a' t c = a_cand a t c;
  fw_vote j t c : a_vote a j t c → a_vote a' j t c;
}.

Lemma fn_le {K} `{EqDecision K} (f : K → Z) j t i : f j ≤ t → f i ≤ <[j := t]> f i.
Proof. intros Hle. destruct (decide (i = j)) as [->|Hne]; [by rewrite fn_lookup_insert|by rewrite fn_lookup_insert_ne]. Qed.

Lemma astep_forward a a' : ainv a → astep a a' → forward a a'.
Proof.
  intros Hi [j t Ht|j t Ht|j t c Ht Hc Hu|c t Ht Hl Hq|c t e Ht Hl Hlog He|j t l k Ht Hl Hk Hm Hml]; split; simpl; try done.
  - intros i. by apply fn_le.
  - intros i. apply fn_le. lia.
  - intros t' c Hle. apply upd2_ne. intros [-> ->]. lia.
  - intros j' t' c. by right.
  - intros i. by apply fn_le.
  - intros j' t' c'. by right.
  - intros t'. destruct (decide (t' = t)) as [->|Hne]; [rewrite Hl; apply prefix_nil|by rewrite fn_lookup_insert_ne].
  - intros t'. destruct (decide (t' = t)) as [->|Hne]; [rewrite fn_lookup_insert; by apply prefix_app_r|by rewrite fn_lookup_insert_ne].
  - intros t' j'. unfold upd2. case_decide as Hd; [|done]. destruct Hd as [-> ->].
    pose proof (ai_ack_le _ Hi t c). lia.
  - intros t' j' Hlt. apply upd2_ne. intros [-> ->]. lia.
  - intros i. by apply fn_le.
  - intros t' j'. unfold upd2. case_decide as Hd; [|done]. destruct Hd as [-> ->]. lia.
  - intros t' j' Hlt. apply upd2_ne. intros [-> ->]. lia.
Qed.

Lemma forward_matches a a' l : forward a a' → matches a l → matches a' l.
Proof. intros Hf Hm i e Hi. eapply agree_prefix; [by apply Hm|apply Hf]. Qed.

Lemma forward_key a a' t N : forward a a' → key a t N → key a' t N.
Proof. intros Hf (e & He & Ht). exists e. split; [|done]. by eapply prefix_lookup_Some; [|apply Hf]. Qed.

(** An old entry. *)
Lemma key_back a a' t N : forward a a' → key a' t N → (N < length (a_lead a t))%nat → key a t N.
Proof.
  intros Hf (e & He & Ht) Hlt. exists e. split; [|done]. destruct (fw_lead _ _ Hf t) as [h Hh].
  rewrite Hh, lookup_app_l in He by done. done.
Qed.

(** What can still be chosen could be chosen before. *)
Lemma choosable_back a a' t N : forward a a' → choosable a' t N → choosable a t N.
Proof.
  intros Hf Hc. eapply quorum_impl; [exact Hc|]. intros j Hj. simpl in Hj.
  destruct (decide (a_term a j ≤ t)) as [|Hgt]; [by right|]. left.
  rewrite <- (fw_closed _ _ Hf t j) by lia. destruct Hj as [|Hj]; [done|]. pose proof (fw_term _ _ Hf j). lia.
Qed.

Lemma forward_chosen a a' t N : forward a a' → chosen a t N → chosen a' t N.
Proof.
  intros Hf [Hk Hq]. split; [by eapply forward_key|]. eapply quorum_impl; [exact Hq|]. intros j Hj. simpl in Hj.
  pose proof (fw_ack _ _ Hf t j). lia.
Qed.

(** ** Voting *)

(** A log that is up to date has what may be chosen. *)
Lemma up_to_date_complete a T c j t N : ainv a → up_to_date (a_log a j) (a_cand a T c) → t < T → key a t N →
  choosable a t N → agree (S N) (a_log a j) (a_lead a t) → agree (S N) (a_cand a T c) (a_lead a t).
Proof.
  intros Hi (el & ec & Hl & Hc & Hu) Ht Hk Hch Hag.
  pose proof (lookup_lt_Some _ _ _ Hl) as Hlp. pose proof (lookup_lt_Some _ _ _ Hc) as Hcp.
  pose proof (ai_log _ Hi j _ _ Hl) as Ha1. replace (S (length (a_log a j) - 1)) with (length (a_log a j)) in Ha1 by lia.
  pose proof (ai_cand _ Hi T c _ _ Hc) as Ha2. replace (S (length (a_cand a T c) - 1)) with (length (a_cand a T c)) in Ha2 by lia.
  pose proof Hag as (_ & HN & _). destruct Hk as (e & He & Hte). assert (t ≤ le_Term el) as Hle.
  { rewrite <- Hte. apply (ai_lead_terms _ Hi _ N).
    rewrite <- (agree_lookup _ _ _ _ Ha1), (agree_lookup _ _ _ _ Hag) by lia. done. }
  destruct Hu as [Hlt|[Heq Hlen]].
  - assert (agree (S N) (a_lead a (le_Term ec)) (a_lead a t)) as Hco.
    { apply (ai_complete _ Hi); [lia| |by exists e|done]. intros Hn. rewrite Hn in Ha2. destruct Ha2 as (_ & _ & Hz). simpl in Hz. lia. }
    eapply agree_trans; [|exact Hco]. eapply agree_le; [exact Ha2|].
    destruct (decide (S N ≤ length (a_cand a T c))%nat) as [|Hgt]; [done|]. exfalso.
    assert (le_Term ec ≤ t) as Hbad; [|lia]. apply (ai_lead_terms _ Hi t (length (a_cand a T c) - 1)).
    rewrite <- (agree_lookup _ _ _ _ Hco), <- (agree_lookup _ _ _ _ Ha2) by lia. done.
  - rewrite <- Heq in Ha2. eapply agree_trans; [|exact Hag]. apply agree_sym. eapply agree_le; [|exact HN].
    by eapply agree_join.
Qed.

(** ** The invariant is kept *)

(** What was known of an entry that was there before. *)
Lemma kept_forward a a' j t N : ainv a → forward a a' → key a' t N → choosable a' t N → (N < a_ack a t j)%nat →
  agree (S N) (a_log a j) (a_lead a' t).
Proof.
  intros Hi Hf Hk Hc Hlt. eapply agree_prefix; [|apply Hf]. apply (ai_kept _ Hi); [|by eapply choosable_back|done].
  eapply key_back; [done..|]. pose proof (ai_ack_le _ Hi t j). lia.
Qed.

Lemma voted_forward a a' j T c t N : ainv a → forward a a' → a_vote a j T c → t < T → key a' t N → choosable a' t N →
  (N < a_ack a t j)%nat → agree (S N) (a_cand a T c) (a_lead a' t).
Proof.
  intros Hi Hf Hv HT Hk Hc Hlt. eapply agree_prefix; [|apply Hf].
  apply (ai_voted _ Hi j); [done|done| |by eapply choosable_back|done].
  eapply key_back; [done..|]. pose proof (ai_ack_le _ Hi t j). lia.
Qed.

Lemma complete_forward a a' t T N : ainv a → forward a a' → t < T → a_lead a T ≠ [] → key a' t N → choosable a' t N →
  (N < length (a_lead a t))%nat → agree (S N) (a_lead a' T) (a_lead a' t).
Proof.
  intros Hi Hf HT Hl Hk Hc Hlt. assert (agree (S N) (a_lead a T) (a_lead a t)) as Hag.
  { apply (ai_complete _ Hi); [done|done|by eapply key_back|by eapply choosable_back]. }
  eapply agree_prefix; [|apply Hf]. apply agree_sym. eapply agree_prefix; [by apply agree_sym|apply Hf].
Qed.

Lemma key_lt a t N : key a t N → (N < length (a_lead a t))%nat.
Proof. intros (e & He & _). by eapply lookup_lt_Some. Qed.

(** Steps that change terms, votes and candidates only. *)
Lemma ainv_ballot a a' : ainv a → forward a a' → a_log a' = a_log a → a_lead a' = a_lead a → a_ack a' = a_ack a →
  (∀ t c, matches a (a_cand a' t c) ∧ ∀ i e, a_cand a' t c !! i = Some e → le_Term e < t) →
  (∀ j t c, a_vote a j t c → a_vote a' j t c ∧ a_cand a' t c = a_cand a t c) →
  (∀ j t c, a_vote a' j t c → a_vote a j t c ∨ (t ≤ a_term a' j ∧ t ≤ a_term a' c ∧
     ∀ t' N, t' < t → key a t' N → choosable a t' N → (N < a_ack a t' j)%nat →
       agree (S N) (a_cand a' t c) (a_lead a t'))) →
  ainv a'.
Proof.
  intros Hi Hf Hlog Hlead Hack Hcand Hvote Hnew.
  assert (∀ l, matches a l → matches a' l) as Hm by (intros l; by apply forward_matches).
  split; rewrite ?Hlog, ?Hlead, ?Hack.
  - intros t. apply Hm, Hi.
  - intros j. apply Hm, Hi.
  - intros t c. apply Hm, Hcand.
  - apply Hi.
  - intros j i e He. etrans; [by eapply (ai_log_terms _ Hi)|apply Hf].
  - intros t c. apply Hcand.
  - apply Hi.
  - intros t j Hp. etrans; [by apply (ai_ack_term _ Hi)|apply Hf].
  - intros j t c Hv. destruct (Hnew _ _ _ Hv) as [Hold|(? & ? & _)]; [|done].
    destruct (ai_vote_term _ Hi _ _ _ Hold). pose proof (fw_term _ _ Hf j). pose proof (fw_term _ _ Hf c). lia.
  - intros t Ht. destruct (ai_elected _ Hi t Ht) as [|(Hp & c & Hq)]; [by left|right]. split; [done|]. exists c.
    eapply quorum_impl; [exact Hq|]. intros j Hj. by apply Hvote.
  - intros j t N Hk Hc Hlt. rewrite <- Hlead. by eapply kept_forward.
  - intros j T c t N Hv HT Hk Hc Hlt. destruct (Hnew _ _ _ Hv) as [Hold|(_ & _ & Hag)].
    + rewrite (proj2 (Hvote _ _ _ Hold)), <- Hlead. by eapply voted_forward.
    + apply Hag; [done| |by eapply choosable_back|done]. eapply key_back; [done..|]. rewrite <- Hlead. by apply key_lt.
  - intros t T N HT Hl Hk Hc. rewrite <- Hlead. eapply complete_forward; [done..|]. rewrite <- Hlead. by apply key_lt.
Qed.

Lemma ainv_term a j t : ainv a → a_term a j ≤ t →
  ainv (MkAstate (<[j := t]> (a_term a)) (a_log a) (a_lead a) (a_cand a) (a_ack a) (a_vote a)).
Proof.
  intros Hi Ht. eapply ainv_ballot; [exact Hi|by eapply astep_forward, as_term|done..| |done|by left].
  intros t' c. split; [apply Hi|]. intros i e. by apply (ai_cand_terms _ Hi).
Qed.

Lemma ainv_kick a j t : ainv a → a_term a j < t →
  ainv (MkAstate (<[j := t]> (a_term a)) (a_log a) (a_lead a) (upd2 t j (a_log a j) (a_cand a)) (a_ack a)
    (add_vote j t j (a_vote a))).
Proof.
  intros Hi Ht. eapply ainv_ballot; [exact Hi|by eapply astep_forward, as_kick|done..|simpl| |]; simpl.
  - intros t' c. unfold upd2. case_decide as Hd; [destruct Hd as [-> ->]|].
    + split; [apply Hi|]. intros i e He. pose proof (ai_log_terms _ Hi _ _ _ He). lia.
    + split; [apply Hi|]. intros i e. by apply (ai_cand_terms _ Hi).
  - intros j' t' c Hv. split; [by right|]. apply upd2_ne. intros [-> ->].
    destruct (ai_vote_term _ Hi _ _ _ Hv). lia.
  - intros j' t' c [(-> & -> & ->)|Hv]; [right|by left]. rewrite fn_lookup_insert. split_and!; [done..|].
    intros t' N HT Hk Hc Hlt. rewrite upd2_eq. by apply (ai_kept _ Hi).
Qed.

Lemma ainv_grant a j t c : ainv a → a_term a j ≤ t → t ≤ a_term a c → up_to_date (a_log a j) (a_cand a t c) →
  ainv (MkAstate (<[j := t]> (a_term a)) (a_log a) (a_lead a) (a_cand a) (a_ack a) (add_vote j t c (a_vote a))).
Proof.
  intros Hi Ht Htc Hu. eapply ainv_ballot; [exact Hi|by eapply astep_forward, as_grant|done..|simpl| |]; simpl.
  - intros t' c'. split; [apply Hi|]. intros i e. by apply (ai_cand_terms _ Hi).
  - intros j' t' c' Hv. split; [by right|done].
  - intros j' t' c' [(-> & -> & ->)|Hv]; [right|by left]. split_and!.
    + by rewrite fn_lookup_insert.
    + etrans; [exact Htc|by apply fn_le].
    + intros t' N HT Hk Hc Hlt. eapply up_to_date_complete; [done|exact Hu|done..|]. by apply (ai_kept _ Hi).
Qed.

Lemma ainv_win a c t : ainv a → 0 < t → a_lead a t = [] → quorum (λ j, a_vote a j t c) →
  ainv (MkAstate (a_term a) (a_log a) (<[t := a_cand a t c]> (a_lead a)) (a_cand a) (a_ack a) (a_vote a)).
Proof.
  intros Hi Ht Hl Hq. pose proof (astep_forward _ _ Hi (as_win _ _ _ Ht Hl Hq)) as Hf. set (a' := MkAstate _ _ _ _ _ _) in *.
  assert (∀ l, matches a l → matches a' l) as Hm by (intros l; by apply forward_matches).
  assert (∀ N, ¬ key a' t N) as Hno.
  { intros N (e & He & Hte). simpl in He. rewrite fn_lookup_insert in He. pose proof (ai_cand_terms _ Hi _ _ _ _ He). lia. }
  assert (∀ t' N, key a' t' N → t' ≠ t ∧ (N < length (a_lead a t'))%nat) as Hold.
  { intros t' N Hk. assert (t' ≠ t) as Hne by (intros ->; by apply (Hno N)). split; [done|].
    apply key_lt in Hk. simpl in Hk. by rewrite fn_lookup_insert_ne in Hk. }
  assert (∀ t', t' ≠ t → a_lead a' t' = a_lead a t') as Hsame by (intros; simpl; by rewrite fn_lookup_insert_ne).
  assert (a_lead a' t = a_cand a t c) as Heq by (simpl; by rewrite fn_lookup_insert).
  split; try (intros; apply Hm, Hi); try (by apply Hi).
  - intros t'. destruct (decide (t' = t)) as [->|Hne]; [rewrite Heq|rewrite Hsame by done]; apply Hm, Hi.
  - intros t' i e. destruct (decide (t' = t)) as [->|Hne]; [rewrite Heq|rewrite Hsame by done; by apply Hi].
    intros He. pose proof (ai_cand_terms _ Hi _ _ _ _ He). lia.
  - intros t' j. simpl. destruct (decide (t' = t)) as [->|Hne]; [|rewrite fn_lookup_insert_ne by done; apply Hi].
    pose proof (ai_ack_le _ Hi t j) as Hz. rewrite Hl in Hz. simpl in Hz. lia.
  - intros t'. destruct (decide (t' = t)) as [->|Hne]; [|rewrite Hsame by done; apply (ai_elected _ Hi)].
    intros _. right. split; [done|]. by exists c.
  - intros j t' N Hk Hc Hlt. by eapply (kept_forward a a').
  - intros j T c' t' N Hv HT Hk Hc Hlt. by eapply (voted_forward a a').
  - intros t' T N HT HlT Hk Hc. destruct (Hold _ _ Hk) as [Hne Hlt]. destruct (decide (T = t)) as [->|HneT].
    + rewrite Heq, (Hsame t') by done.
      destruct (quorum_meet _ _ Hq Hc) as (j & Hv & Hj). simpl in Hj.
      destruct (ai_vote_term _ Hi _ _ _ Hv) as [Hvt _]. destruct Hj as [Hj|Hj]; [|lia].
      apply (ai_voted _ Hi j); [done|done|by eapply key_back|by eapply choosable_back|done].
    + rewrite Hsame in HlT by done. by eapply complete_forward.
Qed.

(** After the leader [c] of [t] has appended: what it appended cannot be missing from a
    later leader, whose voters did not acknowledge it. *)
Lemma append_complete a a' c t t' T N : ainv a → forward a a' → a_vote a' = a_vote a → a_term a' = a_term a → a_term a c = t →
  a_lead a t ≠ [] → (∀ x, x ≠ t → a_lead a' x = a_lead a x) →
  (∀ j, (N < a_ack a' t' j)%nat → (N < a_ack a t' j)%nat ∨ t' = t ∧ j = c) →
  t' < T → a_lead a T ≠ [] → key a' t' N → choosable a' t' N → agree (S N) (a_lead a' T) (a_lead a' t').
Proof.
  intros Hi Hf Hav Hat Ht Hl Hsame Hack HT HlT' Hk Hc.
  destruct (decide (N < length (a_lead a t'))%nat) as [|Hge]; [by eapply complete_forward|exfalso].
  assert (t' = t) as ->.
  { destruct (decide (t' = t)) as [|Hne]; [done|]. apply key_lt in Hk. by rewrite Hsame in Hk by done. }
  destruct (ai_elected _ Hi T HlT') as [->|(_ & c' & Hq)].
  { destruct (ai_elected _ Hi t Hl) as [->|[? _]]; lia. }
  destruct (quorum_meet _ _ Hq Hc) as (j & Hv & Hj). simpl in Hv, Hj. destruct (ai_vote_term _ Hi _ _ _ Hv) as [Hvt _].
  rewrite Hat in Hj. destruct Hj as [Hj|Hj]; [|lia]. destruct (Hack _ Hj) as [Hlt|[_ ->]]; [|lia].
  pose proof (ai_ack_le _ Hi t j). lia.
Qed.

Lemma ainv_append a c t e : ainv a → a_term a c = t → a_lead a t ≠ [] → a_log a c = a_lead a t → le_Term e = t →
  ainv (MkAstate (a_term a) (<[c := a_log a c ++ [e]]> (a_log a)) (<[t := a_lead a t ++ [e]]> (a_lead a)) (a_cand a)
    (upd2 t c (S (length (a_lead a t))) (a_ack a)) (a_vote a)).
Proof.
  intros Hi Ht Hl Hlog He. pose proof (astep_forward _ _ Hi (as_append _ _ _ _ Ht Hl Hlog He)) as Hf.
  set (a' := MkAstate _ _ _ _ _ _) in *.
  assert (∀ l, matches a l → matches a' l) as Hm by (intros l; by apply forward_matches).
  assert (a_lead a' t = a_lead a t ++ [e]) as Heq by (simpl; by rewrite fn_lookup_insert).
  assert (∀ t', t' ≠ t → a_lead a' t' = a_lead a t') as Hsame by (intros; simpl; by rewrite fn_lookup_insert_ne).
  assert (a_log a' c = a_lead a' t) as Hlogc by (rewrite Heq; simpl; by rewrite fn_lookup_insert, Hlog).
  assert (matches a' (a_lead a t ++ [e])) as Hmat.
  { intros i e' [Hx|[Hge [Hz <-]%list_lookup_singleton_Some]]%lookup_app_Some.
    - apply agree_sym. eapply agree_prefix; [|by apply prefix_app_r]. apply agree_sym, (Hm (a_lead a t)); [apply Hi|done].
    - rewrite He, Heq. apply agree_refl. rewrite length_app. simpl. lia. }
  (* only [c] has acknowledged the new entry *)
  assert (∀ t' N j, key a' t' N → (N < a_ack a' t' j)%nat → (N < a_ack a t' j)%nat ∨ (t' = t ∧ j = c)) as Hack.
  { intros t' N j Hk Hlt. simpl in Hlt. unfold upd2 in Hlt. case_decide as Hd; [by right|by left]. }
  split; try (intros; apply Hm, Hi); try (by apply Hi).
  - intros t'. destruct (decide (t' = t)) as [->|Hne]; [by rewrite Heq|rewrite Hsame by done; apply Hm, Hi].
  - intros j. simpl. destruct (decide (j = c)) as [->|Hne]; [rewrite fn_lookup_insert, Hlog; done|].
    rewrite fn_lookup_insert_ne by done. apply Hm, Hi.
  - intros t' i e'. destruct (decide (t' = t)) as [->|Hne]; [rewrite Heq|rewrite Hsame by done; by apply Hi].
    intros [Hx|[_ [_ <-]%list_lookup_singleton_Some]]%lookup_app_Some; [by eapply (ai_lead_terms _ Hi)|lia].
  - intros j i e'. simpl. destruct (decide (j = c)) as [->|Hne]; [rewrite fn_lookup_insert|rewrite fn_lookup_insert_ne by done; apply Hi].
    intros [Hx|[_ [_ <-]%list_lookup_singleton_Some]]%lookup_app_Some; [by eapply (ai_log_terms _ Hi)|lia].
  - intros t' j. destruct (decide (t' = t)) as [->|Hne].
    + rewrite Heq, length_app. simpl. unfold upd2. case_decide; [lia|]. pose proof (ai_ack_le _ Hi t j). lia.
    + rewrite Hsame by done. simpl. rewrite upd2_ne by naive_solver. apply Hi.
  - intros t' j. simpl. unfold upd2. case_decide as Hd; [destruct Hd as [-> ->]; lia|apply Hi].
  - intros t'. destruct (decide (t' = t)) as [->|Hne]; [|rewrite Hsame by done; apply (ai_elected _ Hi)].
    intros _. by apply (ai_elected _ Hi).
  - intros j t' N Hk Hc Hlt. destruct (Hack _ _ _ Hk Hlt) as [Hlt'|[-> ->]].
    + pose proof (kept_forward _ _ _ _ _ Hi Hf Hk Hc Hlt') as Hag. simpl. destruct (decide (j = c)) as [->|Hne].
      * rewrite fn_lookup_insert. apply agree_sym. eapply agree_prefix; [by apply agree_sym|by apply prefix_app_r].
      * by rewrite fn_lookup_insert_ne.
    + rewrite Hlogc. apply agree_refl. apply key_lt in Hk. lia.
  - intros j T c' t' N Hv HT Hk Hc Hlt. destruct (Hack _ _ _ Hk Hlt) as [Hlt'|[-> ->]]; [by eapply (voted_forward a a')|].
    simpl in Hv. destruct (ai_vote_term _ Hi _ _ _ Hv). lia.
  - intros t' T N HT HlT Hk Hc.
    assert (a_lead a T ≠ []) as HlT' by (destruct (decide (T = t)) as [->|]; [done|by rewrite Hsame in HlT by done]).
    eapply (append_complete a a' c t); try done. by intros j Hlt; destruct (Hack _ _ _ Hk Hlt); naive_solver.
Qed.

Lemma ainv_accept a j t l k : ainv a → a_term a j ≤ t → a_lead a t ≠ [] → agree k l (a_lead a t) →
  (∀ m, agree m (a_log a j) (a_lead a t) → agree m l (a_lead a t)) →
  (∀ i e, l !! i = Some e → agree (S i) l (a_lead a (le_Term e)) ∧ le_Term e ≤ t) →
  ainv (MkAstate (<[j := t]> (a_term a)) (<[j := l]> (a_log a)) (a_lead a) (a_cand a)
    (upd2 t j (a_ack a t j `max` k)%nat (a_ack a)) (a_vote a)).
Proof.
  intros Hi Ht Hl Hk Hkeep Hml. pose proof (astep_forward _ _ Hi (as_accept _ _ _ _ _ Ht Hl Hk Hkeep Hml)) as Hf.
  set (a' := MkAstate _ _ _ _ _ _) in *.
  assert (∀ l, matches a l → matches a' l) as Hm by (intros l'; by apply forward_matches).
  assert (∀ i, a_term a i ≤ a_term a' i) as Hterm by apply Hf.
  split; try (intros; apply Hm, Hi); try (by apply Hi).
  - intros i. simpl. destruct (decide (i = j)) as [->|Hne]; [rewrite fn_lookup_insert|rewrite fn_lookup_insert_ne by done; apply Hm, Hi].
    intros i e He. by apply Hml.
  - intros i x e. simpl. destruct (decide (i = j)) as [->|Hne]; [rewrite !fn_lookup_insert; apply Hml|].
    rewrite !fn_lookup_insert_ne by done. apply Hi.
  - intros t' i. simpl. unfold upd2. case_decide as Hd; [destruct Hd as [-> ->]|apply Hi].
    pose proof (ai_ack_le _ Hi t j). destruct Hk as (_ & _ & Hk). lia.
  - intros t' i. simpl. unfold upd2. case_decide as Hd; [destruct Hd as [-> ->]; by rewrite fn_lookup_insert|].
    intros Hp. etrans; [by apply (ai_ack_term _ Hi)|apply Hterm].
  - intros i T c Hv. destruct (ai_vote_term _ Hi _ _ _ Hv). pose proof (Hterm i). pose proof (Hterm c). lia.
  - intros i t' N Hkey Hc Hlt. destruct (decide (i = j)) as [->|Hne].
    2:{ simpl. rewrite fn_lookup_insert_ne by done. simpl in Hlt. rewrite upd2_ne in Hlt by naive_solver.
        by eapply (kept_forward a a'). }
    simpl. rewrite fn_lookup_insert. simpl in Hlt. unfold upd2 in Hlt. case_decide as Hd.
    + destruct Hd as [-> _]. destruct (decide (N < a_ack a t j)%nat) as [Hold|Hnew].
      * apply Hkeep. by eapply (kept_forward a a').
      * eapply agree_le; [exact Hk|lia].
    + assert (t' < t) as Hlt'.
      { pose proof (ai_ack_term _ Hi t' j ltac:(lia)). destruct (decide (t' = t)) as [->|]; [naive_solver|lia]. }
      assert (agree (S N) (a_lead a t) (a_lead a t')) as Hco.
      { eapply (complete_forward a a'); [done..|]. apply key_lt in Hkey. done. }
      eapply agree_trans; [|exact Hco]. apply Hkeep. eapply agree_trans; [|by apply agree_sym]. by eapply (kept_forward a a').
  - intros i T c t' N Hv HT Hkey Hc Hlt. simpl in Hlt. unfold upd2 in Hlt. case_decide as Hd.
    + destruct Hd as [-> ->]. simpl in Hv. destruct (ai_vote_term _ Hi _ _ _ Hv). lia.
    + by eapply (voted_forward a a').
  - intros t' T N HT HlT Hkey Hc. eapply (complete_forward a a'); [done..|]. by apply key_lt in Hkey.
Qed.

Lemma ainv_step a a' : ainv a → astep a a' → ainv a'.
Proof.
  intros Hi []; eauto using ainv_term, ainv_kick, ainv_grant, ainv_win, ainv_append, ainv_accept.
Qed.

(** Steps in a row. *)
#[global] Instance forward_preorder : PreOrder forward.
Proof.
  split; [by split|]. intros a1 a2 a3 H1 H2. split.
  - intros j. etrans; [apply H1|apply H2].
  - intros t. etrans; [apply H1|apply H2].
  - intros t j. etrans; [apply H1|apply H2].
  - intros t j Ht. rewrite (fw_closed _ _ H2), (fw_closed _ _ H1); [done|done|]. pose proof (fw_term _ _ H1 j). lia.
  - intros t c Ht. rewrite (fw_cand _ _ H2), (fw_cand _ _ H1); [done|done|]. pose proof (fw_term _ _ H1 c). lia.
  - intros j t c Hv. by apply H2, H1.
Qed.

Lemma asteps_inv a a' : ainv a → rtc astep a a' → ainv a' ∧ forward a a'.
Proof.
  intros Hi Hs. induction Hs as [a|a a1 a2 H1 _ IH]; [done|].
  destruct (IH (ainv_step _ _ Hi H1)) as [Hi2 Hf]. split; [done|]. etrans; [by apply astep_forward|done].
Qed.

(** ** Agreement *)

(** What the leaders of two terms have chosen is the same. *)
Lemma chosen_agree a t1 N1 t2 N2 : ainv a → chosen a t1 N1 → chosen a t2 N2 → (N1 ≤ N2)%nat →
  agree (S N1) (a_lead a t1) (a_lead a t2).
Proof.
  intros Hi H1 H2 Hle. pose proof (key_lt _ _ _ (proj1 H1)). pose proof (key_lt _ _ _ (proj1 H2)).
  destruct (Z.lt_total t1 t2) as [Hlt|[->|Hlt]].
  - apply agree_sym, (ai_complete _ Hi); [done| |apply H1|by apply chosen_choosable].
    intros Hn. rewrite Hn in *. simpl in *. lia.
  - apply agree_refl. lia.
  - eapply agree_le; [|by apply le_n_S, Hle]. apply (ai_complete _ Hi); [done| |apply H2|by apply chosen_choosable].
    intros Hn. rewrite Hn in *. simpl in *. lia.
Qed.

(** A leader of a term that is not earlier has what is chosen. *)
Lemma chosen_lead a t N T : ainv a → chosen a t N → t ≤ T → a_lead a T ≠ [] → agree (S N) (a_lead a T) (a_lead a t).
Proof.
  intros Hi Hc Hle Hl. destruct (decide (t = T)) as [->|Hne].
  - apply agree_refl. pose proof (key_lt _ _ _ (proj1 Hc)). lia.
  - apply (ai_complete _ Hi); [lia|done|apply Hc|by apply chosen_choosable].
Qed.
End spec.
End raft_spec.
