(* ===== verification/RaftSafety.v ===== *)
(** * The cluster is an abstract Raft

    In the runs of RaftCluster.v in which elections are timely and no peer is sent
    an entry it already has ([clean_exec]), every step is a step of RaftSpec.v.  So
    peers agree on what they commit and apply.  Without these conditions they do
    not: see [stale_election_two_leaders] and [resend_diverges]. *)

From S2P Require Import Prelude Persister Raft RaftFacts RaftCluster RaftBase RaftElection RaftLog RaftClean RaftSpec.
From stdpp Require Import functions.
Open Scope Z_scope.

Import raft_facts cluster raft_base raft_election raft_log raft_clean raft_spec.

Module raft_safety.
Section raft_safety.
Context {Cmd : Type}.
Implicit Types (rf : Raft Cmd) (σ : cluster Cmd) (tr : list (label Cmd)) (a : astate (Cmd := Cmd)).

(** ** The relation *)

(** Index [m] of log [l] is in what a leader of a term up to [T] has chosen. *)
Definition justified (n : nat) a (T m : Z) (l : list (LogEntry Cmd)) : Prop :=
  m ≤ 0 ∨ ∃ t N, chosen n a t N ∧ t ≤ T ∧ m ≤ Z.of_nat N ∧ agree (S (Z.to_nat m)) l (a_lead a t).

(** Peer [i]. *)
Record node_rel (n : nat) tr a (i : nat) rf : Prop := {
  nr_term : a_term a i = currentTerm rf;
  nr_log : a_log a i = log rf;
  nr_led t : led tr i t → t ≤ currentTerm rf ∧ (currentTerm rf = t → state rf ≠ Candidate);
  nr_leader : led tr i (currentTerm rf) → log rf = a_lead a (currentTerm rf);
  nr_self N : led tr i (currentTerm rf) → key a (currentTerm rf) N → (N < a_ack a (currentTerm rf) i)%nat;
  nr_match j m : led tr i (currentTerm rf) → matchIndex rf !! j = Some m →
    m ≤ 0 ∨ (j ≠ i ∧ (Z.to_nat m < a_ack a (currentTerm rf) j)%nat);
  nr_cand : state rf = Candidate → log rf = a_cand a (currentTerm rf) i ∨ ∃ i', led tr i' (currentTerm rf);
  nr_commit : justified n a (currentTerm rf) (commitIndex rf) (log rf);
}.

(** An AppendEntries call carries the first [k] entries of the leader's log, from
    [PrevLogIndex] on. *)
Definition sent_args (n : nat) a (args : AppendEntriesArgs Cmd) (k : nat) : Prop :=
  let l := a_lead a (ae_Term args) in let p := Z.to_nat (ae_PrevLogIndex args) in
  0 ≤ ae_PrevLogIndex args ∧ (p < k)%nat ∧ (k ≤ length l)%nat ∧
  (∃ e, l !! p = Some e ∧ le_Term e = ae_PrevLogTerm args) ∧
  ae_Entries args = drop (S p) (take k l) ∧
  justified n a (ae_Term args) (ae_LeaderCommit args) (take k l).

Definition sent_rel (n : nat) a (m : append_rpc Cmd) : Prop :=
  match m with
  | AReq _ _ args => ∃ k, sent_args n a args k
  | ARep _ dst args r => ∃ k, sent_args n a args k ∧ (aer_Success r = true → (k ≤ a_ack a (ae_Term args) dst)%nat)
  end.

(** An election asks for votes for the log of its candidate. *)
Definition election_rel a (el : election) : Prop :=
  let c := a_cand a (rv_Term (el_args el)) (el_server el) in
  rv_Term (el_args el) ≤ a_term a (el_server el) ∧
  rv_LastLogIndex (el_args el) = zlen c - 1 ∧
  ∃ e, c !! (length c - 1)%nat = Some e ∧ le_Term e = rv_LastLogTerm (el_args el).

Record rel (n : nat) tr σ a : Prop := {
  rl_node i rf : nodes σ !! i = Some rf → node_rel n tr a i rf;
  rl_vote j t c : voted tr j t c → a_vote a j t c;
  rl_lead t : a_lead a t ≠ [] ↔ t = 0 ∨ ∃ i, led tr i t;
  rl_election eid el : elections σ !! eid = Some el → election_rel a el;
  rl_sent : Forall (sent_rel n a) (appends σ);
}.

(** What a peer has committed stays. *)
Definition commit_kept rf rf' : Prop := commitIndex rf ≤ commitIndex rf' ∧
  ∀ k, Z.of_nat k ≤ commitIndex rf → 0 < commitIndex rf → log rf' !! k = log rf !! k.

(** ** What steps of the specification keep *)

Lemma justified_forward n a a' T T' m l : forward a a' → T ≤ T' → justified n a T m l → justified n a' T' m l.
Proof.
  intros Hf HT [Hm|(t & N & Hc & Ht & HN & Hag)]; [by left|right]. exists t, N.
  split_and!; [by eapply forward_chosen|lia|done|]. eapply agree_prefix; [exact Hag|apply Hf].
Qed.

Lemma prefix_take {A} (l k : list A) m : l `prefix_of` k → (m ≤ length l)%nat → take m k = take m l.
Proof. intros [h ->] Hm. by apply take_app_le. Qed.

Lemma sent_args_forward n a a' args k : forward a a' → sent_args n a args k → sent_args n a' args k.
Proof.
  intros Hf (Hp & Hk & Hl & (e & He & Hte) & Hes & Hj). pose proof (fw_lead _ _ Hf (ae_Term args)) as Hpre.
  unfold sent_args. rewrite (prefix_take _ _ _ Hpre Hl). split_and!; try done.
  - pose proof (prefix_length _ _ Hpre). lia.
  - exists e. split; [by eapply prefix_lookup_Some|done].
  - by eapply justified_forward.
Qed.

Lemma sent_rel_forward n a a' m : forward a a' → sent_rel n a m → sent_rel n a' m.
Proof.
  intros Hf. destruct m as [src dst args|src dst args r]; simpl.
  - intros (k & Hk). exists k. by eapply sent_args_forward.
  - intros (k & Hk & Hr). exists k. split; [by eapply sent_args_forward|]. intros Hok.
    etrans; [by apply Hr|apply Hf].
Qed.

(** A peer that the step did not change. *)
Lemma node_rel_forward n tr tr' a a' i rf : node_rel n tr a i rf → forward a a' →
  a_term a' i = a_term a i → a_log a' i = a_log a i → a_cand a' (currentTerm rf) i = a_cand a (currentTerm rf) i →
  (∀ t, led tr' i t → led tr i t) → (∀ j t, led tr j t → led tr' j t) →
  (led tr i (currentTerm rf) → a_lead a' (currentTerm rf) = a_lead a (currentTerm rf)) →
  node_rel n tr' a' i rf.
Proof.
  intros Hr Hf Ht Hl Hc Hled Hled' Hlead. split.
  - by rewrite Ht, (nr_term _ _ _ _ _ Hr).
  - by rewrite Hl, (nr_log _ _ _ _ _ Hr).
  - intros t Hlt. by apply (nr_led _ _ _ _ _ Hr), Hled.
  - intros Hi%Hled. rewrite Hlead by done. by apply (nr_leader _ _ _ _ _ Hr).
  - intros N Hi%Hled Hk. unfold key in Hk. rewrite Hlead in Hk by done.
    pose proof (nr_self _ _ _ _ _ Hr N Hi Hk). pose proof (fw_ack _ _ Hf (currentTerm rf) i). lia.
  - intros j m Hi%Hled Hm. destruct (nr_match _ _ _ _ _ Hr j m Hi Hm) as [|[Hne Hlt]]; [by left|right].
    pose proof (fw_ack _ _ Hf (currentTerm rf) j). split; [done|lia].
  - intros Hs. rewrite Hc. destruct (nr_cand _ _ _ _ _ Hr Hs) as [|[i' Hi']]; [by left|right]. eauto.
  - eapply justified_forward; [done|done|apply Hr].
Qed.

(** A peer whose log and commit index stay. *)
Lemma node_rel_quiet n tr tr' a a' i rf rf' : node_rel n tr a i rf → forward a a' →
  a_term a' i = currentTerm rf' → a_log a' i = a_log a i →
  (∀ t, led tr' i t → led tr i t) → (∀ j t, led tr j t → led tr' j t) →
  currentTerm rf ≤ currentTerm rf' → log rf' = log rf → commitIndex rf' = commitIndex rf →
  (currentTerm rf' = currentTerm rf → matchIndex rf' = matchIndex rf) →
  (state rf' = Candidate → state rf = Candidate ∧ currentTerm rf' = currentTerm rf) →
  a_cand a' (currentTerm rf) i = a_cand a (currentTerm rf) i →
  (∀ t, a_lead a' t = a_lead a t) → node_rel n tr' a' i rf'.
Proof.
  intros Hr Hf Ht Hl Hled Hled' Hle Hlog Hcm Hma Hst Hc Hlead.
  assert (led tr' i (currentTerm rf') → currentTerm rf' = currentTerm rf ∧ led tr i (currentTerm rf)) as Hsame.
  { intros Hi%Hled. destruct (nr_led _ _ _ _ _ Hr _ Hi) as [Hle' _]. assert (currentTerm rf' = currentTerm rf) as Heq by lia.
    by rewrite Heq in Hi. }
  split.
  - done.
  - by rewrite Hl, (nr_log _ _ _ _ _ Hr).
  - intros t Hi%Hled. destruct (nr_led _ _ _ _ _ Hr _ Hi) as [Hle' Hnc]. split; [lia|].
    intros Heq Hs. destruct (Hst Hs). apply Hnc; [lia|done].
  - intros [Heq Hi]%Hsame. rewrite Hlead, Heq, Hlog. by apply (nr_leader _ _ _ _ _ Hr).
  - intros N [Heq Hi]%Hsame. rewrite Heq. unfold key. rewrite Hlead. intros Hk.
    pose proof (nr_self _ _ _ _ _ Hr N Hi Hk). pose proof (fw_ack _ _ Hf (currentTerm rf) i). lia.
  - intros j m [Heq Hi]%Hsame. rewrite Hma, Heq by done. intros Hm.
    destruct (nr_match _ _ _ _ _ Hr j m Hi Hm) as [|[Hne Hlt]]; [by left|right].
    pose proof (fw_ack _ _ Hf (currentTerm rf) j). split; [done|lia].
  - intros Hs. destruct (Hst Hs) as [Hs0 Heq]. rewrite Heq, Hc, Hlog.
    destruct (nr_cand _ _ _ _ _ Hr Hs0) as [|[i' Hi']]; [by left|right]. eauto.
  - rewrite Hlog, Hcm. eapply justified_forward; [done|done|apply Hr].
Qed.
End raft_safety.
End raft_safety.
