(* ===== verification/RaftRefine.v ===== *)
(** * The steps of the cluster are steps of the abstract Raft

    One lemma per kind of step: the relation of RaftSafety.v between the cluster and
    a state of RaftSpec.v is kept by taking at most one step of RaftSpec.v, and no
    peer loses what it has committed. *)

From stdpp Require Import functions.
From S2P Require Import Prelude Persister Raft RaftFacts RaftCluster RaftBase RaftElection RaftLog RaftClean RaftSpec RaftSafety.
Open Scope Z_scope.

Import raft_facts cluster raft_base raft_election raft_log raft_clean raft_spec raft_safety.

Module raft_refine.

(** ** Events *)
Section labels.
Context {Cmd : Type}.
Implicit Types (tr : list (label Cmd)) (l : label Cmd).

Definition no_win l : Prop := ∀ eid i te t, l ≠ LWin eid i te t.

Lemma led_back l tr i t : no_win l → led (l :: tr) i t → led tr i t.
Proof. intros Hl (eid & te & [Heq|Hin]%elem_of_cons); [by destruct (Hl eid i te t)|]. by exists eid, te. Qed.

Lemma led_win eid i te t tr i' t' : led (LWin eid i te t :: tr) i' t' → (i' = i ∧ t' = t) ∨ led tr i' t'.
Proof. intros (e & te' & [[= -> -> -> ->]|Hin]%elem_of_cons); [by left|right]. by exists e, te'. Qed.

Lemma no_win_tau : no_win LTau.
Proof. done. Qed.
Lemma no_win_grant j args r : no_win (grant_label j args r).
Proof. intros ????. unfold grant_label. by destruct (rvr_VoteGranted r). Qed.
Lemma no_win_push eid j o : no_win (push_label eid j o).
Proof. intros ????. unfold push_label. by destruct o as [[]|]. Qed.
End labels.

(** ** Handlers *)
Section handlers.
Context {Cmd : Type}.
Implicit Types rf : Raft Cmd.

Lemma RequestVote_frame now rf args rf' r : raft.RequestVote now rf args = Done (rf', r) →
  matchIndex rf' = matchIndex rf ∧ commitIndex rf' = commitIndex rf.
Proof. intros H. unfold raft.RequestVote in H. by go_inv. Qed.

(** A vote is for a log that is up to date. *)
Lemma RequestVote_up_to_date now rf args rf' r (c : list (LogEntry Cmd)) e :
  raft.RequestVote now rf args = Done (rf', r) → rvr_VoteGranted r = true →
  rv_LastLogIndex args = zlen c - 1 → c !! (length c - 1)%nat = Some e → le_Term e = rv_LastLogTerm args →
  up_to_date (log rf) c.
Proof.
  intros H Hg Hi Hc Ht. unfold raft.RequestVote in H.
  assert (∃ el, log rf !! (length (log rf) - 1)%nat = Some el ∧
    (le_Term el < rv_LastLogTerm args ∨ rv_LastLogTerm args = le_Term el ∧ zlen (log rf) - 1 ≤ rv_LastLogIndex args)) as (el & Hl & Hu).
  { go_inv; simpl in *; try done; z_bool; repeat match goal with Hx : idx _ _ = Done _ |- _ => apply idx_Done in Hx as [? Hx] end;
      eexists; (split; [replace (length (log rf) - 1)%nat with (Z.to_nat (zlen (log rf) - 1)) by (unfold zlen; lia); eassumption|]);
      z_bool; tauto || lia. }
  exists el, e. split_and!; [done|done|]. rewrite Ht. destruct Hu as [|[? Hz]]; [by left|right]. split; [done|].
  pose proof (lookup_lt_Some _ _ _ Hl). pose proof (lookup_lt_Some _ _ _ Hc). unfold zlen in *. lia.
Qed.

Lemma handleRequestVote_frame now rf args r rf' o : raft.handleRequestVote now rf args r = (rf', o) →
  matchIndex rf' = matchIndex rf ∧ commitIndex rf' = commitIndex rf.
Proof. intros H. unfold raft.handleRequestVote in H. split_ifs; by simplify_eq. Qed.

Lemma KickOff_args now rf rf' args : raft.KickOffElection now rf = Done (rf', args) →
  rv_LastLogIndex args = zlen (log rf) - 1 ∧
  (∃ e, log rf !! (length (log rf) - 1)%nat = Some e ∧ le_Term e = rv_LastLogTerm args) ∧
  commitIndex rf' = commitIndex rf.
Proof.
  intros H. unfold raft.KickOffElection in H. apply bind_Done in H as (lt & Hlt & [= <- <-]%Done_inj).
  unfold raft.getLastLogTerm, raft.getLastLogIndex in *. simpl in *. split; [done|]. split; [|done].
  destruct (zlen (log rf) - 1 <? 0); [done|]. apply bind_Done in Hlt as (e & [? He]%idx_Done & [= <-]%Done_inj).
  exists e. split; [|done]. by replace (length (log rf) - 1)%nat with (Z.to_nat (zlen (log rf) - 1)) by (unfold zlen; lia).
Qed.
End handlers.

(** ** One step *)
Section refine.
Context {Cmd : Type}.
Implicit Types (rf : Raft Cmd) (σ : cluster Cmd) (a : astate (Cmd := Cmd)) (tr : list (label Cmd)).
Context (n : nat) tr σ a.
Hypotheses (Hex : exec n tr σ) (Htm : timely tr) (Hinv : ainv n a) (Hrel : rel n tr σ a).

Definition kept σ' : Prop := ∀ i rf rf', nodes σ !! i = Some rf → nodes σ' !! i = Some rf' → commit_kept rf rf'.

Definition advance (l : label Cmd) σ' : Prop := ∃ a', rtc (astep n) a a' ∧ rel n (l :: tr) σ' a' ∧ kept σ'.

Lemma commit_kept_same rf rf' : commitIndex rf' = commitIndex rf → log rf' = log rf → commit_kept rf rf'.
Proof. intros Hc Hl. unfold commit_kept. rewrite Hc, Hl. by split. Qed.

Lemma election_rel_forward a' el el' : forward a a' → el_server el' = el_server el → el_args el' = el_args el →
  election_rel a el → election_rel a' el'.
Proof.
  intros Hf Hs Ha (Ht & Hi & Hc). unfold election_rel. rewrite Hs, Ha, (fw_cand _ _ Hf) by done.
  pose proof (fw_term _ _ Hf (el_server el)). split; [lia|done].
Qed.

Lemma rel_sent_forward a' m : forward a a' → m ∈ appends σ → sent_rel n a' m.
Proof. intros Hf Hm. eapply sent_rel_forward; [exact Hf|]. pose proof (rl_sent _ _ _ _ Hrel) as Hs. rewrite Forall_forall in Hs. by apply Hs. Qed.

(** A step that changes peer [i]. *)
Lemma advance_node l σ' a' i rf rf' :
  rtc (astep n) a a' → nodes σ !! i = Some rf → nodes σ' = <[i := rf']> (nodes σ) →
  (∀ j, j ≠ i → a_term a' j = a_term a j ∧ a_log a' j = a_log a j) →
  (∀ j t, j ≠ i → led tr j t → a_lead a' t = a_lead a t) →
  (∀ j t, j ≠ i → led (l :: tr) j t → led tr j t) →
  (∀ t, a_lead a' t ≠ [] ↔ a_lead a t ≠ [] ∨ led [l] i t) →
  node_rel n (l :: tr) a' i rf' → commit_kept rf rf' →
  (∀ j t c, label_vote l j t c → a_vote a' j t c) →
  (∀ eid el, elections σ' !! eid = Some el → election_rel a' el ∨
     ∃ el0, elections σ !! eid = Some el0 ∧ el_server el = el_server el0 ∧ el_args el = el_args el0) →
  Forall (λ m, m ∈ appends σ ∨ sent_rel n a' m) (appends σ') →
  advance l σ'.
Proof.
  intros Has Hi Hns Hsame Hlead Hled Hnew Hn Hk Hv Hel Hsent. destruct (asteps_inv _ _ _ Hinv Has) as [Hinv' Hf].
  exists a'. split; [done|]. split; [split|].
  - intros j r Hj. rewrite Hns in Hj. apply lookup_insert_cases in Hj as [[-> ->]|[Hne Hj]]; [done|].
    pose proof (rl_node _ _ _ _ Hrel _ _ Hj) as Hr. destruct (Hsame j Hne) as [Ht Hl].
    eapply node_rel_forward; [exact Hr|exact Hf|done|done| |by auto|by intros; apply led_cons|by eauto].
    apply (fw_cand _ _ Hf). by rewrite (nr_term _ _ _ _ _ Hr).
  - intros j t c [Hj|Hj]%voted_cons; [by apply Hv|]. by apply Hf, (rl_vote _ _ _ _ Hrel).
  - intros t. rewrite Hnew, (rl_lead _ _ _ _ Hrel). split.
    + intros [[->|[j Hj]]|(eid & te & Hin%list_elem_of_singleton)]; [by left|right..].
      * exists j. by apply led_cons.
      * exists i, eid, te. rewrite Hin. by left.
    + intros [->|[j Hj]]; [by left; left|]. destruct (decide (j = i)) as [->|Hne]; [|left; right; eauto].
      destruct Hj as (eid & te & [Heq|Hin]%elem_of_cons); [right; exists eid, te; rewrite Heq; by left|].
      left; right. exists i. by exists eid, te.
  - intros eid el He. destruct (Hel _ _ He) as [|(el0 & He0 & Hs & Ha)]; [done|].
    eapply election_rel_forward; [exact Hf|done|done|]. by eapply (rl_election _ _ _ _ Hrel).
  - eapply Forall_impl; [exact Hsent|]. intros m [Hm|]; [by apply rel_sent_forward|done].
  - intros j r r' Hj Hj'. rewrite Hns in Hj'. apply lookup_insert_cases in Hj' as [[-> ->]|[Hne Hj']]; simplify_eq; [done|].
    by apply commit_kept_same.
Qed.

(** A step that changes nobody. *)
Lemma advance_none σ' : nodes σ' = nodes σ → elections σ' = elections σ →
  Forall (λ m, m ∈ appends σ ∨ sent_rel n a m) (appends σ') → advance LTau σ'.
Proof.
  intros Hns Hel Hsent. exists a. split; [done|]. split; [split|].
  - intros j r Hj. rewrite Hns in Hj. eapply node_rel_forward; [by apply (rl_node _ _ _ _ Hrel)|done..| | |done].
    + intros t. by apply led_back.
    + intros ??. apply led_cons.
  - intros j t c [Hj%quiet_tau|Hj]%voted_cons; [done|]. by apply (rl_vote _ _ _ _ Hrel).
  - intros t. rewrite (rl_lead _ _ _ _ Hrel). split; (intros [->|[j Hj]]; [by left|right; exists j]).
    + by apply led_cons.
    + by apply led_back in Hj.
  - rewrite Hel. apply Hrel.
  - eapply Forall_impl; [exact Hsent|]. intros m [Hm|]; [by apply rel_sent_forward|done].
  - unfold kept. rewrite Hns. intros j r r' Hj Hj'. simplify_eq. by apply commit_kept_same.
Qed.

(** A step that may move a peer to a later term, and changes neither its log nor what
    it has committed. *)
Lemma advance_quiet l σ' a' i rf rf' :
  rtc (astep n) a a' → nodes σ !! i = Some rf → nodes σ' = <[i := rf']> (nodes σ) →
  a_term a' = <[i := currentTerm rf']> (a_term a) → a_log a' = a_log a → a_lead a' = a_lead a → no_win l →
  currentTerm rf ≤ currentTerm rf' → log rf' = log rf → commitIndex rf' = commitIndex rf →
  (currentTerm rf' = currentTerm rf → matchIndex rf' = matchIndex rf) →
  (state rf' = Candidate → state rf = Candidate ∧ currentTerm rf' = currentTerm rf) →
  (∀ j t c, label_vote l j t c → a_vote a' j t c) →
  (∀ eid el, elections σ' !! eid = Some el →
     ∃ el0, elections σ !! eid = Some el0 ∧ el_server el = el_server el0 ∧ el_args el = el_args el0) →
  Forall (λ m, m ∈ appends σ ∨ sent_rel n a' m) (appends σ') →
  advance l σ'.
Proof.
  intros Has Hi Hns Hat Hal Hle Hl Hct Hlog Hcm Hma Hst Hv Hel Hsent. destruct (asteps_inv _ _ _ Hinv Has) as [Hinv' Hf].
  pose proof (rl_node _ _ _ _ Hrel _ _ Hi) as Hr.
  eapply advance_node; [exact Has|exact Hi|exact Hns| | | | | | |exact Hv| |exact Hsent].
  - intros j Hne. rewrite Hat, Hal, fn_lookup_insert_ne by done. done.
  - intros. by rewrite Hle.
  - intros j t _. by apply led_back.
  - intros t. rewrite Hle. split; [by left|]. intros [|Hb%led_back]; [done| |done]. by destruct Hb as (? & ? & ?%elem_of_nil).
  - eapply node_rel_quiet; [exact Hr|exact Hf|by rewrite Hat, fn_lookup_insert|by rewrite Hal|intros t; by apply led_back
      |intros ??; apply led_cons|done..| |by rewrite Hle].
    apply (fw_cand _ _ Hf). by rewrite (nr_term _ _ _ _ _ Hr).
  - by apply commit_kept_same.
  - intros eid el He. right. by apply Hel.
Qed.

(** ** Elections *)

Lemma old_appends a' : Forall (λ m, m ∈ appends σ ∨ sent_rel n a' m) (appends σ).
Proof. apply Forall_forall. by left. Qed.

Lemma old_elections eid el el' : elections σ !! eid = Some el →
  el_server el' = el_server el → el_args el' = el_args el →
  ∀ e x, <[eid := el']> (elections σ) !! e = Some x →
    ∃ el0, elections σ !! e = Some el0 ∧ el_server x = el_server el0 ∧ el_args x = el_args el0.
Proof. intros He Hs Ha e x [[-> ->]|[_ Hx]]%lookup_insert_cases; eauto. Qed.

Lemma refine_kick i now rf rf' args ps : nodes σ !! i = Some rf → raft.KickOffElection now rf = Done (rf', args) →
  advance (LKick (length (elections σ)) i (rv_Term args))
    (MkCluster (<[i := rf']> (nodes σ)) (elections σ ++ [MkElection i args [] 1 0 false]) ps (appends σ)).
Proof.
  intros Hi H. pose proof (rl_node _ _ _ _ Hrel _ _ Hi) as Hr.
  destruct (KickOff_ok n i _ _ _ _ (b_node _ _ (exec_base _ _ _ Hex) _ _ Hi) H) as (_ & Ht & _ & Hs & Hlog & Hta & _).
  destruct (KickOff_args _ _ _ _ H) as (Hli & (e & He & Hlt) & Hcm). rewrite Hta.
  assert (a_term a i < currentTerm rf') as Hlt' by (rewrite (nr_term _ _ _ _ _ Hr); lia).
  pose proof (as_kick n a i (currentTerm rf') Hlt') as Hst. pose proof (astep_forward _ _ _ Hinv Hst) as Hf.
  assert (∀ t, led (LKick (length (elections σ)) i (currentTerm rf') :: tr) i t → t < currentTerm rf') as Hold.
  { intros t Hled%led_back; [|done]. destruct (nr_led _ _ _ _ _ Hr _ Hled). lia. }
  eapply advance_node; [by apply rtc_once, Hst|exact Hi|done|..]; simpl.
  - intros j Hne. by rewrite fn_lookup_insert_ne.
  - done.
  - intros j t _. by apply led_back.
  - intros t. split; [by left|]. intros [|Hb%led_back]; [done| |done]. by destruct Hb as (? & ? & ?%elem_of_nil).
  - split; simpl; rewrite ?fn_lookup_insert.
    + done.
    + by rewrite (nr_log _ _ _ _ _ Hr).
    + intros t Hl%Hold. lia.
    + intros Hl%Hold. lia.
    + intros N Hl%Hold. lia.
    + intros j m Hl%Hold. lia.
    + intros _. left. by rewrite upd2_eq, (nr_log _ _ _ _ _ Hr).
    + rewrite Hlog, Hcm. eapply justified_forward; [exact Hf| |apply Hr]. lia.
  - by apply commit_kept_same.
  - intros j t c [[=]|(-> & ? & [= _ -> ->])]. by left.
  - intros eid el [Hel|[_ [_ <-]%list_lookup_singleton_Some]]%lookup_app_Some; [right; eauto|left].
    unfold election_rel. simpl. rewrite Hta, fn_lookup_insert, upd2_eq, (nr_log _ _ _ _ _ Hr). split_and!; [done|done|eauto].
  - apply old_appends.
Qed.

Lemma refine_vote_request eid dst el now rf rf' r ps :
  elections σ !! eid = Some el → nodes σ !! dst = Some rf → raft.RequestVote now rf (el_args el) = Done (rf', r) →
  advance (grant_label dst (el_args el) r) (MkCluster (<[dst := rf']> (nodes σ)) (elections σ) ps (appends σ)).
Proof.
  intros He Hi H. pose proof (rl_node _ _ _ _ Hrel _ _ Hi) as Hr. pose proof (exec_base _ _ _ Hex) as Hb.
  destruct (RequestVote_inv _ _ _ _ _ H) as ([Hle _] & Hlog & _ & _ & _ & Hg).
  destruct (RequestVote_ok _ _ _ _ _ _ _ (b_node _ _ Hb _ _ Hi) H) as (_ & _ & Hs & _).
  destruct (RequestVote_frame _ _ _ _ _ H) as [Hm Hc].
  assert (state rf' = Candidate → state rf = Candidate ∧ currentTerm rf' = currentTerm rf) as Hcand.
  { intros Hs'. destruct Hs as [->|?]; [done|congruence]. }
  destruct (rl_election _ _ _ _ Hrel _ _ He) as (Hta & Hli & e & Hel & Hlt).
  destruct (rvr_VoteGranted r) eqn:Hgr.
  - destruct (Hg eq_refl) as (Ht & _).
    pose proof (Forall_lookup_1 _ _ _ _ (b_election _ _ Hb) He) as (_ & Hid & _).
    eapply (advance_quiet _ _ (MkAstate (<[dst := currentTerm rf']> (a_term a)) (a_log a) (a_lead a) (a_cand a) (a_ack a)
      (add_vote dst (currentTerm rf') (el_server el) (a_vote a)))); [|exact Hi|done..|apply no_win_grant|done|done|done|done|done| | |].
    + apply rtc_once, as_grant; rewrite ?(nr_term _ _ _ _ _ Hr), ?(nr_log _ _ _ _ _ Hr), ?Ht; [lia|done|].
      by eapply RequestVote_up_to_date.
    + intros j t c. unfold grant_label. rewrite Hgr, Hid, Nat2Z.id. intros [[= <- <- <-]|(_ & ? & [=])]. left. by rewrite Ht.
    + eauto.
    + apply old_appends.
  - eapply (advance_quiet _ _ (MkAstate (<[dst := currentTerm rf']> (a_term a)) _ _ _ _ _)); 
      [apply rtc_once, as_term; by rewrite (nr_term _ _ _ _ _ Hr)|exact Hi|done..|apply no_win_grant|done|done|done|done|done| | |].
    + intros j t c. unfold grant_label. rewrite Hgr. by intros ?%quiet_tau.
    + eauto.
    + apply old_appends.
Qed.

Lemma refine_vote_reply eid dst el now rf rf' r o ps :
  elections σ !! eid = Some el → nodes σ !! el_server el = Some rf →
  raft.handleRequestVote now rf (el_args el) r = (rf', o) →
  advance (push_label eid dst o)
    (MkCluster (<[el_server el := rf']> (nodes σ)) (<[eid := push_vote el o]> (elections σ)) ps (appends σ)).
Proof.
  intros He Hi H. pose proof (rl_node _ _ _ _ Hrel _ _ Hi) as Hr.
  destruct (handleRequestVote_ok n _ _ _ _ _ _ _ (b_node _ _ (exec_base _ _ _ Hex) _ _ Hi) H) as (_ & [Hle _] & Hlog & Hs).
  destruct (handleRequestVote_frame _ _ _ _ _ _ H) as [Hm Hc].
  eapply (advance_quiet _ _ (MkAstate (<[el_server el := currentTerm rf']> (a_term a)) _ _ _ _ _)); 
    [apply rtc_once, as_term; by rewrite (nr_term _ _ _ _ _ Hr)|exact Hi|done..|apply no_win_push|done|done|done|done| | | |].
  - intros Hs'. destruct Hs as [->|?]; [done|congruence].
  - intros j t c. by intros ?%quiet_push.
  - by eapply old_elections.
  - apply old_appends.
Qed.

(** A candidate that wins asked for votes with its present log. *)
Lemma win_candidate l σ' eid i rf te : exec n (l :: tr) σ' → timely (l :: tr) → l = LWin eid i te (currentTerm rf) →
  nodes σ !! i = Some rf → state rf = Candidate →
  log rf = a_cand a (currentTerm rf) i ∧ a_lead a (currentTerm rf) = [] ∧ 0 < currentTerm rf ∧
  quorum n (λ j, a_vote a j (currentTerm rf) i) ∧ ∀ j, ¬ led tr j (currentTerm rf).
Proof.
  intros Hex' Htm' -> Hi Hs. pose proof (rl_node _ _ _ _ Hrel _ _ Hi) as Hr.
  pose proof (n_active _ _ _ (b_node _ _ (exec_base _ _ _ Hex) _ _ Hi) (or_introl Hs)) as Hp.
  assert (∀ j, ¬ led tr j (currentTerm rf)) as Hno.
  { intros j (e & te' & Hw). assert (j = i) as ->.
    { eapply (win_unique _ _ _ _ _ _ _ _ _ _ Hex' Htm'); [right; exact Hw|by left]. }
    destruct (nr_led _ _ _ _ _ Hr (currentTerm rf)) as [_ Hnc]; [by exists e, te'|]. by apply Hnc. }
  split_and!; [|..|lia| |done].
  - destruct (nr_cand _ _ _ _ _ Hr Hs) as [|[j Hj]]; [done|]. by apply Hno in Hj.
  - destruct (a_lead a (currentTerm rf)) eqn:E; [done|]. exfalso.
    destruct (proj1 (rl_lead _ _ _ _ Hrel (currentTerm rf))) as [|[j Hj]]; [by rewrite E|lia|by apply Hno in Hj].
  - destruct (win_quorum _ _ _ _ _ _ _ Hex' Htm' ltac:(by left)) as (q & Hd & Hq & Hn & Hv).
    exists q. split_and!; [done..|]. intros j Hj. apply (rl_vote _ _ _ _ Hrel).
    destruct (proj1 (voted_cons _ _ _ _ _) (Hv j Hj)) as [[[=]|(_ & ? & [=])]|]; done.
Qed.

Lemma refine_collect eid el b ch rf rf' v ret k σ' : let l := win_label eid el rf rf' in
  exec n (l :: tr) σ' → timely (l :: tr) → elections σ !! eid = Some el → nodes σ !! el_server el = Some rf →
  raft.collectVotes rf b (el_votes el) = (rf', v, ret) →
  σ' = MkCluster (<[el_server el := rf']> (nodes σ))
         (<[eid := MkElection (el_server el) (el_args el) ch v k ret]> (elections σ)) (votes σ) (appends σ) →
  advance l σ'.
Proof.
  intros l Hex' Htm' He Hi H ->. pose proof (rl_node _ _ _ _ Hrel _ _ Hi) as Hr.
  destruct (collectVotes_ok n _ _ _ _ _ _ _ (b_node _ _ (exec_base _ _ _ Hex) _ _ Hi) H) as (_ & _ & _ & _ & [->|(Hs & -> & _)]).
  - assert (l = LTau) as Hl.
    { subst l. unfold win_label. destruct (bool_decide_reflect (state rf = Candidate)) as [Hs|]; [|done].
      rewrite bool_decide_eq_false_2 by congruence. done. }
    clearbody l. subst l. eapply (advance_quiet _ _ (MkAstate (<[el_server el := currentTerm rf]> (a_term a)) _ _ _ _ _)); 
      [apply rtc_once, as_term; by rewrite (nr_term _ _ _ _ _ Hr)|exact Hi|done..| | |].
    + intros j t c. by intros ?%quiet_tau.
    + by eapply old_elections.
    + apply old_appends.
  - assert (l = LWin eid (el_server el) (rv_Term (el_args el)) (currentTerm rf)) as Hl.
    { subst l. unfold win_label. by rewrite !bool_decide_eq_true_2. }
    clearbody l. destruct (win_candidate _ _ _ _ _ _ Hex' Htm' Hl Hi Hs) as (Hc & Hle & Hp & Hq & Hno). subst l.
    pose proof (as_win n a _ _ Hp Hle Hq) as Hst. pose proof (astep_forward _ _ _ Hinv Hst) as Hf.
    eapply advance_node; [by apply rtc_once, Hst|exact Hi|done|..]; simpl.
    + done.
    + intros j t _ Hj. rewrite fn_lookup_insert_ne; [done|]. intros <-. by apply Hno in Hj.
    + intros j t Hne [[-> _]|]%led_win; done.
    + intros t. destruct (decide (t = currentTerm rf)) as [->|Hne].
      * rewrite fn_lookup_insert, <- Hc. split; [|intros _; by apply log_ok_nonempty, (b_node _ _ (exec_base _ _ _ Hex) _ _ Hi)].
        intros _. right. eexists _, _. by left.
      * rewrite fn_lookup_insert_ne by done. split; [by left|]. intros [|[[_ ->]|Hb]%led_win]; [done..|].
        by destruct Hb as (? & ? & ?%elem_of_nil).
    + split; simpl; rewrite ?fn_lookup_insert; try done.
      * apply Hr.
      * apply Hr.
      * intros t Ht. split; [|done]. apply led_win in Ht as [[_ ->]|Ht]; [lia|]. by apply (nr_led _ _ _ _ _ Hr).
      * intros N _ (e & Hn & Hte). simpl in Hn. rewrite fn_lookup_insert in Hn.
        pose proof (ai_cand_terms _ _ Hinv _ _ _ _ Hn). lia.
      * intros j m _ [-> _]%lookup_replicate. by left.
      * eapply justified_forward; [exact Hf| |apply Hr]. lia.
    + by apply commit_kept_same.
    + intros j t c [[=]|(_ & ? & [=])].
    + intros e x Hx. right. by eapply (old_elections eid el _ He); [..|exact Hx].
    + apply old_appends.
Qed.

(** ** Log replication *)

Lemma leader_led i rf : nodes σ !! i = Some rf → state rf = Leader → led tr i (currentTerm rf).
Proof. intros Hi Hs. destruct (exec_wins _ _ _ Hex) as [_ Hl]. by apply (Hl i rf). Qed.

Lemma led_lead i t : led tr i t → a_lead a t ≠ [].
Proof. intros Hl. apply (rl_lead _ _ _ _ Hrel). right. by exists i. Qed.

Lemma term_at_lookup (l : list (LogEntry Cmd)) i : 0 ≤ i < zlen l → ∃ e, l !! Z.to_nat i = Some e ∧ le_Term e = term_at l i.
Proof. intros Hi. destruct (idx_term_at l i Hi) as (e & [_ He]%idx_Done & Ht). eauto. Qed.

Lemma heartbeat_sent i rf j args : nodes σ !! i = Some rf → state rf = Leader → heartbeat_for rf j args →
  (∃ ni, nextIndex rf !! j = Some ni ∧ 1 ≤ ni ≤ zlen (log rf)) → sent_args n a args (length (log rf)).
Proof.
  intros Hi Hs (ni & Hni & ->) (ni' & Hni' & Hb). simplify_eq. pose proof (rl_node _ _ _ _ Hrel _ _ Hi) as Hr.
  pose proof (nr_leader _ _ _ _ _ Hr (leader_led _ _ Hi Hs)) as Hl.
  unfold sent_args. simpl. rewrite <- Hl, firstn_all. unfold zlen in *. split_and!; [lia|lia|lia| | |apply Hr].
  - destruct (term_at_lookup (log rf) (ni - 1)) as (e & He & Ht); [unfold zlen; lia|]. eauto.
  - f_equal. lia.
Qed.

Lemma refine_heartbeat i rf msgs : nodes σ !! i = Some rf → raft.SendHeartBeats rf = Done (Some msgs) →
  advance LTau (MkCluster (nodes σ) (elections σ) (votes σ) (appends σ ++ ((λ m, AReq i m.1 m.2) <$> msgs))).
Proof.
  intros Hi H. apply SendHeartBeats_inv in H as (Hs & _ & H).
  apply (heartbeat_round_inv n i) in H; [|by apply (b_node _ _ (exec_base _ _ _ Hex))].
  apply advance_none; [done..|]. simpl. apply Forall_app. split; [apply old_appends|].
  apply Forall_fmap. eapply Forall_impl; [exact H|]. intros [j args] (_ & _ & Hf & Hb). right.
  exists (length (log rf)). by eapply heartbeat_sent.
Qed.

(** The log of a peer that has the entry before the new ones. *)
Lemma prev_agree dst rf args k : nodes σ !! dst = Some rf → sent_args n a args k → prev_matches (log rf) args →
  agree (S (Z.to_nat (ae_PrevLogIndex args))) (log rf) (a_lead a (ae_Term args)).
Proof.
  intros Hi (Hp & _ & _ & (e & He & Hte) & _) [Hb Ht]. pose proof (rl_node _ _ _ _ Hrel _ _ Hi) as Hr.
  destruct (term_at_lookup _ _ Hb) as (e' & He' & Hte').
  pose proof (ai_lead _ _ Hinv _ _ _ He) as H1. rewrite Hte in H1.
  assert (agree (S (Z.to_nat (ae_PrevLogIndex args))) (log rf) (a_lead a (le_Term e'))) as H2.
  { rewrite <- (nr_log _ _ _ _ _ Hr) in *. by apply (ai_log _ _ Hinv). }
  rewrite Hte', Ht in H2. eapply agree_trans; [exact H2|by apply agree_sym].
Qed.

(** Clean appends end in a prefix of the leader's log. *)
Lemma accept_clean dst rf args k : nodes σ !! dst = Some rf → sent_args n a args k → prev_matches (log rf) args →
  fits (log rf) args →
  let l' := accept_log (log rf) (ae_PrevLogIndex args) (ae_Entries args) in let L := a_lead a (ae_Term args) in
  agree k l' L ∧ (∀ m, agree m (log rf) L → agree m l' L) ∧ (l' = log rf ∨ l' = take k L).
Proof.
  intros Hi Hsent Hpm Hfit l' L. pose proof (prev_agree _ _ _ _ Hi Hsent Hpm) as Hag. fold L in Hag.
  destruct Hsent as (Hp & Hk & Hl & _ & Hes & _), Hpm as [Hb _]. set (p := Z.to_nat (ae_PrevLogIndex args)) in *. fold L in Hl, Hes.
  unfold l', accept_log, fits in *. destruct (ae_Entries args) as [|e0 es] eqn:E.
  - symmetry in Hes. apply (f_equal length) in Hes. rewrite length_drop, length_take in Hes. simpl in Hes.
    replace k with (S p) by lia. auto.
  - assert (S p < k)%nat as Hk'.
    { apply (f_equal length) in Hes. rewrite length_drop, length_take in Hes. simpl in Hes. lia. }
    assert (L !! S p = Some e0) as He0.
    { apply (f_equal (.!! 0%nat)) in Hes. by rewrite lookup_drop, Nat.add_0_r, lookup_take_lt in Hes by lia. }
    assert ((if (ae_PrevLogIndex args + 1 <? zlen (log rf)) && negb (term_at (log rf) (ae_PrevLogIndex args + 1) =? le_Term e0)
      then take (Z.to_nat (ae_PrevLogIndex args + 1)) (log rf) ++ e0 :: es else log rf ++ e0 :: es) = take k L) as ->.
    { transitivity (take (S p) (log rf) ++ e0 :: es).
      - replace (Z.to_nat (ae_PrevLogIndex args + 1)) with (S p) by lia.
        destruct (Z.ltb_spec (ae_PrevLogIndex args + 1) (zlen (log rf))); simpl.
        + destruct Hfit as [|Hne]; [lia|]. by destruct (Z.eqb_spec (term_at (log rf) (ae_PrevLogIndex args + 1)) (le_Term e0)).
        + rewrite take_ge; [done|]. unfold zlen in *. lia.
      - destruct Hag as (-> & _). rewrite Hes. rewrite <- (take_drop (S p) (take k L)) at 2. f_equal.
        rewrite take_take. f_equal. lia. }
    split_and!; [by apply agree_take| |by right]. intros m Hm.
    assert (m ≤ S p)%nat as Hle.
    { destruct (decide (m ≤ S p)%nat) as [|Hgt]; [done|]. exfalso.
      pose proof (agree_lookup _ _ _ (S p) Hm ltac:(lia)) as Heq. rewrite He0 in Heq.
      pose proof (lookup_lt_Some _ _ _ Heq). destruct Hfit as [|Hne]; [unfold zlen in *; lia|]. apply Hne.
      apply term_at_Done, idx_Done. split; [lia|]. by replace (Z.to_nat (ae_PrevLogIndex args + 1)) with (S p) by lia. }
    eapply agree_le; [by apply agree_take|lia].
Qed.

(** What a peer has committed is in the log of every leader that is not older. *)
Lemma justified_lead T T' m (l : list (LogEntry Cmd)) : justified n a T m l → 0 < m → T ≤ T' → a_lead a T' ≠ [] →
  agree (S (Z.to_nat m)) l (a_lead a T').
Proof.
  intros [|(t & N & Hc & Ht & HN & Hag)] Hm HT Hl; [lia|]. eapply agree_trans; [exact Hag|]. apply agree_sym.
  eapply agree_le; [apply (chosen_lead _ _ _ _ _ Hinv Hc); [lia|done]|lia].
Qed.

Lemma justified_move T T' m (l l' : list (LogEntry Cmd)) : justified n a T m l → T ≤ T' → a_lead a T' ≠ [] →
  (∀ k, agree k l (a_lead a T') → agree k l' (a_lead a T')) → justified n a T' m l'.
Proof.
  intros Hj HT Hl Hkeep. destruct (decide (m ≤ 0)) as [|Hm]; [by left|right].
  pose proof (justified_lead _ _ _ _ Hj ltac:(lia) HT Hl) as Hag. destruct Hj as [|(t & N & Hc & Ht & HN & Hag')]; [lia|].
  exists t, N. split_and!; [done|lia|done|]. eapply agree_trans; [by apply Hkeep|]. 
  eapply agree_trans; [by apply agree_sym|exact Hag'].
Qed.

Lemma justified_less T m m' (l l' : list (LogEntry Cmd)) k : justified n a T m (take k l) → m' ≤ m → agree k l' l → justified n a T m' l'.
Proof.
  intros [Hm|(t & N & Hc & Ht & HN & Hag)] Hle Hl; [left; lia|]. destruct (decide (m' ≤ 0)) as [|Hp]; [by left|right].
  exists t, N. split_and!; [done|done|lia|]. pose proof Hag as (_ & Hlen & _). rewrite length_take in Hlen.
  eapply agree_trans; [eapply agree_le; [exact Hl|lia]|]. eapply agree_trans; [|eapply agree_le; [exact Hag|lia]].
  apply agree_sym. eapply agree_le; [apply agree_take|]; destruct Hl as (_ & _ & ?); lia.
Qed.

(** The state of the specification after an accepted call. *)
Definition accepted dst rf' (args : AppendEntriesArgs Cmd) (k : nat) : astate :=
  MkAstate (<[dst := ae_Term args]> (a_term a)) (<[dst := log rf']> (a_log a)) (a_lead a) (a_cand a)
    (upd2 (ae_Term args) dst (a_ack a (ae_Term args) dst `max` k)%nat (a_ack a)) (a_vote a).

Lemma accept_step dst rf rf' args k : nodes σ !! dst = Some rf → currentTerm rf ≤ ae_Term args → a_lead a (ae_Term args) ≠ [] →
  agree k (log rf') (a_lead a (ae_Term args)) →
  (∀ m, agree m (log rf) (a_lead a (ae_Term args)) → agree m (log rf') (a_lead a (ae_Term args))) →
  log rf' = log rf ∨ log rf' = take k (a_lead a (ae_Term args)) → astep n a (accepted dst rf' args k).
Proof.
  intros Hi Ht Hl Hk Hkeep Hcase. pose proof (rl_node _ _ _ _ Hrel _ _ Hi) as Hr.
  apply as_accept; rewrite ?(nr_term _ _ _ _ _ Hr), ?(nr_log _ _ _ _ _ Hr); [done..|]. intros i e He.
  destruct Hcase as [Heq|Heq]; rewrite Heq in He |- *.
  - rewrite <- (nr_log _ _ _ _ _ Hr) in He |- *. split; [by apply (ai_log _ _ Hinv)|].
    pose proof (ai_log_terms _ _ Hinv _ _ _ He) as Hle. rewrite (nr_term _ _ _ _ _ Hr) in Hle. lia.
  - apply lookup_take_Some in He as [He Hlt]. split; [|by eapply (ai_lead_terms _ _ Hinv)].
    eapply agree_trans; [|by apply (ai_lead _ _ Hinv)]. eapply agree_le; [apply agree_take|lia].
    rewrite Heq in Hk. by destruct Hk as (_ & _ & ?).
Qed.

Lemma accept_commit rf rf' args k : justified n a (currentTerm rf) (commitIndex rf) (log rf) → 0 ≤ commitIndex rf →
  currentTerm rf ≤ ae_Term args → a_lead a (ae_Term args) ≠ [] → sent_args n a args k →
  agree k (log rf') (a_lead a (ae_Term args)) →
  (∀ m, agree m (log rf) (a_lead a (ae_Term args)) → agree m (log rf') (a_lead a (ae_Term args))) →
  commitIndex rf' = (if commitIndex rf <? ae_LeaderCommit args then Z.min (ae_LeaderCommit args) (zlen (log rf') - 1)
                     else commitIndex rf) →
  justified n a (ae_Term args) (commitIndex rf') (log rf') ∧ commit_kept rf rf'.
Proof.
  intros Hj Hc Ht Hl (_ & _ & Hk & _ & _ & Hlc) Hag Hkeep Heq.
  assert (∀ i, Z.of_nat i ≤ commitIndex rf → 0 < commitIndex rf → log rf' !! i = log rf !! i) as Hsame.
  { intros i Hi Hp. pose proof (justified_lead _ _ _ _ Hj Hp Ht Hl) as H1. pose proof (Hkeep _ H1) as H2.
    rewrite (agree_lookup _ _ _ i H1), (agree_lookup _ _ _ i H2) by lia. done. }
  destruct (Z.ltb_spec (commitIndex rf) (ae_LeaderCommit args)) as [Hlt|Hge].
  - split; [eapply justified_less; [exact Hlc|lia|done]|]. split; [|done].
    destruct Hlc as [|(t & N & _ & _ & _ & _ & Hlen & _)]; [lia|]. rewrite length_take in Hlen.
    destruct Hag as (_ & ? & _). unfold zlen in *. lia.
  - rewrite Heq. split; [by eapply justified_move|]. split; [lia|done].
Qed.

Lemma replaced_appends a' l1 l2 m m' : appends σ = l1 ++ m :: l2 → sent_rel n a' m' →
  Forall (λ x, x ∈ appends σ ∨ sent_rel n a' x) (l1 ++ m' :: l2).
Proof.
  intros Ha Hm. eapply (Forall_replace _ _ m); [|by right]. rewrite <- Ha. apply old_appends.
Qed.
Lemma consumed_appends a' l1 l2 m : appends σ = l1 ++ m :: l2 → Forall (λ x, x ∈ appends σ ∨ sent_rel n a' x) (l1 ++ l2).
Proof. intros Ha. eapply (Forall_consume _ l1 m l2). rewrite <- Ha. apply old_appends. Qed.

(** A call that a peer accepts. *)
Lemma refine_accepted l1 l2 src dst args k rf rf' r :
  appends σ = l1 ++ AReq src dst args :: l2 → nodes σ !! dst = Some rf → sent_args n a args k → led tr src (ae_Term args) →
  currentTerm rf ≤ ae_Term args → prev_matches (log rf) args → fits (log rf) args → currentTerm rf' = ae_Term args →
  log rf' = accept_log (log rf) (ae_PrevLogIndex args) (ae_Entries args) →
  commitIndex rf' = (if commitIndex rf <? ae_LeaderCommit args then Z.min (ae_LeaderCommit args) (zlen (log rf') - 1)
                     else commitIndex rf) →
  advance LTau (MkCluster (<[dst := rf']> (nodes σ)) (elections σ) (votes σ) (l1 ++ ARep src dst args r :: l2)).
Proof.
  intros Happ Hi Hk Hled Ht Hpm Hfit Hct Hlg Hc. pose proof (rl_node _ _ _ _ Hrel _ _ Hi) as Hr.
  pose proof (accept_clean _ _ _ _ Hi Hk Hpm Hfit) as (Hag & Hkeep & Hcase).
  rewrite <- Hlg in Hag, Hkeep, Hcase. pose proof (led_lead _ _ Hled) as Hne.
  pose proof (accept_step _ _ _ _ _ Hi Ht Hne Hag Hkeep Hcase) as Hst. pose proof (astep_forward _ _ _ Hinv Hst) as Hf.
  pose proof (n_commit _ _ _ (b_node _ _ (exec_base _ _ _ Hex) _ _ Hi)) as Hpos.
  destruct (accept_commit _ _ _ _ (nr_commit _ _ _ _ _ Hr) Hpos Ht Hne Hk Hag Hkeep Hc) as [Hj Hck].
  assert (∀ t, led (LTau :: tr) dst t → t < ae_Term args) as Hno.
  { intros t Hl%led_back; [|done]. destruct (nr_led _ _ _ _ _ Hr _ Hl). destruct (decide (t = ae_Term args)) as [->|]; [|lia].
    by destruct (no_self_append _ _ _ _ _ _ _ _ Hex Htm (exec_log _ _ _ Hex Htm) Happ). }
  eapply (advance_node _ _ (accepted dst rf' args k)); [by apply rtc_once, Hst|exact Hi|done|..]; simpl.
  - intros j Hj'. by rewrite !fn_lookup_insert_ne.
  - done.
  - intros j t _. by apply led_back.
  - intros t. split; [by left|]. intros [|Hx%led_back]; [done| |done]. by destruct Hx as (? & ? & ?%elem_of_nil).
  - split; simpl; rewrite ?fn_lookup_insert, ?Hct; try done; try (intros; exfalso; by eapply Z.lt_irrefl, Hno).
    + intros t Hl%Hno. lia.
    + intros _. right. exists src. by apply led_cons.
    + eapply justified_forward; [exact Hf| |exact Hj]; done.
  - done.
  - intros j t c. by intros ?%quiet_tau.
  - intros eid el He. right. eauto.
  - eapply replaced_appends; [exact Happ|]. exists k. split; [by eapply sent_args_forward|]. intros _. simpl. rewrite upd2_eq. lia.
Qed.

Lemma refine_append_request l1 l2 src dst args now rf rf' r :
  let σ' := MkCluster (<[dst := rf']> (nodes σ)) (elections σ) (votes σ) (l1 ++ ARep src dst args r :: l2) in
  clean_step σ σ' → appends σ = l1 ++ AReq src dst args :: l2 → nodes σ !! dst = Some rf →
  raft.AppendEntries now rf args = Done (rf', r) → advance LTau σ'.
Proof.
  intros σ' Hclean Happ Hi H. pose proof (rl_node _ _ _ _ Hrel _ _ Hi) as Hr.
  pose proof (rl_sent _ _ _ _ Hrel) as Hsent. rewrite Happ in Hsent. apply Forall_consume in Hsent as [[k Hk] _].
  pose proof (li_sent _ _ (exec_log _ _ _ Hex Htm)) as Hby. rewrite Happ in Hby.
  apply Forall_consume in Hby as [[Hled _] _]. simpl in Hled.
  destruct (AppendEntries_inv _ _ _ _ _ H) as (Ho & (_ & _ & _ & Hma & _) & [Hle _] & Hs & _).
  destruct Ho as [Hold -> ->|Ht Hmm Hrej Hct Hlg Hc _|Ht Hpm -> Hct Hlg Hc _].
  - eapply (advance_quiet _ _ (MkAstate (<[dst := currentTerm rf]> (a_term a)) _ _ _ _ _));
      [apply rtc_once, as_term; by rewrite (nr_term _ _ _ _ _ Hr)|exact Hi|done..| | |].
    + intros j t c. by intros ?%quiet_tau.
    + eauto.
    + eapply replaced_appends; [exact Happ|]. by exists k.
  - eapply (advance_quiet _ _ (MkAstate (<[dst := currentTerm rf']> (a_term a)) _ _ _ _ _));
      [apply rtc_once, as_term; by rewrite (nr_term _ _ _ _ _ Hr)|exact Hi|done..| | | |].
    + rewrite Hs. destruct (Z.ltb_spec (currentTerm rf) (ae_Term args)); [done|]. split; [done|lia].
    + intros j t c. by intros ?%quiet_tau.
    + eauto.
    + eapply replaced_appends; [exact Happ|]. destruct Hrej as (Hf & _). exists k. split; [done|congruence].
  - assert (delivers σ σ' dst args) as Hdel by (exists l1, l2, src; eauto).
    eapply refine_accepted; [exact Happ|exact Hi|exact Hk|done..| |exact Hct|exact Hlg|exact Hc].
    by apply (clean_call_fits _ _ (Hclean _ _ _ Hdel Hi)).
Qed.

(** What the leader counts as replicated is chosen. *)
Lemma committable_chosen i rf rf1 M : nodes σ !! i = Some rf → led tr i (currentTerm rf) →
  (∀ j m, matchIndex rf1 !! j = Some m → m ≤ 0 ∨ (j ≠ i ∧ (Z.to_nat m < a_ack a (currentTerm rf) j)%nat)) →
  0 < M < zlen (a_lead a (currentTerm rf)) → term_at (a_lead a (currentTerm rf)) M = currentTerm rf →
  Z.of_nat n / 2 < 1 + zlen (holders rf1 M (seq 0 n)) → chosen n a (currentTerm rf) (Z.to_nat M).
Proof.
  intros Hi Hled Hm HM Ht Hq. destruct (term_at_lookup (a_lead a (currentTerm rf)) M) as (e & He & Hte); [lia|].
  assert (key a (currentTerm rf) (Z.to_nat M)) as Hk by (exists e; split; [done|lia]).
  assert (∀ j, j ∈ holders rf1 M (seq 0 n) → (j < n)%nat ∧ j ≠ i ∧ (Z.to_nat M < a_ack a (currentTerm rf) j)%nat) as Hh.
  { intros j [Hle Hj%elem_of_seq]%list_elem_of_filter. destruct (matchIndex rf1 !! j) as [m|] eqn:E; simpl in Hle; [|lia].
    destruct (Hm _ _ E) as [|[Hne Hlt]]; [lia|]. split_and!; [lia|done|lia]. }
  split; [done|]. exists (i :: holders rf1 M (seq 0 n)). split_and!.
  - apply NoDup_cons. split; [|by apply NoDup_filter, NoDup_seq]. intros Hin%Hh. by destruct Hin as (_ & ? & _).
  - constructor; [by eapply base_node_lt, Hi; apply (exec_base _ _ _ Hex)|]. apply Forall_forall. intros j Hj. by apply Hh.
  - unfold zlen in *. simpl. lia.
  - intros j [->|Hj]%elem_of_cons; [by apply (nr_self _ _ _ _ _ (rl_node _ _ _ _ Hrel _ _ Hi))|by apply Hh].
Qed.

(** A leader that counts a new acknowledgement. *)
Lemma refine_success l1 l2 src dst args r rf rf1 rf' :
  appends σ = l1 ++ ARep src dst args r :: l2 → nodes σ !! src = Some rf → ae_Term args = currentTerm rf →
  aer_Success r = true →
  rf1 = with_nextIndex (<[dst := ae_PrevLogIndex args + zlen (ae_Entries args) + 1]> (nextIndex rf))
          (with_matchIndex (<[dst := ae_PrevLogIndex args + zlen (ae_Entries args)]> (matchIndex rf)) rf) →
  commit_advanced rf1 (zlen (log rf) - 1) rf' →
  advance LTau (MkCluster (<[src := rf']> (nodes σ)) (elections σ) (votes σ) (l1 ++ l2)).
Proof.
  intros Happ Hi Ht Hok Hrf1 Hadv. pose proof (rl_node _ _ _ _ Hrel _ _ Hi) as Hr. pose proof (exec_base _ _ _ Hex) as Hb.
  pose proof (b_node _ _ Hb _ _ Hi) as Hn.
  pose proof (rl_sent _ _ _ _ Hrel) as Hsent. rewrite Happ in Hsent. apply Forall_consume in Hsent as [(k & Hk & Hack) _].
  pose proof (li_sent _ _ (exec_log _ _ _ Hex Htm)) as Hby. rewrite Happ in Hby. apply Forall_consume in Hby as [[Hled _] _].
  pose proof (b_append _ _ Hb) as Hba. rewrite Happ in Hba. apply Forall_consume in Hba as [(_ & _ & Hsd & _) _].
  simpl in Hled. specialize (Hack Hok). rewrite Ht in Hled, Hack. pose proof (nr_leader _ _ _ _ _ Hr Hled) as Hlog.
  assert (∀ j m, matchIndex rf1 !! j = Some m → m ≤ 0 ∨ (j ≠ src ∧ (Z.to_nat m < a_ack a (currentTerm rf) j)%nat)) as Hm.
  { subst rf1. intros j m [[-> ->]|[_ Hj]]%lookup_insert_cases; [|by apply (nr_match _ _ _ _ _ Hr)]. right. split; [done|].
    destruct Hk as (Hp & Hpk & Hl & _ & -> & _). unfold zlen. rewrite length_drop, length_take. lia. }
  assert (log rf' = log rf ∧ currentTerm rf' = currentTerm rf ∧ state rf' = state rf ∧ matchIndex rf' = matchIndex rf1 ∧
    commitIndex rf ≤ commitIndex rf' ∧ justified n a (currentTerm rf) (commitIndex rf') (log rf)) as (Hl' & Ht' & Hs' & Hm' & Hc' & Hj).
  { destruct Hadv as [[-> _]|(M & -> & HM & [Hct Hq] & _)]; subst rf1; simpl in *; split_and!; try done; [apply Hr|lia|].
    right. exists (currentTerm rf), (Z.to_nat M). pose proof (n_commit _ _ _ Hn). split_and!; [|done|lia|].
    - rewrite (n_peers _ _ _ Hn) in Hq. rewrite Hlog in Hct, HM. eapply (committable_chosen src rf); [exact Hi|done| |lia|done|exact Hq]. exact Hm.
    - rewrite <- Hlog. apply agree_refl. unfold zlen in *. lia. }
  assert (∀ t, led (LTau :: tr) src t → led tr src t) as Hback by (intros t; by apply led_back).
  eapply (advance_node _ _ a); [done|exact Hi|done|..]; simpl; try done.
  - intros j t _. by apply led_back.
  - intros t. split; [by left|]. intros [|Hx%led_back]; [done| |done]. by destruct Hx as (? & ? & ?%elem_of_nil).
  - split; rewrite ?Ht', ?Hl', ?Hm', ?Hs'; try apply Hr; try done.
    + intros t Hx%Hback. by apply (nr_led _ _ _ _ _ Hr).
    + intros N Hx%Hback. by apply (nr_self _ _ _ _ _ Hr).
    + intros j m _. apply Hm.
    + intros Hx. right. exists src. by apply led_cons.
  - split; [done|]. by rewrite Hl'.
  - intros j t c. by intros ?%quiet_tau.
  - intros eid el He. right. eauto.
  - by eapply consumed_appends.
Qed.

(** A peer that only moves to a later term, or not even that. *)
Lemma refine_quiet σ' i rf rf' l : nodes σ !! i = Some rf → nodes σ' = <[i := rf']> (nodes σ) → elections σ' = elections σ →
  Forall (λ m, m ∈ appends σ ∨ sent_rel n a m) (appends σ') → label_quiet l → no_win l →
  currentTerm rf ≤ currentTerm rf' → log rf' = log rf → commitIndex rf' = commitIndex rf → matchIndex rf' = matchIndex rf →
  (state rf' = Candidate → state rf = Candidate ∧ currentTerm rf' = currentTerm rf) → advance l σ'.
Proof.
  intros Hi Hns Hel Hap Hq Hw Hle Hlog Hc Hm Hs. pose proof (rl_node _ _ _ _ Hrel _ _ Hi) as Hr.
  assert (astep n a (MkAstate (<[i := currentTerm rf']> (a_term a)) (a_log a) (a_lead a) (a_cand a) (a_ack a) (a_vote a))) as Hst.
  { apply as_term. by rewrite (nr_term _ _ _ _ _ Hr). }
  eapply advance_quiet; [by apply rtc_once, Hst|exact Hi|exact Hns|done|done|done|done..| | |].
  - intros j t c Hv. by apply Hq in Hv.
  - rewrite Hel. eauto.
  - eapply Forall_impl; [exact Hap|]. intros m [|Hm']; [by left|right]. eapply sent_rel_forward; [|exact Hm'].
    by apply (astep_forward _ _ _ Hinv Hst).
Qed.

Lemma refine_append_reply l1 l2 src dst args r now rf rf' :
  appends σ = l1 ++ ARep src dst args r :: l2 → nodes σ !! src = Some rf →
  raft.handleAppendEntries now rf (Z.of_nat dst) args r = Done rf' →
  advance LTau (MkCluster (<[src := rf']> (nodes σ)) (elections σ) (votes σ) (l1 ++ l2)).
Proof.
  intros Happ Hi H. pose proof (exec_base _ _ _ Hex) as Hb. pose proof (b_append _ _ Hb) as Hba. rewrite Happ in Hba.
  apply Forall_consume in Hba as [(? & ? & ? & _) _].
  destruct (handleAppendEntries_ok n src now rf dst args r rf') as (_ & Ho & _); auto; [by apply (b_node _ _ Hb)|].
  pose proof (consumed_appends a _ _ _ Happ) as Hap.
  destruct Ho as [->|rf1 Ht Hok -> Hadv|Ht ->|k _ _ _ Hs _ ->].
  - by eapply refine_quiet; [exact Hi|done|done|exact Hap|apply quiet_tau|..].
  - rewrite Nat2Z.id in Hadv. by eapply refine_success.
  - eapply refine_quiet; [exact Hi|done|done|exact Hap|apply quiet_tau|done|simpl; lia|done..].
  - by eapply refine_quiet; [exact Hi|done|done|exact Hap|apply quiet_tau|..].
Qed.

Lemma refine_start i rf c : nodes σ !! i = Some rf → advance LTau (set_node i (raft.Start rf c).1 σ).
Proof.
  intros Hi. pose proof (rl_node _ _ _ _ Hrel _ _ Hi) as Hr. unfold raft.Start. case_bool_decide as Hs; simpl.
  2:{ by eapply refine_quiet; [exact Hi|done|done|apply old_appends|apply quiet_tau|..]. }
  pose proof (leader_led _ _ Hi Hs) as Hled. pose proof (nr_leader _ _ _ _ _ Hr Hled) as Hlog. set (e := MkEntry c (currentTerm rf) 0).
  pose proof (as_append n a i (currentTerm rf) e (nr_term _ _ _ _ _ Hr) (led_lead _ _ Hled)
    (eq_trans (nr_log _ _ _ _ _ Hr) Hlog) eq_refl) as Hst. pose proof (astep_forward _ _ _ Hinv Hst) as Hf.
  eapply advance_node; [by apply rtc_once, Hst|exact Hi|done|..]; simpl.
  - intros j Hne. by rewrite fn_lookup_insert_ne.
  - intros j t Hne Hj. rewrite fn_lookup_insert_ne; [done|]. intros <-. apply Hne. destruct Hj as (? & ? & ?), Hled as (? & ? & ?).
    by eapply (win_unique _ _ _ _ _ _ _ _ _ _ Hex Htm).
  - intros j t _. by apply led_back.
  - intros t. destruct (decide (t = currentTerm rf)) as [->|Hne].
    + rewrite fn_lookup_insert. split; [intros _; left; by eapply led_lead|]. intros _ Hnil. by apply app_nil in Hnil as [_ ?].
    + rewrite fn_lookup_insert_ne by done. split; [by left|]. intros [|Hx%led_back]; [done| |done].
      by destruct Hx as (? & ? & ?%elem_of_nil).
  - split; simpl; rewrite ?fn_lookup_insert, ?upd2_eq; try done.
    + apply Hr.
    + by rewrite (nr_log _ _ _ _ _ Hr).
    + intros t Hl%led_back; [|done]. by apply (nr_led _ _ _ _ _ Hr).
    + intros _. by rewrite Hlog.
    + intros N _ Hk. apply key_lt in Hk. simpl in Hk. rewrite fn_lookup_insert, length_app in Hk. simpl in Hk. lia.
    + intros j m _ Hm. destruct (nr_match _ _ _ _ _ Hr _ _ Hled Hm) as [|[Hne Hlt]]; [by left|right]. split; [done|].
      rewrite upd2_ne; [done|]. by intros [_ ?].
    + congruence.
    + destruct (nr_commit _ _ _ _ _ Hr) as [|(t & N & Hc & Ht & HN & Hag)]; [by left|].
      eapply justified_forward; [exact Hf|done|]. right. exists t, N. split_and!; [done..|].
      apply agree_sym. eapply agree_prefix; [by apply agree_sym|by apply prefix_app_r].
  - split; [done|]. intros k Hk Hp. simpl. rewrite lookup_app_l; [done|].
    destruct (nr_commit _ _ _ _ _ Hr) as [|(_ & _ & _ & _ & _ & _ & Hlen & _)]; [lia|]. lia.
  - intros j t c'. by intros ?%quiet_tau.
  - intros eid el He. right. eauto.
  - apply old_appends.
Qed.

(** ** Every step *)
Lemma refine_step l σ' : step σ l σ' → clean_step σ σ' → timely (l :: tr) → advance l σ'.
Proof.
  intros Hst Hcl Htm'. pose proof (exec_step _ _ _ _ _ Hex Hst) as Hex'. destruct Hst.
  - by eapply refine_kick.
  - by eapply refine_vote_request.
  - by eapply refine_vote_reply.
  - by eapply (refine_collect eid el b ch rf rf' v ret); [exact Hex'|..].
  - by eapply refine_heartbeat.
  - by eapply refine_append_request.
  - by eapply refine_append_reply.
  - eapply refine_quiet; [eassumption|done|done|apply old_appends|apply quiet_apply|done|..];
      apply CommitChecker_inv in H1 as [(_ & -> & _)|(_ & -> & _)]; done.
  - by apply refine_start.
  - by eapply refine_quiet; [eassumption|done|done|apply old_appends|apply quiet_tau|..].
  - apply advance_none; [done..|apply old_appends].
  - apply advance_none; [done..|]. by eapply consumed_appends.
Qed.
End refine.
End raft_refine.
