(* ===== verification/Json.v ===== *)
(** * UTF-8 and encoding/json, as far as the sources use them

    Module [utf8]: the runes of a string of bytes, the way
    [utf8.DecodeRuneInString] finds them; a byte that does not begin a valid encoding
    is a rune of its own, the error rune of width one.

    Module [json]: the compact text that [json.Marshal] and [json.Encoder] write for
    numbers, strings, arrays and objects, and a reader of such text.  Strings are
    bytes: a byte that is not part of valid UTF-8 is written as the escape of U+FFFD,
    so what is read back is the value with its strings coerced to UTF-8
    ([parse_print]), the same bytes only when they are valid.

    Since Go 1.22 the encoder writes backspace and form feed as two-character
    escapes; this is the text of earlier versions, and the reader takes both. *)

From Stdlib Require Import Ascii DecimalString.
From S2P Require Import Prelude GoStrings.
#[local] Arguments String.append : simpl nomatch.

Module utf8.

Definition in_range (lo hi : N) (c : ascii) : bool := (lo <=? N_of_ascii c)%N && (N_of_ascii c <=? hi)%N.

(** The tables [first] and [acceptRanges]: which second byte a first byte admits. *)
Definition two (a b : ascii) : bool := in_range 0xC2 0xDF a && in_range 0x80 0xBF b.
Definition three (a b c : ascii) : bool :=
  (in_range 0xE0 0xE0 a && in_range 0xA0 0xBF b ||
   in_range 0xE1 0xEC a && in_range 0x80 0xBF b ||
   in_range 0xED 0xED a && in_range 0x80 0x9F b ||
   in_range 0xEE 0xEF a && in_range 0x80 0xBF b) && in_range 0x80 0xBF c.
Definition four (a b c d : ascii) : bool :=
  (in_range 0xF0 0xF0 a && in_range 0x90 0xBF b ||
   in_range 0xF1 0xF3 a && in_range 0x80 0xBF b ||
   in_range 0xF4 0xF4 a && in_range 0x80 0x8F b) && in_range 0x80 0xBF c && in_range 0x80 0xBF d.

Inductive rune :=
  | R1 (a : ascii)
  | R2 (a b : ascii)
  | R3 (a b c : ascii)
  | R4 (a b c d : ascii)
  | Bad (a : ascii).

(** [for i, r := range s]: the runes of a string. *)
Fixpoint runes (s : string) : list rune :=
  match s with
  | "" => []
  | String a s1 =>
      if in_range 0 0x7F a then R1 a :: runes s1
      else match s1 with
      | "" => [Bad a]
      | String b s2 =>
          if two a b then R2 a b :: runes s2
          else match s2 with
          | "" => Bad a :: runes s1
          | String c s3 =>
              if three a b c then R3 a b c :: runes s3
              else match s3 with
              | "" => Bad a :: runes s1
              | String d s4 => if four a b c d then R4 a b c d :: runes s4 else Bad a :: runes s1
              end
          end
      end
  end.

(** The encoding of U+FFFD. *)
Definition RuneError : string := String "239" (String "191" (String "189" "")).

Definition bytes (r : rune) : string :=
  match r with
  | R1 a => String a ""
  | R2 a b => String a (String b "")
  | R3 a b c => String a (String b (String c ""))
  | R4 a b c d => String a (String b (String c (String d "")))
  | Bad a => RuneError
  end.

Fixpoint concat (l : list rune) : string := match l with [] => "" | r :: l => bytes r +:+ concat l end.

Definition coerce (s : string) : string := concat (runes s).

(** [utf8.ValidString] *)
Definition ValidString (s : string) : bool := forallb (λ r, match r with Bad _ => false | _ => true end) (runes s).

(** What the decoder promises of its runes. *)
Definition rune_ok (r : rune) : bool :=
  match r with
  | R1 a => in_range 0 0x7F a
  | R2 a b => two a b
  | R3 a b c => three a b c
  | R4 a b c d => four a b c d
  | Bad a => negb (in_range 0 0x7F a)
  end.

(** Induction along the decoder. *)
Lemma runes_ind (P : string → list rune → Prop) : P "" [] →
  (∀ a s, rune_ok (R1 a) = true → P s (runes s) → P (String a s) (R1 a :: runes s)) →
  (∀ a b s, rune_ok (R2 a b) = true → P s (runes s) → P (String a (String b s)) (R2 a b :: runes s)) →
  (∀ a b c s, rune_ok (R3 a b c) = true → P s (runes s) →
    P (String a (String b (String c s))) (R3 a b c :: runes s)) →
  (∀ a b c d s, rune_ok (R4 a b c d) = true → P s (runes s) →
    P (String a (String b (String c (String d s)))) (R4 a b c d :: runes s)) →
  (∀ a s, rune_ok (Bad a) = true → P s (runes s) → P (String a s) (Bad a :: runes s)) →
  ∀ s, P s (runes s).
Proof.
  intros H0 H1 H2 H3 H4 H5 s. remember (String.length s) as n eqn:Hn.
  assert (String.length s ≤ n) as Hle by lia. clear Hn. revert s Hle.
  induction n as [|n IH]; intros [|a s1] Hle; simpl in Hle; try done; [lia|]. simpl.
  destruct (in_range 0 0x7F a) eqn:Ea; [apply H1; [done|apply IH; lia]|].
  assert (P (String a s1) (Bad a :: runes s1)) as Hbad by (apply H5; [simpl; by rewrite Ea|apply IH; lia]).
  destruct s1 as [|b s2]; [done|]. simpl in Hle.
  destruct (two a b) eqn:Eb; [apply H2; [done|apply IH; lia]|].
  destruct s2 as [|c s3]; [done|]. simpl in Hle.
  destruct (three a b c) eqn:Ec; [apply H3; [done|apply IH; lia]|].
  destruct s3 as [|d s4]; [done|]. simpl in Hle.
  destruct (four a b c d) eqn:Ed; [apply H4; [done|apply IH; lia]|done].
Qed.

Lemma runes_ok s : Forall (λ r, rune_ok r = true) (runes s).
Proof. apply (runes_ind (λ _ l, Forall (λ r, rune_ok r = true) l)); by repeat constructor. Qed.

(** Valid text is left alone. *)
Lemma coerce_valid s : ValidString s = true → coerce s = s.
Proof.
  unfold coerce, ValidString.
  apply (runes_ind (λ s l, forallb (λ r, match r with Bad _ => false | _ => true end) l = true → concat l = s));
    simpl; intros; try done; f_equal; auto; repeat f_equal; auto.
Qed.

(** Text without bytes of 0x80 and above is valid. *)
Fixpoint is_ascii (s : string) : Prop :=
  match s with "" => True | String a s' => in_range 0 0x7F a = true ∧ is_ascii s' end.

Lemma ascii_valid s : is_ascii s → ValidString s = true.
Proof.
  unfold ValidString. induction s as [|a s IH]; simpl; [done|]. intros [Ha Hs].
  rewrite Ha. simpl. auto.
Qed.

Lemma coerce_ascii s : is_ascii s → coerce s = s.
Proof. intros. by apply coerce_valid, ascii_valid. Qed.

(** The bytes of longer encodings. *)
Definition high (a : ascii) : bool := (128 <=? N_of_ascii a)%N.

Lemma in_range_high lo hi a : (128 <= lo)%N → in_range lo hi a = true → high a = true.
Proof. unfold in_range, high. intros ? [H1 _]%andb_true_iff. apply N.leb_le in H1. apply N.leb_le. lia. Qed.

Lemma two_high a b : two a b = true → high a = true ∧ high b = true.
Proof. unfold two. intros [? ?]%andb_true_iff. split; (eapply in_range_high; [|eassumption]); done. Qed.

Lemma three_high a b c : three a b c = true → high a = true ∧ high b = true ∧ high c = true.
Proof.
  unfold three. rewrite !andb_true_iff, !orb_true_iff, !andb_true_iff. intros [H Hc].
  split_and!; [| |by eapply in_range_high; [|exact Hc]]; (destruct H as [[[[? ?]|[? ?]]|[? ?]]|[? ?]];
    (eapply in_range_high; [|eassumption]); done).
Qed.

Lemma four_high a b c d : four a b c d = true → high a = true ∧ high b = true ∧ high c = true ∧ high d = true.
Proof.
  unfold four. rewrite !andb_true_iff, !orb_true_iff, !andb_true_iff. intros [[H Hc] Hd].
  split_and!; [| |by eapply in_range_high; [|exact Hc]|by eapply in_range_high; [|exact Hd]];
    (destruct H as [[[? ?]|[? ?]]|[? ?]]; (eapply in_range_high; [|eassumption]); done).
Qed.

(** [utf8.EncodeRune] for the code points that four hexadecimal digits name; a
    surrogate half has no encoding. *)
Definition EncodeRune (n : N) : option string :=
  let cont k := ascii_of_N (0x80 + N.land (N.shiftr n k) 0x3F) in
  if (n <? 0x80)%N then Some (String (ascii_of_N n) "")
  else if (n <? 0x800)%N then Some (String (ascii_of_N (0xC0 + N.shiftr n 6)) (String (cont 0%N) ""))
  else if (0xD800 <=? n)%N && (n <? 0xE000)%N then None
  else Some (String (ascii_of_N (0xE0 + N.shiftr n 12)) (String (cont 6%N) (String (cont 0%N) ""))).

Example runes_examples :
  EncodeRune 0xFFFD = Some RuneError ∧ ValidString RuneError = true ∧
  coerce (String "097" (String "255" (String "195" (String "169" (String "237" (String "160" (String "128" ""))))))) =
    String "097" (RuneError +:+ String "195" (String "169" (RuneError +:+ RuneError +:+ RuneError))).
Proof. vm_compute. split_and!; reflexivity. Qed.
End utf8.

Import gostrings utf8.

Module json.

Inductive json :=
  | JNum (z : Z)
  | JStr (s : string)
  | JArr (l : list json)
  | JObj (l : list (string * json)).

Definition quote : ascii := "034".
Definition backslash : ascii := "092".

Definition hex_digit (n : N) : ascii :=
  ascii_of_N (if (n <? 10)%N then 48 + n else 87 + n).

(** [\u00xy] *)
Definition unicode_escape (c : ascii) : string :=
  let n := N_of_ascii c in
  String backslash (String "u" (String "0" (String "0"
    (String (hex_digit (N.shiftr n 4)) (String (hex_digit (N.land n 15)) ""))))).

(** The encoder escapes what is special in JSON or in HTML. *)
Definition escape_char (c : ascii) : string :=
  let n := N_of_ascii c in
  if Ascii.eqb c quote || Ascii.eqb c backslash then String backslash (String c "")
  else if (n =? 10)%N then String backslash "n"
  else if (n =? 13)%N then String backslash "r"
  else if (n =? 9)%N then String backslash "t"
  else if (n <? 32)%N || Ascii.eqb c "<" || Ascii.eqb c ">" || Ascii.eqb c "&" then unicode_escape c
  else String c "".

(** The encodings of U+2028 and U+2029. *)
Definition line_separator (a b c : ascii) : bool :=
  Ascii.eqb a "226" && Ascii.eqb b "128" && (Ascii.eqb c "168" || Ascii.eqb c "169").

(** Invalid bytes and the line separators are escaped, other runes are not. *)
Definition escape_rune (r : rune) : string :=
  match r with
  | R1 a => escape_char a
  | R3 a b c =>
      if line_separator a b c
      then String backslash ("u202" +:+ String (hex_digit (N.land (N_of_ascii c) 15)) "") else bytes r
  | Bad _ => String backslash "ufffd"
  | _ => bytes r
  end.

Fixpoint escape_runes (l : list rune) : string :=
  match l with [] => "" | r :: l' => escape_rune r +:+ escape_runes l' end.

Definition escape (s : string) : string := escape_runes (runes s).

Definition print_string (s : string) : string := String quote (escape s) +:+ String quote "".

Fixpoint print (j : json) : string :=
  match j with
  | JNum z => Itoa z
  | JStr s => print_string s
  | JArr l => "[" +:+ Join (print <$> l) "," +:+ "]"
  | JObj l => "{" +:+ Join ((λ '(k, v), print_string k +:+ ":" +:+ print v) <$> l) "," +:+ "}"
  end.

(** ** Reading *)

Definition hex_value (c : ascii) : option N :=
  let n := N_of_ascii c in
  if (48 <=? n)%N && (n <=? 57)%N then Some (n - 48)%N
  else if (97 <=? n)%N && (n <=? 102)%N then Some (n - 87)%N
  else if (65 <=? n)%N && (n <=? 70)%N then Some (n - 55)%N
  else None.

Definition unescape (c : ascii) : option ascii :=
  if Ascii.eqb c quote || Ascii.eqb c backslash || Ascii.eqb c "/" then Some c
  else if Ascii.eqb c "b" then Some "008"%char
  else if Ascii.eqb c "f" then Some "012"%char
  else if Ascii.eqb c "n" then Some "010"%char
  else if Ascii.eqb c "r" then Some "013"%char
  else if Ascii.eqb c "t" then Some "009"%char
  else None.

(** Four hexadecimal digits name a code point; the encoder writes no surrogates. *)
Definition hex_rune (w x y z : ascii) : option string :=
  a ← hex_value w; b ← hex_value x; c ← hex_value y; d ← hex_value z;
  EncodeRune (16 * (16 * (16 * a + b) + c) + d).

(** The rest of a string literal, after the opening quote. *)
Fixpoint read_chars (s : string) : option (string * string) :=
  match s with
  | "" => None
  | String c s' =>
      if Ascii.eqb c quote then Some ("", s')
      else if Ascii.eqb c backslash then
        match s' with
        | "" => None
        | String e r =>
            if Ascii.eqb e "u" then
              match r with
              | String w (String x (String y (String z r))) =>
                  u ← hex_rune w x y z; '(t, r) ← read_chars r; Some (u +:+ t, r)
              | _ => None
              end
            else d ← unescape e; '(t, r) ← read_chars r; Some (String d t, r)
        end
      else if (N_of_ascii c <? 32)%N then None
      else '(t, r) ← read_chars s'; Some (String c t, r)
  end.

Fixpoint span_digits (s : string) : string * string :=
  match s with
  | String c s' => if is_digit c then let '(d, r) := span_digits s' in (String c d, r) else ("", s)
  | "" => ("", "")
  end.

Definition read_num (s : string) : option (Z * string) :=
  let '(d, r) := match s with
                 | String "-"%char s' => let '(d, r) := span_digits s' in (String "-"%char d, r)
                 | _ => span_digits s
                 end in
  z ← NilZero.int_of_string d; Some (Z.of_int z, r).

Fixpoint read (fuel : nat) (s : string) : option (json * string) :=
  match fuel, s with
  | S fuel, String c r =>
      if Ascii.eqb c quote then '(x, r) ← read_chars r; Some (JStr x, r)
      else if Ascii.eqb c "[" then
        match r with
        | String "]"%char r => Some (JArr [], r)
        | _ => '(l, r) ← read_items fuel r; Some (JArr l, r)
        end
      else if Ascii.eqb c "{" then
        match r with
        | String "}"%char r => Some (JObj [], r)
        | _ => '(l, r) ← read_fields fuel r; Some (JObj l, r)
        end
      else '(z, r) ← read_num s; Some (JNum z, r)
  | _, _ => None
  end
with read_items (fuel : nat) (s : string) : option (list json * string) :=
  match fuel with
  | O => None
  | S fuel =>
      '(x, r) ← read fuel s;
      match r with
      | String ","%char r => '(l, r) ← read_items fuel r; Some (x :: l, r)
      | String "]"%char r => Some ([x], r)
      | _ => None
      end
  end
with read_fields (fuel : nat) (s : string) : option (list (string * json) * string) :=
  match fuel, s with
  | S fuel, String c r =>
      if Ascii.eqb c quote then
        '(k, r) ← read_chars r;
        match r with
        | String ":"%char r =>
            '(v, r) ← read fuel r;
            match r with
            | String ","%char r => '(l, r) ← read_fields fuel r; Some ((k, v) :: l, r)
            | String "}"%char r => Some ([(k, v)], r)
            | _ => None
            end
        | _ => None
        end
      else None
  | _, _ => None
  end.

(** ** The reader undoes the printer, up to UTF-8 *)

Definition coerce_field (f : json → json) : string * json → string * json := λ '(k, v), (coerce k, f v).

Fixpoint coerce_json (j : json) : json :=
  match j with
  | JNum z => JNum z
  | JStr s => JStr (coerce s)
  | JArr l => JArr (coerce_json <$> l)
  | JObj l => JObj (coerce_field coerce_json <$> l)
  end.

Lemma app_str_assoc (a b c : string) : (a +:+ b) +:+ c = a +:+ (b +:+ c).
Proof. induction a as [|x a IH]; [done|]. simpl. by rewrite IH. Qed.

Definition then_read (c : string) (t : string) : option (string * string) :=
  '(u, r) ← read_chars t; Some (c +:+ u, r).

Lemma read_escape_char c t : read_chars (escape_char c +:+ t) = then_read (String c "") t.
Proof. destruct c as [[] [] [] [] [] [] [] []]; reflexivity. Qed.

Lemma read_high a t : high a = true → read_chars (String a t) = then_read (String a "") t.
Proof. destruct a as [b0 b1 b2 b3 b4 b5 b6 []]; destruct b0, b1, b2, b3, b4, b5, b6; intros; done. Qed.

Lemma then_read_app s s' t : (∀ t, read_chars (s +:+ t) = then_read s t) →
  read_chars (s' +:+ t) = then_read s' t → read_chars ((s +:+ s') +:+ t) = then_read (s +:+ s') t.
Proof.
  intros Hs Hs'. rewrite app_str_assoc, Hs. unfold then_read at 1. rewrite Hs'. unfold then_read.
  destruct (read_chars t) as [[u r]|]; [|done]. cbn [mbind option_bind]. by rewrite app_str_assoc.
Qed.

Lemma read_high_app a s t : high a = true → read_chars (s +:+ t) = then_read s t →
  read_chars (String a s +:+ t) = then_read (String a s) t.
Proof. intros Ha Hs. apply (then_read_app (String a "") s); [|done]. intros. by apply read_high. Qed.

Lemma then_read_nil t : read_chars ("" +:+ t) = then_read "" t.
Proof. unfold then_read. simpl. by destruct (read_chars t) as [[]|]. Qed.

Lemma read_escape_rune r t : rune_ok r = true → read_chars (escape_rune r +:+ t) = then_read (bytes r) t.
Proof.
  pose proof (then_read_nil t). destruct r as [a|a b|a b c|a b c d|a]; simpl rune_ok; intros Hr.
  - apply read_escape_char.
  - apply two_high in Hr as (? & ?). by repeat apply read_high_app.
  - cbn [escape_rune]. destruct (line_separator a b c) eqn:Hl.
    + unfold line_separator in Hl. rewrite !andb_true_iff, orb_true_iff, !Ascii.eqb_eq in Hl.
      by destruct Hl as [[-> ->] [-> | ->]].
    + apply three_high in Hr as (? & ? & ?). by repeat apply read_high_app.
  - apply four_high in Hr as (? & ? & ? & ?). by repeat apply read_high_app.
  - done.
Qed.

Lemma read_escape s t : read_chars (escape s +:+ String quote t) = Some (coerce s, t).
Proof.
  unfold escape, coerce. pose proof (runes_ok s) as Hok. induction Hok as [|r l Hr _ IH]; [done|].
  cbn [escape_runes concat]. rewrite app_str_assoc, read_escape_rune by done. unfold then_read. by rewrite IH.
Qed.

Definition no_digit (s : string) : Prop := match s with String c _ => is_digit c = false | "" => True end.

Lemma span_uint d r : no_digit r →
  span_digits (NilEmpty.string_of_uint d +:+ r) = (NilEmpty.string_of_uint d, r).
Proof.
  intros Hr. induction d; simpl; try by rewrite IHd.
  destruct r as [|c r]; [done|]. simpl in *. by rewrite Hr.
Qed.

Lemma uint_nonempty d : ∃ u, NilZero.string_of_uint d = NilEmpty.string_of_uint u ∧ u ≠ Decimal.Nil.
Proof. destruct d; [by exists (Decimal.D0 Decimal.Nil)|by eexists..]. Qed.

Lemma no_sign u r : u ≠ Decimal.Nil →
  match NilEmpty.string_of_uint u +:+ r with
  | String "-"%char s' => let '(d, r) := span_digits s' in (String "-"%char d, r)
  | _ => span_digits (NilEmpty.string_of_uint u +:+ r)
  end = span_digits (NilEmpty.string_of_uint u +:+ r).
Proof. by destruct u. Qed.

Lemma read_Itoa z r : no_digit r → read_num (Itoa z +:+ r) = Some (z, r).
Proof.
  intros Hr. pose proof (int_of_string_of_int z) as Hz. pose proof (DecimalZ.of_to z) as Ho.
  unfold read_num, Itoa in *. destruct (Z.to_int z) as [d|d]; cbn [NilZero.string_of_int] in *;
    destruct (uint_nonempty d) as (u & Hu & Hne); rewrite Hu in *.
  - rewrite no_sign, span_uint by done. rewrite Hz. cbn [mbind option_bind]. by rewrite Ho.
  - cbn [String.append]. simpl. rewrite span_uint by done. rewrite Hz. cbn [mbind option_bind]. by rewrite Ho.
Qed.

Lemma Itoa_head z : ∃ c s, Itoa z = String c s ∧ (is_digit c = true ∨ c = "-"%char).
Proof.
  unfold Itoa. destruct (Z.to_int z) as [d|d]; cbn [NilZero.string_of_int]; [|eexists _, _; split; [done|by right]].
  destruct (uint_nonempty d) as (u & -> & Hne). destruct u; [done|eexists _, _; split; [done|by left]..].
Qed.

Lemma print_head j : ∃ c s, print j = String c s ∧ c ≠ "]"%char.
Proof.
  destruct j as [z|s|l|l]; [|by do 2 eexists..]. destruct (Itoa_head z) as (c & s & Hs & Hc).
  exists c, s. split; [done|]. intros ->. by destruct Hc.
Qed.

Lemma read_array fuel c s : c ≠ "]"%char →
  read (S fuel) ("[" +:+ String c s) = ('(l, r) ← read_items fuel (String c s); Some (JArr l, r)).
Proof. intros Hc. destruct c as [[] [] [] [] [] [] [] []]; done. Qed.

Fixpoint size (j : json) : nat :=
  match j with
  | JNum _ | JStr _ => 1
  | JArr l => S (sum_list_with (λ x, S (size x)) l)
  | JObj l => S (sum_list_with (λ '(_, x), S (size x)) l)
  end.

Definition print_field : string * json → string := λ '(k, v), print_string k +:+ ":" +:+ print v.

Lemma read_print fuel :
  (∀ j r, size j ≤ fuel → no_digit r → read fuel (print j +:+ r) = Some (coerce_json j, r)) ∧
  (∀ l r, l ≠ [] → sum_list_with (λ x, S (size x)) l ≤ fuel →
    read_items fuel (Join (print <$> l) "," +:+ "]" +:+ r) = Some (coerce_json <$> l, r)) ∧
  (∀ l r, l ≠ [] → sum_list_with (λ '(_, x), S (size x)) l ≤ fuel →
    read_fields fuel (Join (print_field <$> l) "," +:+ "}" +:+ r) = Some (coerce_field coerce_json <$> l, r)).
Proof.
  induction fuel as [|fuel (IHj & IHa & IHo)].
  { split_and!; [intros []; simpl; lia|intros [|x l]; simpl; [done|lia]|intros [|[k x] l]; simpl; [done|lia]]. }
  split_and!.
  - intros [z|s|l|l] r Hs Hr.
    + cbn [print]. destruct (Itoa_head z) as (c & s & Hz & Hc). pose proof (read_Itoa z r Hr) as Hn.
      rewrite Hz in *. cbn [String.append] in *.
      assert (Ascii.eqb c quote = false ∧ Ascii.eqb c "[" = false ∧ Ascii.eqb c "{" = false) as (E1 & E2 & E3).
      { destruct Hc as [Hd| ->]; [|done]. clear Hn Hz. by destruct c as [[] [] [] [] [] [] [] []]. }
      simpl. rewrite E1, E2, E3. simpl in Hn. by rewrite Hn.
    + cbn [print]. unfold print_string. rewrite !app_str_assoc. cbn. fold (escape s).
      by rewrite read_escape.
    + cbn [print]. rewrite !app_str_assoc. destruct l as [|x l]; [done|].
      assert (∃ c s, Join (print <$> x :: l) "," +:+ "]" +:+ r = String c s ∧ c ≠ "]"%char) as (c & s & Hcs & Hc).
      { destruct (print_head x) as (c & s & Hp & Hc). destruct l as [|y l]; simpl; rewrite Hp; by do 2 eexists. }
      simpl size in Hs. pose proof (IHa (x :: l) r ltac:(done) ltac:(simpl; lia)) as Hrd.
      rewrite Hcs in *. rewrite (read_array fuel c s) by done. by rewrite Hrd.
    + cbn [print]. rewrite !app_str_assoc. destruct l as [|[k x] l]; [done|].
      simpl size in Hs. pose proof (IHo ((k, x) :: l) r ltac:(done) ltac:(simpl; lia)) as Hrd.
      assert (∃ s, Join (print_field <$> (k, x) :: l) "," +:+ "}" +:+ r = String quote s) as [s Hq].
      { destruct l as [|y l]; by eexists. }
      change ((λ '(k, v), print_string k +:+ ":" +:+ print v) <$> (k, x) :: l) with (print_field <$> (k, x) :: l).
      rewrite Hq in *. cbn [String.append read]. simpl. by rewrite Hrd.
  - intros [|x l] r Hne Hs; [done|]. simpl in Hs. cbn [fmap list_fmap Join].
    destruct l as [|y l].
    + cbn [read_items]. simpl. rewrite IHj; [done|lia|done].
    + cbn [read_items fmap list_fmap]. rewrite !app_str_assoc. rewrite IHj; [|lia|done].
      transitivity ('(l, r) ← read_items fuel (Join (print <$> y :: l) "," +:+ "]" +:+ r); Some (coerce_json x :: l, r)); [done|].
      rewrite (IHa (y :: l)); [done|done|simpl in *; lia].
  - intros [|[k x] l] r Hne Hs; [done|]. simpl in Hs. cbn [fmap list_fmap].
    assert (∀ t, no_digit t → print_field (k, x) +:+ t = String quote (escape k +:+ String quote (String ":" (print x +:+ t)))) as Hpf.
    { intros t _. unfold print_field, print_string. by rewrite !app_str_assoc. }
    destruct l as [|y l].
    + cbn [Join]. rewrite Hpf by done. cbn [read_fields]. simpl. rewrite read_escape. simpl.
      rewrite IHj; [done|lia|done].
    + cbn [Join fmap list_fmap]. rewrite !app_str_assoc, Hpf by done. cbn [read_fields]. simpl.
      rewrite read_escape. simpl. rewrite IHj; [|lia|done].
      transitivity ('(l, r) ← read_fields fuel (Join (print_field <$> y :: l) "," +:+ "}" +:+ r); Some ((coerce k, coerce_json x) :: l, r));
        [done|].
      rewrite (IHo (y :: l)); [done|done|simpl in *; destruct y; lia].
Qed.

(** A text as a whole; every value takes at least one character. *)
Definition parse (s : string) : option json :=
  '(j, r) ← read (String.length s) s; if String.eqb r "" then Some j else None.

Lemma length_app_str (a b : string) : String.length (a +:+ b) = String.length a + String.length b.
Proof. induction a as [|x a IH]; simpl; [done|by rewrite IH]. Qed.

Lemma length_Join (l : list string) : sum_list_with (λ s, S (String.length s)) l ≤ S (String.length (Join l ",")).
Proof.
  induction l as [|s l IH]; [simpl; lia|]. destruct l as [|t l]; [simpl; lia|].
  change (Join (s :: t :: l) ",") with (s +:+ "," +:+ Join (t :: l) ","). rewrite !length_app_str.
  cbn [sum_list_with] in *. simpl (String.length ","). lia.
Qed.

Lemma sum_list_le {A} (f g : A → nat) l : (∀ x, x ∈ l → f x ≤ g x) → sum_list_with f l ≤ sum_list_with g l.
Proof.
  induction l as [|x l IH]; intros Hl; simpl; [done|]. pose proof (Hl x ltac:(left)).
  assert (sum_list_with f l ≤ sum_list_with g l); [|lia]. apply IH. intros y Hy. apply Hl. by right.
Qed.

Lemma sum_list_fmap {A B} (h : A → B) (g : B → nat) l : sum_list_with g (h <$> l) = sum_list_with (λ x, g (h x)) l.
Proof. induction l as [|x l IH]; [done|]. rewrite fmap_cons. cbn [sum_list_with]. by rewrite IH. Qed.

Lemma sum_list_elem {A} (f : A → nat) l x : x ∈ l → f x ≤ sum_list_with f l.
Proof. induction 1; simpl; lia. Qed.

(** Induction on values. *)
Lemma json_induction (P : json → Prop) : (∀ z, P (JNum z)) → (∀ s, P (JStr s)) →
  (∀ l, (∀ x, x ∈ l → P x) → P (JArr l)) → (∀ l, (∀ k x, (k, x) ∈ l → P x) → P (JObj l)) → ∀ j, P j.
Proof.
  intros Hn Hs Ha Ho j. remember (size j) as n eqn:Hj. assert (size j ≤ n) as Hle by lia. clear Hj.
  revert j Hle. induction n as [|n IH]; intros [z|s|l|l] Hle; simpl in Hle; try lia; auto.
  - apply Ha. intros x Hx. apply IH. pose proof (sum_list_elem (λ x, S (size x)) l x Hx). simpl in *. lia.
  - apply Ho. intros k x Hx. apply IH.
    pose proof (sum_list_elem (λ '(_, x), S (size x)) l (k, x) Hx). simpl in *. lia.
Qed.

Lemma size_le j : size j ≤ String.length (print j).
Proof.
  induction j as [z|s|l IH|l IH] using json_induction.
  - destruct (Itoa_head z) as (c & s & Hz & _). cbn [print]. rewrite Hz. simpl. lia.
  - simpl. lia.
  - cbn [print size]. rewrite !length_app_str. simpl. pose proof (length_Join (print <$> l)) as Hj.
    rewrite sum_list_fmap in Hj.
    assert (sum_list_with (λ x, S (size x)) l ≤ sum_list_with (λ x, S (String.length (print x))) l); [|lia].
    apply sum_list_le. intros x Hx. specialize (IH x Hx). lia.
  - change (print (JObj l)) with ("{" +:+ Join (print_field <$> l) "," +:+ "}"). rewrite !length_app_str.
    pose proof (length_Join (print_field <$> l)) as Hj. rewrite sum_list_fmap in Hj. cbn [size String.length].
    assert (sum_list_with (λ '(_, x), S (size x)) l ≤ sum_list_with (λ x, S (String.length (print_field x))) l); [|lia].
    apply sum_list_le. intros [k x] Hx. specialize (IH k x Hx). unfold print_field. rewrite !length_app_str. lia.
Qed.

Lemma app_str_nil (s : string) : s +:+ "" = s.
Proof. induction s as [|c s IH]; simpl; [done|by rewrite IH]. Qed.

Lemma parse_print j : parse (print j) = Some (coerce_json j).
Proof.
  unfold parse. destruct (read_print (String.length (print j))) as (Hr & _).
  specialize (Hr j "" (size_le j) I). rewrite app_str_nil in Hr. by rewrite Hr.
Qed.

(** ** Characters that do not occur *)

(** Control characters, and what could end the script of the page. *)
Definition unsafe (c : ascii) : bool :=
  (N_of_ascii c <? 32)%N || Ascii.eqb c "<" || Ascii.eqb c ">" || Ascii.eqb c "&".

Lemma no_char_cons c d s : c ≠ d → no_char c s → no_char c (String d s).
Proof. by split. Qed.

Lemma unsafe_high c a : unsafe c = true → high a = true → a ≠ c.
Proof. intros Hc Ha ->. revert Hc Ha. by destruct c as [[] [] [] [] [] [] [] []]. Qed.

Lemma escape_rune_safe c r : unsafe c = true → rune_ok r = true → no_char c (escape_rune r).
Proof.
  intros Hc. pose proof (unsafe_high c) as Hh. destruct r as [a|a b|a b d|a b d e|a]; simpl rune_ok; intros Hr.
  - destruct a as [[] [] [] [] [] [] [] []]; simpl; repeat split; intros Heq; subst c; discriminate Hc.
  - apply two_high in Hr as (? & ?). simpl. auto.
  - cbn [escape_rune]. destruct (line_separator a b d) eqn:Hl.
    + unfold line_separator in Hl. rewrite !andb_true_iff, orb_true_iff, !Ascii.eqb_eq in Hl.
      destruct Hl as [[-> ->] [-> | ->]]; simpl; repeat split; intros Heq; subst c; discriminate Hc.
    + apply three_high in Hr as (? & ? & ?). simpl. auto.
  - apply four_high in Hr as (? & ? & ? & ?). simpl. auto 6.
  - simpl. repeat split; intros Heq; subst c; discriminate Hc.
Qed.

Lemma escape_safe c s : unsafe c = true → no_char c (escape s).
Proof.
  intros Hc. unfold escape. induction (runes_ok s) as [|r l Hr _ IH]; [done|]. cbn [escape_runes].
  apply no_char_app. split; [by apply escape_rune_safe|done].
Qed.

Lemma Itoa_safe c z : unsafe c = true → no_char c (Itoa z).
Proof.
  intros Hc. assert (is_digit c = false ∧ c ≠ "-"%char) as [Hd Hm].
  { split; [|by intros ->]. by destruct c as [[] [] [] [] [] [] [] []]. }
  unfold Itoa. destruct (Z.to_int z) as [d|d]; cbn [NilZero.string_of_int];
    destruct (uint_nonempty d) as (u & -> & _); [|apply no_char_cons; [done|]]; by apply uint_no_char.
Qed.

Lemma Join_safe c l : no_char c "," → (∀ s, s ∈ l → no_char c s) → no_char c (Join l ",").
Proof.
  intros Hc. induction l as [|s [|t l] IH]; intros Hl; [done|apply Hl; left|].
  cbn [Join]. apply no_char_app. split; [apply Hl; left|]. apply no_char_app. split; [done|].
  apply IH. intros u Hu. apply Hl. by right.
Qed.

Lemma print_safe c j : unsafe c = true → no_char c (print j).
Proof.
  intros Hc. assert (∀ d, unsafe d = false → c ≠ d) as Hne by (intros d Hd ->; congruence).
  assert (∀ s, no_char c (print_string s)) as Hstr.
  { intros s. apply no_char_app. split; [apply no_char_cons; [by apply Hne|by apply escape_safe]|].
    apply no_char_cons; [by apply Hne|done]. }
  induction j as [z|s|l IH|l IH] using json_induction; cbn [print]; [by apply Itoa_safe|done|..].
  - apply no_char_cons; [by apply Hne|]. apply no_char_app. split; [|by apply no_char_cons; [apply Hne|]].
    apply Join_safe; [by apply no_char_cons; [apply Hne|]|]. intros s (x & -> & Hx)%list_elem_of_fmap. by apply IH.
  - apply no_char_cons; [by apply Hne|]. apply no_char_app. split; [|by apply no_char_cons; [apply Hne|]].
    apply Join_safe; [by apply no_char_cons; [apply Hne|]|]. intros s ([k x] & -> & Hx)%list_elem_of_fmap.
    apply no_char_app. split; [done|]. apply no_char_cons; [by apply Hne|]. by eapply IH.
Qed.

End json.

