(* ===== verification/Porcupine.v ===== *)
(** * porcupine/model.go, checker.go, porcupine.go: the linearizability checker

    The file models the histories and models of model.go, the conversion of a
    history into a doubly linked list of call and return nodes, the
    backtracking search of [checkSingle] over that list, and the parallel
    driver with its timeout.  Nodes live in an explicit heap, because [lift]
    and [unlift] work by pointer surgery on shared nodes; [interface{}] values
    are a type [V] with a [nil], model states a type [S]. *)

From S2P Require Import Prelude Bitset.

(** The [nil] of an [interface{}] type. *)
Class GoNil (V : Type) := nil_value : V.

(** ** model.go *)

Record Operation {V : Type} := MkOperation {
  op_ClientId : Z;
  Input : V;
  Call : Z;
  Output : V;
  Return : Z;
}.
Arguments Operation : clear implicits.

(** [CallEvent = false], [ReturnEvent = true]. *)
Definition EventKind : Type := bool.
Definition CallEvent : EventKind := false.
Definition ReturnEvent : EventKind := true.

Record Event {V : Type} := MkEvent {
  ev_ClientId : Z;
  ev_Kind : EventKind;
  ev_Value : V;
  ev_Id : Z;
}.
Arguments Event : clear implicits.

(** A function field of the struct that may be left [nil] is an [option].
    [Step] and the functions on histories may panic (type assertions). *)
Record Model {V S : Type} := MkModel {
  Partition : option (list (Operation V) → outcome (list (list (Operation V))));
  PartitionEvent : option (list (Event V) → outcome (list (list (Event V))));
  Init : S;
  Step : S → V → V → outcome (bool * S);
  Equal : option (S → S → bool);
  DescribeOperation : option (V → V → outcome string);
  DescribeState : option (S → string);
}.
Arguments Model : clear implicits.

Inductive CheckResult := Unknown | Ok | Illegal.
#[export] Instance CheckResult_eq_dec : EqDecision CheckResult.
Proof. solve_decision. Defined.

Definition NoPartition {V} (history : list (Operation V)) : outcome (list (list (Operation V))) :=
  Done [history].

Definition NoPartitionEvent {V} (history : list (Event V)) : outcome (list (list (Event V))) :=
  Done [history].

(** [==] on the dynamic values. *)
Definition ShallowEqual {S} `{EqDecision S} (state1 state2 : S) : bool :=
  bool_decide (state1 = state2).

(** [fmt.Sprintf] of [%v] is a printer of the value type. *)
Class GoString (A : Type) := sprint : A → string.

Definition DefaultDescribeOperation {V} `{GoString V} (input output : V) : outcome string :=
  Done (sprint input +:+ " -> " +:+ sprint output).

Definition DefaultDescribeState {S} `{GoString S} (state : S) : string := sprint state.

(** ** checker.go: entries *)

(** [callEntry = false], [returnEntry = true]. *)
Definition entryKind : Type := bool.
Definition callEntry : entryKind := false.
Definition returnEntry : entryKind := true.

Record entry {V : Type} := MkEntry {
  e_kind : entryKind;
  e_value : V;
  e_id : Z;
  e_time : Z;
  e_clientId : Z;
}.
Arguments entry : clear implicits.

(** [byTime.Less] on the two entries it compares. *)
Definition Less {V} (a b : entry V) : bool :=
  if negb (e_time a =? e_time b)%Z then (e_time a <? e_time b)%Z
  else Bool.eqb (e_kind a) callEntry && Bool.eqb (e_kind b) returnEntry.

(** [sort.Sort(byTime(entries))]: some permutation of the entries in which no
    later entry is [Less] than an earlier one; the order of equivalent entries
    is not specified. *)
Class Sorter (V : Type) := {
  sort_entries : list (entry V) → list (entry V);
  sort_perm : ∀ l, sort_entries l ≡ₚ l;
  sort_sorted : ∀ l i j a b, i < j →
    sort_entries l !! i = Some a → sort_entries l !! j = Some b → Less b a = false;
}.

Fixpoint makeEntries_loop {V} (id : Z) (history : list (Operation V)) : list (entry V) :=
  match history with
  | [] => []
  | elem :: history' =>
      MkEntry V callEntry (Input elem) id (Call elem) (op_ClientId elem)
      :: MkEntry V returnEntry (Output elem) id (Return elem) (op_ClientId elem)
      :: makeEntries_loop (id + 1) history'
  end.

Definition makeEntries {V} `{Sorter V} (history : list (Operation V)) : list (entry V) :=
  sort_entries (makeEntries_loop 0 history).

Fixpoint renumber_loop {V} (m : gmap Z Z) (id : Z) (events : list (Event V)) : list (Event V) :=
  match events with
  | [] => []
  | v :: events' =>
      match m !! ev_Id v with
      | Some r => MkEvent V (ev_ClientId v) (ev_Kind v) (ev_Value v) r :: renumber_loop m id events'
      | None =>
          MkEvent V (ev_ClientId v) (ev_Kind v) (ev_Value v) id
          :: renumber_loop (<[ev_Id v := id]> m) (id + 1) events'
      end
  end.

Definition renumber {V} (events : list (Event V)) : list (Event V) := renumber_loop ∅ 0 events.

Definition convertEntries {V} (events : list (Event V)) : list (entry V) :=
  imap (λ i elem,
    let kind := if Bool.eqb (ev_Kind elem) ReturnEvent then returnEntry else callEntry in
    MkEntry V kind (ev_Value elem) (ev_Id elem) (Z.of_nat i) (ev_ClientId elem)) events.

(** ** checker.go: the linked list *)

Record node {V : Type} := MkNode {
  value : V;
  match_ : option nat;
  id : Z;
  next : option nat;
  prev : option nat;
}.
Arguments node : clear implicits.

(** The heap of nodes; a pointer is an index, [nil] is [None]. *)
Notation heap V := (list (node V)).

Module heap.

Definition load {V} (h : heap V) (p : option nat) : outcome (node V) :=
  match p ≫= λ a, h !! a with
  | Some n => Done n
  | None => Panic "nil pointer dereference"
  end.

Definition set_next {V} (h : heap V) (p : option nat) (v : option nat) : outcome (heap V) :=
  match p with
  | Some a => let! n := load h p in
      Done (<[a := MkNode V (value n) (match_ n) (id n) v (prev n)]> h)
  | None => Panic "nil pointer dereference"
  end.

Definition set_prev {V} (h : heap V) (p : option nat) (v : option nat) : outcome (heap V) :=
  match p with
  | Some a => let! n := load h p in
      Done (<[a := MkNode V (value n) (match_ n) (id n) (next n) v]> h)
  | None => Panic "nil pointer dereference"
  end.

(** [&node{value: v, match: m, id: i}] *)
Definition alloc {V} (h : heap V) (v : V) (m : option nat) (i : Z) : heap V * nat :=
  (h ++ [MkNode V v m i None None], length h).

End heap.

Module checker.

Definition insertBefore {V} (h : heap V) (n : nat) (mark : option nat) : outcome (heap V) :=
  match mark with
  | Some _ =>
      let! mk := heap.load h mark in
      let beforeMark := prev mk in
      let! h1 := heap.set_prev h mark (Some n) in
      let! h2 := heap.set_next h1 (Some n) mark in
      match beforeMark with
      | Some _ =>
          let! h3 := heap.set_prev h2 (Some n) beforeMark in
          heap.set_next h3 beforeMark (Some n)
      | None => Done h2
      end
  | None => Done h
  end.

(** The loop of [length]; [None] when the fuel runs out. *)
Fixpoint length_loop {V} (fuel : nat) (h : heap V) (n : option nat) (l : Z) : option (outcome Z) :=
  match n with
  | None => Some (Done l)
  | Some _ =>
      match fuel, heap.load h n with
      | O, _ => None
      | S fuel', Done nd => length_loop fuel' h (next nd) (l + 1)
      | S _, Panic w => Some (Panic w)
      | S _, Fatal w => Some (Fatal w)
      end
  end.

(** An acyclic list of nodes of the heap is no longer than the heap. *)
Definition length {V} (h : heap V) (n : option nat) : option (outcome Z) :=
  length_loop (length h) h n 0.

(** One iteration of the loop of [makeLinkedEntries]. *)
Definition link_entry {V} (elem : entry V) (acc : heap V * option nat * gmap Z nat)
    : outcome (heap V * option nat * gmap Z nat) :=
  let '(h, root, match_tbl) := acc in
  if Bool.eqb (e_kind elem) returnEntry then
    let '(h1, a) := heap.alloc h (e_value elem) None (e_id elem) in
    let match_tbl' := <[e_id elem := a]> match_tbl in
    let! h2 := insertBefore h1 a root in
    Done (h2, Some a, match_tbl')
  else
    let '(h1, a) := heap.alloc h (e_value elem) (match_tbl !! e_id elem) (e_id elem) in
    let! h2 := insertBefore h1 a root in
    Done (h2, Some a, match_tbl).

(** The loop runs over the indices downwards, so the last entry comes first. *)
Fixpoint makeLinkedEntries_loop {V} (entries : list (entry V))
    : outcome (heap V * option nat * gmap Z nat) :=
  match entries with
  | [] => Done ([], None, ∅)
  | elem :: entries' => let! acc := makeLinkedEntries_loop entries' in link_entry elem acc
  end.

Definition makeLinkedEntries {V} (entries : list (entry V)) : outcome (heap V * option nat) :=
  let! '(h, root, _) := makeLinkedEntries_loop entries in Done (h, root).

Definition lift {V} (h : heap V) (entry : option nat) : outcome (heap V) :=
  let! e := heap.load h entry in
  let! h1 := heap.set_next h (prev e) (next e) in
  let! e1 := heap.load h1 entry in
  let! h2 := heap.set_prev h1 (next e1) (prev e1) in
  let! e2 := heap.load h2 entry in
  let match' := match_ e2 in
  let! m := heap.load h2 match' in
  let! h3 := heap.set_next h2 (prev m) (next m) in
  let! m1 := heap.load h3 match' in
  match next m1 with
  | Some _ => heap.set_prev h3 (next m1) (prev m1)
  | None => Done h3
  end.

Definition unlift {V} (h : heap V) (entry : option nat) : outcome (heap V) :=
  let! e := heap.load h entry in
  let match' := match_ e in
  let! m := heap.load h match' in
  let! h1 := heap.set_next h (prev m) match' in
  let! m1 := heap.load h1 match' in
  let! h2 := match next m1 with
             | Some _ => heap.set_prev h1 (next m1) match'
             | None => Done h1
             end in
  let! e2 := heap.load h2 entry in
  let! h3 := heap.set_next h2 (prev e2) entry in
  let! e3 := heap.load h3 entry in
  heap.set_prev h3 (next e3) entry.

(** ** checker.go: the search *)

Record cacheEntry {S : Type} := MkCacheEntry { ce_linearized : list Z; ce_state : S }.
Arguments cacheEntry : clear implicits.

Record callsEntry {S : Type} := MkCallsEntry { c_entry : option nat; c_state : S }.
Arguments callsEntry : clear implicits.

(** [model.Equal] is never [nil] after [fillDefault]; calling a [nil] function
    panics. *)
Definition call_Equal {V S} (model : Model V S) (s1 s2 : S) : outcome bool :=
  match Equal model with
  | Some eq => Done (eq s1 s2)
  | None => Panic "nil function"
  end.

Fixpoint cacheContains_loop {V S} (model : Model V S) (entry : cacheEntry S)
    (elems : list (cacheEntry S)) : outcome bool :=
  match elems with
  | [] => Done false
  | elem :: elems' =>
      if bitset.equals (ce_linearized entry) (ce_linearized elem) then
        let! e := call_Equal model (ce_state entry) (ce_state elem) in
        if e : bool then Done true else cacheContains_loop model entry elems'
      else cacheContains_loop model entry elems'
  end.

Definition cacheContains {V S} (model : Model V S) (cache : gmap Z (list (cacheEntry S)))
    (entry : cacheEntry S) : outcome bool :=
  cacheContains_loop model entry (default [] (cache !! bitset.hash (ce_linearized entry))).

(** The variables of [checkSingle].  [longest] holds pointers to slices: the
    slices are in [seqs], a pointer is an index. *)
Record search {V S : Type} := MkSearch {
  sr_heap : heap V;
  sr_entry : option nat;
  sr_linearized : list Z;
  sr_cache : gmap Z (list (cacheEntry S));
  sr_calls : list (callsEntry S);
  sr_longest : list (option nat);
  sr_seqs : list (list Z);
  sr_state : S;
}.
Arguments search : clear implicits.

(** [seq[i] = v.entry.id] for every call. *)
Fixpoint call_ids {V S} (h : heap V) (calls : list (callsEntry S)) : outcome (list Z) :=
  match calls with
  | [] => Done []
  | v :: calls' =>
      let! n := heap.load h (c_entry v) in
      let! ids := call_ids h calls' in
      Done (id n :: ids)
  end.

(** [longest[id] == nil || callsLen > len( *longest[id])] *)
Definition longer {S} (calls : list (callsEntry S)) (seqs : list (list Z)) (l : option nat) : bool :=
  match l with
  | None => true
  | Some p => (zlen (default [] (seqs !! p)) <? zlen calls)%Z
  end.

(** The [computePartial] block.  [seq] is the pointer to the lazily built
    slice of this iteration. *)
Fixpoint partial_loop {V S} (h : heap V) (calls : list (callsEntry S)) (seq : option nat)
    (todo : list (callsEntry S)) (longest : list (option nat)) (seqs : list (list Z))
    : outcome (list (option nat) * list (list Z)) :=
  match todo with
  | [] => Done (longest, seqs)
  | v :: todo' =>
      let! n := heap.load h (c_entry v) in
      let! l := idx longest (id n) in
      if longer calls seqs l then
        let! '(seq', seqs') :=
          match seq with
          | Some p => Done (p, seqs)
          | None => let! ids := call_ids h calls in Done (List.length seqs, seqs ++ [ids])
          end in
        let! longest' := set_idx longest (id n) (Some seq') in
        partial_loop h calls (Some seq') todo' longest' seqs'
      else partial_loop h calls seq todo' longest seqs
  end.

(** The branch of the loop body for a call node. *)
Definition try_call {V S} (model : Model V S) (head : nat) (e : node V) (st : search V S)
    : outcome (search V S) :=
  let '(MkSearch _ _ h entry linearized cache calls longest seqs state) := st in
  let skip := MkSearch V S h (next e) linearized cache calls longest seqs state in
  let! matching := heap.load h (match_ e) in
  let! '(ok, newState) := Step model state (value e) (value matching) in
  if ok : bool then
    let! newLinearized := bitset.set (bitset.clone linearized) (id e) in
    let newCacheEntry := MkCacheEntry S newLinearized newState in
    let! hit := cacheContains model cache newCacheEntry in
    if negb hit then
      let hash := bitset.hash newLinearized in
      let cache' := <[hash := default [] (cache !! hash) ++ [newCacheEntry]]> cache in
      let calls' := calls ++ [MkCallsEntry S entry state] in
      let! linearized' := bitset.set linearized (id e) in
      let! h' := lift h entry in
      let! hd := heap.load h' (Some head) in
      Done (MkSearch V S h' (next hd) linearized' cache' calls' longest seqs newState)
    else Done skip
  else Done skip.

(** The branch for a return node; [None] is [return false, longest]. *)
Definition backtrack {V S} (computePartial : bool) (st : search V S)
    : outcome (option (search V S)) :=
  let '(MkSearch _ _ h entry linearized cache calls longest seqs state) := st in
  if (zlen calls =? 0)%Z then Done None
  else
    let! '(longest', seqs') :=
      if computePartial then partial_loop h calls None calls longest seqs
      else Done (longest, seqs) in
    let! callsTop := idx calls (zlen calls - 1) in
    let entry' := c_entry callsTop in
    let state' := c_state callsTop in
    let! e := heap.load h entry' in
    let! linearized' := bitset.clear linearized (id e) in
    let! calls' := slice_to calls (zlen calls - 1) in
    let! h' := unlift h entry' in
    let! e' := heap.load h' entry' in
    Done (Some (MkSearch V S h' (next e') linearized' cache calls' longest' seqs' state')).

(** The slices [longest] points to, with the pointers. *)
Record partials := MkPartials { pt_longest : list (option nat); pt_seqs : list (list Z) }.

(** [for i := 0; i < n; i++ { longest[i] = &seq }] *)
Fixpoint fill_longest (todo : nat) (i : Z) (p : nat) (longest : list (option nat))
    : outcome (list (option nat)) :=
  match todo with
  | O => Done longest
  | S todo' => let! longest' := set_idx longest i (Some p) in fill_longest todo' (i + 1) p longest'
  end.

(** After the loop: the complete linearization is [calls]. *)
Definition finish {V S} (n : Z) (st : search V S) : outcome (bool * partials) :=
  let! seq := call_ids (sr_heap st) (sr_calls st) in
  let! longest := fill_longest (Z.to_nat n) 0 (List.length (sr_seqs st)) (sr_longest st) in
  Done (true, MkPartials longest (sr_seqs st ++ [seq])).

(** The loop of [checkSingle].  [kill k] is the value of [*kill] seen by the
    [k]-th check; [None] when the fuel runs out. *)
Fixpoint checkSingle_loop {V S} (fuel : nat) (k : nat) (kill : nat → bool) (model : Model V S)
    (computePartial : bool) (n : Z) (head : nat) (st : search V S)
    : option (outcome (bool * partials)) :=
  match fuel with
  | O => None
  | S fuel' =>
      let again r :=
        match r with
        | Done st' => checkSingle_loop fuel' (k + 1) kill model computePartial n head st'
        | Panic w => Some (Panic w)
        | Fatal w => Some (Fatal w)
        end in
      match heap.load (sr_heap st) (Some head) with
      | Done hd =>
          match next hd with
          | None => Some (finish n st)
          | Some _ =>
              if kill k then Some (Done (false, MkPartials (sr_longest st) (sr_seqs st)))
              else
                match heap.load (sr_heap st) (sr_entry st) with
                | Done e =>
                    match match_ e with
                    | Some _ => again (try_call model head e st)
                    | None =>
                        match backtrack computePartial st with
                        | Done None => Some (Done (false, MkPartials (sr_longest st) (sr_seqs st)))
                        | Done (Some st') => again (Done st')
                        | Panic w => Some (Panic w)
                        | Fatal w => Some (Fatal w)
                        end
                    end
                | Panic w => Some (Panic w)
                | Fatal w => Some (Fatal w)
                end
          end
      | Panic w => Some (Panic w)
      | Fatal w => Some (Fatal w)
      end
  end.

(** The variables at loop entry, with the address of [headEntry] and [n]. *)
Definition checkSingle_init {V S} `{GoNil V} (model : Model V S) (history : list (entry V))
    : option (outcome (Z * nat * search V S)) :=
  match makeLinkedEntries history with
  | Done (h, entry) =>
      match length h entry with
      | Some (Done len) =>
          let n := (len ÷ 2)%Z in
          let '(h1, head) := heap.alloc h nil_value None (-1) in
          Some (let! h2 := insertBefore h1 head entry in
                Done (n, head, MkSearch V S h2 entry (bitset.newBitset n) ∅ []
                                 (replicate (Z.to_nat n) None) [] (Init model)))
      | Some (Panic w) => Some (Panic w)
      | Some (Fatal w) => Some (Fatal w)
      | None => None
      end
  | Panic w => Some (Panic w)
  | Fatal w => Some (Fatal w)
  end.

Definition checkSingle {V S} `{GoNil V} (fuel : nat) (model : Model V S) (history : list (entry V))
    (computePartial : bool) (kill : nat → bool) : option (outcome (bool * partials)) :=
  match checkSingle_init model history with
  | Some (Done (n, head, st)) => checkSingle_loop fuel 0 kill model computePartial n head st
  | Some (Panic w) => Some (Panic w)
  | Some (Fatal w) => Some (Fatal w)
  | None => None
  end.

(** ** checker.go: the driver *)

Definition fillDefault {V S} `{EqDecision S, GoString V, GoString S} (model : Model V S) : Model V S :=
  MkModel V S
    (Some (default NoPartition (Partition model)))
    (Some (default NoPartitionEvent (PartitionEvent model)))
    (Init model) (Step model)
    (Some (default ShallowEqual (Equal model)))
    (Some (default DefaultDescribeOperation (DescribeOperation model)))
    (Some (default DefaultDescribeState (DescribeState model))).

(** A ready case of the [select]: goroutine [i] sent its result, or the
    timeout fired. *)
Inductive ready := Sent (i : nat) | Fired.

(** [kill] as seen by a goroutine whose result the loop receives: it is only
    set when the loop ends. *)
Definition never (k : nat) : bool := false.

(** The [select] loop over a sequence of ready cases: the final [ok] and
    [timedOut] with the goroutines received from.  [None]: the loop blocks, or
    the sequence is not one the goroutines and the timer can produce (a
    goroutine sends once, a [nil] timeout channel is never ready). *)
Fixpoint select_loop {V S} `{GoNil V} (fuel : nat) (model : Model V S)
    (history : list (list (entry V))) (computeInfo : bool) (timeout : Z)
    (ok : bool) (count : Z) (received : list nat) (cases : list ready)
    : option (outcome (bool * bool * list nat)) :=
  match cases with
  | [] => None
  | Sent i :: rest =>
      if decide (i ∈ received) then None else
      subhistory ← history !! i;
      r ← checkSingle fuel model subhistory computeInfo never;
      match r with
      | Done (result, _) =>
          let received := received ++ [i] in
          let count := (count + 1)%Z in
          let ok := ok && result in
          if negb ok && negb computeInfo then Some (Done (ok, false, received))
          else if (zlen history <=? count)%Z then Some (Done (ok, false, received))
          else select_loop fuel model history computeInfo timeout ok count received rest
      | Panic w => Some (Panic w)
      | Fatal w => Some (Fatal w)
      end
  | Fired :: _ => if (0 <? timeout)%Z then Some (Done (ok, true, received)) else None
  end.

Definition result_of (ok timedOut : bool) : CheckResult :=
  if negb ok then Illegal else if timedOut then Unknown else Ok.

(** The distinct pointers of [longest], in the order of the slice.  The code
    iterates a Go map, so the order of the result is unspecified. *)
Fixpoint unique_pointers (set : gset nat) (longest : list (option nat)) : list nat :=
  match longest with
  | [] => []
  | Some p :: rest =>
      if decide (p ∈ set) then unique_pointers set rest
      else p :: unique_pointers ({[p]} ∪ set) rest
  | None :: rest => unique_pointers set rest
  end.

Definition partials_of (pt : partials) : list (list Z) :=
  (λ p, default [] (pt_seqs pt !! p)) <$> unique_pointers ∅ (pt_longest pt).

Record linearizationInfo {V : Type} := MkInfo {
  info_history : list (list (entry V));
  info_partialLinearizations : list (list (list Z));
}.
Arguments linearizationInfo : clear implicits.

(** [longest[i]] of every goroutine once all have finished; a goroutine the
    loop did not receive from may have seen [kill] set from some check on. *)
Fixpoint collect_longest {V S} `{GoNil V} (fuel : nat) (model : Model V S)
    (received : list nat) (kills : nat → nat → bool) (i : nat) (history : list (list (entry V)))
    : option (outcome (list partials)) :=
  match history with
  | [] => Some (Done [])
  | sub :: history' =>
      let kill := if decide (i ∈ received) then never else kills i in
      r ← checkSingle fuel model sub true kill;
      rs ← collect_longest fuel model received kills (i + 1) history';
      Some (let! '(_, pt) := r in let! pts := rs in Done (pt :: pts))
  end.

(** [cases] is the order in which the cases of the [select] become ready and
    [kills] when the other goroutines notice [kill]. *)
Definition checkParallel {V S} `{GoNil V} (fuel : nat) (model : Model V S)
    (history : list (list (entry V))) (computeInfo : bool) (timeout : Z)
    (cases : list ready) (kills : nat → nat → bool)
    : option (outcome (CheckResult * linearizationInfo V)) :=
  r ← select_loop fuel model history computeInfo timeout true 0 [] cases;
  match r with
  | Done (ok, timedOut, received) =>
      if computeInfo then
        longest ← collect_longest fuel model received kills 0 history;
        Some (let! pts := longest in
              Done (result_of ok timedOut, MkInfo V history (partials_of <$> pts)))
      else Some (Done (result_of ok timedOut, MkInfo V [] []))
  | Panic w => Some (Panic w)
  | Fatal w => Some (Fatal w)
  end.

(** The scheduling choices of one run of the driver, and the fuel of its
    searches. *)
Record run_choice := MkChoice {
  ch_fuel : nat;
  ch_cases : list ready;
  ch_kills : nat → nat → bool;
}.

Definition checkEvents {V S} `{GoNil V, EqDecision S, GoString V, GoString S}
    (model : Model V S) (history : list (Event V)) (verbose : bool) (timeout : Z) (ch : run_choice)
    : option (outcome (CheckResult * linearizationInfo V)) :=
  let model := fillDefault model in
  match default NoPartitionEvent (PartitionEvent model) history with
  | Done partitions =>
      let l := (λ sub, convertEntries (renumber sub)) <$> partitions in
      checkParallel (ch_fuel ch) model l verbose timeout (ch_cases ch) (ch_kills ch)
  | Panic w => Some (Panic w)
  | Fatal w => Some (Fatal w)
  end.

Definition checkOperations {V S} `{GoNil V, EqDecision S, GoString V, GoString S, Sorter V}
    (model : Model V S) (history : list (Operation V)) (verbose : bool) (timeout : Z) (ch : run_choice)
    : option (outcome (CheckResult * linearizationInfo V)) :=
  let model := fillDefault model in
  match default NoPartition (Partition model) history with
  | Done partitions =>
      checkParallel (ch_fuel ch) model (makeEntries <$> partitions) verbose timeout
        (ch_cases ch) (ch_kills ch)
  | Panic w => Some (Panic w)
  | Fatal w => Some (Fatal w)
  end.

End checker.

(** ** porcupine.go *)
Module porcupine.

Section api.
Context {V S : Type} `{GoNil V, EqDecision S, GoString V, GoString S}.
Implicit Types model : Model V S.

Definition CheckOperations `{Sorter V} model (history : list (Operation V)) (ch : checker.run_choice)
    : option (outcome bool) :=
  r ← checker.checkOperations model history false 0 ch;
  Some (let! '(res, _) := r in Done (bool_decide (res = Ok))).

Definition CheckOperationsTimeout `{Sorter V} model (history : list (Operation V)) (timeout : Z)
    (ch : checker.run_choice) : option (outcome CheckResult) :=
  r ← checker.checkOperations model history false timeout ch;
  Some (let! '(res, _) := r in Done res).

Definition CheckOperationsVerbose `{Sorter V} model (history : list (Operation V)) (timeout : Z)
    (ch : checker.run_choice) : option (outcome (CheckResult * checker.linearizationInfo V)) :=
  checker.checkOperations model history true timeout ch.

Definition CheckEvents model (history : list (Event V)) (ch : checker.run_choice)
    : option (outcome bool) :=
  r ← checker.checkEvents model history false 0 ch;
  Some (let! '(res, _) := r in Done (bool_decide (res = Ok))).

Definition CheckEventsTimeout model (history : list (Event V)) (timeout : Z)
    (ch : checker.run_choice) : option (outcome CheckResult) :=
  r ← checker.checkEvents model history false timeout ch;
  Some (let! '(res, _) := r in Done res).

Definition CheckEventsVerbose model (history : list (Event V)) (timeout : Z)
    (ch : checker.run_choice) : option (outcome (CheckResult * checker.linearizationInfo V)) :=
  checker.checkEvents model history true timeout ch.

End api.

End porcupine.
