(* ===== verification/PorcupineList.v ===== *)
(** * The doubly linked list of the linearizability checker

    Representation of a list of addresses in the heap of nodes, and what
    [insertBefore], [length], [makeLinkedEntries], [lift] and [unlift] of
    checker.go do to it.  The central fact is that [unlift] gives back exactly
    the heap that [lift] was applied to. *)

From S2P Require Import Prelude Bitset Porcupine.

Module plist.

Arguments heap.load : simpl never.
Arguments heap.set_next : simpl never.
Arguments heap.set_prev : simpl never.

Section plist.
Context {V : Type}.
Implicit Types (h : heap V) (n : node V) (l : list nat) (a b p q : nat) (o pv nx : option nat).

(** The first address of [l], or [nx]. *)
Definition first l nx : option nat := match l with [] => nx | a :: _ => Some a end.

(** The last address of [l], or [pv]. *)
Fixpoint final pv l : option nat := match l with [] => pv | a :: l' => final (Some a) l' end.

(** The nodes at [l] are linked in that order; the predecessor of the first is
    [pv] and the successor of the last [nx]. *)
Fixpoint seg h pv l nx : Prop :=
  match l with
  | [] => True
  | a :: l' => (∃ n, h !! a = Some n ∧ prev n = pv ∧ next n = first l' nx) ∧ seg h (Some a) l' nx
  end.

(** [h'] differs from [h] in [next] and [prev] fields only. *)
Definition same_static h h' : Prop :=
  ∀ a, (λ n, (value n, match_ n, id n)) <$> h !! a = (λ n, (value n, match_ n, id n)) <$> h' !! a.

#[global] Instance same_static_equiv : Equivalence same_static.
Proof.
  split; [by intros h a|by intros h h' H a|].
  intros h1 h2 h3 H1 H2 a. by rewrite H1.
Qed.

Lemma same_static_lookup h h' a n : same_static h h' → h !! a = Some n →
  ∃ n', h' !! a = Some n' ∧ value n' = value n ∧ match_ n' = match_ n ∧ id n' = id n.
Proof.
  intros H Ha. specialize (H a). rewrite Ha in H. simpl in H.
  destruct (h' !! a) as [n'|]; simplify_eq/=. eauto.
Qed.

Lemma load_Some h a n : h !! a = Some n → heap.load h (Some a) = Done n.
Proof. unfold heap.load. simpl. by intros ->. Qed.

Definition with_next n v := MkNode V (value n) (match_ n) (id n) v (prev n).
Definition with_prev n v := MkNode V (value n) (match_ n) (id n) (next n) v.

Lemma set_next_Some h a n v : h !! a = Some n →
  heap.set_next h (Some a) v = Done (<[a := with_next n v]> h).
Proof. intros Ha. unfold heap.set_next. by rewrite (load_Some _ _ _ Ha). Qed.

Lemma set_prev_Some h a n v : h !! a = Some n →
  heap.set_prev h (Some a) v = Done (<[a := with_prev n v]> h).
Proof. intros Ha. unfold heap.set_prev. by rewrite (load_Some _ _ _ Ha). Qed.

Lemma with_next_id n : with_next n (next n) = n.
Proof. by destruct n. Qed.
Lemma with_prev_id n : with_prev n (prev n) = n.
Proof. by destruct n. Qed.

Lemma same_static_insert h a n n' : h !! a = Some n →
  value n' = value n → match_ n' = match_ n → id n' = id n → same_static h (<[a := n']> h).
Proof.
  intros Ha Hv Hm Hi b. destruct (decide (a = b)) as [->|].
  - rewrite list_lookup_insert_eq by (eapply lookup_lt_Some; eassumption).
    rewrite Ha. simpl. by rewrite Hv, Hm, Hi.
  - by rewrite list_lookup_insert_ne.
Qed.

Lemma lookup_insert_addr h a n : a < length h → <[a := n]> h !! a = Some n.
Proof. apply list_lookup_insert_eq. Qed.

(** *** Segments *)

Lemma first_app l1 l2 nx : first (l1 ++ l2) nx = first l1 (first l2 nx).
Proof. by destruct l1. Qed.

Lemma final_snoc pv l a : final pv (l ++ [a]) = Some a.
Proof. revert pv. induction l; simpl; auto. Qed.

Lemma seg_app h pv l1 l2 nx :
  seg h pv (l1 ++ l2) nx ↔ seg h pv l1 (first l2 nx) ∧ seg h (final pv l1) l2 nx.
Proof.
  revert pv. induction l1 as [|a l1 IH]; intros pv; simpl; [tauto|].
  rewrite IH, first_app. tauto.
Qed.

Lemma seg_ext h h' pv l nx :
  (∀ a, a ∈ l → h' !! a = h !! a) → seg h pv l nx → seg h' pv l nx.
Proof.
  revert pv. induction l as [|a l IH]; intros pv Hext; simpl; [done|].
  intros [(n & Ha & Hp & Hn) Hl]. split.
  - exists n. rewrite Hext by left. done.
  - apply IH; [|done]. intros b Hb. apply Hext. by right.
Qed.

Lemma seg_insert h pv l nx a n : a ∉ l → seg h pv l nx → seg (<[a := n]> h) pv l nx.
Proof.
  intros Ha. apply seg_ext. intros b Hb. apply list_lookup_insert_ne. by intros ->.
Qed.

Lemma seg_lookup h pv l nx a : seg h pv l nx → a ∈ l → ∃ n, h !! a = Some n.
Proof.
  revert pv. induction l as [|b l IH]; intros pv; [by intros _ ?%not_elem_of_nil|].
  intros [(n & Hb & _) Hl] [->|Ha]%elem_of_cons; eauto.
Qed.

(** The node at the place of a segment where [l1] ends. *)
Lemma seg_at h pv l1 a l2 nx : seg h pv (l1 ++ a :: l2) nx →
  ∃ n, h !! a = Some n ∧ prev n = final pv l1 ∧ next n = first l2 nx.
Proof. intros (_ & (n & ? & ? & ?) & _)%seg_app. eauto. Qed.

Lemma seg_at2 h pv l0 p a l2 nx : seg h pv (l0 ++ p :: a :: l2) nx →
  ∃ n, h !! a = Some n ∧ prev n = Some p ∧ next n = first l2 nx.
Proof. intros (_ & _ & (n & ? & ? & ?) & _)%seg_app. eauto. Qed.

(** *** Unlinking one node and putting it back *)

Definition unlink h (a : nat) : outcome (heap V) :=
  let! n := heap.load h (Some a) in
  let! h1 := heap.set_next h (prev n) (next n) in
  match next n with
  | Some _ => heap.set_prev h1 (next n) (prev n)
  | None => Done h1
  end.

Definition relink h (a : nat) : outcome (heap V) :=
  let! n := heap.load h (Some a) in
  let! h1 := heap.set_next h (prev n) (Some a) in
  match next n with
  | Some _ => heap.set_prev h1 (next n) (Some a)
  | None => Done h1
  end.

Lemma unlink_spec h pv l0 p a l2 :
  NoDup (l0 ++ p :: a :: l2) → seg h pv (l0 ++ p :: a :: l2) None →
  ∃ h', unlink h a = Done h' ∧ seg h' pv (l0 ++ p :: l2) None ∧ same_static h h' ∧
    length h' = length h ∧ h' !! a = h !! a ∧ relink h' a = Done h.
Proof.
  intros Hnd Hseg.
  apply NoDup_app in Hnd as (Hnd0 & Hdis & Hnd).
  apply NoDup_cons in Hnd as [Hp Hnd]. apply NoDup_cons in Hnd as [Ha Hnd].
  rewrite not_elem_of_cons in Hp. destruct Hp as [Hpa Hp].
  assert (p ∉ l0 ∧ a ∉ l0) as [Hp0 Ha0].
  { split; intros Hx; apply Hdis in Hx; rewrite !elem_of_cons in Hx; tauto. }
  apply seg_app in Hseg as (Hs0 & (np & Ep & Hpp & Hpn) & (na & Ea & Hap & Han) & Hs2).
  simpl in Hpn, Han. unfold unlink. rewrite (load_Some _ _ _ Ea); simpl.
  rewrite Hap, (set_next_Some _ _ _ _ Ep). simpl. rewrite Han.
  set (h1 := <[p := with_next np (first l2 None)]> h).
  assert (same_static h h1) as Hst1 by (eapply same_static_insert; [eassumption|done..]).
  pose proof (lookup_lt_Some _ _ _ Ep) as Lp.
  destruct l2 as [|c l2]; simpl in *.
  - exists h1. split_and!; [done| |done|by unfold h1; rewrite length_insert| |].
    + apply seg_app. split; [by apply seg_insert|]. split; [|done].
      exists (with_next np None). unfold h1. by rewrite lookup_insert_addr.
    + unfold h1. by rewrite list_lookup_insert_ne.
    + unfold relink. rewrite (load_Some h1 a na) by (unfold h1; by rewrite list_lookup_insert_ne).
      simpl. rewrite Hap, Han.
      rewrite (set_next_Some _ _ (with_next np None)) by (unfold h1; by rewrite lookup_insert_addr).
      simpl. f_equal. unfold h1, with_next; simpl. rewrite list_insert_insert_eq.
      apply list_insert_id. rewrite Ep. f_equal. rewrite <- Hpn. by destruct np.
  - rewrite not_elem_of_cons in Ha, Hp. destruct Ha as [Hac Ha], Hp as [Hpc Hp].
    destruct Hs2 as [(nc & Ec & Hcp & Hcn) Hs2]. simpl in Hcn.
    apply NoDup_cons in Hnd as [Hc Hnd].
    assert (c ∉ l0) as Hc0.
    { intros Hx. apply Hdis in Hx. rewrite !elem_of_cons in Hx. tauto. }
    pose proof (lookup_lt_Some _ _ _ Ec) as Lc.
    assert (h1 !! c = Some nc) as Ec1 by (unfold h1; by rewrite list_lookup_insert_ne).
    assert (heap.set_prev h1 (Some c) (Some p) = Done (<[c := with_prev nc (Some p)]> h1)) as Hset
      by (by apply set_prev_Some).
    set (h2 := <[c := with_prev nc (Some p)]> h1) in *.
    assert (h2 !! p = Some (with_next np (Some c))) as Ep2.
    { unfold h2, h1. rewrite list_lookup_insert_ne by done. by apply lookup_insert_addr. }
    assert (h2 !! a = Some na) as Ea2.
    { unfold h2, h1. by rewrite !list_lookup_insert_ne by congruence. }
    assert (h2 !! c = Some (with_prev nc (Some p))) as Ec2.
    { unfold h2, h1. apply lookup_insert_addr. by rewrite length_insert. }
    exists h2. split_and!; [exact Hset| | | | |].
    + apply seg_app. split; [by apply seg_insert, seg_insert|]. simpl. split; [by eauto|].
      split; [by eauto|]. by apply seg_insert, seg_insert.
    + etransitivity; [exact Hst1|]. eapply same_static_insert; [eassumption|done..].
    + unfold h2, h1. by rewrite !length_insert.
    + congruence.
    + unfold relink. rewrite (load_Some _ _ _ Ea2). simpl. rewrite Hap, Han.
      rewrite (set_next_Some _ _ _ _ Ep2). simpl.
      rewrite (set_prev_Some _ _ (with_prev nc (Some p))) by (by rewrite list_lookup_insert_ne).
      f_equal. apply list_eq. intros k. unfold h2, h1.
      destruct (decide (k = c)) as [->|]; [|destruct (decide (k = p)) as [->|]].
      * rewrite list_lookup_insert_eq by (by rewrite !length_insert). rewrite Ec. f_equal.
        unfold with_prev; simpl. rewrite <- Hcp. by destruct nc.
      * rewrite list_lookup_insert_ne by done.
        rewrite list_lookup_insert_eq by (by rewrite !length_insert). rewrite Ep. f_equal.
        unfold with_next; simpl. rewrite <- Hpn. by destruct np.
      * by rewrite !list_lookup_insert_ne by done.
Qed.

(** [lift] unlinks the call and then its return; [unlift] puts them back in
    the opposite order. *)
Lemma set_next_load_ne h p v h' a :
  heap.set_next h (Some p) v = Done h' → a ≠ p → heap.load h' (Some a) = heap.load h (Some a).
Proof.
  unfold heap.set_next, heap.load. simpl. destruct (h !! p); simpl; [|done].
  intros [= <-] ?. by rewrite list_lookup_insert_ne.
Qed.

Lemma lift_unlink h e ne m nm p q r :
  h !! e = Some ne → prev ne = Some p → next ne = Some q → match_ ne = Some m →
  p ≠ e → q ≠ e →
  (∀ h1, unlink h e = Done h1 → h1 !! m = Some nm) → prev nm = Some r → r ≠ m →
  checker.lift h (Some e) = (unlink h e ≫= λ h1, unlink h1 m).
Proof.
  intros Ee Hp Hq Hm Hpe Hqe Em Hr Hrm. unfold checker.lift, unlink in *.
  rewrite (load_Some _ _ _ Ee) in *. simpl in *. rewrite Hp, Hq in *.
  destruct (heap.set_next h (Some p) (Some q)) as [h1| |] eqn:E1; [|done..]. simpl in *.
  rewrite (set_next_load_ne _ _ _ _ _ E1), (load_Some _ _ _ Ee) by congruence. simpl.
  rewrite Hq, Hp. destruct (heap.set_prev h1 (Some q) (Some p)) as [h2| |] eqn:E2; [|done..]. simpl.
  assert (h2 !! e = Some ne) as Ee2.
  { unfold heap.set_prev in E2.
    destruct (heap.load h1 (Some q)); simplify_eq/=.
    rewrite list_lookup_insert_ne by congruence. unfold heap.set_next in E1.
    destruct (heap.load h (Some p)); simplify_eq/=. by rewrite list_lookup_insert_ne. }
  rewrite (load_Some _ _ _ Ee2). simpl. rewrite Hm.
  rewrite (load_Some _ _ _ (Em _ eq_refl)). simpl. rewrite Hr.
  destruct (heap.set_next h2 (Some r) (next nm)) as [h3| |] eqn:E3; [|done..]. simpl.
  rewrite (set_next_load_ne _ _ _ _ _ E3), (load_Some _ _ _ (Em _ eq_refl)) by congruence.
  simpl. by rewrite Hr.
Qed.

Lemma unlift_relink h e ne m nm r :
  h !! e = Some ne → match_ ne = Some m → h !! m = Some nm → prev nm = Some r → r ≠ m →
  (∀ h1, relink h m = Done h1 → ∃ ne' p q, h1 !! e = Some ne' ∧
     prev ne' = Some p ∧ next ne' = Some q ∧ p ≠ e) →
  checker.unlift h (Some e) = (relink h m ≫= λ h1, relink h1 e).
Proof.
  intros Ee Hm Em Hr Hrm He. unfold checker.unlift, relink in *.
  rewrite (load_Some _ _ _ Ee). simpl. rewrite Hm, (load_Some _ _ _ Em) in *. simpl in *.
  rewrite Hr in *. destruct (heap.set_next h (Some r) (Some m)) as [h1| |] eqn:E1; [|done..].
  simpl in *. rewrite (set_next_load_ne _ _ _ _ _ E1), (load_Some _ _ _ Em) by congruence. simpl.
  destruct (match next nm with Some _ => _ | None => _ end) as [h2| |]; [|done..]. simpl.
  destruct (He h2 eq_refl) as (ne' & p & q & Ee2 & Hp & Hq & Hpe).
  rewrite (load_Some _ _ _ Ee2). simpl. rewrite Hp, Hq.
  destruct (heap.set_next h2 (Some p) (Some e)) as [h3| |] eqn:E3; [|done..]. simpl.
  rewrite (set_next_load_ne _ _ _ _ _ E3), (load_Some _ _ _ Ee2) by congruence. simpl.
  by rewrite Hq.
Qed.

Lemma seg_snoc_form p l2 : ∃ l0 r, p :: l2 = l0 ++ [r] ∧ r ∈ p :: l2.
Proof.
  destruct (exists_last (l := p :: l2)) as (l0 & r & Heq); [done|].
  exists l0, r. split; [done|]. rewrite Heq, elem_of_app, list_elem_of_singleton. tauto.
Qed.

Lemma NoDup_mid_ne (l0 : list nat) p e l2 m l3 :
  NoDup (l0 ++ p :: e :: l2 ++ m :: l3) →
  p ≠ e ∧ e ≠ m ∧ e ∉ l2 ∧ e ∉ l3 ∧ m ∉ p :: l2.
Proof.
  intros (_ & _ & Hnd)%NoDup_app. apply NoDup_cons in Hnd as [Hp Hnd].
  apply NoDup_cons in Hnd as [He Hnd]. apply NoDup_app in Hnd as (_ & Hd & _).
  assert (m ∉ l2) as Hm by (intros Hx; apply Hd in Hx; apply Hx; left).
  rewrite !elem_of_cons, !elem_of_app, !elem_of_cons in *. naive_solver.
Qed.

Lemma lift_spec h pv l0 p e ne l2 m l3 :
  NoDup (l0 ++ p :: e :: l2 ++ m :: l3) →
  seg h pv (l0 ++ p :: e :: l2 ++ m :: l3) None →
  h !! e = Some ne → match_ ne = Some m →
  ∃ h', checker.lift h (Some e) = Done h' ∧ seg h' pv (l0 ++ p :: l2 ++ l3) None ∧
    same_static h h' ∧ checker.unlift h' (Some e) = Done h.
Proof.
  intros Hnd Hseg Ee Hm. destruct (NoDup_mid_ne _ _ _ _ _ _ Hnd) as (Hpe & Hem & He2 & He3 & Hm2).
  destruct (unlink_spec _ _ _ _ _ _ Hnd Hseg) as (h1 & U1 & S1 & F1 & L1 & K1 & R1).
  destruct (seg_snoc_form p l2) as (l0' & r & Heq & Hr).
  assert (l0 ++ p :: l2 ++ m :: l3 = (l0 ++ l0') ++ r :: m :: l3) as Hl.
  { rewrite <- app_assoc. f_equal. rewrite app_comm_cons, Heq, <- app_assoc. done. }
  assert (NoDup (l0 ++ p :: l2 ++ m :: l3)) as Hnd1.
  { eapply sublist_NoDup; [exact Hnd|]. apply sublist_app; [done|]. by do 2 constructor. }
  rewrite Hl in S1, Hnd1.
  destruct (unlink_spec _ _ _ _ _ _ Hnd1 S1) as (h2 & U2 & S2 & F2 & L2 & K2 & R2).
  apply seg_at2 in S1 as (nm & Em & Pm & Nm).
  destruct (seg_at2 _ _ _ _ _ _ _ Hseg) as (n & En & Hp & Hn).
  assert (n = ne) as -> by congruence.
  assert (∃ q, next ne = Some q ∧ q ≠ e) as (q & Hq & Hqe).
  { rewrite Hn. destruct l2 as [|c l2]; simpl; eexists; (split; [done|]); [done|].
    intros ->. apply He2. left. }
  assert (r ≠ m) as Hrm by (intros ->; done).
  exists h2. split_and!.
  - rewrite (lift_unlink h e ne m nm p q r); [|eauto..|naive_solver congruence|done|done].
    by rewrite U1.
  - rewrite <- app_assoc in S2. simpl in S2.
    assert (l0' ++ r :: l3 = p :: l2 ++ l3) as <-; [|done].
    rewrite app_comm_cons, Heq, <- app_assoc. done.
  - by transitivity h1.
  - assert (h2 !! m = Some nm) as Em2 by congruence.
    assert (h1 !! e = Some ne) as Ee1 by congruence.
    destruct (same_static_lookup _ _ _ _ F2 Ee1) as (ne2 & Ee2 & _ & Hm2' & _).
    rewrite (unlift_relink h2 e ne2 m nm r); [by rewrite R2|done|congruence|done..|].
    intros h1' Hh1'. assert (h1' = h1) as -> by congruence. eauto 8.
Qed.

(** *** Building the list *)

Lemma insertBefore_front h a na l :
  seg h None l None → h !! a = Some na → next na = None → prev na = None → a ∉ l → NoDup l →
  ∃ h', checker.insertBefore h a (first l None) = Done h' ∧ seg h' None (a :: l) None ∧
    same_static h h' ∧ length h' = length h.
Proof.
  intros Hs Ea Hna Hpa Ha Hnd. destruct l as [|b l]; simpl in *.
  - exists h. split_and!; [done|by eauto|done|done|done].
  - destruct Hs as [(nb & Eb & Hpb & Hnb) Hs]. apply not_elem_of_cons in Ha as [Hab Ha].
    apply NoDup_cons in Hnd as [Hb Hnd].
    pose proof (lookup_lt_Some _ _ _ Ea). pose proof (lookup_lt_Some _ _ _ Eb).
    rewrite (load_Some _ _ _ Eb). simpl. rewrite Hpb, (set_prev_Some _ _ _ _ Eb). simpl.
    assert (<[b := with_prev nb (Some a)]> h !! a = Some na) as Ea1
      by (by rewrite list_lookup_insert_ne).
    rewrite (set_next_Some _ _ _ _ Ea1). eexists. split_and!; [done| | | | |].
    + exists (with_next na (Some b)). rewrite list_lookup_insert_eq by (by rewrite length_insert).
      done.
    + exists (with_prev nb (Some a)). rewrite list_lookup_insert_ne by done.
      by rewrite list_lookup_insert_eq.
    + by apply seg_insert, seg_insert.
    + transitivity (<[b := with_prev nb (Some a)]> h);
        [eapply same_static_insert; [exact Eb|done..]|].
      eapply same_static_insert; [exact Ea1|done..].
    + by rewrite !length_insert.
Qed.

End plist.
End plist.
