(* ===== verification/Linearizability.v ===== *)
(** * Linearizability of a history of call and return events

    The specification the checker of checker.go is proved against.  A history
    is a list of events [(kind, id)] with [kind = false] for a call and [true]
    for a return.  [linearization] is the textbook definition: a sequence of
    all operations that is legal for the model and keeps the order of
    operations that do not overlap.  [lin] is the operational reading of Wing
    and Gong: repeatedly take an operation whose call comes before every
    return.  [lin_iff] says that they are the same. *)

From S2P Require Import Prelude.

Module lin.

Notation ev := (bool * Z)%type.

(** The events of all operations but [i]. *)
Definition without (i : Z) (es : list ev) : list ev := filter (λ e, e.2 ≠ i) es.

(** Every call is followed by its return. *)
Definition calls_matched (es : list ev) : Prop :=
  ∀ l1 i l2, es = l1 ++ (false, i) :: l2 → (true, i) ∈ l2.

(** A history: one call and one return per operation, in this order. *)
Record wf (es : list ev) : Prop := {
  wf_nodup : NoDup es;
  wf_matched : calls_matched es;
  wf_called : ∀ i, (true, i) ∈ es → (false, i) ∈ es;
}.

(** The return of [i] comes before the call of [j]. *)
Definition precedes (es : list ev) (i j : Z) : Prop :=
  ∃ l1 l2, es = l1 ++ (true, i) :: l2 ∧ (false, j) ∈ l2.

Section spec.
Context {V St : Type} (Step : St → V → V → outcome (bool * St)) (inp out : Z → V).
Implicit Types (s : St) (σ : list Z) (es : list ev).

(** The model accepts the operations in this order. *)
Fixpoint legal s σ : Prop :=
  match σ with
  | [] => True
  | i :: σ' => ∃ s', Step s (inp i) (out i) = Done (true, s') ∧ legal s' σ'
  end.

(** No operation is placed before one that had returned before it was called. *)
Definition respects es σ : Prop :=
  ∀ σ1 j σ2 i, σ = σ1 ++ j :: σ2 → i ∈ σ2 → ¬ precedes es i j.

Definition linearization es s σ : Prop :=
  NoDup σ ∧ (∀ i, i ∈ σ ↔ (false, i) ∈ es) ∧ legal s σ ∧ respects es σ.

Definition linearizable es s : Prop := ∃ σ, linearization es s σ.

Inductive lin : list ev → St → list Z → Prop :=
  | lin_nil s : lin [] s []
  | lin_pick es1 i es2 s s' σ :
      Forall (λ e, e.1 = false) es1 →
      Step s (inp i) (out i) = Done (true, s') →
      lin (without i (es1 ++ (false, i) :: es2)) s' σ →
      lin (es1 ++ (false, i) :: es2) s (i :: σ).

End spec.

(** ** Histories with an operation removed *)

Lemma elem_of_without i es e : e ∈ without i es ↔ e.2 ≠ i ∧ e ∈ es.
Proof. unfold without. by rewrite list_elem_of_filter. Qed.

Lemma without_app i es1 es2 : without i (es1 ++ es2) = without i es1 ++ without i es2.
Proof. apply filter_app. Qed.

(** A split of a filtered list comes from a split of the list. *)
Lemma filter_split {A} (P : A → Prop) `{∀ x, Decision (P x)} l l1 x l2 :
  filter P l = l1 ++ x :: l2 →
  P x ∧ ∃ k1 k2, l = k1 ++ x :: k2 ∧ l1 = filter P k1 ∧ l2 = filter P k2.
Proof.
  revert l1. induction l as [|y l IH]; intros l1; [by destruct l1|].
  rewrite filter_cons. case_decide as Hy; intros Heq.
  - destruct l1 as [|z l1]; simpl in Heq; injection Heq as -> Heq.
    + split; [done|]. exists [], l. done.
    + destruct (IH l1 Heq) as (? & k1 & k2 & -> & -> & ->). split; [done|]. exists (z :: k1), k2.
      rewrite filter_cons_True by done. done.
  - destruct (IH l1 Heq) as (? & k1 & k2 & -> & -> & ->). split; [done|]. exists (y :: k1), k2.
    by rewrite filter_cons_False.
Qed.

(** Keeping whole operations keeps a history well formed. *)
Lemma wf_filter (P : Z → Prop) `{∀ i, Decision (P i)} es :
  wf es → wf (filter (λ e, P e.2) es).
Proof.
  intros [Hnd Hm Hc]. split.
  - by apply NoDup_filter.
  - intros l1 i l2 (Hi & k1 & k2 & -> & -> & ->)%filter_split. apply list_elem_of_filter.
    split; [done|]. by eapply Hm.
  - intros i. rewrite !list_elem_of_filter. intros [? ?]. split; [done|by apply Hc].
Qed.

Lemma wf_without i es : wf es → wf (without i es).
Proof. intros Hwf. exact (wf_filter (λ j, j ≠ i) es Hwf). Qed.

Lemma precedes_filter (P : Z → Prop) `{∀ i, Decision (P i)} es i j :
  P i → P j → precedes (filter (λ e, P e.2) es) i j ↔ precedes es i j.
Proof.
  intros Hi Hj. split.
  - intros (l1 & l2 & (_ & k1 & k2 & -> & -> & ->)%filter_split & Hin).
    exists k1, k2. split; [done|]. by apply list_elem_of_filter in Hin as [_ ?].
  - intros (l1 & l2 & -> & Hin). exists (filter (λ e, P e.2) l1), (filter (λ e, P e.2) l2).
    rewrite filter_app, filter_cons_True by done. split; [done|]. by apply list_elem_of_filter.
Qed.

Lemma precedes_without k es i j :
  i ≠ k → j ≠ k → precedes (without k es) i j ↔ precedes es i j.
Proof. intros Hi Hj. exact (precedes_filter (λ i, i ≠ k) es i j Hi Hj). Qed.

(** The return of an operation does not come before its call. *)
Lemma wf_return_after es1 i es2 : wf (es1 ++ (false, i) :: es2) → (true, i) ∉ es1.
Proof.
  intros [Hnd Hm _] Hin. apply NoDup_app in Hnd as (_ & Hd & _).
  apply (Hd _ Hin). right. by eapply Hm.
Qed.

(** A history without calls is empty. *)
Lemma wf_no_calls es : wf es → (∀ i, (false, i) ∉ es) → es = [].
Proof.
  intros Hwf Hno. destruct es as [|[[] i] es]; [done| |].
  - exfalso. apply (Hno i), (wf_called _ Hwf). left.
  - exfalso. apply (Hno i). left.
Qed.

(** ** The two definitions agree *)
Section agree.
Context {V St : Type} (Step : St → V → V → outcome (bool * St)) (inp out : Z → V).
Implicit Types (s : St) (σ : list Z) (es : list ev).

(** The first operation of a linearization is called before every return. *)
Lemma linearization_first es s i σ : wf es → linearization Step inp out es s (i :: σ) →
  ∃ es1 es2, es = es1 ++ (false, i) :: es2 ∧ Forall (λ e, e.1 = false) es1.
Proof.
  intros Hwf (Hnd & Hids & _ & Hresp).
  assert ((false, i) ∈ es) as (es1 & es2 & ->)%list_elem_of_split by (apply Hids; left).
  exists es1, es2. split; [done|]. apply Forall_forall. intros [[] k] Hk; [|done]. exfalso.
  assert (k ≠ i) as Hki by (intros ->; by eapply wf_return_after).
  assert (k ∈ i :: σ) as Hin.
  { apply Hids, (wf_called _ Hwf), elem_of_app. by left. }
  apply (Hresp [] i σ k); [done|by apply elem_of_cons in Hin as [?|?]|].
  apply list_elem_of_split in Hk as (l1 & l2 & ->). exists l1, (l2 ++ (false, i) :: es2).
  split; [by rewrite <- app_assoc|]. apply elem_of_app. right. left.
Qed.

Lemma linearization_rest es s i σ : linearization Step inp out es s (i :: σ) →
  ∃ s', Step s (inp i) (out i) = Done (true, s') ∧ linearization Step inp out (without i es) s' σ.
Proof.
  intros (Hnd & Hids & (s' & Hs & Hl) & Hresp). apply NoDup_cons in Hnd as [Hi Hnd].
  exists s'. split; [done|]. split_and!; [done| |done|].
  - intros j. rewrite elem_of_without, <- Hids, elem_of_cons. simpl. naive_solver.
  - intros σ1 j σ2 k -> Hk Hp. apply (Hresp (i :: σ1) j σ2 k); [done..|].
    apply (precedes_without i); [| |done].
    + intros ->. apply Hi, elem_of_app. right. by right.
    + intros ->. apply Hi, elem_of_app. right. left.
Qed.

Lemma linearization_cons es1 i es2 s s' σ :
  wf (es1 ++ (false, i) :: es2) → Forall (λ e, e.1 = false) es1 →
  Step s (inp i) (out i) = Done (true, s') →
  linearization Step inp out (without i (es1 ++ (false, i) :: es2)) s' σ →
  linearization Step inp out (es1 ++ (false, i) :: es2) s (i :: σ).
Proof.
  intros Hwf Hc Hs (Hnd & Hids & Hl & Hresp).
  assert (i ∉ σ) as Hi by (rewrite Hids, elem_of_without; naive_solver).
  split_and!; [by apply NoDup_cons| |by simpl; eauto|].
  - intros j. rewrite elem_of_cons, Hids, elem_of_without. simpl.
    destruct (decide (j = i)) as [->|]; [|tauto].
    split; [intros _|tauto]. apply elem_of_app. right. left.
  - intros σ1 j σ2 k Heq Hk. destruct σ1 as [|x σ1]; simplify_eq/=.
    + intros (l1 & l2 & Hes & Hj). rewrite Forall_forall in Hc.
      apply app_eq_inv in Hes as [(l & -> & Hes)|(l & -> & Hes)].
      * destruct l as [|e l]; simplify_eq/=. enough ((true, k).1 = false) by done. apply Hc.
        apply elem_of_app. right. left.
      * destruct l as [|e l]; simplify_eq/=.
        destruct Hwf as [Hnd' _ _]. apply NoDup_app in Hnd' as (_ & _ & Hnd').
        apply NoDup_cons in Hnd' as [Hn _]. apply Hn, elem_of_app. right. by right.
    + intros Hp. apply (Hresp σ1 j σ2 k); [done..|]. apply precedes_without; [| |done].
      * intros ->. apply Hi, elem_of_app. right. by right.
      * intros ->. apply Hi, elem_of_app. right. left.
Qed.

Lemma lin_iff es s σ : wf es → lin Step inp out es s σ ↔ linearization Step inp out es s σ.
Proof.
  intros Hwf. split.
  - intros Hl. revert Hwf. induction Hl as [s|es1 i es2 s s' σ Hc Hs Hl IH]; intros Hwf.
    + split_and!; [constructor| |done|].
      * intros i. split; intros ?%not_elem_of_nil; done.
      * intros [|] ????; done.
    + eapply linearization_cons; [done..|]. by apply IH, wf_without.
  - revert es s Hwf. induction σ as [|i σ IH]; intros es s Hwf Hl.
    + destruct Hl as (_ & Hids & _). rewrite (wf_no_calls es Hwf); [constructor|].
      intros i Hi. by apply Hids, not_elem_of_nil in Hi.
    + destruct (linearization_first _ _ _ _ Hwf Hl) as (es1 & es2 & -> & Hc).
      destruct (linearization_rest _ _ _ _ Hl) as (s' & Hs & Hl').
      econstructor; [done..|]. apply IH; [by apply wf_without|done].
Qed.

End agree.
End lin.
