(* ===== verification/PorcupineSearch.v ===== *)
(** * The search of [checkSingle]

    [makeLinkedEntries] represents a well-formed history; the loop of
    [checkSingle] then is a depth-first search over the linearizations of the
    operations still in the list.  The main lemma [explore] follows the search
    below one configuration: it ends with a linearization, or comes back to the
    same configuration having refuted all of them; in both cases every partial
    linearization it passed has left sequences at least as long in [longest].  The cache is sound because
    an entry for a larger set than the current one can only be a refuted one. *)

From S2P Require Import Prelude Bitset Porcupine PorcupineList Linearizability.

Module psearch.
Import plist.

Notation ev := (bool * Z)%type.

Definition ev_of {V} (e : entry V) : ev := (e_kind e, e_id e).

(** The address of the node of an event: entries are allocated from the last
    to the first. *)
Fixpoint addr (es : list ev) (e : ev) : nat :=
  match es with
  | [] => 0
  | x :: es' => if decide (x = e) then length es' else addr es' e
  end.

Lemma addr_lt es e : e ∈ es → addr es e < length es.
Proof.
  induction es as [|x es IH]; simpl; [by intros ?%not_elem_of_nil|].
  intros Hin. case_decide; [lia|]. apply elem_of_cons in Hin as [->|Hin]; [done|].
  specialize (IH Hin). lia.
Qed.

Lemma addr_inj es e e' : e ∈ es → e' ∈ es → addr es e = addr es e' → e = e'.
Proof.
  induction es as [|x es IH]; simpl; [by intros ?%not_elem_of_nil|].
  intros H1 H2. apply elem_of_cons in H1, H2. case_decide as D1; case_decide as D2; [congruence|..].
  - intros Heq. destruct H2 as [->|H2]; [done|]. apply addr_lt in H2. lia.
  - intros Heq. destruct H1 as [->|H1]; [done|]. apply addr_lt in H1. lia.
  - destruct H1 as [->|H1], H2 as [->|H2]; try done. by apply IH.
Qed.

Lemma addr_cons_ne x es e : x ≠ e → addr (x :: es) e = addr es e.
Proof. intros. simpl. by rewrite decide_False. Qed.

Lemma addr_map_cons x es : x ∉ es →
  addr (x :: es) <$> x :: es = length es :: (addr es <$> es).
Proof.
  intros Hx. rewrite fmap_cons. simpl. rewrite decide_True by done. f_equal.
  apply list_fmap_ext. intros i e He. rewrite decide_False; [done|].
  intros ->. apply Hx. by eapply list_elem_of_lookup_2.
Qed.

Lemma NoDup_addr es l : NoDup l → (∀ e, e ∈ l → e ∈ es) → NoDup (addr es <$> l).
Proof.
  induction l as [|x l IH]; intros Hnd Hsub; [constructor|].
  apply NoDup_cons in Hnd as [Hx Hnd]. rewrite fmap_cons. apply NoDup_cons. split.
  - intros (y & Heq & Hy)%list_elem_of_fmap. apply addr_inj in Heq as ->; [done|apply Hsub; by left|].
    apply Hsub. by right.
  - apply IH; [done|]. intros e He. apply Hsub. by right.
Qed.

Section linked.
Context {V : Type}.
Implicit Types (h : heap V) (entries : list (entry V)).

(** The fields of nodes that never change. *)
Definition node_for h (es : list ev) (e : entry V) : Prop :=
  ∃ n, h !! addr es (ev_of e) = Some n ∧ value n = e_value e ∧ id n = e_id e ∧
    match_ n = if e_kind e then None else Some (addr es (true, e_id e)).

Lemma node_for_static h h' es e : same_static h h' → node_for h es e → node_for h' es e.
Proof.
  intros Hst (n & Hn & Hv & Hi & Hm).
  destruct (same_static_lookup _ _ _ _ Hst Hn) as (n' & ? & ? & ? & ?).
  exists n'. split_and!; congruence.
Qed.

(** [makeLinkedEntries_loop] returned a list for [entries]. *)
Record built entries h (root : option nat) (mt : gmap Z nat) : Prop := {
  bt_len : length h = length entries;
  bt_root : root = first (addr (ev_of <$> entries) <$> (ev_of <$> entries)) None;
  bt_seg : seg h None (addr (ev_of <$> entries) <$> (ev_of <$> entries)) None;
  bt_nodes : ∀ e, e ∈ entries → node_for h (ev_of <$> entries) e;
  bt_match : ∀ i, mt !! i = if decide ((true, i) ∈ ev_of <$> entries)
                            then Some (addr (ev_of <$> entries) (true, i)) else None;
}.

(** Allocating a node and inserting it at the front. *)
Lemma built_cons entries h root mt x m :
  built entries h root mt → ev_of x ∉ ev_of <$> entries → NoDup (ev_of <$> entries) →
  lin.calls_matched (ev_of <$> x :: entries) →
  m = (if e_kind x then None else mt !! e_id x) →
  ∃ h', checker.insertBefore (h ++ [MkNode V (e_value x) m (e_id x) None None]) (length h) root
        = Done h' ∧
    built (x :: entries) h' (Some (length h))
      (if e_kind x then <[e_id x := length h]> mt else mt).
Proof.
  intros [Hlen Hroot Hseg Hnodes Hmt] Hx Hnd Hcm Hm.
  set (es := ev_of <$> entries) in *. set (nx := MkNode V _ _ _ _ _).
  assert (∀ a, a ∈ addr es <$> es → a < length h) as Hlt.
  { intros a (e & -> & He)%list_elem_of_fmap. apply addr_lt in He.
    unfold es in He at 2. rewrite length_fmap in He. lia. }
  assert (addr es <$> es = addr es <$> es) as _ by done.
  destruct (insertBefore_front (h ++ [nx]) (length h) nx (addr es <$> es))
    as (h' & Hins & Hseg' & Hst & Hlen').
  - eapply seg_ext; [|exact Hseg]. intros a Ha. apply lookup_app_l. by apply Hlt.
  - by rewrite list_lookup_middle.
  - done.
  - done.
  - intros ?%Hlt. lia.
  - by apply NoDup_addr.
  - rewrite <- Hroot in Hins. exists h'. split; [done|].
    assert (length h = length es) as Hle by (unfold es; by rewrite length_fmap).
    rewrite length_app in Hlen'. simpl in Hlen'.
    assert (ev_of <$> x :: entries = ev_of x :: es) as Hfm by done. rewrite Hfm in Hcm.
    assert (∀ e, e ∈ es → addr (ev_of x :: es) e = addr es e) as Hold.
    { intros e He. apply addr_cons_ne. by intros <-. }
    split; rewrite ?Hfm; clear Hfm.
    + simpl. rewrite Hlen', Hlen. lia.
    + rewrite addr_map_cons by done. simpl. congruence.
    + rewrite addr_map_cons by done. by rewrite <- Hle.
    + intros e He. eapply node_for_static; [exact Hst|].
      apply elem_of_cons in He as [->|He].
      * exists nx. simpl. rewrite decide_True by done. rewrite <- Hle.
        split_and!; [by rewrite list_lookup_middle|done..|]. simpl. rewrite Hm.
        destruct (e_kind x) eqn:Ek; [done|]. rewrite Hmt.
        assert ((true, e_id x) ∈ es) as Hin.
        { apply (Hcm [] (e_id x) es). unfold ev_of. by rewrite Ek. }
        rewrite decide_True by done. f_equal. rewrite decide_False; [done|].
        unfold ev_of. by rewrite Ek.
      * destruct (Hnodes e He) as (n & Hn & Hv & Hi & Hmm).
        assert (ev_of e ∈ es) as He' by (by apply list_elem_of_fmap_2).
        exists n. rewrite Hold by done. split_and!; [|done|done|].
        -- rewrite lookup_app_l; [done|]. by eapply lookup_lt_Some.
        -- rewrite Hmm. destruct (e_kind e) eqn:Ek; [done|]. f_equal. symmetry. apply Hold.
           apply list_elem_of_split in He as (k1 & k2 & ->).
           specialize (Hcm (ev_of x :: (ev_of <$> k1)) (e_id e) (ev_of <$> k2)).
           unfold es. rewrite fmap_app, fmap_cons. apply elem_of_app. right. right. apply Hcm.
           unfold es. rewrite fmap_app, fmap_cons. simpl. unfold ev_of at 3. by rewrite Ek.
    + intros i. specialize (Hmt i). destruct (e_kind x) eqn:Ek.
      * assert (ev_of x = (true, e_id x)) as Hev by (unfold ev_of; by rewrite Ek).
        destruct (decide (i = e_id x)) as [->|Hi].
        -- rewrite lookup_insert_eq, decide_True by (rewrite Hev; left). simpl.
           by rewrite decide_True, Hle.
        -- rewrite lookup_insert_ne by done. rewrite Hmt, addr_cons_ne by congruence.
           apply decide_ext. rewrite elem_of_cons, Hev. naive_solver.
      * assert (ev_of x = (false, e_id x)) as Hev by (unfold ev_of; by rewrite Ek).
        rewrite Hmt, addr_cons_ne by congruence. apply decide_ext.
        rewrite elem_of_cons, Hev. naive_solver.
Qed.

Lemma makeLinkedEntries_spec entries :
  NoDup (ev_of <$> entries) → lin.calls_matched (ev_of <$> entries) →
  ∃ h root mt, checker.makeLinkedEntries_loop entries = Done (h, root, mt) ∧
    built entries h root mt.
Proof.
  induction entries as [|x entries IH]; intros Hnd Hcm.
  - exists [], None, ∅. split; [done|]. split; try done.
    intros e ?%not_elem_of_nil. done.
  - rewrite fmap_cons in Hnd. apply NoDup_cons in Hnd as [Hx Hnd].
    destruct IH as (h & root & mt & Heq & Hb); [done| |].
    { intros l1 i l2 Hes. apply (Hcm (ev_of x :: l1)). rewrite fmap_cons, Hes. done. }
    destruct (built_cons entries h root mt x _ Hb Hx Hnd Hcm eq_refl) as (h' & Hins & Hb').
    simpl. rewrite Heq. simpl. unfold returnEntry. destruct (e_kind x); simpl in *;
      rewrite Hins; simpl; eauto.
Qed.

Lemma length_loop_spec h pv l k : seg h pv l None →
  checker.length_loop (length l) h (first l None) k = Some (Done (k + zlen l)%Z).
Proof.
  revert pv k. induction l as [|a l IH]; intros pv k; simpl.
  - intros _. unfold zlen. simpl. by rewrite Z.add_0_r.
  - intros [(n & Ha & _ & Hn) Hl]. rewrite (load_Some _ _ _ Ha), Hn, (IH _ _ Hl).
    unfold zlen. simpl. do 2 f_equal. lia.
Qed.

End linked.

(** ** What the search assumes of a model *)

(** [Equal] relates states only if the second accepts whatever the first
    accepts; equality is the common case. *)
Definition equal_sound {V St} (model : Model V St) : Prop :=
  ∃ (eq : St → St → bool) (R : St → St → Prop), Equal model = Some eq ∧
    (∀ s t, eq s t = true → R s t) ∧
    (∀ s t i o s', R s t → Step model s i o = Done (true, s') →
       ∃ t', Step model t i o = Done (true, t') ∧ R s' t').

Lemma equal_sound_lin {V St} (model : Model V St) inp out (R : St → St → Prop) es s t σ :
  (∀ s t i o s', R s t → Step model s i o = Done (true, s') →
     ∃ t', Step model t i o = Done (true, t') ∧ R s' t') →
  R s t → lin.lin (Step model) inp out es s σ → lin.lin (Step model) inp out es t σ.
Proof.
  intros Hsim HR Hl. revert t HR. induction Hl as [s|es1 i es2 s s' σ Hc Hs Hl IH]; intros t HR.
  - constructor.
  - destruct (Hsim _ _ _ _ _ HR Hs) as (t' & Ht & HR'). econstructor; eauto.
Qed.

(** ** The value of an event *)
Definition val_of {V} `{GoNil V} (history : list (entry V)) (e : ev) : V :=
  match list_find (λ x, ev_of x = e) history with
  | Some (_, x) => e_value x
  | None => nil_value
  end.

Lemma val_of_entry {V} `{GoNil V} (history : list (entry V)) x :
  NoDup (ev_of <$> history) → x ∈ history → val_of history (ev_of x) = e_value x.
Proof.
  intros Hnd Hx. unfold val_of.
  destruct (list_find (λ y, ev_of y = ev_of x) history) as [[k y]|] eqn:E.
  - apply list_find_Some in E as (Hy & Heq & _).
    apply list_elem_of_lookup in Hx as [j Hj].
    assert (k = j) as ->; [|by simplify_eq].
    eapply (NoDup_lookup (ev_of <$> history)); [done|..]; rewrite list_lookup_fmap.
    + by rewrite Hy.
    + rewrite Hj. simpl. congruence.
  - apply list_find_None in E. rewrite Forall_forall in E. by apply E in Hx.
Qed.

Section search.
Context {V St : Type} `{GoNil V} (model : Model V St) (cp : bool) (history : list (entry V)).

Definition es0 : list ev := ev_of <$> history.
Definition ad (e : ev) : nat := addr es0 e.
Definition hd_addr : nat := length history.
Definition nops : Z := (zlen history ÷ 2)%Z.
Definition inp (i : Z) : V := val_of history (false, i).
Definition out (i : Z) : V := val_of history (true, i).

Context (Hwf : lin.wf es0).
Context (Hids : ∀ i, (false, i) ∈ es0 → (0 ≤ i < nops)%Z).
Context (Hstep : ∀ s i, (false, i) ∈ es0 → ∃ ok s', Step model s (inp i) (out i) = Done (ok, s')).
Context (Heq : equal_sound model).

Implicit Types (X Y : gset Z) (st : checker.search V St) (s : St).

(** The events of the operations not in [X]. *)
Definition rest X : list ev := filter (λ e, e.2 ∉ X) es0.

(** No linearization continues from here. *)
Definition dead X s : Prop := ∀ σ, ¬ lin.lin (Step model) inp out (rest X) s σ.

Definition nodes_ok (h : heap V) : Prop :=
  ∀ k i, (k, i) ∈ es0 → ∃ n, h !! ad (k, i) = Some n ∧ value n = val_of history (k, i) ∧
    id n = i ∧ match_ n = if k then None else Some (ad (true, i)).

(** A bitset of [checkSingle] that denotes [X]. *)
Definition bits (b : list Z) X : Prop :=
  bitset.denotes b X ∧ length b = length (bitset.newBitset nops).

Definition cached (cache : gmap Z (list (checker.cacheEntry St))) Y s : Prop :=
  ∃ k l ce, cache !! k = Some l ∧ ce ∈ l ∧ bits (checker.ce_linearized ce) Y ∧
    checker.ce_state ce = s.

(** The operations of [suf] called before its first return. *)
Fixpoint candidates (suf : list ev) : list Z :=
  match suf with
  | (false, i) :: suf' => i :: candidates suf'
  | _ => []
  end.

(** Partial linearizations lead from [X] in state [s] to [Y] in state [t]. *)
Inductive preach : gset Z → St → gset Z → St → Prop :=
  | preach_refl X s : preach X s X s
  | preach_step X s i s' Y t : i ∈ candidates (rest X) → Step model s (inp i) (out i) = Done (true, s') →
      preach (X ∪ {[i]}) s' Y t → preach X s Y t.

(** [longest] has a sequence of at least [k] operations for [i]. *)
Definition recorded (longest : list (option nat)) (seqs : list (list Z)) (i : Z) (k : nat) : Prop :=
  ∃ p σ, longest !! Z.to_nat i = Some (Some p) ∧ seqs !! p = Some σ ∧ k ≤ length σ.

(** Every partial linearization through [X] and [s] is recorded for its operations,
    or a longer one is. *)
Definition finished longest seqs X s : Prop := cp = true → ∀ Y t, preach X s Y t →
  ∀ i, i ∈ Y → recorded longest seqs i (size Y).

(** Nothing is left to be found below [X] in state [s]. *)
Definition over longest seqs X s : Prop := dead X s ∧ finished longest seqs X s.

(** What was recorded is still recorded. *)
Definition keeps (longest : list (option nat)) (seqs : list (list Z)) longest' seqs' : Prop :=
  ∀ i k, recorded longest seqs i k → recorded longest' seqs' i k.

(** What the cache says about sets larger than [k] elements is refuted. *)
Definition refuted_above (cache : gmap Z (list (checker.cacheEntry St))) longest seqs (k : nat) : Prop :=
  ∀ Y s, cached cache Y s → k < size Y → over longest seqs Y s.

(** The operations on the stack are those of [X]. *)
Definition stack X (calls : list (checker.callsEntry St)) : Prop :=
  ∃ ids, NoDup ids ∧ (∀ i, i ∈ ids ↔ i ∈ X) ∧
    checker.c_entry <$> calls = (λ i, Some (ad (false, i))) <$> ids.

Definition call_ok (c : checker.callsEntry St) : Prop :=
  ∃ i, (false, i) ∈ es0 ∧ checker.c_entry c = Some (ad (false, i)).

(** The configuration of the search after linearizing [X]. *)
Record cfg X st : Prop := {
  cfg_sub : ∀ i, i ∈ X → (false, i) ∈ es0;
  cfg_seg : seg (checker.sr_heap st) None (hd_addr :: (ad <$> rest X)) None;
  cfg_nodes : nodes_ok (checker.sr_heap st);
  cfg_bits : bits (checker.sr_linearized st) X;
  cfg_calls : stack X (checker.sr_calls st);
  cfg_longest : zlen (checker.sr_longest st) = nops;
}.

(** Some iterations of the loop lead from [st] to [st']. *)
Definition steps st st' : Prop :=
  ∃ k, ∀ fuel j, ∃ j',
    checker.checkSingle_loop (k + fuel) j checker.never model cp nops hd_addr st =
    checker.checkSingle_loop fuel j' checker.never model cp nops hd_addr st'.

#[global] Instance steps_preorder : PreOrder steps.
Proof.
  split.
  - intros st. exists 0. intros fuel j. by exists j.
  - intros st1 st2 st3 [k1 H1] [k2 H2]. exists (k1 + k2). intros fuel j.
    destruct (H1 (k2 + fuel) j) as [j1 E1]. destruct (H2 fuel j1) as [j2 E2]. exists j2.
    by rewrite <- Nat.add_assoc, E1.
Qed.

(** *** Operations and their events *)

Lemma rest_in X e : e ∈ rest X ↔ e.2 ∉ X ∧ e ∈ es0.
Proof. unfold rest. by rewrite list_elem_of_filter. Qed.

Lemma rest_wf X : lin.wf (rest X).
Proof. exact (lin.wf_filter (λ i, i ∉ X) es0 Hwf). Qed.

Lemma rest_without X i : lin.without i (rest X) = rest (X ∪ {[i]}).
Proof.
  unfold lin.without, rest. rewrite list_filter_filter. apply list_filter_iff. set_solver.
Qed.

Lemma rest_split X pre i suf : rest X = pre ++ (false, i) :: suf →
  ∃ l2 l3, suf = l2 ++ (true, i) :: l3 ∧ rest (X ∪ {[i]}) = pre ++ l2 ++ l3.
Proof.
  intros Hr. pose proof (rest_wf X) as [Hnd Hm _]. rewrite Hr in Hnd, Hm.
  destruct (list_elem_of_split _ _ (Hm _ _ _ eq_refl)) as (l2 & l3 & ->).
  exists l2, l3. split; [done|]. rewrite <- rest_without, Hr.
  assert (∀ l, (false, i) ∉ l → (true, i) ∉ l → lin.without i l = l) as Hid.
  { intros l H1 H2. unfold lin.without. induction l as [|[k j] l IH]; [done|].
    rewrite not_elem_of_cons in H1, H2. destruct H1 as [H1 H1'], H2 as [H2 H2'].
    rewrite filter_cons_True; [by rewrite IH|]. simpl. intros ->. by destruct k. }
  apply NoDup_app in Hnd as (_ & Hd1 & Hnd). apply NoDup_cons in Hnd as [Hc Hnd].
  apply NoDup_app in Hnd as (_ & Hd2 & Hnd). apply NoDup_cons in Hnd as [Ht _].
  rewrite elem_of_app, elem_of_cons in Hc.
  rewrite lin.without_app. unfold lin.without at 2. rewrite filter_cons_False by naive_solver.
  fold (lin.without i (l2 ++ (true, i) :: l3)). rewrite lin.without_app. unfold lin.without at 3.
  rewrite filter_cons_False by naive_solver. fold (lin.without i l3).
  rewrite !Hid; [done|tauto|done|tauto| | |].
  - intros Hx. apply (Hd2 _ Hx). left.
  - intros Hx. apply (Hd1 _ Hx). left.
  - intros Hx. apply (Hd1 _ Hx). right. apply elem_of_app. right. left.
Qed.

Lemma call_in_rest X pre i suf : rest X = pre ++ (false, i) :: suf →
  i ∉ X ∧ (false, i) ∈ es0 ∧ (true, i) ∈ es0.
Proof.
  intros Hr. assert ((false, i) ∈ rest X) as [Hi Hin]%rest_in.
  { rewrite Hr. apply elem_of_app. right. left. }
  split_and!; [done..|]. apply list_elem_of_split in Hin as (l1 & l2 & Hes).
  rewrite Hes. apply elem_of_app. right. right. by eapply (lin.wf_matched _ Hwf).
Qed.

Lemma NoDup_addresses X : NoDup (hd_addr :: (ad <$> rest X)).
Proof.
  apply NoDup_cons. split.
  - intros (e & Hx & [_ He]%rest_in)%list_elem_of_fmap. apply addr_lt in He.
    unfold es0 in He at 2. rewrite length_fmap in He. unfold hd_addr, ad in Hx. lia.
  - apply NoDup_addr; [apply (lin.wf_nodup _ (rest_wf X))|]. by intros e [_ ?]%rest_in.
Qed.

(** *** The bitset of linearized operations *)

Lemma nops_nonneg : (0 ≤ nops)%Z.
Proof. unfold nops. apply Z.quot_pos; [apply zlen_nonneg|lia]. Qed.

Lemma bits_in_range b X i : bits b X → (0 ≤ i < nops)%Z → bitset.in_range b i.
Proof.
  intros [_ Hlen] Hi. unfold bitset.in_range, zlen. rewrite Hlen.
  pose proof (bitset.newBitset_chunks nops nops_nonneg) as Hc. unfold zlen in Hc. lia.
Qed.

Lemma bits_set b X i : bits b X → (0 ≤ i < nops)%Z →
  ∃ b', bitset.set b i = Done b' ∧ bits b' (X ∪ {[i]}).
Proof.
  intros Hb Hi. pose proof (bits_in_range _ _ _ Hb Hi) as Hr. destruct Hb as [Hb Hlen].
  destruct (bitset.set_denotes _ _ _ Hb Hr) as (b' & ? & ? & ?).
  exists b'. split; [done|]. split; congruence.
Qed.

Lemma bits_clear b b' X i : bits b X → bits b' (X ∪ {[i]}) → i ∉ X → (0 ≤ i < nops)%Z →
  bitset.clear b' i = Done b.
Proof.
  intros [Hb Hl] Hb' Hi Hn. pose proof (bits_in_range _ _ _ Hb' Hn) as Hr.
  destruct Hb' as [Hb' Hl']. destruct (bitset.clear_denotes _ _ _ Hb' Hr) as (b'' & -> & Hl'' & Hd).
  f_equal. apply (bitset.denotes_inj _ _ X); [congruence| |done].
  by replace X with ((X ∪ {[i]}) ∖ {[i]}) by (clear -Hi; set_solver).
Qed.

(** *** The cache *)

Lemma cacheContains_loop_spec eq ce l : Equal model = Some eq →
  ∃ hit, checker.cacheContains_loop model ce l = Done hit ∧
    (hit = true → ∃ ce', ce' ∈ l ∧ checker.ce_linearized ce = checker.ce_linearized ce' ∧
       eq (checker.ce_state ce) (checker.ce_state ce') = true).
Proof.
  intros He. induction l as [|c l (hit & IH & Hhit)]; [by exists false|]. simpl.
  unfold checker.call_Equal. rewrite He.
  destruct (bitset.equals _ _) eqn:Eb; simpl; [destruct (eq _ _) eqn:Ee|].
  - exists true. split; [done|]. intros _. exists c. apply bitset.equals_eq in Eb.
    split_and!; [left|done..].
  - exists hit. split; [done|]. intros (ce' & ? & ?)%Hhit. exists ce'. split; [by right|done].
  - exists hit. split; [done|]. intros (ce' & ? & ?)%Hhit. exists ce'. split; [by right|done].
Qed.

(** [Equal] holds of two states. *)
Definition same_state s t : Prop := ∃ eq, Equal model = Some eq ∧ eq s t = true.

Lemma preach_same (R : St → St → Prop) X s Y s2 t :
  (∀ s t i o s', R s t → Step model s i o = Done (true, s') →
     ∃ t', Step model t i o = Done (true, t') ∧ R s' t') →
  R s t → preach X s Y s2 → ∃ t2, preach X t Y t2.
Proof.
  intros Hsim HR Hp. revert t HR. induction Hp as [X s|X s i s' Y s2 Hi Hs Hp IH]; intros t HR.
  - exists t. constructor.
  - destruct (Hsim _ _ _ _ _ HR Hs) as (t' & Ht & HR'). destruct (IH t' HR') as [t2 Ht2].
    exists t2. by econstructor.
Qed.

Lemma over_same longest seqs X s t : same_state s t → over longest seqs X t → over longest seqs X s.
Proof.
  destruct Heq as (eq & R & He & HR & Hsim). intros (eq' & He' & Hst) [Hd Hf]. simplify_eq. split.
  - intros σ Hl. apply (Hd σ). eapply equal_sound_lin; [exact Hsim|by apply HR|done].
  - intros Hcp Y s2 Hp. destruct (preach_same R X s Y s2 t Hsim (HR _ _ Hst) Hp) as [t2 Ht2]. by eapply Hf.
Qed.

Lemma keeps_self longest seqs : keeps longest seqs longest seqs.
Proof. by intros i k. Qed.

Lemma keeps_trans lg sq lg' sq' lg'' sq'' : keeps lg sq lg' sq' → keeps lg' sq' lg'' sq'' → keeps lg sq lg'' sq''.
Proof. intros H1 H2 i k Hr. by apply H2, H1. Qed.

Lemma over_keeps longest seqs longest' seqs' X s :
  keeps longest seqs longest' seqs' → over longest seqs X s → over longest' seqs' X s.
Proof. intros Hk [Hd Hf]. split; [done|]. intros Hcp Y t Hp i Hi. by eapply Hk, Hf. Qed.

Lemma cacheContains_spec cache b X s : bits b X →
  ∃ hit, checker.cacheContains model cache (checker.MkCacheEntry St b s) = Done hit ∧
    (hit = true → ∃ t, cached cache X t ∧ same_state s t).
Proof.
  destruct Heq as (eq & R & He & _ & _). intros Hb.
  destruct (cacheContains_loop_spec eq (checker.MkCacheEntry St b s)
    (default [] (cache !! bitset.hash b)) He) as (hit & Hl & Hhit).
  exists hit. split; [exact Hl|]. intros (ce & Hin & Hbits & Hs)%Hhit.
  destruct (cache !! bitset.hash b) as [l|] eqn:El; [|by apply not_elem_of_nil in Hin].
  simpl in Hin, Hbits, Hs. exists (checker.ce_state ce). split; [|by exists eq].
  exists (bitset.hash b), l, ce. rewrite <- Hbits. done.
Qed.

(** An entry added to the cache is the only new one. *)
Lemma cached_add cache b Y s Y' s' : bits b Y →
  cached (<[bitset.hash b := default [] (cache !! bitset.hash b) ++ [checker.MkCacheEntry St b s]]> cache) Y' s' →
  cached cache Y' s' ∨ (Y' = Y ∧ s' = s).
Proof.
  intros Hb (k & l & ce & Hk & Hin & Hb' & Hs').
  destruct (decide (k = bitset.hash b)) as [->|Hne].
  - rewrite lookup_insert_eq in Hk. simplify_eq.
    apply elem_of_app in Hin as [Hin|Hin%list_elem_of_singleton].
    + left. destruct (cache !! bitset.hash b) as [l|] eqn:El; [|by apply not_elem_of_nil in Hin].
      by exists (bitset.hash b), l, ce.
    + right. subst ce. simpl in *. split; [|done]. destruct Hb as [[_ Hb] _], Hb' as [[_ Hb'] _].
      apply set_eq. intros x. by rewrite Hb, Hb'.
  - rewrite lookup_insert_ne in Hk by done. left. by exists k, l, ce.
Qed.

(** *** The partial linearizations *)

Lemma call_ids_spec h ids calls : nodes_ok h → Forall (λ i, (false, i) ∈ es0) ids →
  checker.c_entry <$> calls = (λ i, Some (ad (false, i))) <$> ids →
  checker.call_ids (S := St) h calls = Done ids.
Proof.
  intros Hn. revert calls. induction ids as [|i ids IH]; intros [|c calls] Hi Hc; simplify_eq/=; [done|].
  apply Forall_cons in Hi as [Hi Hids']. destruct (Hn false i Hi) as (n & Hl & _ & Hid & _).
  replace (checker.c_entry c) with (Some (ad (false, i))). rewrite (load_Some _ _ _ Hl). simpl.
  rewrite (IH calls) by done. simpl. by rewrite Hid.
Qed.

Lemma calls_ok_ids (calls : list (checker.callsEntry St)) : Forall call_ok calls →
  ∃ ids, Forall (λ i, (false, i) ∈ es0) ids ∧
    checker.c_entry <$> calls = (λ i, Some (ad (false, i))) <$> ids.
Proof.
  induction 1 as [|c calls (i & Hi & Hc) _ (ids & Hids' & Heqs)].
  - exists []. done.
  - exists (i :: ids). split; [by constructor|]. by rewrite !fmap_cons, Hc, Heqs.
Qed.

Lemma stack_ok X calls : (∀ i, i ∈ X → (false, i) ∈ es0) → stack X calls → Forall call_ok calls.
Proof.
  intros HX (ids & _ & Hids' & Heqs). apply Forall_forall. intros c Hc.
  assert (checker.c_entry c ∈ checker.c_entry <$> calls) as Hin by (by apply list_elem_of_fmap_2).
  rewrite Heqs in Hin. apply list_elem_of_fmap in Hin as (i & Hce & Hi). exists i. split; [|done]. by apply HX, Hids'.
Qed.

Lemma stack_snoc X calls i s : i ∉ X → stack X calls →
  stack (X ∪ {[i]}) (calls ++ [checker.MkCallsEntry St (Some (ad (false, i))) s]).
Proof.
  intros Hi (ids & Hnd & Hids' & Heqs). exists (ids ++ [i]). split_and!.
  - apply NoDup_app. split_and!; [done| |apply NoDup_singleton].
    intros x Hx ->%list_elem_of_singleton. by apply Hi, Hids'.
  - intros j. rewrite elem_of_app, list_elem_of_singleton, Hids', elem_of_union, elem_of_singleton. done.
  - by rewrite !fmap_app, Heqs.
Qed.

Lemma stack_size X ids : NoDup ids → (∀ i, i ∈ ids ↔ i ∈ X) → length ids = size X.
Proof.
  intros Hnd Hids'. rewrite <- (size_list_to_set (C := gset Z)) by done. f_equal. apply set_eq. intros i.
  by rewrite elem_of_list_to_set.
Qed.

(** One entry of [longest] set to the sequence [p] of [k] operations. *)
Lemma recorded_set longest seqs seqs' j p σ : (0 ≤ j < zlen longest)%Z → seqs' !! p = Some σ →
  (∀ q τ, seqs !! q = Some τ → seqs' !! q = Some τ) →
  (∀ k, recorded longest seqs j k → k ≤ length σ) →
  keeps longest seqs (<[Z.to_nat j := Some p]> longest) seqs' ∧
  recorded (<[Z.to_nat j := Some p]> longest) seqs' j (length σ).
Proof.
  intros Hj Hp Hq Hle. unfold zlen in Hj.
  assert (<[Z.to_nat j := Some p]> longest !! Z.to_nat j = Some (Some p)) as Hat by (apply list_lookup_insert_eq; lia).
  split; [|by exists p, σ]. intros i k Hr. destruct (decide (Z.to_nat i = Z.to_nat j)) as [E|Hne].
  - exists p, σ. rewrite E. split_and!; [done..|]. apply Hle. unfold recorded in *. by rewrite <- E.
  - destruct Hr as (q & τ & Hl & Hs & Hk). exists q, τ. rewrite list_lookup_insert_ne by done. auto.
Qed.

(** The [computePartial] block records the stack for each of its operations. *)
Lemma partial_loop_records h calls ids : nodes_ok h → length calls = length ids → 0 < length ids →
  checker.call_ids (S := St) h calls = Done ids →
  ∀ todo ids' seq longest seqs longest' seqs', Forall (λ i, (false, i) ∈ es0) ids' →
  checker.c_entry <$> todo = (λ i, Some (ad (false, i))) <$> ids' → zlen longest = nops →
  (∀ p, seq = Some p → seqs !! p = Some ids) →
  checker.partial_loop h calls seq todo longest seqs = Done (longest', seqs') →
  keeps longest seqs longest' seqs' ∧ ∀ i, i ∈ ids' → recorded longest' seqs' i (length ids).
Proof.
  intros Hn Hlen Hpos Hids' todo. induction todo as [|c todo IH];
    intros [|i ids'] seq longest seqs longest' seqs' Hi Hc Hl Hseq Hp; simplify_eq/=.
  { split; [by intros i k|by intros i ?%not_elem_of_nil]. }
  apply Forall_cons in Hi as [Hi Hall]. destruct (Hn false i Hi) as (n & Hln & _ & Hid & _).
  pose proof (Hids i Hi) as Hrange. rewrite <- Hl in Hrange.
  replace (checker.c_entry c) with (Some (ad (false, i))) in Hp. rewrite (load_Some _ _ _ Hln) in Hp. simpl in Hp.
  rewrite Hid in Hp. destruct (idx_total longest i Hrange) as [l Hil]. rewrite Hil in Hp. simpl in Hp.
  apply idx_Done in Hil as [_ Hil].
  assert (∀ p seqs1, seqs1 !! p = Some ids → (∀ q τ, seqs !! q = Some τ → seqs1 !! q = Some τ) →
    checker.longer calls seqs l = true →
    keeps longest seqs (<[Z.to_nat i := Some p]> longest) seqs1 ∧
    recorded (<[Z.to_nat i := Some p]> longest) seqs1 i (length ids)) as Hset.
  { intros p seqs1 Hp1 Hq Hlong. apply recorded_set; [done..|]. intros k (q & τ & Hlq & Hsq & Hk).
    rewrite Hil in Hlq. simplify_eq. unfold checker.longer in Hlong. rewrite Hsq in Hlong. simpl in Hlong.
    apply Z.ltb_lt in Hlong. unfold zlen in Hlong. lia. }
  destruct (checker.longer calls seqs l) eqn:Hlong.
  - assert (∃ p seqs1, seqs1 !! p = Some ids ∧ (∀ q τ, seqs !! q = Some τ → seqs1 !! q = Some τ) ∧
      checker.partial_loop h calls (Some p) todo (<[Z.to_nat i := Some p]> longest) seqs1 = Done (longest', seqs'))
      as (p & seqs1 & Hp1 & Hq & Hrest).
    { assert (∀ p, set_idx longest i (Some p) = Done (<[Z.to_nat i := Some p]> longest)) as Hs
        by (intros p; by apply set_idx_Done).
      destruct seq as [p|]; simpl in Hp.
      - rewrite Hs in Hp. exists p, seqs. split_and!; [by apply Hseq|done|done].
      - rewrite Hids' in Hp. simpl in Hp. rewrite Hs in Hp. exists (length seqs), (seqs ++ [ids]).
        split_and!; [by rewrite list_lookup_middle| |done]. intros q τ Hq. by apply lookup_app_l_Some. }
    destruct (Hset p seqs1 Hp1 Hq eq_refl) as [Hk1 Hr1].
    destruct (IH ids' (Some p) _ _ _ _ Hall ltac:(done) ltac:(by rewrite zlen_insert) ltac:(by intros ? [= <-]) Hrest)
      as [Hk2 Hr2].
    split; [intros j k Hj; by apply Hk2, Hk1|]. intros j [->|Hj]%elem_of_cons; [by apply Hk2|by apply Hr2].
  - destruct (IH ids' seq _ _ _ _ Hall ltac:(done) Hl Hseq Hp) as [Hk Hr]. split; [done|].
    intros j [->|Hj]%elem_of_cons; [|by apply Hr]. apply Hk. unfold checker.longer in Hlong.
    destruct l as [q|]; [|done]. apply Z.ltb_ge in Hlong. unfold zlen in Hlong.
    destruct (seqs !! q) as [τ|] eqn:Hτ; simpl in Hlong; [|lia]. exists q, τ. split_and!; [done..|lia].
Qed.

Lemma partial_loop_total h calls seq todo longest seqs :
  nodes_ok h → Forall call_ok calls → Forall call_ok todo → zlen longest = nops →
  ∃ longest' seqs', checker.partial_loop (S := St) h calls seq todo longest seqs
      = Done (longest', seqs') ∧ zlen longest' = nops.
Proof.
  intros Hn Hc Ht. revert seq longest seqs.
  induction Ht as [|c todo (i & Hi & Hce) Ht IH]; intros seq longest seqs Hl; [by simpl; eauto|].
  simpl. destruct (Hn false i Hi) as (n & Hln & _ & Hid & _).
  rewrite Hce, (load_Some _ _ _ Hln). simpl. rewrite Hid.
  destruct (idx_total longest i) as [l Hil]; [rewrite Hl; by apply Hids|]. rewrite Hil. simpl.
  destruct (checker.longer calls seqs l); [|by apply IH].
  assert (∀ p, ∃ lg, set_idx longest i (Some p) = Done lg ∧ zlen lg = nops) as Hset.
  { intros p. exists (<[Z.to_nat i := Some p]> longest). split; [|by rewrite zlen_insert].
    apply set_idx_Done. split; [|done]. rewrite Hl. by apply Hids. }
  destruct seq as [p|]; simpl.
  - destruct (Hset p) as (lg & -> & ?). simpl. by apply IH.
  - destruct (calls_ok_ids _ Hc) as (ids & Hids' & Heqs).
    rewrite (call_ids_spec h ids calls) by done. simpl.
    destruct (Hset (length seqs)) as (lg & -> & ?). simpl. by apply IH.
Qed.

(** *** One iteration *)

Lemma head_next X st : cfg X st → ∃ n, heap.load (checker.sr_heap st) (Some hd_addr) = Done n ∧
  next n = first (ad <$> rest X) None.
Proof.
  intros Hc. pose proof (cfg_seg _ _ Hc) as [(n & Hn & _ & Hnx) _].
  exists n. split; [by apply load_Some|done].
Qed.

(** The node under the cursor. *)
Lemma cursor X st pre k i suf : cfg X st → rest X = pre ++ (k, i) :: suf →
  ∃ n, checker.sr_heap st !! ad (k, i) = Some n ∧ value n = val_of history (k, i) ∧ id n = i ∧
    match_ n = (if k then None else Some (ad (true, i))) ∧ next n = first (ad <$> suf) None.
Proof.
  intros Hc Hr. assert ((k, i) ∈ rest X) as [_ Hin]%rest_in.
  { rewrite Hr. apply elem_of_app. right. left. }
  destruct (cfg_nodes _ _ Hc k i Hin) as (n & Hn & Hv & Hi & Hm).
  pose proof (cfg_seg _ _ Hc) as Hs. rewrite Hr, fmap_app, fmap_cons, app_comm_cons in Hs.
  apply seg_at in Hs as (n' & Hn' & _ & Hnx). assert (n' = n) as -> by congruence. eauto 10.
Qed.

Lemma iterate_call X st pre i suf st' n :
  cfg X st → rest X = pre ++ (false, i) :: suf →
  checker.sr_entry st = Some (ad (false, i)) → checker.sr_heap st !! ad (false, i) = Some n →
  match_ n = Some (ad (true, i)) →
  checker.try_call model hd_addr n st = Done st' → steps st st'.
Proof.
  intros Hc Hr He Hn Hm Ht. exists 1. intros fuel j. exists (j + 1). simpl.
  destruct (head_next _ _ Hc) as (hd & -> & ->). rewrite Hr, fmap_app.
  assert (∃ a, first ((ad <$> pre) ++ (ad <$> (false, i) :: suf)) None = Some a) as [a ->]
    by (destruct pre; simpl; eauto).
  unfold checker.never at 1. by rewrite He, (load_Some _ _ _ Hn), Hm, Ht.
Qed.

Lemma iterate_return X st pre i suf st' n :
  cfg X st → rest X = pre ++ (true, i) :: suf →
  checker.sr_entry st = Some (ad (true, i)) → checker.sr_heap st !! ad (true, i) = Some n →
  match_ n = None →
  checker.backtrack cp st = Done (Some st') → steps st st'.
Proof.
  intros Hc Hr He Hn Hm Ht. exists 1. intros fuel j. exists (j + 1). simpl.
  destruct (head_next _ _ Hc) as (hd & -> & ->). rewrite Hr, fmap_app.
  assert (∃ a, first ((ad <$> pre) ++ (ad <$> (true, i) :: suf)) None = Some a) as [a ->]
    by (destruct pre; simpl; eauto).
  unfold checker.never at 1. by rewrite He, (load_Some _ _ _ Hn), Hm, Ht.
Qed.

(** [st] with another cursor, cache and partial linearizations. *)
Definition moved st entry cache longest seqs : checker.search V St :=
  checker.MkSearch V St (checker.sr_heap st) entry (checker.sr_linearized st) cache
    (checker.sr_calls st) longest seqs (checker.sr_state st).

Lemma cfg_moved X st entry cache longest seqs :
  cfg X st → zlen longest = nops → cfg X (moved st entry cache longest seqs).
Proof. by intros [????? _] ?. Qed.

(** [st] after linearizing the operation [i] under the cursor. *)
Definition pushed X i st h b s' : checker.search V St :=
  checker.MkSearch V St h (first (ad <$> rest (X ∪ {[i]})) None) b
    (<[bitset.hash b := default [] (checker.sr_cache st !! bitset.hash b)
                        ++ [checker.MkCacheEntry St b s']]> (checker.sr_cache st))
    (checker.sr_calls st ++ [checker.MkCallsEntry St (checker.sr_entry st) (checker.sr_state st)])
    (checker.sr_longest st) (checker.sr_seqs st) s'.

Lemma lin_rest_inv X s i σ : lin.lin (Step model) inp out (rest X) s (i :: σ) →
  ∃ s', Step model s (inp i) (out i) = Done (true, s') ∧
    lin.lin (Step model) inp out (rest (X ∪ {[i]})) s' σ.
Proof.
  intros Hl. rewrite <- rest_without. inversion Hl; subst. eauto.
Qed.

Lemma lift_cfg X st pre i suf n :
  cfg X st → rest X = pre ++ (false, i) :: suf → checker.sr_heap st !! ad (false, i) = Some n →
  match_ n = Some (ad (true, i)) →
  ∃ h, checker.lift (checker.sr_heap st) (Some (ad (false, i))) = Done h ∧
    seg h None (hd_addr :: (ad <$> rest (X ∪ {[i]}))) None ∧ nodes_ok h ∧
    checker.unlift h (Some (ad (false, i))) = Done (checker.sr_heap st).
Proof.
  intros Hc Hr Hn Hm. destruct (rest_split _ _ _ _ Hr) as (l2 & l3 & -> & Hr').
  destruct (seg_snoc_form hd_addr (ad <$> pre)) as (l0 & p & Hp & _).
  assert (∀ tl, hd_addr :: (ad <$> pre ++ tl) = l0 ++ p :: (ad <$> tl)) as Hsplit.
  { intros tl. by rewrite fmap_app, app_comm_cons, Hp, <- app_assoc. }
  pose proof (NoDup_addresses X) as Hnd. pose proof (cfg_seg _ _ Hc) as Hs.
  rewrite Hr, Hsplit, fmap_cons, fmap_app, fmap_cons in Hnd, Hs.
  destruct (lift_spec _ _ _ _ _ _ _ _ _ Hnd Hs Hn Hm) as (h & Hl & Hs' & Hst & Hu).
  exists h. split_and!; [done| | |done].
  - by rewrite Hr', Hsplit, fmap_app.
  - intros k j Hin. destruct (cfg_nodes _ _ Hc k j Hin) as (n' & Hn' & ? & ? & ?).
    destruct (same_static_lookup _ _ _ _ Hst Hn') as (n'' & ? & ? & ? & ?).
    exists n''. split_and!; congruence.
Qed.

(** Trying the operation under the cursor: it is skipped, because the model rejects
    it or the cache has where it leads, or it is pushed. *)
Lemma try_call_spec X st pre i suf :
  cfg X st → rest X = pre ++ (false, i) :: suf → checker.sr_entry st = Some (ad (false, i)) →
  (steps st (moved st (first (ad <$> suf) None) (checker.sr_cache st)
                (checker.sr_longest st) (checker.sr_seqs st)) ∧
     ∀ s', Step model (checker.sr_state st) (inp i) (out i) = Done (true, s') →
       ∃ t, cached (checker.sr_cache st) (X ∪ {[i]}) t ∧ same_state s' t) ∨
  (∃ s' h b, steps st (pushed X i st h b s') ∧ cfg (X ∪ {[i]}) (pushed X i st h b s') ∧
     Step model (checker.sr_state st) (inp i) (out i) = Done (true, s') ∧
     checker.unlift h (Some (ad (false, i))) = Done (checker.sr_heap st)).
Proof.
  intros Hc Hr He. destruct (cursor _ _ _ _ _ _ Hc Hr) as (n & Hn & Hv & Hi & Hm & Hnx).
  destruct (call_in_rest _ _ _ _ Hr) as (HiX & Hin & Hin').
  destruct (cfg_nodes _ _ Hc true i Hin') as (nm & Hnm & Hvm & _).
  destruct (Hstep (checker.sr_state st) i Hin) as (ok & s' & Hs).
  pose proof (λ st', iterate_call X st pre i suf st' n Hc Hr He Hn Hm) as Hiter.
  destruct st as [h entry b cache calls longest seqs s]; simpl in *. subst entry.
  rewrite Hm, (load_Some _ _ _ Hnm) in Hiter. simpl in Hiter.
  rewrite Hv, Hvm in Hiter. fold (inp i) (out i) in Hiter. rewrite Hs in Hiter. simpl in Hiter.
  rewrite bitset.clone_id, Hi in Hiter. destruct ok; cycle 1.
  { left. split; [apply Hiter; unfold moved; simpl; by rewrite Hnx|].
    intros s'' Hs'. congruence. }
  destruct (bits_set b X i (cfg_bits _ _ Hc) (Hids i Hin)) as (b' & Hset & Hb').
  rewrite Hset in Hiter. simpl in Hiter.
  destruct (cacheContains_spec cache b' (X ∪ {[i]}) s' Hb') as (hit & Hhit & Hsame).
  rewrite Hhit in Hiter. simpl in Hiter. destruct hit; simpl in Hiter.
  { left. split; [apply Hiter; unfold moved; simpl; by rewrite Hnx|].
    intros s'' Hs'. assert (s'' = s') as -> by congruence. by apply Hsame. }
  destruct (lift_cfg _ _ _ _ _ _ Hc Hr Hn Hm) as (h' & Hl & Hseg & Hnodes & Hu).
  simpl in Hl, Hu. rewrite Hl in Hiter. simpl in Hiter.
  assert (cfg (X ∪ {[i]}) (pushed X i
    (checker.MkSearch V St h (Some (ad (false, i))) b cache calls longest seqs s) h' b' s')) as Hc'.
  { split; try done.
    - intros j [Hj| ->%elem_of_singleton]%elem_of_union; [by apply (cfg_sub _ _ Hc)|done].
    - simpl. apply stack_snoc; [done|]. apply (cfg_calls _ _ Hc).
    - apply (cfg_longest _ _ Hc). }
  right. exists s', h', b'. split_and!; [|done..].
  destruct (head_next _ _ Hc') as (hd & Hhd & Hhn). simpl in Hhd. rewrite Hhd in Hiter. simpl in Hiter.
  apply Hiter. unfold pushed. simpl. by rewrite Hhn.
Qed.

(** The cursor is on a return: the operation pushed last is taken back. *)
Lemma backtrack_spec X st pre i suf h b s' pre' j suf' cache longest seqs :
  cfg X st → rest X = pre ++ (false, i) :: suf → checker.sr_entry st = Some (ad (false, i)) →
  checker.unlift h (Some (ad (false, i))) = Done (checker.sr_heap st) →
  let st' := moved (pushed X i st h b s') (Some (ad (true, j))) cache longest seqs in
  cfg (X ∪ {[i]}) st' → rest (X ∪ {[i]}) = pre' ++ (true, j) :: suf' →
  ∃ longest' seqs', zlen longest' = nops ∧
    steps st' (moved st (first (ad <$> suf) None) cache longest' seqs') ∧
    keeps longest seqs longest' seqs' ∧
    (cp = true → ∀ k, k ∈ X ∪ {[i]} → recorded longest' seqs' k (size (X ∪ {[i]}))).
Proof.
  intros Hc Hr He Hu st' Hc' Hr'. destruct (cursor _ _ _ _ _ _ Hc Hr) as (n & Hn & _ & _ & _ & Hnx).
  destruct (call_in_rest _ _ _ _ Hr) as (HiX & Hin & _).
  destruct (cursor _ _ _ _ _ _ Hc' Hr') as (nj & Hnj & _ & _ & Hmj & _).
  destruct (cfg_nodes _ _ Hc' false i Hin) as (ni & Hni & _ & Hidi & _).
  pose proof (λ st'', iterate_return _ _ _ _ _ st'' _ Hc' Hr' eq_refl Hnj Hmj) as Hiter.
  pose proof (stack_ok _ _ (cfg_sub _ _ Hc') (cfg_calls _ _ Hc')) as Hcalls.
  pose proof (cfg_calls _ _ Hc') as (ids & Hnd & Hids' & Heqs). pose proof (cfg_sub _ _ Hc') as Hsub.
  pose proof (cfg_longest _ _ Hc') as Hlong.
  pose proof (cfg_nodes _ _ Hc') as Hnodes. pose proof (cfg_bits _ _ Hc') as Hb'.
  pose proof (bits_clear _ _ _ _ (cfg_bits _ _ Hc) Hb' HiX (Hids i Hin)) as Hclear.
  destruct st as [h0 entry0 b0 cache0 calls0 longest0 seqs0 s0]. subst st'.
  unfold moved, pushed in *. simpl in *. subst entry0. set (top := checker.MkCallsEntry St _ _) in *.
  assert (zlen (calls0 ++ [top]) = zlen calls0 + 1)%Z as Hz by (unfold zlen; rewrite length_app; simpl; lia).
  pose proof (zlen_nonneg calls0) as Hz0.
  assert (∃ lg sq, (if cp then checker.partial_loop h (calls0 ++ [top]) None (calls0 ++ [top]) longest seqs
    else Done (longest, seqs)) = Done (lg, sq) ∧ zlen lg = nops ∧ keeps longest seqs lg sq ∧
    (cp = true → ∀ k, k ∈ X ∪ {[i]} → recorded lg sq k (size (X ∪ {[i]})))) as (lg & sq & Hp & Hlg & Hkeep & Hrec).
  { destruct cp; [|exists longest, seqs; split_and!; [done..|apply keeps_self|done]].
    destruct (partial_loop_total h (calls0 ++ [top]) None (calls0 ++ [top]) longest seqs) as (lg & sq & Hp & Hlg);
      [done..|].
    assert (Forall (λ i, (false, i) ∈ es0) ids) as Hin' by (apply Forall_forall; intros k Hk; by apply Hsub, Hids').
    assert (0 < length ids) as Hpos.
    { destruct ids; [|simpl; lia]. apply (f_equal length) in Heqs. rewrite !length_fmap, length_app in Heqs. simpl in Heqs. lia. }
    destruct (partial_loop_records h (calls0 ++ [top]) ids Hnodes) with (todo := calls0 ++ [top]) (ids' := ids)
      (seq := @None nat) (longest := longest) (seqs := seqs) (longest' := lg) (seqs' := sq) as [Hk Hr1]; try done.
    - apply (f_equal length) in Heqs. by rewrite !length_fmap in Heqs.
    - by apply call_ids_spec.
    - exists lg, sq. split_and!; [done..|]. intros _ k Hk'. rewrite <- (stack_size _ _ Hnd Hids'). by apply Hr1, Hids'. }
  exists lg, sq. split; [done|]. split; [|by split]. apply Hiter. rewrite Hz.
  destruct (Z.eqb_spec (zlen calls0 + 1) 0); [lia|]. rewrite Hp. simpl.
  replace (zlen calls0 + 1 - 1)%Z with (zlen calls0) by lia.
  assert (idx (calls0 ++ [top]) (zlen calls0) = Done top) as ->.
  { apply idx_Done. split; [done|]. unfold zlen. by rewrite Nat2Z.id, list_lookup_middle. }
  simpl. rewrite (load_Some _ _ _ Hni). simpl. rewrite Hidi, Hclear. simpl.
  assert (slice_to (calls0 ++ [top]) (zlen calls0) = Done calls0) as ->.
  { apply slice_to_Done. split; [lia|]. unfold zlen. by rewrite Nat2Z.id, take_app_length. }
  simpl. rewrite Hu. simpl. rewrite (load_Some _ _ _ Hn). simpl. by rewrite Hnx.
Qed.

(** *** The search below a configuration *)

Lemma candidates_pre es1 i es2 : Forall (λ e, e.1 = false) es1 → i ∈ candidates (es1 ++ (false, i) :: es2).
Proof. induction 1 as [|[k j] es1 Hk _ IH]; simpl in *; [left|]. subst k. by right. Qed.

(** When all ways to go on are over, so is the configuration. *)
Lemma over_all longest seqs X s : rest X ≠ [] →
  (∀ i s', i ∈ candidates (rest X) → Step model s (inp i) (out i) = Done (true, s') →
     over longest seqs (X ∪ {[i]}) s') →
  (cp = true → ∀ k, k ∈ X → recorded longest seqs k (size X)) → over longest seqs X s.
Proof.
  intros Hne Hall Hrec. split.
  - intros σ Hl. inversion Hl as [? Er|es1 i es2 ? s' σ' Hc Hs Hl' Er]; [congruence|]. subst σ.
    assert (i ∈ candidates (rest X)) as Hi by (rewrite <- Er; by apply candidates_pre).
    rewrite Er, rest_without in Hl'. by apply (proj1 (Hall i s' Hi Hs) σ').
  - intros Hcp Y t Hp. inversion Hp as [|? ? i s' ? ? Hi Hs Hp']; subst; [by apply Hrec|].
    by apply (proj2 (Hall i s' Hi Hs) Hcp Y t).
Qed.

(** The search found a linearization of what was left, and stopped. *)
Definition found X st : Prop :=
  ∃ σ st', steps st st' ∧ cfg (X ∪ list_to_set σ) st' ∧ rest (X ∪ list_to_set σ) = [] ∧
    lin.lin (Step model) inp out (rest X) (checker.sr_state st) σ ∧
    checker.c_entry <$> checker.sr_calls st' =
      (checker.c_entry <$> checker.sr_calls st) ++ ((λ i, Some (ad (false, i))) <$> σ).

(** Cache entries added below [X] are over. *)
Definition cache_grows (cache cache' : gmap Z (list (checker.cacheEntry St))) longest seqs (k : nat) : Prop :=
  ∀ Y s, cached cache' Y s → cached cache Y s ∨ (k < size Y ∧ over longest seqs Y s).

(** The search came back with the cursor on a return: no candidate of [suf]
    starts a linearization, and what they lead to is recorded. *)
Definition exhausted X st suf : Prop :=
  ∃ cache longest seqs pre' j suf',
    steps st (moved st (Some (ad (true, j))) cache longest seqs) ∧
    zlen longest = nops ∧ rest X = pre' ++ (true, j) :: suf' ∧
    keeps (checker.sr_longest st) (checker.sr_seqs st) longest seqs ∧
    cache_grows (checker.sr_cache st) cache longest seqs (size X) ∧
    ∀ i s', i ∈ candidates suf → Step model (checker.sr_state st) (inp i) (out i) = Done (true, s') →
      over longest seqs (X ∪ {[i]}) s'.

Lemma moved_id st : moved st (checker.sr_entry st) (checker.sr_cache st)
  (checker.sr_longest st) (checker.sr_seqs st) = st.
Proof. by destruct st. Qed.

Lemma moved_moved st e c l q e' c' l' q' :
  moved (moved st e c l q) e' c' l' q' = moved st e' c' l' q'.
Proof. done. Qed.

Lemma all_calls_empty X : Forall (λ e, e.1 = false) (rest X) → rest X = [].
Proof.
  intros Hc. destruct (rest X) as [|[k i] es] eqn:Hr; [done|].
  pose proof (rest_wf X) as [_ Hm _]. rewrite Hr in Hm.
  apply Forall_cons in Hc as [Hk Hc]. simpl in Hk. subst k.
  specialize (Hm [] i es eq_refl). rewrite Forall_forall in Hc. by apply Hc in Hm.
Qed.

Lemma found_nil X st : cfg X st → rest X = [] → found X st.
Proof.
  intros Hc Hr. exists [], st. rewrite list_to_set_nil, (right_id_L ∅ (∪)).
  split_and!; [done..| |by rewrite fmap_nil, app_nil_r]. rewrite Hr. constructor.
Qed.

Lemma found_moved X st e c l q : steps st (moved st e c l q) → found X (moved st e c l q) → found X st.
Proof. intros Hs (σ & st' & Hs' & ?). exists σ, st'. split; [by etransitivity|done]. Qed.

Lemma found_pushed X i st h b s' pre suf :
  rest X = pre ++ (false, i) :: suf → Forall (λ e, e.1 = false) pre →
  checker.sr_entry st = Some (ad (false, i)) →
  Step model (checker.sr_state st) (inp i) (out i) = Done (true, s') →
  steps st (pushed X i st h b s') → found (X ∪ {[i]}) (pushed X i st h b s') → found X st.
Proof.
  intros Hr Hpre He Hst Hs (σ & st' & Hs' & Hc & Hrest & Hl & Hcalls).
  exists (i :: σ), st'. rewrite list_to_set_cons, (assoc_L (∪)).
  split_and!; [by etransitivity|done..| |].
  - rewrite Hr. econstructor; [done..|]. by rewrite <- Hr, rest_without.
  - rewrite Hcalls. simpl. rewrite fmap_app, <- app_assoc, He. done.
Qed.

Lemma size_snoc X i : i ∉ X → size (X ∪ {[i]}) = S (size X).
Proof. intros Hi. rewrite size_union by set_solver. rewrite size_singleton. lia. Qed.

(** After refuting the operation that was pushed, the cache is sound again for
    the smaller set. *)
Lemma cache_grows_pop X i st h b s' cache' lg sq lg' sq' :
  i ∉ X → bits b (X ∪ {[i]}) → keeps lg sq lg' sq' → over lg' sq' (X ∪ {[i]}) s' →
  cache_grows (checker.sr_cache (pushed X i st h b s')) cache' lg sq (size (X ∪ {[i]})) →
  cache_grows (checker.sr_cache st) cache' lg' sq' (size X).
Proof.
  intros Hi Hb Hk Hd Hg Y s Hin. pose proof (size_snoc X i Hi) as Hsz.
  destruct (Hg Y s Hin) as [Hold|[? ?]]; [|right; split; [lia|by eapply over_keeps]].
  destruct (cached_add _ _ _ _ _ _ Hb Hold) as [?|[-> ->]]; [by left|].
  right. split; [lia|done].
Qed.

Lemma cache_grows_refuted cache cache' lg sq lg' sq' k : keeps lg sq lg' sq' →
  refuted_above cache lg sq k → cache_grows cache cache' lg' sq' k → refuted_above cache' lg' sq' k.
Proof.
  intros Hk Hr Hg Y s Hin Hsz. destruct (Hg Y s Hin) as [?|[? ?]]; [|done]. eapply over_keeps; [done|by apply Hr].
Qed.

Lemma cache_grows_trans cache cache' cache'' lg sq lg' sq' k : keeps lg sq lg' sq' →
  cache_grows cache cache' lg sq k → cache_grows cache' cache'' lg' sq' k → cache_grows cache cache'' lg' sq' k.
Proof.
  intros Hk Hg Hg' Y s Hin. destruct (Hg' Y s Hin) as [Hin'|?]; [|by right].
  destruct (Hg Y s Hin') as [?|[? ?]]; [by left|]. right. split; [done|by eapply over_keeps].
Qed.

Lemma refuted_pushed X i st h b s' lg sq : bits b (X ∪ {[i]}) → i ∉ X →
  refuted_above (checker.sr_cache st) lg sq (size X) →
  refuted_above (checker.sr_cache (pushed X i st h b s')) lg sq (size (X ∪ {[i]})).
Proof.
  intros Hb Hi Hr Y s Hin Hk. pose proof (size_snoc X i Hi).
  destruct (cached_add _ _ _ _ _ _ Hb Hin) as [Hold|[-> ->]]; [apply Hr; [done|lia]|lia].
Qed.

Lemma explore k : ∀ X st, length (rest X) ≤ k → cfg X st →
  refuted_above (checker.sr_cache st) (checker.sr_longest st) (checker.sr_seqs st) (size X) →
  ∀ suf pre, rest X = pre ++ suf → Forall (λ e, e.1 = false) pre →
  checker.sr_entry st = first (ad <$> suf) None → found X st ∨ exhausted X st suf.
Proof.
  induction k as [|k IHk]; intros X st Hk Hc Href suf.
  { intros pre _ _ _. left. apply found_nil; [done|]. apply nil_length_inv. lia. }
  revert st Hc Href. induction suf as [|[[] i] suf IHsuf]; intros st Hc Href pre Hr Hpre He.
  - left. apply found_nil; [done|]. apply all_calls_empty. by rewrite Hr, app_nil_r.
  - right. exists (checker.sr_cache st), (checker.sr_longest st), (checker.sr_seqs st), pre, i, suf.
    simpl in He. rewrite <- He, moved_id.
    split_and!; [done|apply (cfg_longest _ _ Hc)|done|apply keeps_self|by left|].
    by intros ?? ?%not_elem_of_nil.
  - simpl in He.
    assert (∀ cache lg sq,
      steps st (moved st (first (ad <$> suf) None) cache lg sq) → zlen lg = nops →
      keeps (checker.sr_longest st) (checker.sr_seqs st) lg sq →
      cache_grows (checker.sr_cache st) cache lg sq (size X) →
      (∀ s', Step model (checker.sr_state st) (inp i) (out i) = Done (true, s') → over lg sq (X ∪ {[i]}) s') →
      found X st ∨ exhausted X st ((false, i) :: suf)) as Hnext.
    { intros cache lg sq Hs Hlg Hkp Hg Hno.
      destruct (IHsuf (moved st (first (ad <$> suf) None) cache lg sq)) with (pre := pre ++ [(false, i)])
        as [Hf|(cache' & lg' & sq' & pre' & j & suf' & Hs' & Hlg' & Hr' & Hkp' & Hg' & Hno')].
      - by apply cfg_moved.
      - by eapply cache_grows_refuted.
      - by rewrite <- app_assoc.
      - by apply Forall_app; split; [|apply Forall_singleton].
      - done.
      - left. by eapply found_moved.
      - right. exists cache', lg', sq', pre', j, suf'. rewrite moved_moved in Hs'.
        split_and!; [by etransitivity|done|done|by eapply keeps_trans|by eapply cache_grows_trans|].
        intros i' s' [->|Hin]%elem_of_cons Hst; [|by apply Hno']. eapply over_keeps; [exact Hkp'|by apply Hno]. }
    destruct (call_in_rest _ _ _ _ Hr) as (HiX & _).
    destruct (try_call_spec _ _ _ _ _ Hc Hr He) as [[Hs Hskip]|(s' & h & b & Hs & Hc' & Hst & Hu)].
    { eapply Hnext; [exact Hs|apply (cfg_longest _ _ Hc)|apply keeps_self|by left|].
      intros s' (t & Hin & Hsame)%Hskip. eapply over_same; [exact Hsame|]. apply Href; [done|].
      rewrite size_snoc by done. lia. }
    pose proof (cfg_bits _ _ Hc') as Hb. simpl in Hb.
    destruct (rest_split _ _ _ _ Hr) as (l2 & l3 & -> & Hr').
    destruct (IHk (X ∪ {[i]}) (pushed X i st h b s')) with (suf := rest (X ∪ {[i]})) (pre := @nil ev)
      as [Hf|(cache' & lg' & sq' & pre' & j & suf' & Hs' & Hlg' & Hrj & Hkp' & Hg' & Hno')];
      [|done|by apply refuted_pushed|done|constructor|done| |].
    + rewrite Hr', !length_app. rewrite Hr in Hk. rewrite !length_app in Hk. simpl in Hk.
      rewrite length_app in Hk. simpl in Hk. lia.
    + left. by eapply found_pushed.
    + destruct (backtrack_spec X st pre i _ h b s' pre' j suf' cache' lg' sq' Hc Hr He Hu)
        as (lg & sq & Hlg & Hs'' & Hkp & Hrec); [by apply cfg_moved|done|].
      assert (over lg sq (X ∪ {[i]}) s') as Hover.
      { apply over_all; [rewrite Hrj; by destruct pre'| |exact Hrec]. intros i' s'' Hi' Hst'.
        eapply over_keeps; [exact Hkp|]. by apply Hno'. }
      eapply Hnext; [by etransitivity; [exact Hs|]; etransitivity|done|by eapply keeps_trans| |].
      * by eapply cache_grows_pop.
      * intros s'' Hst'. assert (s'' = s') as -> by congruence. done.
Qed.

(** *** Partial linearizations *)

(** Each operation is placed after all that returned before its call; some may be
    missing. *)
Definition partial_linearization σ : Prop :=
  NoDup σ ∧ Forall (λ i, (false, i) ∈ es0) σ ∧ lin.legal (Step model) inp out (Init model) σ ∧
  ∀ σ1 j σ2 i, σ = σ1 ++ j :: σ2 → (false, i) ∈ es0 → i ∉ σ1 → ¬ lin.precedes es0 i j.

Lemma partial_preach σ : ∀ X s, NoDup σ → Forall (λ i, (false, i) ∈ es0) σ → (∀ i, i ∈ σ → i ∉ X) →
  lin.legal (Step model) inp out s σ →
  (∀ σ1 j σ2 i, σ = σ1 ++ j :: σ2 → (false, i) ∈ es0 → i ∉ X → i ∉ σ1 → ¬ lin.precedes es0 i j) →
  ∃ t, preach X s (X ∪ list_to_set σ) t.
Proof.
  induction σ as [|i σ IH]; intros X s Hnd Hin HX Hl Hord.
  { exists s. rewrite list_to_set_nil, (right_id_L ∅ (∪)). constructor. }
  apply NoDup_cons in Hnd as [Hi Hnd]. apply Forall_cons in Hin as [Hi0 Hin]. destruct Hl as (s' & Hs & Hl).
  assert (i ∉ X) as HiX by (apply HX; left).
  destruct (IH (X ∪ {[i]}) s' Hnd Hin) as [t Ht]; [set_solver|done| |].
  { intros σ1 j σ2 k Hσ Hk HkX Hk1. apply (Hord (i :: σ1) j σ2 k); [by rewrite Hσ|done|set_solver|].
    rewrite elem_of_cons. set_solver. }
  exists t. apply (preach_step X s i s'); [|done|by rewrite list_to_set_cons, (assoc_L (∪))].
  assert ((false, i) ∈ rest X) as (pre & suf & Hr)%list_elem_of_split by (by apply rest_in).
  rewrite Hr. apply candidates_pre, Forall_forall. intros [[] k] Hk; [|done]. exfalso.
  assert ((true, k) ∈ rest X) as [HkX Hk0]%rest_in by (rewrite Hr; apply elem_of_app; by left). simpl in HkX.
  apply (Hord [] i σ k); [done|by apply (lin.wf_called _ Hwf)|done|by apply not_elem_of_nil|].
  apply (lin.precedes_filter (λ j, j ∉ X) es0 k i); [done..|].
  apply list_elem_of_split in Hk as (k1 & k2 & ->). exists k1, (k2 ++ (false, i) :: suf).
  split; [unfold rest in Hr; rewrite Hr; by rewrite <- app_assoc|]. apply elem_of_app. right. left.
Qed.

(** *** The whole search *)

Lemma rest_empty : rest ∅ = es0.
Proof.
  unfold rest. generalize es0 as l. induction l as [|e l IH]; [done|].
  rewrite filter_cons_True; [by rewrite IH|apply not_elem_of_empty].
Qed.

Lemma init_spec : ∃ st, checker.checkSingle_init model history = Some (Done (nops, hd_addr, st)) ∧
  cfg ∅ st ∧ checker.sr_entry st = first (ad <$> es0) None ∧ checker.sr_cache st = ∅ ∧
  checker.sr_calls st = [] ∧ checker.sr_state st = Init model.
Proof.
  destruct (makeLinkedEntries_spec history (lin.wf_nodup _ Hwf) (lin.wf_matched _ Hwf))
    as (h & root & mt & Hmk & [Hlen Hroot Hseg Hnodes _]).
  fold es0 in Hroot, Hseg, Hnodes.
  assert (checker.makeLinkedEntries history = Done (h, root)) as Hml
    by (unfold checker.makeLinkedEntries; by rewrite Hmk).
  assert (checker.length h root = Some (Done (zlen history))) as Hcl.
  { unfold checker.length. pose proof (length_loop_spec _ _ _ 0 Hseg) as Hl.
    assert (length (addr es0 <$> es0) = length h) as Hl0
      by (rewrite length_fmap; unfold es0; by rewrite length_fmap).
    unfold zlen in *. rewrite Hl0, <- Hroot in Hl. by rewrite Hl, Hlen. }
  set (nh := MkNode V nil_value None (-1) None None).
  assert (∀ a, a ∈ addr es0 <$> es0 → a < length h) as Hlt.
  { intros a (e & -> & He)%list_elem_of_fmap. apply addr_lt in He.
    unfold es0 in He at 2. rewrite length_fmap in He. lia. }
  destruct (insertBefore_front (h ++ [nh]) (length h) nh (addr es0 <$> es0))
    as (h' & Hins & Hseg' & Hst & _); [| |done|done| |apply NoDup_addr; [apply (lin.wf_nodup _ Hwf)|done]|].
  - eapply seg_ext; [|exact Hseg]. intros a Ha. apply lookup_app_l. by apply Hlt.
  - by rewrite list_lookup_middle.
  - intros ?%Hlt. lia.
  - unfold checker.checkSingle_init. rewrite Hml, Hcl. simpl. rewrite <- Hroot in Hins.
    fold nh. rewrite Hins. simpl. fold nops. eexists. split.
    { unfold hd_addr. by rewrite Hlen. }
    split_and!; [|done..]. split; simpl.
    + intros i ?%not_elem_of_empty. done.
    + rewrite rest_empty. unfold hd_addr. rewrite <- Hlen. done.
    + intros k i Hin. apply list_elem_of_fmap in Hin as (x & Hx & Hin).
      destruct (Hnodes x Hin) as (n & Hn & Hv & Hi & Hm).
      rewrite <- (val_of_entry history x) in Hv by (apply (lin.wf_nodup _ Hwf) || done).
      rewrite <- Hx in Hn, Hv. unfold ev_of in Hx. injection Hx as -> ->.
      assert ((h ++ [nh]) !! ad (e_kind x, e_id x) = Some n) as Hn'.
      { rewrite lookup_app_l; [done|]. by eapply lookup_lt_Some. }
      destruct (same_static_lookup _ _ _ _ Hst Hn') as (n' & ? & ? & ? & ?).
      exists n'. split_and!; [done|congruence|congruence|]. by replace (match_ n') with (match_ n).
    + split; [apply bitset.newBitset_empty|done].
    + exists []. split_and!; [constructor| |done]. intros i.
      split; [by intros ?%not_elem_of_nil|by intros ?%not_elem_of_empty].
    + unfold zlen. rewrite length_replicate. pose proof nops_nonneg. lia.
Qed.

Lemma fill_longest_spec todo i p longest : (0 ≤ i)%Z → (i + Z.of_nat todo = zlen longest)%Z →
  ∃ longest', checker.fill_longest todo i p longest = Done longest' ∧
    length longest' = length longest ∧
    ∀ k, (Z.to_nat i ≤ k < length longest → longest' !! k = Some (Some p)) ∧
         (k < Z.to_nat i → longest' !! k = longest !! k).
Proof.
  revert i longest. induction todo as [|todo IH]; intros i longest Hi Hl; simpl.
  - exists longest. unfold zlen in Hl. split_and!; [done..|]. intros k. split; [lia|done].
  - assert (set_idx longest i (Some p) = Done (<[Z.to_nat i := Some p]> longest)) as ->.
    { apply set_idx_Done. split; [lia|done]. }
    simpl. destruct (IH (i + 1)%Z (<[Z.to_nat i := Some p]> longest)) as (lg & -> & Hlen & Hlg);
      [lia|rewrite zlen_insert; lia|].
    exists lg. rewrite length_insert in Hlen, Hlg. split_and!; [done..|]. intros k.
    unfold zlen in Hl. destruct (Hlg k) as [H1 H2]. split; intros Hk.
    + destruct (decide (k = Z.to_nat i)) as [->|]; [|apply H1; lia].
      rewrite H2 by lia. apply list_lookup_insert_eq. lia.
    + rewrite H2 by lia. apply list_lookup_insert_ne. lia.
Qed.

(** Every pointer of [longest] leads to [σ]. *)
Definition all_point_to (pt : checker.partials) (σ : list Z) : Prop :=
  zlen (checker.pt_longest pt) = nops ∧
  ∀ i o, checker.pt_longest pt !! i = Some o →
    ∃ p, o = Some p ∧ checker.pt_seqs pt !! p = Some σ.

Lemma finish_spec X st σ : cfg X st →
  checker.c_entry <$> checker.sr_calls st = (λ i, Some (ad (false, i))) <$> σ →
  Forall (λ i, (false, i) ∈ es0) σ →
  ∃ pt, checker.finish nops st = Done (true, pt) ∧ all_point_to pt σ.
Proof.
  intros Hc Hcalls Hσ. unfold checker.finish.
  rewrite (call_ids_spec _ σ _ (cfg_nodes _ _ Hc) Hσ Hcalls). simpl.
  pose proof (cfg_longest _ _ Hc) as Hl. pose proof nops_nonneg.
  destruct (fill_longest_spec (Z.to_nat nops) 0 (length (checker.sr_seqs st)) (checker.sr_longest st))
    as (lg & -> & Hlen & Hlg); [lia|lia|].
  simpl. eexists. split; [done|]. split; simpl; [unfold zlen in *; congruence|].
  intros i o Hi. pose proof (lookup_lt_Some _ _ _ Hi). destruct (Hlg i) as [Hat _].
  rewrite Hat in Hi by lia. simplify_eq. eexists. split; [done|]. by apply list_lookup_middle.
Qed.

Lemma search_spec : ∃ N, ∀ fuel, N ≤ fuel →
  ∃ pt, checker.checkSingle fuel model history cp checker.never = Some (Done (true, pt)) ∧
      (∃ σ, lin.lin (Step model) inp out es0 (Init model) σ ∧ all_point_to pt σ) ∨
    checker.checkSingle fuel model history cp checker.never = Some (Done (false, pt)) ∧
      over (checker.pt_longest pt) (checker.pt_seqs pt) ∅ (Init model).
Proof.
  destruct init_spec as (st & Hinit & Hc & He & Hcache & Hcalls & Hs).
  unfold checker.checkSingle. rewrite Hinit.
  destruct (explore (length (rest ∅)) ∅ st) with (suf := rest ∅) (pre := @nil ev)
    as [(σ & st' & [k Hk] & Hc' & Hr & Hl & Hcalls')
       |(cache & lg & sq & pre & j & suf & [k Hk] & Hlg & Hr & _ & _ & Hno)].
  - done.
  - done.
  - rewrite Hcache. intros Y s (k & l & ce & Hl & _). by rewrite lookup_empty in Hl.
  - done.
  - constructor.
  - by rewrite He, rest_empty.
  - exists (k + 1). intros fuel Hf. destruct (Hk (fuel - k) 0) as [j' Hj'].
    replace (k + (fuel - k)) with fuel in Hj' by lia. rewrite Hj'.
    destruct (fuel - k) as [|f] eqn:Ef; [lia|]. simpl.
    destruct (head_next _ _ Hc') as (hd & -> & ->). rewrite Hr. simpl.
    rewrite Hcalls in Hcalls'. rewrite rest_empty, Hs in Hl.
    destruct (finish_spec _ _ _ Hc' Hcalls') as (pt & -> & Hpt).
    { apply Forall_forall. intros i Hi.
      apply (lin.lin_iff _ _ _ _ _ _ Hwf) in Hl as (_ & Hin & _). by apply Hin. }
    exists pt. left. eauto.
  - exists (k + 1). intros fuel Hf. destruct (Hk (fuel - k) 0) as [j' Hj'].
    replace (k + (fuel - k)) with fuel in Hj' by lia. rewrite Hj'.
    destruct (fuel - k) as [|f] eqn:Ef; [lia|]. simpl.
    assert (cfg ∅ (moved st (Some (ad (true, j))) cache lg sq)) as Hc' by (by apply cfg_moved).
    destruct (head_next _ _ Hc') as (hd & Hhd & Hn). simpl in Hhd. rewrite Hhd, Hn, Hr, fmap_app.
    assert (∃ a, first ((ad <$> pre) ++ (ad <$> (true, j) :: suf)) None = Some a) as [a ->]
      by (destruct pre; simpl; eauto).
    unfold checker.never at 1. destruct (cursor _ _ _ _ _ _ Hc' Hr) as (n & Hn' & _ & _ & Hm & _).
    simpl in Hn'. rewrite (load_Some _ _ _ Hn'), Hm, Hcalls. simpl.
    eexists. right. split; [done|]. rewrite Hs in Hno. simpl.
    apply over_all; [rewrite Hr; by destruct pre|exact Hno|]. by intros _ i ?%not_elem_of_empty.
Qed.

(** What a search that is not killed records: for every operation of a partial
    linearization a sequence that is at least as long. *)
Lemma search_records : cp = true → ∃ N, ∀ fuel, N ≤ fuel →
  ∃ r pt, checker.checkSingle fuel model history cp checker.never = Some (Done (r, pt)) ∧
    (∀ σ i, partial_linearization σ → i ∈ σ →
      recorded (checker.pt_longest pt) (checker.pt_seqs pt) i (length σ)) ∧
    (r = true → ∃ σ, (∀ i, (false, i) ∈ es0 → i ∈ σ) ∧ all_point_to pt σ).
Proof.
  intros Hcp. destruct search_spec as [N HN]. exists N. intros fuel Hf.
  destruct (HN fuel Hf) as [pt [[Hr (σ0 & Hl & Hlen & Hpt)]|[Hr [_ Hfin]]]]; eexists _, pt; (split; [exact Hr|]).
  - apply (lin.lin_iff _ _ _ _ _ _ Hwf) in Hl as (_ & Hall & _).
    split; [|intros _; exists σ0; split; [intros i; by apply Hall|done]].
    intros σ i (Hnd & Hin & Hleg & Hord) Hi. rewrite Forall_forall in Hin.
    pose proof (Hids i (Hin i Hi)) as Hrange. unfold zlen in Hlen.
    destruct (lookup_lt_is_Some_2 (checker.pt_longest pt) (Z.to_nat i)) as [o Ho]; [lia|].
    destruct (Hpt _ _ Ho) as (p & -> & Hp). exists p, σ0. split_and!; [done..|].
    apply submseteq_length, NoDup_submseteq; [done|]. intros j Hj. by apply Hall, Hin.
  - split; [|done]. intros σ i (Hnd & Hin & Hleg & Hord) Hi.
    destruct (partial_preach σ ∅ (Init model)) as [t Ht]; [done..|set_solver|done| |].
    { intros σ1 j σ2 k Hσ Hk _. by apply (Hord σ1 j σ2 k). }
    rewrite (left_id_L ∅ (∪)) in Ht. rewrite <- (size_list_to_set (C := gset Z) σ) by done.
    apply (Hfin Hcp _ _ Ht). by apply elem_of_list_to_set.
Qed.

End search.
End psearch.
