(* ===== verification/PorcupineOps.v ===== *)
(** * From operations to events

    [makeEntries] turns a history of operations with call and return times
    into a sorted list of entries.  The file shows that the list is a
    well-formed history of events whose precedence is "returned strictly before
    the call", so that linearizability of the events is linearizability of the
    operations; and it gives the sorter used to run the checker. *)

From S2P Require Import Prelude Bitset Porcupine PorcupineList Linearizability PorcupineSearch.

(** ** Linearizability of operations *)

Section ops.
Context {V St : Type}.
Implicit Types (model : Model V St) (ops τ : list (Operation V)).

(** The model accepts the operations in this order. *)
Fixpoint legal_ops model (s : St) τ : Prop :=
  match τ with
  | [] => True
  | op :: τ' => ∃ s', Step model s (Input op) (Output op) = Done (true, s') ∧ legal_ops model s' τ'
  end.

(** No operation comes before one that returned before it was called. *)
Definition real_time τ : Prop :=
  ∀ i j a b, i < j → τ !! i = Some a → τ !! j = Some b → ¬ (Return b < Call a)%Z.

Definition op_linearizable model ops : Prop :=
  ∃ τ, τ ≡ₚ ops ∧ legal_ops model (Init model) τ ∧ real_time τ.

(** Every operation returns no earlier than it is called. *)
Definition timed ops : Prop := Forall (λ op, (Call op ≤ Return op)%Z) ops.

End ops.

Module pops.
Import psearch.

(** ** A sorter *)

Definition entry_le {V} (a b : entry V) : Prop := Less b a = false.
#[export] Instance entry_le_dec {V} : RelDecision (@entry_le V).
Proof. intros a b. unfold entry_le. apply _. Defined.

Lemma Less_spec {V} (a b : entry V) : Less a b = true ↔
  (e_time a < e_time b)%Z ∨ (e_time a = e_time b ∧ e_kind a = false ∧ e_kind b = true).
Proof.
  unfold Less, callEntry, returnEntry.
  destruct (Z.eqb_spec (e_time a) (e_time b)) as [Heq|Hne]; simpl.
  - destruct (e_kind a), (e_kind b); simpl;
      (split; [intros ?; try done; by right|intros [?|(? & ? & ?)]; [lia|done]]).
  - rewrite Z.ltb_lt. split; [by left|]. intros [?|[? _]]; [done|lia].
Qed.

#[export] Instance entry_le_total {V} : Total (@entry_le V).
Proof.
  intros a b. unfold entry_le. destruct (Less b a) eqn:E1; [|by left].
  right. apply not_true_iff_false. intros E2. apply Less_spec in E1, E2.
  destruct E1 as [?|(? & ? & ?)], E2 as [?|(? & ? & ?)]; lia || congruence.
Qed.

#[export] Instance entry_le_trans {V} : Transitive (@entry_le V).
Proof.
  intros a b c. unfold entry_le. rewrite <- !not_true_iff_false, !Less_spec. intros H1 H2 H3.
  destruct (e_kind a), (e_kind b), (e_kind c); intuition (lia || congruence).
Qed.

#[export] Program Instance merge_sorter {V} : Sorter V :=
  {| sort_entries := merge_sort entry_le |}.
Next Obligation. intros V l. apply merge_sort_Permutation. Qed.
Next Obligation.
  intros V l i j a b Hij Ha Hb.
  pose proof (StronglySorted_merge_sort entry_le l) as Hs. revert i j Hij Ha Hb.
  induction Hs as [|x xs Hs IH Hall]; intros i j Hij Ha Hb; [done|].
  destruct j as [|j]; [lia|]. simpl in Hb. destruct i as [|i]; simplify_eq/=.
  - rewrite Forall_forall in Hall. apply Hall. by eapply list_elem_of_lookup_2.
  - apply (IH i j); [lia|done..].
Qed.

(** ** The entries of a history *)
Section entries.
Context {V : Type}.
Implicit Types (ops : list (Operation V)) (e : entry V).

Definition entry_of (i : Z) (op : Operation V) (k : bool) : entry V :=
  if k then MkEntry V returnEntry (Output op) i (Return op) (op_ClientId op)
  else MkEntry V callEntry (Input op) i (Call op) (op_ClientId op).

Lemma entry_of_ev i op k : ev_of (entry_of i op k) = (k, i).
Proof. by destruct k. Qed.

Lemma makeEntries_loop_in n ops e : e ∈ makeEntries_loop n ops ↔
  ∃ j op k, ops !! j = Some op ∧ e = entry_of (n + Z.of_nat j) op k.
Proof.
  revert n. induction ops as [|op ops IH]; intros n; simpl.
  - split; [by intros ?%not_elem_of_nil|]. intros (j & op & k & Hj & _). done.
  - rewrite !elem_of_cons, IH. split.
    + intros [->|[->|(j & op' & k & Hj & ->)]].
      * exists 0, op, false. by rewrite Z.add_0_r.
      * exists 0, op, true. by rewrite Z.add_0_r.
      * exists (S j), op', k. split; [done|]. f_equal. lia.
    + intros ([|j] & op' & k & Hj & ->); simplify_eq/=.
      * rewrite Z.add_0_r. destruct k; [right; left|left]; done.
      * right. right. exists j, op', k. split; [done|]. f_equal. lia.
Qed.

Lemma makeEntries_loop_nodup n ops : NoDup (ev_of <$> makeEntries_loop n ops).
Proof.
  revert n. induction ops as [|op ops IH]; intros n; simpl; [constructor|].
  assert (∀ k, (k, n) ∉ ev_of <$> makeEntries_loop (n + 1) ops) as Hno.
  { intros k (e & He & (j & op' & k' & _ & ->)%makeEntries_loop_in)%list_elem_of_fmap.
    rewrite entry_of_ev in He. simplify_eq. lia. }
  repeat (apply NoDup_cons; split); [|apply (Hno true)|apply IH].
  intros [?|?]%elem_of_cons; [done|by apply (Hno false)].
Qed.

Lemma makeEntries_loop_length n ops : length (makeEntries_loop n ops) = 2 * length ops.
Proof. revert n. induction ops; intros; simpl; [done|]. rewrite IHops. lia. Qed.

Context `{Sorter V} (ops : list (Operation V)) (Htimed : timed ops).

Notation es := (ev_of <$> makeEntries ops).

Lemma makeEntries_in e : e ∈ makeEntries ops ↔
  ∃ j op k, ops !! j = Some op ∧ e = entry_of (Z.of_nat j) op k.
Proof.
  unfold makeEntries. rewrite sort_perm, makeEntries_loop_in.
  by setoid_rewrite (left_id_L 0%Z Z.add).
Qed.

Lemma makeEntries_nodup : NoDup es.
Proof.
  unfold makeEntries. rewrite (fmap_Permutation _ _ _ (sort_perm _)). apply makeEntries_loop_nodup.
Qed.

Lemma makeEntries_event k i : (k, i) ∈ es ↔ ∃ op, (0 ≤ i)%Z ∧ ops !! Z.to_nat i = Some op.
Proof.
  rewrite list_elem_of_fmap. setoid_rewrite makeEntries_in. split.
  - intros (e & He & j & op & k' & Hj & ->). rewrite entry_of_ev in He. simplify_eq.
    exists op. rewrite Nat2Z.id. split; [lia|done].
  - intros (op & Hi & Hop). exists (entry_of i op k). rewrite entry_of_ev. split; [done|].
    exists (Z.to_nat i), op, k. rewrite Z2Nat.id by done. done.
Qed.

(** Entries in the sorted list are ordered by time, calls first. *)
Lemma makeEntries_sorted l1 e l2 e' l3 : makeEntries ops = l1 ++ e :: l2 ++ e' :: l3 → Less e' e = false.
Proof.
  intros Heq. unfold makeEntries in Heq.
  apply (sort_sorted (makeEntries_loop 0 ops) (length l1) (length l1 + S (length l2))); [lia|..];
    rewrite Heq.
  - by apply list_lookup_middle.
  - rewrite lookup_app_r by lia. replace (_ - _) with (S (length l2)) by lia. simpl.
    by apply list_lookup_middle.
Qed.

(** Two events of the list, in one order or the other. *)
Lemma entry_lookup k i op : (0 ≤ i)%Z → ops !! Z.to_nat i = Some op →
  entry_of i op k ∈ makeEntries ops.
Proof.
  intros Hi Hop. apply makeEntries_in. exists (Z.to_nat i), op, k. by rewrite Z2Nat.id.
Qed.

(** An event before another in the list of events. *)
Definition before (l : list ev) (a b : ev) : Prop := ∃ l1 l2, l = l1 ++ a :: l2 ∧ b ∈ l2.

Lemma entry_unique e k i op : e ∈ makeEntries ops → ev_of e = (k, i) →
  ops !! Z.to_nat i = Some op → e = entry_of i op k.
Proof.
  intros (j & op' & k' & Hj & ->)%makeEntries_in He Hop. rewrite entry_of_ev in He.
  simplify_eq. rewrite Nat2Z.id in Hop. by simplify_eq.
Qed.

Lemma before_entries k i op k' i' op' :
  ops !! Z.to_nat i = Some op → ops !! Z.to_nat i' = Some op' →
  before es (k, i) (k', i') → Less (entry_of i' op' k') (entry_of i op k) = false.
Proof.
  intros Hop Hop' (l1 & l2 & Heq & Hin).
  apply fmap_app_inv in Heq as (m1 & m2 & -> & Hm2 & Heq).
  symmetry in Hm2. apply fmap_cons_inv in Hm2 as (e & m3 & He & -> & ->).
  apply list_elem_of_fmap in Hin as (e' & He' & (m4 & m5 & ->)%list_elem_of_split).
  rewrite <- (entry_unique e k i op), <- (entry_unique e' k' i' op'); [|rewrite Heq|done..|rewrite Heq|done|done].
  - by eapply makeEntries_sorted.
  - rewrite elem_of_app, elem_of_cons, elem_of_app, elem_of_cons. tauto.
  - rewrite elem_of_app, elem_of_cons. tauto.
Qed.

Lemma before_total (l : list ev) a b : a ∈ l → b ∈ l → a ≠ b → before l a b ∨ before l b a.
Proof.
  intros (l1 & l2 & ->)%list_elem_of_split Hb Hne.
  rewrite elem_of_app, elem_of_cons in Hb. destruct Hb as [Hb|[->|Hb]]; [right|done|left].
  - apply list_elem_of_split in Hb as (l3 & l4 & ->). exists l3, (l4 ++ a :: l2).
    rewrite <- app_assoc. split; [done|]. rewrite elem_of_app, elem_of_cons. tauto.
  - by exists l1, l2.
Qed.

Lemma makeEntries_wf : lin.wf es.
Proof.
  split; [apply makeEntries_nodup| |].
  - intros l1 i l2 Heq.
    assert ((false, i) ∈ es) as (op & Hi & Hop)%makeEntries_event
      by (rewrite Heq, elem_of_app, elem_of_cons; tauto).
    assert ((true, i) ∈ es) as Hret by (apply makeEntries_event; eauto).
    rewrite Heq, elem_of_app, elem_of_cons in Hret. destruct Hret as [Hret|[?|?]]; [|done..].
    exfalso. apply list_elem_of_split in Hret as (l3 & l4 & ->).
    assert (before es (true, i) (false, i)) as Hb.
    { exists l3, (l4 ++ (false, i) :: l2). rewrite Heq, <- app_assoc. split; [done|].
      rewrite elem_of_app, elem_of_cons. tauto. }
    apply (before_entries _ _ op _ _ op Hop Hop), not_true_iff_false in Hb. apply Hb, Less_spec.
    unfold timed in Htimed. rewrite Forall_forall in Htimed.
    pose proof (Htimed op (list_elem_of_lookup_2 _ _ _ Hop)). simpl.
    destruct (decide (Call op = Return op)); [right|left]; [done|lia].
  - intros i. rewrite !makeEntries_event. done.
Qed.

(** Precedence of the events is precedence in time. *)
Lemma makeEntries_precedes i j a b :
  (0 ≤ i)%Z → (0 ≤ j)%Z → ops !! Z.to_nat i = Some a → ops !! Z.to_nat j = Some b →
  lin.precedes es i j ↔ (Return a < Call b)%Z.
Proof.
  intros Hi Hj Ha Hb. split.
  - intros Hp. apply (before_entries true i a false j b Ha Hb) in Hp.
    apply not_true_iff_false in Hp. rewrite Less_spec in Hp. simpl in Hp.
    destruct (decide (Return a < Call b)%Z) as [|Hn]; [done|]. exfalso. apply Hp.
    destruct (decide (Call b = Return a)); [by right|left; lia].
  - intros Hlt. destruct (before_total es (true, i) (false, j)) as [?|Hp]; [..|done|].
    + apply makeEntries_event. eauto.
    + apply makeEntries_event. eauto.
    + done.
    + apply (before_entries false j b true i a Hb Ha), not_true_iff_false in Hp.
      exfalso. apply Hp, Less_spec. left. done.
Qed.

Lemma makeEntries_nops : nops (makeEntries ops) = zlen ops.
Proof.
  unfold nops, zlen, makeEntries. rewrite sort_perm, makeEntries_loop_length.
  rewrite Nat2Z.inj_mul, Z.mul_comm. by apply Z.quot_mul.
Qed.

Lemma makeEntries_ids i : (false, i) ∈ es0 (makeEntries ops) → (0 ≤ i < nops (makeEntries ops))%Z.
Proof.
  intros (op & Hi & Hop)%makeEntries_event. rewrite makeEntries_nops.
  apply lookup_lt_Some in Hop. unfold zlen. lia.
Qed.

Lemma makeEntries_val `{GoNil V} i op k : (0 ≤ i)%Z → ops !! Z.to_nat i = Some op →
  val_of (makeEntries ops) (k, i) = if k then Output op else Input op.
Proof.
  intros Hi Hop. rewrite <- (entry_of_ev i op k).
  rewrite val_of_entry; [by destruct k|apply makeEntries_nodup|by apply entry_lookup].
Qed.

(** *** Sequences of ids and sequences of operations *)

Definition is_op (i : Z) (op : Operation V) : Prop := (0 ≤ i)%Z ∧ ops !! Z.to_nat i = Some op.

Lemma is_op_legal `{GoNil V} {St} (model : Model V St) σ τ s : Forall2 is_op σ τ →
  lin.legal (Step model) (inp (makeEntries ops)) (out (makeEntries ops)) s σ ↔ legal_ops model s τ.
Proof.
  intros Hf. revert s. induction Hf as [|i op σ τ [Hi Hop] Hf IH]; intros s; simpl; [done|].
  unfold inp, out. rewrite !(makeEntries_val i op) by done. by setoid_rewrite <- IH.
Qed.

Lemma is_op_real_time σ τ : Forall2 is_op σ τ → lin.respects es σ ↔ real_time τ.
Proof.
  intros Hf. split.
  - intros Hr k1 k2 a b Hlt Ha Hb Hab.
    destruct (Forall2_lookup_r _ _ _ _ _ Hf Ha) as (i & Hi & Hi0 & Hia).
    destruct (Forall2_lookup_r _ _ _ _ _ Hf Hb) as (j & Hj & Hj0 & Hjb).
    apply (Hr (take k1 σ) i (drop (S k1) σ) j); [by rewrite take_drop_middle| |].
    + apply list_elem_of_lookup. exists (k2 - S k1). rewrite lookup_drop.
      by replace (S k1 + (k2 - S k1)) with k2 by lia.
    + by apply (makeEntries_precedes j i b a).
  - intros Hr σ1 j σ2 i -> Hin Hp. apply list_elem_of_lookup in Hin as [k Hk].
    destruct (Forall2_lookup_l _ _ _ (length σ1) j Hf) as (b & Hb & Hj0 & Hjb);
      [by apply list_lookup_middle|].
    destruct (Forall2_lookup_l _ _ _ (length σ1 + S k) i Hf) as (a & Ha & Hi0 & Hia).
    { rewrite lookup_app_r by lia. by replace (_ - _) with (S k) by lia. }
    apply (Hr (length σ1) (length σ1 + S k) b a); [lia|done..|].
    by apply (makeEntries_precedes i j a b).
Qed.

Lemma Forall2_permute {A B} (R : A → B → Prop) l l' k : l ≡ₚ l' → Forall2 R l k →
  ∃ k', k ≡ₚ k' ∧ Forall2 R l' k'.
Proof.
  intros Hp. revert k. induction Hp as [|x l l' Hp IH|x y l|l1 l2 l3 _ IH1 _ IH2]; intros k Hf.
  - eauto.
  - apply Forall2_cons_inv_l in Hf as (b & k2 & Hb & Hf & ->).
    destruct (IH _ Hf) as (k' & ? & ?). exists (b :: k'). by split; constructor.
  - apply Forall2_cons_inv_l in Hf as (b & k2 & Hb & Hf & ->).
    apply Forall2_cons_inv_l in Hf as (c & k3 & Hc & Hf & ->).
    exists (c :: b :: k3). split; [apply perm_swap|by repeat constructor].
  - destruct (IH1 _ Hf) as (k' & Hk & Hf'). destruct (IH2 _ Hf') as (k'' & Hk' & Hf'').
    exists k''. split; [by etransitivity|done].
Qed.

Lemma is_op_all : Forall2 is_op (seqZ 0 (zlen ops)) ops.
Proof.
  apply Forall2_same_length_lookup. split.
  - rewrite length_seqZ. unfold zlen. lia.
  - intros k i op Hi Hop. apply lookup_seqZ in Hi as [-> Hi]. unfold is_op.
    rewrite Z.add_0_l, Nat2Z.id. split; [lia|done].
Qed.

(** A linearization of the entries, as a sequence of operations. *)
Lemma linearization_ops `{GoNil V} {St} (model : Model V St) σ :
  lin.linearization (Step model) (inp (makeEntries ops)) (out (makeEntries ops)) es (Init model) σ →
  ∃ τ, Forall2 is_op σ τ ∧ τ ≡ₚ ops ∧ legal_ops model (Init model) τ ∧ real_time τ.
Proof.
  intros (Hnd & Hin & Hl & Hr).
  assert (seqZ 0 (zlen ops) ≡ₚ σ) as Hp.
  { apply NoDup_Permutation; [apply NoDup_seqZ|done|]. intros i.
    rewrite Hin, makeEntries_event, elem_of_seqZ. split.
    - intros Hi. destruct (idx_total ops i) as [op Hop]; [lia|].
      apply idx_Done in Hop as [? ?]. eauto.
    - intros (op & Hi & Hop%lookup_lt_Some). unfold zlen. lia. }
  destruct (Forall2_permute _ _ _ _ Hp is_op_all) as (τ & Hτ & Hf). exists τ. split_and!.
  - done.
  - done.
  - by apply (is_op_legal model σ τ).
  - by apply (is_op_real_time σ τ).
Qed.

(** Linearizability of the entries is linearizability of the operations. *)
Lemma ops_linearizable `{GoNil V} {St} (model : Model V St) :
  lin.linearizable (Step model) (inp (makeEntries ops)) (out (makeEntries ops)) es (Init model)
  ↔ op_linearizable model ops.
Proof.
  split.
  - intros (σ & (τ & _ & ?)%linearization_ops). by exists τ.
  - intros (τ & Hp & Hl & Hr). symmetry in Hp.
    pose proof is_op_all as Hall. apply Forall2_flip in Hall.
    destruct (Forall2_permute _ _ _ _ Hp Hall) as (σ & Hσ & Hf). apply Forall2_flip in Hf.
    exists σ. split_and!.
    + rewrite <- Hσ. apply NoDup_seqZ.
    + intros i. rewrite <- Hσ, makeEntries_event, elem_of_seqZ. split.
      * intros Hi. destruct (idx_total ops i) as [op Hop]; [lia|].
        apply idx_Done in Hop as [? ?]. eauto.
      * intros (op & Hi & Hop%lookup_lt_Some). unfold zlen. lia.
    + by apply (is_op_legal model σ τ).
    + by apply (is_op_real_time σ τ).
Qed.

End entries.
End pops.
