(* ===== verification/KvModel.v ===== *)
(** * models/kv.go: the key-value model for the checker

    Inputs and outputs are [interface{}] values holding a [KvInput] or a
    [KvOutput]; a failed type assertion panics.  The state is the value of one
    key, because histories are partitioned by key. *)

From stdpp Require Import pretty.
From S2P Require Import Prelude GoStrings Bitset Porcupine.

Module kvmodel.

(** [Op]: 0 get, 1 put, 2 append, other values append with return value. *)
Record KvInput := MkKvInput { Op : Z; Key : string; Value : string }.
Record KvOutput := MkKvOutput { OutValue : string }.

(** The dynamic types of the [interface{}] values of this model. *)
Inductive iface := INil | IInput (i : KvInput) | IOutput (o : KvOutput).
#[global] Instance iface_nil : GoNil iface := INil.

(** [%v] of the values. *)
#[global] Instance iface_string : GoString iface := λ v,
  match v with
  | INil => "<nil>"
  | IInput i => "{" +:+ pretty (Op i) +:+ " " +:+ Key i +:+ " " +:+ Value i +:+ "}"
  | IOutput o => "{" +:+ OutValue o +:+ "}"
  end.
#[global] Instance string_string : GoString string := λ s, s.

Definition as_input (v : iface) : outcome KvInput :=
  match v with IInput i => Done i | _ => Panic "interface conversion" end.
Definition as_output (v : iface) : outcome KvOutput :=
  match v with IOutput o => Done o | _ => Panic "interface conversion" end.

(** The map from key to operations that the first loop builds. *)
Fixpoint group (m : gmap string (list (Operation iface))) (history : list (Operation iface))
    : outcome (gmap string (list (Operation iface))) :=
  match history with
  | [] => Done m
  | v :: history' =>
      let! i := as_input (Input v) in
      group (<[Key i := default [] (m !! Key i) ++ [v]]> m) history'
  end.

Definition KvPartition (history : list (Operation iface))
    : outcome (list (list (Operation iface))) :=
  let! m := group ∅ history in
  let keys := gostrings.sort_Strings (map_to_list m).*1 in
  Done ((λ k, default [] (m !! k)) <$> keys).

Definition KvInit : string := "".

Definition KvStep (state : string) (input output : iface) : outcome (bool * string) :=
  let! inp := as_input input in
  let! out := as_output output in
  let st := state in
  if (Op inp =? 0)%Z then Done (bool_decide (OutValue out = st), state)
  else if (Op inp =? 1)%Z then Done (true, Value inp)
  else if (Op inp =? 2)%Z then Done (true, st +:+ Value inp)
  else Done (bool_decide (OutValue out = st), st +:+ Value inp).

Definition KvDescribe (input output : iface) : outcome string :=
  let! inp := as_input input in
  let! out := as_output output in
  if (Op inp =? 0)%Z then Done ("get('" +:+ Key inp +:+ "') -> '" +:+ OutValue out +:+ "'")
  else if (Op inp =? 1)%Z then Done ("put('" +:+ Key inp +:+ "', '" +:+ Value inp +:+ "')")
  else if (Op inp =? 2)%Z then Done ("append('" +:+ Key inp +:+ "', '" +:+ Value inp +:+ "')")
  else Done "<invalid>".

Definition KvModel : Model iface string :=
  MkModel iface string (Some KvPartition) None KvInit KvStep None (Some KvDescribe) None.

(** ** What the partition contains *)

Definition op_key (op : Operation iface) : option string :=
  match Input op with IInput i => Some (Key i) | _ => None end.

(** The operations of a key, in the order of the history. *)
Definition of_key (k : string) (history : list (Operation iface)) : list (Operation iface) :=
  filter (λ op, op_key op = Some k) history.

Definition typed (op : Operation iface) : Prop :=
  (∃ i, Input op = IInput i) ∧ (∃ o, Output op = IOutput o).

Lemma of_key_app k l1 l2 : of_key k (l1 ++ l2) = of_key k l1 ++ of_key k l2.
Proof. apply filter_app. Qed.

Lemma group_spec done m history :
  (∀ k, m !! k = if decide (of_key k done = []) then None else Some (of_key k done)) →
  Forall typed history →
  ∃ m', group m history = Done m' ∧
    ∀ k, m' !! k = if decide (of_key k (done ++ history) = []) then None
                   else Some (of_key k (done ++ history)).
Proof.
  intros Hm Ht. revert done m Hm. induction Ht as [|op history [[i Hi] _] Ht IH]; intros done m Hm.
  - exists m. split; [done|]. by rewrite app_nil_r.
  - simpl. rewrite Hi. simpl.
    destruct (IH (done ++ [op]) (<[Key i := default [] (m !! Key i) ++ [op]]> m)) as (m' & Hg & Hm').
    + intros k. rewrite of_key_app.
      assert (op_key op = Some (Key i)) as Hk by (unfold op_key; by rewrite Hi).
      destruct (decide (k = Key i)) as [->|Hne].
      * assert (of_key (Key i) [op] = [op]) as -> by (unfold of_key; by rewrite filter_cons_True).
        rewrite lookup_insert_eq, Hm. case_decide as D; simpl.
        -- by rewrite D.
        -- by rewrite decide_False by (by destruct (of_key (Key i) done)).
      * assert (of_key k [op] = []) as ->.
        { unfold of_key. rewrite filter_cons_False; [done|]. rewrite Hk. congruence. }
        by rewrite lookup_insert_ne, Hm, app_nil_r.
    + exists m'. split; [done|]. intros k. rewrite Hm'. by rewrite <- app_assoc.
Qed.

Lemma KvPartition_spec history : Forall typed history →
  ∃ keys, KvPartition history = Done ((λ k, of_key k history) <$> keys) ∧ NoDup keys ∧
    ∀ k, k ∈ keys ↔ of_key k history ≠ [].
Proof.
  intros Ht. destruct (group_spec [] ∅ history) as (m & Hg & Hm); [done|done|]. simpl in Hm.
  unfold KvPartition. rewrite Hg. simpl.
  assert (gostrings.sort_Strings (map_to_list m).*1 ≡ₚ (map_to_list m).*1) as Hp
    by apply gostrings.sort_Strings_perm.
  assert (∀ k, k ∈ gostrings.sort_Strings (map_to_list m).*1 ↔ of_key k history ≠ []) as Hin.
  { intros k. rewrite Hp, list_elem_of_fmap. split.
    - intros ([k' l] & -> & Hl%elem_of_map_to_list). simpl. rewrite Hm in Hl. by case_decide.
    - intros Hne. exists (k, of_key k history). split; [done|]. apply elem_of_map_to_list.
      by rewrite Hm, decide_False. }
  exists (gostrings.sort_Strings (map_to_list m).*1). split; [|split; [rewrite Hp; apply NoDup_fst_map_to_list|exact Hin]].
  f_equal. apply list_fmap_ext. intros j k Hk. rewrite Hm.
  apply list_elem_of_lookup_2, Hin in Hk. by rewrite decide_False.
Qed.

(** The step never panics on well-typed operations. *)
Lemma KvStep_returns s op : typed op → returns (KvStep s (Input op) (Output op)).
Proof.
  intros [[i Hi] [o Ho]]. unfold KvStep. rewrite Hi, Ho. simpl.
  destruct (_ =? 0)%Z; [by eexists|]. destruct (_ =? 1)%Z; [by eexists|].
  destruct (_ =? 2)%Z; by eexists.
Qed.

End kvmodel.
