(* ===== verification/PorcupineTheorems.v ===== *)
(** * Correctness of the linearizability checker

    [checkSingle] decides linearizability of a history; [checkParallel] and the
    exported functions combine the partitions, whatever the order in which the
    goroutines answer and whether or not the timeout fires. *)

From S2P Require Import Prelude Bitset Porcupine PorcupineList Linearizability.
From S2P Require Import PorcupineSearch PorcupineOps KvModel.

Module pdriver.
Import psearch pops.

(** ** The kill flag *)

(** A search that is killed answers [false]; otherwise the flag has no effect. *)
Lemma loop_kill {V S} fuel k j kill (model : Model V S) cp n head st pt :
  checker.checkSingle_loop fuel k kill model cp n head st = Some (Done (true, pt)) →
  checker.checkSingle_loop fuel j checker.never model cp n head st = Some (Done (true, pt)).
Proof.
  revert k j st. induction fuel as [|fuel IH]; intros k j st; simpl; [done|].
  destruct (heap.load _ _) as [hd| |]; [|done..]. destruct (next hd); [|done].
  destruct (kill k); simpl; [done|].
  destruct (heap.load _ _) as [e| |]; [|done..]. destruct (match_ e).
  - destruct (checker.try_call _ _ _ _); [apply IH|done..].
  - destruct (checker.backtrack _ _) as [[st'|]| |]; [apply IH|done..].
Qed.

(** More fuel does not change an answer. *)
Lemma loop_fuel {V S} fuel fuel' k kill (model : Model V S) cp n head st r :
  checker.checkSingle_loop fuel k kill model cp n head st = Some r → fuel ≤ fuel' →
  checker.checkSingle_loop fuel' k kill model cp n head st = Some r.
Proof.
  revert fuel' k st. induction fuel as [|fuel IH]; intros fuel' k st; simpl; [done|].
  intros Hr Hle. destruct fuel' as [|fuel']; [lia|]. simpl.
  destruct (heap.load _ _) as [hd| |]; [|done..]. destruct (next hd); [|done].
  destruct (kill k); [done|]. destruct (heap.load _ _) as [e| |]; [|done..]. destruct (match_ e).
  - destruct (checker.try_call _ _ _ _); [apply IH; [done|lia]|done..].
  - destruct (checker.backtrack _ _) as [[st'|]| |]; [apply IH; [done|lia]|done..].
Qed.

Lemma checkSingle_kill {V S} `{GoNil V} fuel fuel' (model : Model V S) history cp kill pt :
  checker.checkSingle fuel model history cp kill = Some (Done (true, pt)) → fuel ≤ fuel' →
  checker.checkSingle fuel' model history cp checker.never = Some (Done (true, pt)).
Proof.
  unfold checker.checkSingle. destruct (checker.checkSingle_init model history) as [[[[n hd] st]| |]|];
    [|done..]. intros Hl Hle. eapply loop_fuel; [|exact Hle]. by eapply loop_kill.
Qed.

(** So an answer of the [select] loop does not depend on the fuel. *)
Lemma select_loop_fuel {V S} `{GoNil V} fuel fuel' (model : Model V S) history ci timeout cases : fuel ≤ fuel' →
  ∀ ok count received r,
  checker.select_loop fuel model history ci timeout ok count received cases = Some r →
  checker.select_loop fuel' model history ci timeout ok count received cases = Some r.
Proof.
  intros Hle. induction cases as [|[i|] cases IH]; intros ok count received r; simpl; [done| |done].
  case_decide; [done|]. destruct (history !! i) as [sub|]; [|done]. simpl.
  assert (∀ x, checker.checkSingle fuel model sub ci checker.never = Some x →
    checker.checkSingle fuel' model sub ci checker.never = Some x) as Hsub.
  { unfold checker.checkSingle. destruct (checker.checkSingle_init model sub) as [[[[n hd] st]| |]|]; [|done..].
    intros x Hx. by eapply loop_fuel. }
  destruct (checker.checkSingle fuel model sub ci checker.never) as [x|] eqn:E; [|done].
  rewrite (Hsub x) by done. simpl. destruct x as [[result pt]| |]; [|done..].
  destruct (negb _ && _); [done|]. destruct (_ <=? _)%Z; [done|]. apply IH.
Qed.

(** A timeout needs a timer. *)
Lemma select_loop_fired {V S} `{GoNil V} fuel (model : Model V S) history ci timeout cases :
  ∀ ok count received ok' received',
  checker.select_loop fuel model history ci timeout ok count received cases = Some (Done (ok', true, received')) →
  checker.Fired ∈ cases.
Proof.
  induction cases as [|[i|] cases IH]; intros ok count received ok' received'; simpl; [done| |by left].
  case_decide; [done|]. destruct (history !! i) as [sub|]; [|done]. simpl.
  destruct (checker.checkSingle fuel model sub ci checker.never) as [[[result pt]| |]|]; [|done..]. simpl.
  destruct (negb _ && _); [done|]. destruct (_ <=? _)%Z; [done|]. intros Hl. right. by eapply IH.
Qed.

(** ** One partition *)

(** The histories the checker is made for: operations return after they are
    called, and the model's step does not panic on them. *)
Definition checkable {V S} (model : Model V S) (ops : list (Operation V)) : Prop :=
  timed ops ∧ ∀ s op, op ∈ ops → returns (Step model s (Input op) (Output op)).

Section driver.
Context {V S : Type} `{GoNil V, Sorter V} (model : Model V S) (Heq : equal_sound model).
Implicit Types (ops : list (Operation V)) (parts : list (list (Operation V))).

Lemma checkable_step ops s i : checkable model ops → (false, i) ∈ es0 (makeEntries ops) →
  ∃ ok s', Step model s (inp (makeEntries ops) i) (out (makeEntries ops) i) = Done (ok, s').
Proof.
  intros [_ Hs] (op & Hi & Hop)%makeEntries_event. unfold inp, out.
  rewrite !(makeEntries_val ops i op) by done.
  destruct (Hs s op) as [[ok s'] ?]; [by eapply list_elem_of_lookup_2|]. eauto.
Qed.

(** The answer of the search for one partition. *)
Lemma checkSingle_ops cp ops : checkable model ops →
  ∃ N, ∃ r : bool, (r = true ↔ op_linearizable model ops) ∧ ∀ fuel, N ≤ fuel →
    ∃ pt, checker.checkSingle fuel model (makeEntries ops) cp checker.never = Some (Done (r, pt)).
Proof.
  intros Hc. pose proof (makeEntries_wf ops (proj1 Hc)) as Hwf.
  destruct (search_spec model cp (makeEntries ops) Hwf (makeEntries_ids ops)
    (λ s i, checkable_step ops s i Hc) Heq) as [N HN].
  assert (∀ σ, lin.lin (Step model) (inp (makeEntries ops)) (out (makeEntries ops))
     (es0 (makeEntries ops)) (Init model) σ → op_linearizable model ops) as Hyes.
  { intros σ Hl. apply (ops_linearizable ops model). exists σ. by apply lin.lin_iff. }
  assert (op_linearizable model ops → ∃ σ, lin.lin (Step model) (inp (makeEntries ops))
     (out (makeEntries ops)) (es0 (makeEntries ops)) (Init model) σ) as Hno.
  { intros [σ Hσ]%(ops_linearizable ops model). exists σ. by apply lin.lin_iff. }
  exists N. destruct (HN N) as [pt [[Hr (σ & Hl & _)]|[Hr Hl]]]; [lia| |].
  - exists true. split; [split; [intros _; by eapply Hyes|done]|]. intros fuel Hf. exists pt.
    eapply checkSingle_kill; [exact Hr|done].
  - destruct Hl as [Hl _]. unfold dead in Hl. rewrite rest_empty in Hl. exists false. split; [split; [done|]|].
    + intros [σ Hσ]%Hno. by apply Hl in Hσ.
    + intros fuel Hf. destruct (HN fuel Hf) as [pt' [[_ (σ & Hσ & _)]|[Hr' _]]]; [|by exists pt'].
      by apply Hl in Hσ.
Qed.

Lemma checkSingle_parts cp parts : Forall (checkable model) parts →
  ∃ N, ∃ res : nat → bool,
    (∀ i ops, parts !! i = Some ops → res i = true ↔ op_linearizable model ops) ∧
    ∀ fuel, N ≤ fuel → ∀ i sub, (makeEntries <$> parts) !! i = Some sub →
      ∃ pt, checker.checkSingle fuel model sub cp checker.never = Some (Done (res i, pt)).
Proof.
  induction 1 as [|ops parts Hc _ (N & res & Hres & HN)].
  - exists 0, (λ _, true). split; [done|]. intros fuel _ i sub. done.
  - destruct (checkSingle_ops cp ops Hc) as (N0 & r & Hr & HN0).
    exists (N `max` N0), (λ i, match i with O => r | Datatypes.S i' => res i' end). split.
    + intros [|i] ops'; simpl; [by intros [= <-]|by apply Hres].
    + intros fuel Hf [|i] sub; simpl; [intros [= <-]; apply HN0; lia|]. apply HN. lia.
Qed.

End driver.

(** ** The select loop *)
Section select.
Context {V S : Type} `{GoNil V} (model : Model V S) (ci : bool) (timeout : Z) (fuel : nat).
Context (history : list (list (entry V))) (res : nat → bool).
Context (Hres : ∀ i sub, history !! i = Some sub →
  ∃ pt, checker.checkSingle fuel model sub ci checker.never = Some (Done (res i, pt))).

(** The goroutines received from are distinct ones. *)
Definition received_ok (received : list nat) : Prop :=
  NoDup received ∧ Forall (λ i, i < length history) received.

Lemma received_all received : received_ok received → (zlen history ≤ zlen received)%Z →
  ∀ i, i < length history → i ∈ received.
Proof.
  intros [Hnd Hr] Hlen i Hi. unfold zlen in Hlen.
  assert (received ≡ₚ seq 0 (length history)) as ->; [|apply elem_of_seq; lia].
  apply submseteq_length_Permutation; [|rewrite length_seq; lia].
  apply NoDup_submseteq; [done|]. intros j Hj. rewrite Forall_forall in Hr.
  apply elem_of_seq. apply Hr in Hj. lia.
Qed.

Lemma select_loop_spec cases ok count received r :
  checker.select_loop fuel model history ci timeout ok count received cases = Some r →
  received_ok received → count = zlen received → ok = forallb res received →
  ∃ ok' to received', r = Done (ok', to, received') ∧ received_ok received' ∧
    ok' = forallb res received' ∧
    (to = false → ok' = false ∨ (zlen history ≤ zlen received')%Z) ∧
    (to = true → (0 < timeout)%Z).
Proof.
  revert ok count received. induction cases as [|[i|] cases IH]; intros ok count received; simpl; [done| |].
  - case_decide as Hi; [done|]. destruct (history !! i) as [sub|] eqn:Hsub; [|done]. simpl.
    destruct (Hres i sub Hsub) as [pt ->]. simpl. intros Hl [Hnd Hr] -> ->.
    assert (received_ok (received ++ [i])) as Hok.
    { split.
      - apply NoDup_app. split_and!; [done| |apply NoDup_singleton].
        intros x Hx ->%list_elem_of_singleton. done.
      - apply Forall_app. split; [done|]. apply Forall_singleton. by eapply lookup_lt_Some. }
    assert (forallb res received && res i = forallb res (received ++ [i])) as Hfb
      by (rewrite forallb_app; simpl; by rewrite andb_true_r).
    assert (zlen received + 1 = zlen (received ++ [i]))%Z as Hz by (by rewrite zlen_app).
    rewrite Hfb, Hz in Hl. destruct (forallb res (received ++ [i])) eqn:E; simpl in Hl; cycle 1.
    + destruct ci; simpl in Hl.
      * destruct (Z.leb_spec (zlen history) (zlen (received ++ [i]))); simplify_eq.
        -- eexists _, _, _. split_and!; [done..|by left|done].
        -- eapply IH; [exact Hl|done|done|done].
      * simplify_eq. eexists _, _, _. split_and!; [done..|by left|done].
    + destruct (Z.leb_spec (zlen history) (zlen (received ++ [i]))); simplify_eq.
      * eexists _, _, _. split_and!; [done..|by right|done].
      * eapply IH; [exact Hl|done|done|done].
  - destruct (Z.ltb_spec 0 timeout); [|done]. intros [= <-] Hok -> ->.
    eexists _, _, _. split_and!; [done..|done].
Qed.

(** If every goroutine not yet received from sends, the loop ends. *)
Lemma select_loop_ends js ok count received :
  received ++ js ≡ₚ seq 0 (length history) → js ≠ [] → count = zlen received →
  ∃ r, checker.select_loop fuel model history ci timeout ok count received (checker.Sent <$> js)
    = Some r.
Proof.
  revert ok count received. induction js as [|i js IH]; intros ok count received Hp Hne ->; [done|].
  simpl. assert (NoDup (received ++ i :: js)) as Hnd by (rewrite Hp; apply NoDup_seq).
  case_decide as Hi.
  { exfalso. apply NoDup_app in Hnd as (_ & Hd & _). apply (Hd i Hi). left. }
  assert (i ∈ seq 0 (length history)) as Hin.
  { rewrite <- Hp. apply elem_of_app. right. left. }
  apply elem_of_seq in Hin as [_ Hin]. apply lookup_lt_is_Some_2 in Hin as [sub Hsub].
  rewrite Hsub. simpl. destruct (Hres i sub Hsub) as [pt ->]. simpl.
  destruct (negb _ && negb ci); [by eauto|].
  assert (length history = length received + Datatypes.S (length js)) as Hlen.
  { apply Permutation_length in Hp. rewrite length_app, length_seq in Hp. simpl in Hp. lia. }
  destruct (Z.leb_spec (zlen history) (zlen received + 1)) as [|Hlt]; [by eauto|].
  apply IH; [by rewrite <- app_assoc| |by rewrite zlen_app].
  intros ->. unfold zlen in Hlt. simpl in Hlen. lia.
Qed.

End select.

(** ** The defaults *)

Lemma fillDefault_equal {V S} `{EqDecision S, GoString V, GoString S} (model : Model V S) :
  Equal model = None ∨ equal_sound model → equal_sound (checker.fillDefault model).
Proof.
  intros [He|(eq & R & He & HR & Hs)].
  - exists ShallowEqual, (=). split_and!; [simpl; by rewrite He| |].
    + intros s t Hst. by apply bool_decide_eq_true in Hst.
    + intros s t i o s' -> Hs. eauto.
  - exists eq, R. split_and!; [simpl; by rewrite He|done|done].
Qed.

Lemma fillDefault_linearizable {V S} `{EqDecision S, GoString V, GoString S} (model : Model V S) ops :
  op_linearizable (checker.fillDefault model) ops ↔ op_linearizable model ops.
Proof.
  unfold op_linearizable. simpl.
  assert (∀ s τ, legal_ops (checker.fillDefault model) s τ ↔ legal_ops model s τ) as Hl.
  { intros s τ. revert s. induction τ as [|op τ IH]; intros s; simpl; [done|]. by setoid_rewrite IH. }
  by setoid_rewrite Hl.
Qed.

Lemma forallb_received (res : nat → bool) l : forallb res l = true ↔ ∀ i, i ∈ l → res i = true.
Proof.
  rewrite forallb_forall. by setoid_rewrite list_elem_of_In.
Qed.

(** What the driver answers, in terms of the partitions. *)
Section answers.
Context {V S : Type} `{GoNil V, Sorter V} (model : Model V S) (Heq : equal_sound model).

Lemma parallel_answer parts ci timeout : Forall (checkable model) parts → parts ≠ [] →
  ∃ N, ∀ fuel, N ≤ fuel → ∀ cases r,
    checker.select_loop fuel model (makeEntries <$> parts) ci timeout true 0 [] cases = Some r →
    ∃ ok to received, r = Done (ok, to, received) ∧
      (to = true → (0 < timeout)%Z) ∧
      (checker.result_of ok to = Ok → Forall (op_linearizable model) parts) ∧
      (checker.result_of ok to = Illegal → ¬ Forall (op_linearizable model) parts) ∧
      (checker.result_of ok to = Unknown → to = true).
Proof.
  intros Hc Hne. destruct (checkSingle_parts model Heq ci parts Hc) as (N & res & Hres & HN).
  exists N. intros fuel Hf cases r Hl.
  destruct (select_loop_spec model ci timeout fuel (makeEntries <$> parts) res (HN fuel Hf)
    _ _ _ _ _ Hl) as (ok & to & received & -> & Hok & -> & Hend & Hto); [by split; constructor|done..|].
  eexists _, _, _. split; [done|]. split; [done|].
  unfold checker.result_of. destruct (forallb res received) eqn:E; simpl.
  - destruct to; [by split_and!|]. split_and!; [|done..]. intros _. destruct Hend as [?|Hlen]; [done..|].
    apply Forall_lookup. intros i ops Hi. apply (Hres i ops Hi).
    rewrite forallb_received in E. apply E. eapply received_all; [exact Hok|done|].
    rewrite length_fmap. by eapply lookup_lt_Some.
  - split_and!; [done| |done]. intros _ Hall. apply not_true_iff_false in E. apply E.
    apply forallb_received. intros i Hi. destruct Hok as [_ Hok]. rewrite Forall_forall in Hok.
    apply Hok in Hi. rewrite length_fmap in Hi. apply lookup_lt_is_Some in Hi as [ops Hi].
    apply (Hres i ops Hi). rewrite Forall_lookup in Hall. by eapply Hall.
Qed.

Lemma parallel_ends parts ci : Forall (checkable model) parts → parts ≠ [] →
  ∃ N, ∀ fuel, N ≤ fuel → ∀ js timeout, js ≡ₚ seq 0 (length parts) →
    ∃ r, checker.select_loop fuel model (makeEntries <$> parts) ci timeout true 0 []
           (checker.Sent <$> js) = Some r.
Proof.
  intros Hc Hne. destruct (checkSingle_parts model Heq ci parts Hc) as (N & res & Hres & HN).
  exists N. intros fuel Hf js timeout Hp.
  eapply (select_loop_ends model ci timeout fuel _ res (HN fuel Hf)).
  - by rewrite length_fmap.
  - intros ->. apply Permutation_length in Hp. rewrite length_seq in Hp. by destruct parts.
  - done.
Qed.

End answers.

(** The answer of [CheckOperations] when every goroutine sends. *)
Lemma check_ops_answer {V S} `{GoNil V, EqDecision S, GoString V, GoString S, Sorter V}
    (model : Model V S) (ops : list (Operation V)) parts :
  Equal model = None ∨ equal_sound model →
  default NoPartition (Partition model) ops = Done parts → parts ≠ [] →
  Forall (checkable model) parts →
  ∃ N, ∀ fuel, N ≤ fuel → ∀ js kills, js ≡ₚ seq 0 (length parts) →
    ∃ b, porcupine.CheckOperations model ops
           (checker.MkChoice fuel (checker.Sent <$> js) kills) = Some (Done b) ∧
      (b = true ↔ Forall (op_linearizable model) parts).
Proof.
  intros Heq%fillDefault_equal Hp Hne Hc.
  destruct (parallel_answer _ Heq parts false 0 Hc Hne) as [N1 Hans].
  destruct (parallel_ends _ Heq parts false Hc Hne) as [N2 Hends].
  exists (N1 `max` N2). intros fuel Hf js kills Hjs.
  destruct (Hends fuel ltac:(lia) js 0%Z Hjs) as [r Hr].
  destruct (Hans fuel ltac:(lia) _ _ Hr) as (ok & to & received & -> & Hto & Hok & Hill & Hunk).
  unfold porcupine.CheckOperations, checker.checkOperations. simpl. rewrite Hp. simpl.
  unfold checker.checkParallel. rewrite Hr. simpl. eexists. split; [done|].
  rewrite (Forall_iff _ _ _ (λ x, fillDefault_linearizable model x)) in Hok, Hill.
  rewrite bool_decide_eq_true. split; [done|]. intros Hall.
  destruct (checker.result_of ok to); [|done|by apply Hill in Hall].
  specialize (Hto (Hunk eq_refl)). lia.
Qed.

(** The partitions of a key-value history are its keys. *)
Lemma kv_check_answer `{Sorter kvmodel.iface} (ops : list (Operation kvmodel.iface)) :
  Forall kvmodel.typed ops → timed ops → ops ≠ [] →
  ∃ N m, ∀ fuel, N ≤ fuel → ∀ js kills, js ≡ₚ seq 0 m →
    ∃ b, porcupine.CheckOperations kvmodel.KvModel ops
           (checker.MkChoice fuel (checker.Sent <$> js) kills) = Some (Done b) ∧
      (b = true ↔ ∀ k, op_linearizable kvmodel.KvModel (kvmodel.of_key k ops)).
Proof.
  intros Hty Hti Hne. destruct (kvmodel.KvPartition_spec ops Hty) as (keys & Hp & _ & Hkeys).
  destruct (check_ops_answer kvmodel.KvModel ops _ (or_introl eq_refl) Hp) as [N HN].
  - destruct ops as [|op ops]; [done|]. apply Forall_cons in Hty as [[[i Hi] _] _].
    intros Hnil%fmap_nil_inv. assert (kvmodel.Key i ∈ keys) as Hk; [|by rewrite Hnil in Hk; apply not_elem_of_nil in Hk].
    apply Hkeys. unfold kvmodel.of_key. rewrite filter_cons_True; [done|].
    unfold kvmodel.op_key. by rewrite Hi.
  - apply Forall_fmap, Forall_forall. intros k _. simpl.
    assert (∀ op, op ∈ kvmodel.of_key k ops → op ∈ ops) as Hsub
      by (by intros op [_ ?]%list_elem_of_filter).
    split.
    + unfold timed in *. rewrite Forall_forall in *. auto.
    + intros s op Hop. apply kvmodel.KvStep_returns. rewrite Forall_forall in Hty. auto.
  - exists N. eexists. intros fuel Hf js kills Hjs.
    destruct (HN fuel Hf js kills Hjs) as (b & Hb & Hiff). exists b. split; [done|].
    rewrite Hiff, Forall_fmap, Forall_forall. simpl. split; [|auto].
    intros Hall k. destruct (decide (k ∈ keys)) as [Hk|Hk]; [by apply Hall|].
    rewrite Hkeys in Hk. apply dec_stable in Hk. rewrite Hk. exists []. by split_and!.
Qed.

(** An answer [false] of a search that was not killed is a refutation. *)
Lemma checkSingle_refutes {V S} `{GoNil V, Sorter V} (model : Model V S) ops cp fuel pt :
  equal_sound model → checkable model ops →
  checker.checkSingle fuel model (makeEntries ops) cp checker.never = Some (Done (false, pt)) →
  ¬ op_linearizable model ops.
Proof.
  intros Heq Hc Hr. destruct (checkSingle_ops model Heq cp ops Hc) as (N & r & Hiff & HN).
  destruct (HN (fuel `max` N)) as [pt' Hr']; [lia|].
  assert (checker.checkSingle (fuel `max` N) model (makeEntries ops) cp checker.never
    = Some (Done (false, pt))) as Hr''.
  { unfold checker.checkSingle in *. destruct (checker.checkSingle_init model (makeEntries ops))
      as [[[[n hd] st]| |]|]; [|done..]. eapply loop_fuel; [exact Hr|lia]. }
  assert (r = false) as -> by congruence. intros Hl. by apply Hiff in Hl.
Qed.

End pdriver.

Import psearch pops pdriver.

(** C2: For every history of operations that return after their calls, a search
    that is not killed ends (some fuel is enough, and more fuel changes
    nothing) with the answer [true] exactly when the history is linearizable
    for the model. *)
Theorem checkSingle_decides {V S} `{GoNil V, Sorter V} (model : Model V S)
    (ops : list (Operation V)) (computePartial : bool) :
  equal_sound model → checkable model ops →
  ∃ N (r : bool), (r = true ↔ op_linearizable model ops) ∧ ∀ fuel, N ≤ fuel → ∃ pt,
    checker.checkSingle fuel model (makeEntries ops) computePartial checker.never
    = Some (Done (r, pt)).
Proof. intros Heq Hc. by apply checkSingle_ops. Qed.

(** Whenever [checkSingle] answers [true], killed or not and with any fuel,
    the history is linearizable and every entry of [longest] points to one
    complete linearization of it. *)
Theorem checkSingle_linearization {V S} `{GoNil V, Sorter V} (model : Model V S)
    (ops : list (Operation V)) (computePartial : bool) kill fuel pt :
  equal_sound model → checkable model ops →
  checker.checkSingle fuel model (makeEntries ops) computePartial kill = Some (Done (true, pt)) →
  ∃ σ τ, Forall2 (is_op ops) σ τ ∧ τ ≡ₚ ops ∧ legal_ops model (Init model) τ ∧ real_time τ ∧
    all_point_to (makeEntries ops) pt σ.
Proof.
  intros Heq Hc Hr. pose proof (makeEntries_wf ops (proj1 Hc)) as Hwf.
  destruct (search_spec model computePartial (makeEntries ops) Hwf (makeEntries_ids ops)
    (λ s i, checkable_step model ops s i Hc) Heq) as [N HN].
  assert (fuel ≤ fuel `max` N) as Hle by lia.
  pose proof (checkSingle_kill _ _ _ _ _ _ _ Hr Hle) as Hr'.
  destruct (HN (fuel `max` N)) as [pt' [[Hr'' (σ & Hl & Hpt)]|[Hr'' _]]]; [lia| |congruence].
  assert (pt' = pt) as -> by congruence. apply lin.lin_iff in Hl; [|done].
  destruct (linearization_ops ops model σ Hl) as (τ & ? & ? & ? & ?). eauto 10.
Qed.

(** C11: [CheckOperations] on a history that the model splits into at least one
    partition, with operations that return after their call and on which [Step] does
    not panic: it answers, in whatever order the goroutines finish, and its answer is
    whether every partition is linearizable.  ([Equal] decides equality or is left to
    the default; without a partition the driver blocks.) *)
Theorem CheckOperations_correct {V S} `{GoNil V, EqDecision S, GoString V, GoString S, Sorter V}
    (model : Model V S) (ops : list (Operation V)) parts :
  Equal model = None ∨ equal_sound model →
  default NoPartition (Partition model) ops = Done parts → parts ≠ [] →
  Forall (checkable model) parts →
  ∃ N, ∀ fuel, N ≤ fuel → ∀ js kills, js ≡ₚ seq 0 (length parts) →
    ∃ b, porcupine.CheckOperations model ops
           (checker.MkChoice fuel (checker.Sent <$> js) kills) = Some (Done b) ∧
      (b = true ↔ Forall (op_linearizable model) parts).
Proof. apply check_ops_answer. Qed.

(** C29: With a timeout, on the histories of C11 and under every schedule: [Ok] is
    only answered if all partitions are linearizable, [Illegal] only if some
    partition is not, and [Unknown] only if there is a timeout and its timer fired.
    If all goroutines get to send, the answer is [Ok] or [Illegal]. *)
Theorem CheckOperationsTimeout_sound {V S}
    `{GoNil V, EqDecision S, GoString V, GoString S, Sorter V}
    (model : Model V S) (ops : list (Operation V)) parts timeout :
  Equal model = None ∨ equal_sound model →
  default NoPartition (Partition model) ops = Done parts → parts ≠ [] →
  Forall (checkable model) parts →
  (∀ fuel cases kills r,
    porcupine.CheckOperationsTimeout model ops timeout (checker.MkChoice fuel cases kills)
      = Some (Done r) →
    (r = Ok → Forall (op_linearizable model) parts) ∧
    (r = Illegal → ¬ Forall (op_linearizable model) parts) ∧
    (r = Unknown → (0 < timeout)%Z ∧ checker.Fired ∈ cases)) ∧
  ∃ N, ∀ fuel, N ≤ fuel → ∀ js kills, js ≡ₚ seq 0 (length parts) →
    ∃ r, porcupine.CheckOperationsTimeout model ops timeout
           (checker.MkChoice fuel (checker.Sent <$> js) kills) = Some (Done r) ∧ r ≠ Unknown.
Proof.
  intros Heq%fillDefault_equal Hp Hne Hc.
  destruct (parallel_answer _ Heq parts false timeout Hc Hne) as [N1 Hans].
  destruct (parallel_ends _ Heq parts false Hc Hne) as [N2 Hends].
  unfold porcupine.CheckOperationsTimeout, checker.checkOperations. simpl. rewrite Hp. simpl.
  unfold checker.checkParallel. split.
  - intros fuel cases kills r.
    destruct (checker.select_loop _ _ _ _ _ _ _ _ _) as [r'|] eqn:Hr; [|done]. simpl.
    pose proof (select_loop_fuel fuel (fuel `max` N1) _ _ _ _ _ ltac:(lia) _ _ _ _ Hr) as Hr'.
    destruct (Hans (fuel `max` N1) ltac:(lia) _ _ Hr') as (ok & to & received & -> & Hto & Hok & Hill & Hunk). simpl.
    intros [= <-]. rewrite (Forall_iff _ _ _ (λ x, fillDefault_linearizable model x)) in Hok, Hill.
    split_and!; [done|done|]. intros Hu. pose proof (Hunk Hu) as ->. split; [auto|]. by eapply select_loop_fired.
  - exists (N1 `max` N2). intros fuel Hf js kills Hjs. destruct (Hends fuel ltac:(lia) js timeout Hjs) as [r Hr].
    rewrite Hr. destruct (Hans fuel ltac:(lia) _ _ Hr) as (ok & to & received & -> & _ & _ & _ & Hunk). simpl.
    eexists. split; [done|]. intros ->%Hunk. apply select_loop_fired in Hr.
    by apply list_elem_of_fmap in Hr as (? & ? & _).
Qed.

(** A history of well-typed key-value operations is accepted by
    [CheckOperations] for [KvModel], whatever the schedule of the goroutines,
    exactly when the operations on each key are linearizable by themselves. *)
Theorem kv_check_per_key `{Sorter kvmodel.iface} (ops : list (Operation kvmodel.iface)) :
  Forall kvmodel.typed ops → timed ops → ops ≠ [] →
  ∃ N m, ∀ fuel, N ≤ fuel → ∀ js kills, js ≡ₚ seq 0 m →
    ∃ b, porcupine.CheckOperations kvmodel.KvModel ops
           (checker.MkChoice fuel (checker.Sent <$> js) kills) = Some (Done b) ∧
      (b = true ↔ ∀ k, op_linearizable kvmodel.KvModel (kvmodel.of_key k ops)).
Proof. apply kv_check_answer. Qed.

(** [CheckOperations] for [KvModel] never answers on the empty history: it
    has no partition, so no goroutine ever sends on the channel of results the
    loop receives from. *)
Theorem kv_check_empty_blocks `{Sorter kvmodel.iface} (ch : checker.run_choice) :
  porcupine.CheckOperations kvmodel.KvModel [] ch = None.
Proof.
  destruct ch as [fuel [|[i|] cases] kills]; done.
Qed.

(** [unlift] undoes [lift]: on a linked list of nodes it restores the heap
    exactly, whatever was before, between and after the two nodes. *)
Theorem unlift_lift {V} (h : heap V) pv l0 p e ne l2 m l3 :
  NoDup (l0 ++ p :: e :: l2 ++ m :: l3) →
  plist.seg h pv (l0 ++ p :: e :: l2 ++ m :: l3) None →
  h !! e = Some ne → match_ ne = Some m →
  ∃ h', checker.lift h (Some e) = Done h' ∧ plist.seg h' pv (l0 ++ p :: l2 ++ l3) None ∧
    checker.unlift h' (Some e) = Done h.
Proof.
  intros Hnd Hs He Hm. destruct (plist.lift_spec _ _ _ _ _ _ _ _ _ Hnd Hs He Hm) as (h' & ? & ? & ? & ?).
  eauto.
Qed.

(** C39: A bitset made for [bits] positions refines a finite set: [set], [clear]
    and [get] are union, difference and membership without an index panic, the
    clone handed to the cache is equal, [popcnt] is the size, and [equals]
    decides equality of the sets. *)
Theorem bitset_refines (bits : Z) (b b2 : list Z) (X Y : gset Z) (pos : Z) :
  (0 ≤ pos < bits)%Z →
  bitset.denotes b X → length b = length (bitset.newBitset bits) →
  bitset.denotes b2 Y → length b2 = length (bitset.newBitset bits) →
  bitset.denotes (bitset.newBitset bits) ∅ ∧
  (∃ b', bitset.set (bitset.clone b) pos = Done b' ∧ bitset.denotes b' (X ∪ {[pos]})) ∧
  (∃ b', bitset.clear b pos = Done b' ∧ bitset.denotes b' (X ∖ {[pos]})) ∧
  bitset.get b pos = Done (bool_decide (pos ∈ X)) ∧
  bitset.popcnt b = Z.of_nat (size X) ∧
  (bitset.equals b b2 = true ↔ X = Y).
Proof.
  intros Hpos Hb Hlen Hb2 Hlen2. pose proof (bitset.newBitset_chunks bits ltac:(lia)) as Hch.
  assert (bitset.in_range b pos) as Hr.
  { unfold bitset.in_range, zlen in *. rewrite Hlen. lia. }
  split_and!.
  - apply bitset.newBitset_empty.
  - rewrite bitset.clone_id. destruct (bitset.set_denotes _ _ _ Hb Hr) as (b' & ? & _ & ?). eauto.
  - destruct (bitset.clear_denotes _ _ _ Hb Hr) as (b' & ? & _ & ?). eauto.
  - by apply bitset.get_denotes.
  - by apply bitset.popcnt_size.
  - rewrite bitset.equals_eq. split.
    + intros ->. destruct Hb as [_ Hb], Hb2 as [_ Hb2]. apply set_eq. intros x. by rewrite Hb, Hb2.
    + intros ->. apply (bitset.denotes_inj _ _ Y); [congruence|done..].
Qed.

(** ** Concrete histories *)

(** A put of "a", a get that overlaps it and sees "a", a get that sees "". *)
Definition put_get : list (Operation kvmodel.iface) :=
  let op c i o ca re := MkOperation kvmodel.iface c (kvmodel.IInput i) ca
                          (kvmodel.IOutput (kvmodel.MkKvOutput o)) re in
  [op 0 (kvmodel.MkKvInput 1 "k" "a") "" 0 5; op 1 (kvmodel.MkKvInput 0 "k" "") "a" 2 6;
   op 2 (kvmodel.MkKvInput 0 "k" "") "" 1 3; op 1 (kvmodel.MkKvInput 0 "j" "") "" 7 8]%Z.

Lemma put_get_typed : Forall kvmodel.typed put_get.
Proof. repeat (apply Forall_cons; split); [by split; eexists..|]. apply Forall_nil. done. Qed.

Lemma put_get_timed : timed put_get.
Proof. repeat (apply Forall_cons; split); simpl; [lia..|]. apply Forall_nil. done. Qed.

Lemma put_get_checkable ops : (∀ op, op ∈ ops → op ∈ put_get) →
  checkable (checker.fillDefault kvmodel.KvModel) ops.
Proof.
  intros Hsub. pose proof put_get_timed as Ht. pose proof put_get_typed as Hy.
  unfold timed in *. rewrite Forall_forall in Ht, Hy. split.
  - apply Forall_forall. auto.
  - intros s op Hop. apply kvmodel.KvStep_returns. auto.
Qed.

Lemma kv_equal_sound : equal_sound (checker.fillDefault kvmodel.KvModel).
Proof. apply fillDefault_equal. by left. Qed.

(** The operations of key "k" of [put_get]. *)
Notation put_get_k := (kvmodel.of_key "k" put_get).

Lemma checkSingle_decides_witness :
  ∃ N (r : bool), (r = true ↔ op_linearizable (checker.fillDefault kvmodel.KvModel) put_get_k) ∧
  ∀ fuel, N ≤ fuel → ∃ pt,
    checker.checkSingle fuel (checker.fillDefault kvmodel.KvModel) (makeEntries put_get_k) true
      checker.never = Some (Done (r, pt)).
Proof.
  apply (checkSingle_decides (checker.fillDefault kvmodel.KvModel) put_get_k true).
  - apply kv_equal_sound.
  - apply put_get_checkable. intros op [_ ?]%list_elem_of_filter. done.
Defined.

Lemma checkSingle_linearization_witness : ∃ pt σ τ,
  checker.checkSingle 20 (checker.fillDefault kvmodel.KvModel) (makeEntries put_get_k) true
    checker.never = Some (Done (true, pt)) ∧
  Forall2 (is_op put_get_k) σ τ ∧ τ ≡ₚ put_get_k ∧
  legal_ops (checker.fillDefault kvmodel.KvModel) "" τ.
Proof.
  destruct (checker.checkSingle 20 (checker.fillDefault kvmodel.KvModel) (makeEntries put_get_k) true
    checker.never) as [[[[] pt]| |]|] eqn:E; [|vm_compute in E; discriminate E..].
  destruct (checkSingle_linearization (checker.fillDefault kvmodel.KvModel) put_get_k true
    checker.never 20 pt) as (σ & τ & Hf & Hp & Hl & _).
  - apply kv_equal_sound.
  - apply put_get_checkable. intros op [_ ?]%list_elem_of_filter. done.
  - exact E.
  - exists pt, σ, τ. by split_and!.
Defined.

Definition put_get_parts : list (list (Operation kvmodel.iface)) :=
  [kvmodel.of_key "j" put_get; put_get_k].

Lemma put_get_parts_checkable : Forall (checkable kvmodel.KvModel) put_get_parts.
Proof.
  repeat (apply Forall_cons; split); [..|by apply Forall_nil];
    apply put_get_checkable; intros op [_ ?]%list_elem_of_filter; done.
Qed.

Lemma CheckOperations_correct_witness : ∃ N, ∀ fuel, N ≤ fuel → ∀ kills, ∃ b,
  porcupine.CheckOperations kvmodel.KvModel put_get
    (checker.MkChoice fuel [checker.Sent 1; checker.Sent 0] kills) = Some (Done b).
Proof.
  destruct (CheckOperations_correct kvmodel.KvModel put_get put_get_parts) as [N HN].
  - by left.
  - vm_compute. reflexivity.
  - done.
  - apply put_get_parts_checkable.
  - exists N. intros fuel Hf kills. destruct (HN fuel Hf [1; 0] kills) as (b & ? & _).
    + apply perm_swap.
    + by exists b.
Defined.

(** The answer on this history, computed. *)
Lemma CheckOperations_put_get :
  porcupine.CheckOperations kvmodel.KvModel put_get
    (checker.MkChoice 20 [checker.Sent 1; checker.Sent 0] (λ _ _, false)) = Some (Done true).
Proof. vm_compute. reflexivity. Qed.

(** A put of "a", and a get that starts later and returns "". *)
Definition stale_get : list (Operation kvmodel.iface) :=
  let op c i o ca re := MkOperation kvmodel.iface c (kvmodel.IInput i) ca
                          (kvmodel.IOutput (kvmodel.MkKvOutput o)) re in
  [op 0 (kvmodel.MkKvInput 1 "k" "a") "" 0 5; op 1 (kvmodel.MkKvInput 0 "k" "") "" 6 7]%Z.

Lemma stale_get_checkable : checkable kvmodel.KvModel stale_get.
Proof.
  split; [repeat (apply Forall_cons; split); simpl; [lia..|]; by apply Forall_nil|].
  intros s op Hop. apply kvmodel.KvStep_returns.
  apply elem_of_cons in Hop as [->|[->|?%not_elem_of_nil]%elem_of_cons]; [by split; eexists..|done].
Qed.

(** [put_get] is linearizable, the stale get is not, and a timer that fires first
    leaves the question open. *)
Lemma CheckOperationsTimeout_sound_witness :
  porcupine.CheckOperationsTimeout kvmodel.KvModel stale_get 1
    (checker.MkChoice 20 [checker.Fired] (λ _ _, true)) = Some (Done Unknown) ∧
  ¬ Forall (op_linearizable kvmodel.KvModel) [stale_get] ∧
  Forall (op_linearizable kvmodel.KvModel) put_get_parts.
Proof.
  split; [vm_compute; reflexivity|]. split.
  - destruct (CheckOperationsTimeout_sound kvmodel.KvModel stale_get [stale_get] 1) as [Hs _].
    + by left.
    + vm_compute. reflexivity.
    + done.
    + apply Forall_singleton. apply stale_get_checkable.
    + apply (Hs 20 [checker.Sent 0] (λ _ _, true) Illegal); [vm_compute; reflexivity|reflexivity].
  - destruct (CheckOperationsTimeout_sound kvmodel.KvModel put_get put_get_parts 1) as [Hs _].
    + by left.
    + vm_compute. reflexivity.
    + done.
    + apply put_get_parts_checkable.
    + apply (Hs 20 [checker.Sent 1; checker.Sent 0] (λ _ _, true) Ok); [vm_compute; reflexivity|reflexivity].
Defined.

Lemma kv_check_per_key_witness : ∃ N m, ∀ fuel, N ≤ fuel → ∀ js kills, js ≡ₚ seq 0 m →
  ∃ b, porcupine.CheckOperations kvmodel.KvModel put_get
         (checker.MkChoice fuel (checker.Sent <$> js) kills) = Some (Done b) ∧
    (b = true ↔ ∀ k, op_linearizable kvmodel.KvModel (kvmodel.of_key k put_get)).
Proof.
  apply (kv_check_per_key put_get); [apply put_get_typed|apply put_get_timed|done].
Defined.

(** A list of four nodes: the head, a call, another call and the first's return. *)
Definition four_nodes : heap Z :=
  [MkNode Z 0%Z None (-1)%Z (Some 1) None; MkNode Z 7%Z (Some 3) 0%Z (Some 2) (Some 0);
   MkNode Z 8%Z None 1%Z (Some 3) (Some 1); MkNode Z 9%Z None 0%Z None (Some 2)].

Lemma unlift_lift_witness :
  ∃ h', checker.lift four_nodes (Some 1) = Done h' ∧ plist.seg h' None [0; 2] None ∧
    checker.unlift h' (Some 1) = Done four_nodes.
Proof.
  apply (unlift_lift four_nodes None [] 0 1 (MkNode Z 7%Z (Some 3) 0%Z (Some 2) (Some 0)) [2] 3 []).
  - simpl. by repeat (apply NoDup_cons; split); [set_solver..|constructor].
  - simpl. split_and!; [by eexists..|done].
  - reflexivity.
  - reflexivity.
Defined.

Lemma bitset_refines_witness :
  ∃ b', bitset.set (bitset.clone (bitset.newBitset 70)) 66 = Done b' ∧
    bitset.denotes b' (∅ ∪ {[66%Z]}).
Proof.
  apply (bitset_refines 70 (bitset.newBitset 70) (bitset.newBitset 70) ∅ ∅ 66).
  - lia.
  - apply bitset.newBitset_empty.
  - reflexivity.
  - apply bitset.newBitset_empty.
  - reflexivity.
Defined.
