(* ===== verification/Visualization.v ===== *)
(** * porcupine/visualization.go: the data of the history picture

    [computeVisualizationData] replays the partial linearizations that the
    checker returned through the model and panics if the model rejects one.
    The rendering to HTML is not modelled. *)

From S2P Require Import Prelude Porcupine.

Module visualization.

Record historyElement := MkHistoryElement {
  ClientId : Z;
  Start : Z;
  End_ : Z;
  Description : string;
}.

(** The zero value of the struct. *)
Definition zero_element : historyElement := MkHistoryElement 0 0 0 "".

Record linearizationStep := MkLinearizationStep {
  Index : Z;
  StateDescription : string;
}.

Definition partialLinearization : Type := list linearizationStep.

Record partitionVisualizationData := MkPartitionData {
  History : list historyElement;
  PartialLinearizations : list partialLinearization;
  Largest : gmap Z Z;
}.

Definition visualizationData : Type := list partitionVisualizationData.

(** [sort.Slice(partials, longer first)]: some permutation without a shorter
    sequence before a longer one; the order of equally long ones is not
    specified. *)
Class PartialSorter := {
  sort_partials : list (list Z) → list (list Z);
  sort_partials_perm : ∀ l, sort_partials l ≡ₚ l;
  sort_partials_sorted : ∀ l i j a b, i < j →
    sort_partials l !! i = Some a → sort_partials l !! j = Some b → length b ≤ length a;
}.

Section visualization.
Context {V S : Type} `{GoNil V}.
Implicit Types (model : Model V S) (entries : list (entry V)).

(** Calling a function field; [nil] panics, which [fillDefault] excludes. *)
Definition call_DescribeOperation model (input output : V) : outcome string :=
  match DescribeOperation model with
  | Some f => f input output
  | None => Panic "nil function"
  end.
Definition call_DescribeState model (state : S) : outcome string :=
  match DescribeState model with
  | Some f => Done (f state)
  | None => Panic "nil function"
  end.

(** A lookup in a [map[int]interface{}]. *)
Definition value_at (m : gmap Z V) (i : Z) : V := default nil_value (m !! i).

(** The loop over the entries of a partition. *)
Fixpoint history_loop model entries (history : list historyElement) (callValue returnValue : gmap Z V)
    : outcome (list historyElement * gmap Z V * gmap Z V) :=
  match entries with
  | [] => Done (history, callValue, returnValue)
  | elem :: entries' =>
      let! h := idx history (e_id elem) in
      if Bool.eqb (e_kind elem) callEntry then
        let h' := MkHistoryElement (e_clientId elem) (e_time elem) (End_ h) (Description h) in
        let! history' := set_idx history (e_id elem) h' in
        history_loop model entries' history' (<[e_id elem := e_value elem]> callValue) returnValue
      else
        let! d := call_DescribeOperation model (value_at callValue (e_id elem)) (e_value elem) in
        let h' := MkHistoryElement (ClientId h) (Start h) (e_time elem) d in
        let! history' := set_idx history (e_id elem) h' in
        history_loop model entries' history' callValue (<[e_id elem := e_value elem]> returnValue)
  end.

(** [largestSize] and [largestIndex] *)
Record largest := MkLargest { lg_size : gmap Z Z; lg_index : gmap Z Z }.

(** The loop over one partial linearization; [len] is [len(partial)], [i] its
    index. *)
Fixpoint replay_loop model (callValue returnValue : gmap Z V) (i len : Z) (state : S)
    (lg : largest) (partial : list Z) : outcome (partialLinearization * largest) :=
  match partial with
  | [] => Done ([], lg)
  | histId :: partial' =>
      let! '(ok, state') := Step model state (value_at callValue histId) (value_at returnValue histId) in
      if negb ok then Panic "valid partial linearization returned non-ok result from model step"
      else
        let! stateDesc := call_DescribeState model state' in
        let lg' :=
          if (default 0 (lg_size lg !! histId) <? len)%Z
          then MkLargest (<[histId := len]> (lg_size lg)) (<[histId := i]> (lg_index lg))
          else lg in
        let! '(steps, lg'') := replay_loop model callValue returnValue i len state' lg' partial' in
        Done (MkLinearizationStep histId stateDesc :: steps, lg'')
  end.

(** The loop over the partial linearizations. *)
Fixpoint partials_loop model (callValue returnValue : gmap Z V) (i : Z) (lg : largest)
    (partials : list (list Z)) : outcome (list partialLinearization * largest) :=
  match partials with
  | [] => Done ([], lg)
  | partial :: partials' =>
      let! '(lin, lg') :=
        replay_loop model callValue returnValue i (zlen partial) (Init model) lg partial in
      let! '(lins, lg'') := partials_loop model callValue returnValue (i + 1) lg' partials' in
      Done (lin :: lins, lg'')
  end.

Definition partition_data `{PartialSorter} model entries (partials : list (list Z))
    : outcome partitionVisualizationData :=
  let n := (zlen entries ÷ 2)%Z in
  let! '(history, callValue, returnValue) :=
    history_loop model entries (replicate (Z.to_nat n) zero_element) ∅ ∅ in
  let! '(lins, lg) :=
    partials_loop model callValue returnValue 0 (MkLargest ∅ ∅) (sort_partials partials) in
  Done (MkPartitionData history lins (lg_index lg)).

(** [for partition := 0; partition < len(info.history); partition++] *)
Fixpoint partition_loop `{PartialSorter} model (partition : Z) (history : list (list (entry V)))
    (partialLinearizations : list (list (list Z))) : outcome visualizationData :=
  match history with
  | [] => Done []
  | entries :: history' =>
      let! partials := idx partialLinearizations partition in
      let! d := partition_data model entries partials in
      let! data := partition_loop model (partition + 1) history' partialLinearizations in
      Done (d :: data)
  end.

(** The sort reorders the slices of [info] in place; the caller does not use
    them afterwards. *)
Definition computeVisualizationData `{PartialSorter, EqDecision S, GoString V, GoString S} model
    (info : checker.linearizationInfo V) : outcome visualizationData :=
  let model := checker.fillDefault model in
  partition_loop model 0 (checker.info_history info) (checker.info_partialLinearizations info).

End visualization.
End visualization.
