(* ===== verification/Partials.v ===== *)
(** * The partial linearizations the search records

    Module [partials]: every recorded sequence is legal, by an invariant of the loop
    of [checkSingle] that needs neither termination nor completeness: the calls on
    the stack are a run of the model from its initial state, and so is every sequence
    copied from the stack.

    Module [longest]: a search that is not killed records, for every operation of a
    partial linearization of the history, one with the operation that is at least as
    long.  Without a timeout [checkParallel] kills none of its goroutines. *)

From S2P Require Import Prelude Bitset Porcupine PorcupineList Linearizability PorcupineSearch PorcupineOps PorcupineTheorems.
Import plist psearch.

Module partials.

Section static.
Context {V : Type}.
Implicit Types h : heap V.

Lemma set_next_static h p v h' : heap.set_next h p v = Done h' → same_static h h' ∧ length h' = length h.
Proof.
  unfold heap.set_next, heap.load. intros Hs. destruct p as [a|]; [|done]. inv_done. simpl in Hx.
  destruct (h !! a) as [n|] eqn:Ha; simplify_eq. rewrite length_insert. split; [|done].
  by eapply same_static_insert.
Qed.

Lemma set_prev_static h p v h' : heap.set_prev h p v = Done h' → same_static h h' ∧ length h' = length h.
Proof.
  unfold heap.set_prev, heap.load. intros Hs. destruct p as [a|]; [|done]. inv_done. simpl in Hx.
  destruct (h !! a) as [n|] eqn:Ha; simplify_eq. rewrite length_insert. split; [|done].
  by eapply same_static_insert.
Qed.

(** Chains of updates, whatever they are, keep values, matches and ids. *)
Ltac static_chain :=
  repeat match goal with
  | H : heap.set_next _ _ _ = Done _ |- _ => apply set_next_static in H as [? ?]
  | H : heap.set_prev _ _ _ = Done _ |- _ => apply set_prev_static in H as [? ?]
  end;
  split; [repeat (etransitivity; [eassumption|]); try eassumption; reflexivity|congruence].

Lemma insertBefore_static h a mark h' :
  checker.insertBefore h a mark = Done h' → same_static h h' ∧ length h' = length h.
Proof.
  unfold checker.insertBefore. intros Hi. destruct mark; [|simplify_eq; by split].
  inv_done. destruct (prev x); inv_done; static_chain.
Qed.

Lemma lift_static h e h' : checker.lift h e = Done h' → same_static h h'.
Proof.
  unfold checker.lift. intros Hl. inv_done.
  assert (same_static h h' ∧ length h' = length h) as [? _]; [|done].
  destruct (next x6); inv_done; static_chain.
Qed.

Lemma unlift_static h e h' : checker.unlift h e = Done h' → same_static h h'.
Proof.
  unfold checker.unlift. intros Hl. inv_done.
  assert (same_static h h' ∧ length h' = length h) as [? _]; [|done].
  destruct (next x2); inv_done; static_chain.
Qed.

End static.

Lemma addr_surj (es : list (bool * Z)) a : NoDup es → a < length es → ∃ e, e ∈ es ∧ addr es e = a.
Proof.
  induction es as [|x es IH]; simpl; intros Hnd Ha; [lia|]. apply NoDup_cons in Hnd as [Hx Hnd].
  destruct (decide (a = length es)) as [->|Hne].
  - exists x. split; [by left|]. by rewrite decide_True.
  - destruct IH as (e & He & Hae); [done|lia|]. exists e. split; [by right|].
    rewrite decide_False; [done|]. by intros ->.
Qed.

Section legal.
Context {V St : Type} `{GoNil V} (model : Model V St) (history : list (entry V)).
Context (Hwf : lin.wf (es0 history)).
Notation is_call i := ((false, i) ∈ es0 history).
Notation Inp := (inp history).
Notation Out := (out history).
Notation ad := (ad history).
Implicit Types (calls : list (checker.callsEntry St)) (st : checker.search V St) (s : St).

(** Only call nodes have a match, and they are where the history says. *)
Definition calls_only (h : heap V) : Prop :=
  ∀ a n m, h !! a = Some n → match_ n = Some m → ∃ i, is_call i ∧ a = ad (false, i).

Lemma calls_only_static h h' : same_static h h' → calls_only h → calls_only h'.
Proof.
  intros Hst Hc a n m Ha Hm. symmetry in Hst.
  destruct (same_static_lookup _ _ _ _ Hst Ha) as (n' & Ha' & _ & Hm' & _).
  apply (Hc a n' m Ha'). congruence.
Qed.

Lemma nodes_ok_static h h' : same_static h h' → nodes_ok history h → nodes_ok history h'.
Proof.
  intros Hst Hn k i Hi. destruct (Hn k i Hi) as (n & Ha & Hv & Hid & Hm).
  destruct (same_static_lookup _ _ _ _ Hst Ha) as (n' & Ha' & Hv' & Hm' & Hi').
  exists n'. split_and!; congruence.
Qed.

(** The stack of calls is a run of the model from [s] to [s']. *)
Fixpoint chain s calls s' : Prop :=
  match calls with
  | [] => s = s'
  | c :: calls' => checker.c_state c = s ∧ ∃ i s1, is_call i ∧
      checker.c_entry c = Some (ad (false, i)) ∧
      Step model s (Inp i) (Out i) = Done (true, s1) ∧ chain s1 calls' s'
  end.

Lemma chain_snoc s calls s1 i s2 : chain s calls s1 → is_call i →
  Step model s1 (Inp i) (Out i) = Done (true, s2) →
  chain s (calls ++ [checker.MkCallsEntry St (Some (ad (false, i))) s1]) s2.
Proof.
  revert s. induction calls as [|c calls IH]; intros s; simpl.
  - intros -> Hi Hs. split; [done|]. by exists i, s2.
  - intros (Hc & j & s3 & Hj & He & Hs & Hch) Hi Hs2. split; [done|]. exists j, s3. auto.
Qed.

Lemma chain_pop s calls c s' : chain s (calls ++ [c]) s' → chain s calls (checker.c_state c).
Proof.
  revert s. induction calls as [|d calls IH]; intros s; simpl.
  - by intros [-> _].
  - intros (Hd & i & s1 & Hi & He & Hs & Hch). split; [done|]. exists i, s1. auto.
Qed.

(** A sequence of operations that the model accepts. *)
Definition legal_seq (ids : list Z) : Prop :=
  lin.legal (Step model) Inp Out (Init model) ids ∧ Forall (λ i, is_call i) ids.

Lemma chain_ids h s calls s' ids : nodes_ok history h → chain s calls s' →
  checker.call_ids h calls = Done ids →
  lin.legal (Step model) Inp Out s ids ∧ Forall (λ i, is_call i) ids.
Proof.
  intros Hn. revert s ids. induction calls as [|c calls IH]; intros s ids; simpl.
  - intros _ [= <-]. done.
  - intros (Hc & i & s1 & Hi & He & Hs & Hch) Hids. inv_done.
    destruct (Hn false i Hi) as (n & Hl & _ & Hid & _).
    rewrite He, (load_Some _ _ _ Hl) in Hx. simplify_eq.
    destruct (IH s1 x0 Hch Hx0) as [Hleg Hall].
    split; [|by constructor]. exists s1. by split.
Qed.

Lemma partial_loop_seqs (h : heap V) calls todo : ∀ seq longest seqs longest' seqs',
  checker.partial_loop h calls seq todo longest seqs = Done (longest', seqs') →
  seqs' = seqs ∨ ∃ ids, checker.call_ids h calls = Done ids ∧ seqs' = seqs ++ [ids].
Proof.
  induction todo as [|v todo IH]; intros seq longest seqs longest' seqs' Hp; simpl in Hp.
  - simplify_eq. by left.
  - inv_done. destruct (checker.longer calls seqs x0); [|by eapply IH].
    inv_done. destruct x1 as [p sq]. destruct seq as [q|].
    + simplify_eq. inv_done. by eapply IH.
    + inv_done. right. clear IH.
      assert (∀ td lg sq lg' sq' p, checker.partial_loop h calls (Some p) td lg sq = Done (lg', sq') →
        sq' = sq) as Hsome.
      { clear. induction td as [|v td IH]; intros lg sq lg' sq' p Hp; simpl in Hp; [by simplify_eq|].
        inv_done. destruct (checker.longer calls sq x0); [inv_done|]; by eapply IH. }
      exists x2. split; [done|]. by eapply Hsome.
Qed.

(** Every pointer of [longest] leads to a sequence with the operation. *)
Definition points (longest : list (option nat)) (seqs : list (list Z)) : Prop :=
  ∀ i p, longest !! i = Some (Some p) → ∃ σ, seqs !! p = Some σ ∧ Z.of_nat i ∈ σ.

Lemma call_ids_elem (h : heap V) calls : ∀ ids v n, checker.call_ids h calls = Done ids → v ∈ calls →
  heap.load h (checker.c_entry v) = Done n → id n ∈ ids.
Proof.
  induction calls as [|c calls IH]; intros ids v n Hids Hv Hn; [by apply not_elem_of_nil in Hv|].
  simpl in Hids. inv_done. apply elem_of_cons in Hv as [->|Hv]; [|right; by eapply IH].
  rewrite Hn in Hx. apply Done_inj in Hx as ->. left.
Qed.

Lemma points_set longest seqs seqs' j p longest' σ : points longest seqs → (∀ q τ, seqs !! q = Some τ → seqs' !! q = Some τ) →
  seqs' !! p = Some σ → j ∈ σ → set_idx longest j (Some p) = Done longest' → points longest' seqs'.
Proof.
  intros Hpt Hq Hp Hj [Hr ->]%set_idx_Done i q Hi.
  apply list_lookup_insert_Some in Hi as [(<- & Heq & _)|[_ Hi]].
  - injection Heq as ->. exists σ. split; [done|]. by rewrite Z2Nat.id by lia.
  - destruct (Hpt i q Hi) as (τ & Hτ & ?). exists τ. auto.
Qed.

Lemma partial_loop_points (h : heap V) calls todo : (∀ v, v ∈ todo → v ∈ calls) →
  ∀ seq longest seqs longest' seqs', points longest seqs →
  (∀ p, seq = Some p → ∃ ids, checker.call_ids h calls = Done ids ∧ seqs !! p = Some ids) →
  checker.partial_loop h calls seq todo longest seqs = Done (longest', seqs') → points longest' seqs'.
Proof.
  induction todo as [|v todo IH]; intros Hsub seq longest seqs longest' seqs' Hpt Hseq Hp; simpl in Hp;
    [by simplify_eq|].
  assert (∀ v, v ∈ todo → v ∈ calls) as Hsub' by (intros w Hw; apply Hsub; by right).
  pose proof (Hsub v ltac:(by left)) as Hv. inv_done. destruct (checker.longer calls seqs x0); [|by eapply IH].
  inv_done. destruct x1 as [p sq]. destruct seq as [q|]; inv_done.
  - destruct (Hseq _ eq_refl) as (ids & Hids & Hq).
    eapply IH; [done|eapply points_set; [exact Hpt|done|exact Hq|by eapply call_ids_elem|done]| |done].
    intros ? [= <-]. eauto.
  - rename x2 into ids. assert ((seqs ++ [ids]) !! length seqs = Some ids) as Hq by (by rewrite list_lookup_middle).
    eapply IH; [done|eapply points_set; [exact Hpt| |exact Hq|by eapply call_ids_elem|done]| |done].
    + intros q τ Hτ. by apply lookup_app_l_Some.
    + intros ? [= <-]. eauto.
Qed.

(** The invariant of the loop. *)
Record linv st : Prop := {
  linv_nodes : nodes_ok history (checker.sr_heap st);
  linv_calls : calls_only (checker.sr_heap st);
  linv_chain : chain (Init model) (checker.sr_calls st) (checker.sr_state st);
  linv_seqs : Forall legal_seq (checker.sr_seqs st);
}.

Lemma linv_try_call st head e st' :
  linv st → heap.load (checker.sr_heap st) (checker.sr_entry st) = Done e → match_ e ≠ None →
  checker.try_call model head e st = Done st' → linv st'.
Proof.
  intros [Hn Hc Hch Hs] Hl Hm Ht. destruct st as [h entry b cache calls longest seqs s]. simpl in *.
  unfold heap.load in Hl. destruct entry as [a|]; [|done]. simpl in Hl.
  destruct (h !! a) as [e'|] eqn:Ha; [|done]. injection Hl as ->.
  destruct (match_ e) as [m|] eqn:Hme; [|done].
  destruct (Hc a e m Ha Hme) as (i & Hi & ->).
  destruct (Hn false i Hi) as (n & Hln & Hv & Hid & Hmn).
  assert (n = e) as -> by congruence. assert (m = ad (true, i)) as -> by congruence.
  assert ((true, i) ∈ es0 history) as Hi'.
  { apply list_elem_of_split in Hi as (l1 & l2 & Hes).
    pose proof (lin.wf_matched _ Hwf _ _ _ Hes). rewrite Hes. set_solver. }
  destruct (Hn true _ Hi') as (n' & Hln' & Hv' & _ & _).
  inv_done. rewrite (load_Some _ _ _ Hln') in Hx. simplify_eq. destruct x0 as [ok s'].
  rewrite Hv, Hv' in Hx0. destruct ok; inv_done; [|by split].
  destruct (negb x1); inv_done; [|by split].
  pose proof (lift_static _ _ _ Hx3) as Hst.
  split; simpl; [by eapply nodes_ok_static|by eapply calls_only_static| |done].
  by apply chain_snoc.
Qed.

Lemma linv_backtrack cp st st' : linv st → checker.backtrack cp st = Done (Some st') → linv st'.
Proof.
  intros [Hn Hc Hch Hs] Hb. destruct st as [h entry b cache calls longest seqs s]. simpl in *.
  destruct (zlen calls =? 0)%Z; [done|]. inv_done. destruct x as [longest' seqs']. inv_done.
  pose proof (unlift_static _ _ _ Hx4) as Hst.
  assert (∃ c, calls = x2 ++ [c] ∧ x = c) as (c & -> & ->).
  { apply idx_Done in Hx0 as [? Hlk]. unfold slice_to in Hx3.
    destruct (_ && _); simplify_eq. exists x. split; [|done].
    unfold zlen in *. destruct (exists_last (l := calls)) as (l & y & ->).
    { intros ->. simpl in *. lia. }
    rewrite length_app in *. simpl in *.
    replace (Z.to_nat (Z.of_nat (length l + 1) - 1)) with (length l) in * by lia.
    rewrite list_lookup_middle in Hlk by done. simplify_eq. by rewrite take_app_length. }
  split; simpl; [by eapply nodes_ok_static|by eapply calls_only_static|by eapply chain_pop|].
  destruct cp; [|by simplify_eq].
  apply partial_loop_seqs in Hx as [->|(ids & Hids & ->)]; [done|].
  apply Forall_app. split; [done|]. constructor; [|done]. by eapply chain_ids.
Qed.

Lemma linv_loop fuel : ∀ k kill cp n head st r pt, linv st →
  checker.checkSingle_loop fuel k kill model cp n head st = Some (Done (r, pt)) →
  Forall legal_seq (checker.pt_seqs pt).
Proof.
  induction fuel as [|fuel IH]; intros k kill cp n head st r pt Hi Hl; simpl in Hl; [done|].
  destruct (heap.load _ (Some head)) as [hd| |]; try done. destruct (next hd).
  2:{ injection Hl as Hl. unfold checker.finish in Hl. inv_done. simpl.
      apply Forall_app. split; [apply Hi|]. constructor; [|done].
      eapply chain_ids; [apply Hi|apply Hi|done]. }
  destruct (kill k); [simplify_eq; apply Hi|].
  destruct (heap.load _ (checker.sr_entry st)) as [e| |] eqn:He; try done.
  destruct (match_ e) eqn:Hme.
  - destruct (checker.try_call model head e st) as [st'| |] eqn:Ht; try done.
    eapply IH; [|exact Hl]. eapply linv_try_call; [done|done| |done]. congruence.
  - destruct (checker.backtrack cp st) as [[st'|]| |] eqn:Hb; try done.
    + eapply IH; [|exact Hl]. by eapply linv_backtrack.
    + simplify_eq. apply Hi.
Qed.

(** A search that ends without a linearization leaves [points]. *)
Lemma points_loop fuel : ∀ k kill cp n head st pt, points (checker.sr_longest st) (checker.sr_seqs st) →
  checker.checkSingle_loop fuel k kill model cp n head st = Some (Done (false, pt)) →
  points (checker.pt_longest pt) (checker.pt_seqs pt).
Proof.
  induction fuel as [|fuel IH]; intros k kill cp n head st pt Hi Hl; simpl in Hl; [done|].
  destruct (heap.load _ (Some head)) as [hd| |]; try done. destruct (next hd).
  2:{ injection Hl as Hl. unfold checker.finish in Hl. by inv_done. }
  destruct (kill k); [by simplify_eq|].
  destruct (heap.load _ (checker.sr_entry st)) as [e| |] eqn:He; try done.
  destruct (match_ e) eqn:Hme.
  - destruct (checker.try_call model head e st) as [st'| |] eqn:Ht; try done.
    eapply IH; [|exact Hl]. destruct st as [h entry b cache calls longest seqs s]. simpl in *. inv_done.
    destruct x0 as [ok s']. destruct ok; inv_done; [|done]. destruct (negb x1); by inv_done.
  - destruct (checker.backtrack cp st) as [[st'|]| |] eqn:Hb; try done; [|by simplify_eq].
    eapply IH; [|exact Hl]. destruct st as [h entry b cache calls longest seqs s]. simpl in *.
    destruct (zlen calls =? 0)%Z; [done|]. inv_done. destruct x as [longest' seqs']. inv_done. simpl.
    destruct cp; [|by simplify_eq]. by eapply partial_loop_points; [..|done].
Qed.

(** The search starts with the invariant. *)
Lemma linv_init n head st :
  checker.checkSingle_init model history = Some (Done (n, head, st)) → linv st.
Proof.
  intros Hi. destruct (init_spec model history Hwf) as (st' & Hi' & Hcfg & _ & _ & Hcs & Hst').
  assert (st' = st) as -> by congruence. unfold checker.checkSingle_init in Hi. clear Hi'.
  destruct (makeLinkedEntries_spec history (lin.wf_nodup _ Hwf) (lin.wf_matched _ Hwf))
    as (h & root & mt & Hmk & [Hlen _ _ Hnodes _]).
  unfold checker.makeLinkedEntries in Hi. rewrite Hmk in Hi. simpl in Hi.
  destruct (checker.length h root) as [[len| |]|]; try done. injection Hi as Hi. inv_done.
  apply insertBefore_static in Hx as [Hst _].
  split; [apply Hcfg| |by rewrite Hcs|by simpl].
  simpl. eapply calls_only_static; [exact Hst|]. intros a nd m Ha Hm.
  apply lookup_app_Some in Ha as [Ha|[_ Ha]].
  2:{ apply list_lookup_singleton_Some in Ha as [_ <-]. done. }
  pose proof (lookup_lt_Some _ _ _ Ha) as Hlt.
  destruct (addr_surj (es0 history) a (lin.wf_nodup _ Hwf)) as (e & He & Hae).
  { unfold es0. rewrite length_fmap. lia. }
  apply list_elem_of_fmap in He as He'. destruct He' as (y & -> & Hy).
  destruct (Hnodes y Hy) as (nd' & Ha' & _ & _ & Hm'). fold (es0 history) in Ha'.
  rewrite Hae in Ha'. simplify_eq. unfold ev_of in *. destruct (e_kind y); [congruence|].
  by exists (e_id y).
Qed.

Lemma checkSingle_partials fuel cp kill r pt :
  checker.checkSingle fuel model history cp kill = Some (Done (r, pt)) →
  Forall legal_seq (checker.pt_seqs pt).
Proof.
  unfold checker.checkSingle. intros Hc.
  destruct (checker.checkSingle_init model history) as [[[[n head] st]| |]|] eqn:Hi; try done.
  eapply linv_loop; [|exact Hc]. by eapply linv_init.
Qed.

End legal.
End partials.

Import pops pdriver partials.

Module longest.

(** A partial linearization of [ops], by their indices: legal for the model, and each
    operation is placed after all operations that returned before its call. *)
Record partial_ops {V St} (model : Model V St) (ops : list (Operation V)) (σ : list Z) : Prop := MkPartialOps {
  po_nodup : NoDup σ;
  po_legal : ∃ τ, Forall2 (is_op ops) σ τ ∧ legal_ops model (Init model) τ;
  po_time : ∀ σ1 j σ2 i a b, σ = σ1 ++ j :: σ2 → i ∉ σ1 → is_op ops i a → is_op ops j b →
    ¬ (Return a < Call b)%Z;
}.

Section longest.
Context {V St : Type} `{GoNil V, Sorter V} (model : Model V St).
Implicit Types ops : list (Operation V).

Lemma partial_ops_spec ops σ : partial_ops model ops σ → partial_linearization model (makeEntries ops) σ.
Proof.
  intros [Hnd (τ & Hf & Hl) Ht]. split_and!; [done| |by apply (is_op_legal ops model σ τ)|].
  - apply Forall_forall. intros i [k Hk]%list_elem_of_lookup.
    destruct (Forall2_lookup_l _ _ _ _ _ Hf Hk) as (op & _ & Hop). apply makeEntries_event. by exists op.
  - intros σ1 j σ2 i Hσ (a & Hi & Ha)%makeEntries_event Hni Hp.
    destruct (Forall2_lookup_l _ _ _ (length σ1) j Hf) as (b & _ & Hj & Hb); [rewrite Hσ; by apply list_lookup_middle|].
    apply (Ht σ1 j σ2 i a b Hσ Hni); [by split..|]. by apply (makeEntries_precedes ops i j a b).
Qed.

Lemma unique_pointers_elem longest : ∀ set p, Some p ∈ longest → p ∉ set →
  p ∈ checker.unique_pointers set longest.
Proof.
  induction longest as [|[q|] longest IH]; intros set p Hp Hset; simpl; [by apply not_elem_of_nil in Hp|..].
  - case_decide; apply elem_of_cons in Hp as [[= ->]|Hp]; [done|by apply IH|by left|].
    destruct (decide (p = q)) as [->|]; [by left|]. right. apply IH; [done|set_solver].
  - apply elem_of_cons in Hp as [?|Hp]; [done|by apply IH].
Qed.

(** One partition. *)
Lemma checkSingle_longest ops fuel r pt : equal_sound model → checkable model ops →
  checker.checkSingle fuel model (makeEntries ops) true checker.never = Some (Done (r, pt)) →
  ∀ σ i, partial_ops model ops σ → i ∈ σ →
    ∃ σ', σ' ∈ checker.partials_of pt ∧ i ∈ σ' ∧ length σ ≤ length σ'.
Proof.
  intros Heq Hc Hr σ i Hσ%partial_ops_spec Hi. pose proof (makeEntries_wf ops (proj1 Hc)) as Hwf.
  destruct (search_records model true (makeEntries ops) Hwf (makeEntries_ids ops)
    (λ s i, checkable_step model ops s i Hc) Heq eq_refl) as [N HN].
  destruct (HN (fuel `max` N)) as (r' & pt' & Hr' & Hrec & Hall); [lia|].
  assert (Some (Done (r', pt')) = Some (Done (r, pt))) as [= -> ->].
  { rewrite <- Hr'. unfold checker.checkSingle in *.
    destruct (checker.checkSingle_init model (makeEntries ops)) as [[[[n hd] st]| |]|]; [|done..].
    eapply loop_fuel; [exact Hr|lia]. }
  destruct (Hrec σ i Hσ Hi) as (p & σ' & Hl & Hs & Hle). exists σ'.
  assert ((false, i) ∈ es0 (makeEntries ops)) as Hi0.
  { destruct Hσ as (_ & Hin & _). rewrite Forall_forall in Hin. by apply Hin. }
  split_and!; [| |done].
  - unfold checker.partials_of. apply list_elem_of_fmap. exists p. rewrite Hs. split; [done|].
    apply unique_pointers_elem; [by eapply list_elem_of_lookup_2|set_solver].
  - destruct r.
    + destruct (Hall eq_refl) as (σ0 & Hin & _ & Hpt). destruct (Hpt _ _ Hl) as (q & [= <-] & Hq).
      simplify_eq. by apply Hin.
    + apply makeEntries_event in Hi0 as (op & Hge & _). unfold checker.checkSingle in Hr.
      destruct (checker.checkSingle_init model (makeEntries ops)) as [[[[n hd] st]| |]|] eqn:Hini; try done.
      assert (points (checker.pt_longest pt) (checker.pt_seqs pt)) as Hpt.
      { eapply points_loop; [|exact Hr]. unfold checker.checkSingle_init in Hini.
        destruct (checker.makeLinkedEntries (makeEntries ops)) as [[h root]| |]; try done.
        destruct (checker.length h root) as [[len| |]|]; try done. injection Hini as Hini. inv_done. simpl.
        by intros k q [? _]%lookup_replicate. }
      destruct (Hpt _ _ Hl) as (σ1 & Hσ1 & Hin). rewrite Z2Nat.id in Hin by done. by simplify_eq.
Qed.

(** The goroutines the loop has received from. *)
Lemma select_loop_received fuel history ci timeout cases : ∀ ok count received ok' to received',
  received_ok history received → count = zlen received →
  checker.select_loop fuel model history ci timeout ok count received cases = Some (Done (ok', to, received')) →
  received_ok history received' ∧
  (ci = true → to = false → (zlen history ≤ zlen received')%Z) ∧
  (to = true → (0 < timeout)%Z ∧ checker.Fired ∈ cases).
Proof.
  induction cases as [|[i|] cases IH]; intros ok count received ok' to received' Hok Hcount Hl; simpl in Hl; [done|..].
  - case_decide as Hi; [done|]. destruct (history !! i) as [sub|] eqn:Hsub; [|done]. simpl in Hl.
    destruct (checker.checkSingle fuel model sub ci checker.never) as [[[res pt]| |]|]; try done. simpl in Hl.
    assert (received_ok history (received ++ [i])) as Hok'.
    { destruct Hok as [Hnd Hall]. split.
      - apply NoDup_app. split_and!; [done| |apply NoDup_singleton]. by intros x Hx ->%list_elem_of_singleton.
      - apply Forall_app. split; [done|]. apply Forall_singleton. by eapply lookup_lt_Some. }
    assert (count + 1 = zlen (received ++ [i]))%Z as Hz by (rewrite zlen_app, Hcount; done).
    destruct (negb (ok && res) && negb ci) eqn:Hstop.
    { simplify_eq. split_and!; [done| |done]. intros ->. by rewrite andb_false_r in Hstop. }
    destruct (Z.leb_spec (zlen history) (count + 1)); [simplify_eq; split_and!; [done| |done]; lia|].
    destruct (IH _ _ _ _ _ _ Hok' Hz Hl) as (? & ? & Hf). split_and!; [done..|]. intros Hto.
    destruct (Hf Hto). split; [done|by right].
  - destruct (Z.ltb_spec 0 timeout); [|done]. simplify_eq. split_and!; [done|done|]. intros _. split; [done|by left].
Qed.

(** Without a timeout the sequences are those of searches that were not killed. *)
Lemma collect_longest_received fuel received kills history : ∀ i pts,
  (∀ j, i ≤ j < i + length history → j ∈ received) →
  checker.collect_longest fuel model received kills i history = Some (Done pts) →
  Forall2 (λ sub pt, ∃ r, checker.checkSingle fuel model sub true checker.never = Some (Done (r, pt))) history pts.
Proof.
  induction history as [|sub history IH]; intros i pts Hrec Hc; simpl in Hc; [by simplify_eq|].
  rewrite decide_True in Hc by (apply Hrec; simpl; lia).
  destruct (checker.checkSingle fuel model sub true checker.never) as [r|] eqn:Hr; [|done]. simpl in Hc.
  destruct (checker.collect_longest _ _ _ _ (i + 1) history) as [rs|] eqn:Hrs; [|done].
  simpl in Hc. injection Hc as Hc. destruct r as [[b pt]| |], rs as [pts'| |]; try done.
  simpl in Hc. simplify_eq. constructor; [by eauto|]. eapply IH; [|exact Hrs]. intros j Hj. apply Hrec. simpl. lia.
Qed.
End longest.
End longest.
