(* ===== verification/VisualizationJson.v ===== *)
(** * porcupine/visualization.go: the page

    [Visualize] and [VisualizePath]: the data of Visualization.v as JSON text in the
    page, the constant [html] of visualization.go around its only verb.  The style
    sheet and the script of the page are not modelled; [read_data] stands for the
    script's reading of the literal [const data = ...], as UTF-8, with its numbers
    rounded to doubles. *)

From Stdlib Require Import Ascii DecimalString.
From S2P Require Import Prelude GoStrings Json Porcupine Visualization.
Import gostrings utf8.
#[local] Arguments String.append : simpl nomatch.

Module page.
Import json visualization.

(** [json.Marshal] of the structs, by the names of their fields. *)
Definition of_element (h : historyElement) : json :=
  JObj [("ClientId", JNum (ClientId h)); ("Start", JNum (Start h)); ("End", JNum (End_ h));
        ("Description", JStr (Description h))].

Definition of_step (x : linearizationStep) : json :=
  JObj [("Index", JNum (Index x)); ("StateDescription", JStr (StateDescription x))].

Definition by_key (a b : string * json) : Prop := String.le a.1 b.1.
#[export] Instance by_key_dec a b : Decision (by_key a b).
Proof. unfold by_key. apply _. Defined.

(** A map is an object whose keys are sorted as strings. *)
Definition of_map (x : gmap Z Z) : json :=
  JObj (merge_sort by_key ((λ '(k, v), (Itoa k, JNum v)) <$> map_to_list x)).

Definition of_partition (d : partitionVisualizationData) : json :=
  JObj [("History", JArr (of_element <$> History d));
        ("PartialLinearizations", JArr ((λ l, JArr (of_step <$> l)) <$> PartialLinearizations d));
        ("Largest", of_map (Largest d))].

Definition Marshal (data : visualizationData) : string := print (JArr (of_partition <$> data)).

Section page.
Context {V S : Type} `{GoNil V}.
(* [html] before and after its verb [%s] *)
Context (html_pre html_post : string).

(** [write] is the method of [output]; its second result says that the error is
    nil.  [json.Marshal] does not fail on these types. *)
Definition Visualize `{PartialSorter, EqDecision S, GoString V, GoString S} {W} (write : W → string → W * bool)
    (model : Model V S) (info : checker.linearizationInfo V) (output : W) : outcome (W * bool) :=
  let! data := computeVisualizationData model info in
  let jsonData := Marshal data in
  Done (write output (html_pre +:+ jsonData +:+ html_post)).

(** [os.Create] succeeds on the paths of [creatable] and empties the file; [f]
    appends, and [disk] says whether there is room for a text. *)
Definition VisualizePath `{PartialSorter, EqDecision S, GoString V, GoString S} (creatable : string → bool)
    (disk : string → bool) (model : Model V S) (info : checker.linearizationInfo V) (path : string)
    (fs : gmap string string) : outcome (gmap string string * bool) :=
  if negb (creatable path) then Done (fs, false)
  else Visualize (λ fs text, if disk text then (<[path := default "" (fs !! path) +:+ text]> fs, true) else (fs, false))
         model info (<[path := ""]> fs).
End page.

(** ** What the script of the page reads *)

Fixpoint field (k : string) (l : list (string * json)) : option json :=
  match l with
  | [] => None
  | (k', v) :: l' => if String.eqb k k' then Some v else field k l'
  end.

Definition member (k : string) (j : json) : option json :=
  match j with JObj l => field k l | _ => None end.

(** The double nearest to an integer, ties to even: 53 bits of it are kept. *)
Definition double (z : Z) : Z :=
  (let n := Z.abs z in
   let k := Z.log2 n - 52 in
   if k <=? 0 then z
   else
     let q := Z.shiftr n k in
     let r := n - Z.shiftl q k in
     let half := Z.shiftl 1 (k - 1) in
     let up := (half <? r) || ((half =? r) && Z.odd q) in
     Z.sgn z * Z.shiftl (if up then q + 1 else q) k)%Z.

Definition to_num (j : json) : option Z := match j with JNum z => Some (double z) | _ => None end.
Definition to_str (j : json) : option string := match j with JStr s => Some s | _ => None end.
Definition to_list {A} (f : json → option A) (j : json) : option (list A) :=
  match j with JArr l => mapM f l | _ => None end.
Definition to_map (j : json) : option (gmap Z Z) :=
  match j with
  | JObj l => list_to_map <$> mapM (λ '(k, v), z ← NilZero.int_of_string k; x ← to_num v; Some (Z.of_int z, x)) l
  | _ => None
  end.

Definition to_element (j : json) : option historyElement :=
  a ← member "ClientId" j ≫= to_num; b ← member "Start" j ≫= to_num; c ← member "End" j ≫= to_num;
  d ← member "Description" j ≫= to_str; Some (MkHistoryElement a b c d).
Definition to_step (j : json) : option linearizationStep :=
  a ← member "Index" j ≫= to_num; b ← member "StateDescription" j ≫= to_str; Some (MkLinearizationStep a b).
Definition to_partition (j : json) : option partitionVisualizationData :=
  a ← member "History" j ≫= to_list to_element;
  b ← member "PartialLinearizations" j ≫= to_list (to_list to_step);
  c ← member "Largest" j ≫= to_map; Some (MkPartitionData a b c).

Definition read_data (s : string) : option visualizationData := parse s ≫= to_list to_partition.

(** ** The page shows the data *)

(** The data with the strings as UTF-8 and the numbers as doubles. *)
Definition shown_element (h : historyElement) : historyElement :=
  MkHistoryElement (double (ClientId h)) (double (Start h)) (double (End_ h)) (coerce (Description h)).
Definition shown_step (x : linearizationStep) : linearizationStep :=
  MkLinearizationStep (double (Index x)) (coerce (StateDescription x)).
Definition shown_partial (l : partialLinearization) : partialLinearization := map shown_step l.
Definition shown_partition (d : partitionVisualizationData) : partitionVisualizationData :=
  MkPartitionData (shown_element <$> History d) (shown_partial <$> PartialLinearizations d) (double <$> Largest d).
Definition shown (data : visualizationData) : visualizationData := map shown_partition data.

(** Numbers that doubles keep, strings that UTF-8 keeps. *)
Definition small (z : Z) : Prop := (- 2 ^ 53 ≤ z ≤ 2 ^ 53)%Z.
Definition plain_element (h : historyElement) : Prop :=
  small (ClientId h) ∧ small (Start h) ∧ small (End_ h) ∧ ValidString (Description h) = true.
Definition plain_step (x : linearizationStep) : Prop :=
  small (Index x) ∧ ValidString (StateDescription x) = true.
Definition plain_partition (d : partitionVisualizationData) : Prop :=
  Forall plain_element (History d) ∧ Forall (Forall plain_step) (PartialLinearizations d) ∧
  map_Forall (λ _, small) (Largest d).
Definition plain (data : visualizationData) : Prop := Forall plain_partition data.

#[export] Instance small_dec z : Decision (small z).
Proof. unfold small. apply _. Defined.
#[export] Instance plain_element_dec h : Decision (plain_element h).
Proof. unfold plain_element. apply _. Defined.
#[export] Instance plain_step_dec x : Decision (plain_step x).
Proof. unfold plain_step. apply _. Defined.
#[export] Instance plain_dec data : Decision (plain data).
Proof. unfold plain. apply Forall_dec. intros d. unfold plain_partition. apply _. Defined.

Lemma double_small z : small z → double z = z.
Proof.
  unfold small. intros Hz. destruct (decide (z = 2 ^ 53 ∨ z = - 2 ^ 53)%Z) as [[->| ->]|Hne]; [done..|].
  unfold double. destruct (Z.leb_spec (Z.log2 (Z.abs z) - 52) 0) as [|Hk]; [done|].
  assert (Z.log2 (Z.abs z) < 53)%Z; [|lia]. destruct (Z.eq_dec z 0) as [->|]; [done|].
  apply Z.log2_lt_pow2; lia.
Qed.

Lemma fmap_fixed {A} (f : A → A) (P : A → Prop) l : (∀ x, P x → f x = x) → Forall P l → f <$> l = l.
Proof. intros Hf. induction 1 as [|x l Hx _ IH]; [done|]. by rewrite fmap_cons, Hf, IH. Qed.

(** Plain data is shown as it is. *)
Lemma shown_plain data : plain data → shown data = data.
Proof.
  apply fmap_fixed. intros [hs ps lg] (Hh & Hps & Hlg). unfold shown_partition. simpl in *. f_equal.
  - eapply fmap_fixed; [|done]. intros [c t1 t2 d] (H1 & H2 & H3 & H4). unfold shown_element. simpl in *.
    by rewrite !double_small, coerce_valid.
  - eapply fmap_fixed; [|done]. intros l Hl. eapply fmap_fixed; [|done]. intros [i d] [H1 H2].
    unfold shown_step. simpl in *. by rewrite double_small, coerce_valid.
  - rewrite <- (map_fmap_id lg) at 2. apply map_fmap_ext. intros k x Hx. apply double_small. by eapply Hlg.
Qed.

Lemma mapM_image {A B C} (f : A → B) (g : B → option C) (h : A → C) l :
  (∀ x, g (f x) = Some (h x)) → mapM g (f <$> l) = Some (h <$> l).
Proof.
  intros Hg. induction l as [|x l IH]; [done|]. rewrite !fmap_cons. simpl. by rewrite Hg, IH.
Qed.

Lemma mapM_Permutation {A B} (g : A → option B) (l l' : list A) : l ≡ₚ l' →
  ∀ m, mapM g l = Some m → ∃ m', mapM g l' = Some m' ∧ m ≡ₚ m'.
Proof.
  induction 1 as [|y l l' _ IH|y z l|l1 l2 l3 _ IH1 _ IH2]; intros m Hm.
  - by exists m.
  - apply mapM_Some, Forall2_cons_inv_l in Hm as (a & m1 & Ha & Hm1 & ->). apply mapM_Some in Hm1.
    destruct (IH _ Hm1) as (m' & Hm' & Hp). exists (a :: m'). split; [|by constructor].
    apply mapM_Some. constructor; [done|]. by apply mapM_Some.
  - apply mapM_Some, Forall2_cons_inv_l in Hm as (a & m1 & Ha & Hm1 & ->).
    apply Forall2_cons_inv_l in Hm1 as (b & m2 & Hb & Hm2 & ->).
    exists (b :: a :: m2). split; [apply mapM_Some; by repeat constructor|by constructor].
  - destruct (IH1 _ Hm) as (m2 & Hm2 & Hp2). destruct (IH2 _ Hm2) as (m3 & Hm3 & Hp3).
    exists m3. split; [done|by etrans].
Qed.

Lemma to_of_map x : to_map (of_map x) = Some (double <$> x).
Proof.
  unfold to_map, of_map. set (g := λ '(k, v), z ← NilZero.int_of_string k; x ← to_num v; Some (Z.of_int z, x)).
  assert (mapM g ((λ '(k, v), (Itoa k, JNum v)) <$> map_to_list x) = Some (prod_map Datatypes.id double <$> map_to_list x)) as Hall.
  { apply mapM_image. intros [k v]. simpl. rewrite int_of_string_of_int. cbn [mbind option_bind].
    by rewrite DecimalZ.of_to. }
  destruct (mapM_Permutation g _ (merge_sort by_key ((λ '(k, v), (Itoa k, JNum v)) <$> map_to_list x))
    (symmetry (merge_sort_Permutation _ _)) _ Hall) as (m' & Hm' & Hp).
  assert (NoDup (prod_map Datatypes.id double <$> map_to_list x).*1) as Hnd.
  { rewrite <- list_fmap_compose. apply NoDup_fst_map_to_list. }
  rewrite Hm'. simpl. f_equal. rewrite <- (list_to_map_proper _ _ Hnd Hp).
  by rewrite list_to_map_fmap, list_to_map_to_list.
Qed.

(** The keys of a map are digits. *)
Lemma uint_ascii d : is_ascii (NilEmpty.string_of_uint d).
Proof. by induction d. Qed.

Lemma Itoa_ascii z : is_ascii (Itoa z).
Proof.
  unfold Itoa. destruct (Z.to_int z) as [d|d]; cbn [NilZero.string_of_int];
    destruct (uint_nonempty d) as (u & -> & _); [|split; [done|]]; apply uint_ascii.
Qed.

Lemma coerce_of_map x : coerce_json (of_map x) = of_map x.
Proof.
  unfold of_map. cbn [coerce_json]. f_equal.
  apply (fmap_fixed _ (λ p, ∃ k v, p = (Itoa k, JNum v))).
  - intros _ (k & v & ->). unfold coerce_field. cbn [coerce_json]. by rewrite coerce_ascii by apply Itoa_ascii.
  - rewrite merge_sort_Permutation. apply Forall_fmap, Forall_true. intros [k v]. by exists k, v.
Qed.

#[local] Arguments of_map : simpl never.
#[local] Arguments to_map : simpl never.

Lemma read_element h : to_element (coerce_json (of_element h)) = Some (shown_element h).
Proof. reflexivity. Qed.

Lemma read_step x : to_step (coerce_json (of_step x)) = Some (shown_step x).
Proof. reflexivity. Qed.

Lemma read_partition d : to_partition (coerce_json (of_partition d)) = Some (shown_partition d).
Proof.
  destruct d as [hs ps lg].
  transitivity (to_partition (JObj [("History", coerce_json (JArr (of_element <$> hs)));
    ("PartialLinearizations", coerce_json (JArr ((λ l, JArr (of_step <$> l)) <$> ps)));
    ("Largest", coerce_json (of_map lg))])); [done|].
  rewrite coerce_of_map. unfold to_partition. simpl member. cbn [mbind option_bind coerce_json to_list].
  rewrite <- !list_fmap_compose.
  rewrite (mapM_image _ to_element shown_element) by apply read_element. cbn [mbind option_bind].
  rewrite (mapM_image _ (to_list to_step) shown_partial); [|].
  - cbn [mbind option_bind]. by rewrite to_of_map.
  - intros l. simpl. rewrite <- list_fmap_compose. apply mapM_image, read_step.
Qed.

(** The script reads what [shown] says. *)
Lemma read_Marshal data : read_data (Marshal data) = Some (shown data).
Proof.
  unfold read_data, Marshal. rewrite parse_print. cbn [mbind option_bind coerce_json to_list].
  rewrite <- list_fmap_compose. apply mapM_image, read_partition.
Qed.
End page.
