(* ===== verification/VisualizationTheorems.v ===== *)
(** * The picture of a checked history

    [computeVisualizationData] on what the checker returned: the replay of the
    partial linearizations never meets a step the model rejects, the elements
    of the history are the operations, and [Largest] leads every operation of a
    recorded linearization to a longest one that contains it; if no search was killed,
    to one that is longest among all partial linearizations of the history.  The page
    shows these data. *)

From S2P Require Import Prelude Bitset Porcupine PorcupineList Linearizability PorcupineSearch PorcupineOps KvModel PorcupineTheorems Visualization Partials GoStrings Json VisualizationJson.
Import plist psearch pops pdriver visualization partials longest.

Module visproof.

(** ** The elements of the history *)
Section history.
Context {V S : Type} `{GoNil V} (model : Model V S) (entries : list (entry V)) (n : Z).
Context (Hwf : lin.wf (es0 entries)).
Context (Hids : ∀ x, x ∈ entries → (0 ≤ e_id x < n)%Z).
Context (Hdesc : ∀ x, x ∈ entries → e_kind x = returnEntry →
  returns (call_DescribeOperation model (inp entries (e_id x)) (e_value x))).

(** What the loop has stored for a processed entry. *)
Definition stored (hist : list historyElement) (cv rv : gmap Z V) (x : entry V) : Prop :=
  ∃ h, hist !! Z.to_nat (e_id x) = Some h ∧
  if e_kind x then
    rv !! e_id x = Some (e_value x) ∧ End_ h = e_time x ∧
    call_DescribeOperation model (inp entries (e_id x)) (e_value x) = Done (Description h)
  else
    cv !! e_id x = Some (e_value x) ∧ ClientId h = e_clientId x ∧ Start h = e_time x.

Lemma call_before pre x suf : entries = pre ++ x :: suf → e_kind x = true →
  ∃ y, y ∈ pre ∧ e_kind y = false ∧ e_id y = e_id x.
Proof.
  intros Hes Hk. assert (es0 entries = (ev_of <$> pre) ++ (true, e_id x) :: (ev_of <$> suf)) as He.
  { unfold es0. rewrite Hes, fmap_app, fmap_cons. unfold ev_of at 2. by rewrite Hk. }
  assert ((false, e_id x) ∈ es0 entries) as Hc.
  { apply (lin.wf_called _ Hwf). rewrite He. set_solver. }
  pose proof (lin.wf_nodup _ Hwf) as Hnd. rewrite He in Hc.
  apply elem_of_app in Hc as [Hc|Hc].
  - apply list_elem_of_fmap in Hc as (y & Hy & Hin). unfold ev_of in Hy. exists y.
    split; [done|]. by injection Hy as -> ->.
  - apply elem_of_cons in Hc as [Hc|Hc]; [done|].
    apply list_elem_of_split in Hc as (l1 & l2 & Hl). rewrite Hl in He.
    assert ((true, e_id x) ∈ l2) as Hin.
    { apply (lin.wf_matched _ Hwf ((ev_of <$> pre) ++ (true, e_id x) :: l1) _ l2).
      rewrite He. by rewrite <- app_assoc. }
    rewrite He in Hnd. apply NoDup_app in Hnd as (_ & _ & Hnd).
    apply NoDup_cons in Hnd as [Hnd _]. set_solver.
Qed.

(** Storing for [x] keeps what is stored for other entries. *)
Lemma stored_other hist cv rv x y h h' : (0 ≤ e_id x)%Z → (0 ≤ e_id y)%Z → ev_of y ≠ ev_of x →
  hist !! Z.to_nat (e_id x) = Some h →
  (if e_kind x then ClientId h' = ClientId h ∧ Start h' = Start h
   else End_ h' = End_ h ∧ Description h' = Description h) →
  stored hist cv rv y →
  stored (<[Z.to_nat (e_id x) := h']> hist)
    (if e_kind x then cv else <[e_id x := e_value x]> cv)
    (if e_kind x then <[e_id x := e_value x]> rv else rv) y.
Proof.
  intros Hx Hy Hne Hh Hh' (hy & Hhy & Hst). unfold ev_of in Hne.
  destruct (decide (e_id y = e_id x)) as [Heq|Hid].
  - exists h'. rewrite Heq. rewrite list_lookup_insert_eq by (by eapply lookup_lt_Some).
    split; [done|]. rewrite Heq in Hhy. simplify_eq.
    destruct (e_kind x), (e_kind y); rewrite Heq in *; try (by destruct Hne);
      destruct Hst as (? & ? & ?), Hh' as [? ?]; split_and!; congruence.
  - exists hy. rewrite list_lookup_insert_ne by lia. split; [done|].
    destruct (e_kind x), (e_kind y); rewrite ?lookup_insert_ne by congruence; done.
Qed.

Lemma history_loop_spec suf : ∀ pre hist cv rv, entries = pre ++ suf → zlen hist = n →
  Forall (stored hist cv rv) pre →
  ∃ hist' cv' rv', history_loop model suf hist cv rv = Done (hist', cv', rv') ∧
    zlen hist' = n ∧ Forall (stored hist' cv' rv') entries.
Proof.
  induction suf as [|x suf IH]; intros pre hist cv rv Hes Hn Hst; simpl.
  - exists hist, cv, rv. rewrite app_nil_r in Hes. by rewrite Hes.
  - assert (x ∈ entries) as Hx by (rewrite Hes; set_solver). pose proof (Hids x Hx) as Hr.
    destruct (idx_total hist (e_id x)) as [h Hh]; [lia|]. rewrite Hh. simpl.
    apply idx_Done in Hh as [_ Hh].
    assert (∀ h', set_idx hist (e_id x) h' = Done (<[Z.to_nat (e_id x) := h']> hist)) as Hset.
    { intros h'. unfold set_idx. rewrite (proj2 (andb_true_iff _ _)); [done|].
      split; [apply Z.leb_le|apply Z.ltb_lt]; lia. }
    assert (∀ h' cv' rv',
      Forall (stored (<[Z.to_nat (e_id x) := h']> hist) cv' rv') pre →
      stored (<[Z.to_nat (e_id x) := h']> hist) cv' rv' x →
      Forall (stored (<[Z.to_nat (e_id x) := h']> hist) cv' rv') (pre ++ [x])) as Hsnoc
      by (intros; apply Forall_app; by repeat constructor).
    assert (∀ y, y ∈ pre → ev_of y ≠ ev_of x ∧ (0 ≤ e_id y)%Z) as Hpre.
    { intros y Hy. split; [|apply Hids; rewrite Hes; set_solver]. intros Heq.
      pose proof (lin.wf_nodup _ Hwf) as Hnd. unfold es0 in Hnd. rewrite Hes, fmap_app in Hnd.
      apply NoDup_app in Hnd as (_ & Hnd & _). apply (Hnd (ev_of y)).
      - apply list_elem_of_fmap. by exists y.
      - rewrite Heq. rewrite fmap_cons. by left. }
    destruct (e_kind x) eqn:Hk; simpl.
    + destruct (call_before pre x suf Hes Hk) as (y & Hy & Hyk & Hyi).
      pose proof Hst as Hst'. rewrite Forall_forall in Hst'.
      destruct (Hst' y Hy) as (hy & _ & Hsy). rewrite Hyk, Hyi in Hsy. destruct Hsy as [Hcv _].
      assert (e_value y = inp entries (e_id x)) as Hval.
      { unfold inp. rewrite <- (val_of_entry entries y); [|apply (lin.wf_nodup _ Hwf)|rewrite Hes; set_solver].
        unfold ev_of. by rewrite Hyk, Hyi. }
      destruct (Hdesc x Hx Hk) as [d Hd]. unfold value_at. rewrite Hcv. simpl. rewrite Hval, Hd. simpl.
      rewrite Hset. simpl. apply (IH (pre ++ [x])); [by rewrite <- app_assoc|by rewrite zlen_insert|].
      apply Hsnoc.
      * rewrite Forall_forall. intros z Hz. destruct (Hpre z Hz).
        pose proof (stored_other hist cv rv x z h
          (MkHistoryElement (ClientId h) (Start h) (e_time x) d)) as Ho.
        rewrite Hk in Ho. apply Ho; [lia|done..|]. by apply Hst'.
      * eexists. rewrite list_lookup_insert_eq by (by eapply lookup_lt_Some). split; [done|].
        rewrite Hk. simpl. by rewrite lookup_insert_eq.
    + rewrite Hset. simpl. apply (IH (pre ++ [x])); [by rewrite <- app_assoc|by rewrite zlen_insert|].
      apply Hsnoc.
      * rewrite Forall_forall in Hst |- *. intros z Hz. destruct (Hpre z Hz).
        pose proof (stored_other hist cv rv x z h
          (MkHistoryElement (e_clientId x) (e_time x) (End_ h) (Description h))) as Ho.
        rewrite Hk in Ho. apply Ho; [lia|done..|]. by apply Hst.
      * eexists. rewrite list_lookup_insert_eq by (by eapply lookup_lt_Some). split; [done|].
        rewrite Hk. simpl. by rewrite lookup_insert_eq.
Qed.

End history.

(** The operations of a replayed linearization. *)
Definition indices (l : partialLinearization) : list Z := map Index l.

(** ** The replay *)
Section replay.
Context {V S : Type} `{GoNil V} (model : Model V S) (cv rv : gmap Z V) (inp out : Z → V).
Context (Hds : DescribeState model ≠ None).

(** [lg] is right for the linearizations [ps] replayed so far. *)
Definition largest_ok (ps : list (list Z)) (lg : largest) : Prop :=
  ∀ i, match lg_size lg !! i, lg_index lg !! i with
       | Some z, Some k => ∃ p, (0 ≤ k)%Z ∧ ps !! Z.to_nat k = Some p ∧ zlen p = z ∧ i ∈ p ∧
           ∀ p', p' ∈ ps → i ∈ p' → (zlen p' ≤ z)%Z
       | None, None => ∀ p', p' ∈ ps → i ∉ p'
       | _, _ => False
       end.

(** ... and for the first [pre] of the next one, at index [length ps]. *)
Definition largest_mid (ps : list (list Z)) (p pre : list Z) (lg : largest) : Prop :=
  ∀ i, match lg_size lg !! i, lg_index lg !! i with
       | Some z, Some k => ∃ q, (0 ≤ k)%Z ∧ (ps ++ [p]) !! Z.to_nat k = Some q ∧ zlen q = z ∧ i ∈ q ∧
           (∀ p', p' ∈ ps → i ∈ p' → (zlen p' ≤ z)%Z) ∧ (i ∈ pre → (zlen p ≤ z)%Z)
       | None, None => (∀ p', p' ∈ ps → i ∉ p') ∧ i ∉ pre
       | _, _ => False
       end.

Lemma largest_mid_start ps p lg : largest_ok ps lg → largest_mid ps p [] lg.
Proof.
  intros Hok i. specialize (Hok i).
  destruct (lg_size lg !! i) as [z|], (lg_index lg !! i) as [k|]; try done.
  - destruct Hok as (q & Hk & Hq & Hz & Hi & Hmax). exists q.
    split_and!; [done|by apply lookup_app_l_Some|done..|by intros ?%not_elem_of_nil].
  - split; [done|]. apply not_elem_of_nil.
Qed.

Lemma largest_mid_end ps p lg : largest_mid ps p p lg → largest_ok (ps ++ [p]) lg.
Proof.
  intros Hm i. specialize (Hm i).
  destruct (lg_size lg !! i) as [z|], (lg_index lg !! i) as [k|]; try done.
  - destruct Hm as (q & Hk & Hq & Hz & Hi & Hmax & Hp). exists q. split_and!; [done..|].
    intros p' [Hp'|Hp']%elem_of_app Hin; [by apply Hmax|].
    apply list_elem_of_singleton in Hp' as ->. auto.
  - destruct Hm as [Hno Hp]. intros p' [Hp'|Hp']%elem_of_app; [by apply Hno|].
    by apply list_elem_of_singleton in Hp' as ->.
Qed.

(** The update at [histId]. *)
Lemma largest_mid_step ps p pre i lg : i ∈ p → largest_mid ps p pre lg →
  largest_mid ps p (pre ++ [i])
    (if (default 0 (lg_size lg !! i) <? zlen p)%Z
     then MkLargest (<[i := zlen p]> (lg_size lg)) (<[i := zlen ps]> (lg_index lg)) else lg).
Proof.
  intros Hi Hm j. destruct (decide (j = i)) as [->|Hne].
  - specialize (Hm i). destruct (lg_size lg !! i) as [z|] eqn:Hz; simpl.
    + destruct (lg_index lg !! i) as [k|] eqn:Hk; [|done].
      destruct Hm as (q & H0 & Hq & Hzl & Hiq & Hmax & Hp).
      destruct (Z.ltb_spec z (zlen p)); simpl.
      * rewrite !lookup_insert_eq. exists p. unfold zlen at 1 2. rewrite Nat2Z.id.
        rewrite list_lookup_middle by done.
        split_and!; [lia|done..| |done]. intros p' Hp' Hin. specialize (Hmax p' Hp' Hin). lia.
      * rewrite Hz, Hk. exists q. split_and!; [done..|]. intros _. lia.
    + destruct (lg_index lg !! i) as [k|] eqn:Hk; [done|]. destruct Hm as [Hno Hp].
      destruct (Z.ltb_spec 0 (zlen p)) as [Hlt|Hge]; simpl.
      * rewrite !lookup_insert_eq. exists p. unfold zlen at 1 2. rewrite Nat2Z.id.
        rewrite list_lookup_middle by done. split_and!; [lia|done..| |done].
        intros p' Hp' Hin. by apply Hno in Hin.
      * destruct p; [by apply not_elem_of_nil in Hi|]. unfold zlen in Hge. simpl in Hge. lia.
  - specialize (Hm j).
    destruct (default 0 (lg_size lg !! i) <? zlen p)%Z; simpl; rewrite ?lookup_insert_ne by congruence;
      (destruct (lg_size lg !! j) as [z|], (lg_index lg !! j) as [k|]; try done;
      [destruct Hm as (q & H0 & Hq & Hzl & Hiq & Hmax & Hp); exists q; split_and!; [done..|];
       intros [?|Hj%list_elem_of_singleton]%elem_of_app; [auto|congruence]
      |destruct Hm as [Hno Hp]; split; [done|];
       intros [?|Hj%list_elem_of_singleton]%elem_of_app; [auto|congruence]]).
Qed.

Lemma replay_loop_spec ps p : ∀ suf pre s lg, p = pre ++ suf →
  lin.legal (Step model) inp out s suf →
  (∀ i, i ∈ suf → value_at cv i = inp i ∧ value_at rv i = out i) →
  largest_mid ps p pre lg →
  ∃ steps lg', replay_loop model cv rv (zlen ps) (zlen p) s lg suf = Done (steps, lg') ∧
    indices steps = suf ∧ largest_mid ps p p lg'.
Proof.
  induction suf as [|i suf IH]; intros pre s lg Hp Hl Hval Hm; simpl.
  - exists [], lg. rewrite app_nil_r in Hp. subst pre. done.
  - destruct Hl as (s' & Hs & Hl). destruct (Hval i) as [-> ->]; [by left|]. rewrite Hs. simpl.
    unfold call_DescribeState. destruct (DescribeState model) as [ds|]; [|done]. simpl.
    edestruct (IH (pre ++ [i]) s') as (steps & lg' & -> & Hidx & Hm').
    + by rewrite <- app_assoc.
    + done.
    + intros j Hj. apply Hval. by right.
    + apply largest_mid_step; [|done]. rewrite Hp. set_solver.
    + simpl. eexists _, lg'. split; [done|]. split; [|done]. simpl. by rewrite Hidx.
Qed.

Lemma partials_loop_spec ps2 : ∀ ps1 lg, 
  Forall (λ p, lin.legal (Step model) inp out (Init model) p ∧
    ∀ i, i ∈ p → value_at cv i = inp i ∧ value_at rv i = out i) ps2 →
  largest_ok ps1 lg →
  ∃ lins lg', partials_loop model cv rv (zlen ps1) lg ps2 = Done (lins, lg') ∧
    map indices lins = ps2 ∧ largest_ok (ps1 ++ ps2) lg'.
Proof.
  induction ps2 as [|p ps2 IH]; intros ps1 lg Hall Hok; simpl.
  - exists [], lg. by rewrite app_nil_r.
  - apply Forall_cons in Hall as [[Hl Hv] Hall].
    destruct (replay_loop_spec ps1 p p [] (Init model) lg) as (steps & lg1 & -> & Hidx & Hm);
      [done..|by apply largest_mid_start|]. simpl.
    destruct (IH (ps1 ++ [p]) lg1 Hall) as (lins & lg2 & Heq & Hidx2 & Hok2);
      [by apply largest_mid_end|].
    rewrite zlen_app in Heq. replace (zlen ps1 + zlen [p])%Z with (zlen ps1 + 1)%Z in Heq by done.
    rewrite Heq. simpl. eexists _, lg2. split; [done|]. split.
    + simpl. by rewrite Hidx, Hidx2.
    + by rewrite <- app_assoc in Hok2.
Qed.

End replay.

(** ** A partition *)

(** The picture [d] of the operations [ops] with the recorded sequences [partials]. *)
Record picture {V S} `{PartialSorter} (model : Model V S) (ops : list (Operation V))
    (partials : list (list Z)) (d : partitionVisualizationData) : Prop := MkPicture {
  pic_history : ∀ i op, ops !! i = Some op → ∃ e, History d !! i = Some e ∧
    ClientId e = op_ClientId op ∧ Start e = Call op ∧ End_ e = Return op ∧
    call_DescribeOperation model (Input op) (Output op) = Done (Description e);
  pic_length : length (History d) = length ops;
  pic_partials : map indices (PartialLinearizations d) = sort_partials partials;
  pic_legal : ∀ σ, σ ∈ partials →
    ∃ τ, Forall2 (is_op ops) σ τ ∧ legal_ops model (Init model) τ;
  pic_largest : ∀ i, match Largest d !! i with
    | Some k => ∃ σ, (0 ≤ k)%Z ∧ sort_partials partials !! Z.to_nat k = Some σ ∧ i ∈ σ ∧
        ∀ σ', σ' ∈ partials → i ∈ σ' → length σ' ≤ length σ
    | None => ∀ σ', σ' ∈ partials → i ∉ σ'
    end;
}.

(** [Largest] leads to linearizations that no partial linearization with the same
    operation exceeds. *)
Definition shows_longest {V S} (model : Model V S) (ops : list (Operation V)) (d : partitionVisualizationData) : Prop :=
  ∀ σ i, partial_ops model ops σ → i ∈ σ → ∃ k l, Largest d !! i = Some k ∧
    PartialLinearizations d !! Z.to_nat k = Some l ∧ i ∈ indices l ∧ length σ ≤ length l.

Lemma picture_longest {V S} `{PartialSorter} (model : Model V S) ops partials d : picture model ops partials d →
  (∀ σ i, partial_ops model ops σ → i ∈ σ → ∃ σ', σ' ∈ partials ∧ i ∈ σ' ∧ length σ ≤ length σ') →
  shows_longest model ops d.
Proof.
  intros Hd Hrec σ i Hσ Hi. destruct (Hrec σ i Hσ Hi) as (σ' & Hin & Hi' & Hle).
  pose proof (pic_largest _ _ _ _ Hd i) as Hl. destruct (Largest d !! i) as [k|]; [|by destruct (Hl σ' Hin)].
  destruct Hl as (σ1 & _ & Hk & Hi1 & Hmax). rewrite <- (pic_partials _ _ _ _ Hd) in Hk.
  apply list_lookup_fmap_Some in Hk as (l & -> & Hl). exists k, l. split_and!; [done..|].
  specialize (Hmax σ' Hin Hi'). unfold indices in Hmax. rewrite length_map in Hmax. lia.
Qed.

Section partition.
Context {V S : Type} `{GoNil V, Sorter V, PartialSorter} (model : Model V S).
Context (Hds : DescribeState model ≠ None).
Implicit Types ops : list (Operation V).

Lemma legal_seq_ops ops σ : legal_seq model (makeEntries ops) σ →
  ∃ τ, Forall2 (is_op ops) σ τ ∧ legal_ops model (Init model) τ.
Proof.
  intros [Hl Hall]. assert (∃ τ, Forall2 (is_op ops) σ τ) as [τ Hτ].
  { clear Hl. induction Hall as [|i σ Hi Hall [τ IH]]; [by exists []|].
    apply makeEntries_event in Hi as (op & Hge & Hop). exists (op :: τ). by constructor. }
  exists τ. split; [done|]. by eapply is_op_legal.
Qed.

Lemma partition_data_spec ops partials : checkable model ops →
  (∀ op, op ∈ ops → returns (call_DescribeOperation model (Input op) (Output op))) →
  Forall (legal_seq model (makeEntries ops)) partials →
  ∃ d, partition_data model (makeEntries ops) partials = Done d ∧ picture model ops partials d.
Proof.
  intros Hc Hdo Hleg. pose proof (makeEntries_wf ops (proj1 Hc)) as Hwf.
  assert (∀ x, x ∈ makeEntries ops → ∃ op, (0 ≤ e_id x)%Z ∧ ops !! Z.to_nat (e_id x) = Some op ∧
    x = entry_of (e_id x) op (e_kind x)) as Hent.
  { intros x Hx. pose proof Hx as Hx'. apply (list_elem_of_fmap_2 ev_of) in Hx'. 
    apply makeEntries_event in Hx' as (op & Hge & Hop).
    exists op. split_and!; [done..|]. by eapply entry_unique. }
  assert (nops (makeEntries ops) = zlen ops) as Hnops by apply makeEntries_nops.
  destruct (history_loop_spec model (makeEntries ops) (zlen ops) Hwf) with
    (suf := makeEntries ops) (pre := @nil (entry V)) (cv := (∅ : gmap Z V)) (rv := (∅ : gmap Z V))
    (hist := replicate (Z.to_nat (zlen ops)) zero_element)
    as (hist & cv & rv & Hh & Hlen & Hst).
  - intros x Hx. destruct (Hent x Hx) as (op & Hge & Hop & _). apply lookup_lt_Some in Hop.
    unfold zlen. lia.
  - intros x Hx Hk. destruct (Hent x Hx) as (op & Hge & Hop & Hxe).
    assert (e_value x = Output op) as -> by (rewrite Hxe, Hk; done).
    unfold inp. rewrite (makeEntries_val ops _ op) by done.
    apply Hdo. by eapply list_elem_of_lookup_2.
  - done.
  - unfold zlen. rewrite length_replicate. lia.
  - constructor.
  - rewrite Forall_forall in Hst.
    assert (∀ i op k, (0 ≤ i)%Z → ops !! Z.to_nat i = Some op →
      stored model (makeEntries ops) hist cv rv (entry_of i op k)) as Hstored.
    { intros i op k Hge Hop. apply Hst. by apply entry_lookup. }
    destruct (partials_loop_spec model cv rv (inp (makeEntries ops)) (out (makeEntries ops)) Hds
      (sort_partials partials) [] (MkLargest ∅ ∅)) as (lins & lg & Hp & Hidx & Hok).
    + rewrite (sort_partials_perm partials). eapply Forall_impl; [exact Hleg|].
      intros p [Hl Hall]. split; [done|]. intros i Hi. rewrite Forall_forall in Hall.
      apply Hall, makeEntries_event in Hi as (op & Hge & Hop). unfold inp, out, value_at.
      rewrite !(makeEntries_val ops i op) by done.
      destruct (Hstored i op false Hge Hop) as (? & _ & Hcv & _).
      destruct (Hstored i op true Hge Hop) as (? & _ & Hrv & _).
      simpl in Hcv, Hrv. by rewrite Hcv, Hrv.
    + intros i. simpl. rewrite !lookup_empty. intros p ?%not_elem_of_nil. done.
    + unfold partition_data. fold (nops (makeEntries ops)). rewrite Hnops, Hh. simpl.
      change (zlen (@nil (list Z))) with 0%Z in Hp. rewrite Hp. simpl. eexists. split; [done|].
      split; simpl.
      * intros i op Hop. pose proof (Hstored (Z.of_nat i) op false) as Hc1.
        pose proof (Hstored (Z.of_nat i) op true) as Hr1. simpl in Hc1, Hr1.
        rewrite Nat2Z.id in Hc1, Hr1.
        destruct Hc1 as (e & He & _ & Hcl & Hs); [lia|done|]. simpl in *. rewrite Nat2Z.id in He.
        destruct Hr1 as (e' & He' & _ & Hend & Hd); [lia|done|]. simpl in *. rewrite Nat2Z.id in He'.
        simplify_eq. exists e. split_and!; [done..|].
        unfold inp in Hd. rewrite (makeEntries_val ops _ op) in Hd; [done|lia|by rewrite Nat2Z.id].
      * unfold zlen in Hlen. lia.
      * done.
      * intros σ Hσ. apply legal_seq_ops. rewrite Forall_forall in Hleg. by apply Hleg.
      * intros i. specialize (Hok i).
        assert (∀ σ, σ ∈ partials → σ ∈ sort_partials partials) as Hin
          by (intros σ; by rewrite (sort_partials_perm partials)).
        destruct (lg_size lg !! i), (lg_index lg !! i); try done; [|by auto].
        destruct Hok as (σ & Hge & Hσ & <- & Hi & Hmax). exists σ. split_and!; [done..|].
        intros σ' Hσ' Hi'. specialize (Hmax σ' (Hin _ Hσ') Hi'). unfold zlen in Hmax. lia.
Qed.

(** Every sequence of the result of a search is legal. *)
Lemma partials_of_legal ops fuel cp kill r pt : timed ops →
  checker.checkSingle fuel model (makeEntries ops) cp kill = Some (Done (r, pt)) →
  Forall (legal_seq model (makeEntries ops)) (checker.partials_of pt).
Proof.
  intros Ht Hc. apply checkSingle_partials in Hc; [|by apply makeEntries_wf].
  unfold checker.partials_of. apply Forall_fmap, Forall_forall. intros p _. simpl.
  destruct (checker.pt_seqs pt !! p) as [σ|] eqn:Hp; simpl; [|by split].
  rewrite Forall_forall in Hc. apply Hc. by eapply list_elem_of_lookup_2.
Qed.

Lemma collect_longest_spec fuel received kills history : ∀ i pts,
  checker.collect_longest fuel model received kills i history = Some (Done pts) →
  Forall2 (λ sub pt, ∃ kill r, checker.checkSingle fuel model sub true kill = Some (Done (r, pt)))
    history pts.
Proof.
  induction history as [|sub history IH]; intros i pts Hc; simpl in Hc; [by simplify_eq|].
  set (kill := if decide (i ∈ received) then checker.never else kills i) in Hc.
  destruct (checker.checkSingle fuel model sub true kill) as [r|] eqn:Hr; [|done]. simpl in Hc.
  destruct (checker.collect_longest _ _ _ _ (i + 1) history) as [rs|] eqn:Hrs; [|done].
  simpl in Hc. injection Hc as Hc. destruct r as [[b pt]| |], rs as [pts'| |]; try done.
  simpl in Hc. simplify_eq. constructor; [by eauto|by eapply IH].
Qed.

Lemma partition_loop_spec parts : ∀ pre pls,
  Forall2 (λ ops partials, checkable model ops ∧
    (∀ op, op ∈ ops → returns (call_DescribeOperation model (Input op) (Output op))) ∧
    Forall (legal_seq model (makeEntries ops)) partials) parts pls →
  ∃ data, partition_loop model (zlen pre) (makeEntries <$> parts) (pre ++ pls) = Done data ∧
    Forall2 (λ '(ops, partials) d, picture model ops partials d) (zip parts pls) data.
Proof.
  induction parts as [|ops parts IH]; intros pre pls Hall.
  - apply Forall2_nil_inv_l in Hall as ->. by exists [].
  - apply Forall2_cons_inv_l in Hall as (partials & pls' & (Hc & Hdo & Hl) & Hall & ->).
    rewrite fmap_cons. simpl.
    assert (idx (pre ++ partials :: pls') (zlen pre) = Done partials) as ->.
    { apply idx_Done. unfold zlen. rewrite Nat2Z.id, list_lookup_middle by done. split; [lia|done]. }
    simpl. destruct (partition_data_spec ops partials Hc Hdo Hl) as (d & -> & Hd). simpl.
    destruct (IH (pre ++ [partials]) pls' Hall) as (data & Heq & Hf).
    rewrite zlen_app, <- app_assoc in Heq. simpl in Heq.
    change (zlen [partials]) with 1%Z in Heq. rewrite Heq. simpl.
    exists (d :: data). split; [done|]. by constructor.
Qed.
End partition.

End visproof.
Import visproof.

(** C30: Whatever a verbose check returns (linearizable or not, timed out or
    not, under every schedule), [computeVisualizationData] does not panic on it:
    the model accepts every partial linearization step by step.  In the picture
    of a partition the elements of the history are the operations with their
    client, times and description; the replayed linearizations are the recorded
    ones, each a legal sequence of the operations; and [Largest] maps exactly the
    operations that occur in a recorded one to a longest recorded one that contains
    it.  If the timer did not fire and [Equal] is sound, that one is longest among
    all partial linearizations of the partition with the operation: legal sequences
    in which every operation comes after those that returned before its call. *)
Theorem visualization_total {V S}
    `{GoNil V, EqDecision S, GoString V, GoString S, Sorter V, PartialSorter}
    (model : Model V S) (ops : list (Operation V)) parts timeout ch res info :
  default NoPartition (Partition model) ops = Done parts →
  Forall (checkable model) parts →
  Forall (Forall (λ op, returns (call_DescribeOperation (checker.fillDefault model)
    (Input op) (Output op)))) parts →
  porcupine.CheckOperationsVerbose model ops timeout ch = Some (Done (res, info)) →
  ∃ data, computeVisualizationData model info = Done data ∧
    length (checker.info_partialLinearizations info) = length parts ∧
    Forall2 (λ '(part, partials) d, picture (checker.fillDefault model) part partials d)
      (zip parts (checker.info_partialLinearizations info)) data ∧
    ((timeout ≤ 0)%Z ∨ checker.Fired ∉ checker.ch_cases ch → Equal model = None ∨ equal_sound model →
      Forall2 (shows_longest (checker.fillDefault model)) parts data).
Proof.
  intros Hp Hc Hdo Hr. unfold porcupine.CheckOperationsVerbose, checker.checkOperations in Hr.
  simpl in Hr. rewrite Hp in Hr. unfold checker.checkParallel in Hr.
  destruct (checker.select_loop _ _ _ _ _ _ _ _ _) as [[[[ok to] received]| |]|] eqn:Hsel; try done.
  simpl in Hr. destruct (checker.collect_longest _ _ _ _ _ _) as [r|] eqn:Hcl; [|done].
  simpl in Hr. injection Hr as Hr. destruct r as [pts| |]; try done. simpl in Hr. simplify_eq.
  pose proof Hcl as Hcl0. apply collect_longest_spec in Hcl. rewrite Forall2_fmap_l in Hcl.
  assert (length (checker.partials_of <$> pts) = length parts) as Hlen.
  { rewrite length_fmap. symmetry. by eapply Forall2_length. }
  destruct (partition_loop_spec (checker.fillDefault model)) with
    (parts := parts) (pre := @nil (list (list Z))) (pls := checker.partials_of <$> pts)
    as (data & Hd & Hf); [done| |].
  - apply Forall2_fmap_r. clear -Hc Hdo Hcl.
    induction Hcl as [|part pt parts pts (kill & b & Hcs) _ IH]; [constructor|].
    apply Forall_cons in Hc as [Hc1 Hc]. apply Forall_cons in Hdo as [Hdo1 Hdo].
    constructor; [|by apply IH]. split_and!.
    + exact Hc1.
    + rewrite Forall_forall in Hdo1. exact Hdo1.
    + eapply partials_of_legal; [apply Hc1|exact Hcs].
  - exists data. split; [exact Hd|]. split; [done|]. split; [exact Hf|]. intros Hto Heq%fillDefault_equal.
    eapply select_loop_received in Hsel as (Hok & Hend & Hfire); [|by split; constructor|done].
    destruct to; [destruct (Hfire eq_refl); destruct Hto; [lia|done]|].
    apply collect_longest_received in Hcl0.
    2:{ intros j Hj. eapply received_all; [exact Hok|by apply Hend|lia]. }
    rewrite Forall2_fmap_l in Hcl0. simpl in Hf. rewrite zip_with_fmap_r in Hf. clear -Heq Hc Hcl0 Hf.
    revert data Hf. induction Hcl0 as [|part pt parts pts (r & Hcs) _ IH]; intros data Hf; simpl in Hf.
    { by apply Forall2_nil_inv_l in Hf as ->. }
    apply Forall_cons in Hc as [Hc1 Hc]. apply Forall2_cons_inv_l in Hf as (d & data' & Hd & Hf & ->).
    constructor; [|by apply IH]. eapply picture_longest; [exact Hd|]. by eapply checkSingle_longest.
Qed.

(** ** A history that is not linearizable *)

(** A sorter of the contract. *)
Module longest_first.

Definition longer_eq (a b : list Z) : Prop := length b ≤ length a.

#[export] Instance longer_eq_dec a b : Decision (longer_eq a b).
Proof. unfold longer_eq. apply _. Defined.
#[export] Instance longer_eq_total : Total longer_eq.
Proof. intros a b. unfold longer_eq. lia. Qed.
#[export] Instance longer_eq_trans : Transitive longer_eq.
Proof. intros a b c. unfold longer_eq. lia. Qed.

#[export] Program Instance partial_sorter : PartialSorter := {
  sort_partials := merge_sort longer_eq;
}.
Next Obligation. intros l. apply merge_sort_Permutation. Qed.
Next Obligation.
  intros l i j a b Hij Ha Hb. pose proof (StronglySorted_merge_sort longer_eq l) as Hs.
  revert i j Hij Ha Hb. induction Hs as [|x k Hs IH Hall]; intros i j Hij Ha Hb; [done|].
  destruct i as [|i], j as [|j]; try lia; simpl in *.
  - simplify_eq. rewrite Forall_forall in Hall. apply Hall. by eapply list_elem_of_lookup_2.
  - eapply IH; [|done..]. lia.
Qed.

Definition schedule : checker.run_choice :=
  checker.MkChoice 20 [checker.Sent 0] (λ _ _, false).

End longest_first.
Import longest_first.

Lemma visualization_total_witness : ∃ info data,
  porcupine.CheckOperationsVerbose kvmodel.KvModel stale_get 0 schedule
    = Some (Done (Illegal, info)) ∧
  checker.info_partialLinearizations info = [[[0%Z]]] ∧
  computeVisualizationData kvmodel.KvModel info = Done data ∧
  Forall2 (λ '(part, partials) d, picture (checker.fillDefault kvmodel.KvModel) part partials d)
    (zip [stale_get] (checker.info_partialLinearizations info)) data ∧
  Forall2 (shows_longest (checker.fillDefault kvmodel.KvModel)) [stale_get] data.
Proof.
  destruct (porcupine.CheckOperationsVerbose kvmodel.KvModel stale_get 0 schedule)
    as [[[res info]| |]|] eqn:E; [|vm_compute in E; discriminate E..].
  destruct (visualization_total kvmodel.KvModel stale_get [stale_get] 0 schedule res info)
    as (data & Hd & _ & Hp & Hlong).
  - vm_compute. reflexivity.
  - apply Forall_singleton. apply stale_get_checkable.
  - apply Forall_singleton. repeat (apply Forall_cons; split); [by eexists..|]. by apply Forall_nil.
  - exact E.
  - exists info, data. vm_compute in E. injection E as <- <-.
    split; [reflexivity|]. split; [reflexivity|]. split; [exact Hd|].
    split; [exact Hp|]. apply Hlong; [left; lia|left; reflexivity].
Defined.

(** C23: The page shows the data.  If the data of the picture are [data],
    [Visualize] writes the page with a text in place of the verb from which the
    script, reading UTF-8 and doubles, reads [shown data]: the data with every
    invalid byte of a description replaced by U+FFFD and every number rounded to a
    double.  That is [data] itself when the descriptions are valid UTF-8 and the
    numbers are at most 2^53 in size.  The text has no character that could end the
    script, so no description can change the page.  [VisualizePath] leaves that
    page in the file, whatever was there, and reports an error if the file cannot
    be created or written. *)
Theorem visualize_page {V S}
    `{GoNil V, EqDecision S, GoString V, GoString S, PartialSorter}
    (pre post : string) {W} (write : W → string → W * bool) (output : W)
    (model : Model V S) info data creatable disk path fs :
  computeVisualizationData model info = Done data →
  ∃ text, page.Visualize pre post write model info output = Done (write output (pre +:+ text +:+ post)) ∧
    page.read_data text = Some (page.shown data) ∧ (page.plain data → page.read_data text = Some data) ∧
    (∀ c, json.unsafe c = true → gostrings.no_char c text) ∧
    ∃ fs', page.VisualizePath pre post creatable disk model info path fs =
        Done (fs', creatable path && disk (pre +:+ text +:+ post)) ∧
      fs' !! path = (if negb (creatable path) then fs !! path
                     else Some (if disk (pre +:+ text +:+ post) then pre +:+ text +:+ post else "")) ∧
      ∀ p, p ≠ path → fs' !! p = fs !! p.
Proof.
  intros Hd. exists (page.Marshal data). unfold page.Visualize, page.VisualizePath, page.Visualize. rewrite Hd.
  split; [done|]. split; [apply page.read_Marshal|].
  split; [intros Hp; rewrite page.read_Marshal; by rewrite page.shown_plain|]. split; [intros c; apply json.print_safe|].
  destruct (creatable path); simpl; [|by exists fs]. rewrite lookup_insert_eq. simpl.
  destruct (disk _); eexists; (split; [done|]).
  - rewrite lookup_insert_eq. split; [done|]. intros p Hp. by rewrite !lookup_insert_ne by done.
  - rewrite lookup_insert_eq. split; [done|]. intros p Hp. by rewrite !lookup_insert_ne by done.
Qed.

Lemma visualize_page_witness : ∃ info data text fs,
  porcupine.CheckOperationsVerbose kvmodel.KvModel stale_get 0 schedule = Some (Done (Illegal, info)) ∧
  page.VisualizePath "const data = " ";" (λ _, true) (λ _, true) kvmodel.KvModel info "/tmp/page.html"
    {["/tmp/page.html" := "old"]} = Done (fs, true) ∧
  fs !! "/tmp/page.html" = Some ("const data = " +:+ text +:+ ";") ∧
  page.read_data text = Some data ∧ length data = 1.
Proof.
  destruct (porcupine.CheckOperationsVerbose kvmodel.KvModel stale_get 0 schedule)
    as [[[res info]| |]|] eqn:E; [|vm_compute in E; discriminate E..].
  destruct (computeVisualizationData kvmodel.KvModel info) as [data| |] eqn:Hd;
    [|vm_compute in E; injection E as <- <-; vm_compute in Hd; discriminate Hd..].
  destruct (visualize_page "const data = " ";" (λ (w : string) t, (w +:+ t, true)) "" kvmodel.KvModel info data
    (λ _, true) (λ _, true) "/tmp/page.html" {["/tmp/page.html" := "old"]} Hd) as (text & _ & _ & Hr & _ & fs & Hp & Hf & _).
  exists info, data, text, fs. split; [|split; [exact Hp|split; [exact Hf|split; [apply Hr|]]]].
  - vm_compute in E. injection E as <- <-. reflexivity.
  - vm_compute in E. injection E as <- <-. vm_compute in Hd. injection Hd as <-.
    apply (bool_decide_unpack _). vm_compute. exact I.
  - vm_compute in E. injection E as <- <-. vm_compute in Hd. injection Hd as <-. reflexivity.
Defined.
