(* ===== verification/KvSrv.v ===== *)
(** * kvsrv: the key-value server and its clerks

    server.go, client.go and common.go.  A handler runs under the mutex, so it
    is one function on the server state.  A clerk operation is a loop of calls;
    between two calls of one clerk the other clerks run, so the operations of
    all clerks are modelled as the actions of a small machine, where the network
    may lose a request, or the reply of a request the server has executed
    (labrpc's [Call] then returns [false] and the clerk tries again). *)

From S2P Require Import Prelude Bitset Porcupine KvModel.

(** ** common.go *)
Record PutAppendArgs := MkPutAppendArgs {
  pa_Key : string; pa_Value : string; pa_ClientID : Z; pa_SeqNum : Z }.
Record PutAppendReply := MkPutAppendReply { par_Value : string }.
Record GetArgs := MkGetArgs { g_Key : string; g_ClientID : Z; g_SeqNum : Z }.
Record GetReply := MkGetReply { gr_Value : string }.

(** ** server.go *)
Record dupTable := MkDupTable { dt_seq : Z; dt_value : string }.

(** The [*dupTable] of a client is only reachable through the map, so the map
    holds the structs. *)
Record KVServer := MkKVServer {
  kv_data : gmap string string;
  kv_clientTable : gmap Z dupTable;
}.

Module kvsrv.

(** Reading a missing key of a Go map gives the zero value. *)
Definition lookup_data (kv : KVServer) (k : string) : string := default "" (kv_data kv !! k).

Definition Get (kv : KVServer) (args : GetArgs) : KVServer * GetReply :=
  match kv_clientTable kv !! g_ClientID args with
  | None => (kv, MkGetReply (lookup_data kv (g_Key args)))
  | Some dt =>
      if (dt_seq dt =? g_SeqNum args)%Z then (kv, MkGetReply (dt_value dt))
      else
        let dt' := MkDupTable (g_SeqNum args) (lookup_data kv (g_Key args)) in
        (MkKVServer (kv_data kv) (<[g_ClientID args := dt']> (kv_clientTable kv)),
         MkGetReply (dt_value dt'))
  end.

Definition Put (kv : KVServer) (args : PutAppendArgs) : KVServer * PutAppendReply :=
  match kv_clientTable kv !! pa_ClientID args with
  | None =>
      (MkKVServer (<[pa_Key args := pa_Value args]> (kv_data kv)) (kv_clientTable kv),
       MkPutAppendReply "")
  | Some dt =>
      if (dt_seq dt =? pa_SeqNum args)%Z then (kv, MkPutAppendReply "")
      else
        (MkKVServer (<[pa_Key args := pa_Value args]> (kv_data kv))
           (<[pa_ClientID args := MkDupTable (pa_SeqNum args) ""]> (kv_clientTable kv)),
         MkPutAppendReply "")
  end.

Definition Append (kv : KVServer) (args : PutAppendArgs) : KVServer * PutAppendReply :=
  let table :=
    match kv_clientTable kv !! pa_ClientID args with
    | None => <[pa_ClientID args := MkDupTable (-1) ""]> (kv_clientTable kv)
    | Some _ => kv_clientTable kv
    end in
  let dt := default (MkDupTable (-1) "") (table !! pa_ClientID args) in
  if (dt_seq dt =? pa_SeqNum args)%Z then
    (MkKVServer (kv_data kv) table, MkPutAppendReply (dt_value dt))
  else
    let old := lookup_data kv (pa_Key args) in
    (MkKVServer (<[pa_Key args := old +:+ pa_Value args]> (kv_data kv))
       (<[pa_ClientID args := MkDupTable (pa_SeqNum args) old]> table),
     MkPutAppendReply old).

Definition StartKVServer : KVServer := MkKVServer ∅ ∅.

End kvsrv.

(** ** client.go *)

(** The operation a clerk was asked for. *)
Inductive request :=
  | RGet (key : string)
  | RPut (key value : string)
  | RAppend (key value : string).

(** What a clerk is doing: nothing, inside the [for !ok] loop of an operation
    called at some time, or past the loop with the reply. *)
Inductive activity :=
  | Idle
  | Trying (r : request) (start : Z)
  | Replied (r : request) (start : Z) (v : string).

Record Clerk := MkClerk { ck_clientId : Z; ck_seqNum : Z; ck_doing : activity }.

Module clerk.

(** [nrand]: the value [rand.Int] returns, below [2^62]. *)
Definition nrand_ok (x : Z) : Prop := (0 ≤ x < 2 ^ 62)%Z.

Definition MakeClerk (rand : Z) : Clerk := MkClerk rand 0 Idle.

(** Entering [Get] or [PutAppend]: the sequence number is incremented once. *)
Definition begin (ck : Clerk) (r : request) (now : Z) : Clerk :=
  MkClerk (ck_clientId ck) (ck_seqNum ck + 1) (Trying r now).

(** One call that reaches the server: the arguments are those of the clerk and
    the current sequence number; the reply starts empty. *)
Definition Get_call (kv : KVServer) (ck : Clerk) (key : string) : KVServer * string :=
  let args := MkGetArgs key (ck_clientId ck) (ck_seqNum ck) in
  let '(kv', reply) := kvsrv.Get kv args in (kv', gr_Value reply).

Definition PutAppend_call (kv : KVServer) (ck : Clerk) (key value : string) (op : string)
    : KVServer * string :=
  let args := MkPutAppendArgs key value (ck_clientId ck) (ck_seqNum ck) in
  let '(kv', reply) :=
    if String.eqb op "Put" then kvsrv.Put kv args else kvsrv.Append kv args in
  (kv', par_Value reply).

Definition call (kv : KVServer) (ck : Clerk) (r : request) : KVServer * string :=
  match r with
  | RGet k => Get_call kv ck k
  | RPut k v => PutAppend_call kv ck k v "Put"
  | RAppend k v => PutAppend_call kv ck k v "Append"
  end.

End clerk.

(** ** Clerks and server together *)
Record sys := MkSys { sy_server : KVServer; sy_clerks : list Clerk }.

Inductive action :=
  | Invoke (c : nat) (r : request)  (** clerk [c] enters an operation *)
  | Lose (c : nat)                  (** a request of [c] is lost *)
  | Exec (c : nat) (ok : bool)      (** the server executes it; the reply arrives if [ok] *)
  | Finish (c : nat).               (** the operation of [c] returns *)

Module kvsys.

Definition init (ids : list Z) : sys := MkSys kvsrv.StartKVServer (clerk.MakeClerk <$> ids).

(** The operation recorded in the history: 0 get, 1 put, 3 append with the old
    value; [Put] ignores the reply. *)
Definition record (c : nat) (r : request) (start : Z) (v : string) (now : Z)
    : Operation kvmodel.iface :=
  let mk op k x o := MkOperation kvmodel.iface (Z.of_nat c)
    (kvmodel.IInput (kvmodel.MkKvInput op k x)) start
    (kvmodel.IOutput (kvmodel.MkKvOutput o)) now in
  match r with
  | RGet k => mk 0%Z k "" v
  | RPut k x => mk 1%Z k x ""
  | RAppend k x => mk 3%Z k x v
  end.

Definition set_clerk (σ : sys) (c : nat) (ck : Clerk) : sys :=
  MkSys (sy_server σ) (<[c := ck]> (sy_clerks σ)).

Definition with_doing (ck : Clerk) (d : activity) : Clerk :=
  MkClerk (ck_clientId ck) (ck_seqNum ck) d.

(** One action at time [now]; [None] if the clerk is not in the right state. *)
Definition step (σ : sys) (now : Z) (a : action) : option (sys * option (Operation kvmodel.iface)) :=
  match a with
  | Invoke c r =>
      ck ← sy_clerks σ !! c;
      match ck_doing ck with
      | Idle => Some (set_clerk σ c (clerk.begin ck r now), None)
      | _ => None
      end
  | Lose c =>
      ck ← sy_clerks σ !! c;
      match ck_doing ck with
      | Trying _ _ => Some (σ, None)
      | _ => None
      end
  | Exec c ok =>
      ck ← sy_clerks σ !! c;
      match ck_doing ck with
      | Trying r start =>
          let '(kv, v) := clerk.call (sy_server σ) ck r in
          let ck' := if ok : bool then with_doing ck (Replied r start v) else ck in
          Some (MkSys kv (<[c := ck']> (sy_clerks σ)), None)
      | _ => None
      end
  | Finish c =>
      ck ← sy_clerks σ !! c;
      match ck_doing ck with
      | Replied r start v =>
          Some (set_clerk σ c (with_doing ck Idle), Some (record c r start v now))
      | _ => None
      end
  end.

(** A run: the final state and the history of completed operations.  The clock
    ticks at every action. *)
Fixpoint run (σ : sys) (now : Z) (acts : list action) : option (sys * list (Operation kvmodel.iface)) :=
  match acts with
  | [] => Some (σ, [])
  | a :: acts' =>
      '(σ1, o) ← step σ now a;
      '(σ2, ops) ← run σ1 (now + 1) acts';
      Some (σ2, match o with Some op => op :: ops | None => ops end)
  end.

(** The reply to a put of a client without a table entry gets lost. *)
Definition unrecorded_put (σ : sys) (a : action) : bool :=
  match a with
  | Exec c false =>
      match sy_clerks σ !! c with
      | Some (MkClerk id _ (Trying (RPut _ _) _)) =>
          match kv_clientTable (sy_server σ) !! id with None => true | Some _ => false end
      | _ => false
      end
  | _ => false
  end.

(** No such loss happens in the run. *)
Fixpoint safe (σ : sys) (now : Z) (acts : list action) : bool :=
  match acts with
  | [] => true
  | a :: acts' =>
      negb (unrecorded_put σ a) &&
      match step σ now a with Some (σ1, _) => safe σ1 (now + 1) acts' | None => true end
  end.

Definition idle (σ : sys) : Prop := Forall (λ ck, ck_doing ck = Idle) (sy_clerks σ).

End kvsys.
