(* ===== verification/KvSrvFacts.v ===== *)
(** * Exactly-once execution in kvsrv

    A ghost log of commits follows a run of clerks and server: an operation is
    committed when the server executes it (for a get of an unrecorded client,
    when it executes it and the reply arrives).  The invariant says that the
    log explains the data, that its times lie between call and return, and that
    the duplicate table tells for every pending operation whether it has been
    committed and with which result. *)

From S2P Require Import Prelude Bitset Porcupine PorcupineOps Linearizability KvModel KvSrv.

Module kvproof.

(** ** The sequential store *)
Definition spec_apply (m : gmap string string) (r : request) : gmap string string * string :=
  match r with
  | RGet k => (m, default "" (m !! k))
  | RPut k v => (<[k := v]> m, "")
  | RAppend k v => (<[k := default "" (m !! k) +:+ v]> m, default "" (m !! k))
  end.

(** ** What one call does *)

(** The server answers from the table. *)
Definition cached (kv : KVServer) (ck : Clerk) (v : string) : Prop :=
  ∃ dt, kv_clientTable kv !! ck_clientId ck = Some dt ∧ dt_seq dt = ck_seqNum ck ∧ v = dt_value dt.

Inductive call_case (kv : KVServer) (ck : Clerk) (r : request) (kv' : KVServer) (v : string) : Prop :=
  | CallCached dt :
      kv_clientTable kv !! ck_clientId ck = Some dt → dt_seq dt = ck_seqNum ck → kv' = kv →
      v = (match r with RPut _ _ => "" | _ => dt_value dt end) → call_case kv ck r kv' v
  | CallRecorded :
      (∀ dt, kv_clientTable kv !! ck_clientId ck = Some dt → dt_seq dt ≠ ck_seqNum ck) →
      spec_apply (kv_data kv) r = (kv_data kv', v) →
      kv_clientTable kv' = <[ck_clientId ck := MkDupTable (ck_seqNum ck) v]> (kv_clientTable kv) →
      call_case kv ck r kv' v
  | CallUnrecorded :
      kv_clientTable kv !! ck_clientId ck = None → (∀ k x, r ≠ RAppend k x) →
      spec_apply (kv_data kv) r = (kv_data kv', v) →
      kv_clientTable kv' = kv_clientTable kv → call_case kv ck r kv' v.

#[local] Arguments Z.eqb : simpl never.

Lemma call_spec kv ck r kv' v :
  ck_seqNum ck ≠ (-1)%Z → clerk.call kv ck r = (kv', v) → call_case kv ck r kv' v.
Proof.
  intros Hs. destruct kv as [data table].
  destruct r as [k|k x|k x]; unfold clerk.call, clerk.Get_call, clerk.PutAppend_call; simpl;
    unfold kvsrv.Get, kvsrv.Put, kvsrv.Append, kvsrv.lookup_data; simpl;
    destruct (table !! ck_clientId ck) as [dt|] eqn:E; simpl; rewrite ?E; simpl.
  - destruct (Z.eqb_spec (dt_seq dt) (ck_seqNum ck)); intros [= <- <-].
    + by eapply CallCached.
    + apply CallRecorded; simpl; [|done..]. naive_solver.
  - intros [= <- <-]. by apply CallUnrecorded.
  - destruct (Z.eqb_spec (dt_seq dt) (ck_seqNum ck)); intros [= <- <-].
    + by eapply CallCached.
    + apply CallRecorded; simpl; [|done..]. naive_solver.
  - intros [= <- <-]. by apply CallUnrecorded.
  - destruct (Z.eqb_spec (dt_seq dt) (ck_seqNum ck)); intros [= <- <-].
    + by eapply CallCached.
    + apply CallRecorded; simpl; [|done..]. naive_solver.
  - rewrite lookup_insert_eq. simpl.
    destruct (Z.eqb_spec (-1) (ck_seqNum ck)); [congruence|]. simpl. intros [= <- <-].
    apply CallRecorded; simpl; [naive_solver|done|]. by rewrite insert_insert_eq.
Qed.

(** ** The commit log *)
Record commit := MkCommit {
  cm_client : nat; cm_req : request; cm_out : string;
  cm_start : Z; cm_time : Z; cm_ret : option Z }.

Fixpoint spec_run (m : gmap string string) (cs : list commit) (m' : gmap string string) : Prop :=
  match cs with
  | [] => m = m'
  | x :: cs' => ∃ m1, spec_apply m (cm_req x) = (m1, cm_out x) ∧ spec_run m1 cs' m'
  end.

Lemma spec_run_app m cs1 cs2 m' :
  spec_run m (cs1 ++ cs2) m' ↔ ∃ m1, spec_run m cs1 m1 ∧ spec_run m1 cs2 m'.
Proof. revert m. induction cs1; intros m; simpl; [naive_solver|]. setoid_rewrite IHcs1. naive_solver. Qed.

(** The operation of a commit that has returned. *)
Definition completed (x : commit) : option (Operation kvmodel.iface) :=
  (λ t, kvsys.record (cm_client x) (cm_req x) (cm_start x) (cm_out x) t) <$> cm_ret x.

(** The commits of [c] that have not returned. *)
Definition opens (c : nat) (cs : list commit) : list commit :=
  filter (λ x, cm_client x = c ∧ cm_ret x = None) cs.

Lemma opens_app c cs1 cs2 : opens c (cs1 ++ cs2) = opens c cs1 ++ opens c cs2.
Proof. apply filter_app. Qed.

Lemma opens_other c x cs : cm_client x ≠ c → opens c (x :: cs) = opens c cs.
Proof. intros. unfold opens. rewrite filter_cons_False; [done|]. naive_solver. Qed.

Lemma opens_closed c x cs : cm_ret x ≠ None → opens c (x :: cs) = opens c cs.
Proof. intros. unfold opens. rewrite filter_cons_False; [done|]. naive_solver. Qed.

Lemma opens_here c x cs : cm_client x = c → cm_ret x = None → opens c (x :: cs) = x :: opens c cs.
Proof. intros. unfold opens. by rewrite filter_cons_True. Qed.

Definition timely (now : Z) (x : commit) : Prop :=
  (cm_start x < cm_time x < now)%Z ∧ ∀ t, cm_ret x = Some t → (cm_time x < t)%Z.

(** What a clerk's activity says about the log and the table. *)
Definition clerk_ok (kv : KVServer) (now : Z) (cs : list commit) (c : nat) (ck : Clerk) : Prop :=
  (0 ≤ ck_seqNum ck)%Z ∧
  (∀ dt, kv_clientTable kv !! ck_clientId ck = Some dt → (dt_seq dt ≤ ck_seqNum ck)%Z) ∧
  match ck_doing ck with
  | Idle => opens c cs = []
  | Trying r start =>
      (1 ≤ ck_seqNum ck)%Z ∧ (start < now)%Z ∧
      match kv_clientTable kv !! ck_clientId ck with
      | Some dt =>
          if decide (dt_seq dt = ck_seqNum ck)
          then ∃ x, opens c cs = [x] ∧ cm_req x = r ∧ cm_start x = start ∧ cm_out x = dt_value dt
          else opens c cs = []
      | None => opens c cs = []
      end
  | Replied r start v =>
      ∃ x, opens c cs = [x] ∧ cm_req x = r ∧ cm_start x = start ∧ cm_out x = v
  end.

Record inv (σ : sys) (now : Z) (cs : list commit) (hist : list (Operation kvmodel.iface)) : Prop := {
  inv_ids : NoDup (ck_clientId <$> sy_clerks σ);
  inv_spec : spec_run ∅ cs (kv_data (sy_server σ));
  inv_sorted : StronglySorted Z.lt (cm_time <$> cs);
  inv_timely : Forall (timely now) cs;
  inv_clients : Forall (λ x, cm_client x < length (sy_clerks σ)) cs;
  inv_hist : omap completed cs ≡ₚ hist;
  inv_clerks : ∀ c ck, sy_clerks σ !! c = Some ck → clerk_ok (sy_server σ) now cs c ck;
}.

Lemma timely_mono now now' x : (now ≤ now')%Z → timely now x → timely now' x.
Proof. intros ? [? ?]. split; [lia|done]. Qed.

Lemma clerk_ok_mono kv now now' cs c ck :
  (now ≤ now')%Z → clerk_ok kv now cs c ck → clerk_ok kv now' cs c ck.
Proof.
  intros ? (? & ? & Hd). split_and!; [done..|]. destruct (ck_doing ck); [done| |done].
  destruct Hd as (? & ? & ?). split_and!; [done|lia|done].
Qed.

(** Another client's entry of the table may change, and another client's
    commits. *)
Lemma clerk_ok_frame kv kv' now cs cs' c ck :
  kv_clientTable kv' !! ck_clientId ck = kv_clientTable kv !! ck_clientId ck →
  opens c cs' = opens c cs → clerk_ok kv now cs c ck → clerk_ok kv' now cs' c ck.
Proof. unfold clerk_ok. intros -> ->. done. Qed.

Lemma ids_ne (ids : list Clerk) c1 c2 ck1 ck2 :
  NoDup (ck_clientId <$> ids) → ids !! c1 = Some ck1 → ids !! c2 = Some ck2 → c1 ≠ c2 →
  ck_clientId ck1 ≠ ck_clientId ck2.
Proof.
  intros Hnd H1 H2 Hne Heq. apply Hne. eapply NoDup_lookup; [exact Hnd|..];
    rewrite list_lookup_fmap; [by rewrite H1|]. rewrite H2. simpl. congruence.
Qed.

Lemma ids_insert (cks : list Clerk) c ck ck' :
  cks !! c = Some ck → ck_clientId ck' = ck_clientId ck →
  ck_clientId <$> <[c := ck']> cks = ck_clientId <$> cks.
Proof.
  intros Hc Hid. rewrite list_fmap_insert. apply list_insert_id.
  rewrite list_lookup_fmap, Hc. simpl. congruence.
Qed.

(** ** Steps *)

(** Clerk [c] and its table entry change, and its commits. *)
Lemma inv_update σ now cs hist c ck ck' kv' cs' hist' :
  inv σ now cs hist → sy_clerks σ !! c = Some ck → ck_clientId ck' = ck_clientId ck →
  spec_run ∅ cs' (kv_data kv') → StronglySorted Z.lt (cm_time <$> cs') →
  Forall (timely (now + 1)) cs' → Forall (λ x, cm_client x < length (sy_clerks σ)) cs' →
  omap completed cs' ≡ₚ hist' →
  (∀ id, id ≠ ck_clientId ck → kv_clientTable kv' !! id = kv_clientTable (sy_server σ) !! id) →
  (∀ c', c' ≠ c → opens c' cs' = opens c' cs) → clerk_ok kv' (now + 1) cs' c ck' →
  inv (MkSys kv' (<[c := ck']> (sy_clerks σ))) (now + 1) cs' hist'.
Proof.
  intros Hinv Hc Hid Hspec Hsort Htime Hcl Hhist Htab Hop Hck. split; simpl; [|done..| |done|].
  - rewrite (ids_insert _ _ _ _ Hc Hid). apply (inv_ids _ _ _ _ Hinv).
  - by rewrite length_insert.
  - intros c1 ck1 H1. destruct (decide (c1 = c)) as [->|Hne].
    + rewrite list_lookup_insert_eq in H1 by (by eapply lookup_lt_Some). by simplify_eq.
    + rewrite list_lookup_insert_ne in H1 by done.
      eapply clerk_ok_frame; [|by apply Hop|].
      * apply Htab. eapply ids_ne; [apply (inv_ids _ _ _ _ Hinv)|exact H1|exact Hc|done].
      * eapply clerk_ok_mono; [|by apply (inv_clerks _ _ _ _ Hinv)]. lia.
Qed.

(** Nothing is committed. *)
Lemma inv_quiet σ now cs hist c ck ck' kv' :
  inv σ now cs hist → sy_clerks σ !! c = Some ck → ck_clientId ck' = ck_clientId ck →
  kv_data kv' = kv_data (sy_server σ) →
  (∀ id, id ≠ ck_clientId ck → kv_clientTable kv' !! id = kv_clientTable (sy_server σ) !! id) →
  clerk_ok kv' (now + 1) cs c ck' →
  inv (MkSys kv' (<[c := ck']> (sy_clerks σ))) (now + 1) cs hist.
Proof.
  intros Hinv Hc Hid Hd Htab Hck. pose proof Hinv as []. eapply inv_update; try done.
  - by rewrite Hd.
  - eapply Forall_impl; [exact inv_timely0|]. intros x. apply timely_mono. lia.
Qed.

(** The operation of [c] is committed now. *)
Lemma inv_commit σ now cs hist c ck ck' kv' r start v :
  inv σ now cs hist → sy_clerks σ !! c = Some ck → ck_clientId ck' = ck_clientId ck →
  (start < now)%Z → spec_apply (kv_data (sy_server σ)) r = (kv_data kv', v) →
  (∀ id, id ≠ ck_clientId ck → kv_clientTable kv' !! id = kv_clientTable (sy_server σ) !! id) →
  clerk_ok kv' (now + 1) (cs ++ [MkCommit c r v start now None]) c ck' →
  inv (MkSys kv' (<[c := ck']> (sy_clerks σ))) (now + 1) (cs ++ [MkCommit c r v start now None]) hist.
Proof.
  intros Hinv Hc Hid Hs Hspec Htab Hck. pose proof Hinv as []. eapply inv_update; try done.
  - apply spec_run_app. eexists. split; [done|]. simpl. eauto.
  - rewrite fmap_app. apply StronglySorted_app_2; [|done|by repeat constructor].
    intros t t' (x & -> & Hx)%list_elem_of_fmap ->%list_elem_of_singleton. simpl.
    rewrite Forall_forall in inv_timely0. destruct (inv_timely0 x Hx) as [? _]. lia.
  - apply Forall_app. split; [|apply Forall_singleton; split; simpl; [lia|done]].
    eapply Forall_impl; [exact inv_timely0|]. intros x. apply timely_mono. lia.
  - apply Forall_app. split; [done|]. apply Forall_singleton. simpl. by eapply lookup_lt_Some.
  - rewrite omap_app. simpl. by rewrite app_nil_r.
  - intros c' Hne. rewrite opens_app. rewrite opens_other by done. apply app_nil_r.
Qed.

Lemma opens_snoc c cs r v start now : opens c cs = [] →
  opens c (cs ++ [MkCommit c r v start now None]) = [MkCommit c r v start now None].
Proof. intros Ho. rewrite opens_app, Ho. by rewrite opens_here. Qed.

Lemma spec_run_put m cs m' x k y : spec_run m cs m' → x ∈ cs → cm_req x = RPut k y → cm_out x = "".
Proof.
  revert m. induction cs as [|z cs IH]; intros m; [by intros _ ?%not_elem_of_nil|].
  intros (m1 & Hz & Hrun) [->|Hin]%elem_of_cons Hr; [|by eapply IH].
  rewrite Hr in Hz. by injection Hz.
Qed.

Lemma opens_in c cs x : opens c cs = [x] → x ∈ cs.
Proof.
  intros Ho. assert (x ∈ opens c cs) as [_ ?]%list_elem_of_filter by (rewrite Ho; left). done.
Qed.

Lemma inv_exec σ now cs hist c ck r start ok kv' v :
  inv σ now cs hist → sy_clerks σ !! c = Some ck → ck_doing ck = Trying r start →
  kvsys.unrecorded_put σ (Exec c ok) = false →
  clerk.call (sy_server σ) ck r = (kv', v) →
  ∃ cs', inv (MkSys kv' (<[c := if ok then kvsys.with_doing ck (Replied r start v) else ck]>
                           (sy_clerks σ))) (now + 1) cs' hist.
Proof.
  intros Hinv Hc Hdo Hsafe Ecall.
  pose proof (inv_clerks _ _ _ _ Hinv c ck Hc) as (Hseq & Htab & Hck). rewrite Hdo in Hck.
  destruct Hck as (Hpos & Hstart & Hck).
  assert (ck_seqNum ck ≠ (-1)%Z) as Hne by lia.
  destruct (call_spec _ _ _ _ _ Hne Ecall)
    as [dt Hdt Hdts -> Hv|Hnew Hspec Ht|Hnone Hnapp Hspec Ht].
  - (* answered from the table *)
    rewrite Hdt, decide_True in Hck by done. destruct Hck as (x & Ho & Hr & Hst & Hout).
    assert (v = cm_out x) as Hvx.
    { rewrite Hv. destruct r; [done| |done]. symmetry.
      eapply spec_run_put; [apply (inv_spec _ _ _ _ Hinv)|by eapply opens_in|done]. }
    exists cs. apply (inv_quiet _ _ _ _ _ ck); [done..|by destruct ok|done|done|].
    destruct ok; split_and!; try done.
    + exists x. by rewrite Hvx.
    + rewrite Hdo. split_and!; [done|lia|]. rewrite Hdt, decide_True by done. by exists x.
  - (* executed and recorded *)
    assert (opens c cs = []) as Ho.
    { destruct (kv_clientTable _ !! _) as [dt|]; [|done].
      rewrite decide_False in Hck by (by apply Hnew). done. }
    exists (cs ++ [MkCommit c r v start now None]).
    apply (inv_commit _ _ _ _ _ ck); [done..|by destruct ok|done|done| |].
    + intros id Hid. rewrite Ht. by rewrite lookup_insert_ne.
    + destruct ok; split_and!; simpl; try done.
      * rewrite Ht, lookup_insert_eq. intros ? [= <-]. simpl. lia.
      * eexists. split; [by apply opens_snoc|done].
      * rewrite Ht, lookup_insert_eq. intros ? [= <-]. simpl. lia.
      * rewrite Hdo. split_and!; [done|lia|]. rewrite Ht, lookup_insert_eq. simpl.
        rewrite decide_True by done. eexists. split; [by apply opens_snoc|done].
  - (* executed by a client that is not recorded *)
    rewrite Hnone in Hck. destruct ok.
    + exists (cs ++ [MkCommit c r v start now None]).
      apply (inv_commit _ _ _ _ _ ck); [done..| |].
      * intros id _. by rewrite Ht.
      * split_and!; simpl; [done|by rewrite Ht|]. eexists. split; [by apply opens_snoc|done].
    + assert (kv_data kv' = kv_data (sy_server σ)) as Hd.
      { unfold kvsys.unrecorded_put in Hsafe. rewrite Hc in Hsafe. destruct ck as [id seq d].
        simpl in *. subst d. destruct r as [k|k x|k x]; [by injection Hspec|by rewrite Hnone in Hsafe|].
        by destruct (Hnapp k x). }
      exists cs. apply (inv_quiet _ _ _ _ _ ck); [done..| |].
      * intros id _. by rewrite Ht.
      * split_and!; [done|by rewrite Ht|]. rewrite Hdo, Ht, Hnone. split_and!; [done|lia|done].
Qed.

Lemma inv_begin σ now cs hist c ck r :
  inv σ now cs hist → sy_clerks σ !! c = Some ck → ck_doing ck = Idle →
  inv (kvsys.set_clerk σ c (clerk.begin ck r now)) (now + 1) cs hist.
Proof.
  intros Hinv Hc Hdo. pose proof (inv_clerks _ _ _ _ Hinv c ck Hc) as (Hseq & Htab & Hck).
  rewrite Hdo in Hck. apply (inv_quiet _ _ _ _ _ ck); try done. split_and!; simpl; [lia| |].
  - intros dt Hdt. apply Htab in Hdt. lia.
  - split_and!; [lia|lia|]. destruct (kv_clientTable _ !! _) as [dt|] eqn:E; [|done].
    rewrite decide_False; [done|]. specialize (Htab dt eq_refl). lia.
Qed.

(** The commit of the operation that returns gets its return time. *)
Lemma close_commit c cs x now :
  opens c cs = [x] → ∃ k1 k2, cs = k1 ++ x :: k2 ∧ cm_client x = c ∧ cm_ret x = None ∧
    let x' := MkCommit c (cm_req x) (cm_out x) (cm_start x) (cm_time x) (Some now) in
    opens c (k1 ++ x' :: k2) = [] ∧ ∀ c', c' ≠ c → opens c' (k1 ++ x' :: k2) = opens c' cs.
Proof.
  intros Ho. unfold opens in Ho. change [x] with ([] ++ x :: []) in Ho.
  apply lin.filter_split in Ho as ([Hx Hr] & k1 & k2 & -> & H1 & H2).
  exists k1, k2. cbv zeta. split_and!; [done..| |].
  - rewrite opens_app, opens_closed by done. unfold opens. by rewrite <- H1, <- H2.
  - intros c' Hne. rewrite !opens_app. rewrite opens_closed by done. rewrite opens_other; [done|].
    congruence.
Qed.

Lemma inv_finish σ now cs hist c ck r start v :
  inv σ now cs hist → sy_clerks σ !! c = Some ck → ck_doing ck = Replied r start v →
  ∃ cs', inv (kvsys.set_clerk σ c (kvsys.with_doing ck Idle)) (now + 1) cs'
           (hist ++ [kvsys.record c r start v now]).
Proof.
  intros Hinv Hc Hdo. pose proof (inv_clerks _ _ _ _ Hinv c ck Hc) as (Hseq & Htab & Hck).
  rewrite Hdo in Hck. destruct Hck as (x & Ho & <- & <- & <-).
  destruct (close_commit c cs x now Ho) as (k1 & k2 & -> & Hx & Hret & Ho' & Hother).
  pose proof Hinv as [_ Hspec Hsort Htime Hcl Hhist _].
  exists (k1 ++ MkCommit c (cm_req x) (cm_out x) (cm_start x) (cm_time x) (Some now) :: k2).
  apply (inv_update _ now (k1 ++ x :: k2) hist _ ck); try done.
  - rewrite spec_run_app in Hspec |- *. done.
  - rewrite fmap_app, fmap_cons in Hsort |- *. done.
  - apply Forall_app in Htime as [Ht1 Ht2]. apply Forall_cons in Ht2 as [Ht Ht2].
    rewrite Forall_app, Forall_cons. split_and!.
    + eapply Forall_impl; [exact Ht1|]. intros y. apply timely_mono. lia.
    + destruct Ht as [Ht _]. split; simpl; [lia|]. intros ? [= <-]. lia.
    + eapply Forall_impl; [exact Ht2|]. intros y. apply timely_mono. lia.
  - rewrite Forall_app, Forall_cons in *. simpl. by rewrite <- Hx at 1.
  - rewrite <- Hhist, !omap_app. simpl. unfold completed at 4. rewrite Hret. simpl.
    rewrite <- app_assoc. apply Permutation_app_head. apply Permutation_cons_append.
Qed.

Lemma inv_step σ now cs hist a σ' o :
  inv σ now cs hist → kvsys.unrecorded_put σ a = false → kvsys.step σ now a = Some (σ', o) →
  ∃ cs', inv σ' (now + 1) cs' (hist ++ match o with Some op => [op] | None => [] end).
Proof.
  intros Hinv Hsafe Hstep. destruct a as [c r|c|c ok|c]; simpl in Hstep;
    destruct (sy_clerks σ !! c) as [ck|] eqn:Hc; simplify_eq/=;
    destruct (ck_doing ck) eqn:Hdo; simplify_eq/=; rewrite ?app_nil_r.
  - exists cs. by apply inv_begin.
  - exists cs. destruct Hinv. split; try done.
    + eapply Forall_impl; [exact inv_timely0|]. intros x. apply timely_mono. lia.
    + intros c' ck' Hc'. eapply clerk_ok_mono; [|by apply inv_clerks0]. lia.
  - destruct (clerk.call _ _ _) as [kv' v] eqn:Ecall. simplify_eq/=. rewrite app_nil_r.
    by eapply inv_exec.
  - by eapply inv_finish.
Qed.

Lemma inv_run σ now cs hist acts σ' ops :
  inv σ now cs hist → kvsys.safe σ now acts = true → kvsys.run σ now acts = Some (σ', ops) →
  ∃ now' cs', inv σ' now' cs' (hist ++ ops).
Proof.
  revert σ now cs hist ops. induction acts as [|a acts IH]; intros σ now cs hist ops Hinv Hsafe Hrun.
  - simplify_eq/=. rewrite app_nil_r. eauto.
  - simpl in Hsafe, Hrun. destruct (kvsys.step σ now a) as [[σ1 o]|] eqn:Hs; [|done]. simpl in Hrun.
    destruct (kvsys.run σ1 (now + 1) acts) as [[σ2 ops']|] eqn:Hr; simplify_eq/=. z_bool.
    destruct (inv_step _ _ _ _ _ _ _ Hinv ltac:(done) Hs) as (cs1 & Hinv1).
    destruct (IH _ _ _ _ _ Hinv1 ltac:(done) Hr) as (now' & cs' & Hinv').
    exists now', cs'. rewrite <- app_assoc in Hinv'. by destruct o.
Qed.

Lemma inv_init ids : NoDup ids → inv (kvsys.init ids) 0 [] [].
Proof.
  intros Hnd. split; simpl; try done.
  - assert (ck_clientId <$> (clerk.MakeClerk <$> ids) = ids) as ->; [|done].
    clear. induction ids as [|x ids IH]; [done|]. rewrite !fmap_cons, IH. done.
  - constructor.
  - intros c ck Hc. rewrite list_lookup_fmap in Hc.
    destruct (ids !! c); simplify_eq/=. split_and!; [done| |done]. intros dt Hdt.
    simpl in Hdt. by rewrite lookup_empty in Hdt.
Qed.

(** ** The history is linearizable *)

(** All operations have returned. *)
Lemma inv_idle σ now cs hist : inv σ now cs hist → kvsys.idle σ → Forall (λ x, cm_ret x ≠ None) cs.
Proof.
  intros Hinv Hidle. apply Forall_forall. intros x Hx Hret.
  pose proof (inv_clients _ _ _ _ Hinv) as Hcl. rewrite Forall_forall in Hcl.
  apply Hcl in Hx as Hlt. apply lookup_lt_is_Some in Hlt as [ck Hck].
  destruct (inv_clerks _ _ _ _ Hinv _ _ Hck) as (_ & _ & Hdo).
  unfold kvsys.idle in Hidle. rewrite Forall_lookup in Hidle. rewrite (Hidle _ _ Hck) in Hdo.
  assert (x ∈ opens (cm_client x) cs) as Hin by (by apply list_elem_of_filter).
  rewrite Hdo in Hin. by apply not_elem_of_nil in Hin.
Qed.

Lemma real_time_cons {V} (op : Operation V) τ :
  (∀ b, b ∈ τ → ¬ (Return b < Call op)%Z) → real_time τ → real_time (op :: τ).
Proof.
  intros Hop Hτ [|i] [|j] a b Hij Ha Hb; simplify_eq/=; [lia| |lia|].
  - apply Hop. by eapply list_elem_of_lookup_2.
  - apply (Hτ i j); [lia|done..].
Qed.

Lemma real_time_filter {V} (P : Operation V → Prop) `{∀ x, Decision (P x)} τ :
  real_time τ → real_time (filter P τ).
Proof.
  induction τ as [|op τ IH]; [done|]. intros Hr.
  assert (real_time τ) as Hτ.
  { intros i j a b Hij Ha Hb. apply (Hr (S i) (S j)); [lia|done..]. }
  rewrite filter_cons. case_decide; [|by apply IH]. apply real_time_cons; [|by apply IH].
  intros b [_ [j Hj]%list_elem_of_lookup]%list_elem_of_filter. apply (Hr 0 (S j)); [lia|done..].
Qed.

Lemma record_times c r start v t :
  Call (kvsys.record c r start v t) = start ∧ Return (kvsys.record c r start v t) = t.
Proof. by destruct r. Qed.

Lemma commits_real_time now cs : StronglySorted Z.lt (cm_time <$> cs) → Forall (timely now) cs →
  real_time (omap completed cs).
Proof.
  induction cs as [|x cs IH]; intros Hs Ht; [by intros i j a b _ Ha|].
  rewrite fmap_cons in Hs. apply StronglySorted_inv in Hs as [Hs Hall].
  apply Forall_cons in Ht as [[Hx _] Ht]. simpl. unfold completed at 1.
  destruct (cm_ret x) as [t|]; simpl; [|by apply IH]. apply real_time_cons; [|by apply IH].
  intros b (y & Hy & Hb)%list_elem_of_omap. unfold completed in Hb.
  destruct (cm_ret y) as [ty|] eqn:Ey; simplify_eq/=.
  destruct (record_times (cm_client y) (cm_req y) (cm_start y) (cm_out y) ty) as [_ ->].
  destruct (record_times (cm_client x) (cm_req x) (cm_start x) (cm_out x) t) as [-> _].
  rewrite Forall_forall in Hall. rewrite Forall_forall in Ht.
  destruct (Ht y Hy) as [_ Hret]. specialize (Hret _ Ey).
  specialize (Hall (cm_time y) (list_elem_of_fmap_2 _ _ _ Hy)). lia.
Qed.

Definition req_key (r : request) : string :=
  match r with RGet k | RPut k _ | RAppend k _ => k end.

Lemma record_key c r start v t : kvmodel.op_key (kvsys.record c r start v t) = Some (req_key r).
Proof. by destruct r. Qed.

Lemma record_typed c r start v t : kvmodel.typed (kvsys.record c r start v t).
Proof. split; destruct r; eexists; done. Qed.

(** One operation on the store is one step of the model of its key, and no step
    of the others. *)
Lemma spec_step m r m' v c start t : spec_apply m r = (m', v) →
  let op := kvsys.record c r start v t in
  Step kvmodel.KvModel (default "" (m !! req_key r)) (Input op) (Output op)
    = Done (true, default "" (m' !! req_key r)) ∧
  ∀ k, k ≠ req_key r → m' !! k = m !! k.
Proof.
  intros Hs. destruct r as [k|k x|k x]; simpl in *; simplify_eq; unfold kvmodel.KvStep; simpl.
  - by rewrite bool_decide_eq_true_2.
  - rewrite lookup_insert_eq. split; [done|]. intros k' ?. by rewrite lookup_insert_ne.
  - rewrite bool_decide_eq_true_2, lookup_insert_eq by done. split; [done|].
    intros k' ?. by rewrite lookup_insert_ne.
Qed.

Lemma spec_legal k m cs m' : spec_run m cs m' → Forall (λ x, cm_ret x ≠ None) cs →
  legal_ops kvmodel.KvModel (default "" (m !! k)) (kvmodel.of_key k (omap completed cs)).
Proof.
  revert m. induction cs as [|x cs IH]; intros m Hrun Hret; [done|].
  destruct Hrun as (m1 & Hx & Hrun). apply Forall_cons in Hret as [Hr Hret]. simpl.
  unfold completed at 1. destruct (cm_ret x) as [t|]; [|done]. simpl.
  destruct (spec_step m (cm_req x) m1 (cm_out x) (cm_client x) (cm_start x) t Hx) as [Hst Hoth].
  unfold kvmodel.of_key. rewrite filter_cons, record_key. case_decide as Hk.
  - simplify_eq. simpl. eexists. split; [exact Hst|]. by apply IH.
  - rewrite <- Hoth by congruence. by apply IH.
Qed.

Lemma inv_linearizable σ now cs hist k : inv σ now cs hist → kvsys.idle σ →
  op_linearizable kvmodel.KvModel (kvmodel.of_key k hist).
Proof.
  intros Hinv Hidle. pose proof (inv_idle _ _ _ _ Hinv Hidle) as Hret.
  exists (kvmodel.of_key k (omap completed cs)). split_and!.
  - unfold kvmodel.of_key. by rewrite (inv_hist _ _ _ _ Hinv).
  - pose proof (spec_legal k _ _ _ (inv_spec _ _ _ _ Hinv) Hret) as Hl.
    by rewrite lookup_empty in Hl.
  - eapply real_time_filter, commits_real_time; [apply (inv_sorted _ _ _ _ Hinv)|].
    apply (inv_timely _ _ _ _ Hinv).
Qed.

(** The store explains the whole history at once: the operations in the order
    of their commits give the data of the server. *)
Lemma inv_typed σ now cs hist : inv σ now cs hist → Forall kvmodel.typed hist ∧ timed hist.
Proof.
  intros Hinv. assert (∀ op, op ∈ hist → kvmodel.typed op ∧ (Call op ≤ Return op)%Z) as Hop.
  { intros op. rewrite <- (inv_hist _ _ _ _ Hinv). intros (x & Hx & Hc)%list_elem_of_omap.
    unfold completed in Hc. destruct (cm_ret x) as [t|] eqn:E; simplify_eq/=.
    split; [apply record_typed|].
    destruct (record_times (cm_client x) (cm_req x) (cm_start x) (cm_out x) t) as [-> ->].
    pose proof (inv_timely _ _ _ _ Hinv) as Ht. rewrite Forall_forall in Ht.
    destruct (Ht x Hx) as [? Hr]. specialize (Hr t E). lia. }
  split; [|unfold timed]; apply Forall_forall; intros op Hin; by apply Hop.
Qed.

End kvproof.
