(* ===== verification/KvSrvTheorems.v ===== *)
(** * Theorems about kvsrv

    Linearizability of the clerks' histories, exactly-once execution, the
    idempotence of retried requests, and the run that shows where the
    duplicate table is not enough. *)

From S2P Require Import Prelude Bitset Porcupine PorcupineOps Linearizability PorcupineSearch.
From S2P Require Import KvModel PorcupineTheorems KvSrv KvSrvFacts.

Import pops pdriver kvproof.

Definition session (ids : list Z) (acts : list action) (ops : list (Operation kvmodel.iface)) : Prop :=
  ∃ σ, kvsys.run (kvsys.init ids) 0 acts = Some (σ, ops) ∧ kvsys.idle σ.

Lemma session_inv ids acts ops : NoDup ids → kvsys.safe (kvsys.init ids) 0 acts = true →
  session ids acts ops → ∃ σ now cs, inv σ now cs ops ∧ kvsys.idle σ ∧
    kvsys.run (kvsys.init ids) 0 acts = Some (σ, ops).
Proof.
  intros Hnd Hsafe (σ & Hrun & Hidle).
  destruct (inv_run _ _ _ _ _ _ _ (inv_init ids Hnd) Hsafe Hrun) as (now & cs & Hinv). eauto 10.
Qed.

(** In every session of any number of concurrent clerks with distinct
    client ids, over a network that loses requests and replies (but no reply to
    a put of a client without a table entry), the history of the operations is
    linearizable, key by key. *)
Theorem kvsrv_linearizable ids acts ops k :
  NoDup ids → kvsys.safe (kvsys.init ids) 0 acts = true → session ids acts ops →
  op_linearizable kvmodel.KvModel (kvmodel.of_key k ops).
Proof.
  intros Hnd Hsafe Hs. destruct (session_inv _ _ _ Hnd Hsafe Hs) as (σ & now & cs & Hinv & Hidle & _).
  by eapply inv_linearizable.
Qed.

(** The checker accepts the history of every such session that completed an
    operation, under every schedule of the checker's goroutines. *)
Theorem kvsrv_passes_checker `{Sorter kvmodel.iface} ids acts ops :
  NoDup ids → kvsys.safe (kvsys.init ids) 0 acts = true → session ids acts ops → ops ≠ [] →
  ∃ N m, ∀ fuel, N ≤ fuel → ∀ js kills, js ≡ₚ seq 0 m →
    porcupine.CheckOperations kvmodel.KvModel ops
      (checker.MkChoice fuel (checker.Sent <$> js) kills) = Some (Done true).
Proof.
  intros Hnd Hsafe Hs Hne.
  destruct (session_inv _ _ _ Hnd Hsafe Hs) as (σ & now & cs & Hinv & Hidle & _).
  destruct (inv_typed _ _ _ _ Hinv) as [Hty Hti].
  destruct (kv_check_answer ops Hty Hti Hne) as (N & m & HN). exists N, m.
  intros fuel Hf js kills Hjs. destruct (HN fuel Hf js kills Hjs) as (b & -> & Hb).
  do 2 f_equal. apply Hb. intros k. by eapply inv_linearizable.
Qed.

(** Every completed operation takes effect exactly once: the data of the
    server is the result of executing the completed operations, each once, in
    some order that explains all their results. *)
Theorem kvsrv_exactly_once ids acts σ ops :
  NoDup ids → kvsys.safe (kvsys.init ids) 0 acts = true →
  kvsys.run (kvsys.init ids) 0 acts = Some (σ, ops) → kvsys.idle σ →
  ∃ cs, spec_run ∅ cs (kv_data (sy_server σ)) ∧ omap completed cs ≡ₚ ops ∧ length cs = length ops.
Proof.
  intros Hnd Hsafe Hrun Hidle.
  destruct (inv_run _ _ _ _ _ _ _ (inv_init ids Hnd) Hsafe Hrun) as (now & cs & Hinv).
  exists cs. split_and!; [apply (inv_spec _ _ _ _ Hinv)|apply (inv_hist _ _ _ _ Hinv)|].
  simpl in Hinv. rewrite <- (inv_hist _ _ _ _ Hinv).
  pose proof (inv_idle _ _ _ _ Hinv Hidle) as Hret. clear -Hret.
  induction Hret as [|x cs Hx Hret IH]; [done|]. simpl. unfold completed at 1.
  destruct (cm_ret x); [|done]. simpl. by rewrite IH.
Qed.

(** A retried request of a client with a table entry, or a retried append of
    any client, leaves the server as the first execution left it and gets the
    same reply. *)
Theorem retry_idempotent kv ck r kv' v :
  is_Some (kv_clientTable kv !! ck_clientId ck) ∨ (∃ k x, r = RAppend k x) →
  ck_seqNum ck ≠ (-1)%Z →
  clerk.call kv ck r = (kv', v) → clerk.call kv' ck r = (kv', v).
Proof.
  intros Hreg Hseq Hcall.
  assert (∃ dt, kv_clientTable kv' !! ck_clientId ck = Some dt ∧ dt_seq dt = ck_seqNum ck ∧
    v = match r with RPut _ _ => "" | _ => dt_value dt end) as (dt & Hdt & Hs & Hv).
  { destruct (call_spec _ _ _ _ _ Hseq Hcall) as [dt Hdt Hs -> Hv|Hnew Hspec Ht|Hnone Hnapp _ _].
    - eauto.
    - eexists. rewrite Ht, lookup_insert_eq. split_and!; [done|done|].
      destruct r; [done| |done]. by injection Hspec.
    - destruct Hreg as [[dt Hdt]|(k & x & ->)]; [congruence|]. by destruct (Hnapp k x). }
  destruct (clerk.call kv' ck r) as [kv'' v''] eqn:Hcall'.
  destruct (call_spec _ _ _ _ _ Hseq Hcall') as [dt' Hdt' Hs' -> Hv''|Hnew _ _|Hnone _ _ _].
  - f_equal. by simplify_eq.
  - by destruct (Hnew dt).
  - congruence.
Qed.

(** The clients 1 and 2 share key "k": the reply to client 1's put of "a" is
    lost, client 2 reads "a", puts "b" and reads "b", then client 1's retry
    executes the put again and client 2 reads "a". *)
Definition lost_put : list action :=
  [Invoke 0 (RPut "k" "a"); Exec 0 false;
   Invoke 1 (RGet "k"); Exec 1 true; Finish 1;
   Invoke 1 (RPut "k" "b"); Exec 1 true; Finish 1;
   Exec 0 true; Finish 0;
   Invoke 1 (RGet "k"); Exec 1 true; Finish 1].

Definition lost_put_ops : list (Operation kvmodel.iface) :=
  match kvsys.run (kvsys.init [1%Z; 2%Z]) 0 lost_put with Some (_, ops) => ops | None => [] end.

(** Without the table entry a put is executed twice: there is a session of
    two clerks in which a lost reply makes the history not linearizable. *)
Theorem lost_put_not_linearizable :
  session [1%Z; 2%Z] lost_put lost_put_ops ∧
  ¬ op_linearizable kvmodel.KvModel (kvmodel.of_key "k" lost_put_ops).
Proof.
  split.
  - eexists. split; [vm_compute; reflexivity|]. vm_compute. by repeat constructor.
  - rewrite <- fillDefault_linearizable.
    eapply (checkSingle_refutes (checker.fillDefault kvmodel.KvModel) _ false 50).
    + apply fillDefault_equal. by left.
    + assert (Forall (λ op, kvmodel.typed op ∧ (Call op ≤ Return op)%Z)
        (kvmodel.of_key "k" lost_put_ops)) as Hall.
      { vm_compute. repeat constructor; by eexists || done. }
      rewrite Forall_forall in Hall. split.
      * apply Forall_forall. intros op Hop. by apply Hall.
      * intros s op Hop. apply kvmodel.KvStep_returns. by apply Hall.
    + vm_compute. reflexivity.
Qed.

(** ** Witnesses *)

(** Two clerks with lost requests and replies; client 1 appends first. *)
Definition lossy : list action :=
  [Invoke 0 (RAppend "k" "a"); Lose 0; Exec 0 false; Invoke 1 (RGet "k"); Exec 1 false;
   Exec 0 false; Exec 1 true; Finish 1; Exec 0 true; Finish 0;
   Invoke 0 (RPut "k" "b"); Exec 0 false; Exec 0 true; Finish 0].

Definition lossy_ops : list (Operation kvmodel.iface) :=
  match kvsys.run (kvsys.init [7%Z; 9%Z]) 0 lossy with Some (_, ops) => ops | None => [] end.

Lemma lossy_ids : NoDup [7%Z; 9%Z].
Proof. by repeat (apply NoDup_cons; split); [set_solver..|constructor]. Qed.

Lemma lossy_session : session [7%Z; 9%Z] lossy lossy_ops.
Proof. eexists. split; [vm_compute; reflexivity|]. vm_compute. by repeat constructor. Qed.

Lemma kvsrv_linearizable_witness :
  length lossy_ops = 3 ∧ op_linearizable kvmodel.KvModel (kvmodel.of_key "k" lossy_ops).
Proof.
  split; [vm_compute; reflexivity|].
  apply (kvsrv_linearizable [7%Z; 9%Z] lossy).
  - apply lossy_ids.
  - vm_compute. reflexivity.
  - apply lossy_session.
Defined.

Lemma kvsrv_passes_checker_witness : ∃ N m, ∀ fuel, N ≤ fuel → ∀ js kills, js ≡ₚ seq 0 m →
  porcupine.CheckOperations kvmodel.KvModel lossy_ops
    (checker.MkChoice fuel (checker.Sent <$> js) kills) = Some (Done true).
Proof.
  apply (kvsrv_passes_checker [7%Z; 9%Z] lossy).
  - apply lossy_ids.
  - vm_compute. reflexivity.
  - apply lossy_session.
  - vm_compute. discriminate.
Defined.

Lemma kvsrv_exactly_once_witness : ∃ σ cs,
  kvsys.run (kvsys.init [7%Z; 9%Z]) 0 lossy = Some (σ, lossy_ops) ∧
  spec_run ∅ cs (kv_data (sy_server σ)) ∧ length cs = length lossy_ops.
Proof.
  destruct lossy_session as (σ & Hrun & Hidle).
  destruct (kvsrv_exactly_once [7%Z; 9%Z] lossy σ lossy_ops) as (cs & ? & _ & ?).
  - apply lossy_ids.
  - vm_compute. reflexivity.
  - exact Hrun.
  - exact Hidle.
  - exists σ, cs. split; [exact Hrun|split; assumption].
Defined.

Lemma retry_idempotent_witness : ∃ kv v,
  clerk.call kvsrv.StartKVServer (MkClerk 7 1 Idle) (RAppend "k" "a") = (kv, v) ∧
  clerk.call kv (MkClerk 7 1 Idle) (RAppend "k" "a") = (kv, v).
Proof.
  eexists _, _. split; [vm_compute; reflexivity|].
  apply (retry_idempotent kvsrv.StartKVServer).
  - right. by eexists _, _.
  - done.
  - vm_compute. reflexivity.
Defined.
