(* ===== verification/Mr.v ===== *)
(** * mr: the MapReduce coordinator and worker

    coordinator.go, worker.go and rpc.go.  The RPC handlers run under the
    coordinator's mutex; the [waitTask] goroutines they start are timers of the
    machine in MrFacts.v.  Files are a map from names to contents; the content
    of an intermediate file is the list of key/value pairs the JSON decoder
    reads from what the encoder wrote ([json_kv]: strings come back as UTF-8). *)

From Stdlib Require Import Ascii.
From S2P Require Import Prelude GoStrings Json.

(** ** rpc.go and the types of coordinator.go *)
Inductive TaskStatus := TIdle | InProgress | Completed.
Inductive TaskType := MapTask | ReduceTask | ExitTask | NoTask.
Inductive Phase := MapPhase | ReducePhase | ExistPhase.

#[global] Instance TaskStatus_eq_dec : EqDecision TaskStatus.
Proof. solve_decision. Defined.
#[global] Instance TaskType_eq_dec : EqDecision TaskType.
Proof. solve_decision. Defined.
#[global] Instance Phase_eq_dec : EqDecision Phase.
Proof. solve_decision. Defined.

Record WorkerInfo := MkWorkerInfo { wi_ID : Z; wi_LastHeard : Z }.

Record Task := MkTask {
  t_Type : TaskType; t_Status : TaskStatus; t_WorkerID : Z; t_File : string; t_TaskID : Z }.

Record TaskRequest := MkTaskRequest { rq_WorkerID : Z }.

Record TaskResponse := MkTaskResponse {
  rs_TaskType : TaskType; rs_TaskID : Z; rs_MapFile : string;
  rs_ReduceFiles : list string; rs_NReduce : Z }.

Record TaskCompletion := MkTaskCompletion {
  cp_WorkerID : Z; cp_TaskType : TaskType; cp_TaskID : Z; cp_OutputFiles : list string }.

Record Coordinator := MkCoordinator {
  c_mapTasks : list Task;
  c_reduceTasks : list Task;
  c_nReduce : Z;
  c_nMap : Z;
  c_workers : gmap Z WorkerInfo;
  c_nextWorkerID : Z;
  c_intermediateFiles : list (list string);
  c_mapTasksCompleted : Z;
  c_reduceTasksCompleted : Z;
  c_status : Phase;
}.

Module mr.
Import gostrings.

(** [coordinatorSock], with [os.Getuid()] as an argument. *)
Definition coordinatorSock (uid : Z) : string := "/var/tmp/5840-mr-" +:+ Itoa uid.

(** *** Field updates *)
Definition with_workers (c : Coordinator) w :=
  MkCoordinator (c_mapTasks c) (c_reduceTasks c) (c_nReduce c) (c_nMap c) w (c_nextWorkerID c)
    (c_intermediateFiles c) (c_mapTasksCompleted c) (c_reduceTasksCompleted c) (c_status c).
Definition with_status (c : Coordinator) s :=
  MkCoordinator (c_mapTasks c) (c_reduceTasks c) (c_nReduce c) (c_nMap c) (c_workers c)
    (c_nextWorkerID c) (c_intermediateFiles c) (c_mapTasksCompleted c)
    (c_reduceTasksCompleted c) s.
Definition with_mapTasks (c : Coordinator) ts :=
  MkCoordinator ts (c_reduceTasks c) (c_nReduce c) (c_nMap c) (c_workers c) (c_nextWorkerID c)
    (c_intermediateFiles c) (c_mapTasksCompleted c) (c_reduceTasksCompleted c) (c_status c).
Definition with_reduceTasks (c : Coordinator) ts :=
  MkCoordinator (c_mapTasks c) ts (c_nReduce c) (c_nMap c) (c_workers c) (c_nextWorkerID c)
    (c_intermediateFiles c) (c_mapTasksCompleted c) (c_reduceTasksCompleted c) (c_status c).
Definition with_mapTasksCompleted (c : Coordinator) n :=
  MkCoordinator (c_mapTasks c) (c_reduceTasks c) (c_nReduce c) (c_nMap c) (c_workers c)
    (c_nextWorkerID c) (c_intermediateFiles c) n (c_reduceTasksCompleted c) (c_status c).
Definition with_reduceTasksCompleted (c : Coordinator) n :=
  MkCoordinator (c_mapTasks c) (c_reduceTasks c) (c_nReduce c) (c_nMap c) (c_workers c)
    (c_nextWorkerID c) (c_intermediateFiles c) (c_mapTasksCompleted c) n (c_status c).
Definition with_intermediateFiles (c : Coordinator) f :=
  MkCoordinator (c_mapTasks c) (c_reduceTasks c) (c_nReduce c) (c_nMap c) (c_workers c)
    (c_nextWorkerID c) f (c_mapTasksCompleted c) (c_reduceTasksCompleted c) (c_status c).

(** *** RequestTask *)

(** [Task{Type: ReduceTask, Status: Idle, TaskID: i}] for [i] below [n]. *)
Definition new_reduce_tasks (n : Z) : list Task :=
  (λ i, MkTask ReduceTask TIdle 0 "" (Z.of_nat i)) <$> seq 0 (Z.to_nat n).

Definition touch_worker (c : Coordinator) (now : Z) (w : Z) : Coordinator :=
  with_workers c
    (match c_workers c !! w with
     | None => <[w := MkWorkerInfo w now]> (c_workers c)
     | Some wi => <[w := MkWorkerInfo (wi_ID wi) now]> (c_workers c)
     end).

(** "Check and update phases" *)
Definition update_phase (c : Coordinator) : Coordinator :=
  if bool_decide (c_status c = MapPhase) && (c_mapTasksCompleted c =? c_nMap c)%Z then
    let c1 := with_status c ReducePhase in
    if (zlen (c_reduceTasks c1) =? 0)%Z
    then with_reduceTasks c1 (c_reduceTasks c1 ++ new_reduce_tasks (c_nReduce c1))
    else c1
  else if bool_decide (c_status c = ReducePhase) && (c_reduceTasksCompleted c =? c_nReduce c)%Z
  then with_status c ExistPhase
  else c.

(** The range loops: the first idle task and its index. *)
Fixpoint first_idle (i : Z) (tasks : list Task) : option (Z * Task) :=
  match tasks with
  | [] => None
  | t :: tasks' => if decide (t_Status t = TIdle) then Some (i, t) else first_idle (i + 1) tasks'
  end.

(** [tasks[i].Status = InProgress; tasks[i].WorkerID = w] *)
Definition assign (tasks : list Task) (i : Z) (w : Z) : outcome (list Task) :=
  let! t := idx tasks i in
  set_idx tasks i (MkTask (t_Type t) InProgress w (t_File t) (t_TaskID t)).

(** The pointer a [waitTask] goroutine holds: an element of one of the slices. *)
Definition timer : Type := TaskType * Z.

Definition no_task : TaskResponse := MkTaskResponse NoTask 0 "" [] 0.

Definition RequestTask (c : Coordinator) (now : Z) (args : TaskRequest)
    : outcome (Coordinator * TaskResponse * option timer) :=
  let c := update_phase (touch_worker c now (rq_WorkerID args)) in
  match c_status c with
  | MapPhase =>
      match first_idle 0 (c_mapTasks c) with
      | Some (i, task) =>
          let! tasks := assign (c_mapTasks c) i (rq_WorkerID args) in
          Done (with_mapTasks c tasks,
                MkTaskResponse MapTask (t_TaskID task) (t_File task) [] (c_nReduce c),
                Some (MapTask, i))
      | None => Done (c, no_task, None)
      end
  | ReducePhase =>
      match first_idle 0 (c_reduceTasks c) with
      | Some (i, task) =>
          let! tasks := assign (c_reduceTasks c) i (rq_WorkerID args) in
          let! files := idx (c_intermediateFiles c) (t_TaskID task) in
          Done (with_reduceTasks c tasks,
                MkTaskResponse ReduceTask (t_TaskID task) "" files 0, Some (ReduceTask, i))
      | None => Done (c, no_task, None)
      end
  | ExistPhase => Done (c, MkTaskResponse ExitTask 0 "" [] 0, None)
  end.

(** *** NotifyTaskCompletion *)

Definition extractReduceTaskNum (filename : string) : outcome Z :=
  let parts := Split "-"%char filename in
  if negb (zlen parts =? 3)%Z then Fatal "unexpected intermediate filename format"
  else
    let! p := idx parts 2 in
    match Atoi p with
    | Some num => Done num
    | None => Fatal "error parsing reduce task number"
    end.

Fixpoint add_files (inter : list (list string)) (files : list string) : outcome (list (list string)) :=
  match files with
  | [] => Done inter
  | file :: files' =>
      let! n := extractReduceTaskNum file in
      let! fs := idx inter n in
      let! inter' := set_idx inter n (fs ++ [file]) in
      add_files inter' files'
  end.

(** [tasks[id].Status == InProgress && tasks[id].WorkerID == w] *)
Definition held_by (t : Task) (w : Z) : bool :=
  bool_decide (t_Status t = InProgress) && (t_WorkerID t =? w)%Z.

Definition with_Status (t : Task) (s : TaskStatus) : Task :=
  MkTask (t_Type t) s (t_WorkerID t) (t_File t) (t_TaskID t).

Definition NotifyTaskCompletion (c : Coordinator) (args : TaskCompletion) : outcome Coordinator :=
  match cp_TaskType args with
  | MapTask =>
      let! t := idx (c_mapTasks c) (cp_TaskID args) in
      if held_by t (cp_WorkerID args) then
        let! tasks := set_idx (c_mapTasks c) (cp_TaskID args) (with_Status t Completed) in
        let c1 := with_mapTasksCompleted (with_mapTasks c tasks) (c_mapTasksCompleted c + 1) in
        let! inter := add_files (c_intermediateFiles c1) (cp_OutputFiles args) in
        Done (with_intermediateFiles c1 inter)
      else Done c
  | ReduceTask =>
      let! t := idx (c_reduceTasks c) (cp_TaskID args) in
      if held_by t (cp_WorkerID args) then
        let! tasks := set_idx (c_reduceTasks c) (cp_TaskID args) (with_Status t Completed) in
        Done (with_reduceTasksCompleted (with_reduceTasks c tasks) (c_reduceTasksCompleted c + 1))
      else Done c
  | _ => Done c
  end.

(** *** waitTask, Done, MakeCoordinator *)

(** After the sleep: the task goes back to idle if it is still in progress. *)
Definition expire (t : Task) : Task :=
  if bool_decide (t_Status t = InProgress)
  then MkTask (t_Type t) TIdle 0 (t_File t) (t_TaskID t) else t.

Definition waitTask (c : Coordinator) (tm : timer) : outcome Coordinator :=
  let '(ty, i) := tm in
  match ty with
  | MapTask =>
      let! t := idx (c_mapTasks c) i in
      let! tasks := set_idx (c_mapTasks c) i (expire t) in
      Done (with_mapTasks c tasks)
  | _ =>
      let! t := idx (c_reduceTasks c) i in
      let! tasks := set_idx (c_reduceTasks c) i (expire t) in
      Done (with_reduceTasks c tasks)
  end.

Definition Done_ (c : Coordinator) : bool :=
  if bool_decide (c_status c = ExistPhase) then
    (c_mapTasksCompleted c =? c_nMap c)%Z && (c_reduceTasksCompleted c =? c_nReduce c)%Z
  else false.

(** A negative length makes [make] panic. *)
Definition MakeCoordinator (files : list string) (nReduce : Z) : outcome Coordinator :=
  if (nReduce <? 0)%Z then Panic "makeslice: len out of range"
  else Done (MkCoordinator
    (imap (λ i file, MkTask MapTask TIdle 0 file (Z.of_nat i)) files)
    (new_reduce_tasks nReduce) nReduce (zlen files) ∅ 0
    (replicate (Z.to_nat nReduce) []) 0 0 MapPhase).

(** ** worker.go *)

Definition TempDir : string := "temp".

(** [fmt.Sprintf("%v/mr-%d-%d", TempDir, mapID, i)] *)
Definition mr_file (mapID i : Z) : string :=
  TempDir +:+ "/mr-" +:+ Itoa mapID +:+ "-" +:+ Itoa i.

Definition reportTaskDone (pid : Z) (taskType : TaskType) (nReduce taskID : Z) : TaskCompletion :=
  MkTaskCompletion pid taskType taskID
    (if decide (taskType = MapTask)
     then (λ i, mr_file taskID (Z.of_nat i)) <$> seq 0 (Z.to_nat nReduce)
     else []).

Definition requestTask (pid : Z) : TaskRequest := MkTaskRequest pid.

Record KeyValue := MkKeyValue { kv_Key : string; kv_Value : string }.

(** [fnv.New32a]: xor with the byte, then multiply by the prime, in 32 bits. *)
Fixpoint fnv32a (h : Z) (s : string) : Z :=
  match s with
  | "" => h
  | String b s' => fnv32a (u32 (Z.lxor h (Z.of_N (N_of_ascii b)) * 16777619)) s'
  end.

Definition ihash (key : string) : Z := Z.land (fnv32a 2166136261 key) 0x7fffffff.

(** The files of the working directory: intermediate files hold pairs, output
    files text. *)
Record files := MkFiles { fs_mr : gmap string (list KeyValue); fs_out : gmap string string }.

(** [Encode] of the encoder, and [Decode] of the decoder on its text. *)
Definition Encode (kv : KeyValue) : string :=
  json.print (json.JObj [("Key", json.JStr (kv_Key kv)); ("Value", json.JStr (kv_Value kv))]).
Definition Decode (text : string) : option KeyValue :=
  match json.parse text with
  | Some (json.JObj [("Key", json.JStr k); ("Value", json.JStr v)]) => Some (MkKeyValue k v)
  | _ => None
  end.

(** A pair that goes through a file: the decode loop ends at an error. *)
Definition json_kv (kv : KeyValue) : list KeyValue :=
  match Decode (Encode kv) with Some kv' => [kv'] | None => [] end.

(** The loop over [kva]: each pair goes to the encoder of its reduce task, which is
    found by the key before it is encoded. *)
Fixpoint encode_all (bufs : list (list KeyValue)) (nReduce : Z) (kva : list KeyValue)
    : outcome (list (list KeyValue)) :=
  match kva with
  | [] => Done bufs
  | kv :: kva' =>
      if (nReduce =? 0)%Z then Panic "integer divide by zero"
      else
        let reduceID := Z.rem (ihash (kv_Key kv)) nReduce in
        let! buf := idx bufs reduceID in
        let! bufs' := set_idx bufs reduceID (buf ++ json_kv kv) in
        encode_all bufs' nReduce kva'
  end.

(** [os.Rename] of every temporary file to its final name. *)
Fixpoint rename_all (fs : files) (mapID : Z) (i : Z) (bufs : list (list KeyValue)) : files :=
  match bufs with
  | [] => fs
  | b :: bufs' =>
      rename_all (MkFiles (<[mr_file mapID i := b]> (fs_mr fs)) (fs_out fs)) mapID (i + 1) bufs'
  end.

Definition writeMapOutput (fs : files) (kva : list KeyValue) (mapID nReduce : Z) : outcome files :=
  if (nReduce <? 0)%Z then Panic "makeslice: len out of range"
  else
    let! bufs := encode_all (replicate (Z.to_nat nReduce) []) nReduce kva in
    Done (rename_all fs mapID 0 bufs).

(** The application's functions. *)
Notation mapf_t := (string → string → list KeyValue).
Notation reducef_t := (string → list string → string).

(** [input] is the input file system; a missing file is fatal. *)
Definition performMap (mapf : mapf_t) (input : gmap string string) (fs : files) (task : TaskResponse)
    : outcome files :=
  match input !! rs_MapFile task with
  | None => Fatal "cannot open"
  | Some content =>
      let kva := mapf (rs_MapFile task) content in
      writeMapOutput fs kva (rs_TaskID task) (rs_NReduce task)
  end.

(** Go's [range] over a map visits the entries in an unspecified order. *)
Class RangeOrder := {
  range_order : ∀ {A}, list A → list A;
  range_perm : ∀ {A} (l : list A), range_order l ≡ₚ l;
}.

(** Does [name] match the pattern [temp/mr-*-N]?  The star matches any
    characters but the separator [/]. *)
Fixpoint ends_with (suffix s : string) : bool :=
  String.eqb suffix s || match s with "" => false | String _ s' => ends_with suffix s' end.
Fixpoint strip_prefix (p s : string) : option string :=
  match p, s with
  | "", _ => Some s
  | String a p', String b s' => if Ascii.eqb a b then strip_prefix p' s' else None
  | _, "" => None
  end.
Fixpoint has_char (c : ascii) (s : string) : bool :=
  match s with "" => false | String d s' => Ascii.eqb d c || has_char c s' end.
Definition glob_match (n : Z) (name : string) : bool :=
  match strip_prefix (TempDir +:+ "/mr-") name with
  | Some rest => ends_with ("-" +:+ Itoa n) rest && negb (has_char "/"%char rest)
  | None => false
  end.

(** [filepath.Glob]: the matching names; it sorts the names of a directory. *)
Definition Glob (fs : files) (n : Z) : list string :=
  sort_Strings (filter (λ name, glob_match n name = true) (map_to_list (fs_mr fs)).*1).

(** The decode loops: values are collected under their key. *)
Fixpoint collect (m : gmap string (list string)) (kvs : list KeyValue) : gmap string (list string) :=
  match kvs with
  | [] => m
  | kv :: kvs' => collect (<[kv_Key kv := default [] (m !! kv_Key kv) ++ [kv_Value kv]]> m) kvs'
  end.

Definition read_all (fs : files) (names : list string) : list KeyValue :=
  mjoin ((λ name, default [] (fs_mr fs !! name)) <$> names).

(** [fmt.Fprintf(outputFile, "%v %v\n", key, output)] *)
Definition out_line (key output : string) : string :=
  key +:+ " " +:+ output +:+ String "010"%char "".

Definition out_file (n : Z) : string := "mr-out-" +:+ Itoa n.

Definition reduce_lines `{RangeOrder} (reducef : reducef_t) (m : gmap string (list string))
    : list string :=
  (λ '(k, vs), out_line k (reducef k vs)) <$> range_order (map_to_list m).

(** The lines the reduce task [n] writes: the matching files are read, not
    [task.ReduceFiles]. *)
Definition task_lines `{RangeOrder} (reducef : reducef_t) (fs : files) (n : Z) : list string :=
  let names := Glob fs n in
  let intermediate := collect ∅ (read_all fs names) in
  reduce_lines reducef intermediate.

Definition performReduce `{RangeOrder} (reducef : reducef_t) (fs : files) (task : TaskResponse) : files :=
  let text := foldr String.append "" (task_lines reducef fs (rs_TaskID task)) in
  MkFiles (fs_mr fs) (<[out_file (rs_TaskID task) := text]> (fs_out fs)).

(** One round of the loop of [Worker] once the reply has arrived: the files it
    leaves, the report it sends, and whether it goes on. *)
Definition work `{RangeOrder} (mapf : mapf_t) (reducef : reducef_t) (input : gmap string string)
    (pid : Z) (fs : files) (reply : TaskResponse)
    : outcome (files * option TaskCompletion * bool) :=
  match rs_TaskType reply with
  | MapTask =>
      let! fs' := performMap mapf input fs reply in
      Done (fs', Some (reportTaskDone pid MapTask (rs_NReduce reply) (rs_TaskID reply)), true)
  | ReduceTask =>
      Done (performReduce reducef fs reply,
            Some (reportTaskDone pid ReduceTask (rs_NReduce reply) (rs_TaskID reply)), true)
  | ExitTask => Done (fs, None, false)
  | NoTask => Done (fs, None, true)
  end.

End mr.

(** ** main/mrsequential.go *)
Module mrsequential.
Import mr.

(** [sort.Sort(ByKey(intermediate))]: some permutation sorted by key. *)
Class KeySorter := {
  sort_by_key : list KeyValue → list KeyValue;
  sort_by_key_perm : ∀ l, sort_by_key l ≡ₚ l;
  sort_by_key_sorted : ∀ l i j a b, i ≤ j →
    sort_by_key l !! i = Some a → sort_by_key l !! j = Some b → String.le (kv_Key a) (kv_Key b);
}.

(** Reading the input files and applying [mapf]. *)
Fixpoint map_all (mapf : mapf_t) (input : gmap string string) (names : list string)
    : outcome (list KeyValue) :=
  match names with
  | [] => Done []
  | filename :: names' =>
      match input !! filename with
      | None => Fatal "cannot open"
      | Some content =>
          let kva := mapf filename content in
          let! rest := map_all mapf input names' in
          Done (kva ++ rest)
      end
  end.

(** The run of entries with key [k] at the front: their values and the rest. *)
Fixpoint take_key (k : string) (l : list KeyValue) : list string * list KeyValue :=
  match l with
  | kv :: l' =>
      if String.eqb (kv_Key kv) k
      then let '(vs, rest) := take_key k l' in (kv_Value kv :: vs, rest)
      else ([], l)
  | [] => ([], [])
  end.

(** The loop over [i]: one line per run of equal keys.  [fuel] bounds the number
    of runs; the length of the list is enough. *)
Fixpoint reduce_runs (fuel : nat) (reducef : reducef_t) (l : list KeyValue) : list string :=
  match fuel, l with
  | S fuel', kv :: l' =>
      let '(vs, rest) := take_key (kv_Key kv) l' in
      out_line (kv_Key kv) (reducef (kv_Key kv) (kv_Value kv :: vs)) :: reduce_runs fuel' reducef rest
  | _, _ => []
  end.

Definition main_lines `{KeySorter} (mapf : mapf_t) (reducef : reducef_t) (input : gmap string string)
    (names : list string) : outcome (list string) :=
  let! intermediate := map_all mapf input names in
  let sorted := sort_by_key intermediate in
  Done (reduce_runs (length sorted) reducef sorted).

(** The text of mr-out-0. *)
Definition main `{KeySorter} (mapf : mapf_t) (reducef : reducef_t) (input : gmap string string)
    (names : list string) : outcome string :=
  let! lines := main_lines mapf reducef input names in
  Done (foldr String.append "" lines).

End mrsequential.
