(* ===== verification/MrFacts.v ===== *)
(** * The MapReduce coordinator as a state machine

    Requests, completion reports and expiring timers in any order, from workers
    that may be slow, crash or report late.  The invariant relates the task
    tables to the counters, the phase, the timers and the lists of
    intermediate files. *)

From Stdlib Require Import Ascii.
From S2P Require Import Prelude GoStrings Mr.

Module mrproof.
Import gostrings mr.

(** ** File names *)

Lemma extract_mr_file m i : (0 ≤ m)%Z → (0 ≤ i < 2 ^ 63)%Z →
  extractReduceTaskNum (mr_file m i) = Done i.
Proof.
  intros Hm Hi. unfold extractReduceTaskNum.
  assert (Split "-"%char (mr_file m i) = ["temp/mr"; Itoa m; Itoa i]) as ->.
  { change (mr_file m i) with ("temp/mr" +:+ String "-"%char (Itoa m +:+ String "-"%char (Itoa i))).
    rewrite Split_cons by (simpl; by repeat split).
    rewrite Split_cons by (by apply Itoa_no_dash).
    rewrite Split_no_char by (apply Itoa_no_dash; lia). done. }
  simpl. rewrite Atoi_Itoa by lia. done.
Qed.

(** ** Task tables *)

(** The ids of the completed tasks. *)
Definition done_ids (ts : list Task) : list Z := t_TaskID <$> filter (λ t, t_Status t = Completed) ts.

(** Task [i] of the table has id [i] and the right type. *)
Definition table (ty : TaskType) (ts : list Task) : Prop :=
  ∀ i t, ts !! i = Some t → t_Type t = ty ∧ t_TaskID t = Z.of_nat i.

Lemma filter_insert {A} (P : A → Prop) `{∀ x, Decision (P x)} l i x x' :
  l !! i = Some x →
  filter P (<[i := x']> l) = filter P (take i l) ++ filter P [x'] ++ filter P (drop (S i) l) ∧
  filter P l = filter P (take i l) ++ filter P [x] ++ filter P (drop (S i) l).
Proof.
  intros Hi. pose proof (lookup_lt_Some _ _ _ Hi). split.
  - rewrite insert_take_drop by done. by rewrite <- !filter_app.
  - rewrite <- !filter_app. simpl. by rewrite take_drop_middle.
Qed.

Lemma done_ids_complete ts i t : ts !! i = Some t → t_Status t ≠ Completed →
  done_ids (<[i := with_Status t Completed]> ts) ≡ₚ t_TaskID t :: done_ids ts.
Proof.
  intros Hi Hs. unfold done_ids.
  destruct (filter_insert (λ t, t_Status t = Completed) _ _ _ (with_Status t Completed) Hi) as [-> ->].
  rewrite (filter_cons_True _ (with_Status t Completed)) by done.
  rewrite (filter_cons_False _ t) by done. rewrite !filter_nil, !fmap_app. simpl.
  by rewrite Permutation_middle.
Qed.

Lemma done_ids_same ts i t t' : ts !! i = Some t → t_Status t ≠ Completed → t_Status t' ≠ Completed →
  done_ids (<[i := t']> ts) = done_ids ts.
Proof.
  intros Hi Hs Hs'. unfold done_ids.
  destruct (filter_insert (λ t, t_Status t = Completed) _ _ _ t' Hi) as [-> ->].
  by rewrite !filter_cons_False.
Qed.

Lemma table_insert ty ts i t t' : table ty ts → ts !! i = Some t → t_Type t' = t_Type t →
  t_TaskID t' = t_TaskID t → table ty (<[i := t']> ts).
Proof.
  intros Ht Hi Hty Hid j u Hj. destruct (decide (i = j)) as [->|].
  - rewrite list_lookup_insert_eq in Hj by (by eapply lookup_lt_Some). simplify_eq.
    rewrite Hty, Hid. by apply Ht.
  - rewrite list_lookup_insert_ne in Hj by done. by apply Ht.
Qed.

(** All tasks completed, by the counter. *)
Lemma all_done ts : (zlen (done_ids ts) = zlen ts)%Z → Forall (λ t, t_Status t = Completed) ts.
Proof.
  unfold zlen, done_ids. rewrite length_fmap. intros Hlen. induction ts as [|t ts IH]; [done|].
  pose proof (length_filter (λ t, t_Status t = Completed) ts). simpl in Hlen.
  rewrite filter_cons in Hlen. case_decide; simpl in Hlen; [|lia].
  constructor; [done|]. apply IH. lia.
Qed.

Lemma done_ids_all ts ty : table ty ts → Forall (λ t, t_Status t = Completed) ts →
  done_ids ts = Z.of_nat <$> seq 0 (length ts).
Proof.
  intros Ht Hall. unfold done_ids.
  assert (filter (λ t, t_Status t = Completed) ts = ts) as ->.
  { clear Ht. induction Hall as [|t ts Hs Hall IH]; [done|]. rewrite filter_cons_True by done. by rewrite IH. }
  apply list_eq. intros i. rewrite !list_lookup_fmap.
  destruct (ts !! i) as [t|] eqn:E.
  - destruct (Ht i t E) as [_ Hid]. apply lookup_lt_Some in E. rewrite lookup_seq_lt by done.
    simpl. by rewrite Hid.
  - apply lookup_ge_None in E. by rewrite lookup_seq_ge.
Qed.

Lemma first_idle_Some k ts i t : first_idle k ts = Some (i, t) →
  ∃ j, i = (k + Z.of_nat j)%Z ∧ ts !! j = Some t ∧ t_Status t = TIdle.
Proof.
  revert k. induction ts as [|u ts IH]; intros k; simpl; [done|]. case_decide.
  - intros [= <- <-]. exists 0. split_and!; [lia|done..].
  - intros (j & -> & ? & ?)%IH. exists (S j). split_and!; [lia|done..].
Qed.

Lemma first_idle_None k ts : first_idle k ts = None → Forall (λ t, t_Status t ≠ TIdle) ts.
Proof. revert k. induction ts as [|u ts IH]; intros k; simpl; [done|]. case_decide; [done|]. eauto. Qed.

(** ** Intermediate files *)

Lemma add_files_spec m n inter k len : (0 ≤ m)%Z → (Z.of_nat n ≤ 2 ^ 63)%Z → length inter = n →
  k + len ≤ n →
  ∃ inter', add_files inter ((λ i, mr_file m (Z.of_nat i)) <$> seq k len) = Done inter' ∧
    length inter' = n ∧
    ∀ r fs, inter !! r = Some fs → inter' !! r = Some
      (fs ++ if decide (k ≤ r < k + len) then [mr_file m (Z.of_nat r)] else []).
Proof.
  intros Hm Hn. revert inter k. induction len as [|len IH]; intros inter k Hlen Hk.
  - exists inter. split_and!; [done..|]. intros r fs Hr.
    rewrite decide_False by lia. by rewrite app_nil_r.
  - change (seq k (S len)) with (k :: seq (S k) len). rewrite fmap_cons. cbn [add_files].
    rewrite extract_mr_file by lia. cbn [mbind outcome_bind].
    destruct (lookup_lt_is_Some_2 inter k) as [fs Hfs]; [lia|].
    rewrite idx_nat, Hfs. cbn [mbind outcome_bind].
    assert (set_idx inter (Z.of_nat k) (fs ++ [mr_file m (Z.of_nat k)])
      = Done (<[k := fs ++ [mr_file m (Z.of_nat k)]]> inter)) as ->.
    { apply set_idx_Done. rewrite Nat2Z.id. unfold zlen. split; [lia|done]. }
    cbn [mbind outcome_bind]. destruct (IH (<[k := fs ++ [mr_file m (Z.of_nat k)]]> inter) (S k)) as (inter' & -> & Hl & Hi);
      [by rewrite length_insert|lia|].
    exists inter'. split_and!; [done..|]. intros r fs' Hr.
    destruct (decide (r = k)) as [->|Hne].
    + rewrite (Hi k (fs ++ [mr_file m (Z.of_nat k)]))
        by (rewrite list_lookup_insert_eq by lia; done).
      rewrite (decide_False (P := S k ≤ k < _)) by lia. rewrite decide_True by lia.
      simplify_eq. by rewrite app_nil_r.
    + rewrite (Hi r fs') by (by rewrite list_lookup_insert_ne).
      destruct (decide (S k ≤ r < S k + len)); [rewrite decide_True by lia|rewrite decide_False by lia]; done.
Qed.

(** ** The machine *)

Record mstate := MkMstate {
  ms_c : Coordinator;
  ms_timers : list timer;
  ms_handed : list (Z * TaskType * Z);  (** worker, type and id of every task handed out *)
}.

Definition handed_of (w : Z) (r : TaskResponse) : list (Z * TaskType * Z) :=
  match rs_TaskType r with
  | MapTask | ReduceTask => [(w, rs_TaskType r, rs_TaskID r)]
  | _ => []
  end.

Definition spawned (o : option timer) : list timer := match o with Some t => [t] | None => [] end.

Inductive mstep : mstate → mstate → Prop :=
  | MRequest c ts hd w now c' reply o :
      RequestTask c now (requestTask w) = Done (c', reply, o) →
      mstep (MkMstate c ts hd) (MkMstate c' (spawned o ++ ts) (handed_of w reply ++ hd))
  | MComplete c ts hd w ty id c' :
      (w, ty, id) ∈ hd →
      NotifyTaskCompletion c (reportTaskDone w ty (c_nReduce c) id) = Done c' →
      mstep (MkMstate c ts hd) (MkMstate c' ts hd)
  | MExpire c ts1 tm ts2 hd c' :
      waitTask c tm = Done c' →
      mstep (MkMstate c (ts1 ++ tm :: ts2) hd) (MkMstate c' (ts1 ++ ts2) hd).

Definition minit (files : list string) (nReduce : Z) (s : mstate) : Prop :=
  (nReduce < 2 ^ 63)%Z ∧ ∃ c, MakeCoordinator files nReduce = Done c ∧ s = MkMstate c [] [].

Definition reachable (files : list string) (nReduce : Z) (s : mstate) : Prop :=
  ∃ s0, minit files nReduce s0 ∧ rtc mstep s0 s.

(** In-progress tasks have exactly one timer, idle ones none. *)
Definition timers_ok (ty : TaskType) (ts : list Task) (timers : list timer) : Prop :=
  (∀ i, (ty, i) ∈ timers → (0 ≤ i < zlen ts)%Z) ∧
  ∀ i t, ts !! i = Some t →
    (t_Status t = InProgress → (ty, Z.of_nat i) ∈ timers) ∧
    (t_Status t = TIdle → (ty, Z.of_nat i) ∉ timers).

Record minv (files : list string) (nReduce : Z) (s : mstate) : Prop := {
  mi_n : (0 ≤ nReduce < 2 ^ 63)%Z ∧ c_nReduce (ms_c s) = nReduce ∧
         c_nMap (ms_c s) = zlen files ∧ zlen (c_mapTasks (ms_c s)) = zlen files ∧
         zlen (c_reduceTasks (ms_c s)) = nReduce;
  mi_map : table MapTask (c_mapTasks (ms_c s)) ∧ t_File <$> c_mapTasks (ms_c s) = files;
  mi_reduce : table ReduceTask (c_reduceTasks (ms_c s));
  mi_mapcount : c_mapTasksCompleted (ms_c s) = zlen (done_ids (c_mapTasks (ms_c s)));
  mi_redcount : c_reduceTasksCompleted (ms_c s) = zlen (done_ids (c_reduceTasks (ms_c s)));
  mi_phase : match c_status (ms_c s) with
             | MapPhase => Forall (λ t, t_Status t = TIdle) (c_reduceTasks (ms_c s))
             | ReducePhase => Forall (λ t, t_Status t = Completed) (c_mapTasks (ms_c s))
             | ExistPhase => Forall (λ t, t_Status t = Completed) (c_mapTasks (ms_c s)) ∧
                             Forall (λ t, t_Status t = Completed) (c_reduceTasks (ms_c s))
             end;
  mi_files : zlen (c_intermediateFiles (ms_c s)) = nReduce ∧
    ∀ r fs, c_intermediateFiles (ms_c s) !! r = Some fs →
      fs ≡ₚ (λ m, mr_file m (Z.of_nat r)) <$> done_ids (c_mapTasks (ms_c s));
  mi_timers : NoDup (ms_timers s) ∧ (∀ ty i, (ty, i) ∈ ms_timers s → ty = MapTask ∨ ty = ReduceTask) ∧
    timers_ok MapTask (c_mapTasks (ms_c s)) (ms_timers s) ∧
    timers_ok ReduceTask (c_reduceTasks (ms_c s)) (ms_timers s);
  mi_handed : ∀ w ty id, (w, ty, id) ∈ ms_handed s →
    (ty = MapTask ∧ (0 ≤ id < zlen files)%Z) ∨ (ty = ReduceTask ∧ (0 ≤ id < nReduce)%Z);
}.

(** ** Preservation *)

(** Changing one task that is not completed into another such task. *)
Lemma table_zlen (ts : list Task) i (t' : Task) : zlen (<[i := t']> ts) = zlen ts.
Proof. apply zlen_insert. Qed.

Lemma file_insert (ts : list Task) i t t' : ts !! i = Some t → t_File t' = t_File t →
  t_File <$> <[i := t']> ts = t_File <$> ts.
Proof.
  intros Hi Hf. rewrite list_fmap_insert. apply list_insert_id.
  rewrite list_lookup_fmap, Hi. simpl. congruence.
Qed.

(** Timers of another table do not matter. *)
Lemma timers_other ty ts timers timers' : timers_ok ty ts timers →
  (∀ i, (ty, i) ∈ timers' ↔ (ty, i) ∈ timers) → timers_ok ty ts timers'.
Proof.
  intros [H1 H2] Hiff. split.
  - intros i Hi. apply H1. by apply Hiff.
  - intros i t Ht. rewrite Hiff. by apply H2.
Qed.

(** A task is assigned and its timer started. *)
Lemma timers_assign ty ts timers j t t' : timers_ok ty ts timers → ts !! j = Some t →
  t_Status t' = InProgress → timers_ok ty (<[j := t']> ts) ((ty, Z.of_nat j) :: timers).
Proof.
  intros [H1 H2] Hj Hs. pose proof (lookup_lt_Some _ _ _ Hj) as Hlt. split.
  - intros i. rewrite elem_of_cons, table_zlen. intros [[= ->]|?]; [unfold zlen; lia|by apply H1].
  - intros i u Hu. destruct (decide (i = j)) as [->|Hne].
    + rewrite list_lookup_insert_eq in Hu by done. simplify_eq. split; [by left|congruence].
    + rewrite list_lookup_insert_ne in Hu by done. destruct (H2 i u Hu) as [Ha Hb]. split.
      * intros ?. right. by apply Ha.
      * intros Hi. rewrite elem_of_cons. intros [[= ?]|?]; [lia|by apply Hb].
Qed.

(** The timer of a task fires and the task is no longer in progress. *)
Lemma timers_expire ty ts timers timers' j t t' : timers_ok ty ts timers → ts !! j = Some t →
  t_Status t' ≠ InProgress →
  (∀ x, x ∈ timers' ↔ x ∈ timers ∧ x ≠ (ty, Z.of_nat j)) → timers_ok ty (<[j := t']> ts) timers'.
Proof.
  intros [H1 H2] Hj Hs Hiff. pose proof (lookup_lt_Some _ _ _ Hj) as Hlt. split.
  - intros i [Hi _]%Hiff. rewrite table_zlen. by apply H1.
  - intros i u Hu. rewrite Hiff. destruct (decide (i = j)) as [->|Hne].
    + rewrite list_lookup_insert_eq in Hu by done. simplify_eq. split; [done|]. tauto.
    + rewrite list_lookup_insert_ne in Hu by done. destruct (H2 i u Hu) as [Ha Hb]. split.
      * intros ?. split; [by apply Ha|]. intros [= ?]. lia.
      * intros ?%Hb. tauto.
Qed.

(** A task is completed; its timer keeps running. *)
Lemma timers_complete ty ts timers j t t' : timers_ok ty ts timers → ts !! j = Some t →
  t_Status t' = Completed → timers_ok ty (<[j := t']> ts) timers.
Proof.
  intros [H1 H2] Hj Hs. pose proof (lookup_lt_Some _ _ _ Hj) as Hlt. split.
  - intros i Hi. rewrite table_zlen. by apply H1.
  - intros i u Hu. destruct (decide (i = j)) as [->|Hne].
    + rewrite list_lookup_insert_eq in Hu by done. simplify_eq. rewrite Hs. done.
    + rewrite list_lookup_insert_ne in Hu by done. by apply H2.
Qed.

Section preservation.
Context (files : list string) (nReduce : Z).
Implicit Types (c : Coordinator) (timers : list timer).

Notation minv := (minv files nReduce).

(** A map task changes between idle and in progress. *)
Lemma minv_map c timers hd j t t' timers' :
  minv (MkMstate c timers hd) → c_mapTasks c !! j = Some t →
  t_Status t ≠ Completed → t_Status t' ≠ Completed →
  t_Type t' = t_Type t → t_TaskID t' = t_TaskID t → t_File t' = t_File t →
  NoDup timers' → (∀ ty i, (ty, i) ∈ timers' → ty = MapTask ∨ ty = ReduceTask) →
  timers_ok MapTask (<[j := t']> (c_mapTasks c)) timers' →
  timers_ok ReduceTask (c_reduceTasks c) timers' →
  minv (MkMstate (with_mapTasks c (<[j := t']> (c_mapTasks c))) timers' hd).
Proof.
  intros [Hn [Hm Hf] Hr Hmc Hrc Hp Hfi Ht Hh] Hj Hs Hs' Hty Hid Hfile Hnd Htys Htm Htr.
  simpl in *. split; simpl; try done.
  - by rewrite table_zlen.
  - split; [by eapply table_insert|]. by rewrite (file_insert _ _ _ _ Hj).
  - by rewrite (done_ids_same _ _ _ _ Hj).
  - assert (¬ Forall (λ t, t_Status t = Completed) (c_mapTasks c)) as Hno.
    { rewrite Forall_lookup. intros Hall. by apply Hs, (Hall j). }
    destruct (c_status c); [done|by destruct Hno|]. by destruct Hp as [? _].
  - by rewrite (done_ids_same _ _ _ _ Hj).
Qed.

(** A reduce task does. *)
Lemma minv_reduce c timers hd j t t' timers' :
  minv (MkMstate c timers hd) → c_status c ≠ MapPhase → c_reduceTasks c !! j = Some t →
  t_Status t ≠ Completed → t_Status t' ≠ Completed →
  t_Type t' = t_Type t → t_TaskID t' = t_TaskID t →
  NoDup timers' → (∀ ty i, (ty, i) ∈ timers' → ty = MapTask ∨ ty = ReduceTask) →
  timers_ok MapTask (c_mapTasks c) timers' →
  timers_ok ReduceTask (<[j := t']> (c_reduceTasks c)) timers' →
  minv (MkMstate (with_reduceTasks c (<[j := t']> (c_reduceTasks c))) timers' hd).
Proof.
  intros [Hn [Hm Hf] Hr Hmc Hrc Hp Hfi Ht Hh] Hst Hj Hs Hs' Hty Hid Hnd Htys Htm Htr.
  simpl in *. split; simpl; try done.
  - by rewrite table_zlen.
  - by eapply table_insert.
  - by rewrite (done_ids_same _ _ _ _ Hj).
  - destruct (c_status c); [done|done|]. destruct Hp as [_ Hall]. exfalso.
    rewrite Forall_lookup in Hall. by apply Hs, (Hall j).
Qed.

Lemma minv_handed c timers hd hd' : minv (MkMstate c timers hd) →
  (∀ w ty id, (w, ty, id) ∈ hd' →
    (ty = MapTask ∧ (0 ≤ id < zlen files)%Z) ∨ (ty = ReduceTask ∧ (0 ≤ id < nReduce)%Z)) →
  minv (MkMstate c timers (hd' ++ hd)).
Proof.
  intros [? ? ? ? ? ? ? ? Hh] Hhd. split; try done. intros w ty id [?|?]%elem_of_app; [by eapply Hhd|by eapply Hh].
Qed.

(** *** Requests *)

Lemma minv_touch c timers hd now w : minv (MkMstate c timers hd) →
  minv (MkMstate (touch_worker c now w) timers hd).
Proof. by intros []. Qed.

Lemma minv_phase c timers hd : minv (MkMstate c timers hd) →
  minv (MkMstate (update_phase c) timers hd).
Proof.
  intros Hinv. pose proof Hinv as [Hn [Hm Hf] Hr Hmc Hrc Hp Hfi Ht Hh]. simpl in *.
  destruct Hn as (Hn & HnR & HnM & HlM & HlR). unfold update_phase.
  destruct (bool_decide_reflect (c_status c = MapPhase)) as [Hs|Hs]; simpl.
  - destruct (Z.eqb_spec (c_mapTasksCompleted c) (c_nMap c)) as [Heq|]; simpl.
    + assert (Forall (λ t, t_Status t = Completed) (c_mapTasks c)) as Hall.
      { apply all_done. congruence. }
      assert (minv (MkMstate (with_status c ReducePhase) timers hd)) as Hst by (by split).
      destruct (Z.eqb_spec (zlen (c_reduceTasks c)) 0) as [Hz|]; simpl; [|done].
      replace (with_reduceTasks _ _) with (with_status c ReducePhase); [done|].
      unfold with_reduceTasks, with_status. simpl. f_equal.
      replace (c_nReduce c) with 0%Z by congruence. by rewrite app_nil_r.
    + rewrite bool_decide_eq_false_2; [done|]. by rewrite Hs.
  - destruct (bool_decide_reflect (c_status c = ReducePhase)) as [Hs'|]; simpl; [|done].
    destruct (Z.eqb_spec (c_reduceTasksCompleted c) (c_nReduce c)); simpl; [|done].
    split; simpl; try done. rewrite Hs' in Hp. split; [done|]. apply all_done. congruence.
Qed.

Lemma assign_spec ts i t w : first_idle 0 ts = Some (i, t) →
  ∃ j, i = Z.of_nat j ∧ ts !! j = Some t ∧ t_Status t = TIdle ∧
    assign ts i w = Done (<[j := MkTask (t_Type t) InProgress w (t_File t) (t_TaskID t)]> ts).
Proof.
  intros (j & -> & Hj & Hs)%first_idle_Some. exists j. rewrite Z.add_0_l. unfold assign.
  rewrite idx_nat, Hj. simpl. split_and!; [done..|]. apply set_idx_Done.
  rewrite Nat2Z.id. split; [|done]. apply lookup_lt_Some in Hj. unfold zlen. lia.
Qed.

(** What a request does, besides preserving the invariant. *)
Lemma request_spec c timers hd now w : minv (MkMstate c timers hd) →
  ∃ c' reply o, RequestTask c now (requestTask w) = Done (c', reply, o) ∧
    minv (MkMstate c' (spawned o ++ timers) (handed_of w reply ++ hd)) ∧
    c_status c' = c_status (update_phase (touch_worker c now w)) ∧
    (rs_TaskType reply = NoTask → match c_status c' with
       | MapPhase => Forall (λ t, t_Status t ≠ TIdle) (c_mapTasks c')
       | ReducePhase => Forall (λ t, t_Status t ≠ TIdle) (c_reduceTasks c')
       | ExistPhase => False end) ∧
    (rs_TaskType reply = ExitTask ↔ c_status c' = ExistPhase) ∧
    (rs_TaskType reply = ReduceTask →
       rs_ReduceFiles reply ≡ₚ
         (λ m, mr_file (Z.of_nat m) (rs_TaskID reply)) <$> seq 0 (length files)).
Proof.
  intros Hinv. unfold RequestTask. simpl.
  pose proof (minv_phase _ _ _ (minv_touch _ _ _ now w Hinv)) as Hinv'.
  set (c1 := update_phase (touch_worker c now w)) in *.
  pose proof Hinv' as [(Hn & HnR & HnM & HlM & HlR) [Hm Hf] Hr Hmc Hrc Hp [Hfl Hfi]
    (Hnd & Htys & Htm & Htr) Hh]. simpl in *.
  destruct (c_status c1) eqn:Est.
  - destruct (first_idle 0 (c_mapTasks c1)) as [[i t]|] eqn:Efi.
    + destruct (assign_spec _ _ _ w Efi) as (j & -> & Hj & Hs & ->). simpl.
      destruct (Hm j t Hj) as [Hty Hid]. pose proof (lookup_lt_Some _ _ _ Hj) as Hlt.
      eexists _, _, _. split_and!; [done| |by simpl; rewrite ?Est..].
      apply (minv_handed _ _ hd [_]).
      * eapply minv_map; [exact Hinv'|exact Hj|simpl; congruence..|done|done|done| | | |].
        -- simpl. constructor; [|done]. by apply (proj2 Htm j t Hj).
        -- simpl. intros ty i [[= -> ->]|?]%elem_of_cons; [by left|by eapply Htys].
        -- simpl. eapply timers_assign; [exact Htm|exact Hj|done].
        -- simpl. eapply timers_other; [exact Htr|]. intros i. rewrite elem_of_cons. naive_solver.
      * simpl. intros w' ty id [[= -> -> ->]|?%not_elem_of_nil]%elem_of_cons; [|done].
        left. split; [done|]. rewrite Hid, <- HlM. unfold zlen. lia.
    + eexists _, _, _. split_and!; [done|done|by simpl; rewrite ?Est| |by simpl; rewrite ?Est..].
      simpl. intros _. rewrite Est. by apply first_idle_None in Efi.
  - destruct (first_idle 0 (c_reduceTasks c1)) as [[i t]|] eqn:Efi.
    + destruct (assign_spec _ _ _ w Efi) as (j & -> & Hj & Hs & ->). simpl.
      destruct (Hr j t Hj) as [Hty Hid]. pose proof (lookup_lt_Some _ _ _ Hj) as Hlt.
      destruct (lookup_lt_is_Some_2 (c_intermediateFiles c1) j) as [fs Hfs].
      { unfold zlen in *. lia. }
      rewrite Hid, idx_nat, Hfs. simpl. eexists _, _, _. split_and!; [done| |by simpl; rewrite ?Est..|].
      * apply (minv_handed _ _ hd [_]).
        -- eapply minv_reduce; [exact Hinv'|congruence|exact Hj|simpl; congruence..|done|done| | | |].
           ++ simpl. constructor; [|done]. by apply (proj2 Htr j t Hj).
           ++ simpl. intros ty i [[= -> ->]|?]%elem_of_cons; [by right|by eapply Htys].
           ++ simpl. eapply timers_other; [exact Htm|]. intros i. rewrite elem_of_cons. naive_solver.
           ++ simpl. eapply timers_assign; [exact Htr|exact Hj|done].
        -- simpl. intros w' ty id [[= -> -> ->]|?%not_elem_of_nil]%elem_of_cons; [|done].
           right. split; [done|]. unfold zlen in *. lia.
      * simpl. intros _. rewrite (Hfi j fs Hfs). rewrite (done_ids_all _ _ Hm Hp).
        rewrite <- list_fmap_compose. assert (length (c_mapTasks c1) = length files) as -> by (unfold zlen in *; lia).
        done.
    + eexists _, _, _. split_and!; [done|done|by simpl; rewrite ?Est| |by simpl; rewrite ?Est..].
      simpl. intros _. rewrite Est. by apply first_idle_None in Efi.
  - eexists _, _, _. split_and!; [done|done|by simpl; rewrite ?Est..].
Qed.

(** *** Completion reports *)

Lemma held_by_spec t w : held_by t w = true → t_Status t = InProgress ∧ t_WorkerID t = w.
Proof. unfold held_by. intros ?. z_bool. done. Qed.

Lemma complete_map c timers hd w id : minv (MkMstate c timers hd) → (0 ≤ id < zlen files)%Z →
  ∃ c', NotifyTaskCompletion c (reportTaskDone w MapTask (c_nReduce c) id) = Done c' ∧
    minv (MkMstate c' timers hd).
Proof.
  intros Hinv Hid. pose proof Hinv as [(Hn & HnR & HnM & HlM & HlR) [Hm Hf] Hr Hmc Hrc Hp [Hfl Hfi]
    (Hnd & Htys & Htm & Htr) Hh]. simpl in *.
  unfold NotifyTaskCompletion, reportTaskDone. simpl.
  destruct (idx_total (c_mapTasks c) id) as [t Ht]; [lia|]. rewrite Ht. simpl.
  destruct (held_by t w) eqn:Eh; [|by eauto]. apply held_by_spec in Eh as [Hs _].
  apply idx_Done in Ht as [_ Ht]. set (j := Z.to_nat id) in *.
  destruct (Hm j t Ht) as [Hty Htid]. assert (t_Status t ≠ Completed) as Hnc by congruence.
  assert (set_idx (c_mapTasks c) id (with_Status t Completed)
    = Done (<[j := with_Status t Completed]> (c_mapTasks c))) as ->.
  { apply set_idx_Done. split; [lia|done]. }
  simpl. destruct (add_files_spec id (Z.to_nat nReduce) (c_intermediateFiles c) 0 (Z.to_nat nReduce))
    as (inter & Hadd & Hlen & Hinter); [lia|lia|unfold zlen in *; lia|lia|].
  rewrite HnR. rewrite Hadd. simpl. eexists. split; [done|].
  pose proof (done_ids_complete _ _ _ Ht Hnc) as Hdone.
  split; simpl; try done.
  - by rewrite table_zlen.
  - split; [by eapply table_insert|]. by rewrite (file_insert _ _ _ _ Ht).
  - rewrite Hmc. unfold zlen. rewrite (Permutation_length Hdone). simpl. lia.
  - destruct (c_status c); [done|exfalso|exfalso].
    + rewrite Forall_lookup in Hp. by apply Hnc, (Hp j).
    + destruct Hp as [Hp _]. rewrite Forall_lookup in Hp. by apply Hnc, (Hp j).
  - split; [unfold zlen; lia|]. intros r fs Hrf.
    destruct (lookup_lt_is_Some_2 (c_intermediateFiles c) r) as [fs0 Hfs0].
    { apply lookup_lt_Some in Hrf. unfold zlen in *. lia. }
    pose proof (Hinter r fs0 Hfs0) as Hr'. rewrite Hr' in Hrf. simplify_eq.
    rewrite decide_True by (apply lookup_lt_Some in Hfs0; unfold zlen in *; lia).
    rewrite (Hfi r fs0 Hfs0), Hdone, fmap_cons, Htid.
    replace (Z.of_nat j) with id by lia. by rewrite Permutation_app_comm.
  - split_and!; [done..| |done]. by eapply timers_complete.
Qed.

Lemma complete_reduce c timers hd w id : minv (MkMstate c timers hd) → (0 ≤ id < nReduce)%Z →
  ∃ c', NotifyTaskCompletion c (reportTaskDone w ReduceTask (c_nReduce c) id) = Done c' ∧
    minv (MkMstate c' timers hd).
Proof.
  intros Hinv Hid. pose proof Hinv as [(Hn & HnR & HnM & HlM & HlR) [Hm Hf] Hr Hmc Hrc Hp [Hfl Hfi]
    (Hnd & Htys & Htm & Htr) Hh]. simpl in *.
  unfold NotifyTaskCompletion, reportTaskDone. simpl.
  destruct (idx_total (c_reduceTasks c) id) as [t Ht]; [lia|]. rewrite Ht. simpl.
  destruct (held_by t w) eqn:Eh; [|by eauto]. apply held_by_spec in Eh as [Hs _].
  apply idx_Done in Ht as [_ Ht]. set (j := Z.to_nat id) in *.
  destruct (Hr j t Ht) as [Hty Htid]. assert (t_Status t ≠ Completed) as Hnc by congruence.
  assert (set_idx (c_reduceTasks c) id (with_Status t Completed)
    = Done (<[j := with_Status t Completed]> (c_reduceTasks c))) as ->.
  { apply set_idx_Done. split; [lia|done]. }
  simpl. eexists. split; [done|]. pose proof (done_ids_complete _ _ _ Ht Hnc) as Hdone.
  split; simpl; try done.
  - by rewrite table_zlen.
  - by eapply table_insert.
  - rewrite Hrc. unfold zlen. rewrite (Permutation_length Hdone). simpl. lia.
  - destruct (c_status c); [exfalso|done|exfalso].
    + rewrite Forall_lookup in Hp. specialize (Hp j t Ht). simpl in Hp. congruence.
    + destruct Hp as [_ Hp]. rewrite Forall_lookup in Hp. by apply Hnc, (Hp j).
  - split_and!; [done..|]. by eapply timers_complete.
Qed.

(** *** Timers *)

Lemma expire_cases t : (t_Status t = InProgress ∧ t_Status (expire t) = TIdle) ∨
  (t_Status t ≠ InProgress ∧ expire t = t).
Proof.
  unfold expire. destruct (bool_decide_reflect (t_Status t = InProgress)); [left|right]; done.
Qed.

Lemma expire_fields t : t_Type (expire t) = t_Type t ∧ t_TaskID (expire t) = t_TaskID t ∧
  t_File (expire t) = t_File t.
Proof. unfold expire. by destruct (bool_decide _). Qed.

Lemma expire_spec c ts1 tm ts2 hd : minv (MkMstate c (ts1 ++ tm :: ts2) hd) →
  ∃ c', waitTask c tm = Done c' ∧ minv (MkMstate c' (ts1 ++ ts2) hd).
Proof.
  intros Hinv. pose proof Hinv as [(Hn & HnR & HnM & HlM & HlR) [Hm Hf] Hr Hmc Hrc Hp [Hfl Hfi]
    (Hnd & Htys & Htm & Htr) Hh]. simpl in *.
  assert (∀ x, x ∈ ts1 ++ ts2 ↔ x ∈ ts1 ++ tm :: ts2 ∧ x ≠ tm) as Hiff.
  { intros x. apply NoDup_app in Hnd as (_ & Hd & Hnd). apply NoDup_cons in Hnd as [Htm2 _].
    rewrite !elem_of_app, elem_of_cons. split; [|naive_solver].
    intros [Hx|Hx]; (split; [tauto|]); intros ->; [|done]. apply (Hd _ Hx). left. }
  assert (NoDup (ts1 ++ ts2)) as Hnd'.
  { eapply sublist_NoDup; [exact Hnd|]. apply sublist_app; [done|]. by constructor. }
  assert (∀ ty i, (ty, i) ∈ ts1 ++ ts2 → ty = MapTask ∨ ty = ReduceTask) as Htys'.
  { intros ty i [Hx _]%Hiff. by eapply Htys. }
  assert (tm ∈ ts1 ++ tm :: ts2) as Hin by (apply elem_of_app; right; left).
  destruct tm as [ty i]. destruct (Htys ty i Hin) as [-> | ->]; simpl.
  - pose proof (proj1 Htm i Hin) as Hi. destruct (idx_total (c_mapTasks c) i Hi) as [t Ht].
    rewrite Ht. simpl. apply idx_Done in Ht as [_ Ht]. set (j := Z.to_nat i) in *.
    assert (set_idx (c_mapTasks c) i (expire t) = Done (<[j := expire t]> (c_mapTasks c))) as ->
      by (by apply set_idx_Done).
    simpl. eexists. split; [done|]. replace i with (Z.of_nat j) in * by lia.
    assert (timers_ok ReduceTask (c_reduceTasks c) (ts1 ++ ts2)) as Htr'.
    { eapply timers_other; [exact Htr|]. intros i'. rewrite Hiff. naive_solver. }
    destruct (expire_cases t) as [[Hs Hs']|[Hs Heq]].
    + destruct (expire_fields t) as (? & ? & ?).
      eapply minv_map; [exact Hinv|exact Ht|congruence|congruence|done|done|done|done|done| |done].
      eapply timers_expire; [exact Htm|exact Ht|congruence|done].
    + assert (timers_ok MapTask (c_mapTasks c) (ts1 ++ ts2)) as Htm'.
      { rewrite <- (list_insert_id (c_mapTasks c) j t) by done.
        eapply timers_expire; [exact Htm|exact Ht|done|done]. }
      rewrite Heq, list_insert_id by done.
      replace (with_mapTasks c (c_mapTasks c)) with c by (by destruct c). by split.
  - pose proof (proj1 Htr i Hin) as Hi. destruct (idx_total (c_reduceTasks c) i Hi) as [t Ht].
    rewrite Ht. simpl. apply idx_Done in Ht as [_ Ht]. set (j := Z.to_nat i) in *.
    assert (set_idx (c_reduceTasks c) i (expire t) = Done (<[j := expire t]> (c_reduceTasks c))) as ->
      by (by apply set_idx_Done).
    simpl. eexists. split; [done|]. replace i with (Z.of_nat j) in * by lia.
    assert (timers_ok MapTask (c_mapTasks c) (ts1 ++ ts2)) as Htm'.
    { eapply timers_other; [exact Htm|]. intros i'. rewrite Hiff. naive_solver. }
    destruct (expire_cases t) as [[Hs Hs']|[Hs Heq]].
    + destruct (expire_fields t) as (? & ? & ?).
      eapply minv_reduce; [exact Hinv| |exact Ht|congruence|congruence|done..|].
      * intros Hst. rewrite Hst in Hp. rewrite Forall_lookup in Hp. specialize (Hp j t Ht). simpl in Hp.
        congruence.
      * eapply timers_expire; [exact Htr|exact Ht|congruence|done].
    + assert (timers_ok ReduceTask (c_reduceTasks c) (ts1 ++ ts2)) as Htr'.
      { rewrite <- (list_insert_id (c_reduceTasks c) j t) by done.
        eapply timers_expire; [exact Htr|exact Ht|done|done]. }
      rewrite Heq, list_insert_id by done.
      replace (with_reduceTasks c (c_reduceTasks c)) with c by (by destruct c). by split.
Qed.

Lemma minv_step s s' : minv s → mstep s s' → minv s'.
Proof.
  intros Hinv Hstep. destruct Hstep as [c ts hd w now c' reply o Hr|c ts hd w ty id c' Hin Hc|c ts1 tm ts2 hd c' Hw].
  - destruct (request_spec _ _ _ now w Hinv) as (c1 & r1 & o1 & Hr1 & Hinv' & _).
    rewrite Hr in Hr1. by simplify_eq.
  - destruct (mi_handed _ _ _ Hinv w ty id Hin) as [[-> Hid]|[-> Hid]].
    + destruct (complete_map _ _ _ w id Hinv Hid) as (c1 & Hc1 & ?). rewrite Hc in Hc1. by simplify_eq.
    + destruct (complete_reduce _ _ _ w id Hinv Hid) as (c1 & Hc1 & ?). rewrite Hc in Hc1. by simplify_eq.
  - destruct (expire_spec _ _ _ _ _ Hinv) as (c1 & Hc1 & ?). rewrite Hw in Hc1. by simplify_eq.
Qed.

Lemma new_reduce_lookup n i t : new_reduce_tasks n !! i = Some t →
  t = MkTask ReduceTask TIdle 0 "" (Z.of_nat i).
Proof.
  unfold new_reduce_tasks. rewrite list_lookup_fmap. intros Ht.
  destruct (seq 0 (Z.to_nat n) !! i) as [k|] eqn:E; simplify_eq/=.
  by apply lookup_seq in E as [-> _].
Qed.

Lemma all_idle_done ts : Forall (λ t, t_Status t = TIdle) ts → done_ids ts = [].
Proof.
  unfold done_ids. induction 1 as [|t ts Ht _ IH]; [done|].
  rewrite filter_cons_False; [done|]. congruence.
Qed.

Lemma timers_init ty ts : Forall (λ t, t_Status t = TIdle) ts → timers_ok ty ts [].
Proof.
  intros Hall. split; [by intros ? ?%not_elem_of_nil|]. intros i t Ht.
  rewrite Forall_lookup in Hall. rewrite (Hall i t Ht). split; [done|]. intros _. apply not_elem_of_nil.
Qed.

Lemma minv_init s : minit files nReduce s → minv s.
Proof.
  intros (Hlt & c & Hmk & ->). unfold MakeCoordinator in Hmk.
  destruct (Z.ltb_spec nReduce 0); [done|]. injection Hmk as <-.
  set (mts := imap _ files).
  assert (∀ i t, mts !! i = Some t → ∃ f, files !! i = Some f ∧
    t = MkTask MapTask TIdle 0 f (Z.of_nat i)) as Hmt.
  { intros i t. unfold mts. rewrite list_lookup_imap. destruct (files !! i); intros; simplify_eq/=. eauto. }
  assert (Forall (λ t, t_Status t = TIdle) mts) as Him.
  { apply Forall_lookup. intros i t (f & _ & ->)%Hmt. done. }
  assert (Forall (λ t, t_Status t = TIdle) (new_reduce_tasks nReduce)) as Hir.
  { apply Forall_lookup. intros i t ->%new_reduce_lookup. done. }
  split; simpl.
  - split_and!; [lia|done|done|done| |].
    + unfold zlen, mts. by rewrite length_imap.
    + unfold zlen, new_reduce_tasks. rewrite length_fmap, length_seq. lia.
  - split.
    + intros i t (f & _ & ->)%Hmt. done.
    + unfold mts. rewrite fmap_imap. apply list_eq. intros i. rewrite list_lookup_imap.
      by destruct (files !! i).
  - intros i t ->%new_reduce_lookup. done.
  - by rewrite all_idle_done.
  - by rewrite all_idle_done.
  - done.
  - split; [unfold zlen; rewrite length_replicate; lia|].
    intros r fs [-> _]%lookup_replicate. by rewrite all_idle_done.
  - split_and!; [constructor|by intros ? ? ?%not_elem_of_nil|by apply timers_init..].
  - intros ? ? ? ?%not_elem_of_nil. done.
Qed.

Lemma reachable_inv s : reachable files nReduce s → minv s.
Proof.
  intros (s0 & Hi & Hr). apply minv_init in Hi. induction Hr as [|s1 s2 s3 Hs _ IH]; [done|].
  apply IH. by eapply minv_step.
Qed.

End preservation.
End mrproof.
