(* ===== verification/MrData.v ===== *)
(** * What a MapReduce job computes

    The files the map tasks leave, the files a reduce task reads, and the lines
    written by the distributed and by the sequential version, all compared with
    one specification: a line per key, with the reduction of its values. *)

From Stdlib Require Import Ascii String.
From S2P Require Import Prelude GoStrings Json Mr.

Module mrdata.
Import gostrings mr mrsequential.

Notation len := List.length.

(** ** The specification *)

Definition values (k : string) (l : list KeyValue) : list string :=
  kv_Value <$> filter (λ kv, kv_Key kv = k) l.

Definition keys (l : list KeyValue) : gset string := list_to_set (kv_Key <$> l).

Definition spec_lines (reducef : reducef_t) (l : list KeyValue) : list string :=
  (λ k, out_line k (reducef k (values k l))) <$> elements (keys l).

(** The reduction does not depend on the order of the values. *)
Definition order_free (reducef : reducef_t) : Prop :=
  ∀ k vs vs', vs ≡ₚ vs' → reducef k vs = reducef k vs'.

Lemma elem_of_keys k l : k ∈ keys l ↔ ∃ kv, kv ∈ l ∧ kv_Key kv = k.
Proof.
  unfold keys. rewrite elem_of_list_to_set, list_elem_of_fmap. naive_solver.
Qed.

Lemma values_app k l1 l2 : values k (l1 ++ l2) = values k l1 ++ values k l2.
Proof. unfold values. by rewrite filter_app, fmap_app. Qed.

Lemma values_nil k l : k ∉ keys l → values k l = [].
Proof.
  intros Hk. unfold values. rewrite filter_none; [done|].
  intros kv Hin Heq. apply Hk, elem_of_keys. eauto.
Qed.

Lemma values_perm k l l' : l ≡ₚ l' → values k l ≡ₚ values k l'.
Proof. intros Hp. unfold values. by rewrite Hp. Qed.

Lemma spec_lines_perm reducef l l' : order_free reducef → l ≡ₚ l' →
  spec_lines reducef l = spec_lines reducef l'.
Proof.
  intros Hof Hp. unfold spec_lines. assert (keys l = keys l') as ->.
  { apply set_eq. intros k. rewrite !elem_of_keys. by setoid_rewrite Hp. }
  apply list_fmap_ext. intros i k _. f_equal. apply Hof. by apply values_perm.
Qed.

Lemma keys_app l1 l2 : keys (l1 ++ l2) = keys l1 ∪ keys l2.
Proof. unfold keys. by rewrite fmap_app, list_to_set_app_L. Qed.

Lemma spec_lines_app reducef l1 l2 : keys l1 ## keys l2 →
  spec_lines reducef (l1 ++ l2) ≡ₚ spec_lines reducef l1 ++ spec_lines reducef l2.
Proof.
  intros Hd. unfold spec_lines. rewrite keys_app, elements_disj_union, fmap_app by done.
  apply Permutation_app.
  - apply reflexive_eq, list_fmap_ext. intros i k Hk.
    apply list_elem_of_lookup_2, elem_of_elements in Hk.
    rewrite values_app, (values_nil k l2), app_nil_r by set_solver. done.
  - apply reflexive_eq, list_fmap_ext. intros i k Hk.
    apply list_elem_of_lookup_2, elem_of_elements in Hk.
    rewrite values_app, (values_nil k l1) by set_solver. done.
Qed.

(** ** The distributed reduce *)

Lemma collect_spec m l k :
  collect m l !! k = if decide (values k l = []) then m !! k
                     else Some (default [] (m !! k) ++ values k l).
Proof.
  revert m. induction l as [|kv l IH]; intros m; simpl; [done|]. rewrite IH.
  destruct (decide (kv_Key kv = k)) as [<-|Hk].
  - assert (values (kv_Key kv) (kv :: l) = kv_Value kv :: values (kv_Key kv) l) as ->
      by (unfold values; by rewrite filter_cons_True).
    rewrite lookup_insert_eq, (decide_False (P := _ :: _ = [])) by done. case_decide as Hv; simpl.
    + by rewrite Hv.
    + by rewrite <- app_assoc.
  - assert (values k (kv :: l) = values k l) as -> by (unfold values; by rewrite filter_cons_False).
    by rewrite !lookup_insert_ne by done.
Qed.

Lemma collect_lines `{RangeOrder} reducef l :
  reduce_lines reducef (collect ∅ l) ≡ₚ spec_lines reducef l.
Proof.
  unfold reduce_lines. rewrite range_perm.
  assert (map_to_list (collect ∅ l) ≡ₚ (λ k, (k, values k l)) <$> elements (keys l)) as ->.
  { apply NoDup_Permutation.
    - apply NoDup_map_to_list.
    - apply NoDup_fmap_2_strong; [naive_solver|apply NoDup_elements].
    - intros [k vs]. rewrite elem_of_map_to_list, collect_spec, lookup_empty, list_elem_of_fmap.
      assert (values k l = [] ↔ k ∉ keys l) as Hnil.
      { split; [|apply values_nil]. intros Hv Hk. apply elem_of_keys in Hk as (kv & Hin & Hkey).
        assert (kv_Value kv ∈ values k l) as Hx; [|rewrite Hv in Hx; by apply not_elem_of_nil in Hx].
        apply list_elem_of_fmap_2, list_elem_of_filter. done. }
      case_decide as Hv; simpl; split.
      + done.
      + intros (k' & Heq & Hk). simplify_eq. rewrite elem_of_elements in Hk. by apply Hnil in Hk.
      + intros [= <-]. exists k. split; [done|]. apply elem_of_elements.
        rewrite Hnil in Hv. by apply dec_stable.
      + intros (k' & Heq & Hk). by simplify_eq. }
  rewrite <- list_fmap_compose. done.
Qed.

(** ** The sequential reduce *)

Definition key_sorted (l : list KeyValue) : Prop :=
  ∀ i j a b, i ≤ j → l !! i = Some a → l !! j = Some b → String.le (kv_Key a) (kv_Key b).

Lemma key_sorted_tail a l : key_sorted (a :: l) → key_sorted l.
Proof. intros H i j x y Hij Hx Hy. apply (H (S i) (S j)); [lia|done..]. Qed.

(** In a sorted list the entries of the first key come first. *)
Lemma take_key_spec a l vs rest : key_sorted (a :: l) → take_key (kv_Key a) l = (vs, rest) →
  vs = values (kv_Key a) l ∧ rest = filter (λ kv, kv_Key kv ≠ kv_Key a) l ∧ key_sorted rest ∧
  len rest ≤ len l.
Proof.
  revert vs rest. induction l as [|b l IH]; intros vs rest Hs Ht; simpl in Ht.
  - simplify_eq. by split_and!.
  - destruct (String.eqb_spec (kv_Key b) (kv_Key a)) as [Heq|Hne].
    + destruct (take_key (kv_Key a) l) as [vs' rest'] eqn:E. simplify_eq.
      destruct (IH vs' rest) as (-> & -> & Hs' & Hl); [|done|].
      { intros i j x y Hij Hx Hy. destruct i as [|i], j as [|j]; simplify_eq/=.
        - rewrite <- Heq. apply (Hs 1 1 b b); [lia|done..].
        - apply (Hs 0 (S (S j))); [lia|done..].
        - lia.
        - apply (Hs (S (S i)) (S (S j))); [lia|done..]. }
      unfold values. rewrite (filter_cons_True (λ kv, kv_Key kv = kv_Key a)) by done.
      rewrite (filter_cons_False (λ kv, kv_Key kv ≠ kv_Key a)) by naive_solver.
      split_and!; [done..|simpl; lia].
    + simplify_eq. assert (∀ x, x ∈ b :: l → kv_Key x ≠ kv_Key a) as Hall.
      { intros x [j Hj]%list_elem_of_lookup Hx. apply Hne, (anti_symm String.le).
        - rewrite <- Hx. apply (Hs 1 (S j) b x); [lia|done..].
        - apply (Hs 0 1 a b); [lia|done..]. }
      split_and!; [| |by eapply key_sorted_tail|done].
      * symmetry. apply values_nil. intros (kv & Hin & Hk)%elem_of_keys. by apply (Hall kv).
      * symmetry. by apply filter_every.
Qed.

Lemma reduce_runs_spec reducef fuel l : key_sorted l → len l ≤ fuel →
  reduce_runs fuel reducef l ≡ₚ spec_lines reducef l.
Proof.
  revert l. induction fuel as [|fuel IH]; intros [|a l] Hs Hf; simpl in Hf; [done|lia|done|].
  simpl. destruct (take_key (kv_Key a) l) as [vs rest] eqn:E.
  destruct (take_key_spec _ _ _ _ Hs E) as (-> & Hrest & Hs' & Hl).
  rewrite (IH rest) by (done || lia). unfold spec_lines at 2.
  assert (kv_Key a ∉ keys rest) as Ha.
  { intros (kv & Hin & Hk)%elem_of_keys. rewrite Hrest in Hin.
    by apply list_elem_of_filter in Hin as [? _]. }
  assert (keys (a :: l) = {[kv_Key a]} ∪ keys rest) as ->.
  { apply set_eq. intros k. rewrite elem_of_union, elem_of_singleton, !elem_of_keys, Hrest.
    setoid_rewrite list_elem_of_filter. setoid_rewrite elem_of_cons.
    destruct (decide (k = kv_Key a)); naive_solver. }
  rewrite elements_union_singleton by done. rewrite fmap_cons. f_equiv.
  - unfold values. by rewrite filter_cons_True.
  - apply reflexive_eq, list_fmap_ext. intros i k Hk.
    apply list_elem_of_lookup_2, elem_of_elements in Hk.
    assert (k ≠ kv_Key a) as Hne by (by intros ->). unfold values.
    rewrite filter_cons_False by congruence. rewrite Hrest, list_filter_filter.
    do 3 f_equal. apply list_filter_iff. naive_solver.
Qed.

(** ** The map side *)

(** The pairs of [kva] that go to reduce task [r] of [n]. *)
Definition part (n : Z) (r : nat) (kva : list KeyValue) : list KeyValue :=
  filter (λ kv, Z.rem (ihash (kv_Key kv)) n = Z.of_nat r) kva.

(** What is read back of a pair. *)
Definition utf8_kv (kv : KeyValue) : KeyValue :=
  MkKeyValue (utf8.coerce (kv_Key kv)) (utf8.coerce (kv_Value kv)).

Lemma json_kv_spec kv : json_kv kv = [utf8_kv kv].
Proof. unfold json_kv, Decode, Encode. by rewrite json.parse_print. Qed.

(** What reduce task [r] reads of them. *)
Definition written (n : Z) (r : nat) (kva : list KeyValue) : list KeyValue := utf8_kv <$> part n r kva.

Definition valid_kv (kv : KeyValue) : Prop :=
  utf8.ValidString (kv_Key kv) = true ∧ utf8.ValidString (kv_Value kv) = true.

#[export] Instance valid_kv_dec kv : Decision (valid_kv kv).
Proof. unfold valid_kv. apply _. Defined.

Lemma written_valid n r kva : Forall valid_kv kva → written n r kva = part n r kva.
Proof.
  unfold written, part. induction 1 as [|[k v] kva [Hk Hv] _ IH]; [done|]. rewrite filter_cons.
  case_decide; [|done]. rewrite fmap_cons, IH. unfold utf8_kv. simpl in *. by rewrite !utf8.coerce_valid.
Qed.

Lemma ihash_bounds k : (0 ≤ ihash k < 2 ^ 31)%Z.
Proof.
  unfold ihash. change 0x7fffffff%Z with (Z.ones 31). rewrite Z.land_ones by lia.
  apply Z.mod_pos_bound. lia.
Qed.

Lemma reduce_id_bounds k n : (0 < n)%Z → (0 ≤ Z.rem (ihash k) n < n)%Z.
Proof. intros Hn. pose proof (ihash_bounds k). apply Z.rem_bound_pos; lia. Qed.

Lemma encode_all_spec bufs n kva : (0 < n)%Z → zlen bufs = n →
  ∃ bufs', encode_all bufs n kva = Done bufs' ∧ zlen bufs' = n ∧
    ∀ r buf, bufs !! r = Some buf → bufs' !! r = Some (buf ++ written n r kva).
Proof.
  intros Hn. revert bufs. induction kva as [|kv kva IH]; intros bufs Hlen; simpl.
  - exists bufs. split_and!; [done..|]. intros r buf Hr. unfold written, part. simpl. by rewrite app_nil_r.
  - destruct (Z.eqb_spec n 0); [lia|]. pose proof (reduce_id_bounds (kv_Key kv) n Hn) as Hid.
    set (id := Z.rem (ihash (kv_Key kv)) n) in *.
    destruct (idx_total bufs id) as [buf0 Hb0]; [lia|]. rewrite Hb0. simpl.
    rewrite json_kv_spec.
    assert (set_idx bufs id (buf0 ++ [utf8_kv kv]) = Done (<[Z.to_nat id := buf0 ++ [utf8_kv kv]]> bufs)) as ->.
    { apply set_idx_Done. split; [lia|done]. }
    simpl. destruct (IH (<[Z.to_nat id := buf0 ++ [utf8_kv kv]]> bufs)) as (bufs' & -> & Hl & Hb);
      [by rewrite zlen_insert|].
    exists bufs'. split_and!; [done..|]. intros r buf Hr. unfold written, part in *.
    apply idx_Done in Hb0 as [_ Hb0]. destruct (decide (r = Z.to_nat id)) as [->|Hne].
    + rewrite filter_cons_True by (unfold id in *; lia).
      rewrite (Hb _ (buf0 ++ [utf8_kv kv])); [simplify_eq; by rewrite <- app_assoc|].
      apply list_lookup_insert_eq. by eapply lookup_lt_Some.
    + rewrite filter_cons_False by (unfold id in *; lia). apply Hb.
      by rewrite list_lookup_insert_ne.
Qed.

Lemma Split_mr_file m r : (0 ≤ m)%Z → (0 ≤ r)%Z →
  Split "-"%char (mr_file m r) = ["temp/mr"%string; Itoa m; Itoa r].
Proof.
  intros Hm Hr.
  change (mr_file m r) with ("temp/mr" +:+ String "-"%char (Itoa m +:+ String "-"%char (Itoa r))).
  rewrite Split_cons by (simpl; by repeat split). rewrite Split_cons by (by apply Itoa_no_dash).
  by rewrite Split_no_char by (by apply Itoa_no_dash).
Qed.

Lemma mr_file_inj m r m' r' : (0 ≤ m)%Z → (0 ≤ r)%Z → (0 ≤ m')%Z → (0 ≤ r')%Z →
  mr_file m r = mr_file m' r' → m = m' ∧ r = r'.
Proof.
  intros Hm Hr Hm' Hr' Heq. apply (f_equal (Split "-"%char)) in Heq.
  rewrite !Split_mr_file in Heq by done. injection Heq as H1 H2.
  split; by apply Itoa_inj.
Qed.

Lemma rename_all_spec fs m i bufs : (0 ≤ m)%Z → (0 ≤ i)%Z →
  (∀ r, r < len bufs → fs_mr (rename_all fs m i bufs) !! mr_file m (i + Z.of_nat r) = bufs !! r) ∧
  (∀ name, (∀ r, r < len bufs → name ≠ mr_file m (i + Z.of_nat r)) →
     fs_mr (rename_all fs m i bufs) !! name = fs_mr fs !! name).
Proof.
  intros Hm. revert fs i. induction bufs as [|b bufs IH]; intros fs i Hi; simpl; [split; [lia|done]|].
  destruct (IH (MkFiles (<[mr_file m i := b]> (fs_mr fs)) (fs_out fs)) (i + 1)%Z) as [H1 H2]; [lia|].
  split.
  - intros [|r] Hr.
    + rewrite Z.add_0_r, H2; [cbn [fs_mr]; by rewrite lookup_insert_eq|].
      intros r' Hr' Heq. apply mr_file_inj in Heq as [_ ?]; lia.
    + replace (i + Z.of_nat (S r))%Z with (i + 1 + Z.of_nat r)%Z by lia. simpl. apply H1. lia.
  - intros name Hn. rewrite H2.
    + simpl. apply lookup_insert_ne. intros <-. apply (Hn 0); [lia|]. by rewrite Z.add_0_r.
    + intros r Hr. replace (i + 1 + Z.of_nat r)%Z with (i + Z.of_nat (S r))%Z by lia. apply Hn. lia.
Qed.

(** ** Globbing *)

Lemma ends_with_spec suffix s : ends_with suffix s = true ↔ ∃ p, s = p +:+ suffix.
Proof.
  induction s as [|c s IH]; simpl; rewrite orb_true_iff, String.eqb_eq.
  - split; [intros [->|?]; [by exists ""|done]|]. intros [[|] Hp]; [by left|done].
  - rewrite IH. split.
    + intros [->|[p ->]]; [by exists ""|by exists (String c p)].
    + intros [[|d p] Hp]; simpl in Hp; [by left|]. injection Hp as -> ->. right. by exists p.
Qed.

Lemma last_part p q a b : no_char "-"%char a → no_char "-"%char b →
  p +:+ String "-"%char a = q +:+ String "-"%char b → a = b.
Proof.
  intros Ha Hb. revert q. induction p as [|c p IH]; intros [|d q] Heq; simpl in Heq.
  - by injection Heq.
  - injection Heq as <- Heq. rewrite Heq in Ha. apply no_char_app in Ha as [_ [? _]]. done.
  - injection Heq as -> Heq. rewrite <- Heq in Hb. apply no_char_app in Hb as [_ [? _]]. done.
  - injection Heq as -> Heq. by eapply IH.
Qed.

Lemma has_char_no c s : no_char c s → has_char c s = false.
Proof.
  induction s as [|d s IH]; simpl; [done|]. intros [Hd Hs].
  destruct (Ascii.eqb_spec d c); [done|]. by apply IH.
Qed.

Lemma glob_match_mr_file m r r' : (0 ≤ m)%Z → (0 ≤ r)%Z → (0 ≤ r')%Z →
  glob_match r (mr_file m r') = true ↔ r = r'.
Proof.
  intros Hm Hr Hr'. unfold glob_match.
  change (strip_prefix _ _) with (Some (Itoa m +:+ String "-"%char (Itoa r'))). cbv iota beta.
  rewrite has_char_no; [simpl; rewrite andb_true_r|].
  - rewrite ends_with_spec. split.
    + intros [p Hp]. apply Itoa_inj. symmetry. by eapply last_part; [apply Itoa_no_dash..|].
    + intros ->. by exists (Itoa m).
  - apply no_char_app. split; [by apply Itoa_no_slash|]. split; [done|by apply Itoa_no_slash].
Qed.

(** ** A whole job *)

Section job.
Context (mapf : mapf_t) (input : gmap string string) (names : list string) (n : Z).
Context (Hn : (0 < n)%Z) (Hin : ∀ f, f ∈ names → is_Some (input !! f)).

(** The pairs the map task [m] produces. *)
Definition kva (m : nat) : list KeyValue :=
  match names !! m ≫= λ f, (λ c, mapf f c) <$> input !! f with Some l => l | None => [] end.

(** The reply a worker gets for map task [m]. *)
Definition map_reply (m : nat) : TaskResponse :=
  MkTaskResponse MapTask (Z.of_nat m) (default "" (names !! m)) [] n.

(** Map tasks executed one after the other; a task may be executed again by
    another worker. *)
Fixpoint run_maps (fs : files) (ms : list nat) : outcome files :=
  match ms with
  | [] => Done fs
  | m :: ms' => let! fs' := performMap mapf input fs (map_reply m) in run_maps fs' ms'
  end.

(** The store holds the output of the map tasks in [X] and nothing else. *)
Definition store_ok (X : gset nat) (fs : files) : Prop :=
  (∀ m r, m ∈ X → r < Z.to_nat n →
     fs_mr fs !! mr_file (Z.of_nat m) (Z.of_nat r) = Some (written n r (kva m))) ∧
  (∀ name c, fs_mr fs !! name = Some c →
     ∃ m r, m ∈ X ∧ r < Z.to_nat n ∧ name = mr_file (Z.of_nat m) (Z.of_nat r)).

Lemma performMap_spec X fs m : store_ok X fs → m < len names →
  ∃ fs', performMap mapf input fs (map_reply m) = Done fs' ∧ store_ok ({[m]} ∪ X) fs'.
Proof.
  intros [Hs1 Hs2] Hm. destruct (lookup_lt_is_Some_2 names m Hm) as [f Hf].
  destruct (Hin f) as [c Hc]; [by eapply list_elem_of_lookup_2|].
  unfold performMap, map_reply. rewrite Hf. simpl. rewrite Hc.
  assert (kva m = mapf f c) as Hk by (unfold kva; by rewrite Hf; simpl; rewrite Hc).
  unfold writeMapOutput. destruct (Z.ltb_spec n 0); [lia|].
  destruct (encode_all_spec (replicate (Z.to_nat n) []) n (mapf f c) Hn) as (bufs & -> & Hl & Hb).
  { unfold zlen. rewrite length_replicate. lia. }
  simpl. eexists. split; [done|].
  destruct (rename_all_spec fs (Z.of_nat m) 0 bufs) as [R1 R2]; [lia..|].
  assert (len bufs = Z.to_nat n) as Hlb by (unfold zlen in Hl; lia).
  assert (∀ r, r < Z.to_nat n → bufs !! r = Some (written n r (kva m))) as Hbr.
  { intros r Hr. rewrite (Hb r []); [by rewrite Hk|]. by apply lookup_replicate_2. }
  split.
  - intros m' r Hm' Hr. destruct (decide (m' = m)) as [->|Hne].
    + specialize (R1 r). rewrite Z.add_0_l in R1. rewrite R1 by lia. by apply Hbr.
    + rewrite R2; [apply Hs1; [set_solver|done]|].
      intros r' _ Heq. apply mr_file_inj in Heq as [? _]; lia.
  - intros name c' Hc'. destruct (decide (Exists (λ r, name = mr_file (Z.of_nat m) (Z.of_nat r)) (seq 0 (Z.to_nat n))))
      as [(r & Hr%elem_of_seq & ->)%Exists_exists|Hno].
    + exists m, r. split_and!; [set_solver|lia|done].
    + rewrite R2 in Hc'.
      * destruct (Hs2 _ _ Hc') as (m' & r & ? & ? & ->). exists m', r. split_and!; [set_solver|done..].
      * intros r Hr ->. apply Hno, Exists_exists. exists r. rewrite Z.add_0_l.
        split; [apply elem_of_seq; lia|done].
Qed.

Lemma run_maps_spec ms X fs : store_ok X fs → Forall (λ m, m < len names) ms →
  ∃ fs', run_maps fs ms = Done fs' ∧ store_ok (list_to_set ms ∪ X) fs'.
Proof.
  revert X fs. induction ms as [|m ms IH]; intros X fs Hs Hms.
  - exists fs. split; [done|]. by rewrite list_to_set_nil, (left_id_L ∅ (∪)).
  - apply Forall_cons in Hms as [Hm Hms]. destruct (performMap_spec X fs m Hs Hm) as (fs1 & Hp & Hs1).
    destruct (IH _ _ Hs1 Hms) as (fs' & Hr & Hs'). exists fs'.
    cbn [run_maps]. rewrite Hp. simpl. split; [done|].
    by rewrite (assoc_L (∪)), (comm_L (∪) (list_to_set ms)) in Hs'.
Qed.

(** All pairs of the job. *)
Definition all_pairs : list KeyValue := mjoin (kva <$> seq 0 (len names)).

Lemma read_glob fs r : store_ok (set_seq 0 (len names)) fs → r < Z.to_nat n →
  read_all fs (Glob fs (Z.of_nat r)) ≡ₚ written n r all_pairs.
Proof.
  intros [Hs1 Hs2] Hr.
  assert (Glob fs (Z.of_nat r) ≡ₚ (λ m, mr_file (Z.of_nat m) (Z.of_nat r)) <$> seq 0 (len names)) as Hg.
  { unfold Glob. rewrite sort_Strings_perm. apply NoDup_Permutation.
    - apply NoDup_filter, NoDup_fst_map_to_list.
    - apply NoDup_fmap_2_strong; [|apply NoDup_seq].
      intros m m' _ _ Heq. apply mr_file_inj in Heq as [? _]; lia.
    - intros name. rewrite list_elem_of_filter, !list_elem_of_fmap. split.
      + intros [Hm ([name' c] & -> & Hc%elem_of_map_to_list)]. simpl in *.
        destruct (Hs2 _ _ Hc) as (m & r' & Hm'%elem_of_set_seq & Hr' & ->).
        apply glob_match_mr_file in Hm; [|lia..]. exists m. split; [by rewrite Hm|].
        apply elem_of_seq. lia.
      + intros (m & -> & Hm%elem_of_seq). split; [by apply glob_match_mr_file; lia|].
        exists (mr_file (Z.of_nat m) (Z.of_nat r), written n r (kva m)). split; [done|].
        apply elem_of_map_to_list, Hs1; [apply elem_of_set_seq; lia|done]. }
  unfold read_all. rewrite Hg, <- list_fmap_compose.
  assert ((λ name, default [] (fs_mr fs !! name)) ∘ (λ m : nat, mr_file (Z.of_nat m) (Z.of_nat r))
    <$> seq 0 (len names) = (λ m, written n r (kva m)) <$> seq 0 (len names)) as ->.
  { apply list_fmap_ext. intros i m Hm%list_elem_of_lookup_2%elem_of_seq. simpl.
    rewrite Hs1; [done|apply elem_of_set_seq; lia|done]. }
  apply reflexive_eq. unfold all_pairs. generalize (seq 0 (len names)) as l. intros l.
  induction l as [|m l IH]; [done|]. rewrite !fmap_cons, !mjoin_cons, IH.
  unfold written, part. by rewrite filter_app, fmap_app.
Qed.

(** The map function gives valid UTF-8 on the inputs of the job. *)
Definition utf8_maps : Prop :=
  ∀ f content, f ∈ names → input !! f = Some content → Forall valid_kv (mapf f content).

Lemma all_pairs_valid : utf8_maps → Forall valid_kv all_pairs.
Proof.
  intros Hu. unfold all_pairs. apply Forall_forall. intros kv (l & Hkv & Hl)%list_elem_of_join.
  apply list_elem_of_fmap in Hl as (m & -> & _). unfold kva in Hkv.
  destruct (names !! m) as [f|] eqn:Hf; simpl in Hkv; [|by apply not_elem_of_nil in Hkv].
  destruct (input !! f) as [c|] eqn:Hc; simpl in Hkv; [|by apply not_elem_of_nil in Hkv].
  specialize (Hu f c (list_elem_of_lookup_2 _ _ _ Hf) Hc). rewrite Forall_forall in Hu. by apply Hu.
Qed.

(** The lines of all reduce tasks are the lines of the whole. *)
Lemma parts_lines reducef l : order_free reducef →
  mjoin ((λ r, spec_lines reducef (part n r l)) <$> seq 0 (Z.to_nat n)) ≡ₚ spec_lines reducef l.
Proof.
  intros Hof.
  assert (∀ k, mjoin ((λ r, spec_lines reducef (part n r l)) <$> seq 0 k) ≡ₚ
    spec_lines reducef (filter (λ kv, (Z.rem (ihash (kv_Key kv)) n < Z.of_nat k)%Z) l)) as Hk.
  { induction k as [|k IH].
    - rewrite filter_none; [done|]. intros kv _. pose proof (reduce_id_bounds (kv_Key kv) n Hn). lia.
    - rewrite seq_S, fmap_app, fmap_cons, fmap_nil, mjoin_snoc, IH. simpl.
      rewrite <- spec_lines_app.
      + apply reflexive_eq, spec_lines_perm; [done|]. unfold part. clear. induction l as [|kv l IH]; [done|].
        rewrite !filter_cons. destruct (decide (Z.rem _ n = Z.of_nat k)) as [He|He].
        * rewrite (decide_False (P := (_ < Z.of_nat k)%Z)) by lia. rewrite decide_True by lia.
          by rewrite <- Permutation_middle, IH.
        * destruct (decide (Z.rem (ihash (kv_Key kv)) n < Z.of_nat k)%Z).
          -- rewrite decide_True by lia. simpl. by rewrite IH.
          -- rewrite decide_False by lia. by rewrite IH.
      + intros x Hx Hy. apply elem_of_keys in Hx as (a & [Ha _]%list_elem_of_filter & <-).
        apply elem_of_keys in Hy as (b & [Hb _]%list_elem_of_filter & Heq). rewrite Heq in Hb. lia. }
  rewrite Hk. apply reflexive_eq. rewrite filter_every; [done|]. intros kv _.
  pose proof (reduce_id_bounds (kv_Key kv) n Hn). lia.
Qed.

Lemma map_all_spec : ∀ l, (∀ f, f ∈ l → is_Some (input !! f)) →
  map_all mapf input l =
  Done (mjoin ((λ f, match input !! f with Some c => mapf f c | None => [] end) <$> l)).
Proof.
  induction l as [|f l IH]; intros Hl; [done|]. cbn [map_all]. rewrite fmap_cons, mjoin_cons.
  destruct (Hl f) as [c Hc]; [by left|]. rewrite Hc.
  rewrite IH by (intros g Hg; apply Hl; by right). done.
Qed.

Lemma map_all_pairs : map_all mapf input names = Done all_pairs.
Proof.
  rewrite map_all_spec by done. f_equal. unfold all_pairs. f_equal.
  apply list_eq. intros i. rewrite !list_lookup_fmap.
  destruct (names !! i) as [f|] eqn:Hf.
  - pose proof (lookup_lt_Some _ _ _ Hf). rewrite lookup_seq_lt by done. simpl. unfold kva.
    rewrite Hf. simpl. by destruct (input !! f).
  - apply lookup_ge_None in Hf. by rewrite lookup_seq_ge.
Qed.

Lemma main_lines_spec `{KeySorter} reducef : order_free reducef →
  ∃ lines, main_lines mapf reducef input names = Done lines ∧ lines ≡ₚ spec_lines reducef all_pairs.
Proof.
  intros Hof. unfold main_lines. rewrite map_all_pairs. simpl. eexists. split; [done|].
  rewrite reduce_runs_spec; [|exact (sort_by_key_sorted all_pairs)|done].
  apply reflexive_eq, spec_lines_perm; [done|]. apply sort_by_key_perm.
Qed.

Lemma job_lines `{RangeOrder} reducef fs : order_free reducef → utf8_maps →
  store_ok (set_seq 0 (len names)) fs →
  mjoin ((λ r, task_lines reducef fs (Z.of_nat r)) <$> seq 0 (Z.to_nat n))
    ≡ₚ spec_lines reducef all_pairs.
Proof.
  intros Hof Hu Hs. rewrite <- (parts_lines reducef all_pairs Hof).
  assert (∀ l, (∀ r, r ∈ l → r < Z.to_nat n) →
    mjoin ((λ r, task_lines reducef fs (Z.of_nat r)) <$> l) ≡ₚ
    mjoin ((λ r, spec_lines reducef (part n r all_pairs)) <$> l)) as Hl; [|apply Hl].
  - induction l as [|r l IH]; intros Hr; [done|]. rewrite !fmap_cons, !mjoin_cons.
    rewrite IH by (intros r' Hr'; apply Hr; by right). f_equiv. unfold task_lines.
    rewrite collect_lines. apply reflexive_eq, spec_lines_perm; [done|].
    rewrite <- written_valid by (by apply all_pairs_valid). apply read_glob; [done|]. apply Hr. left.
  - intros r Hr%elem_of_seq. lia.
Qed.

End job.
End mrdata.
