(* ===== verification/MrApps.v ===== *)
(** * mrapps: the MapReduce applications

    The map and reduce functions of the plugins.  Texts are ASCII, so a rune is
    a byte; a plugin that may end the process returns an [outcome].  What
    mtiming.go and rtiming.go do with [nparallel] is in MrTiming.v. *)

From Stdlib Require Import Ascii.
From S2P Require Import Prelude GoStrings Mr.

(** [unicode.IsLetter] on ASCII. *)
Definition IsLetter (c : ascii) : bool :=
  let n := N_of_ascii c in
  ((65 <=? n)%N && (n <=? 90)%N) || ((97 <=? n)%N && (n <=? 122)%N).

(** [len(s)] *)
Definition strlen (s : string) : Z := Z.of_nat (String.length s).

Module wc.
Import gostrings mr.

Definition Map (filename contents : string) : list KeyValue :=
  let ff r := negb (IsLetter r) in
  let words := FieldsFunc ff contents in
  (λ w, MkKeyValue w "1") <$> words.

Definition Reduce (key : string) (vals : list string) : string := Itoa (zlen vals).

End wc.

Module indexer.
Import gostrings mr.

(** The words are the keys of a map, visited in an unspecified order. *)
Definition Map `{RangeOrder} (document value : string) : list KeyValue :=
  let words := FieldsFunc (λ x, negb (IsLetter x)) value in
  let m : gset string := list_to_set words in
  (λ w, MkKeyValue w document) <$> range_order (elements m).

Definition Reduce (key : string) (vals : list string) : string :=
  let sorted := sort_Strings vals in
  Itoa (zlen sorted) +:+ " " +:+ Join sorted ",".

End indexer.

Module crash.
Import gostrings mr.

(** [rr] is the random number below 1000; a sleep does not show. *)
Definition maybeCrash (rr : Z) : outcome unit :=
  if (rr <? 330)%Z then Fatal "os.Exit(1)" else Done tt.

Definition Map (rr : Z) (filename contents : string) : outcome (list KeyValue) :=
  let! _u := maybeCrash rr in
  Done [MkKeyValue "a" filename; MkKeyValue "b" (Itoa (strlen filename));
        MkKeyValue "c" (Itoa (strlen contents)); MkKeyValue "d" "xyzzy"].

Definition Reduce (rr : Z) (key : string) (vals : list string) : outcome string :=
  let! _u := maybeCrash rr in
  Done (Join (sort_Strings vals) " ").

End crash.

Module nocrash.
Import gostrings mr.

(** [if false && ...]: never exits. *)
Definition maybeCrash (rr : Z) : outcome unit :=
  if false && (rr <? 500)%Z then Fatal "os.Exit(1)" else Done tt.

Definition Map (rr : Z) (filename contents : string) : outcome (list KeyValue) :=
  let! _u := maybeCrash rr in
  Done [MkKeyValue "a" filename; MkKeyValue "b" (Itoa (strlen filename));
        MkKeyValue "c" (Itoa (strlen contents)); MkKeyValue "d" "xyzzy"].

Definition Reduce (rr : Z) (key : string) (vals : list string) : outcome string :=
  let! _u := maybeCrash rr in
  Done (Join (sort_Strings vals) " ").

End nocrash.

Module early_exit.
Import gostrings mr.

Definition Map (filename contents : string) : list KeyValue := [MkKeyValue filename "1"].

(** Some keys sleep first, which does not show. *)
Definition Reduce (key : string) (vals : list string) : string := Itoa (zlen vals).

End early_exit.

Module jobcount.
Import gostrings mr.

(** The names of the working directory and the plugin's [count]. *)
Record env := MkEnv { ev_dir : gset string; ev_count : Z }.

Definition Map (me : Z) (e : env) (filename contents : string) : env * list KeyValue :=
  let f := "mr-worker-jobcount-" +:+ Itoa me +:+ "-" +:+ Itoa (ev_count e) in
  (MkEnv ({[f]} ∪ ev_dir e) (ev_count e + 1), [MkKeyValue "a" "x"]).

Definition HasPrefix (s p : string) : bool :=
  match strip_prefix p s with Some _ => true | None => false end.

Definition Reduce (e : env) (key : string) (vals : list string) : string :=
  Itoa (zlen (filter (λ f, HasPrefix f "mr-worker-jobcount" = true) (elements (ev_dir e)))).

End jobcount.

Module rtiming.
Import mr.

Definition Map (filename contents : string) : list KeyValue :=
  [MkKeyValue "a" "1"; MkKeyValue "b" "1"; MkKeyValue "c" "1"; MkKeyValue "d" "1";
   MkKeyValue "e" "1"; MkKeyValue "f" "1"; MkKeyValue "g" "1"; MkKeyValue "h" "1";
   MkKeyValue "i" "1"; MkKeyValue "j" "1"].

End rtiming.

Module mtiming.
Import gostrings.

Definition Reduce (key : string) (vals : list string) : string := Join (sort_Strings vals) " ".

End mtiming.
