(* ===== verification/MrTheorems.v ===== *)
(** * Theorems about MapReduce

    The coordinator under any interleaving of requests, reports and timeouts,
    and the output of a job compared with the sequential program. *)

From Stdlib Require Import Ascii.
From S2P Require Import Prelude GoStrings Json Mr MrFacts MrData MrApps.

Import gostrings mr mrsequential mrproof mrdata.

(** ** Phases only advance *)

Lemma exist_done files nReduce s : minv files nReduce s → c_status (ms_c s) = ExistPhase →
  Done_ (ms_c s) = true.
Proof.
  intros [(_ & HnR & HnM & HlM & HlR) [Hm _] Hr Hmc Hrc Hp _ _ _] Hs. unfold Done_.
  rewrite bool_decide_eq_true_2 by done. rewrite Hs in Hp. destruct Hp as [Hpm Hpr].
  rewrite Hmc, Hrc, (done_ids_all _ _ Hm Hpm), (done_ids_all _ _ Hr Hpr).
  unfold zlen in *. rewrite !length_fmap, !length_seq. apply andb_true_iff.
  split; apply Z.eqb_eq; lia.
Qed.

Lemma status_touch c now w : c_status (touch_worker c now w) = c_status c.
Proof. done. Qed.

Lemma status_step s s' : mstep s s' → c_status (ms_c s) = ExistPhase → c_status (ms_c s') = ExistPhase.
Proof.
  intros Hstep Hs. destruct Hstep as [c ts hd w now c' reply o Hr|c ts hd w ty id c' Hin Hc|c ts1 tm ts2 hd c' Hw];
    simpl in *.
  - unfold RequestTask in Hr.
    assert (c_status (update_phase (touch_worker c now (rq_WorkerID (requestTask w)))) = ExistPhase) as Hu.
    { unfold update_phase. rewrite status_touch, Hs. exact Hs. }
    rewrite Hu in Hr. go_inv. done.
  - unfold NotifyTaskCompletion in Hc. destruct (cp_TaskType _); go_inv; done.
  - unfold waitTask in Hw. destruct tm as [[] i]; go_inv; done.
Qed.

(** When [Done] answers [true], every map and every reduce task is
    completed, and [Done] keeps answering [true] whatever happens next. *)
Theorem mr_done_means_done files nReduce s :
  reachable files nReduce s → Done_ (ms_c s) = true →
  Forall (λ t, t_Status t = Completed) (c_mapTasks (ms_c s)) ∧
  Forall (λ t, t_Status t = Completed) (c_reduceTasks (ms_c s)) ∧
  ∀ s', rtc mstep s s' → Done_ (ms_c s') = true.
Proof.
  intros Hr Hd. apply reachable_inv in Hr as Hinv. unfold Done_ in Hd.
  destruct (bool_decide_reflect (c_status (ms_c s) = ExistPhase)) as [Hs|]; [|done].
  pose proof (mi_phase _ _ _ Hinv) as Hp. rewrite Hs in Hp. destruct Hp as [Hpm Hpr].
  split_and!; [done..|]. intros s' Hss. clear Hr Hd Hpm Hpr.
  induction Hss as [s|s s1 s2 Hstep _ IH]; [by eapply exist_done|].
  apply IH; [by eapply minv_step|by eapply status_step].
Qed.

(** C26: A reduce task is only handed out after all map tasks completed, and its
    reply lists exactly one intermediate file of every map task. *)
Theorem mr_reduce_after_maps files nReduce s now w c' reply o :
  reachable files nReduce s → RequestTask (ms_c s) now (requestTask w) = Done (c', reply, o) →
  rs_TaskType reply = ReduceTask →
  Forall (λ t, t_Status t = Completed) (c_mapTasks c') ∧
  rs_ReduceFiles reply ≡ₚ
    (λ m, mr_file (Z.of_nat m) (rs_TaskID reply)) <$> seq 0 (length files).
Proof.
  intros Hr Hreq Hty. apply reachable_inv in Hr as Hinv. destruct s as [c ts hd]. simpl in Hreq.
  destruct (request_spec _ _ _ _ _ now w Hinv) as (c1 & r1 & o1 & Hreq1 & Hinv1 & _ & _ & Hexit & Hfiles).
  rewrite Hreq in Hreq1. simplify_eq. split; [|by apply Hfiles].
  pose proof (mi_phase _ _ _ Hinv1) as Hp. simpl in Hp.
  destruct (c_status c1) eqn:Est; [exfalso|done|by destruct Hp].
  unfold RequestTask in Hreq. go_inv. destruct (c_status (update_phase _)) eqn:Eu; simpl in *; go_inv.
  - destruct (first_idle _ _) as [[i t]|]; go_inv; done.
  - destruct (first_idle _ _) as [[i t]|]; go_inv; simpl in *; congruence.
Qed.

(** No handler and no timer panics or ends the coordinator: every request,
    every report of a worker for a task it was handed (also a late or repeated
    one) and every expiry returns. *)
Theorem mr_coordinator_total files nReduce s :
  reachable files nReduce s →
  (∀ now w, returns (RequestTask (ms_c s) now (requestTask w))) ∧
  (∀ w ty id, (w, ty, id) ∈ ms_handed s →
     returns (NotifyTaskCompletion (ms_c s) (reportTaskDone w ty (c_nReduce (ms_c s)) id))) ∧
  (∀ tm, tm ∈ ms_timers s → returns (waitTask (ms_c s) tm)).
Proof.
  intros Hr. apply reachable_inv in Hr as Hinv. destruct s as [c ts hd]. simpl. split_and!.
  - intros now w. destruct (request_spec _ _ _ _ _ now w Hinv) as (c1 & r1 & o1 & Hreq & _). by eexists.
  - intros w ty id Hin. destruct (mi_handed _ _ _ Hinv w ty id Hin) as [[-> Hid]|[-> Hid]].
    + destruct (complete_map _ _ _ _ _ w id Hinv Hid) as (c1 & ? & _). by eexists.
    + destruct (complete_reduce _ _ _ _ _ w id Hinv Hid) as (c1 & ? & _). by eexists.
  - intros tm (ts1 & ts2 & ->)%list_elem_of_split.
    destruct (expire_spec _ _ _ _ _ _ _ Hinv) as (c1 & ? & _). by eexists.
Qed.

(** The slice a timer points into. *)
Definition tasks_of (ty : TaskType) (c : Coordinator) : list Task :=
  match ty with MapTask => c_mapTasks c | _ => c_reduceTasks c end.

(** An expiring timer makes its task idle. *)
Lemma waitTask_idle c ty i t : ty = MapTask ∨ ty = ReduceTask → tasks_of ty c !! i = Some t → t_Status t = InProgress →
  ∃ c', waitTask c (ty, Z.of_nat i) = Done c' ∧ t_Status <$> tasks_of ty c' !! i = Some TIdle.
Proof.
  intros Hty Hi Hs. pose proof (lookup_lt_Some _ _ _ Hi) as Hlt.
  assert (set_idx (tasks_of ty c) (Z.of_nat i) (expire t) = Done (<[i := expire t]> (tasks_of ty c))) as Hset.
  { apply set_idx_Done. rewrite Nat2Z.id. unfold zlen. split; [lia|done]. }
  unfold waitTask. destruct Hty as [-> | ->]; simpl tasks_of in *; rewrite idx_nat, Hi; simpl; rewrite Hset; simpl;
    (eexists; split; [done|]); simpl; rewrite list_lookup_insert_eq by done; simpl;
    by destruct (expire_cases t) as [[_ ->]|[? _]].
Qed.

(** C28: No task, map or reduce, is lost with its worker: a task in progress has a
    running timer, whose expiry makes it idle again, and a task whose timer has not
    expired is not handed out a second time. *)
Theorem mr_no_task_lost files nReduce s ty i t :
  reachable files nReduce s → ty = MapTask ∨ ty = ReduceTask → tasks_of ty (ms_c s) !! i = Some t →
  NoDup (ms_timers s) ∧
  (t_Status t = InProgress → (ty, Z.of_nat i) ∈ ms_timers s ∧
     ∃ c', waitTask (ms_c s) (ty, Z.of_nat i) = Done c' ∧
       t_Status <$> tasks_of ty c' !! i = Some TIdle) ∧
  ((ty, Z.of_nat i) ∈ ms_timers s → ∀ now w c' reply o,
     RequestTask (ms_c s) now (requestTask w) = Done (c', reply, o) →
     o ≠ Some (ty, Z.of_nat i)).
Proof.
  intros Hr Hty Hi. apply reachable_inv in Hr as Hinv.
  pose proof (mi_timers _ _ _ Hinv) as (Hnd & _ & [_ Htm] & [_ Htr]).
  assert (t_Status t = InProgress → (ty, Z.of_nat i) ∈ ms_timers s) as Hin.
  { destruct Hty as [-> | ->]; [apply (Htm i t Hi)|apply (Htr i t Hi)]. }
  split_and!; [done|..].
  - intros Hs. split; [by apply Hin|]. by eapply waitTask_idle.
  - intros Htimer now w c' reply o Hreq ->. destruct s as [c ts hd]. simpl in *.
    destruct (request_spec _ _ _ _ _ now w Hinv) as (c1 & r1 & o1 & Hreq1 & Hinv1 & _).
    rewrite Hreq in Hreq1. simplify_eq.
    destruct (mi_timers _ _ _ Hinv1) as (Hnd1 & _). simpl in Hnd1.
    by apply NoDup_cons in Hnd1 as [? _].
Qed.

(** A worker is told to wait only if no task of the phase is idle, and to
    exit exactly when the job is over. *)
Theorem mr_request_answers files nReduce s now w :
  reachable files nReduce s → ∃ c' reply o,
    RequestTask (ms_c s) now (requestTask w) = Done (c', reply, o) ∧
    (rs_TaskType reply = ExitTask ↔ Done_ c' = true) ∧
    (rs_TaskType reply = NoTask →
      (c_status c' = MapPhase ∧ Forall (λ t, t_Status t ≠ TIdle) (c_mapTasks c')) ∨
      (c_status c' = ReducePhase ∧ Forall (λ t, t_Status t ≠ TIdle) (c_reduceTasks c'))).
Proof.
  intros Hr. apply reachable_inv in Hr as Hinv. destruct s as [c ts hd].
  destruct (request_spec _ _ _ _ _ now w Hinv) as (c1 & r1 & o1 & Hreq & Hinv1 & _ & Hno & Hexit & _).
  exists c1, r1, o1. split_and!; [done| |].
  - rewrite Hexit. split.
    + intros Hs. by eapply (exist_done _ _ _ Hinv1).
    + unfold Done_. by destruct (bool_decide_reflect (c_status c1 = ExistPhase)).
  - intros Hn. specialize (Hno Hn). destruct (c_status c1); [by left|by right|done].
Qed.

(** A job in an empty temporary directory, whose map tasks are executed in
    any order and possibly more than once, and whose reduce tasks then run,
    writes up to order the same lines as mrsequential, if the reduce function
    does not depend on the order of the values and the map function gives valid
    UTF-8. *)
Theorem mr_output_sequential `{RangeOrder, KeySorter} mapf reducef input names n ms :
  (0 < n)%Z → (∀ f, f ∈ names → is_Some (input !! f)) → order_free reducef → utf8_maps mapf input names →
  (∀ m, m ∈ ms ↔ m < length names) →
  ∃ fs lines, run_maps mapf input names n (MkFiles ∅ ∅) ms = Done fs ∧
    main_lines mapf reducef input names = Done lines ∧
    mjoin ((λ r, task_lines reducef fs (Z.of_nat r)) <$> seq 0 (Z.to_nat n)) ≡ₚ lines.
Proof.
  intros Hn Hin Hof Hu Hms.
  destruct (run_maps_spec mapf input names n Hn Hin ms ∅ (MkFiles ∅ ∅)) as (fs & Hrun & Hs).
  - split; [by intros ? ? ?%not_elem_of_empty|]. intros name c Hc. cbn [fs_mr] in Hc. by rewrite lookup_empty in Hc.
  - apply Forall_forall. intros m Hm. by apply Hms.
  - destruct (main_lines_spec mapf input names Hin reducef Hof) as (lines & Hl & Hp).
    exists fs, lines. split_and!; [done..|]. rewrite Hp.
    apply (job_lines mapf input names n Hn reducef fs Hof Hu).
    assert (list_to_set ms ∪ ∅ =@{gset nat} set_seq 0 (length names)) as <-; [|done].
    apply set_eq. intros m. rewrite (right_id_L ∅ (∪)), elem_of_list_to_set, Hms, elem_of_set_seq. lia.
Qed.

(** The reduce functions of the applications do not depend on the order of
    the values. *)
Theorem apps_order_free :
  order_free wc.Reduce ∧ order_free indexer.Reduce ∧ order_free early_exit.Reduce ∧
  order_free mtiming.Reduce ∧
  ∀ rr k vs vs', vs ≡ₚ vs' → crash.Reduce rr k vs = crash.Reduce rr k vs' ∧
    nocrash.Reduce rr k vs = nocrash.Reduce rr k vs'.
Proof.
  assert (∀ (k : string) (vs vs' : list string), vs ≡ₚ vs' → zlen vs = zlen vs') as Hz.
  { intros k vs vs' Hp. unfold zlen. by rewrite Hp. }
  split_and!.
  - intros k vs vs' Hp. unfold wc.Reduce. by rewrite (Hz k vs vs').
  - intros k vs vs' Hp. unfold indexer.Reduce. by rewrite (sort_Strings_eq vs vs').
  - intros k vs vs' Hp. unfold early_exit.Reduce. by rewrite (Hz k vs vs').
  - intros k vs vs' Hp. unfold mtiming.Reduce. by rewrite (sort_Strings_eq vs vs').
  - intros rr k vs vs' Hp. unfold crash.Reduce, nocrash.Reduce. by rewrite (sort_Strings_eq vs vs').
Qed.

(** A file left by an earlier job with more input files. *)
Definition stale_files : files :=
  MkFiles {["temp/mr-5-0" := [MkKeyValue "old" "1"]]} ∅.

(** The output line of a key. *)
Definition count_line (k : string) (n : Z) : string := out_line k (Itoa n).

(** [performReduce] reads every matching file of the temporary directory,
    not the files the coordinator lists: a file of an earlier job changes the
    output of a job whose only map task emits "new" only. *)
Theorem stale_file_in_output `{RangeOrder} :
  ∃ fs, run_maps wc.Map {["f" := "new"]} ["f"] 1 stale_files [0] = Done fs ∧
    task_lines wc.Reduce fs 0 ≡ₚ [count_line "new" 1; count_line "old" 1].
Proof.
  eexists. split; [vm_compute; reflexivity|]. unfold task_lines. rewrite collect_lines.
  vm_compute. reflexivity || apply perm_swap.
Qed.

(** A map function whose key is the content of its file. *)
Definition raw_map : mapf_t := λ _ content, [MkKeyValue content "x"].

(** Intermediate files are JSON: a key that is not valid UTF-8 is another key in
    the output of the job than in the output of mrsequential. *)
Theorem invalid_utf8_output `{RangeOrder, KeySorter} :
  ∃ fs, run_maps raw_map {["f" := String "255" ""]} ["f"] 1 (MkFiles ∅ ∅) [0] = Done fs ∧
    task_lines wc.Reduce fs 0 = [count_line utf8.RuneError 1] ∧
    main_lines raw_map wc.Reduce {["f" := String "255" ""]} ["f"] = Done [count_line (String "255" "") 1].
Proof.
  eexists. split; [vm_compute; reflexivity|]. split.
  - apply Permutation_singleton_r. unfold task_lines. rewrite collect_lines. vm_compute. reflexivity.
  - unfold main_lines. assert (∀ kv, sort_by_key [kv] = [kv]) as Hs.
    { intros kv. apply Permutation_singleton_r, sort_by_key_perm. }
    assert (map_all raw_map {["f" := String "255" ""]} ["f"] = Done [MkKeyValue (String "255" "") "x"]) as -> by done.
    cbn [mbind outcome_bind].
    rewrite Hs. reflexivity.
Qed.

(** ** Witnesses *)

(** Actions on the machine. *)
Definition after (c : outcome Coordinator) (s : mstate) : mstate :=
  match c with Done c' => MkMstate c' (ms_timers s) (ms_handed s) | _ => s end.
Definition report (w : Z) (ty : TaskType) (id : Z) (s : mstate) : mstate :=
  after (NotifyTaskCompletion (ms_c s) (reportTaskDone w ty (c_nReduce (ms_c s)) id)) s.
Definition ask (w : Z) (s : mstate) : mstate :=
  match RequestTask (ms_c s) 1 (requestTask w) with
  | Done (c', reply, o) => MkMstate c' (spawned o ++ ms_timers s) (handed_of w reply ++ ms_handed s)
  | _ => s
  end.

Lemma ask_step w s : returns (RequestTask (ms_c s) 1 (requestTask w)) → mstep s (ask w s).
Proof.
  intros [[[c' reply] o] Hr]. destruct s as [c ts hd]. unfold ask. simpl in *. rewrite Hr.
  by eapply MRequest.
Qed.

Lemma report_step w ty id s : (w, ty, id) ∈ ms_handed s →
  returns (NotifyTaskCompletion (ms_c s) (reportTaskDone w ty (c_nReduce (ms_c s)) id)) →
  mstep s (report w ty id s).
Proof.
  intros Hin [c' Hc]. destruct s as [c ts hd]. unfold report. simpl in *. rewrite Hc. simpl.
  by eapply MComplete.
Qed.

(** A job with one input file and two reduce tasks: the map task is handed to
    worker 7 and completed, then worker 8 does both reduce tasks and asks once
    more. *)
Definition start : mstate :=
  match MakeCoordinator ["f"] 2 with
  | Done c => MkMstate c [] []
  | _ => MkMstate (MkCoordinator [] [] 0 0 ∅ 0 [] 0 0 MapPhase) [] []
  end.
Definition one_file : mstate := ask 7 start.
Definition mapped : mstate := report 7 MapTask 0 one_file.
Definition finished : mstate :=
  ask 8 (report 8 ReduceTask 1 (ask 8 (report 8 ReduceTask 0 (ask 8 mapped)))).

Lemma start_reachable : reachable ["f"] 2 start.
Proof. exists start. split; [|done]. split; [lia|]. eexists. split; reflexivity. Qed.

Lemma reachable_step s s' : reachable ["f"] 2 s → mstep s s' → reachable ["f"] 2 s'.
Proof. intros (s0 & ? & ?) ?. exists s0. split; [done|]. by eapply rtc_r. Qed.

Lemma one_file_reachable : reachable ["f"] 2 one_file.
Proof.
  eapply reachable_step; [apply start_reachable|]. apply ask_step. vm_compute. by eexists.
Qed.

Lemma mapped_reachable : reachable ["f"] 2 mapped.
Proof.
  eapply reachable_step; [apply one_file_reachable|].
  apply report_step; [vm_compute; left|vm_compute; by eexists].
Qed.

Lemma finished_reachable : reachable ["f"] 2 finished.
Proof.
  unfold finished. eapply reachable_step; [|apply ask_step; vm_compute; by eexists].
  eapply reachable_step; [|apply report_step; [vm_compute; left|vm_compute; by eexists]].
  eapply reachable_step; [|apply ask_step; vm_compute; by eexists].
  eapply reachable_step; [|apply report_step; [vm_compute; left|vm_compute; by eexists]].
  eapply reachable_step; [|apply ask_step; vm_compute; by eexists]. apply mapped_reachable.
Qed.

Lemma mr_done_means_done_witness :
  Done_ (ms_c finished) = true ∧
  Forall (λ t, t_Status t = Completed) (c_mapTasks (ms_c finished)) ∧
  Forall (λ t, t_Status t = Completed) (c_reduceTasks (ms_c finished)) ∧
  ∀ s', rtc mstep finished s' → Done_ (ms_c s') = true.
Proof.
  split; [vm_compute; reflexivity|]. apply (mr_done_means_done ["f"] 2 finished).
  - apply finished_reachable.
  - vm_compute. reflexivity.
Defined.

Lemma mr_reduce_after_maps_witness : ∃ c' reply o,
  RequestTask (ms_c mapped) 1 (requestTask 8) = Done (c', reply, o) ∧
  rs_ReduceFiles reply ≡ₚ
    (λ m, mr_file (Z.of_nat m) (rs_TaskID reply)) <$> seq 0 (length ["f"]).
Proof.
  eexists _, _, _. split; [vm_compute; reflexivity|].
  eapply (mr_reduce_after_maps ["f"] 2 mapped 1 8).
  - apply mapped_reachable.
  - vm_compute. reflexivity.
  - reflexivity.
Defined.

Lemma mr_coordinator_total_witness :
  returns (NotifyTaskCompletion (ms_c one_file)
             (reportTaskDone 7 MapTask (c_nReduce (ms_c one_file)) 0)).
Proof.
  apply (mr_coordinator_total ["f"] 2 one_file).
  - apply one_file_reachable.
  - vm_compute. left.
Defined.

(** Worker 8 holds reduce task 0 of the job. *)
Definition reducing : mstate := ask 8 mapped.

Lemma mr_no_task_lost_witness : ∃ c',
  (ReduceTask, 0%Z) ∈ ms_timers reducing ∧
  waitTask (ms_c reducing) (ReduceTask, 0%Z) = Done c' ∧ t_Status <$> c_reduceTasks c' !! 0 = Some TIdle.
Proof.
  destruct (mr_no_task_lost ["f"] 2 reducing ReduceTask 0 (MkTask ReduceTask InProgress 8 "" 0)) as (_ & Hp & _).
  - eapply reachable_step; [apply mapped_reachable|]. apply ask_step. vm_compute. by eexists.
  - by right.
  - vm_compute. reflexivity.
  - destruct Hp as (Ht & c' & Hp); [reflexivity|]. exists c'. split; [exact Ht|exact Hp].
Defined.

Lemma mr_request_answers_witness : ∃ c' reply o,
  RequestTask (ms_c one_file) 1 (requestTask 8) = Done (c', reply, o) ∧ rs_TaskType reply = NoTask.
Proof.
  destruct (mr_request_answers ["f"] 2 one_file 1 8) as (c' & reply & o & Hr & _).
  - apply one_file_reachable.
  - exists c', reply, o. split; [exact Hr|]. vm_compute in Hr. by injection Hr as _ <- _.
Defined.

#[local] Instance id_order : RangeOrder :=
  {| range_order := λ A l, l; range_perm := λ A l, Permutation_refl l |}.

Definition key_le (a b : KeyValue) : Prop := String.le (kv_Key a) (kv_Key b).
#[local] Instance key_le_dec : RelDecision key_le.
Proof. intros a b. unfold key_le. apply _. Defined.
#[local] Instance key_le_total : Total key_le.
Proof. intros a b. unfold key_le. apply String.le_total. Qed.
#[local] Instance key_le_trans : Transitive key_le.
Proof. intros a b c. unfold key_le. apply String.le_po. Qed.
#[local] Program Instance key_sorter : KeySorter := {| sort_by_key := merge_sort key_le |}.
Next Obligation. intros l. apply merge_sort_Permutation. Qed.
Next Obligation.
  intros l. pose proof (StronglySorted_merge_sort key_le l) as Hs.
  induction Hs as [|x xs Hs IH Hall]; intros i j a b Hij Ha Hb; [done|].
  destruct i as [|i], j as [|j]; simplify_eq/=; [apply String.le_po| |lia|].
  - rewrite Forall_forall in Hall. apply Hall. by eapply list_elem_of_lookup_2.
  - apply (IH i j); [lia|done..].
Qed.

Lemma mr_output_sequential_witness :
  ∃ fs lines, run_maps wc.Map {["f" := "a b"; "g" := "b"]} ["f"; "g"] 3 (MkFiles ∅ ∅) [1; 0; 1] = Done fs ∧
    main_lines wc.Map wc.Reduce {["f" := "a b"; "g" := "b"]} ["f"; "g"] = Done lines ∧
    mjoin ((λ r, task_lines wc.Reduce fs (Z.of_nat r)) <$> seq 0 3) ≡ₚ lines.
Proof.
  apply (mr_output_sequential wc.Map wc.Reduce {["f" := "a b"; "g" := "b"]} ["f"; "g"] 3 [1; 0; 1]).
  - lia.
  - intros f Hf. rewrite !elem_of_cons in Hf. destruct Hf as [->|[->|?%not_elem_of_nil]]; [by eexists..|done].
  - intros k vs vs' Hp. unfold wc.Reduce, zlen. by rewrite Hp.
  - intros f c Hf Hc. rewrite !elem_of_cons in Hf. destruct Hf as [->|[->|?%not_elem_of_nil]]; [..|done];
      vm_compute in Hc; injection Hc as <-; apply (bool_decide_unpack _); vm_compute; exact I.
  - intros m. rewrite !elem_of_cons. simpl. split.
    + intros [->|[->|[->|?%not_elem_of_nil]]]; [lia..|done].
    + intros Hm. destruct m as [|[|m]]; [tauto|tauto|lia].
Defined.
