(* ===== verification/MrSystem.v ===== *)
(** * The MapReduce job as a system

    The coordinator, any number of worker processes and the files they share.  A
    worker is at one point of the loop of [Worker]; one event is one RPC, one
    [os.Rename], the expiry of a timer, or the start or the end of a process.  A
    worker may be killed at any point, also between two renames; a new process may
    get the pid of an old one. *)

From Stdlib Require Import Ascii.
From S2P Require Import Prelude GoStrings Mr MrFacts.

Module mrsystem.
Import gostrings mr mrproof.

(** Where a worker process is. *)
Inductive wstate :=
  | WAsk                                    (* about to call [requestTask] *)
  | WGot (reply : TaskResponse)             (* at the [switch] *)
  (* [performMap]: the files of the reduce tasks from [i] on are to be renamed *)
  | WMapping (reply : TaskResponse) (i : Z) (bufs : list (list KeyValue))
  (* [performReduce]: the output file is to be renamed *)
  | WReducing (reply : TaskResponse) (text : string)
  | WReport (args : TaskCompletion)         (* about to call [NotifyTaskCompletion] *)
  | WExited.

Record job := MkJob {
  jb_c : Coordinator;
  jb_timers : list timer;
  jb_fs : files;
  jb_workers : gmap Z wstate;
}.

(** What becomes of an RPC: the socket cannot be dialed, the connection breaks
    before or after the handler ran, or the reply arrives. *)
Inductive conn := Refused | Broken (ran : bool) | Answered.

(** [call]: a worker that cannot dial the coordinator ends in [log.Fatal]. *)
Definition call (x : conn) : outcome bool :=
  match x with
  | Refused => Fatal "dialing:"
  | Broken _ => Done false
  | Answered => Done true
  end.

(** Whether the handler runs. *)
Definition served (x : conn) : bool :=
  match x with Refused => false | Broken ran => ran | Answered => true end.

Inductive event :=
  | JSpawn (pid : Z)
  | JCrash (pid : Z)
  | JRequest (pid now : Z) (x : conn)
  | JSwitch (pid : Z) (ro : RangeOrder)
  | JRename (pid : Z)
  | JReport (pid : Z) (x : conn)
  | JExpire (k : nat).                   (* the k-th timer *)

Section system.
Context (mapf : mapf_t) (reducef : reducef_t) (input : gmap string string).
Implicit Types s : job.

Definition set_worker s (pid : Z) (w : wstate) : job :=
  MkJob (jb_c s) (jb_timers s) (jb_fs s) (<[pid := w]> (jb_workers s)).
Definition kill_worker s (pid : Z) : job :=
  MkJob (jb_c s) (jb_timers s) (jb_fs s) (delete pid (jb_workers s)).
Definition set_files s (fs : files) : job := MkJob (jb_c s) (jb_timers s) fs (jb_workers s).

(** The worker goes on with [w] if [call] returned true and with [w'] if it returned
    false. *)
Definition after_call s (pid : Z) (x : conn) (w w' : wstate) : job :=
  match call x with
  | Done ok => set_worker s pid (if (ok : bool) then w else w')
  | _ => kill_worker s pid
  end.

(** [performMap] up to the renames: the contents of the temporary files. *)
Definition map_bufs (task : TaskResponse) : outcome (list (list KeyValue)) :=
  match input !! rs_MapFile task with
  | None => Fatal "cannot open"
  | Some content =>
      let kva := mapf (rs_MapFile task) content in
      if (rs_NReduce task <? 0)%Z then Panic "makeslice: len out of range"
      else encode_all (replicate (Z.to_nat (rs_NReduce task)) []) (rs_NReduce task) kva
  end.

(** The [switch] of [Worker]; a worker that panics or exits is gone. *)
Definition switch s (pid : Z) (reply : TaskResponse) (ro : RangeOrder) : job :=
  match rs_TaskType reply with
  | MapTask =>
      match map_bufs reply with
      | Done bufs => set_worker s pid (WMapping reply 0 bufs)
      | _ => kill_worker s pid
      end
  | ReduceTask =>
      set_worker s pid (WReducing reply
        (foldr String.append "" (task_lines reducef (jb_fs s) (rs_TaskID reply))))
  | ExitTask => set_worker s pid WExited
  | NoTask => set_worker s pid WAsk
  end.

Definition report_of (pid : Z) (reply : TaskResponse) : wstate :=
  WReport (reportTaskDone pid (rs_TaskType reply) (rs_NReduce reply) (rs_TaskID reply)).

(** One event; [None] if it cannot happen now, and a result other than [Done] if
    the coordinator panics or exits. *)
Definition step s (ev : event) : option (outcome job) :=
  match ev with
  | JSpawn pid =>
      match jb_workers s !! pid with
      | Some WExited | None => Some (Done (set_worker s pid WAsk))
      | _ => None
      end
  | JCrash pid => Some (Done (kill_worker s pid))
  | JRequest pid now x =>
      match jb_workers s !! pid with
      | Some WAsk => Some (
          if served x then
            let! '(c, reply, o) := RequestTask (jb_c s) now (requestTask pid) in
            Done (after_call (MkJob c (spawned o ++ jb_timers s) (jb_fs s) (jb_workers s)) pid x (WGot reply) WAsk)
          else Done (after_call s pid x WAsk WAsk))
      | _ => None
      end
  | JSwitch pid ro =>
      match jb_workers s !! pid with
      | Some (WGot reply) => Some (Done (switch s pid reply ro))
      | _ => None
      end
  | JRename pid =>
      match jb_workers s !! pid with
      | Some (WMapping reply i (b :: bufs)) =>
          let fs := MkFiles (<[mr_file (rs_TaskID reply) i := b]> (fs_mr (jb_fs s))) (fs_out (jb_fs s)) in
          Some (Done (set_worker (set_files s fs) pid (WMapping reply (i + 1) bufs)))
      | Some (WMapping reply i []) => Some (Done (set_worker s pid (report_of pid reply)))
      | Some (WReducing reply text) =>
          let fs := MkFiles (fs_mr (jb_fs s)) (<[out_file (rs_TaskID reply) := text]> (fs_out (jb_fs s))) in
          Some (Done (set_worker (set_files s fs) pid (report_of pid reply)))
      | _ => None
      end
  | JReport pid x =>
      match jb_workers s !! pid with
      | Some (WReport args) => Some (
          let! c := if served x then NotifyTaskCompletion (jb_c s) args else Done (jb_c s) in
          Done (after_call (MkJob c (jb_timers s) (jb_fs s) (jb_workers s)) pid x WAsk WAsk))
      | _ => None
      end
  | JExpire k =>
      tm ← jb_timers s !! k;
      Some (let! c := waitTask (jb_c s) tm in
            Done (MkJob c (delete k (jb_timers s)) (jb_fs s) (jb_workers s)))
  end.

Fixpoint run s (evs : list event) : option job :=
  match evs with
  | [] => Some s
  | ev :: evs' => match step s ev with Some (Done s1) => run s1 evs' | _ => None end
  end.

(** [main/mrcoordinator.go] has called [MakeCoordinator]; the directory [temp] is
    empty. *)
Definition start (names : list string) (nReduce : Z) : outcome job :=
  let! c := MakeCoordinator names nReduce in
  Done (MkJob c [] (MkFiles ∅ ∅) ∅).

End system.
End mrsystem.
