(* ===== verification/MrSystemFacts.v ===== *)
(** * The invariant of a MapReduce job

    Every intermediate file holds what its map task produces, whoever wrote it;
    the files of a completed map task are all there; a worker reduces only after
    that; and the output of a completed reduce task is there. *)

From Stdlib Require Import Ascii.
From S2P Require Import Prelude GoStrings Mr MrFacts MrData MrSystem.

Module mrjob.
Import gostrings mr mrsequential mrproof mrdata mrsystem.

(** ** What the handlers complete *)

(** Every task of [ts'] that is completed was already completed in [ts]. *)
Definition no_new (ts ts' : list Task) : Prop :=
  ∀ i t', ts' !! i = Some t' → t_Status t' = Completed →
    ∃ t, ts !! i = Some t ∧ t_Status t = Completed.

Lemma no_new_refl ts : no_new ts ts.
Proof. intros i t Ht Hs. eauto. Qed.

Lemma no_new_insert ts j t : (t_Status t = Completed → ts !! j = Some t) → no_new ts (<[j := t]> ts).
Proof.
  intros Ht i t' Hi Hs. destruct (decide (i = j)) as [->|Hne].
  - destruct (decide (j < length ts)) as [Hlt|Hge].
    + rewrite list_lookup_insert_eq in Hi by done. simplify_eq. eauto.
    + rewrite list_insert_ge in Hi by lia. eauto.
  - rewrite list_lookup_insert_ne in Hi by done. eauto.
Qed.

Lemma no_new_phase c : no_new (c_mapTasks c) (c_mapTasks (update_phase c)) ∧
  no_new (c_reduceTasks c) (c_reduceTasks (update_phase c)) ∧
  (c_status c ≠ MapPhase → c_status (update_phase c) ≠ MapPhase).
Proof.
  unfold update_phase. destruct (bool_decide_reflect (c_status c = MapPhase)) as [Hst|Hst]; simpl.
  - destruct (_ =? _)%Z; simpl.
    + destruct (_ =? 0)%Z; simpl; split_and!; try apply no_new_refl; try done.
      intros i t [Ht|[_ Ht]]%lookup_app_Some Hs; [eauto|]. apply new_reduce_lookup in Ht as ->. done.
    + rewrite Hst. simpl. split_and!; try apply no_new_refl. done.
  - destruct (bool_decide _ && _); simpl; split_and!; try apply no_new_refl; done.
Qed.

Lemma assign_no_new ts i w ts' : assign ts i w = Done ts' → no_new ts ts'.
Proof.
  unfold assign. intros Ha. apply bind_Done in Ha as (t & Ht & Ha). apply set_idx_Done in Ha as [_ ->].
  by apply no_new_insert.
Qed.

Lemma no_new_trans ts1 ts2 ts3 : no_new ts1 ts2 → no_new ts2 ts3 → no_new ts1 ts3.
Proof. intros H1 H2 i t Hi Hs. destruct (H2 i t Hi Hs) as (t2 & Ht2 & Hs2). eauto. Qed.

Lemma request_effect c now w c' reply o : RequestTask c now (requestTask w) = Done (c', reply, o) →
  no_new (c_mapTasks c) (c_mapTasks c') ∧ no_new (c_reduceTasks c) (c_reduceTasks c') ∧
  (c_status c ≠ MapPhase → c_status c' ≠ MapPhase) ∧
  (rs_TaskType reply = ReduceTask → c_status c' ≠ MapPhase) ∧
  (rs_TaskType reply = MapTask → ∃ i t, c_mapTasks (update_phase (touch_worker c now w)) !! i = Some t ∧
    reply = MkTaskResponse MapTask (t_TaskID t) (t_File t) [] (c_nReduce (update_phase (touch_worker c now w)))).
Proof.
  unfold RequestTask. cbn [rq_WorkerID requestTask].
  destruct (no_new_phase (touch_worker c now w)) as (Hm & Hr & Hst).
  change (c_mapTasks (touch_worker c now w)) with (c_mapTasks c) in Hm.
  change (c_reduceTasks (touch_worker c now w)) with (c_reduceTasks c) in Hr.
  change (c_status (touch_worker c now w)) with (c_status c) in Hst.
  set (c1 := update_phase (touch_worker c now w)) in *. intros Hq.
  destruct (c_status c1) eqn:Hs1.
  - destruct (first_idle 0 (c_mapTasks c1)) as [[i t]|] eqn:Hfi.
    + apply bind_Done in Hq as (ts & Hts & Hq). apply Done_inj in Hq. simplify_eq. simpl.
      split_and!; [|done|rewrite Hs1; done|done|].
      * eapply no_new_trans; [exact Hm|by eapply assign_no_new].
      * intros _. apply first_idle_Some in Hfi as (j & _ & Hj & _). by exists j, t.
    + apply Done_inj in Hq. simplify_eq. rewrite Hs1. by split_and!.
  - destruct (first_idle 0 (c_reduceTasks c1)) as [[i t]|] eqn:Hfi.
    + apply bind_Done in Hq as (ts & Hts & Hq). apply bind_Done in Hq as (fs & _ & Hq).
      apply Done_inj in Hq. simplify_eq. simpl. rewrite Hs1.
      split_and!; [done| |done|done|done]. eapply no_new_trans; [exact Hr|by eapply assign_no_new].
    + apply Done_inj in Hq. simplify_eq. rewrite Hs1. by split_and!.
  - apply Done_inj in Hq. simplify_eq. rewrite Hs1. by split_and!.
Qed.

Lemma wait_effect c tm c' : waitTask c tm = Done c' →
  no_new (c_mapTasks c) (c_mapTasks c') ∧ no_new (c_reduceTasks c) (c_reduceTasks c') ∧
  c_status c' = c_status c.
Proof.
  assert (∀ ts i t ts', idx ts i = Done t → set_idx ts i (expire t) = Done ts' → no_new ts ts') as Hex.
  { intros ts i t ts' [_ Ht]%idx_Done [_ ->]%set_idx_Done. apply no_new_insert. intros Hs.
    destruct (expire_cases t) as [[_ He]|[_ He]]; [congruence|by rewrite He]. }
  unfold waitTask. destruct tm as [ty i]. intros Hw.
  destruct ty; apply bind_Done in Hw as (t & Ht & Hw); apply bind_Done in Hw as (ts & Hts & Hw);
    apply Done_inj in Hw as <-; simpl; split_and!; try apply no_new_refl; try done; by eapply Hex.
Qed.

(** A report completes at most the task it is about. *)
Lemma notify_effect c pid ty n id c' : (0 ≤ id)%Z →
  NotifyTaskCompletion c (reportTaskDone pid ty n id) = Done c' →
  c_status c' = c_status c ∧
  (∀ i t, c_mapTasks c' !! i = Some t → t_Status t = Completed →
    (∃ t0, c_mapTasks c !! i = Some t0 ∧ t_Status t0 = Completed) ∨ (ty = MapTask ∧ id = Z.of_nat i)) ∧
  (∀ i t, c_reduceTasks c' !! i = Some t → t_Status t = Completed →
    (∃ t0, c_reduceTasks c !! i = Some t0 ∧ t_Status t0 = Completed) ∨ (ty = ReduceTask ∧ id = Z.of_nat i)).
Proof.
  intros Hid Hc. unfold NotifyTaskCompletion in Hc. cbn [cp_TaskType cp_TaskID cp_WorkerID reportTaskDone] in Hc.
  assert (∀ (ts : list Task) t i t', <[Z.to_nat id := t]> ts !! i = Some t' → ts !! i = Some t' ∨ id = Z.of_nat i) as Hins.
  { intros ts t i t' Hi. destruct (decide (i = Z.to_nat id)) as [->|Hne]; [right; lia|].
    rewrite list_lookup_insert_ne in Hi by done. by left. }
  destruct ty.
  - apply bind_Done in Hc as (t & Ht & Hc). destruct (held_by t pid).
    + apply bind_Done in Hc as (ts & [_ ->]%set_idx_Done & Hc). apply bind_Done in Hc as (inter & _ & Hc).
      apply Done_inj in Hc as <-. simpl. split_and!; [done| |by eauto].
      intros i t' [Hi|Hi]%Hins Hs; [left; eauto|by right].
    + apply Done_inj in Hc as <-. split_and!; [done|by eauto..].
  - apply bind_Done in Hc as (t & Ht & Hc). destruct (held_by t pid).
    + apply bind_Done in Hc as (ts & [_ ->]%set_idx_Done & Hc).
      apply Done_inj in Hc as <-. simpl. split_and!; [done|by eauto|].
      intros i t' [Hi|Hi]%Hins Hs; [left; eauto|by right].
    + apply Done_inj in Hc as <-. split_and!; [done|by eauto..].
  - apply Done_inj in Hc as <-. split_and!; [done|by eauto..].
  - apply Done_inj in Hc as <-. split_and!; [done|by eauto..].
Qed.
(** ** The invariant *)

Section job.
Context (mapf : mapf_t) (reducef : reducef_t) (input : gmap string string) (names : list string) (n : Z).
Context (Hn : (0 < n < 2 ^ 63)%Z) (Hin : ∀ f, f ∈ names → is_Some (input !! f)) (Hof : order_free reducef).
Implicit Types (s : job) (fs : files) (hd : list (Z * TaskType * Z)).

Notation kva := (kva mapf input names).
Notation all_pairs := (all_pairs mapf input names).
Notation map_reply := (map_reply names n).
Notation step := (step mapf reducef input).
Notation run := (run mapf reducef input).

(** The content of the file from map task [m] to reduce task [r]. *)
Definition mr_content (m r : nat) : list KeyValue := written n r (kva m).

Definition good_store fs : Prop := ∀ name c, fs_mr fs !! name = Some c →
  ∃ m r, m < length names ∧ r < Z.to_nat n ∧ name = mr_file (Z.of_nat m) (Z.of_nat r) ∧ c = mr_content m r.

(** The files of map task [m] for the first [k] reduce tasks are there. *)
Definition has_map fs (m k : nat) : Prop := ∀ r, r < k →
  fs_mr fs !! mr_file (Z.of_nat m) (Z.of_nat r) = Some (mr_content m r).

(** The lines reduce task [r] may write. *)
Definition good_lines (r : nat) (text : string) : Prop := ∃ lines,
  text = foldr String.append "" lines ∧ lines ≡ₚ spec_lines reducef (written n r all_pairs).

Definition good_out fs (r : nat) : Prop := ∃ text,
  fs_out fs !! out_file (Z.of_nat r) = Some text ∧ good_lines r text.

Definition worker_ok s hd (pid : Z) (w : wstate) : Prop :=
  match w with
  | WAsk | WExited => True
  | WGot reply =>
      match rs_TaskType reply with
      | MapTask => ∃ m, m < length names ∧ reply = map_reply m ∧ (pid, MapTask, Z.of_nat m) ∈ hd
      | ReduceTask => ∃ r, r < Z.to_nat n ∧ rs_TaskID reply = Z.of_nat r ∧
          (pid, ReduceTask, Z.of_nat r) ∈ hd ∧ c_status (jb_c s) ≠ MapPhase
      | _ => True
      end
  | WMapping reply i bufs => ∃ m k, m < length names ∧ reply = map_reply m ∧ i = Z.of_nat k ∧
      (pid, MapTask, Z.of_nat m) ∈ hd ∧ k + length bufs = Z.to_nat n ∧
      (∀ j b, bufs !! j = Some b → b = mr_content m (k + j)) ∧ has_map (jb_fs s) m k
  | WReducing reply text => ∃ r, r < Z.to_nat n ∧ rs_TaskType reply = ReduceTask ∧
      rs_TaskID reply = Z.of_nat r ∧ (pid, ReduceTask, Z.of_nat r) ∈ hd ∧ good_lines r text
  | WReport args =>
      (∃ m, m < length names ∧ args = reportTaskDone pid MapTask n (Z.of_nat m) ∧
         (pid, MapTask, Z.of_nat m) ∈ hd ∧ has_map (jb_fs s) m (Z.to_nat n)) ∨
      (∃ r, r < Z.to_nat n ∧ args = reportTaskDone pid ReduceTask n (Z.of_nat r) ∧
         (pid, ReduceTask, Z.of_nat r) ∈ hd ∧ good_out (jb_fs s) r)
  end.

Record jinv s hd : Prop := {
  ji_ms : minv names n (MkMstate (jb_c s) (jb_timers s) hd);
  ji_store : good_store (jb_fs s);
  ji_maps m t : c_mapTasks (jb_c s) !! m = Some t → t_Status t = Completed → has_map (jb_fs s) m (Z.to_nat n);
  ji_reduces r t : c_reduceTasks (jb_c s) !! r = Some t → t_Status t = Completed → good_out (jb_fs s) r;
  ji_workers pid w : jb_workers s !! pid = Some w → worker_ok s hd pid w;
}.

(** ** Files *)

(** The files of [fs] are still in [fs']. *)
Record keeps fs fs' : Prop := {
  kp_maps m k : has_map fs m k → has_map fs' m k;
  kp_out r : good_out fs r → good_out fs' r;
}.

Lemma keeps_refl fs : keeps fs fs.
Proof. by split. Qed.

Lemma keeps_map fs m r : m < length names → r < Z.to_nat n → good_store fs →
  let fs' := MkFiles (<[mr_file (Z.of_nat m) (Z.of_nat r) := mr_content m r]> (fs_mr fs)) (fs_out fs) in
  good_store fs' ∧ keeps fs fs'.
Proof.
  intros Hm Hr Hg fs'. split.
  - intros name c. unfold fs'. cbn [fs_mr]. rewrite lookup_insert_Some. intros [[<- <-]|[_ Hc]]; [|by apply Hg].
    by exists m, r.
  - split; [|done]. intros m' k Hh r' Hr'. unfold fs'. cbn [fs_mr].
    destruct (decide (mr_file (Z.of_nat m) (Z.of_nat r) = mr_file (Z.of_nat m') (Z.of_nat r'))) as [Heq|Hne].
    + apply mr_file_inj in Heq as [? ?]; [|lia..]. assert (m' = m ∧ r' = r) as [-> ->] by lia.
      by rewrite lookup_insert_eq.
    + rewrite lookup_insert_ne by done. by apply Hh.
Qed.

Lemma out_file_inj r r' : out_file (Z.of_nat r) = out_file (Z.of_nat r') → r = r'.
Proof.
  unfold out_file. intros Heq. assert (Itoa (Z.of_nat r) = Itoa (Z.of_nat r')) as Hi by (by injection Heq).
  apply Itoa_inj in Hi; lia.
Qed.

Lemma keeps_out fs r text : good_lines r text →
  let fs' := MkFiles (fs_mr fs) (<[out_file (Z.of_nat r) := text]> (fs_out fs)) in
  keeps fs fs' ∧ good_out fs' r.
Proof.
  intros Hl fs'. split; [|exists text; split; [unfold fs'; cbn [fs_out]; by rewrite lookup_insert_eq|done]].
  split; [done|]. intros r' (text' & Ht' & Hl'). destruct (decide (r' = r)) as [->|Hne].
  - exists text. unfold fs'. cbn [fs_out]. by rewrite lookup_insert_eq.
  - exists text'. unfold fs'. cbn [fs_out]. rewrite lookup_insert_ne; [done|]. by intros ?%out_file_inj.
Qed.

Lemma worker_ok_keeps s s' hd hd' pid w : (c_status (jb_c s) ≠ MapPhase → c_status (jb_c s') ≠ MapPhase) →
  keeps (jb_fs s) (jb_fs s') → (∀ x, x ∈ hd → x ∈ hd') → worker_ok s hd pid w → worker_ok s' hd' pid w.
Proof.
  intros Hst [Hm Ho] Hhd Hw. destruct w as [|reply|reply i bufs|reply text|args|]; simpl in *; try done.
  - destruct (rs_TaskType reply); try done.
    + destruct Hw as (m & ? & ? & ?). exists m. split_and!; auto.
    + destruct Hw as (r & ? & ? & ? & ?). exists r. split_and!; auto.
  - destruct Hw as (m & k & ? & ? & ? & ? & ? & ? & ?). exists m, k. split_and!; auto.
  - destruct Hw as (r & ? & ? & ? & ? & ?). exists r. split_and!; auto.
  - destruct Hw as [(m & ? & ? & ? & ?)|(r & ? & ? & ? & ?)]; [left; exists m|right; exists r]; split_and!; auto.
Qed.

(** One worker moves on and the files grow. *)
Lemma jinv_worker s hd pid w fs : jinv s hd → keeps (jb_fs s) fs → good_store fs →
  worker_ok (set_files s fs) hd pid w → jinv (set_worker (set_files s fs) pid w) hd.
Proof.
  intros [Hms Hst Hma Hre Hwo] Hk Hg Hw. split; simpl.
  - done.
  - done.
  - intros m t Ht Hs. by eapply (kp_maps _ _ Hk), Hma.
  - intros r t Ht Hs. by eapply (kp_out _ _ Hk), Hre.
  - intros pid' w'. rewrite lookup_insert_Some. intros [[<- <-]|[_ Hp]]; [exact Hw|].
    eapply (worker_ok_keeps s); [done..|]. by apply Hwo.
Qed.

Lemma set_files_id s : set_files s (jb_fs s) = s.
Proof. by destruct s. Qed.

Lemma jinv_move s hd pid w : jinv s hd → worker_ok s hd pid w → jinv (set_worker s pid w) hd.
Proof.
  intros Hj Hw. pose proof (jinv_worker s hd pid w (jb_fs s) Hj (keeps_refl _)) as Hr.
  rewrite set_files_id in Hr. apply Hr; [apply (ji_store _ _ Hj)|done].
Qed.

Lemma jinv_kill s hd pid : jinv s hd → jinv (kill_worker s pid) hd.
Proof.
  intros [Hms Hst Hma Hre Hwo]. split; try done. simpl. intros pid' w [_ Hp]%lookup_delete_Some.
  by apply (worker_ok_keeps s _ hd); [|split| |apply Hwo].
Qed.

(** The coordinator changes. *)
Lemma jinv_coordinator s hd c timers hd' workers : jinv s hd →
  minv names n (MkMstate c timers hd') → (∀ x, x ∈ hd → x ∈ hd') →
  (c_status (jb_c s) ≠ MapPhase → c_status c ≠ MapPhase) →
  (∀ m t, c_mapTasks c !! m = Some t → t_Status t = Completed →
    (∃ t0, c_mapTasks (jb_c s) !! m = Some t0 ∧ t_Status t0 = Completed) ∨ has_map (jb_fs s) m (Z.to_nat n)) →
  (∀ r t, c_reduceTasks c !! r = Some t → t_Status t = Completed →
    (∃ t0, c_reduceTasks (jb_c s) !! r = Some t0 ∧ t_Status t0 = Completed) ∨ good_out (jb_fs s) r) →
  (∀ pid w, workers !! pid = Some w → jb_workers s !! pid = Some w ∨
    worker_ok (MkJob c timers (jb_fs s) workers) hd' pid w) →
  jinv (MkJob c timers (jb_fs s) workers) hd'.
Proof.
  intros [Hms Hst Hma Hre Hwo] Hms' Hhd Hph Hm Hr Hw. split; simpl; try done.
  - intros m t Ht Hs. destruct (Hm m t Ht Hs) as [(t0 & Ht0 & Hs0)|]; [by eapply Hma|done].
  - intros r t Ht Hs. destruct (Hr r t Ht Hs) as [(t0 & Ht0 & Hs0)|]; [by eapply Hre|done].
  - intros pid w Hp. destruct (Hw pid w Hp) as [Hold|]; [|done].
    by apply (worker_ok_keeps s _ hd); [|split| |apply Hwo].
Qed.
(** ** Events *)

Lemma map_reply_of c timers hd now w m t :
  minv names n (MkMstate c timers hd) → c_mapTasks (update_phase (touch_worker c now w)) !! m = Some t →
  m < length names ∧
  MkTaskResponse MapTask (t_TaskID t) (t_File t) [] (c_nReduce (update_phase (touch_worker c now w))) = map_reply m.
Proof.
  intros Hms Ht. pose proof (minv_phase _ _ _ _ _ (minv_touch _ _ _ _ _ now w Hms)) as Hms'.
  destruct (mi_n _ _ _ Hms') as (_ & HnR & _). destruct (mi_map _ _ _ Hms') as [Htab Hf]. simpl in *.
  assert (names !! m = Some (t_File t)) as Hname by (by rewrite <- Hf, list_lookup_fmap, Ht).
  split; [by eapply lookup_lt_Some|]. destruct (Htab m t Ht) as [_ Hid]. unfold mrdata.map_reply.
  by rewrite Hname, Hid, HnR.
Qed.

Lemma map_bufs_spec m : m < length names → ∃ bufs, map_bufs mapf input (map_reply m) = Done bufs ∧
  length bufs = Z.to_nat n ∧ ∀ j b, bufs !! j = Some b → b = mr_content m j.
Proof.
  intros Hm. destruct (lookup_lt_is_Some_2 names m Hm) as [f Hf].
  destruct (Hin f) as [c Hc]; [by eapply list_elem_of_lookup_2|].
  unfold map_bufs, mrdata.map_reply. rewrite Hf. simpl. rewrite Hc.
  assert (kva m = mapf f c) as Hk by (unfold mrdata.kva; by rewrite Hf; simpl; rewrite Hc).
  destruct (Z.ltb_spec n 0); [lia|].
  destruct (encode_all_spec (replicate (Z.to_nat n) []) n (mapf f c)) as (bufs & Hb & Hl & Hbs); [lia| |].
  { unfold zlen. rewrite length_replicate. lia. }
  exists bufs. unfold zlen in Hl. split_and!; [done|lia|]. intros j b Hj.
  pose proof (lookup_lt_Some _ _ _ Hj). rewrite (Hbs j []) in Hj by (apply lookup_replicate_2; lia).
  simplify_eq. unfold mr_content. by rewrite Hk.
Qed.

(** After the map phase the directory is complete. *)
Lemma store_complete s hd : jinv s hd → c_status (jb_c s) ≠ MapPhase →
  store_ok mapf input names n (set_seq 0 (length names)) (jb_fs s).
Proof.
  intros Hj Hst. assert (Forall (λ t, t_Status t = Completed) (c_mapTasks (jb_c s))) as Hall.
  { pose proof (mi_phase _ _ _ (ji_ms _ _ Hj)) as Hp. simpl in Hp.
    destruct (c_status (jb_c s)); [done|done|]. by destruct Hp. }
  destruct (mi_n _ _ _ (ji_ms _ _ Hj)) as (_ & _ & _ & Hlen & _). simpl in Hlen. split.
  - intros m r Hm%elem_of_set_seq Hr. destruct (lookup_lt_is_Some_2 (c_mapTasks (jb_c s)) m) as [t Ht].
    { unfold zlen in Hlen. lia. }
    rewrite Forall_lookup in Hall. by apply (ji_maps _ _ Hj m t Ht (Hall m t Ht)).
  - intros name c Hc. destruct (ji_store _ _ Hj _ _ Hc) as (m & r & ? & ? & ? & _).
    exists m, r. split_and!; [|done|done]. apply elem_of_set_seq. lia.
Qed.

Lemma reduce_good s hd (ro : RangeOrder) r : jinv s hd → c_status (jb_c s) ≠ MapPhase → r < Z.to_nat n →
  good_lines r (foldr String.append "" (task_lines reducef (jb_fs s) (Z.of_nat r))).
Proof.
  intros Hj Hst Hr. eexists. split; [done|]. unfold task_lines. rewrite collect_lines.
  apply reflexive_eq, spec_lines_perm; [done|]. apply read_glob; [lia|by eapply store_complete|done].
Qed.

Lemma switch_inv s hd pid reply ro : jinv s hd → jb_workers s !! pid = Some (WGot reply) →
  jinv (switch mapf reducef input s pid reply ro) hd.
Proof.
  intros Hj Hp. pose proof (ji_workers _ _ Hj _ _ Hp) as Hw. simpl in Hw. unfold switch.
  destruct (rs_TaskType reply) eqn:Hty.
  - destruct Hw as (m & Hm & -> & Hhd). destruct (map_bufs_spec m Hm) as (bufs & -> & Hl & Hb).
    apply jinv_move; [done|]. exists m, 0. split_and!; try done. intros r Hr. lia.
  - destruct Hw as (r & Hr & Hid & Hhd & Hst). apply jinv_move; [done|]. rewrite Hid.
    exists r. split_and!; try done. by eapply reduce_good.
  - by apply jinv_move.
  - by apply jinv_move.
Qed.

Lemma jinv_after_call s hd pid x w w' : jinv s hd → worker_ok s hd pid w → worker_ok s hd pid w' →
  jinv (after_call s pid x w w') hd.
Proof.
  intros Hj Hw Hw'. unfold after_call. destruct (call x) as [[]| |]; by (apply jinv_move || apply jinv_kill).
Qed.

Lemma request_inv s hd pid now x s' : jinv s hd → step s (JRequest pid now x) = Some (Done s') →
  ∃ hd', jinv s' hd'.
Proof.
  intros Hj Hst. simpl in Hst. destruct (jb_workers s !! pid) as [[]|] eqn:Hp; try done.
  injection Hst as Hst. destruct (served x).
  2:{ apply Done_inj in Hst as <-. exists hd. by apply jinv_after_call. }
  apply bind_Done in Hst as ([[c reply] o] & Hq & Hst). apply Done_inj in Hst as <-.
  destruct (request_spec _ _ _ _ _ now pid (ji_ms _ _ Hj)) as (c1 & r1 & o1 & Hq1 & Hms & _).
  rewrite Hq in Hq1. simplify_eq.
  destruct (request_effect _ _ _ _ _ _ Hq) as (Hm & Hr & Hph & Hred & Hmap).
  exists (handed_of pid r1 ++ hd). apply jinv_after_call; [|simpl|done].
  - apply jinv_coordinator with (hd := hd); try done.
    + intros y Hy. apply elem_of_app. by right.
    + intros m t Ht Hs. left. by eapply Hm.
    + intros m t Ht Hs. left. by eapply Hr.
    + by left.
  - destruct (rs_TaskType r1) eqn:Hty; try done.
    + destruct (Hmap eq_refl) as (m & t & Ht & ->).
      destruct (map_reply_of _ _ _ _ _ _ _ (ji_ms _ _ Hj) Ht) as [Hlt ->]. exists m. split_and!; [done|done|].
      apply elem_of_app. left. apply list_elem_of_singleton. done.
    + assert ((pid, ReduceTask, rs_TaskID r1) ∈ handed_of pid r1 ++ hd) as Hin'.
      { unfold handed_of. rewrite Hty. left. }
      destruct (mi_handed _ _ _ Hms _ _ _ Hin') as [[[=] _]|[_ Hid]].
      exists (Z.to_nat (rs_TaskID r1)). rewrite Z2Nat.id by lia. split_and!; [lia|done|done|by apply Hred].
Qed.

Lemma rename_inv s hd pid s' : jinv s hd → step s (JRename pid) = Some (Done s') → jinv s' hd.
Proof.
  intros Hj Hst. simpl in Hst. destruct (jb_workers s !! pid) as [w|] eqn:Hp; [|done].
  pose proof (ji_workers _ _ Hj _ _ Hp) as Hw.
  destruct w as [| |reply i bufs|reply text| |]; try done.
  - destruct Hw as (m & k & Hm & -> & -> & Hhd & Hlen & Hb & Hh). destruct bufs as [|b bufs]; simplify_eq.
    + apply jinv_move; [done|]. left. exists m. split_and!; try done. simpl in Hlen.
      by replace (Z.to_nat n) with k by lia.
    + simpl in Hlen. assert (b = mr_content m k) as -> by (by rewrite (Hb 0 b eq_refl), Nat.add_0_r).
      destruct (keeps_map (jb_fs s) m k Hm) as [Hg Hk]; [lia|apply (ji_store _ _ Hj)|].
      apply jinv_worker; [done|done|done|]. exists m, (S k). split_and!; try done; [lia|lia|..].
      * intros j b' Hj'. rewrite (Hb (S j) b' Hj'). f_equal. lia.
      * intros r Hr. destruct (decide (r = k)) as [->|].
        -- simpl. by rewrite lookup_insert_eq.
        -- apply (kp_maps _ _ Hk m k Hh). lia.
  - destruct Hw as (r & Hr & Hty & Hid & Hhd & Hl). simplify_eq. rewrite Hid.
    destruct (keeps_out (jb_fs s) r text Hl) as [Hk Ho].
    apply jinv_worker; [done|done|apply (ji_store _ _ Hj)|]. right. exists r. split_and!; try done.
    by rewrite Hty, Hid.
Qed.

Lemma report_inv s hd pid x s' : jinv s hd → step s (JReport pid x) = Some (Done s') → jinv s' hd.
Proof.
  intros Hj Hst. simpl in Hst. destruct (jb_workers s !! pid) as [[]|] eqn:Hp; try done.
  pose proof (ji_workers _ _ Hj _ _ Hp) as Hw. injection Hst as Hst.
  apply bind_Done in Hst as (c & Hc & Hst). apply Done_inj in Hst as <-.
  apply jinv_after_call; [|done..]. destruct (served x).
  2:{ apply Done_inj in Hc as <-. by destruct s. }
  pose proof (mi_n _ _ _ (ji_ms _ _ Hj)) as (_ & HnR & _). simpl in HnR.
  destruct Hw as [(m & Hm & -> & Hhd & Hh)|(r & Hr & -> & Hhd & Ho)].
  - destruct (notify_effect (jb_c s) pid MapTask n (Z.of_nat m) c ltac:(lia) Hc) as (Hs & Hmt & Hrt).
    eapply jinv_coordinator; try done; [|by rewrite Hs| | |by left].
    + eapply minv_step; [apply (ji_ms _ _ Hj)|]. eapply MComplete; [exact Hhd|]. by rewrite HnR.
    + intros m' t Ht Hs'. destruct (Hmt _ _ Ht Hs') as [?|[_ Heq]]; [by left|right].
      assert (m' = m) as -> by lia. done.
    + intros r t Ht Hs'. destruct (Hrt _ _ Ht Hs') as [?|[[=] _]]. by left.
  - destruct (notify_effect (jb_c s) pid ReduceTask n (Z.of_nat r) c ltac:(lia) Hc) as (Hs & Hmt & Hrt).
    eapply jinv_coordinator; try done; [|by rewrite Hs| | |by left].
    + eapply minv_step; [apply (ji_ms _ _ Hj)|]. eapply MComplete; [exact Hhd|]. done.
    + intros m' t Ht Hs'. destruct (Hmt _ _ Ht Hs') as [?|[[=] _]]. by left.
    + intros r' t Ht Hs'. destruct (Hrt _ _ Ht Hs') as [?|[_ Heq]]; [by left|right].
      assert (r' = r) as -> by lia. done.
Qed.

Lemma expire_inv s hd k s' : jinv s hd → step s (JExpire k) = Some (Done s') → jinv s' hd.
Proof.
  intros Hj Hst. simpl in Hst. destruct (jb_timers s !! k) as [tm|] eqn:Hk; [|done]. simpl in Hst.
  injection Hst as Hst. apply bind_Done in Hst as (c & Hc & Hst). apply Done_inj in Hst as <-.
  destruct (wait_effect _ _ _ Hc) as (Hm & Hr & Hs).
  apply jinv_coordinator with (hd := hd); try done; [|by rewrite Hs|..].
  - eapply minv_step; [apply (ji_ms _ _ Hj)|]. rewrite delete_take_drop.
    rewrite <- (take_drop_middle _ _ _ Hk) at 1. by apply MExpire.
  - intros m t Ht Hs'. left. by eapply Hm.
  - intros m t Ht Hs'. left. by eapply Hr.
  - by left.
Qed.

Lemma job_step_inv s hd ev s' : jinv s hd → step s ev = Some (Done s') → ∃ hd', jinv s' hd'.
Proof.
  intros Hj Hst. destruct ev as [pid|pid|pid now x|pid ro|pid|pid x|k].
  - simpl in Hst. exists hd. destruct (jb_workers s !! pid) as [[]|]; simplify_eq; by apply jinv_move.
  - simpl in Hst. simplify_eq. exists hd. by apply jinv_kill.
  - by eapply request_inv.
  - simpl in Hst. exists hd. destruct (jb_workers s !! pid) as [[]|] eqn:Hp; simplify_eq. by apply switch_inv.
  - exists hd. by eapply rename_inv.
  - exists hd. by eapply report_inv.
  - exists hd. by eapply expire_inv.
Qed.

Lemma run_inv evs : ∀ s hd s', jinv s hd → run s evs = Some s' → ∃ hd', jinv s' hd'.
Proof.
  induction evs as [|ev evs IH]; intros s hd s' Hj Hr; simpl in Hr; [simplify_eq; eauto|].
  destruct (step s ev) as [[s1| |]|] eqn:Hst; try done.
  destruct (job_step_inv _ _ _ _ Hj Hst) as [hd1 Hj1]. by eapply IH.
Qed.

Lemma start_inv s : start names n = Done s → jinv s [].
Proof.
  intros Hs. unfold start in Hs. apply bind_Done in Hs as (c & Hc & Hs). apply Done_inj in Hs as <-.
  assert (minv names n (MkMstate c [] [])) as Hms.
  { apply minv_init. split; [lia|]. by exists c. }
  pose proof (mi_phase _ _ _ Hms) as Hp. unfold MakeCoordinator in Hc.
  destruct (Z.ltb_spec n 0); [done|]. apply Done_inj in Hc as <-.
  split; simpl; try done.
  - intros m t Ht Hs. rewrite list_lookup_imap in Ht. destruct (names !! m); simplify_eq/=.
  - intros r t ->%new_reduce_lookup Hs. done.
Qed.
End job.
End mrjob.
