(* ===== verification/MrSystemTheorems.v ===== *)
(** * Theorems about MapReduce jobs

    The output of a job with crashing, slow and duplicated workers compared with
    the sequential program, the coordinator under such workers, and that a job can
    always be finished. *)

From Stdlib Require Import Ascii.
From S2P Require Import Prelude GoStrings Mr MrFacts MrData MrApps MrTheorems MrSystem MrSystemFacts.
Import gostrings mr mrsequential mrproof mrdata mrsystem mrjob.

Section theorems.
Context (mapf : mapf_t) (reducef : reducef_t) (input : gmap string string) (names : list string) (n : Z).

(** One choice per reduce task. *)
Lemma list_choice {A} (P : nat → A → Prop) k : (∀ r, r < k → ∃ x, P r x) →
  ∃ l, length l = k ∧ ∀ r x, l !! r = Some x → P r x.
Proof.
  induction k as [|k IH]; intros Hk; [by exists []|].
  destruct IH as (l & Hl & Hp); [intros r Hr; apply Hk; lia|]. destruct (Hk k) as [x Hx]; [lia|].
  exists (l ++ [x]). rewrite length_app. simpl. split; [lia|]. intros r y [Hr|[Hr Hy]]%lookup_app_Some; [by apply Hp|].
  apply list_lookup_singleton_Some in Hy as [? <-]. assert (r = k) as -> by lia. done.
Qed.

Lemma mjoin_perm {A} (l1 l2 : list (list A)) : length l1 = length l2 →
  (∀ i x y, l1 !! i = Some x → l2 !! i = Some y → x ≡ₚ y) → mjoin l1 ≡ₚ mjoin l2.
Proof.
  revert l2. induction l1 as [|x l1 IH]; intros [|y l2] Hl Hp; try done.
  rewrite !mjoin_cons. rewrite (Hp 0 x y) by done. rewrite (IH l2); [done|simpl in Hl; lia|].
  intros i u v Hu Hv. by apply (Hp (S i)).
Qed.

(** C5: The output of a MapReduce job is the output of the sequential program.
    Workers are started, killed at any point (also between two renames), repeat
    tasks of other workers or report late, RPCs fail before or after their handler
    ran, and timers expire, in any order; when [Done] answers [true], every reduce
    task has its output file, and all lines together are, up to their order, the
    lines of mrsequential, if the reduce function does not depend on the order of
    the values and the map function gives valid UTF-8 on the input files
    (intermediate files are JSON).  The job starts with no files of an earlier job
    in the temporary directory. *)
Theorem mr_system_output `{KeySorter} s evs s' :
  (0 < n < 2 ^ 63)%Z → (∀ f, f ∈ names → is_Some (input !! f)) → order_free reducef →
  utf8_maps mapf input names →
  start names n = Done s → run mapf reducef input s evs = Some s' → Done_ (jb_c s') = true →
  ∃ outs lines, length outs = Z.to_nat n ∧
    (∀ r ls, outs !! r = Some ls →
      fs_out (jb_fs s') !! out_file (Z.of_nat r) = Some (foldr String.append "" ls)) ∧
    main_lines mapf reducef input names = Done lines ∧ mjoin outs ≡ₚ lines.
Proof.
  intros Hn Hin Hof Hu Hst Hr Hd. pose proof (start_inv mapf reducef input names n Hn s Hst) as Hj.
  destruct (run_inv mapf reducef input names n Hn Hin Hof evs s [] s' Hj Hr) as [hd Hj'].
  destruct (main_lines_spec mapf input names Hin reducef Hof) as (lines & Hl & Hp).
  assert (∀ r, r < Z.to_nat n → good_out mapf reducef input names n (jb_fs s') r) as Hout.
  { intros r Hr'. unfold Done_ in Hd. destruct (bool_decide_reflect (c_status (jb_c s') = ExistPhase)) as [Hs|]; [|done].
    pose proof (mi_phase _ _ _ (ji_ms _ _ _ _ _ _ _ Hj')) as Hph. simpl in Hph. rewrite Hs in Hph.
    destruct Hph as [_ Hall]. destruct (mi_n _ _ _ (ji_ms _ _ _ _ _ _ _ Hj')) as (_ & _ & _ & _ & Hlen).
    simpl in Hlen. destruct (lookup_lt_is_Some_2 (c_reduceTasks (jb_c s')) r) as [t Ht]; [unfold zlen in Hlen; lia|].
    rewrite Forall_lookup in Hall. by apply (ji_reduces _ _ _ _ _ _ _ Hj' r t Ht (Hall r t Ht)). }
  destruct (list_choice (λ r ls, fs_out (jb_fs s') !! out_file (Z.of_nat r) = Some (foldr String.append "" ls) ∧
    ls ≡ₚ spec_lines reducef (part n r (all_pairs mapf input names))) (Z.to_nat n)) as (outs & Hlen & Houts).
  { intros r Hr'. destruct (Hout r Hr') as (text & Ht & ls & -> & Hls). exists ls. split; [done|].
    by rewrite written_valid in Hls by (by apply all_pairs_valid). }
  exists outs, lines. split_and!; [done|by intros r ls Hls; apply Houts|done|].
  rewrite Hp, <- (parts_lines n ltac:(lia) reducef (all_pairs mapf input names) Hof).
  apply mjoin_perm; [by rewrite length_fmap, length_seq|].
  intros r x y Hx Hy. rewrite list_lookup_fmap in Hy.
  destruct (seq 0 (Z.to_nat n) !! r) as [r'|] eqn:Hs; simplify_eq/=. apply lookup_seq in Hs as [-> _].
  by apply Houts.
Qed.
(** ** Finishing a job *)

Notation step := (step mapf reducef input).
Notation run := (run mapf reducef input).
Notation jinv := (jinv mapf reducef input names n).

Lemma job_run_app evs1 evs2 : ∀ s s1, run s evs1 = Some s1 → run s (evs1 ++ evs2) = run s1 evs2.
Proof.
  induction evs1 as [|ev evs1 IH]; intros s s1 Hr; simpl in *; [by simplify_eq|].
  destruct (step s ev) as [[s2| |]|]; try done. by apply IH.
Qed.

(** The task that a request assigns, and what it leaves alone. *)
Lemma request_assigns c now w c' reply o : RequestTask c now (requestTask w) = Done (c', reply, o) →
  c_mapTasksCompleted c' = c_mapTasksCompleted c ∧ c_reduceTasksCompleted c' = c_reduceTasksCompleted c ∧
  match rs_TaskType reply with
  | MapTask => ∃ m t, c_mapTasks c' !! m = Some t ∧ t_Status t = InProgress ∧ t_WorkerID t = w ∧
      t_TaskID t = rs_TaskID reply ∧ o = Some (MapTask, Z.of_nat m)
  | ReduceTask => ∃ r t, c_reduceTasks c' !! r = Some t ∧ t_Status t = InProgress ∧ t_WorkerID t = w ∧
      t_TaskID t = rs_TaskID reply ∧ o = Some (ReduceTask, Z.of_nat r)
  | _ => True
  end.
Proof.
  unfold RequestTask. cbn [rq_WorkerID requestTask]. set (c1 := update_phase (touch_worker c now w)).
  assert (c_mapTasksCompleted c1 = c_mapTasksCompleted c ∧ c_reduceTasksCompleted c1 = c_reduceTasksCompleted c)
    as [Hm Hr] by (unfold c1, update_phase; by repeat (case_match; simpl)).
  intros Hq. destruct (c_status c1) eqn:Hs.
  - destruct (first_idle 0 (c_mapTasks c1)) as [[i t]|] eqn:Hfi; [|apply Done_inj in Hq; by simplify_eq].
    destruct (assign_spec _ _ _ w Hfi) as (j & -> & Hj & _ & Ha). rewrite Ha in Hq.
    cbn [mbind outcome_bind] in Hq. apply Done_inj in Hq. simplify_eq. simpl. split_and!; [done..|].
    eexists j, _. rewrite list_lookup_insert_eq by (by eapply lookup_lt_Some). done.
  - destruct (first_idle 0 (c_reduceTasks c1)) as [[i t]|] eqn:Hfi; [|apply Done_inj in Hq; by simplify_eq].
    destruct (assign_spec _ _ _ w Hfi) as (j & -> & Hj & _ & Ha). rewrite Ha in Hq.
    cbn [mbind outcome_bind] in Hq. apply bind_Done in Hq as (fs & _ & Hq). apply Done_inj in Hq. simplify_eq.
    simpl. split_and!; [done..|]. eexists j, _. rewrite list_lookup_insert_eq by (by eapply lookup_lt_Some). done.
  - apply Done_inj in Hq. by simplify_eq.
Qed.

(** The report of the worker that holds the task counts. *)
Lemma notify_counts c pid ty k id c' t : idx (match ty with MapTask => c_mapTasks c | _ => c_reduceTasks c end) id = Done t →
  t_Status t = InProgress → t_WorkerID t = pid → ty = MapTask ∨ ty = ReduceTask →
  NotifyTaskCompletion c (reportTaskDone pid ty k id) = Done c' →
  (c_mapTasksCompleted c' + c_reduceTasksCompleted c' = c_mapTasksCompleted c + c_reduceTasksCompleted c + 1)%Z.
Proof.
  intros Ht Hs Hw Hty Hc. assert (held_by t pid = true) as Hh.
  { unfold held_by. rewrite bool_decide_eq_true_2 by done. simpl. by apply Z.eqb_eq. }
  unfold NotifyTaskCompletion in Hc. cbn [cp_TaskType cp_TaskID cp_WorkerID reportTaskDone] in Hc.
  destruct Hty as [-> | ->]; rewrite Ht in Hc; cbn [mbind outcome_bind] in Hc; rewrite Hh in Hc.
  - apply bind_Done in Hc as (ts & _ & Hc). apply bind_Done in Hc as (inter & _ & Hc).
    apply Done_inj in Hc as <-. simpl. lia.
  - apply bind_Done in Hc as (ts & _ & Hc). apply Done_inj in Hc as <-. simpl. lia.
Qed.

(** A worker does its task. *)
Lemma rename_all_runs pid reply bufs : ∀ s i, jb_workers s !! pid = Some (WMapping reply i bufs) →
  ∃ evs s', run s evs = Some s' ∧ jb_c s' = jb_c s ∧ jb_timers s' = jb_timers s ∧
    jb_workers s' !! pid = Some (report_of pid reply).
Proof.
  induction bufs as [|b bufs IH]; intros s i Hp.
  - exists [JRename pid]. eexists. simpl. rewrite Hp. split; [done|]. simpl. by rewrite lookup_insert_eq.
  - set (s1 := set_worker (set_files s (MkFiles (<[mr_file (rs_TaskID reply) i := b]> (fs_mr (jb_fs s)))
      (fs_out (jb_fs s)))) pid (WMapping reply (i + 1) bufs)).
    destruct (IH s1 (i + 1)%Z) as (evs & s' & Hr & Hc & Ht & Hw); [simpl; by rewrite lookup_insert_eq|].
    exists (JRename pid :: evs), s'. simpl. rewrite Hp. by split_and!.
Qed.

Lemma work_runs (ro : RangeOrder) s hd pid reply : (0 < n < 2 ^ 63)%Z → (∀ f, f ∈ names → is_Some (input !! f)) →
  jinv s hd → jb_workers s !! pid = Some (WGot reply) →
  rs_TaskType reply = MapTask ∨ rs_TaskType reply = ReduceTask →
  ∃ evs s', run s evs = Some s' ∧ jb_c s' = jb_c s ∧ jb_timers s' = jb_timers s ∧
    jb_workers s' !! pid = Some (report_of pid reply).
Proof.
  intros Hn Hin Hj Hp Hty. pose proof (ji_workers _ _ _ _ _ _ _ Hj _ _ Hp) as Hw. simpl in Hw.
  destruct Hty as [Hty|Hty]; rewrite Hty in Hw.
  - destruct Hw as (m & Hm & -> & _). destruct (map_bufs_spec mapf input names n Hn Hin m Hm) as (bufs & Hb & _).
    destruct (rename_all_runs pid (map_reply names n m) bufs (set_worker s pid (WMapping (map_reply names n m) 0 bufs)) 0)
      as (evs & s' & Hr & Hrest); [simpl; by rewrite lookup_insert_eq|].
    exists (JSwitch pid ro :: evs), s'. simpl. rewrite Hp. unfold switch. rewrite Hb. done.
  - exists [JSwitch pid ro; JRename pid]. eexists. simpl. rewrite Hp. unfold switch. rewrite Hty. simpl.
    rewrite lookup_insert_eq. split; [done|]. simpl. by rewrite lookup_insert_eq.
Qed.

(** The tasks that are not completed. *)
Definition todo (s : job) : Z := (zlen names + n - c_mapTasksCompleted (jb_c s) - c_reduceTasksCompleted (jb_c s))%Z.

Lemma todo_nonneg s hd : jinv s hd → (0 ≤ todo s)%Z.
Proof.
  intros Hj. pose proof (ji_ms _ _ _ _ _ _ _ Hj) as Hms. destruct (mi_n _ _ _ Hms) as (_ & _ & _ & Hm & Hr).
  pose proof (mi_mapcount _ _ _ Hms) as Hmc. pose proof (mi_redcount _ _ _ Hms) as Hrc. simpl in *.
  unfold todo, done_ids, zlen in *. rewrite length_fmap in Hmc, Hrc.
  pose proof (length_filter (λ t, t_Status t = Completed) (c_mapTasks (jb_c s))).
  pose proof (length_filter (λ t, t_Status t = Completed) (c_reduceTasks (jb_c s))). lia.
Qed.

(** Timers can expire until none is left. *)
Lemma expire_runs k : ∀ s hd, length (jb_timers s) = k → jinv s hd → ∃ evs s',
  run s evs = Some s' ∧ jb_timers s' = [] ∧ todo s' = todo s ∧ jb_workers s' = jb_workers s.
Proof.
  induction k as [|k IH]; intros s hd Hk Hj.
  - exists [], s. by apply nil_length_inv in Hk.
  - destruct (jb_timers s) as [|tm tms] eqn:Htm; [done|]. simpl in Hk.
    pose proof (ji_ms _ _ _ _ _ _ _ Hj) as Hms. rewrite Htm in Hms.
    destruct (expire_spec _ _ _ [] tm tms hd Hms) as (c & Hc & _).
    assert (step s (JExpire 0) = Some (Done (MkJob c tms (jb_fs s) (jb_workers s)))) as Hst.
    { simpl. rewrite Htm. simpl. by rewrite Hc. }
    destruct (IH (MkJob c tms (jb_fs s) (jb_workers s)) hd) as (evs & s' & Hr & Ht & Hto & Hw).
    + simpl. lia.
    + by eapply expire_inv.
    + exists (JExpire 0 :: evs), s'. cbn [mrsystem.run]. rewrite Hst. split_and!; [done|done| |done].
      rewrite Hto. unfold todo, waitTask in *. simpl. destruct tm as [[] i]; go_inv; done.
Qed.

(** Without timers no task is in progress, so an unfinished job has a task for a
    worker that asks. *)
Lemma no_timers_answer s hd now w c reply o : jinv s hd → (0 < n)%Z → jb_timers s = [] →
  RequestTask (jb_c s) now (requestTask w) = Done (c, reply, o) →
  rs_TaskType reply ≠ NoTask.
Proof.
  intros Hj Hn Htm Hq Hno. pose proof (ji_ms _ _ _ _ _ _ _ Hj) as Hms.
  destruct (request_spec _ _ _ _ _ now w Hms) as (c1 & r1 & o1 & Hq1 & Hms1 & Hst & Hidle & Hexit & _).
  rewrite Hq in Hq1. simplify_eq. specialize (Hidle Hno).
  assert (o1 = None) as ->.
  { unfold RequestTask in Hq. repeat case_match; go_inv; done. }
  rewrite Htm in Hms1. simpl in Hms1. pose proof (mi_timers _ _ _ Hms1) as (_ & _ & [_ Hm] & [_ Hr]).
  destruct (mi_n _ _ _ Hms1) as (_ & HnR & HnM & HlM & HlR).
  pose proof (mi_mapcount _ _ _ Hms1) as Hmc. pose proof (mi_redcount _ _ _ Hms1) as Hrc. simpl in *.
  destruct (request_assigns _ _ _ _ _ _ Hq) as (Hmc' & Hrc' & _).
  assert (∀ (ts : list Task) ty, table ty ts → Forall (λ t, t_Status t ≠ TIdle) ts →
    (∀ i t, ts !! i = Some t → (t_Status t = InProgress → (ty, Z.of_nat i) ∈ @nil timer) ∧
       (t_Status t = TIdle → (ty, Z.of_nat i) ∉ @nil timer)) → zlen (done_ids ts) = zlen ts) as Hall.
  { intros ts ty Htab Hni Htms. rewrite (done_ids_all ts ty); [unfold zlen; by rewrite length_fmap, length_seq|done|].
    apply Forall_lookup. intros i t Ht. rewrite Forall_lookup in Hni. specialize (Hni i t Ht). simpl in Hni.
    destruct (t_Status t) eqn:Es; try done. destruct (Htms i t Ht) as [Hin _]. apply Hin in Es.
    by apply not_elem_of_nil in Es. }
  destruct (mi_map _ _ _ Hms1) as [Htab _]. pose proof (mi_reduce _ _ _ Hms1) as Htab'. simpl in *.
  unfold update_phase in Hst. cbn [c_status c_mapTasksCompleted c_nMap c_reduceTasksCompleted c_nReduce touch_worker with_workers] in Hst.
  destruct (mi_n _ _ _ Hms) as (_ & HnR0 & HnM0 & _). simpl in HnR0, HnM0.
  destruct (c_status c1) eqn:Es1; [..|done].
  - rewrite (Hall _ MapTask Htab Hidle Hm) in Hmc.
    destruct (bool_decide_reflect (c_status (jb_c s) = MapPhase)) as [Hs0|Hs0]; simpl in Hst.
    + rewrite (proj2 (Z.eqb_eq _ _)) in Hst by congruence. by destruct (_ =? 0)%Z.
    + destruct (bool_decide _ && _); simpl in Hst; congruence.
  - rewrite (Hall _ ReduceTask Htab' Hidle Hr) in Hrc.
    destruct (bool_decide_reflect (c_status (jb_c s) = MapPhase)) as [Hs0|Hs0]; simpl in Hst.
    + assert (c_reduceTasksCompleted (jb_c s) = 0)%Z; [|lia].
      pose proof (mi_redcount _ _ _ Hms) as Hrc0. pose proof (mi_phase _ _ _ Hms) as Hp. simpl in Hrc0, Hp.
      rewrite Hs0 in Hp. by rewrite Hrc0, all_idle_done.
    + destruct (bool_decide_reflect (c_status (jb_c s) = ReducePhase)) as [Hs1|]; simpl in Hst.
      * rewrite (proj2 (Z.eqb_eq _ _)) in Hst by congruence. done.
      * simpl in Hst. congruence.
Qed.
(** Worker [pid] holds the task of [reply]. *)
Definition holds (c : Coordinator) (pid : Z) (reply : TaskResponse) : Prop :=
  let ts := match rs_TaskType reply with MapTask => c_mapTasks c | _ => c_reduceTasks c end in
  (rs_TaskType reply = MapTask ∨ rs_TaskType reply = ReduceTask) ∧
  ∃ t, idx ts (rs_TaskID reply) = Done t ∧ t_Status t = InProgress ∧ t_WorkerID t = pid.

Lemma request_holds s hd now pid c reply o : jinv s hd →
  RequestTask (jb_c s) now (requestTask pid) = Done (c, reply, o) →
  rs_TaskType reply ≠ NoTask → rs_TaskType reply ≠ ExitTask → holds c pid reply.
Proof.
  intros Hj Hq Hno Hex. destruct (request_assigns _ _ _ _ _ _ Hq) as (_ & _ & Has).
  destruct (request_spec _ _ _ _ _ now pid (ji_ms _ _ _ _ _ _ _ Hj)) as (c1 & r1 & o1 & Hq1 & Hms & _).
  rewrite Hq in Hq1. simplify_eq. unfold holds.
  destruct (rs_TaskType r1) eqn:Hty; try done; (split; [by auto|]); destruct Has as (m & t & Ht & ? & ? & <- & _);
    exists t; (split; [|done]).
  - destruct (mi_map _ _ _ Hms) as [Htab _]. destruct (Htab m t Ht) as [_ ->]. by rewrite idx_nat, Ht.
  - destruct (mi_reduce _ _ _ Hms m t Ht) as [_ ->]. by rewrite idx_nat, Ht.
Qed.

Lemma report_runs s hd pid reply : jinv s hd → jb_workers s !! pid = Some (report_of pid reply) →
  holds (jb_c s) pid reply → ∃ s', step s (JReport pid Answered) = Some (Done s') ∧ (todo s' = todo s - 1)%Z.
Proof.
  intros Hj Hw (Hty & t & Ht & Hs & Hp). pose proof (ji_workers _ _ _ _ _ _ _ Hj _ _ Hw) as Hok.
  pose proof (ji_ms _ _ _ _ _ _ _ Hj) as Hms. destruct (mi_n _ _ _ Hms) as (_ & HnR & _). simpl in HnR.
  assert (∃ c, NotifyTaskCompletion (jb_c s) (reportTaskDone pid (rs_TaskType reply) (rs_NReduce reply) (rs_TaskID reply))
    = Done c) as [c Hc].
  { destruct Hok as [(m & Hm & Heq & _)|(r & Hr & Heq & _)]; rewrite Heq.
    - destruct (complete_map _ _ _ _ _ pid (Z.of_nat m) Hms) as (c & Hc & _); [unfold zlen; lia|].
      exists c. by rewrite <- HnR.
    - destruct (complete_reduce _ _ _ _ _ pid (Z.of_nat r) Hms) as (c & Hc & _); [lia|]. by exists c. }
  exists (MkJob c (jb_timers s) (jb_fs s) (<[pid := WAsk]> (jb_workers s))). split.
  - cbn [mrsystem.step]. rewrite Hw. unfold report_of. by rewrite Hc.
  - pose proof (notify_counts _ _ _ _ _ _ _ Ht Hs Hp Hty Hc). unfold todo. simpl. lia.
Qed.

(** One new worker completes one task, or finds the job done. *)
Lemma turn_runs (ro : RangeOrder) s hd : (0 < n < 2 ^ 63)%Z → (∀ f, f ∈ names → is_Some (input !! f)) →
  order_free reducef → jinv s hd → jb_timers s = [] → ∃ evs s' hd', run s evs = Some s' ∧ jinv s' hd' ∧
    (Done_ (jb_c s') = true ∨ jb_timers s' = [] ∧ (todo s' < todo s)%Z).
Proof.
  intros Hn Hin Hof Hj Htm. set (pid := fresh (dom (jb_workers s))).
  assert (jb_workers s !! pid = None) as Hfr by apply not_elem_of_dom, is_fresh.
  set (s1 := set_worker s pid WAsk).
  assert (step s (JSpawn pid) = Some (Done s1)) as Hst1 by (simpl; by rewrite Hfr).
  assert (jinv s1 hd) as Hj1 by (by apply jinv_move).
  destruct (request_spec _ _ _ _ _ 0%Z pid (ji_ms _ _ _ _ _ _ _ Hj1)) as (c & reply & o & Hq & _ & _ & _ & Hexit & _).
  set (s2 := MkJob c (spawned o ++ jb_timers s1) (jb_fs s1) (<[pid := WGot reply]> (jb_workers s1))).
  assert (step s1 (JRequest pid 0 Answered) = Some (Done s2)) as Hst2.
  { cbn [mrsystem.step]. change (jb_workers s1) with (<[pid := WAsk]> (jb_workers s)).
    rewrite lookup_insert_eq, Hq. done. }
  destruct (job_step_inv mapf reducef input names n Hn Hin Hof _ _ _ _ Hj1 Hst2) as [hd2 Hj2].
  assert (run s [JSpawn pid; JRequest pid 0 Answered] = Some s2) as Hr2.
  { cbn [mrsystem.run]. by rewrite Hst1, Hst2. }
  destruct (decide (rs_TaskType reply = ExitTask)) as [Hty|Hty].
  { exists [JSpawn pid; JRequest pid 0 Answered], s2, hd2. split_and!; [done|done|]. left.
    apply (exist_done _ _ _ (ji_ms _ _ _ _ _ _ _ Hj2)). by apply Hexit. }
  pose proof (no_timers_answer s1 hd 0%Z pid c reply o Hj1 ltac:(lia) Htm Hq) as Hno.
  pose proof (request_holds s1 hd 0%Z pid c reply o Hj1 Hq Hno Hty) as Hh.
  destruct (work_runs ro s2 hd2 pid reply Hn Hin Hj2) as (evs3 & s3 & Hr3 & Hc3 & Ht3 & Hw3);
    [simpl; by rewrite lookup_insert_eq|apply Hh|].
  destruct (run_inv mapf reducef input names n Hn Hin Hof evs3 s2 hd2 s3 Hj2 Hr3) as [hd3 Hj3].
  destruct (report_runs s3 hd3 pid reply Hj3 Hw3) as (s4 & Hst4 & Hto4); [by rewrite Hc3|].
  assert (jinv s4 hd3) as Hj4 by (by eapply report_inv).
  destruct (expire_runs _ s4 hd3 eq_refl Hj4) as (evs5 & s5 & Hr5 & Ht5 & Hto5 & _).
  destruct (run_inv mapf reducef input names n Hn Hin Hof evs5 s4 hd3 s5 Hj4 Hr5) as [hd5 Hj5].
  exists ([JSpawn pid; JRequest pid 0 Answered] ++ evs3 ++ [JReport pid Answered] ++ evs5), s5, hd5. split_and!; [|done|].
  - rewrite (job_run_app _ _ s s2 Hr2), (job_run_app _ _ s2 s3 Hr3). cbn [mrsystem.run app]. by rewrite Hst4.
  - right. split; [done|]. destruct (request_assigns _ _ _ _ _ _ Hq) as (Hmc & Hrc & _).
    assert (todo s3 = todo s) as Hto3; [|lia]. unfold todo. rewrite Hc3. simpl. by rewrite Hmc, Hrc.
Qed.

Lemma finish_runs (ro : RangeOrder) k : (0 < n < 2 ^ 63)%Z → (∀ f, f ∈ names → is_Some (input !! f)) →
  order_free reducef → ∀ s hd, jinv s hd → jb_timers s = [] → (todo s ≤ Z.of_nat k)%Z →
  ∃ evs s', run s evs = Some s' ∧ Done_ (jb_c s') = true.
Proof.
  intros Hn Hin Hof. induction k as [|k IH]; intros s hd Hj Htm Hk;
    destruct (turn_runs ro s hd Hn Hin Hof Hj Htm) as (evs & s1 & hd1 & Hr & Hj1 & [Hd|[Ht1 Hto]]); [by eauto| |by eauto|].
  - pose proof (todo_nonneg _ _ Hj1). lia.
  - destruct (IH s1 hd1 Hj1 Ht1) as (evs' & s' & Hr' & Hd'); [lia|].
    exists (evs ++ evs'), s'. by rewrite (job_run_app _ _ s s1 Hr).
Qed.

(** C24: A MapReduce job survives its workers.  Whatever workers, RPCs and timers
    did, no event makes the coordinator panic or exit, and the job can still be
    finished: there are further events after which [Done] answers [true]. *)
Theorem mr_system_survives (ro : RangeOrder) s evs s' :
  (0 < n < 2 ^ 63)%Z → (∀ f, f ∈ names → is_Some (input !! f)) → order_free reducef →
  start names n = Done s → run s evs = Some s' →
  (∀ ev m, step s' ev = Some m → returns m) ∧
  ∃ evs' s2, run s' evs' = Some s2 ∧ Done_ (jb_c s2) = true.
Proof.
  intros Hn Hin Hof Hst Hr. pose proof (start_inv mapf reducef input names n Hn s Hst) as Hj.
  destruct (run_inv mapf reducef input names n Hn Hin Hof evs s [] s' Hj Hr) as [hd Hj'].
  pose proof (ji_ms _ _ _ _ _ _ _ Hj') as Hms. split.
  - intros ev m Hev. destruct ev as [pid|pid|pid now x|pid o|pid|pid x|k]; simpl in Hev.
    + destruct (jb_workers s' !! pid) as [[]|]; simplify_eq; by eexists.
    + simplify_eq. by eexists.
    + destruct (jb_workers s' !! pid) as [[]|]; simplify_eq. destruct (served x); [|by eexists].
      destruct (request_spec _ _ _ _ _ now pid Hms) as (c & reply & o & -> & _). by eexists.
    + destruct (jb_workers s' !! pid) as [[]|]; simplify_eq; by eexists.
    + destruct (jb_workers s' !! pid) as [[| |? ? []| | |]|]; simplify_eq; by eexists.
    + destruct (jb_workers s' !! pid) as [[]|] eqn:Hp; simplify_eq. destruct (served x); [|by eexists].
      destruct (mi_n _ _ _ Hms) as (_ & HnR & _). simpl in HnR.
      destruct (ji_workers _ _ _ _ _ _ _ Hj' _ _ Hp) as [(m & Hm & -> & _)|(r & Hrn & -> & _)].
      * destruct (complete_map _ _ _ _ _ pid (Z.of_nat m) Hms) as (c & Hc & _); [unfold zlen; lia|].
        rewrite HnR in Hc. rewrite Hc. by eexists.
      * destruct (complete_reduce _ _ _ _ _ pid (Z.of_nat r) Hms) as (c & Hc & _); [lia|].
        simpl in Hc. rewrite HnR in Hc. rewrite Hc. by eexists.
    + destruct (jb_timers s' !! k) as [tm|] eqn:Hk; simplify_eq/=.
      rewrite <- (take_drop_middle _ _ _ Hk) in Hms.
      destruct (expire_spec _ _ _ _ _ _ _ Hms) as (c & -> & _). by eexists.
  - destruct (expire_runs _ s' hd eq_refl Hj') as (evs1 & s1 & Hr1 & Ht1 & _ & _).
    destruct (run_inv mapf reducef input names n Hn Hin Hof evs1 s' hd s1 Hj' Hr1) as [hd1 Hj1].
    destruct (finish_runs ro (Z.to_nat (todo s1)) Hn Hin Hof s1 hd1 Hj1 Ht1) as (evs2 & s2 & Hr2 & Hd).
    { pose proof (todo_nonneg _ _ Hj1). lia. }
    exists (evs1 ++ evs2), s2. by rewrite (job_run_app _ _ s' s1 Hr1).
Qed.
End theorems.

(** ** A job with crashes *)

Module demo_job.
#[local] Existing Instance id_order.
#[local] Existing Instance key_sorter.

Definition texts : gmap string string := {["f" := "a b"; "g" := "b"]}.
Definition begun : job :=
  match start ["f"; "g"] 2 with Done s => s | _ => MkJob (MkCoordinator [] [] 0 0 ∅ 0 [] 0 0 MapPhase) [] (MkFiles ∅ ∅) ∅ end.

(** A map task by worker [pid]; a reduce task. *)
Definition map_work (pid : Z) : list event :=
  [JRequest pid 1 Answered; JSwitch pid id_order; JRename pid; JRename pid; JRename pid; JReport pid Answered].
Definition reduce_work (pid : Z) : list event :=
  [JRequest pid 1 Answered; JSwitch pid id_order; JRename pid; JReport pid Answered].

(** Worker 7 is killed after its first rename, its timer expires and worker 8 does
    the task again; worker 9 loses the reply to a request. *)
Definition crashes : list event :=
  [JSpawn 7; JSpawn 8; JSpawn 9; JRequest 7 1 Answered; JSwitch 7 id_order; JRename 7; JCrash 7;
   JRequest 9 1 (Broken true); JExpire 1; JExpire 0] ++
  map_work 8 ++ map_work 8 ++ reduce_work 8 ++ reduce_work 9 ++ [JRequest 8 1 Answered].

Definition ended : job := default begun (run wc.Map wc.Reduce texts begun crashes).

Lemma texts_there f : f ∈ ["f"; "g"] → is_Some (texts !! f).
Proof.
  intros Hf. rewrite !elem_of_cons in Hf. destruct Hf as [->|[->|?%not_elem_of_nil]]; [by eexists..|done].
Qed.

Lemma wc_order_free : order_free wc.Reduce.
Proof. intros k vs vs' Hp. unfold wc.Reduce, zlen. by rewrite Hp. Qed.

Lemma texts_utf8 : utf8_maps wc.Map texts ["f"; "g"].
Proof.
  intros f c Hf Hc. rewrite !elem_of_cons in Hf. destruct Hf as [->|[->|?%not_elem_of_nil]]; [..|done];
    vm_compute in Hc; injection Hc as <-; apply (bool_decide_unpack _); vm_compute; exact I.
Qed.

Lemma job_begun_start : start ["f"; "g"] 2 = Done begun.
Proof. vm_compute. reflexivity. Qed.
End demo_job.
Import demo_job.
#[local] Existing Instance key_sorter.

Lemma mr_system_output_witness : ∃ outs lines, length outs = 2 ∧
  (∀ r ls, outs !! r = Some ls →
    fs_out (jb_fs ended) !! out_file (Z.of_nat r) = Some (foldr String.append "" ls)) ∧
  main_lines wc.Map wc.Reduce texts ["f"; "g"] = Done lines ∧ mjoin outs ≡ₚ lines.
Proof.
  apply (mr_system_output wc.Map wc.Reduce texts ["f"; "g"] 2 begun crashes ended).
  - lia.
  - exact texts_there.
  - exact wc_order_free.
  - exact texts_utf8.
  - exact job_begun_start.
  - vm_compute. reflexivity.
  - vm_compute. reflexivity.
Defined.

(** Worker 7 is dead and its task still assigned to it. *)
Definition orphaned : job := default begun (run wc.Map wc.Reduce texts begun (take 7 crashes)).

Lemma mr_system_survives_witness : ∃ evs s,
  run wc.Map wc.Reduce texts orphaned evs = Some s ∧ Done_ (jb_c s) = true.
Proof.
  apply (mr_system_survives wc.Map wc.Reduce texts ["f"; "g"] 2 id_order begun (take 7 crashes) orphaned).
  - lia.
  - exact texts_there.
  - exact wc_order_free.
  - exact job_begun_start.
  - vm_compute. reflexivity.
Defined.
