(* ===== verification/MrTiming.v ===== *)
(** * mrapps/mtiming.go and mrapps/rtiming.go: workers that count each other

    [nparallel] as it runs in several worker processes that share a directory: a
    process writes its file, lists the directory and counts the live processes it
    finds there, sleeps, and removes its file.  The names of files have no white
    space.  Writing the file and opening the directory do not fail. *)

From Stdlib Require Import Ascii DecimalString.
From S2P Require Import Prelude GoStrings Mr MrApps.

Module nparallel.
Import gostrings mr.

(** [fmt.Sprintf("mr-worker-%s-%d", phase, pid)] *)
Definition myfilename (phase : string) (pid : Z) : string :=
  "mr-worker-" +:+ phase +:+ "-" +:+ Itoa pid.

Fixpoint take_digits (s : string) : string :=
  match s with
  | "" => ""
  | String c s' => if is_digit c then String c (take_digits s') else ""
  end.

(** [fmt.Sscanf(name, "mr-worker-<phase>-%d", &xpid)]: the longest prefix that is a
    number counts, and what follows is not read. *)
Definition Sscanf_pid (phase name : string) : option Z :=
  rest ← strip_prefix ("mr-worker-" +:+ phase +:+ "-") name;
  Atoi (match rest with
        | String "+"%char s => String "+"%char (take_digits s)
        | String "-"%char s => String "-"%char (take_digits s)
        | s => take_digits s
        end).

(** The loop over the names; [alive pid] says whether [syscall.Kill(pid, 0)]
    succeeds. *)
Fixpoint count_alive (phase : string) (alive : Z → bool) (names : list string) (ret : Z) : Z :=
  match names with
  | [] => ret
  | name :: names' =>
      match Sscanf_pid phase name with
      | Some xpid => count_alive phase alive names' (if alive xpid then ret + 1 else ret)
      | None => count_alive phase alive names' ret
      end
  end.

(** Where a process is inside [nparallel]. *)
Inductive phase_state :=
  | Written                 (* its file is written *)
  | Counted (ret : Z).      (* the directory is read; asleep *)

Record shared := MkShared { sh_dir : gset string; sh_procs : gmap Z phase_state }.

Inductive event := EWrite (pid : Z) | EScan (pid : Z) | ERemove (pid : Z).

(** [dd.Readdirnames(n)]: at most [n] names. *)
Fixpoint Readdirnames (n : Z) (l : list string) : list string :=
  match l with
  | [] => []
  | x :: l' => if (n <=? 0)%Z then [] else x :: Readdirnames (n - 1) l'
  end.

(** [Readdirnames] gives an error when it gives no name. *)
Definition scan (phase : string) (σ : shared) : outcome Z :=
  let names := Readdirnames 1000000 (elements (sh_dir σ)) in
  match names with
  | [] => Panic "EOF"
  | _ => Done (count_alive phase (λ p, bool_decide (is_Some (sh_procs σ !! p))) names 0)
  end.

(** One step of a process; the result of [ERemove] is what [nparallel] returns. *)
Definition step (phase : string) (σ : shared) (ev : event) : option (outcome (shared * option Z)) :=
  match ev with
  | EWrite pid =>
      match sh_procs σ !! pid with
      | None => Some (Done (MkShared ({[myfilename phase pid]} ∪ sh_dir σ) (<[pid := Written]> (sh_procs σ)), None))
      | Some _ => None
      end
  | EScan pid =>
      match sh_procs σ !! pid with
      | Some Written => Some (
          let! ret := scan phase σ in
          Done (MkShared (sh_dir σ) (<[pid := Counted ret]> (sh_procs σ)), None))
      | _ => None
      end
  | ERemove pid =>
      match sh_procs σ !! pid with
      | Some (Counted ret) => Some (
          if decide (myfilename phase pid ∈ sh_dir σ)
          then Done (MkShared (sh_dir σ ∖ {[myfilename phase pid]}) (delete pid (sh_procs σ)), Some ret)
          else Panic "remove: no such file or directory")
      | _ => None
      end
  end.

Fixpoint run (phase : string) (σ : shared) (evs : list event) : option shared :=
  match evs with
  | [] => Some σ
  | ev :: evs' => match step phase σ ev with Some (Done (σ1, _)) => run phase σ1 evs' | _ => None end
  end.

End nparallel.

Module mtiming_app.
Import gostrings mr.

(** [ts] is the time as [%.1f], [n] the result of [nparallel("map")]. *)
Definition Map (pid : Z) (ts : string) (n : Z) (filename contents : string) : list KeyValue :=
  [MkKeyValue ("times-" +:+ Itoa pid) ts; MkKeyValue ("parallel-" +:+ Itoa pid) (Itoa n)].

End mtiming_app.

Module rtiming_app.
Import gostrings mr.

(** [n] is the result of [nparallel("reduce")]. *)
Definition Reduce (n : Z) (key : string) (vals : list string) : string := Itoa n.

End rtiming_app.

(** ** What the processes count *)

Section counting.
Import gostrings mr nparallel.
Context (phase : string).
Implicit Types σ : shared.

Lemma take_digits_all s : (∀ c, c ∈ Strings.String.list_ascii_of_string s → is_digit c = true) → take_digits s = s.
Proof.
  induction s as [|c s IH]; intros Hs; [done|]. simpl in *. rewrite Hs by left. rewrite IH; [done|].
  intros d Hd. apply Hs. by right.
Qed.

Lemma uint_digits d c : c ∈ Strings.String.list_ascii_of_string (DecimalString.NilEmpty.string_of_uint d) → is_digit c = true.
Proof.
  induction d; simpl; try (by intros ?%not_elem_of_nil); (intros [->|?]%elem_of_cons; [done|auto]).
Qed.

Lemma Itoa_digits z c : (0 ≤ z)%Z → c ∈ Strings.String.list_ascii_of_string (Itoa z) → is_digit c = true.
Proof.
  intros Hz. unfold Itoa, Z.to_int. destruct z as [|p|p]; [|..|lia].
  - intros [->|?%not_elem_of_nil]%elem_of_cons; done.
  - unfold DecimalString.NilZero.string_of_int, DecimalString.NilZero.string_of_uint.
    destruct (Pos.to_uint p) eqn:E; [intros [->|?%not_elem_of_nil]%elem_of_cons; done|..];
      rewrite <- E; apply uint_digits.
Qed.

Lemma strip_prefix_app p s : strip_prefix p (p +:+ s) = Some s.
Proof. induction p as [|c p IH]; simpl; [by destruct s|]. by rewrite Ascii.eqb_refl. Qed.

(** A process finds its own pid in the name of its file. *)
Lemma Sscanf_myfilename pid : (0 ≤ pid < 2 ^ 63)%Z → Sscanf_pid phase (myfilename phase pid) = Some pid.
Proof.
  intros Hp. unfold Sscanf_pid, myfilename.
  assert (∀ a b c : string, a +:+ b +:+ c = (a +:+ b) +:+ c) as Hassoc.
  { intros a b c. induction a as [|x a IH]; [done|].
    change (String x (a +:+ b +:+ c) = String x ((a +:+ b) +:+ c)). by rewrite IH. }
  rewrite (Hassoc phase "-" (Itoa pid)), (Hassoc "mr-worker-" (phase +:+ "-")), strip_prefix_app. simpl.
  assert (∀ c s, Itoa pid = String c s → is_digit c = true) as Hhead.
  { intros c s Heq. apply (Itoa_digits pid); [lia|]. rewrite Heq. left. }
  assert (take_digits (Itoa pid) = Itoa pid) as Htake.
  { apply take_digits_all. intros c. apply Itoa_digits. lia. }
  rewrite <- (Atoi_Itoa pid) by lia. f_equal.
  destruct (Itoa pid) as [|c s] eqn:E; [done|]. specialize (Hhead c s eq_refl).
  destruct c as [[] [] [] [] [] [] [] []]; done.
Qed.

Lemma myfilename_inj p q : (0 ≤ p < 2 ^ 63)%Z → (0 ≤ q < 2 ^ 63)%Z → myfilename phase p = myfilename phase q → p = q.
Proof. intros Hp Hq Heq. apply (f_equal (Sscanf_pid phase)) in Heq. rewrite !Sscanf_myfilename in Heq by done. by simplify_eq. Qed.

(** The name counts. *)
Definition counts (alive : Z → bool) (nm : string) : bool :=
  match Sscanf_pid phase nm with Some p => alive p | None => false end.

Lemma count_alive_filter alive names ret : count_alive phase alive names ret =
  (ret + zlen (filter (λ nm, counts alive nm = true) names))%Z.
Proof.
  revert ret. induction names as [|nm names IH]; intros ret; simpl; [unfold zlen; simpl; lia|].
  rewrite filter_cons. assert (counts alive nm = match Sscanf_pid phase nm with Some p => alive p | None => false end) as Hc by done.
  destruct (Sscanf_pid phase nm) as [p|] eqn:Hp; rewrite IH.
  - destruct (alive p); [rewrite decide_True by done|rewrite decide_False by congruence]; unfold zlen; simpl; lia.
  - by rewrite decide_False by congruence.
Qed.

(** The files of the phase are those of the processes inside [nparallel]. *)
Record ninv (dir0 : gset string) σ : Prop := {
  nv_pids p st : sh_procs σ !! p = Some st → (0 ≤ p < 2 ^ 63)%Z;
  nv_mine p st : sh_procs σ !! p = Some st → myfilename phase p ∈ sh_dir σ;
  nv_dir nm : nm ∈ sh_dir σ → nm ∈ dir0 ∨ ∃ p st, sh_procs σ !! p = Some st ∧ nm = myfilename phase p;
  nv_seen p q a b : p ≠ q → sh_procs σ !! p = Some (Counted a) → sh_procs σ !! q = Some (Counted b) →
    (2 ≤ a ∨ 2 ≤ b)%Z;
}.

Lemma Readdirnames_all k l : (zlen l ≤ k)%Z → Readdirnames k l = l.
Proof.
  revert k. induction l as [|x l IH]; intros k Hk; simpl; [done|]. unfold zlen in *. simpl in Hk.
  destruct (Z.leb_spec k 0); [lia|]. rewrite IH by lia. done.
Qed.

Lemma scan_counts dir0 σ ret : (∀ nm, nm ∈ dir0 → Sscanf_pid phase nm = None) → ninv dir0 σ →
  (Z.of_nat (size (sh_dir σ)) ≤ 1000000)%Z → scan phase σ = Done ret → ret = Z.of_nat (size (sh_procs σ)).
Proof.
  intros Hd0 Hinv Hsz Hs. unfold scan in Hs.
  assert (Readdirnames 1000000 (elements (sh_dir σ)) = elements (sh_dir σ)) as Htk.
  { apply Readdirnames_all. exact Hsz. }
  rewrite Htk in Hs. destruct (elements (sh_dir σ)) as [|x l] eqn:Hne; [done|]. rewrite <- Hne in Hs.
  apply Done_inj in Hs as <-. rewrite count_alive_filter, Z.add_0_l. unfold zlen. f_equal.
  rewrite <- (size_dom (D := gset Z)). unfold size, set_size. simpl.
  rewrite <- (length_fmap (myfilename phase) (elements (dom (sh_procs σ)))).
  apply Permutation_length, NoDup_Permutation.
  - apply NoDup_filter, NoDup_elements.
  - apply NoDup_fmap_2_strong; [|apply NoDup_elements]. intros p q.
    rewrite !elem_of_elements, !elem_of_dom. intros [a Ha] [b Hb]. apply myfilename_inj; by eapply nv_pids.
  - intros nm. rewrite list_elem_of_filter, list_elem_of_fmap, elem_of_elements. split.
    + intros [Hp Hnm]. destruct (nv_dir _ _ Hinv nm Hnm) as [Hin|(p & st & Hst & ->)].
      * unfold counts in Hp. by rewrite (Hd0 nm Hin) in Hp.
      * exists p. rewrite elem_of_elements, elem_of_dom. by eauto.
    + intros (p & -> & Hp). apply elem_of_elements, elem_of_dom in Hp as [st Hst].
      unfold counts. rewrite Sscanf_myfilename by (by eapply nv_pids). rewrite bool_decide_eq_true_2 by (by eexists).
      split; [done|]. by eapply nv_mine.
Qed.
(** The run fits the listing of the directory. *)
Definition small σ : Prop := (Z.of_nat (size (sh_dir σ)) ≤ 1000000)%Z.

Lemma dir_step dir0 σ ev σ' o : (∀ nm, nm ∈ dir0 → Sscanf_pid phase nm = None) →
  (∀ pid, ev = EWrite pid → (0 ≤ pid < 2 ^ 63)%Z) → small σ → ninv dir0 σ →
  step phase σ ev = Some (Done (σ', o)) → ninv dir0 σ'.
Proof.
  intros Hd0 Hpid Hsm Hinv Hst. destruct ev as [pid|pid|pid]; simpl in Hst.
  - destruct (sh_procs σ !! pid) eqn:Hp; simplify_eq. split; simpl.
    + intros p st. rewrite lookup_insert_Some. intros [[<- _]|[_ H]]; [by apply Hpid|by eapply nv_pids].
    + intros p st. rewrite lookup_insert_Some, elem_of_union, elem_of_singleton.
      intros [[<- _]|[_ H]]; [by left|right; by eapply nv_mine].
    + intros nm. rewrite elem_of_union, elem_of_singleton. intros [->|Hnm].
      * right. exists pid, Written. by rewrite lookup_insert_eq.
      * destruct (nv_dir _ _ Hinv nm Hnm) as [?|(p & st & H & ->)]; [by left|right].
        exists p, st. rewrite lookup_insert_ne; [done|congruence].
    + intros p q a b Hne. rewrite !lookup_insert_Some. intros [[_ [=]]|[_ Ha]] [[_ [=]]|[_ Hb]].
      by eapply (nv_seen _ _ Hinv p q).
  - destruct (sh_procs σ !! pid) as [[|]|] eqn:Hp; try done. injection Hst as Hst.
    apply bind_Done in Hst as (ret & Hret & Hst). apply Done_inj, pair_equal_spec in Hst as [<- <-].
    pose proof (scan_counts dir0 σ ret Hd0 Hinv Hsm Hret) as ->.
    assert (∀ q st, q ≠ pid → sh_procs σ !! q = Some st → (2 ≤ Z.of_nat (size (sh_procs σ)))%Z) as Htwo.
    { intros q st Hne Hq. rewrite <- (insert_delete_id (sh_procs σ) pid Written Hp) at 1.
      rewrite map_size_insert_None by apply lookup_delete_eq.
      assert (size (delete pid (sh_procs σ)) ≠ 0); [|lia]. intros H0%map_size_empty_inv.
      assert (delete pid (sh_procs σ) !! q = Some st) as Hd by (by rewrite lookup_delete_ne).
      by rewrite H0, lookup_empty in Hd. }
    split; simpl.
    + intros p st. rewrite lookup_insert_Some. intros [[<- _]|[_ H]]; by eapply nv_pids.
    + intros p st. rewrite lookup_insert_Some. intros [[<- _]|[_ H]]; by eapply nv_mine.
    + intros nm Hnm. destruct (nv_dir _ _ Hinv nm Hnm) as [?|(p & st & H & ->)]; [by left|right].
      destruct (decide (p = pid)) as [->|Hne].
      * exists pid, (Counted (Z.of_nat (size (sh_procs σ)))). by rewrite lookup_insert_eq.
      * exists p, st. by rewrite lookup_insert_ne.
    + intros p q a b Hne. rewrite !lookup_insert_Some. intros [[<- [= <-]]|[Hp1 Ha]] [[<- [= <-]]|[Hq1 Hb]]; try done.
      * left. by eapply Htwo.
      * right. by eapply Htwo.
      * by eapply (nv_seen _ _ Hinv p q).
  - destruct (sh_procs σ !! pid) as [[|ret]|] eqn:Hp; try done. case_decide as Hin; [|done]. simplify_eq.
    split; simpl.
    + intros p st [_ H]%lookup_delete_Some. by eapply nv_pids.
    + intros p st [Hne H]%lookup_delete_Some. apply elem_of_difference. split; [by eapply nv_mine|].
      rewrite elem_of_singleton. intros Heq. apply Hne. symmetry. apply myfilename_inj; [by eapply nv_pids..|done].
    + intros nm [Hnm Hno]%elem_of_difference. rewrite elem_of_singleton in Hno.
      destruct (nv_dir _ _ Hinv nm Hnm) as [?|(p & st & H & ->)]; [by left|right].
      exists p, st. rewrite lookup_delete_ne; [done|congruence].
    + intros p q a b Hne [_ Ha]%lookup_delete_Some [_ Hb]%lookup_delete_Some. by eapply (nv_seen _ _ Hinv p q).
Qed.

(** The processes start in a directory without files of the phase, and the
    listings are complete. *)
Inductive reach (dir0 : gset string) : shared → Prop :=
  | reach_start : reach dir0 (MkShared dir0 ∅)
  | reach_step σ ev σ' o : reach dir0 σ → small σ → (∀ pid, ev = EWrite pid → (0 ≤ pid < 2 ^ 63)%Z) →
      step phase σ ev = Some (Done (σ', o)) → reach dir0 σ'.

Lemma reach_dir dir0 σ : (∀ nm, nm ∈ dir0 → Sscanf_pid phase nm = None) → reach dir0 σ → ninv dir0 σ.
Proof.
  intros Hd0. induction 1 as [|σ ev σ' o _ IH Hsm Hpid Hst]; [|by eapply dir_step].
  split; simpl; try (by intros ? ? ?%lookup_empty_Some).
  - by left.
  - intros p q a b _ Ha. by rewrite lookup_empty in Ha.
Qed.

(** [nparallel] counts the workers that run in parallel.  Among processes
    that share the directory, a process that reads it counts exactly those that
    have written their file and not yet removed it, itself included; so of two
    processes that are both past their count at some moment, one has counted at
    least two. *)
Theorem nparallel_counts dir0 σ : (∀ nm, nm ∈ dir0 → Sscanf_pid phase nm = None) → reach dir0 σ → small σ →
  (∀ pid, sh_procs σ !! pid = Some Written → ∃ σ', step phase σ (EScan pid) = Some (Done (σ', None)) ∧
     sh_procs σ' !! pid = Some (Counted (Z.of_nat (size (sh_procs σ))))) ∧
  (∀ p q a b, p ≠ q → sh_procs σ !! p = Some (Counted a) → sh_procs σ !! q = Some (Counted b) → (2 ≤ a ∨ 2 ≤ b)%Z).
Proof.
  intros Hd0 Hr Hsm. pose proof (reach_dir _ _ Hd0 Hr) as Hinv. split; [|apply (nv_seen _ _ Hinv)].
  intros pid Hp. assert (∃ ret, scan phase σ = Done ret) as [ret Hret].
  { unfold scan. destruct (Readdirnames 1000000 (elements (sh_dir σ))) eqn:E; [|by eexists].
    pose proof (nv_mine _ _ Hinv _ _ Hp) as Hm. apply elem_of_elements in Hm.
    destruct (elements (sh_dir σ)); [by apply not_elem_of_nil in Hm|done]. }
  eexists. simpl. rewrite Hp, Hret. split; [done|]. simpl. rewrite lookup_insert_eq.
  by rewrite (scan_counts dir0 σ ret Hd0 Hinv Hsm Hret).
Qed.
End counting.

(** Two workers overlap, and the second counts both. *)
Lemma nparallel_counts_witness : ∃ σ',
  nparallel.run "map" (nparallel.MkShared {["pg.txt"; "mr-out-0"]} ∅)
    [nparallel.EWrite 7; nparallel.EScan 7; nparallel.EWrite 8; nparallel.EScan 8] = Some σ' ∧
  nparallel.sh_procs σ' !! 8%Z = Some (nparallel.Counted 2).
Proof.
  set (σ0 := nparallel.MkShared {["pg.txt"; "mr-out-0"]} ∅).
  set (σ1 := nparallel.MkShared {["mr-worker-map-7"; "pg.txt"; "mr-out-0"]} (<[7%Z := nparallel.Written]> ∅)).
  set (σ2 := nparallel.MkShared {["mr-worker-map-7"; "pg.txt"; "mr-out-0"]} (<[7%Z := nparallel.Counted 1]> ∅)).
  set (σ3 := nparallel.MkShared {["mr-worker-map-8"; "mr-worker-map-7"; "pg.txt"; "mr-out-0"]}
    (<[8%Z := nparallel.Written]> (<[7%Z := nparallel.Counted 1]> ∅))).
  assert (∀ nm, nm ∈ ({["pg.txt"; "mr-out-0"]} : gset string) → nparallel.Sscanf_pid "map" nm = None) as Hd0.
  { intros nm. rewrite elem_of_union, !elem_of_singleton. by intros [-> | ->]. }
  assert (reach "map" {["pg.txt"; "mr-out-0"]} σ3) as Hr.
  { apply (reach_step "map" _ σ2 (nparallel.EWrite 8) σ3 None);
      [|apply Z.leb_le; vm_compute; reflexivity|intros ? [= <-]; lia|vm_compute; reflexivity].
    apply (reach_step "map" _ σ1 (nparallel.EScan 7) σ2 None);
      [|apply Z.leb_le; vm_compute; reflexivity|done|vm_compute; reflexivity].
    apply (reach_step "map" _ σ0 (nparallel.EWrite 7) σ1 None);
      [constructor|apply Z.leb_le; vm_compute; reflexivity|intros ? [= <-]; lia|vm_compute; reflexivity]. }
  destruct (nparallel_counts "map" _ _ Hd0 Hr) as [Hc _]; [apply Z.leb_le; vm_compute; reflexivity|].
  destruct (Hc 8%Z) as (σ' & Hst & Hp); [vm_compute; reflexivity|].
  exists σ'. split; [|exact Hp]. vm_compute in Hst. injection Hst as <-. vm_compute. reflexivity.
Defined.
