(* ===== verification/Programs.v ===== *)
(** * The programs of main/

    The command lines of mrcoordinator.go, mrworker.go and mrsequential.go, and of the programs of
    earlier labs, whose packages (diskv, pbservice, viewservice, lockservice) are not
    in the repository: what such a program asks of its package is the value it ends
    with.  [args] is [os.Args]; [os.Exit(1)] is [Fatal]. *)

From Stdlib Require Import Ascii DecimalString.
From S2P Require Import Prelude GoStrings Mr MrFacts MrSystem.
Import gostrings.
Open Scope Z_scope.

Definition exit_1 {A} : outcome A := Fatal "os.Exit(1)".

(** ** main/mrcoordinator.go *)
Module mrcoordinator.
Import mr.

(** The coordinator it makes. *)
Definition main (args : list string) : outcome Coordinator :=
  if zlen args <? 2 then exit_1
  else let! files := slice_from args 1 in MakeCoordinator files 10.

(** The loop [for m.Done() == false]: the coordinator as it is found once a
    second; the number of polls until it ends. *)
Fixpoint poll (obs : list Coordinator) : option Z :=
  match obs with
  | [] => None
  | c :: obs' => if negb (Done_ c) then (λ k, k + 1) <$> poll obs' else Some 1
  end.
End mrcoordinator.

(** ** main/mrworker.go *)
Module mrworker.
Import mr.

(** A symbol of a plugin with its dynamic type. *)
Inductive symbol := SMap (f : mapf_t) | SReduce (f : reducef_t) | SOther.

(** The plugins that [plugin.Open] can load. *)
Definition plugins : Type := gmap string (gmap string symbol).

Definition loadPlugin (ps : plugins) (filename : string) : outcome (mapf_t * reducef_t) :=
  match (ps : gmap string (gmap string symbol)) !! filename with
  | None => Fatal "cannot load plugin"
  | Some p =>
      match p !! "Map" with
      | None => Fatal "cannot find Map"
      | Some xmapf =>
          match xmapf with
          | SMap mapf =>
              match p !! "Reduce" with
              | None => Fatal "cannot find Reduce"
              | Some (SReduce reducef) => Done (mapf, reducef)
              | Some _ => Panic "interface conversion"
              end
          | _ => Panic "interface conversion"
          end
      end
  end.

(** The functions that [Worker] runs with. *)
Definition main (ps : plugins) (args : list string) : outcome (mapf_t * reducef_t) :=
  if negb (zlen args =? 2) then exit_1
  else let! filename := idx args 1 in loadPlugin ps filename.
End mrworker.

(** ** main/mrsequential.go: the command line of [mrsequential.main] in Mr.v *)
Module mrseq.
Import mr.

(** The same text as in mrworker.go. *)
Definition loadPlugin : mrworker.plugins → string → outcome (mapf_t * reducef_t) := mrworker.loadPlugin.

(** The text of mr-out-0. *)
Definition main `{mrsequential.KeySorter} (ps : mrworker.plugins) (input : gmap string string)
    (args : list string) : outcome string :=
  if zlen args <? 3 then exit_1
  else
    let! filename := idx args 1 in
    let! '(mapf, reducef) := loadPlugin ps filename in
    let! files := slice_from args 2 in
    mrsequential.main mapf reducef input files.
End mrseq.

(** ** strconv with ignored errors *)

(** The value of [strconv.ParseInt(s, 10, 64)] and [strconv.Atoi(s)]: 0 if [s] is
    no number, the nearest number if it is out of range. *)
Definition ParseInt (s : string) : Z :=
  match (match s with
         | String "+"%char s' => (Z.of_int ∘ Decimal.Pos) <$> NilZero.uint_of_string s'
         | _ => Z.of_int <$> NilZero.int_of_string s
         end) with
  | None => 0
  | Some n => Z.min (2 ^ 63 - 1) (Z.max (- 2 ^ 63) n)
  end.

(** The value of [strconv.ParseBool(s)]. *)
Definition ParseBool (s : string) : bool :=
  bool_decide (s ∈ ["1"; "t"; "T"; "TRUE"; "true"; "True"]).

(** ** main/diskvd.go *)
Module diskvd.

Record flags := MkFlags {
  gid : Z;
  masters : list string;
  replicas : list string;
  me : Z;
  unreliable : bool;
  dir : string;
  restart : bool;
}.

Definition no_flags : flags := MkFlags (-1) [] [] (-1) false "" false.

Definition usage {A} : outcome A := exit_1.

(** The body of the loop: one flag with its value. *)
Definition set_flag (f : flags) (a0 a1 : string) : outcome flags :=
  if String.eqb a0 "-g" then
    Done (MkFlags (ParseInt a1) (masters f) (replicas f) (me f) (unreliable f) (dir f) (restart f))
  else if String.eqb a0 "-m" then
    Done (MkFlags (gid f) (masters f ++ [a1]) (replicas f) (me f) (unreliable f) (dir f) (restart f))
  else if String.eqb a0 "-s" then
    Done (MkFlags (gid f) (masters f) (replicas f ++ [a1]) (me f) (unreliable f) (dir f) (restart f))
  else if String.eqb a0 "-i" then
    Done (MkFlags (gid f) (masters f) (replicas f) (ParseInt a1) (unreliable f) (dir f) (restart f))
  else if String.eqb a0 "-u" then
    Done (MkFlags (gid f) (masters f) (replicas f) (me f) (ParseBool a1) (dir f) (restart f))
  else if String.eqb a0 "-d" then
    Done (MkFlags (gid f) (masters f) (replicas f) (me f) (unreliable f) a1 (restart f))
  else if String.eqb a0 "-r" then
    Done (MkFlags (gid f) (masters f) (replicas f) (me f) (unreliable f) (dir f) (ParseBool a1))
  else usage.

(** [for i := 1; i+1 < len(os.Args); i += 2]: a last flag without value is not read. *)
Fixpoint parse (f : flags) (args : list string) : outcome flags :=
  match args with
  | a0 :: a1 :: args' => let! f := set_flag f a0 a1 in parse f args'
  | _ => Done f
  end.

(** The arguments of [diskv.StartServer] and [Setunreliable]. *)
Definition main (args : list string) : outcome flags :=
  let! f := parse no_flags (drop 1 args) in
  if (gid f <? 0) || (me f <? 0) || (zlen (masters f) <? 1) || (zlen (replicas f) <=? me f)
     || String.eqb (dir f) "" then usage
  else Done f.
End diskvd.

(** ** main/pbc.go, pbd.go, viewd.go, lockc.go, lockd.go *)

(** What the programs ask of their packages. *)
Inductive request_of :=
  | PbGet (viewport key : string) | PbPut (viewport key value : string)
  | PbServer (viewport myport : string)
  | ViewServer (port : string)
  | Lock (primary backup name : string) | Unlock (primary backup name : string)
  | LockServer (primaryport backupport : string) (am_primary : bool).

Module pbc.
Definition main (args : list string) : outcome request_of :=
  match args with
  | [_; a1; a2] => Done (PbGet a1 a2)
  | [_; a1; a2; a3] => Done (PbPut a1 a2 a3)
  | _ => exit_1
  end.
End pbc.

Module pbd.
Definition main (args : list string) : outcome request_of :=
  match args with [_; a1; a2] => Done (PbServer a1 a2) | _ => exit_1 end.
End pbd.

Module viewd.
Definition main (args : list string) : outcome request_of :=
  match args with [_; a1] => Done (ViewServer a1) | _ => exit_1 end.
End viewd.

Module lockc.
(** [MakeClerk] comes before the flag is looked at. *)
Definition main (args : list string) : outcome request_of :=
  match args with
  | [_; a1; a2; a3; a4] =>
      if String.eqb a1 "-l" then Done (Lock a2 a3 a4)
      else if String.eqb a1 "-u" then Done (Unlock a2 a3 a4)
      else exit_1
  | _ => exit_1
  end.
End lockc.

Module lockd.
Definition main (args : list string) : outcome request_of :=
  match args with
  | [_; a1; a2; a3] =>
      if String.eqb a1 "-p" then Done (LockServer a2 a3 true)
      else if String.eqb a1 "-b" then Done (LockServer a2 a3 false)
      else exit_1
  | _ => exit_1
  end.
End lockd.

(** ** Facts *)

(** mrcoordinator makes the coordinator of a job with ten reduce tasks. *)
Lemma mrcoordinator_start prog f files :
  mrsystem.start (f :: files) 10 =
    (let! c := mrcoordinator.main (prog :: f :: files) in
     Done (mrsystem.MkJob c [] (mr.MkFiles ∅ ∅) ∅)).
Proof.
  unfold mrcoordinator.main, mrsystem.start. destruct (Z.ltb_spec (zlen (prog :: f :: files)) 2) as [Hlt|_].
  - unfold zlen in Hlt. simpl in Hlt. lia.
  - assert (slice_from (prog :: f :: files) 1 = Done (f :: files)) as ->; [|done].
    apply slice_from_Done. unfold zlen. simpl. split; [lia|done].
Qed.

(** The loop ends at the first poll that finds the job done. *)
Lemma poll_first obs k : mrcoordinator.poll obs = Some k ↔
  1 ≤ k ∧ (∃ c, obs !! Z.to_nat (k - 1) = Some c ∧ mr.Done_ c = true) ∧
  ∀ i c, Z.of_nat i < k - 1 → obs !! i = Some c → mr.Done_ c = false.
Proof.
  revert k. induction obs as [|c obs IH]; intros k; simpl.
  { split; [done|]. intros (_ & (c & Hc & _) & _). by rewrite lookup_nil in Hc. }
  destruct (mr.Done_ c) eqn:Hd; simpl.
  - split.
    + intros [= <-]. split_and!; [lia|by exists c|]. intros i c' Hi. lia.
    + intros (Hk & _ & Hno). f_equal. destruct (decide (k = 1)) as [->|]; [done|].
      specialize (Hno 0%nat c ltac:(lia) eq_refl). congruence.
  - split.
    + intros Hp. destruct (mrcoordinator.poll obs) as [j|] eqn:Ej; simplify_eq/=.
      destruct (proj1 (IH j) eq_refl) as (Hj & (c' & Hc' & Hd') & Hno). split_and!; [lia| |].
      * exists c'. split; [|done]. replace (Z.to_nat (j + 1 - 1)) with (S (Z.to_nat (j - 1))) by lia. done.
      * intros [|i] c1 Hi Hc1; simplify_eq/=; [done|]. apply (Hno i); [lia|done].
    + intros (Hk & (c' & Hc' & Hd') & Hno). destruct (decide (k = 1)) as [->|Hne].
      { simpl in Hc'. simplify_eq/=. congruence. }
      rewrite (proj2 (IH (k - 1))); simpl; [f_equal; lia|]. split_and!; [lia| |].
      * exists c'. split; [|done]. replace (Z.to_nat (k - 1)) with (S (Z.to_nat (k - 1 - 1))) in Hc' by lia. done.
      * intros i c1 Hi Hc1. apply (Hno (S i)); [lia|done].
Qed.

(** diskvd starts a server only with a valid index into its replica list. *)
Lemma diskvd_valid args f : diskvd.main args = Done f →
  0 ≤ diskvd.gid f ∧ 0 ≤ diskvd.me f < zlen (diskvd.replicas f) ∧ diskvd.masters f ≠ [] ∧ diskvd.dir f ≠ "".
Proof.
  unfold diskvd.main. intros Hf. apply bind_Done in Hf as (f' & _ & Hf).
  destruct (_ || _) eqn:Hc; [done|]. apply Done_inj in Hf as <-. z_bool.
  split_and!; [lia|lia|lia| |].
  - intros Hm. rewrite Hm in *. unfold zlen in *. simpl in *. lia.
  - by apply String.eqb_neq.
Qed.

(** A group id that is no number is taken as group 0. *)
Lemma diskvd_bad_gid : diskvd.main
  ["diskvd"; "-g"; "three"; "-m"; "mp"; "-s"; "sp"; "-i"; "0"; "-d"; "/tmp"] =
  Done (diskvd.MkFlags 0 ["mp"] ["sp"] 0 false "/tmp" false).
Proof. reflexivity. Qed.
