(* ===== verification/LabGob.v ===== *)
(** * labgob/labgob.go: gob with warnings

    The checks that labgob makes around encoding/gob: field names that gob would
    silently skip, and variables that are not zero before they are decoded into.
    A [reflect.Type] is a number in a table of types, because Go types may be
    recursive; a pointer value is an address in a store, because values may be
    cyclic.  The package variables are the record [vars], with the lines printed
    so far; the calls of the checks are taken one after the other, as [mu] orders
    their accesses.  gob itself is a parameter. *)

From Stdlib Require Import Ascii.
From S2P Require Import Prelude.

(** ** Types *)

Notation tid := nat (only parsing).

(** What [checkType] looks at: the kind with its element types, and the names and
    types of the fields of a struct. *)
Inductive tydef :=
  | TStruct (name : string) (fields : list (string * tid))
  | TSlice (elem : tid)
  | TArray (elem : tid)
  | TPtr (elem : tid)
  | TMap (key elem : tid)
  | TOther.

(** The types of the program. *)
Notation types := (gmap nat tydef).

(** ** Values *)

(** What [checkDefault1] looks at.  A value of one of the basic kinds carries the
    name of its type and whether it is the zero of the type. *)
Inductive value :=
  | VStruct (fields : list (string * value))
  | VPtr (target : option nat)
  | VBasic (tname : string) (is_zero : bool)
  | VOther.

Notation store := (gmap nat value).

Module labgob.

(** [errorCount], [checked] (a nil map reads as an empty one) and the output. *)
Record vars := MkVars { errorCount : Z; checked : gset nat; printed : list string }.

Definition init : vars := MkVars 0 ∅ [].

(** [unicode.IsUpper] of the first rune, for ASCII names. *)
Definition is_upper (name : string) : bool :=
  match name with
  | "" => false
  | String c _ => (65 <=? nat_of_ascii c) && (nat_of_ascii c <=? 90)
  end%nat.

(** The printing and counting for one field. *)
Definition check_field (tname fname : string) (g : vars) : vars :=
  if is_upper fname then g
  else MkVars (errorCount g + 1) (checked g)
         (printed g ++ ["labgob error: lower-case field " +:+ fname +:+ " of " +:+ tname
                        +:+ " in RPC or persist/snapshot will break your Raft"]).

(** Goes on from a state, unless the check has panicked or run out of fuel. *)
Definition and_then (r : option (outcome vars)) (k : vars → option (outcome vars))
    : option (outcome vars) :=
  match r with
  | Some (Done g) => k g
  | _ => r
  end.

Section types.
Context (Θ : types).

(** [checkType]; a type that is not in the table is the nil [reflect.Type], on
    which [Kind] panics.  [None] when the fuel runs out. *)
Fixpoint checkType (fuel : nat) (t : tid) (g : vars) : option (outcome vars) :=
  let again t r :=
    and_then r (λ g, match fuel with O => None | S fuel' => checkType fuel' t g end) in
  match Θ !! t with
  | None => Some (Panic "nil pointer dereference")
  | Some d =>
      if decide (t ∈ checked g) then Some (Done g)
      else
        let g := MkVars (errorCount g) ({[t]} ∪ checked g) (printed g) in
        match d with
        | TStruct name fields =>
            foldl (λ r f, again f.2 (and_then r (λ g, Some (Done (check_field name f.1 g)))))
              (Some (Done g)) fields
        | TSlice e | TArray e | TPtr e => again e (Some (Done g))
        | TMap k e => again k (again e (Some (Done g)))
        | TOther => Some (Done g)
        end
  end.

(** [checkValue] of an interface with this dynamic type. *)
Definition checkValue (fuel : nat) (t : tid) (g : vars) : option (outcome vars) := checkType fuel t g.

End types.

Section values.
Context (μ : store).

(** The name of a field below the variable [name]. *)
Definition field_path (name field : string) : string :=
  if String.eqb name "" then field else name +:+ "." +:+ field.

(** The branch for basic kinds. *)
Definition check_basic (tname name : string) (is_zero : bool) (g : vars) : vars :=
  if is_zero then g
  else
    let what := if String.eqb name "" then tname else name in
    MkVars (errorCount g + 1) (checked g)
      (if (errorCount g <? 1)%Z
       then printed g ++ ["labgob warning: Decoding into a non-default variable/field " +:+ what
                          +:+ " may not work"]
       else printed g).

(** [None] when the fuel runs out; [v] is the value itself, not its address. *)
Fixpoint checkDefault1 (fuel : nat) (v : value) (depth : Z) (name : string) (g : vars) : option vars :=
  match fuel with
  | O => None
  | S fuel' =>
      if (3 <? depth)%Z then Some g
      else
        match v with
        | VStruct fields =>
            foldl (λ r f, r ≫= checkDefault1 fuel' f.2 (depth + 1) (field_path name f.1)) (Some g) fields
        | VPtr None => Some g
        | VPtr (Some a) =>
            match μ !! a with
            | Some v' => checkDefault1 fuel' v' (depth + 1) name g
            | None => Some g
            end
        | VBasic tname z => Some (check_basic tname name z g)
        | VOther => Some g
        end
  end.

(** [None] is the nil interface. *)
Definition checkDefault (fuel : nat) (v : option value) (g : vars) : option vars :=
  match v with
  | None => Some g
  | Some v => checkDefault1 fuel v 1 "" g
  end.

End values.

(** ** The wrappers *)

(** encoding/gob: what [Encode] writes and [Decode] stores, and whether they
    return no error; the registration of a name. *)
Class Gob (B : Type) := {
  gob_encode : tid → value → B * bool;
  gob_decode : B → tid → value → value * bool;
}.

Section wrappers.
Context {B : Type} `{Gob B} (Θ : types) (μ : store).

(** An interface value: its dynamic type and its value. *)
Record iface := MkIface { if_type : tid; if_value : value }.

(** [Encode] and [EncodeValue]. *)
Definition Encode (fuel : nat) (e : iface) (g : vars) : option (outcome (vars * (B * bool))) :=
  r ← checkValue Θ fuel (if_type e) g;
  Some (let! g' := r in Done (g', gob_encode (if_type e) (if_value e))).

(** [Decode]; [e] holds the pointer that is decoded into. *)
Definition Decode (fuel : nat) (b : B) (e : iface) (g : vars) : option (outcome (vars * (value * bool))) :=
  r ← checkValue Θ fuel (if_type e) g;
  match r with
  | Done g' =>
      g'' ← checkDefault μ fuel (Some (if_value e)) g';
      Some (Done (g'', gob_decode b (if_type e) (if_value e)))
  | Panic w => Some (Panic w)
  | Fatal w => Some (Fatal w)
  end.

(** [Register] and [RegisterName]: the check, then the registration with gob. *)
Definition Register (fuel : nat) (e : iface) (g : vars) : option (outcome vars) :=
  checkValue Θ fuel (if_type e) g.

End wrappers.
End labgob.
