(* ===== verification/LabGobTheorems.v ===== *)
(** * The checks of labgob

    [checkType] ends on every table of types, recursive or not, visits every
    type reachable from its argument once in the life of the process and counts
    the lower-case fields; [checkDefault] ends on every value, cyclic or not,
    because it looks at most three levels deep. *)

From Stdlib Require Import Ascii.
From S2P Require Import Prelude LabGob.
Import labgob.

Module gobproof.

(** ** The graph of types *)

(** The element types in the order in which they are visited, with the names of
    the fields of a struct. *)
Definition parts (d : tydef) : list (string * nat) :=
  match d with
  | TStruct _ fields => fields
  | TSlice e | TArray e | TPtr e => [("", e)]
  | TMap k e => [("", e); ("", k)]
  | TOther => []
  end.

Definition children (Θ : types) (t : nat) : list nat :=
  match Θ !! t with Some d => (parts d).*2 | None => [] end.

(** The lower-case fields of a type. *)
Definition lower_fields (fields : list (string * nat)) : Z :=
  zlen (filter (λ f, is_upper f.1 = false) fields).
Definition bad_fields (Θ : types) (t : nat) : Z :=
  match Θ !! t with Some (TStruct _ fields) => lower_fields fields | _ => 0 end.

Definition total_bad (Θ : types) (ts : list nat) : Z := foldr Z.add 0%Z (bad_fields Θ <$> ts).

Definition reaches (Θ : types) : nat → nat → Prop := rtc (λ a b, b ∈ children Θ a).

(** Every type that is mentioned is in the table. *)
Definition closed (Θ : types) : Prop := ∀ t c, c ∈ children Θ t → is_Some (Θ !! c).

Section check.
Context (Θ : types) (Hcl : closed Θ).
Implicit Types (g : vars) (ts new : list nat).

(** The types [new] have been visited on the way from [g] to [g'], started at
    [ts], and [k] lower-case fields have been counted besides theirs. *)
Record visits ts (k : Z) g g' new : Prop := MkVisits {
  vs_checked : ∀ x, x ∈ checked g' ↔ x ∈ new ∨ x ∈ checked g;
  vs_nodup : NoDup new;
  vs_new : ∀ x, x ∈ new → x ∉ checked g;
  vs_start : ∀ x, x ∈ ts → x ∈ checked g';
  vs_children : ∀ x c, x ∈ new → c ∈ children Θ x → c ∈ checked g';
  vs_reached : ∀ x, x ∈ new → ∃ t, t ∈ ts ∧ reaches Θ t x;
  vs_count : errorCount g' = (errorCount g + k + total_bad Θ new)%Z;
}.

Lemma total_bad_app l1 l2 : total_bad Θ (l1 ++ l2) = (total_bad Θ l1 + total_bad Θ l2)%Z.
Proof.
  unfold total_bad. rewrite fmap_app. induction l1 as [|x l1 IH]; [done|].
  rewrite fmap_cons, <- app_comm_cons. cbn [foldr]. rewrite IH. lia.
Qed.

Lemma visits_refl g : visits [] 0 g g [].
Proof.
  split; try (intros ? Hx; by apply not_elem_of_nil in Hx); [set_solver|constructor|..].
  - intros x c Hx. by apply not_elem_of_nil in Hx.
  - change (total_bad Θ []) with 0%Z. lia.
Qed.

Lemma visits_checked t g : t ∈ checked g → visits [t] 0 g g [].
Proof.
  intros Ht. destruct (visits_refl g) as [Hc Hd Hn _ Hk _ He]. split; try done.
  - by intros x ->%list_elem_of_singleton.
  - intros x Hx. by apply not_elem_of_nil in Hx.
Qed.

Lemma visits_trans ts1 ts2 k1 k2 g1 g2 g3 new1 new2 :
  visits ts1 k1 g1 g2 new1 → visits ts2 k2 g2 g3 new2 →
  visits (ts1 ++ ts2) (k1 + k2) g1 g3 (new1 ++ new2).
Proof.
  intros [Hc1 Hd1 Hn1 Hs1 Hk1 Hr1 He1] [Hc2 Hd2 Hn2 Hs2 Hk2 Hr2 He2].
  assert (∀ x, x ∈ checked g2 → x ∈ checked g3) as Hmono by (intros x; rewrite Hc2; auto).
  split.
  - intros x. rewrite Hc2, Hc1, elem_of_app. tauto.
  - apply NoDup_app. split_and!; [done| |done]. intros x Hx Hx2. apply (Hn2 x Hx2), Hc1. by left.
  - intros x [?|Hx]%elem_of_app; [by apply Hn1|]. intros Hx1. apply (Hn2 x Hx), Hc1. by right.
  - intros x [?|?]%elem_of_app; [by apply Hmono, Hs1|by apply Hs2].
  - intros x c [?|?]%elem_of_app Hch; [by eapply Hmono, Hk1|by eapply Hk2].
  - intros x [Hx|Hx]%elem_of_app.
    + destruct (Hr1 x Hx) as (t & Ht & ?). exists t. split; [|done]. apply elem_of_app. by left.
    + destruct (Hr2 x Hx) as (t & Ht & ?). exists t. split; [|done]. apply elem_of_app. by right.
  - rewrite He2, He1, total_bad_app. lia.
Qed.

Definition unseen g : gset nat := dom Θ ∖ checked g.

Lemma unseen_le ts k g g' new : visits ts k g g' new → size (unseen g') ≤ size (unseen g).
Proof. intros Hv. apply subseteq_size. intros x. unfold unseen. rewrite !elem_of_difference, (vs_checked _ _ _ _ _ Hv). naive_solver. Qed.

(** The loop over the parts of a type; [pre] is what is done for a field before
    its type is checked. *)
Lemma parts_spec (rec : nat → vars → option (outcome vars)) (pre : string → vars → vars)
    (cnt : string → Z) n :
  (∀ f g, checked (pre f g) = checked g ∧ errorCount (pre f g) = (errorCount g + cnt f)%Z) →
  (∀ t g, is_Some (Θ !! t) → size (unseen g) ≤ n →
     ∃ g' new, rec t g = Some (Done g') ∧ visits [t] 0 g g' new) →
  ∀ fs g, Forall (λ f, is_Some (Θ !! f.2)) fs → size (unseen g) ≤ n →
  ∃ g' new,
    foldl (λ r f, and_then (and_then r (λ g, Some (Done (pre f.1 g)))) (rec f.2)) (Some (Done g)) fs
      = Some (Done g') ∧
    visits fs.*2 (foldr Z.add 0%Z (cnt ∘ fst <$> fs)) g g' new.
Proof.
  intros Hpre Hrec. induction fs as [|f fs IH]; intros g Hfs Hsz.
  - exists g, []. split; [done|]. apply visits_refl.
  - apply Forall_cons in Hfs as [Hf Hfs]. simpl. destruct (Hpre f.1 g) as [Hc He].
    destruct (Hrec f.2 (pre f.1 g) Hf) as (g1 & new1 & Hr & Hv1).
    { unfold unseen. by rewrite Hc. }
    rewrite Hr. assert (visits [f.2] (cnt f.1) g g1 new1) as Hv1'.
    { destruct Hv1 as [Hvc Hvd Hvn Hvs Hvk Hvr Hve]. rewrite Hc in *.
      split; try done. rewrite Hve, He. lia. }
    destruct (IH g1 Hfs) as (g2 & new2 & Hfold & Hv2).
    { etrans; [|exact Hsz]. by eapply unseen_le. }
    exists g2, (new1 ++ new2). split; [exact Hfold|]. by apply (visits_trans _ _ _ _ _ _ _ _ _ Hv1' Hv2).
Qed.

(** A visit of the parts of an unchecked type is a visit of the type. *)
Lemma visits_type t d k g g' new : Θ !! t = Some d → t ∉ checked g → k = bad_fields Θ t →
  visits (parts d).*2 k (MkVars (errorCount g) ({[t]} ∪ checked g) (printed g)) g' new →
  visits [t] 0 g g' (t :: new).
Proof.
  intros Ht Hnot -> [Hc Hd Hn Hs Hk Hr He]. simpl in *.
  assert (children Θ t = (parts d).*2) as Hch by (unfold children; by rewrite Ht).
  split.
  - intros x. rewrite Hc. set_solver.
  - apply NoDup_cons. split; [|done]. intros Hin. apply (Hn t Hin). set_solver.
  - intros x [->|Hx]%elem_of_cons; [done|]. intros Hx'. apply (Hn x Hx). set_solver.
  - intros x ->%list_elem_of_singleton. apply Hc. set_solver.
  - intros x c [->|Hx]%elem_of_cons; [|by apply Hk]. rewrite Hch. apply Hs.
  - intros x Hx. exists t. split; [by left|]. apply elem_of_cons in Hx as [->|Hx]; [constructor|].
    destruct (Hr x Hx) as (c & Hcin & Hreach). eapply rtc_l; [|exact Hreach]. by rewrite Hch.
  - unfold total_bad. rewrite fmap_cons. cbn [foldr]. fold (total_bad Θ new). lia.
Qed.

Lemma lower_fields_sum name fs :
  foldr Z.add 0%Z ((λ f, if is_upper f then 0 else 1)%Z ∘ fst <$> (fs : list (string * nat))) = lower_fields fs
  ∧ ∀ f g, checked (check_field name f g) = checked g ∧
      errorCount (check_field name f g) = (errorCount g + (if is_upper f then 0 else 1))%Z.
Proof.
  split.
  - unfold lower_fields. induction fs as [|f fs IH]; [done|]. rewrite fmap_cons. cbn [foldr]. rewrite IH.
    simpl. destruct (is_upper f.1) eqn:Hu.
    + by rewrite filter_cons_False by congruence.
    + rewrite filter_cons_True by done. unfold zlen. simpl. lia.
  - intros f g. unfold check_field. destruct (is_upper f); simpl; split; [done|lia|done|lia].
Qed.

Lemma checkType_spec fuel : ∀ t g, is_Some (Θ !! t) → size (unseen g) ≤ fuel →
  ∃ g' new, checkType Θ fuel t g = Some (Done g') ∧ visits [t] 0 g g' new.
Proof.
  induction fuel as [|fuel IH]; intros t g [d Ht] Hsz.
  - assert (t ∈ checked g) as Hin.
    { destruct (decide (t ∈ checked g)) as [|Hn]; [done|].
      assert (t ∈ unseen g) as Hu by (apply elem_of_difference; split; [by eapply elem_of_dom_2|done]).
      apply non_empty_inhabited, size_non_empty_iff in Hu. lia. }
    exists g, []. simpl. rewrite Ht, decide_True by done. split; [done|].
    by apply visits_checked.
  - simpl. rewrite Ht. destruct (decide (t ∈ checked g)) as [Hin|Hnot].
    { exists g, []. split; [done|]. by apply visits_checked. }
    set (g0 := MkVars (errorCount g) ({[t]} ∪ checked g) (printed g)).
    assert (size (unseen g0) ≤ fuel) as Hsz0.
    { assert (size (unseen g0) < size (unseen g)) as Hlt; [|lia].
      apply subset_size. split.
      - intros x. unfold unseen. simpl. set_solver.
      - intros Hsub. assert (t ∈ unseen g0) as Hin; [|unfold unseen in Hin; set_solver].
        apply Hsub. apply elem_of_difference. split; [by eapply elem_of_dom_2|done]. }
    assert (Forall (λ f, is_Some (Θ !! f.2)) (parts d)) as Hparts.
    { apply Forall_forall. intros f Hf. apply (Hcl t). unfold children. rewrite Ht.
      by apply list_elem_of_fmap_2. }
    assert (∀ k, bad_fields Θ t = k →
      (∃ g' new, visits (parts d).*2 k g0 g' new ∧ checkType Θ (S fuel) t g = Some (Done g')) →
      ∃ g' new, checkType Θ (S fuel) t g = Some (Done g') ∧ visits [t] 0 g g' new) as Hgo.
    { intros k <- (g' & new & Hv & Hr). exists g', (t :: new). split; [done|]. by eapply visits_type. }
    simpl in Hgo. rewrite Ht, decide_False in Hgo by done. fold g0 in Hgo.
    assert (bad_fields Θ t = match d with TStruct _ fs => lower_fields fs | _ => 0%Z end) as Hbad
      by (unfold bad_fields; rewrite Ht; by destruct d).
    destruct d as [name fields|e|e|e|k e|]; simpl in Hparts.
    { destruct (lower_fields_sum name fields) as [Hsum Hpre].
      destruct (parts_spec (checkType Θ fuel) (check_field name) _ fuel Hpre IH fields g0 Hparts Hsz0)
        as (g' & new & Hfold & Hv). rewrite Hsum in Hv.
      eapply Hgo; [exact Hbad|]. exists g', new. split; [exact Hv|exact Hfold]. }
    all: eapply Hgo; [exact Hbad|].
    4:{ destruct (parts_spec (checkType Θ fuel) (λ _ g, g) (λ _, 0%Z) fuel ltac:(intros; split; [done|lia])
          IH [("", e); ("", k)] g0 Hparts Hsz0) as (g' & new & Hfold & Hv).
        exists g', new. split; [exact Hv|]. simpl in Hfold.
        by destruct (checkType Θ fuel e g0) as [[]|]. }
    4:{ exists g0, []. split; [apply visits_refl|done]. }
    all: destruct (parts_spec (checkType Θ fuel) (λ _ g, g) (λ _, 0%Z) fuel ltac:(intros; split; [done|lia])
          IH [("", e)] g0 Hparts Hsz0) as (g' & new & Hfold & Hv);
        exists g', new; split; [exact Hv|exact Hfold].
Qed.

(** A set of types that contains the parts of its members, as [checked] between
    two calls. *)
Definition saturated (X : gset nat) : Prop := ∀ x c, x ∈ X → c ∈ children Θ x → c ∈ X.

Lemma saturated_reaches X t x : saturated X → t ∈ X → reaches Θ t x → x ∈ X.
Proof. intros HX Ht Hr. induction Hr as [|a b c Hab _ IH]; [done|]. apply IH. by eapply HX. Qed.

Lemma visits_saturated t k g g' new : saturated (checked g) → visits [t] k g g' new →
  saturated (checked g') ∧ ∀ x, x ∈ new ↔ x ∉ checked g ∧ reaches Θ t x.
Proof.
  intros Hsat [Hc Hd Hn Hs Hk Hr He].
  assert (saturated (checked g')) as Hsat'.
  { intros x c [Hx|Hx]%Hc Hch; [by eapply Hk|]. apply Hc. right. by eapply Hsat. }
  split; [done|]. intros x. split.
  - intros Hx. split; [by apply Hn|]. by destruct (Hr x Hx) as (t' & ->%list_elem_of_singleton & ?).
  - intros [Hx Hre]. assert (x ∈ checked g') as Hin; [|apply Hc in Hin as [?|?]; done].
    eapply saturated_reaches; [done| |exact Hre]. apply Hs. by left.
Qed.

End check.

(** ** Values *)
Section values.
Context (μ : store).

(** The names of the non-default basic values within [levels] levels of [v]. *)
Fixpoint leaves (levels : nat) (v : value) (name : string) : list string :=
  match levels with
  | O => []
  | S l =>
      match v with
      | VStruct fields => mjoin ((λ f, leaves l f.2 (field_path name f.1)) <$> fields)
      | VPtr (Some a) => match μ !! a with Some v' => leaves l v' name | None => [] end
      | VBasic tname false => [if String.eqb name "" then tname else name]
      | _ => []
      end
  end.

(** Counting the values [ls], with a warning for the first one of the process. *)
Definition report (ls : list string) (g : vars) : vars :=
  MkVars (errorCount g + zlen ls) (checked g)
    (printed g ++
     match ls with
     | w :: _ => if (errorCount g <? 1)%Z
                 then ["labgob warning: Decoding into a non-default variable/field " +:+ w +:+ " may not work"]
                 else []
     | [] => []
     end).

Lemma report_nil g : report [] g = g.
Proof. destruct g. unfold report. simpl. rewrite app_nil_r. change (zlen (@nil string)) with 0%Z. by rewrite Z.add_0_r. Qed.

Lemma report_app l1 l2 g : (0 ≤ errorCount g)%Z → report l2 (report l1 g) = report (l1 ++ l2) g.
Proof.
  intros Hg. destruct l1 as [|w l1]; [by rewrite report_nil|]. unfold report. simpl.
  assert (0 < zlen (w :: l1))%Z as Hpos by (unfold zlen; simpl; lia).
  f_equal.
  - unfold zlen. simpl. rewrite length_app. lia.
  - destruct (Z.ltb_spec (errorCount g + zlen (w :: l1)) 1); [lia|].
    rewrite <- app_assoc. f_equal. destruct l2; by rewrite app_nil_r.
Qed.

Lemma report_count l g : (0 ≤ errorCount g)%Z → (0 ≤ errorCount (report l g))%Z.
Proof. intros. simpl. pose proof (zlen_nonneg l). lia. Qed.

Lemma checkDefault1_spec fuel : ∀ levels v name g,
  levels < fuel → (levels ≤ 3)%nat → (0 ≤ errorCount g)%Z →
  checkDefault1 μ fuel v (4 - Z.of_nat levels) name g = Some (report (leaves levels v name) g).
Proof.
  induction fuel as [|fuel IH]; intros levels v name g Hf Hl Hg; [lia|]. simpl.
  destruct levels as [|l].
  { destruct (Z.ltb_spec 3 (4 - Z.of_nat 0)); [|lia]. by rewrite report_nil. }
  destruct (Z.ltb_spec 3 (4 - Z.of_nat (S l))) as [?|_]; [lia|].
  replace (4 - Z.of_nat (S l) + 1)%Z with (4 - Z.of_nat l)%Z by lia.
  destruct v as [fields|[a|]|tname z|]; cbn [leaves].
  - revert g Hg. induction fields as [|f fields IHf]; intros g Hg; [by rewrite report_nil|].
    rewrite fmap_cons, mjoin_cons. cbn [foldl mbind option_bind].
    rewrite (IH l) by lia. rewrite IHf by (by apply report_count). by rewrite report_app.
  - destruct (μ !! a) as [v'|]; [|by rewrite report_nil]. by apply IH; lia.
  - by rewrite report_nil.
  - unfold check_basic. destruct z; [by rewrite report_nil|]. unfold report.
    change (zlen [_]) with 1%Z. by destruct (errorCount g <? 1)%Z; rewrite ?app_nil_r.
  - by rewrite report_nil.
Qed.

End values.
End gobproof.
Import gobproof.

(** C27: [checkType] ends on every closed table of types, also when types refer to
    each other in cycles, with no more nested calls than there are types.  It
    visits exactly the types reachable from [t] that were not checked before, each
    once, marks them as checked, adds the number of their lower-case fields to
    [errorCount], and leaves [checked] closed under parts again. *)
Theorem checkType_terminates (Θ : types) (fuel : nat) (t : nat) (g : vars) :
  closed Θ → is_Some (Θ !! t) → saturated Θ (checked g) → size (dom Θ) ≤ fuel →
  ∃ g' new, checkType Θ fuel t g = Some (Done g') ∧
    NoDup new ∧ (∀ x, x ∈ new ↔ x ∉ checked g ∧ reaches Θ t x) ∧
    (∀ x, x ∈ checked g' ↔ x ∈ new ∨ x ∈ checked g) ∧
    errorCount g' = (errorCount g + total_bad Θ new)%Z ∧
    saturated Θ (checked g').
Proof.
  intros Hcl Ht Hsat Hf. destruct (checkType_spec Θ Hcl fuel t g Ht) as (g' & new & Hr & Hv).
  { etrans; [|exact Hf]. apply subseteq_size. unfold unseen. set_solver. }
  destruct (visits_saturated Θ t 0 g g' new Hsat Hv) as [Hsat' Hnew].
  destruct Hv as [Hc Hd _ _ _ _ He]. exists g', new. split_and!; [done..| |done]. lia.
Qed.

(** [checkDefault] returns on every value of every store, cyclic ones
    included: four nested calls are enough, because it looks three levels deep.  It
    adds the number of non-default basic values it sees there to [errorCount], and
    prints a warning that names the first of them if nothing has been counted
    before, and nothing otherwise. *)
Theorem checkDefault_bounded (μ : store) (fuel : nat) (v : value) (g : vars) :
  4 ≤ fuel → (0 ≤ errorCount g)%Z →
  checkDefault μ fuel (Some v) g = Some (report (leaves μ 3 v "") g).
Proof. intros Hf Hg. apply (checkDefault1_spec μ fuel 3 v "" g); lia. Qed.

(** ** Concrete types and values *)

(** [type node struct { Next *node; val int }]: 0 the struct, 1 the pointer, 2 int. *)
Definition list_types : types :=
  {[ 0 := TStruct "node" [("Next", 1); ("val", 2)]; 1 := TPtr 0; 2 := TOther ]}.

Lemma list_types_closed : closed list_types.
Proof.
  intros t c. unfold children, list_types.
  destruct (decide (t = 0)) as [->|]; [|destruct (decide (t = 1)) as [->|]; [|destruct (decide (t = 2)) as [->|]]].
  - vm_compute. intros Hc. repeat (inversion Hc as [|? ? ? Hc']; subst; [by eexists|]; clear Hc; rename Hc' into Hc).
    inversion Hc.
  - vm_compute. intros Hc. inversion Hc as [|? ? ? Hc']; subst; [by eexists|]. inversion Hc'.
  - vm_compute. intros Hc. inversion Hc.
  - rewrite !lookup_insert_ne, lookup_singleton_ne by congruence. by intros ?%not_elem_of_nil.
Qed.

Lemma checkType_terminates_witness :
  ∃ g', checkType list_types 3 1 init = Some (Done g') ∧ errorCount g' = 1%Z ∧
    ∃ new, NoDup new ∧ errorCount g' = (0 + total_bad list_types new)%Z.
Proof.
  destruct (checkType_terminates list_types 3 1 init) as (g' & new & Hr & Hd & _ & _ & He & _).
  - exact list_types_closed.
  - by eexists.
  - intros x c Hx. by apply not_elem_of_empty in Hx.
  - vm_compute. lia.
  - exists g'. split; [exact Hr|]. split.
    + vm_compute in Hr. injection Hr as <-. reflexivity.
    + exists new. split; [exact Hd|exact He].
Defined.

(** A cyclic list node whose value is set. *)
Definition cyclic : store := {[ 0 := VStruct [("Next", VPtr (Some 0)); ("Val", VBasic "int" false)] ]}.

Lemma checkDefault_bounded_witness :
  checkDefault cyclic 4 (Some (VPtr (Some 0))) init = Some (report (leaves cyclic 3 (VPtr (Some 0)) "") init) ∧
  leaves cyclic 3 (VPtr (Some 0)) "" = ["Val"].
Proof.
  split; [|vm_compute; reflexivity].
  apply (checkDefault_bounded cyclic 4 (VPtr (Some 0)) init); [lia|simpl; lia].
Defined.
