(* ===== verification/LabRpc.v ===== *)
(** * The simulated network of the labs (labrpc/labrpc.go)

    [ClientEnd.Call], the network with its maps of ends, servers and
    connections, [processReq], and the dispatch of requests to the methods of a
    service.  Go values are the type [V]; labgob (a wrapper of encoding/gob) is
    the interface [Codec].  Servers are compared by address in [isServerDead],
    so they live in a store and the network holds their addresses; nil is
    [None].  The goroutines of the calls are the records [call], and [act] runs
    one critical section, channel operation or timer of one of them; random
    draws are arguments of the actions, and durations are not represented. *)

From Stdlib Require Import Ascii.
From S2P Require Import Prelude.

(** labgob: [encode v] gives the bytes and whether [Encode] returned no error;
    [decode b t] decodes into a variable that holds [t], gives its new value and
    whether [Decode] returned no error; [zero v] is the zero value of the type
    of [v], [reflect.New(reflect.TypeOf(v))]. *)
Class Codec (V : Type) := {
  encode : V → list Byte.byte * bool;
  decode : list Byte.byte → V → V * bool;
  zero : V → V;
}.

(** Documented by encoding/gob: an encoded value is read back unchanged into a
    zero variable of its type. *)
Class CodecLaws (V : Type) `{Codec V} := {
  decode_encode v : (encode v).2 = true → decode (encode v).1 (zero v) = (v, true);
}.

(** The conversions of Go to [int32] and [int64]. *)
Definition wrap (w z : Z) : Z := ((z + 2 ^ (w - 1)) mod 2 ^ w - 2 ^ (w - 1))%Z.

Module labrpc.

Section labrpc.
Context {Name : Type} `{Countable Name}.
Context {V : Type} `{Codec V}.
(** The state of all receivers together. *)
Context {S : Type}.

Record reqMsg := MkReqMsg {
  rq_endname : Name;
  rq_svcMeth : string;
  (** [reflect.New] of [argsType] *)
  rq_argsType : V;
  rq_args : list Byte.byte;
}.

Record replyMsg := MkReplyMsg { rp_ok : bool; rp_reply : list Byte.byte }.

(** The reply [replyMsg{false, nil}]. *)
Definition noReply : replyMsg := MkReplyMsg false [].

(** [ch] and [done] are the channels of the network. *)
Record ClientEnd := MkClientEnd { ce_endname : Name }.

(** The type of a parameter: a pointer, with the zero value of its [Elem], or
    not a pointer. *)
Inductive rtype := PtrTo (elem : V) | NonPtr.

(** What [reflect.Method] says, and the function itself: it gets the receiver,
    the arguments and the reply variable, and leaves a value in that variable.
    It panics if the arguments have the wrong type. *)
Record Method := MkMethod {
  mt_PkgPath : string;
  mt_Name : string;
  mt_In : list rtype;
  mt_NumOut : Z;
  mt_Func : V → V → V → S → outcome (S * V);
}.

Record Service := MkServiceRecord {
  sv_name : string;
  sv_rcvr : V;
  sv_methods : gmap string Method;
}.

Record Server := MkServerRecord {
  rs_services : gmap string Service;
  rs_count : Z;
}.

Record Network := MkNetwork {
  rn_reliable : bool;
  rn_longDelays : bool;
  rn_longReordering : bool;
  rn_ends : gmap Name ClientEnd;
  rn_enabled : gmap Name bool;
  (** addresses of servers; a deleted server is nil *)
  rn_servers : gmap Name (option nat);
  rn_connections : gmap Name (option Name);
  (** [done] is closed *)
  rn_done : bool;
  rn_count : Z;
  rn_bytes : Z;
}.

(** [MakeNetwork] without its goroutine, see [a_receive] below. *)
Definition MakeNetwork : Network :=
  MkNetwork true false false ∅ ∅ ∅ ∅ false 0 0.

(** [close] of a closed channel panics. *)
Definition Cleanup (rn : Network) : outcome Network :=
  if rn_done rn then Panic "close of closed channel"
  else Done (MkNetwork (rn_reliable rn) (rn_longDelays rn) (rn_longReordering rn) (rn_ends rn)
    (rn_enabled rn) (rn_servers rn) (rn_connections rn) true (rn_count rn) (rn_bytes rn)).

Definition Reliable (rn : Network) (yes : bool) : Network :=
  MkNetwork yes (rn_longDelays rn) (rn_longReordering rn) (rn_ends rn)
    (rn_enabled rn) (rn_servers rn) (rn_connections rn) (rn_done rn) (rn_count rn) (rn_bytes rn).

Definition LongReordering (rn : Network) (yes : bool) : Network :=
  MkNetwork (rn_reliable rn) (rn_longDelays rn) yes (rn_ends rn)
    (rn_enabled rn) (rn_servers rn) (rn_connections rn) (rn_done rn) (rn_count rn) (rn_bytes rn).

Definition LongDelays (rn : Network) (yes : bool) : Network :=
  MkNetwork (rn_reliable rn) yes (rn_longReordering rn) (rn_ends rn)
    (rn_enabled rn) (rn_servers rn) (rn_connections rn) (rn_done rn) (rn_count rn) (rn_bytes rn).

(** The three maps that say where the requests of an end go. *)
Definition with_maps (rn : Network) (ends : gmap Name ClientEnd) (enabled : gmap Name bool)
    (connections : gmap Name (option Name)) : Network :=
  MkNetwork (rn_reliable rn) (rn_longDelays rn) (rn_longReordering rn) ends
    enabled (rn_servers rn) connections (rn_done rn) (rn_count rn) (rn_bytes rn).

Definition with_servers (rn : Network) (servers : gmap Name (option nat)) : Network :=
  MkNetwork (rn_reliable rn) (rn_longDelays rn) (rn_longReordering rn) (rn_ends rn)
    (rn_enabled rn) servers (rn_connections rn) (rn_done rn) (rn_count rn) (rn_bytes rn).

(** Lookups of Go maps: a missing key gives the zero value. *)
Definition is_enabled (rn : Network) (endname : Name) : bool :=
  default false (rn_enabled rn !! endname).
Definition server_at (rn : Network) (servername : Name) : option nat :=
  default None (rn_servers rn !! servername).

Definition readEndnameInfo (rn : Network) (endname : Name)
    : bool * option Name * option nat * bool * bool :=
  let servername := default None (rn_connections rn !! endname) in
  (is_enabled rn endname, servername,
   match servername with Some s => server_at rn s | None => None end,
   rn_reliable rn, rn_longReordering rn).

Definition isServerDead (rn : Network) (endname servername : Name) (server : nat) : bool :=
  negb (is_enabled rn endname) || negb (bool_decide (server_at rn servername = Some server)).

Definition MakeEnd (rn : Network) (endname : Name) : outcome (Network * ClientEnd) :=
  match rn_ends rn !! endname with
  | Some _ => Fatal "MakeEnd: already exists"
  | None =>
      let e := MkClientEnd endname in
      Done (with_maps rn (<[endname := e]> (rn_ends rn)) (<[endname := false]> (rn_enabled rn))
              (<[endname := None]> (rn_connections rn)), e)
  end.

Definition DeleteEnd (rn : Network) (endname : Name) : outcome Network :=
  match rn_ends rn !! endname with
  | None => Fatal "MakeEnd: doesn't exists"
  | Some _ =>
      Done (with_maps rn (delete endname (rn_ends rn)) (delete endname (rn_enabled rn))
              (delete endname (rn_connections rn)))
  end.

Definition AddServer (rn : Network) (servername : Name) (rs : nat) : Network :=
  with_servers rn (<[servername := Some rs]> (rn_servers rn)).

Definition DeleteServer (rn : Network) (servername : Name) : Network :=
  with_servers rn (<[servername := None]> (rn_servers rn)).

Definition Connect (rn : Network) (endname servername : Name) : Network :=
  with_maps rn (rn_ends rn) (rn_enabled rn) (<[endname := Some servername]> (rn_connections rn)).

Definition Enable (rn : Network) (endname : Name) (enabled : bool) : Network :=
  with_maps rn (rn_ends rn) (<[endname := enabled]> (rn_enabled rn)) (rn_connections rn).

Definition GetTotalCount (rn : Network) : Z := rn_count rn.
Definition GetTotalBytes (rn : Network) : Z := rn_bytes rn.

(** [atomic.AddInt32(&rn.count, 1)] *)
Definition add_count (rn : Network) : Network :=
  MkNetwork (rn_reliable rn) (rn_longDelays rn) (rn_longReordering rn) (rn_ends rn)
    (rn_enabled rn) (rn_servers rn) (rn_connections rn) (rn_done rn)
    (wrap 32 (rn_count rn + 1)) (rn_bytes rn).

(** [atomic.AddInt64(&rn.bytes, int64(len(b)))] *)
Definition add_bytes (rn : Network) (b : list Byte.byte) : Network :=
  MkNetwork (rn_reliable rn) (rn_longDelays rn) (rn_longReordering rn) (rn_ends rn)
    (rn_enabled rn) (rn_servers rn) (rn_connections rn) (rn_done rn)
    (rn_count rn) (wrap 64 (rn_bytes rn + zlen b)).

(** ** Servers and services *)

Definition MakeServer : Server := MkServerRecord ∅ 0.

Definition AddService (rs : Server) (svc : Service) : Server :=
  MkServerRecord (<[sv_name svc := svc]> (rs_services rs)) (rs_count rs).

Definition Server_GetCount (rs : Server) : Z := rs_count rs.

(** [Network.GetCount]; the nil server panics when its mutex is locked. *)
Definition GetCount (rn : Network) (store : gmap nat Server) (servername : Name) : outcome Z :=
  match server_at rn servername ≫= (λ p, store !! p) with
  | Some svr => Done (Server_GetCount svr)
  | None => Panic "nil pointer dereference"
  end.

(** An interface value: the receiver with the name of its type behind the
    pointer and the methods of its type. *)
Record receiver := MkReceiver {
  rc_value : V;
  rc_name : string;
  rc_methods : list Method;
}.

Definition is_ptr (t : rtype) : bool := match t with PtrTo _ => true | NonPtr => false end.

(** The condition in the loop of [MakeService], evaluated from the left; [In(2)]
    panics when there is no such parameter.  [In(0)] is the receiver. *)
Definition not_suitable (method : Method) : outcome bool :=
  if negb (String.eqb (mt_PkgPath method) "") then Done true
  else if negb (zlen (mt_In method) =? 3)%Z then Done true
  else let! in2 := idx (mt_In method) 2 in
       if negb (is_ptr in2) then Done true
       else Done (negb (mt_NumOut method =? 0)%Z).

Fixpoint MakeService_loop (ms : list Method) (methods : gmap string Method)
    : outcome (gmap string Method) :=
  match ms with
  | [] => Done methods
  | method :: ms' =>
      let! bad := not_suitable method in
      if (bad : bool) then MakeService_loop ms' methods
      else MakeService_loop ms' (<[mt_Name method := method]> methods)
  end.

Definition MakeService (rcvr : receiver) : outcome Service :=
  let! methods := MakeService_loop (rc_methods rcvr) ∅ in
  Done (MkServiceRecord (rc_name rcvr) (rc_value rcvr) methods).

(** [strings.LastIndex(s, ".")] *)
Fixpoint LastIndex_dot (s : string) : Z :=
  match s with
  | "" => -1
  | String c s' =>
      let i := LastIndex_dot s' in
      if (0 <=? i)%Z then i + 1
      else if Ascii.eqb c "."%char then 0 else -1
  end%Z.

(** [s[:i]] and [s[i:]] on strings. *)
Definition str_to (s : string) (i : Z) : outcome string :=
  if (0 <=? i)%Z && (i <=? Z.of_nat (String.length s))%Z
  then Done (String.substring 0 (Z.to_nat i) s) else Panic "slice bounds out of range".
Definition str_from (s : string) (i : Z) : outcome string :=
  if (0 <=? i)%Z && (i <=? Z.of_nat (String.length s))%Z
  then Done (String.substring (Z.to_nat i) (String.length s - Z.to_nat i) s)
  else Panic "slice bounds out of range".

(** The critical section of [Server.dispatch] and the choice of the service. *)
Definition Server_dispatch (rs : Server) (req : reqMsg) : outcome (Server * (Service * string)) :=
  let dot := LastIndex_dot (rq_svcMeth req) in
  let! serviceName := str_to (rq_svcMeth req) dot in
  let! methodName := str_from (rq_svcMeth req) (dot + 1) in
  match rs_services rs !! serviceName with
  | Some service => Done (MkServerRecord (rs_services rs) (rs_count rs + 1), (service, methodName))
  | None => Fatal "labrpc.Server.dispatch(): unknown service"
  end.

(** [Type.Elem], which [dispatch] applies to the pointer type of the reply. *)
Definition Elem (t : rtype) : outcome V :=
  match t with PtrTo z => Done z | NonPtr => Panic "reflect: Elem of invalid type" end.

(** [Service.dispatch]: decodes the arguments, runs the method, encodes the
    reply.  The result also has the decoded arguments and the reply value. *)
Definition Service_dispatch (svc : Service) (methname : string) (req : reqMsg) (σ : S)
    : outcome (S * replyMsg * (V * V)) :=
  match sv_methods svc !! methname with
  | Some method =>
      let args := (decode (rq_args req) (rq_argsType req)).1 in
      let! in2 := idx (mt_In method) 2 in
      let! replyv := Elem in2 in
      let! '(σ', r) := mt_Func method (sv_rcvr svc) args replyv σ in
      Done (σ', MkReplyMsg true (encode r).1, (args, r))
  | None => Fatal "labrpc.Service.dispatch(): unknown method"
  end.

(** ** The goroutines of a call *)

(** The goroutine in [Call]. *)
Inductive caller :=
  | Sending                              (* in the [select] that sends the request *)
  | Waiting                              (* in [rep := <-req.replyCh] *)
  | Returned (ok : bool) (reply : V).    (* with the contents of [*reply] *)

(** The goroutine of [processReq]. *)
Inductive processor :=
  | NotStarted
  | Started
  (* in the loop that waits for the handler *)
  | InLoop (servername : Name) (server : nat) (reliable longreordering : bool)
  (* the loop has ended, with the reply or without *)
  | LoopLeft (servername : Name) (server : nat) (reliable longreordering : bool)
      (reply : option replyMsg)
  (* about to send on [replyCh], directly or from a timer; [counted] if the bytes
     of the reply are added to the statistics *)
  | Replying (counted : bool) (rep : replyMsg)
  | Finished.

(** The goroutine that executes the request. *)
Inductive executor :=
  | NoExecutor
  | Dispatching (server : nat)
  | InService (svc : Service) (methodName : string)
  | SendingReply (r : replyMsg)          (* in [ech <- r] *)
  | Exited.

Record call := MkCall {
  cl_req : reqMsg;
  cl_args : V;             (* the arguments of the caller *)
  cl_reply : V;            (* the reply variable before the call *)
  cl_caller : caller;
  cl_proc : processor;
  cl_exec : executor;
  cl_drain : bool;         (* the goroutine [<-ech] of a dead server runs *)
}.

Definition set_caller (x : caller) (c : call) : call :=
  MkCall (cl_req c) (cl_args c) (cl_reply c) x (cl_proc c) (cl_exec c) (cl_drain c).
Definition set_proc (x : processor) (c : call) : call :=
  MkCall (cl_req c) (cl_args c) (cl_reply c) (cl_caller c) x (cl_exec c) (cl_drain c).
Definition set_exec (x : executor) (c : call) : call :=
  MkCall (cl_req c) (cl_args c) (cl_reply c) (cl_caller c) (cl_proc c) x (cl_drain c).
Definition set_drain (x : bool) (c : call) : call :=
  MkCall (cl_req c) (cl_args c) (cl_reply c) (cl_caller c) (cl_proc c) (cl_exec c) x.

(** The beginning of [Call], up to the [select]. *)
Definition Call (e : ClientEnd) (svcMeth : string) (args reply : V) : outcome call :=
  let '(b, ok) := encode args in
  if (ok : bool) then
    Done (MkCall (MkReqMsg (ce_endname e) svcMeth (zero args) b) args reply
            Sending NotStarted NoExecutor false)
  else Panic "Encode".

(** The end of [Call], from the receipt of [rep]. *)
Definition Call_return (reply : V) (rep : replyMsg) : outcome caller :=
  if rp_ok rep then
    let '(v, ok) := decode (rp_reply rep) reply in
    if (ok : bool) then Done (Returned true v) else Fatal "ClientEnd.Call(): decode reply"
  else Done (Returned false reply).

(** [processReq] up to the wait loop; [r] is the draw of [rand.Int()] that
    decides whether an unreliable network drops the request. *)
Definition processReq_start (rn : Network) (c : call) (r : Z) : call :=
  let '(enabled, servername, server, reliable, longreordering) :=
    readEndnameInfo rn (rq_endname (cl_req c)) in
  match enabled, servername, server with
  | true, Some sn, Some p =>
      if negb reliable && (r mod 1000 <? 100)%Z then set_proc (Replying false noReply) c
      else set_exec (Dispatching p) (set_proc (InLoop sn p reliable longreordering) c)
  | _, _, _ => set_proc (Replying false noReply) c
  end.

(** The branch [time.After] of the wait loop. *)
Definition processReq_timeout (rn : Network) (c : call) (sn : Name) (p : nat) (rel long : bool) : call :=
  if isServerDead rn (rq_endname (cl_req c)) sn p
  then set_drain true (set_proc (LoopLeft sn p rel long None) c)
  else c.

(** [processReq] after the wait loop; [r1] and [r2] are the draws for dropping
    and for delaying the reply.  A delayed reply is sent by a timer, so in
    either case the reply is next to be sent. *)
Definition processReq_finish (rn : Network) (c : call) (sn : Name) (p : nat) (rel long : bool)
    (reply : option replyMsg) (r1 r2 : Z) : call :=
  let serverDead := isServerDead rn (rq_endname (cl_req c)) sn p in
  match reply with
  | None => set_proc (Replying false noReply) c
  | Some rep =>
      if serverDead then set_proc (Replying false noReply) c
      else if negb rel && (r1 mod 1000 <? 100)%Z then set_proc (Replying false noReply) c
      else if long && (r2 <? 600)%Z then set_proc (Replying true rep) c
      else set_proc (Replying true rep) c
  end.

(** ** The whole system *)

(** One execution of a method: the call, the arguments the method got and the
    reply it left. *)
Record execution := MkExecution { ex_call : nat; ex_args : V; ex_reply : V }.

Record world := MkWorld {
  w_net : Network;
  w_loop : bool;                  (* the goroutine of [MakeNetwork] runs *)
  w_store : gmap nat Server;
  w_app : S;
  w_calls : gmap nat call;
  w_log : list execution;         (* the executions so far, not part of the program *)
}.

Definition with_net (w : world) (rn : Network) : world :=
  MkWorld rn (w_loop w) (w_store w) (w_app w) (w_calls w) (w_log w).
Definition with_call (w : world) (i : nat) (c : call) : world :=
  MkWorld (w_net w) (w_loop w) (w_store w) (w_app w) (<[i := c]> (w_calls w)) (w_log w).
Definition with_store (w : world) (store : gmap nat Server) : world :=
  MkWorld (w_net w) (w_loop w) store (w_app w) (w_calls w) (w_log w).
Definition with_app (w : world) (σ : S) (x : execution) : world :=
  MkWorld (w_net w) (w_loop w) (w_store w) σ (w_calls w) (w_log w ++ [x]).

Definition init (σ : S) : world := MkWorld MakeNetwork true ∅ σ ∅ [].

Inductive action :=
  (* the calls on the network by the test harness *)
  | AReliable (yes : bool) | ALongReordering (yes : bool) | ALongDelays (yes : bool)
  | AMakeEnd (e : Name) | ADeleteEnd (e : Name)
  | AAddServer (s : Name) (p : nat) | ADeleteServer (s : Name)
  | AConnect (e s : Name) | AEnable (e : Name) (b : bool)
  | ACleanup
  | AMakeServer (p : nat) | AAddService (p : nat) (svc : Service)
  (* the goroutine of the network *)
  | AReceive (i : nat) | ALoopExit
  (* the goroutines of call i *)
  | ACall (i : nat) (e : ClientEnd) (svcMeth : string) (args reply : V)
  | ACallDone (i : nat)
  | AStart (i : nat) (r : Z)
  | AServerDispatch (i : nat)
  | AServiceDispatch (i : nat)
  | AReplyReady (i : nat)
  | ATimeout (i : nat)
  | AFinish (i : nat) (r1 r2 : Z)
  | ADrain (i : nat)
  | AReturn (i : nat).

(** The goroutine of [MakeNetwork] takes a request and starts [processReq]. *)
Definition a_receive (w : world) (i : nat) (c : call) : world :=
  with_call (with_net w (add_bytes (add_count (w_net w)) (rq_args (cl_req c)))) i
    (set_proc Started (set_caller Waiting c)).

Definition a_server_dispatch (w : world) (i : nat) (c : call) (p : nat) : outcome world :=
  match w_store w !! p with
  | None => Panic "nil pointer dereference"
  | Some rs =>
      let! '(rs', (svc, m)) := Server_dispatch rs (cl_req c) in
      Done (with_call (with_store w (<[p := rs']> (w_store w))) i (set_exec (InService svc m) c))
  end.

Definition a_service_dispatch (w : world) (i : nat) (c : call) (svc : Service) (m : string)
    : outcome world :=
  let! '(σ, rep, (args, r)) := Service_dispatch svc m (cl_req c) (w_app w) in
  Done (with_call (with_app w σ (MkExecution i args r)) i (set_exec (SendingReply rep) c)).

(** The rendezvous on [replyCh]. *)
Definition a_return (w : world) (i : nat) (c : call) (counted : bool) (rep : replyMsg) : outcome world :=
  let! st := Call_return (cl_reply c) rep in
  Done (with_call (if (counted : bool) then with_net w (add_bytes (w_net w) (rp_reply rep)) else w) i
          (set_proc Finished (set_caller st c))).

(** One action; [None] if the goroutine is not at that point. *)
Definition act (w : world) (a : action) : option (outcome world) :=
  let net rn := Some (Done (with_net w rn)) in
  match a with
  | AReliable b => net (Reliable (w_net w) b)
  | ALongReordering b => net (LongReordering (w_net w) b)
  | ALongDelays b => net (LongDelays (w_net w) b)
  | AMakeEnd e => Some (let! '(rn, _) := MakeEnd (w_net w) e in Done (with_net w rn))
  | ADeleteEnd e => Some (let! rn := DeleteEnd (w_net w) e in Done (with_net w rn))
  | AAddServer s p => net (AddServer (w_net w) s p)
  | ADeleteServer s => net (DeleteServer (w_net w) s)
  | AConnect e s => net (Connect (w_net w) e s)
  | AEnable e b => net (Enable (w_net w) e b)
  | ACleanup => Some (let! rn := Cleanup (w_net w) in Done (with_net w rn))
  | AMakeServer p =>
      match w_store w !! p with
      | None => Some (Done (with_store w (<[p := MakeServer]> (w_store w))))
      | Some _ => None
      end
  | AAddService p svc =>
      rs ← w_store w !! p;
      Some (Done (with_store w (<[p := AddService rs svc]> (w_store w))))
  | AReceive i =>
      c ← w_calls w !! i;
      match cl_caller c with
      | Sending => if w_loop w then Some (Done (a_receive w i c)) else None
      | _ => None
      end
  | ALoopExit =>
      if rn_done (w_net w)
      then Some (Done (MkWorld (w_net w) false (w_store w) (w_app w) (w_calls w) (w_log w)))
      else None
  | ACall i e svcMeth args reply =>
      match w_calls w !! i with
      | None => Some (let! c := Call e svcMeth args reply in Done (with_call w i c))
      | Some _ => None
      end
  | ACallDone i =>
      c ← w_calls w !! i;
      match cl_caller c with
      | Sending =>
          if rn_done (w_net w)
          then Some (Done (with_call w i (set_caller (Returned false (cl_reply c)) c))) else None
      | _ => None
      end
  | AStart i r =>
      c ← w_calls w !! i;
      match cl_proc c with
      | Started => Some (Done (with_call w i (processReq_start (w_net w) c r)))
      | _ => None
      end
  | AServerDispatch i =>
      c ← w_calls w !! i;
      match cl_exec c with
      | Dispatching p => Some (a_server_dispatch w i c p)
      | _ => None
      end
  | AServiceDispatch i =>
      c ← w_calls w !! i;
      match cl_exec c with
      | InService svc m => Some (a_service_dispatch w i c svc m)
      | _ => None
      end
  | AReplyReady i =>
      c ← w_calls w !! i;
      match cl_proc c, cl_exec c with
      | InLoop sn p rel long, SendingReply r =>
          Some (Done (with_call w i (set_exec Exited (set_proc (LoopLeft sn p rel long (Some r)) c))))
      | _, _ => None
      end
  | ATimeout i =>
      c ← w_calls w !! i;
      match cl_proc c with
      | InLoop sn p rel long => Some (Done (with_call w i (processReq_timeout (w_net w) c sn p rel long)))
      | _ => None
      end
  | AFinish i r1 r2 =>
      c ← w_calls w !! i;
      match cl_proc c with
      | LoopLeft sn p rel long reply =>
          Some (Done (with_call w i (processReq_finish (w_net w) c sn p rel long reply r1 r2)))
      | _ => None
      end
  | ADrain i =>
      c ← w_calls w !! i;
      match cl_drain c, cl_exec c with
      | true, SendingReply _ => Some (Done (with_call w i (set_drain false (set_exec Exited c))))
      | _, _ => None
      end
  | AReturn i =>
      c ← w_calls w !! i;
      match cl_proc c, cl_caller c with
      | Replying counted rep, Waiting => Some (a_return w i c counted rep)
      | _, _ => None
      end
  end.

(** [run w acts w']: the actions lead from [w] to [w'], and none of them ends
    the process. *)
Inductive run : world → list action → world → Prop :=
  | run_nil w : run w [] w
  | run_cons w a w1 acts w2 :
      act w a = Some (Done w1) → run w1 acts w2 → run w (a :: acts) w2.

End labrpc.
End labrpc.
