(* ===== verification/LabRpcFacts.v ===== *)
(** * Invariants of the simulated network

    The invariant of every call (its executor, its processor and its caller
    against the executions of its handler so far), the effect of cutting a call
    off its server, and the life of a call on a reliable network. *)

From Stdlib Require Import Ascii.
From S2P Require Import Prelude LabRpc.

Module rpcproof.
Import labrpc.

(** ** Names of methods *)

(** The name has no dot, as the name of a Go method. *)
Fixpoint no_dot (s : string) : bool :=
  match s with
  | "" => true
  | String c s' => negb (Ascii.eqb c "."%char) && no_dot s'
  end.

Lemma length_append (s t : string) : String.length (s +:+ t) = (String.length s + String.length t)%nat.
Proof. induction s as [|c s IH]; simpl; [done|]. by rewrite IH. Qed.

Lemma LastIndex_no_dot s : no_dot s = true → LastIndex_dot s = (-1)%Z.
Proof.
  induction s as [|c s IH]; simpl; [done|]. intros [Hc Hs]%andb_true_iff. rewrite IH by done.
  by apply negb_true_iff in Hc as ->.
Qed.

Lemma LastIndex_split s m :
  no_dot m = true → LastIndex_dot (s +:+ "." +:+ m) = Z.of_nat (String.length s).
Proof.
  intros Hm. induction s as [|c s IH]; simpl.
  - by rewrite LastIndex_no_dot.
  - simpl in IH. rewrite IH. destruct (Z.leb_spec 0 (Z.of_nat (String.length s))); lia.
Qed.

Lemma substring_prefix s t : String.substring 0 (String.length s) (s +:+ t) = s.
Proof. induction s as [|c s IH]; simpl; [by destruct t|]. by rewrite IH. Qed.

Lemma substring_all s : String.substring 0 (String.length s) s = s.
Proof. induction s as [|c s IH]; simpl; [done|]. by rewrite IH. Qed.

Lemma substring_suffix s t : String.substring (String.length s) (String.length t) (s +:+ t) = t.
Proof. induction s as [|c s IH]; simpl; [apply substring_all|done]. Qed.

Lemma str_to_split s m : str_to (s +:+ "." +:+ m) (Z.of_nat (String.length s)) = Done s.
Proof.
  unfold str_to. rewrite length_append, Nat2Z.id, substring_prefix.
  by rewrite (proj2 (andb_true_iff _ _)) by (split; apply Z.leb_le; lia).
Qed.

Lemma str_from_split s m : str_from (s +:+ "." +:+ m) (Z.of_nat (String.length s) + 1) = Done m.
Proof.
  unfold str_from. rewrite (proj2 (andb_true_iff _ _))
    by (split; apply Z.leb_le; rewrite ?length_append; simpl; lia).
  replace (Z.to_nat (Z.of_nat (String.length s) + 1)) with (String.length (s +:+ "."))
    by (rewrite length_append; simpl; lia).
  replace (s +:+ "." +:+ m) with ((s +:+ ".") +:+ m).
  - f_equal. rewrite (length_append (s +:+ ".") m), Nat.add_comm, Nat.add_sub.
    apply substring_suffix.
  - clear. induction s as [|c s IH]; [done|]. change (String c ((s +:+ ".") +:+ m) = String c (s +:+ "." +:+ m)).
    by rewrite IH.
Qed.

Section proofs.
Context {Name : Type} `{Countable Name}.
Context {V : Type} `{Codec V}.
Context {S : Type}.
Implicit Types (w : @world Name _ _ V S) (c : @call Name V S) (i : nat)
  (a : @action Name V S) (acts : list (@action Name V S))
  (log xs : list (@execution V)).

(** The executions of the handler for call [i]. *)
Definition execs i log : list execution := filter (λ x, ex_call x = i) log.

Lemma execs_snoc_ne i j log u v : i ≠ j → execs j (log ++ [MkExecution i u v]) = execs j log.
Proof.
  intros Hne. unfold execs. rewrite filter_app, filter_cons_False by done.
  by rewrite filter_nil, app_nil_r.
Qed.

Lemma execs_snoc i log u v :
  execs i (log ++ [MkExecution i u v]) = execs i log ++ [MkExecution i u v].
Proof. unfold execs. by rewrite filter_app, filter_cons_True. Qed.

(** The handler has been executed exactly once, on the decoded arguments, and
    [rep] is its encoded reply. *)
Definition replied i c xs (rep : replyMsg) : Prop :=
  ∃ r, xs = [MkExecution i (decode (rq_args (cl_req c)) (rq_argsType (cl_req c))).1 r]
       ∧ rep = MkReplyMsg true (encode r).1.

Definition exec_inv i c xs : Prop :=
  match cl_exec c with
  | NoExecutor | Dispatching _ | InService _ _ => xs = []
  | SendingReply rep => replied i c xs rep
  | Exited => ∃ rep, replied i c xs rep
  end.

Definition proc_inv i c xs : Prop :=
  match cl_proc c with
  | NotStarted | Started => cl_exec c = NoExecutor
  | InLoop _ _ _ _ | LoopLeft _ _ _ _ None | Finished => True
  | LoopLeft _ _ _ _ (Some rep) => replied i c xs rep
  | Replying _ rep => rp_ok rep = true → replied i c xs rep
  end.

Definition caller_inv i c xs : Prop :=
  match cl_caller c with
  | Sending => cl_proc c = NotStarted
  | Waiting => True
  | Returned ok v =>
      ok = true → ∃ rep, replied i c xs rep ∧ decode (rp_reply rep) (cl_reply c) = (v, true)
  end.

Definition req_inv c : Prop :=
  encode (cl_args c) = (rq_args (cl_req c), true) ∧ rq_argsType (cl_req c) = zero (cl_args c).

Record cinv i c xs : Prop := MkCinv {
  cinv_req : req_inv c;
  cinv_exec : exec_inv i c xs;
  cinv_proc : proc_inv i c xs;
  cinv_caller : caller_inv i c xs;
}.

Definition winv w : Prop :=
  ∀ i, match w_calls w !! i with
       | Some c => cinv i c (execs i (w_log w))
       | None => execs i (w_log w) = []
       end.

Lemma winv_call w i c : winv w → w_calls w !! i = Some c → cinv i c (execs i (w_log w)).
Proof. intros Hw Hc. specialize (Hw i). by rewrite Hc in Hw. Qed.

(** A change of one call that logs nothing. *)
Lemma winv_with_call w w' i c :
  winv w → w_calls w' = <[i := c]> (w_calls w) → w_log w' = w_log w →
  cinv i c (execs i (w_log w)) → winv w'.
Proof.
  intros Hw Hcs Hl Hc j. rewrite Hcs, Hl. destruct (decide (j = i)) as [->|Hne].
  - by rewrite lookup_insert_eq.
  - rewrite lookup_insert_ne by done. apply Hw.
Qed.

Lemma winv_ext w w' : winv w → w_calls w' = w_calls w → w_log w' = w_log w → winv w'.
Proof. intros Hw Hc Hl j. rewrite Hc, Hl. apply Hw. Qed.

Lemma winv_init (σ : S) : winv (init σ).
Proof. intros i. done. Qed.

Ltac case_call c := destruct c as [req args rv ca pr ex dr]; simpl in *; subst; simpl in *.

Lemma cinv_start (rn : Network) i c xs r :
  cl_proc c = Started → cinv i c xs → cinv i (processReq_start rn c r) xs.
Proof.
  intros Hp [Hr He Hpr Hca]. unfold processReq_start, readEndnameInfo. case_call c.
  unfold exec_inv, proc_inv, caller_inv in *; simpl in *. subst ex.
  repeat case_match; split; unfold exec_inv, proc_inv, caller_inv; simpl in *; done || congruence || auto.
Qed.

Lemma cinv_timeout (rn : Network) i c xs sn p rel long :
  cl_proc c = InLoop sn p rel long → cinv i c xs →
  cinv i (processReq_timeout rn c sn p rel long) xs.
Proof.
  intros Hp [Hr He Hpr Hca]. unfold processReq_timeout. case_call c.
  unfold exec_inv, proc_inv, caller_inv in *; simpl in *.
  destruct (isServerDead _ _ _ _);
    split; unfold exec_inv, proc_inv, caller_inv; simpl in *; try done;
    destruct ca; done || congruence || auto.
Qed.

Lemma cinv_finish (rn : Network) i c xs sn p rel long reply r1 r2 :
  cl_proc c = LoopLeft sn p rel long reply → cinv i c xs →
  cinv i (processReq_finish rn c sn p rel long reply r1 r2) xs.
Proof.
  intros Hp [Hr He Hpr Hca]. unfold processReq_finish. case_call c.
  unfold exec_inv, proc_inv, caller_inv in *; simpl in *.
  repeat case_match; split; unfold exec_inv, proc_inv, caller_inv; simpl in *;
    done || congruence || auto.
Qed.

Lemma cinv_reply_ready i c xs sn p rel long rep :
  cl_proc c = InLoop sn p rel long → cl_exec c = SendingReply rep → cinv i c xs →
  cinv i (set_exec Exited (set_proc (LoopLeft sn p rel long (Some rep)) c)) xs.
Proof.
  intros Hp He' [Hr He Hpr Hca]. case_call c.
  unfold exec_inv, proc_inv, caller_inv in *; simpl in *.
  split; unfold exec_inv, proc_inv, caller_inv; simpl in *; eauto;
    destruct ca; done || congruence || auto.
Qed.

Lemma cinv_return i c xs counted rep st :
  cl_proc c = Replying counted rep → Call_return (cl_reply c) rep = Done st → cinv i c xs →
  cinv i (set_proc Finished (set_caller st c)) xs.
Proof.
  intros Hp Hst [Hr He Hpr Hca]. unfold Call_return in Hst. case_call c.
  unfold exec_inv, proc_inv, caller_inv in *; simpl in *.
  split; unfold exec_inv, proc_inv, caller_inv; simpl in *; try done.
  destruct (rp_ok rep); [|by simplify_eq].
  destruct (decode (rp_reply rep) rv) as [v [|]] eqn:Hd; simplify_eq.
  intros _. exists rep. by split; [apply Hpr|].
Qed.

Lemma winv_service w i c svc m w' :
  winv w → w_calls w !! i = Some c → cl_exec c = InService svc m →
  a_service_dispatch w i c svc m = Done w' → winv w'.
Proof.
  intros Hw Hc Hx Ha j. unfold a_service_dispatch, Service_dispatch in Ha.
  destruct (sv_methods svc !! m) as [meth|]; [|done]. go_inv. destruct x as [[σ rep] [u r]].
  go_inv. destruct x2 as [σ' r']. simplify_eq. simpl.
  destruct (decide (j = i)) as [->|Hne].
  - rewrite lookup_insert_eq, execs_snoc. destruct (winv_call _ _ _ Hw Hc) as [Hr He Hpr Hca].
    unfold exec_inv in He. rewrite Hx in He. rewrite He in *. simpl.
    split; [done|eexists; split; reflexivity|..].
    + unfold proc_inv in *. case_call c. repeat case_match; try done.
      * destruct Hpr as (? & [=] & _).
      * intros Ho. destruct (Hpr Ho) as (? & [=] & _).
    + unfold caller_inv in *. case_call c. destruct ca; try done.
      intros Ho. destruct (Hca Ho) as (? & (? & [=] & _) & _).
  - rewrite lookup_insert_ne, execs_snoc_ne by done. apply Hw.
Qed.

Lemma winv_act w a w' : winv w → act w a = Some (Done w') → winv w'.
Proof.
  intros Hw Ha. destruct a; simpl in Ha.
  all: try (simplify_eq; by eapply winv_ext).
  all: try (repeat case_match; injection Ha as Ha; inv_done; simplify_eq; by eapply winv_ext).
  all: try (destruct (w_calls w !! i) as [c|] eqn:Hc; [simpl in Ha|done];
    pose proof (winv_call _ _ _ Hw Hc) as Hi).
  - (* AMakeEnd *) destruct (MakeEnd _ _) as [[]| |]; simpl in Ha; simplify_eq. by eapply winv_ext.
  - (* AMakeServer *)
    destruct (w_store w !! p); simpl in Ha; simplify_eq. by eapply winv_ext.
  - (* AAddService *)
    destruct (w_store w !! p); simpl in Ha; simplify_eq. by eapply winv_ext.
  - (* AReceive *) destruct (cl_caller c) eqn:Hca; try done. destruct (w_loop w); simplify_eq.
    eapply winv_with_call; [done..|]. destruct Hi as [Hr He Hp Hcal].
    unfold caller_inv in Hcal. rewrite Hca in Hcal. unfold exec_inv, proc_inv in *.
    rewrite Hcal in Hp. rewrite Hp in He.
    split; [done|..]; unfold exec_inv, proc_inv, caller_inv; simpl; by rewrite ?Hp.
  - (* ALoopExit *) destruct (rn_done _); simplify_eq. by eapply winv_ext.
  - (* ACall *) destruct (w_calls w !! i) eqn:Hc; [done|]. unfold Call in Ha.
    destruct (encode args) as [b [|]] eqn:Hen; simpl in Ha; simplify_eq.
    eapply winv_with_call; [done..|]. specialize (Hw i). rewrite Hc in Hw. by split.
  - (* ACallDone *) destruct (cl_caller c) eqn:Hca; try done. destruct (rn_done _); simplify_eq.
    eapply winv_with_call; [done..|]. destruct Hi as [Hr He Hp Hcal]. by split.
  - (* AStart *) destruct (cl_proc c) eqn:Hp; simplify_eq.
    eapply winv_with_call; [done..|]. by apply cinv_start.
  - (* AServerDispatch *) destruct (cl_exec c) eqn:Hx; try done. unfold a_server_dispatch in Ha.
    destruct (w_store w !! server); [|done]. injection Ha as Ha. inv_done.
    destruct x as [rs' [svc m]]. inv_done. eapply winv_with_call; [done..|].
    destruct Hi as [Hr He Hp Hcal]. unfold exec_inv, proc_inv in *. rewrite Hx in He.
    split; [done|done|..]; unfold proc_inv; simpl; [|done].
    destruct (cl_proc c); try done; congruence.
  - (* AServiceDispatch *) destruct (cl_exec c) eqn:Hx; try done. injection Ha as Ha.
    by eapply winv_service.
  - (* AReplyReady *) destruct (cl_proc c) eqn:Hp; try done. destruct (cl_exec c) eqn:Hx; simplify_eq.
    eapply winv_with_call; [done..|]. by apply cinv_reply_ready.
  - (* ATimeout *) destruct (cl_proc c) eqn:Hp; simplify_eq.
    eapply winv_with_call; [done..|]. by apply cinv_timeout.
  - (* AFinish *) destruct (cl_proc c) eqn:Hp; simplify_eq.
    eapply winv_with_call; [done..|]. by apply cinv_finish.
  - (* ADrain *) destruct (cl_drain c); [|done]. destruct (cl_exec c) eqn:Hx; simplify_eq.
    eapply winv_with_call; [done..|]. destruct Hi as [Hr He Hp Hcal].
    unfold exec_inv, proc_inv in *. rewrite Hx in He.
    split; [done|by exists r|..]; unfold proc_inv; simpl; [|done].
    destruct (cl_proc c); try done; congruence.
  - (* AReturn *) destruct (cl_proc c) eqn:Hp; try done. destruct (cl_caller c) eqn:Hca; try done.
    injection Ha as Ha. unfold a_return in Ha. inv_done.
    eapply winv_with_call; [done|by destruct counted|by destruct counted|].
    by eapply cinv_return.
Qed.

Lemma winv_run w acts w' : winv w → run w acts w' → winv w'.
Proof. intros Hw Hrun. induction Hrun; eauto using winv_act. Qed.

(** ** What the actions change *)

(** The calls of the harness on the network; the others are steps of goroutines. *)
Definition admin a : bool :=
  match a with
  | AReliable _ | ALongReordering _ | ALongDelays _ | AMakeEnd _ | ADeleteEnd _
  | AAddServer _ _ | ADeleteServer _ | AConnect _ _ | AEnable _ _ | ACleanup
  | AMakeServer _ | AAddService _ _ => true
  | _ => false
  end.

(** The call a goroutine step belongs to. *)
Definition of_call a : option nat :=
  match a with
  | AReceive i | ACall i _ _ _ _ | ACallDone i | AStart i _ | AServerDispatch i
  | AServiceDispatch i | AReplyReady i | ATimeout i | AFinish i _ _ | ADrain i | AReturn i => Some i
  | _ => None
  end.

(** The part of the network that decides the fate of requests. *)
Definition config (rn : @Network Name _ _) :=
  (rn_reliable rn, rn_enabled rn, rn_servers rn, rn_connections rn, rn_done rn).

Lemma act_config w a w' :
  act w a = Some (Done w') → admin a = false → config (w_net w') = config (w_net w).
Proof.
  intros Ha Had. destruct a; try done; simpl in Ha.
  all: try (destruct (w_calls w !! i) as [c|] eqn:Hc; simpl in Ha; try done).
  all: unfold a_server_dispatch, a_service_dispatch, a_return in Ha.
  all: repeat case_match; simplify_eq; try done; inv_done.
  all: try (destruct x as [rs' [svc m]]; by inv_done).
  all: try (destruct x as [[? ?] [? ?]]; by inv_done).
  all: done.
Qed.

Lemma act_calls w a w' i :
  act w a = Some (Done w') → of_call a ≠ Some i → w_calls w' !! i = w_calls w !! i.
Proof.
  intros Ha Hi. destruct a; simpl in Ha, Hi.
  all: try (destruct (w_calls w !! _) as [c|] eqn:Hc; simpl in Ha; try done).
  all: unfold a_server_dispatch, a_service_dispatch, a_return in Ha.
  all: try (destruct (w_store w !! _) as [?|] eqn:Hst; simpl in Ha; try done).
  all: repeat case_match; simplify_eq; try done; inv_done.
  all: try (destruct x as [rs' [svc' m]]; inv_done).
  all: try (destruct rs'; inv_done).
  all: try (destruct x as [? ?]; inv_done).
  all: simpl; try done; try (rewrite lookup_insert_ne; [done|congruence]).
Qed.

Lemma act_enabled w a w' e :
  act w a = Some (Done w') →
  is_enabled (w_net w') e = is_enabled (w_net w) e
  ∨ (a = AMakeEnd e ∨ a = ADeleteEnd e) ∧ is_enabled (w_net w') e = false
  ∨ a = AEnable e (is_enabled (w_net w') e).
Proof.
  intros Ha. destruct (admin a) eqn:Had.
  2:{ left. pose proof (act_config _ _ _ Ha Had) as Hc. unfold config in Hc. simplify_eq.
      unfold is_enabled. congruence. }
  destruct a; try done; simpl in Ha; try (simplify_eq; by left).
  - unfold MakeEnd in Ha. destruct (rn_ends _ !! _); simpl in Ha; simplify_eq.
    unfold is_enabled; simpl. destruct (decide (e0 = e)) as [->|].
    + rewrite lookup_insert_eq. auto.
    + left. by rewrite lookup_insert_ne.
  - unfold DeleteEnd in Ha. destruct (rn_ends _ !! _); simpl in Ha; simplify_eq.
    unfold is_enabled; simpl. destruct (decide (e0 = e)) as [->|].
    + rewrite lookup_delete_eq. auto.
    + left. by rewrite lookup_delete_ne.
  - simplify_eq. unfold is_enabled; simpl. destruct (decide (e0 = e)) as [->|].
    + rewrite lookup_insert_eq. auto.
    + left. by rewrite lookup_insert_ne.
  - unfold Cleanup in Ha. destruct (rn_done _); simpl in Ha; simplify_eq. by left.
  - destruct (w_store w !! p); simplify_eq. by left.
  - destruct (w_store w !! p); simpl in Ha; simplify_eq. by left.
Qed.

Lemma act_server w a w' sn :
  act w a = Some (Done w') →
  server_at (w_net w') sn = server_at (w_net w) sn
  ∨ a = ADeleteServer sn ∧ server_at (w_net w') sn = None
  ∨ ∃ p, a = AAddServer sn p ∧ server_at (w_net w') sn = Some p.
Proof.
  intros Ha. destruct (admin a) eqn:Had.
  2:{ left. pose proof (act_config _ _ _ Ha Had) as Hc. unfold config in Hc. simplify_eq.
      unfold server_at. congruence. }
  destruct a; try done; simpl in Ha; try (simplify_eq; by left).
  - unfold MakeEnd in Ha. destruct (rn_ends _ !! _); simpl in Ha; simplify_eq. by left.
  - unfold DeleteEnd in Ha. destruct (rn_ends _ !! _); simpl in Ha; simplify_eq. by left.
  - simplify_eq. unfold server_at; simpl. destruct (decide (s = sn)) as [->|].
    + rewrite lookup_insert_eq. eauto.
    + left. by rewrite lookup_insert_ne.
  - simplify_eq. unfold server_at; simpl. destruct (decide (s = sn)) as [->|].
    + rewrite lookup_insert_eq. auto.
    + left. by rewrite lookup_insert_ne.
  - unfold Cleanup in Ha. destruct (rn_done _); simpl in Ha; simplify_eq. by left.
  - destruct (w_store w !! p); simplify_eq. by left.
  - destruct (w_store w !! p); simpl in Ha; simplify_eq. by left.
Qed.

(** ** Cut off from the server *)

(** The actions that can undo [isServerDead e sn p]. *)
Definition revives (e sn : Name) (p : nat) a : bool :=
  match a with
  | AAddServer s q => bool_decide (s = sn) && (q =? p)%nat
  | AEnable e' b => bool_decide (e' = e) && b
  | _ => false
  end.

Lemma dead_stays w a w' e sn p :
  act w a = Some (Done w') → revives e sn p a = false →
  isServerDead (w_net w) e sn p = true → isServerDead (w_net w') e sn p = true.
Proof.
  intros Ha Hr Hd. unfold isServerDead in *.
  destruct (act_enabled _ _ _ e Ha) as [He|[[_ He]| ->]].
  - destruct (act_server _ _ _ sn Ha) as [Hs|[[_ Hs]|(q & -> & Hs)]]; rewrite He, Hs in *.
    + done.
    + by rewrite bool_decide_eq_false_2, orb_true_r.
    + simpl in Hr. rewrite bool_decide_eq_true_2 in Hr by done. simpl in Hr.
      apply Nat.eqb_neq in Hr. rewrite bool_decide_eq_false_2 by congruence.
      by rewrite orb_true_r.
  - by rewrite He.
  - simpl in Hr. rewrite bool_decide_eq_true_2 in Hr by done. simpl in Hr. by rewrite Hr.
Qed.

(** The call waits for the handler, or it will be or has been refused. *)
Definition doomed (sn : Name) (p : nat) c : Prop :=
  match cl_proc c with
  | InLoop s q _ _ | LoopLeft s q _ _ _ => s = sn ∧ q = p ∧ cl_caller c = Waiting
  | Replying _ rep => rp_ok rep = false ∧ cl_caller c = Waiting
  | Finished => ∃ v, cl_caller c = Returned false v
  | _ => False
  end.

Definition cut (i : nat) (e sn : Name) (p : nat) w : Prop :=
  isServerDead (w_net w) e sn p = true ∧
  ∃ c, w_calls w !! i = Some c ∧ rq_endname (cl_req c) = e ∧ doomed sn p c.

(** Steps of the call itself. *)
Lemma doomed_step w a w' i c sn p :
  act w a = Some (Done w') → of_call a = Some i → w_calls w !! i = Some c →
  isServerDead (w_net w) (rq_endname (cl_req c)) sn p = true → doomed sn p c →
  ∃ c', w_calls w' !! i = Some c' ∧ rq_endname (cl_req c') = rq_endname (cl_req c) ∧ doomed sn p c'.
Proof.
  intros Ha Hi Hc Hd Hdm.
  destruct a; try done; simpl in Hi, Ha; injection Hi as ->; rewrite Hc in Ha; simpl in Ha; try done;
    unfold doomed in Hdm.
  - (* AReceive *) destruct (cl_caller c) eqn:Hca; try done.
    destruct (cl_proc c); destruct_and?; try done. by destruct Hdm.
  - (* ACallDone *) destruct (cl_caller c) eqn:Hca; try done.
    destruct (cl_proc c); destruct_and?; try done. by destruct Hdm.
  - (* AStart *) by destruct (cl_proc c).
  - (* AServerDispatch *) destruct (cl_exec c); try done. unfold a_server_dispatch in Ha.
    destruct (w_store w !! server); [|done]. injection Ha as Ha. inv_done.
    destruct x as [? [? ?]]. inv_done. simpl. rewrite lookup_insert_eq. by eexists.
  - (* AServiceDispatch *) destruct (cl_exec c); try done. unfold a_service_dispatch in Ha.
    injection Ha as Ha. inv_done. destruct x as [[? ?] [? ?]]. inv_done. simpl.
    rewrite lookup_insert_eq. by eexists.
  - (* AReplyReady *) destruct (cl_proc c) eqn:Hp; try done. destruct (cl_exec c); try done.
    simplify_eq. simpl. rewrite lookup_insert_eq. by eexists.
  - (* ATimeout *) destruct (cl_proc c) eqn:Hp; try done. destruct Hdm as (-> & -> & Hw).
    simplify_eq. simpl. rewrite lookup_insert_eq. unfold processReq_timeout. rewrite Hd. by eexists.
  - (* AFinish *) destruct (cl_proc c) eqn:Hp; try done. destruct Hdm as (-> & -> & Hw).
    simplify_eq. simpl. rewrite lookup_insert_eq. unfold processReq_finish. rewrite Hd.
    by destruct reply; eexists.
  - (* ADrain *) destruct (cl_drain c); [|done]. destruct (cl_exec c); try done.
    simplify_eq. simpl. rewrite lookup_insert_eq. by eexists.
  - (* AReturn *) destruct (cl_proc c) eqn:Hp; try done. destruct (cl_caller c); try done.
    destruct Hdm as [Hok _]. unfold a_return, Call_return in Ha. rewrite Hok in Ha.
    simpl in Ha. simplify_eq. simpl. rewrite lookup_insert_eq. eexists. do 2 (split; [done|]).
    by eexists.
Qed.

Lemma cut_act w a w' i e sn p :
  act w a = Some (Done w') → revives e sn p a = false → cut i e sn p w → cut i e sn p w'.
Proof.
  intros Ha Hr (Hd & c & Hc & He & Hdm). split; [by eapply dead_stays|].
  destruct (decide (of_call a = Some i)) as [Hi|Hi].
  - subst e. by eapply doomed_step.
  - exists c. by rewrite (act_calls _ _ _ _ Ha Hi).
Qed.

Lemma cut_run w acts w' i e sn p :
  run w acts w' → forallb (λ a, negb (revives e sn p a)) acts = true → cut i e sn p w → cut i e sn p w'.
Proof.
  intros Hrun. induction Hrun as [|w a w1 acts w2 Ha Hrun IH]; [done|].
  simpl. intros [Hr Hs]%andb_true_iff Hcut. apply IH; [done|].
  apply negb_true_iff in Hr. by eapply cut_act.
Qed.

Lemma Server_dispatch_split (rs : @Server V S) (req : @reqMsg Name V) s m :
  rq_svcMeth req = s +:+ "." +:+ m → no_dot m = true →
  Server_dispatch rs req =
    match rs_services rs !! s with
    | Some svc => Done (MkServerRecord (rs_services rs) (rs_count rs + 1), (svc, m))
    | None => Fatal "labrpc.Server.dispatch(): unknown service"
    end.
Proof.
  intros Hs Hm. unfold Server_dispatch.
  by rewrite Hs, LastIndex_split, str_to_split, str_from_split by done.
Qed.

(** ** A reliable network *)

(** The actions that leave alone the path from end [e] to the server at [p]. *)
Definition harmless (e sn : Name) (p : nat) a : bool :=
  match a with
  | AReliable b => b
  | AMakeEnd e' | ADeleteEnd e' | AConnect e' _ => negb (bool_decide (e' = e))
  | AEnable e' b => negb (bool_decide (e' = e)) || b
  | AAddServer s _ | ADeleteServer s => negb (bool_decide (s = sn))
  | AAddService q _ => negb (q =? p)%nat
  | ACleanup => false
  | _ => true
  end.

(** The network is up and reliable, and [e] is connected to the live server [p],
    which has the service. *)
Record path (e sn : Name) (p : nat) (s : string) (svc : Service) w : Prop := MkPath {
  path_reliable : rn_reliable (w_net w) = true;
  path_enabled : is_enabled (w_net w) e = true;
  path_connected : rn_connections (w_net w) !! e = Some (Some sn);
  path_server : server_at (w_net w) sn = Some p;
  path_up : rn_done (w_net w) = false;
  path_loop : w_loop w = true;
  path_service : ∃ rs, w_store w !! p = Some rs ∧ rs_services rs !! s = Some svc;
}.

Lemma Server_dispatch_services (rs rs' : @Server V S) (req : @reqMsg Name V) x :
  Server_dispatch rs req = Done (rs', x) → rs_services rs' = rs_services rs.
Proof.
  unfold Server_dispatch. intros Hd. inv_done.
  destruct (rs_services rs !! x0); by simplify_eq.
Qed.

Lemma act_store w a w' p s svc :
  act w a = Some (Done w') → (∀ v, a ≠ AAddService p v) →
  (∃ rs, w_store w !! p = Some rs ∧ rs_services rs !! s = Some svc) →
  ∃ rs, w_store w' !! p = Some rs ∧ rs_services rs !! s = Some svc.
Proof.
  intros Ha Hne (rs & Hrs & Hsvc). destruct a; simpl in Ha.
  all: try (simplify_eq; by eauto).
  all: try (destruct (w_calls w !! i) as [c|]; [simpl in Ha|done]).
  all: try (repeat case_match; simplify_eq; inv_done; simpl; by eauto).
  - destruct (MakeEnd _ _) as [[]| |]; simpl in Ha; simplify_eq. by eauto.
  - destruct (w_store w !! p0) eqn:Hp0; simplify_eq. exists rs. simpl.
    rewrite lookup_insert_ne by congruence. done.
  - destruct (w_store w !! p0) eqn:Hp0; simpl in Ha; simplify_eq. exists rs. simpl.
    rewrite lookup_insert_ne by (intros ->; by apply (Hne svc0)). done.
  - destruct (cl_exec c); try done. unfold a_server_dispatch in Ha.
    destruct (w_store w !! server) as [rs1|] eqn:Hp0; [|done]. injection Ha as Ha. inv_done.
    destruct x as [rs' [svc' m]]. inv_done. simpl. destruct (decide (server = p)) as [->|].
    + rewrite lookup_insert_eq. exists rs'. split; [done|]. simplify_eq.
      by rewrite (Server_dispatch_services _ _ _ _ Hx).
    + rewrite lookup_insert_ne by done. eauto.
  - destruct (cl_exec c); try done. unfold a_service_dispatch in Ha. injection Ha as Ha.
    inv_done. destruct x as [[? ?] [? ?]]. inv_done. simpl. eauto.
  - destruct (cl_proc c); try done. destruct (cl_caller c); try done. injection Ha as Ha.
    unfold a_return in Ha. inv_done. destruct counted; simpl; eauto.
Qed.

Lemma act_path_rest w a w' e :
  act w a = Some (Done w') → 
  (match a with AReliable b => b | ACleanup => false
   | AMakeEnd e' | ADeleteEnd e' | AConnect e' _ => negb (bool_decide (e' = e)) | _ => true end) = true →
  (rn_reliable (w_net w) = true → rn_reliable (w_net w') = true) ∧
  rn_connections (w_net w') !! e = rn_connections (w_net w) !! e ∧
  rn_done (w_net w') = rn_done (w_net w).
Proof.
  intros Ha Hh. destruct (admin a) eqn:Had.
  2:{ pose proof (act_config _ _ _ Ha Had) as Hc. unfold config in Hc. simplify_eq.
      split_and!; congruence. }
  destruct a; try done; simpl in Ha; try (simplify_eq; done).
  - unfold MakeEnd in Ha. destruct (rn_ends _ !! _); simpl in Ha; simplify_eq. simpl.
    rewrite lookup_insert_ne; [done|]. intros ->. by rewrite bool_decide_eq_true_2 in Hh.
  - unfold DeleteEnd in Ha. destruct (rn_ends _ !! _); simpl in Ha; simplify_eq. simpl.
    rewrite lookup_delete_ne; [done|]. intros ->. by rewrite bool_decide_eq_true_2 in Hh.
  - simplify_eq. simpl.
    rewrite lookup_insert_ne; [done|]. intros ->. by rewrite bool_decide_eq_true_2 in Hh.
  - destruct (w_store w !! p); simplify_eq. done.
  - destruct (w_store w !! p); simpl in Ha; simplify_eq. done.
Qed.

Lemma act_loop w a w' : act w a = Some (Done w') → rn_done (w_net w) = false → w_loop w' = w_loop w.
Proof.
  intros Ha Hd. destruct a; simpl in Ha; rewrite ?Hd in Ha.
  all: try (destruct (w_calls w !! _) as [c|] eqn:Hc; simpl in Ha; try done).
  all: unfold a_server_dispatch, a_service_dispatch, a_return in Ha.
  all: try (destruct (w_store w !! _) as [?|] eqn:Hst; simpl in Ha; try done).
  all: repeat case_match; simplify_eq; try done; inv_done.
  all: try (destruct x as [rs' [svc' m]]; inv_done).
  all: try (destruct rs'; inv_done).
  all: try (destruct x as [? ?]; inv_done).
  all: done.
Qed.

Lemma path_act e sn p s svc w a w' :
  act w a = Some (Done w') → harmless e sn p a = true → path e sn p s svc w → path e sn p s svc w'.
Proof.
  intros Ha Hh [Hr He Hc Hs Hd Hl Hsv].
  destruct (act_path_rest _ _ _ e Ha) as (Hr' & Hc' & Hd'); [by destruct a|].
  split; [by apply Hr'| |congruence| |congruence| |].
  - destruct (act_enabled _ _ _ e Ha) as [->|[[[-> | ->] _]|Hen]]; [done|..].
    + simpl in Hh. by rewrite bool_decide_eq_true_2 in Hh.
    + simpl in Hh. by rewrite bool_decide_eq_true_2 in Hh.
    + rewrite Hen in Hh. simpl in Hh. by rewrite bool_decide_eq_true_2 in Hh.
  - destruct (act_server _ _ _ sn Ha) as [->|[[-> _]|(q & -> & _)]]; [done|..];
      simpl in Hh; by rewrite bool_decide_eq_true_2 in Hh.
  - rewrite (act_loop _ _ _ Ha); done.
  - eapply act_store; [done| |done]. intros v ->. simpl in Hh. by rewrite Nat.eqb_refl in Hh.
Qed.

(** The method that request [req] names returns on every state, and its reply can
    be decoded into the variable [rv] of the caller. *)
Record handles (svc : @Service V S) (s m : string) (req : @reqMsg Name V) (rv : V) : Prop := MkHandles {
  handles_name : rq_svcMeth req = s +:+ "." +:+ m;
  handles_dot : no_dot m = true;
  handles_method : ∀ σ, ∃ σ' r x,
    Service_dispatch svc m req σ = Done (σ', MkReplyMsg true (encode r).1, x) ∧
    (decode (encode r).1 rv).2 = true;
}.

Definition decodable (rv : V) (rep : replyMsg) : Prop :=
  rp_ok rep = true ∧ (decode (rp_reply rep) rv).2 = true.

(** How far the call is from its return; 0 when it has returned true. *)
Definition serving (sn : Name) (p : nat) (svc : Service) (m : string) c (n : nat) : Prop :=
  cl_drain c = false ∧
  match cl_proc c, cl_caller c, cl_exec c with
  | NotStarted, Sending, NoExecutor => n = 7
  | Started, Waiting, NoExecutor => n = 6
  | InLoop s q rel _, Waiting, ex =>
      s = sn ∧ q = p ∧ rel = true ∧
      match ex with
      | Dispatching q' => q' = p ∧ n = 5
      | InService v m' => v = svc ∧ m' = m ∧ n = 4
      | SendingReply rep => decodable (cl_reply c) rep ∧ n = 3
      | _ => False
      end
  | LoopLeft s q rel _ (Some rep), Waiting, Exited =>
      s = sn ∧ q = p ∧ rel = true ∧ decodable (cl_reply c) rep ∧ n = 2
  | Replying _ rep, Waiting, Exited => decodable (cl_reply c) rep ∧ n = 1
  | Finished, Returned true _, Exited => n = 0
  | _, _, _ => False
  end%nat.

(** Every step of the call brings it nearer to its return, except the polling of
    the server. *)
Lemma serving_step e sn p s svc m w a w' i c n :
  act w a = Some (Done w') → of_call a = Some i → w_calls w !! i = Some c →
  rq_endname (cl_req c) = e → path e sn p s svc w → handles svc s m (cl_req c) (cl_reply c) →
  serving sn p svc m c n →
  ∃ c' n', w_calls w' !! i = Some c' ∧ cl_req c' = cl_req c ∧ cl_reply c' = cl_reply c ∧
    serving sn p svc m c' n' ∧ (n = 1 + n' ∨ a = ATimeout i ∧ n' = n)%nat.
Proof.
  intros Ha Hi Hc He Hpath [Hname Hdot Hm] [Hdr Hs]. destruct Hpath.
  destruct a; try done; simpl in Hi, Ha; injection Hi as ->; rewrite Hc in Ha; simpl in Ha; try done;
    unfold serving.
  - (* AReceive *) destruct (cl_proc c) eqn:Hp, (cl_caller c) eqn:Hca, (cl_exec c) eqn:Hx; try done.
    all: try (destruct reply; done).
    rewrite path_loop0 in Ha. simplify_eq. simpl. rewrite lookup_insert_eq.
    eexists _, 6%nat. split_and!; [done..| |by left]. simpl. by rewrite Hx.
  - (* ACallDone *) rewrite path_up0 in Ha. by destruct (cl_caller c).
  - (* AStart *) destruct (cl_proc c) eqn:Hp, (cl_caller c) eqn:Hca, (cl_exec c) eqn:Hx; try done.
    injection Ha as <-. simpl. rewrite lookup_insert_eq.
    unfold processReq_start, readEndnameInfo. rewrite He, path_enabled0, path_connected0. simpl.
    rewrite path_server0, path_reliable0. simpl.
    eexists _, 5%nat. split_and!; [done..| |by left]. simpl. by rewrite Hca.
  - (* AServerDispatch *)
    destruct (cl_exec c) eqn:Hx; try done. destruct (cl_proc c) eqn:Hp; try done;
      destruct (cl_caller c) eqn:Hca; try done; try (by destruct reply); try (by destruct ok).
    destruct Hs as (-> & -> & -> & -> & ->). destruct path_service0 as (rs & Hrs & Hsv).
    unfold a_server_dispatch in Ha. rewrite Hrs, (Server_dispatch_split _ _ s m), Hsv in Ha by done.
    simpl in Ha. simplify_eq. simpl. rewrite lookup_insert_eq.
    eexists _, 4%nat. split_and!; [done..| |by left]. simpl. by rewrite Hp, Hca.
  - (* AServiceDispatch *)
    destruct (cl_exec c) eqn:Hx; try done. destruct (cl_proc c) eqn:Hp; try done;
      destruct (cl_caller c) eqn:Hca; try done; try (by destruct reply); try (by destruct ok).
    destruct Hs as (-> & -> & -> & -> & -> & ->).
    destruct (Hm (w_app w)) as (σ & r & [u v] & Hsd & Hdec).
    unfold a_service_dispatch in Ha. rewrite Hsd in Ha.
    simpl in Ha. simplify_eq. simpl. rewrite lookup_insert_eq.
    eexists _, 3%nat. split_and!; [done..| |by left]. simpl. by rewrite Hp, Hca.
  - (* AReplyReady *)
    destruct (cl_proc c) eqn:Hp; try done. destruct (cl_exec c) eqn:Hx; try done.
    destruct (cl_caller c) eqn:Hca; try done. destruct Hs as (-> & -> & -> & Hd & ->).
    simplify_eq. simpl. rewrite lookup_insert_eq.
    eexists _, 2%nat. split_and!; [done..| |by left]. simpl. by rewrite Hca.
  - (* ATimeout *)
    destruct (cl_proc c) eqn:Hp; try done. destruct (cl_caller c) eqn:Hca; try done.
    destruct Hs as (-> & -> & -> & Hs). simplify_eq. simpl. rewrite lookup_insert_eq.
    unfold processReq_timeout, isServerDead. rewrite path_enabled0, path_server0.
    rewrite bool_decide_eq_true_2 by done. simpl.
    exists c, n. split_and!; [done..| |by right]. by rewrite Hp, Hca.
  - (* AFinish *)
    destruct (cl_proc c) eqn:Hp; try done. destruct reply as [rep|]; [|done].
    destruct (cl_caller c) eqn:Hca; try done. destruct (cl_exec c) eqn:Hx; try done.
    destruct Hs as (-> & -> & -> & Hd & ->). simplify_eq. simpl. rewrite lookup_insert_eq.
    unfold processReq_finish, isServerDead. rewrite path_enabled0, path_server0.
    rewrite bool_decide_eq_true_2 by done. simpl.
    exists (set_proc (Replying true rep) c), 1%nat. split_and!; [by destruct (_ && _)|done..| |by left].
    simpl. by rewrite Hca, Hx.
  - (* ADrain *)
    by rewrite Hdr in Ha.
  - (* AReturn *)
    destruct (cl_proc c) eqn:Hp; try done. destruct (cl_caller c) eqn:Hca; try done.
    destruct (cl_exec c) eqn:Hx; try done. destruct Hs as [[Hok Hd] ->].
    unfold a_return, Call_return in Ha. rewrite Hok in Ha.
    destruct (decode (rp_reply rep) (cl_reply c)) as [v ok]. simpl in Hd. subst ok.
    simpl in Ha. simplify_eq. simpl. rewrite lookup_insert_eq.
    eexists _, 0%nat. split_and!; [done..| |by left]. simpl. by rewrite Hx.
Qed.

(** The next step of the call is enabled. *)
Lemma serving_next e sn p s svc m w i c n :
  w_calls w !! i = Some c → rq_endname (cl_req c) = e → path e sn p s svc w →
  handles svc s m (cl_req c) (cl_reply c) → serving sn p svc m c (1 + n) →
  ∃ a w' c', act w a = Some (Done w') ∧ of_call a = Some i ∧ w_calls w' !! i = Some c' ∧
    cl_req c' = cl_req c ∧ cl_reply c' = cl_reply c ∧ serving sn p svc m c' n.
Proof.
  intros Hc He Hp Hh Hs.
  assert (∃ a w', act w a = Some (Done w') ∧ of_call a = Some i ∧ a ≠ ATimeout i) as (a & w' & Ha & Hi & Hne).
  { pose proof Hp as [? ? ? ? ? Hl (rs & Hrs & Hsv)]. pose proof Hh as [Hname Hdot Hm].
    destruct Hs as [Hdr Hs].
    destruct (cl_proc c) eqn:Hpr; try done.
    - destruct (cl_caller c) eqn:Hca; try done. exists (AReceive i). eexists. simpl.
      rewrite Hc. simpl. rewrite Hca, Hl. done.
    - exists (AStart i 0). eexists. simpl. rewrite Hc. simpl. by rewrite Hpr.
    - destruct (cl_caller c) eqn:Hca; try done. destruct Hs as (-> & -> & -> & Hs).
      destruct (cl_exec c) eqn:Hx; try done.
      + destruct Hs as [-> _]. exists (AServerDispatch i). eexists. simpl. rewrite Hc. simpl.
        rewrite Hx. unfold a_server_dispatch.
        rewrite Hrs, (Server_dispatch_split _ _ s m), Hsv by done. done.
      + destruct Hs as (-> & -> & _). destruct (Hm (w_app w)) as (σ & r & [u v] & Hsd & _).
        exists (AServiceDispatch i). eexists. simpl. rewrite Hc. simpl. rewrite Hx.
        unfold a_service_dispatch. rewrite Hsd. done.
      + exists (AReplyReady i). eexists. simpl. rewrite Hc. simpl. by rewrite Hpr, Hx.
    - exists (AFinish i 0 0). eexists. simpl. rewrite Hc. simpl. by rewrite Hpr.
    - destruct (cl_caller c) eqn:Hca; try done. destruct (cl_exec c); try done.
      destruct Hs as [[Hok Hd] _]. exists (AReturn i).
      destruct (decode (rp_reply rep) (cl_reply c)) as [v ok] eqn:Hdec. simpl in Hd. subst ok.
      eexists. simpl. rewrite Hc. simpl. rewrite Hpr, Hca. unfold a_return, Call_return.
      rewrite Hok, Hdec. done.
    - by destruct (cl_caller c) as [| |[|]]; destruct (cl_exec c). }
  destruct (serving_step _ _ _ _ _ _ _ _ _ _ _ _ Ha Hi Hc He Hp Hh Hs)
    as (c' & n' & Hc' & Hq & Hr & Hs' & [Hn|[Hn _]]); [|done].
  assert (n' = n) as -> by lia. by exists a, w', c'.
Qed.

Lemma of_call_harmless e sn p a i : of_call a = Some i → harmless e sn p a = true.
Proof. by destruct a. Qed.

(** The call can run to its return by its own steps. *)
Lemma serving_finishes e sn p s svc m n : ∀ w i c,
  w_calls w !! i = Some c → rq_endname (cl_req c) = e → path e sn p s svc w →
  handles svc s m (cl_req c) (cl_reply c) → serving sn p svc m c n →
  ∃ acts w' c', run w acts w' ∧ Forall (λ a, of_call a = Some i) acts ∧ length acts = n ∧
    w_calls w' !! i = Some c' ∧ serving sn p svc m c' 0.
Proof.
  induction n as [|n IH]; intros w i c Hc He Hp Hh Hs.
  - exists [], w, c. split_and!; [constructor|done..].
  - destruct (serving_next _ _ _ _ _ _ _ _ _ _ Hc He Hp Hh Hs) as
      (a & w1 & c1 & Ha & Hi & Hc1 & Hq & Hr & Hs1).
    destruct (IH w1 i c1) as (acts & w2 & c2 & Hrun & Hall & Hlen & Hc2 & Hs2); [done|congruence| |..].
    + eapply path_act; [done|by eapply of_call_harmless|done].
    + by rewrite Hq, Hr.
    + done.
    + exists (a :: acts), w2, c2. split_and!; [by econstructor|by constructor|simpl; lia|done..].
Qed.

(** No harmless step by anyone takes the call off its way. *)
Lemma serving_run e sn p s svc m w acts w' : run w acts w' → ∀ i c n,
  forallb (harmless e sn p) acts = true →
  w_calls w !! i = Some c → rq_endname (cl_req c) = e → path e sn p s svc w →
  handles svc s m (cl_req c) (cl_reply c) → serving sn p svc m c n →
  path e sn p s svc w' ∧ ∃ c' n', w_calls w' !! i = Some c' ∧ cl_req c' = cl_req c ∧
    cl_reply c' = cl_reply c ∧ serving sn p svc m c' n' ∧ (n' ≤ n)%nat.
Proof.
  intros Hrun. induction Hrun as [w|w a w1 acts w2 Ha Hrun IH]; intros i c n Hall Hc He Hp Hh Hs.
  - split; [done|]. exists c, n. split_and!; [done..|lia].
  - simpl in Hall. apply andb_true_iff in Hall as [Hh1 Hall].
    assert (∃ c1 n1, w_calls w1 !! i = Some c1 ∧ cl_req c1 = cl_req c ∧
      cl_reply c1 = cl_reply c ∧ serving sn p svc m c1 n1 ∧ (n1 ≤ n)%nat)
      as (c1 & n1 & Hc1 & Hq & Hr & Hs1 & Hle).
    { destruct (decide (of_call a = Some i)) as [Hi|Hi].
      - destruct (serving_step _ _ _ _ _ _ _ _ _ _ _ _ Ha Hi Hc He Hp Hh Hs)
          as (c' & n' & ? & ? & ? & ? & Hn). exists c', n'. split_and!; [done..|lia].
      - exists c, n. rewrite (act_calls _ _ _ _ Ha Hi). split_and!; [done..|lia]. }
    destruct (IH i c1 n1) as (Hp' & c2 & n2 & Hc2 & Hq2 & Hr2 & Hs2 & Hle2);
      [done|done|congruence|by eapply path_act|by rewrite Hq, Hr|done|].
    split; [done|]. exists c2, n2. split_and!; [done|congruence|congruence|done|lia].
Qed.

(** Runs as a function, for concrete action lists. *)
Fixpoint exec_run w acts : option world :=
  match acts with
  | [] => Some w
  | a :: acts' => match act w a with Some (Done w1) => exec_run w1 acts' | _ => None end
  end.

Lemma exec_run_sound acts : ∀ w w', exec_run w acts = Some w' → run w acts w'.
Proof.
  induction acts as [|a acts IH]; simpl; intros w w' Hr; [simplify_eq; constructor|].
  destruct (act w a) as [[w1| |]|] eqn:Ha; try done. econstructor; [done|by apply IH].
Qed.

(** ** The methods of a service *)

(** A method that can be called by RPC: exported, two parameters after the
    receiver, the second a pointer (to a type with zero value [z]), no result. *)
Definition suitable (z : V) (meth : @Method V S) : Prop :=
  mt_PkgPath meth = "" ∧ (∃ t0 t1, mt_In meth = [t0; t1; PtrTo z]) ∧ mt_NumOut meth = 0%Z.

Lemma not_suitable_spec (meth : @Method V S) : ∃ b, not_suitable meth = Done b ∧
  (b = false ↔ ∃ z, suitable z meth).
Proof.
  unfold not_suitable, suitable. destruct (String.eqb_spec (mt_PkgPath meth) "") as [Hp|Hp]; simpl.
  2:{ exists true. naive_solver. }
  destruct (Z.eqb_spec (zlen (mt_In meth)) 3) as [Hl|Hl]; simpl.
  2:{ exists true. split; [done|]. split; [done|]. intros (z & _ & (t0 & t1 & Hin) & _).
      by rewrite Hin in Hl. }
  destruct (mt_In meth) as [|t0 [|t1 [|t2 [|]]]]; unfold zlen in Hl; simpl in Hl; try lia.
  simpl. destruct t2 as [z|]; simpl.
  - exists (negb (mt_NumOut meth =? 0)%Z). split; [done|].
    rewrite negb_false_iff, Z.eqb_eq. naive_solver.
  - exists true. naive_solver.
Qed.

Lemma MakeService_loop_spec (ms : list (@Method V S)) : ∀ methods,
  NoDup (mt_Name <$> ms) → (∀ meth, meth ∈ ms → methods !! mt_Name meth = None) →
  ∃ methods', MakeService_loop ms methods = Done methods' ∧
    ∀ m meth, methods' !! m = Some meth ↔
      methods !! m = Some meth ∨ (meth ∈ ms ∧ mt_Name meth = m ∧ ∃ z, suitable z meth).
Proof.
  induction ms as [|x ms IH]; intros methods Hnd Hnone.
  - exists methods. split; [done|]. intros m meth. set_solver.
  - apply NoDup_cons in Hnd as [Hx Hnd]. destruct (not_suitable_spec x) as (b & Hb & Hs).
    simpl. rewrite Hb. simpl. destruct b.
    + destruct (IH methods) as (ms' & Hms & Hspec); [done|set_solver|].
      exists ms'. split; [done|]. intros m meth. rewrite Hspec. split; [set_solver|].
      intros [?|(Hin & Hm & Hz)]; [by left|]. right. apply elem_of_cons in Hin as [->|]; [|done].
      by apply Hs in Hz.
    + destruct (IH (<[mt_Name x := x]> methods)) as (ms' & Hms & Hspec); [done|..].
      { intros meth Hin. rewrite lookup_insert_ne; [set_solver|].
        intros Heq. apply Hx. rewrite Heq. apply list_elem_of_fmap. by exists meth. }
      exists ms'. split; [done|]. intros m meth. rewrite Hspec, lookup_insert_Some. split.
      * intros [[[<- <-]|[_ ?]]|(? & ? & ?)]; [right|by left|right; set_solver].
        split; [set_solver|]. split; [done|]. by apply Hs.
      * intros [Hm|(Hin & Hm & Hz)].
        -- left. right. split; [|done]. intros <-. rewrite Hnone in Hm by set_solver. done.
        -- apply elem_of_cons in Hin as [->|]; [by left; left|by right].
Qed.
End proofs.
End rpcproof.
