(* ===== verification/LabRpcClient.v ===== *)
(** * Programs that call the network

    What a program on top of labrpc can rely on, one action at a time: where
    requests are executed ([routed]), that a call keeps its request and its result
    ([call_keeps]), that only one action runs handlers ([act_exec]), and that on a
    path that is never cut every execution is awaited by its caller ([attended]). *)

From S2P Require Import Prelude LabRpc LabRpcFacts.

Module rpcclient.
Import labrpc rpcproof.

Section client.
Context {Name : Type} `{Countable Name}.
Context {V : Type} `{Codec V}.
Context {S : Type}.
Implicit Types (w : @world Name _ _ V S) (c : @call Name V S) (i : nat) (a : @action Name V S).

(** Only [AServiceDispatch] runs a method. *)
Lemma act_exec w a w' : act w a = Some (Done w') →
  (w_log w' = w_log w ∧ w_app w' = w_app w ∧ ∀ i, a ≠ AServiceDispatch i) ∨
  ∃ i c svc m σ rep u r, a = AServiceDispatch i ∧ w_calls w !! i = Some c ∧
    cl_exec c = InService svc m ∧
    Service_dispatch svc m (cl_req c) (w_app w) = Done (σ, rep, (u, r)) ∧
    w' = with_call (with_app w σ (MkExecution i u r)) i (set_exec (SendingReply rep) c).
Proof.
  intros Ha. assert ((∃ i, a = AServiceDispatch i) ∨ ∀ i, a ≠ AServiceDispatch i) as [[i ->]|Hne]
    by (destruct a; eauto; by right).
  - right. simpl in Ha. destruct (w_calls w !! i) as [c|] eqn:Hc; [|done]. simpl in Ha.
    destruct (cl_exec c) eqn:Hx; try done. injection Ha as Ha. unfold a_service_dispatch in Ha.
    apply bind_Done in Ha as ([[σ rep] [u r]] & Hd & Ha). apply Done_inj in Ha as <-.
    by exists i, c, svc, methodName, σ, rep, u, r.
  - left. assert (w_log w' = w_log w ∧ w_app w' = w_app w) as [-> ->]; [|done].
    destruct a; simpl in Ha; try (by destruct (Hne i)).
    all: try (by simplify_eq).
    all: try (destruct (w_calls w !! _) as [c|] eqn:Hc; simpl in Ha; try done).
    all: unfold a_server_dispatch, a_return, Call, MakeEnd, DeleteEnd, Cleanup in Ha.
    all: try (destruct (w_store w !! _) as [?|] eqn:Hst; simpl in Ha; try done).
    all: repeat case_match; simplify_eq; try done; inv_done; try done.
    all: try (destruct x as [? [? ?]]; by inv_done).
Qed.

(** One step of a goroutine of a call. *)
Inductive cstep w c : @call Name V S → Prop :=
  | cs_receive : cl_caller c = Sending → cstep w c (set_proc Started (set_caller Waiting c))
  | cs_done : cl_caller c = Sending → rn_done (w_net w) = true →
      cstep w c (set_caller (Returned false (cl_reply c)) c)
  | cs_start r : cl_proc c = Started → cstep w c (processReq_start (w_net w) c r)
  | cs_dispatch p rs rs' svc m : cl_exec c = Dispatching p → w_store w !! p = Some rs →
      Server_dispatch rs (cl_req c) = Done (rs', (svc, m)) → cstep w c (set_exec (InService svc m) c)
  | cs_service svc m σ rep u r : cl_exec c = InService svc m →
      Service_dispatch svc m (cl_req c) (w_app w) = Done (σ, rep, (u, r)) →
      cstep w c (set_exec (SendingReply rep) c)
  | cs_ready sn p rel long r : cl_proc c = InLoop sn p rel long → cl_exec c = SendingReply r →
      cstep w c (set_exec Exited (set_proc (LoopLeft sn p rel long (Some r)) c))
  | cs_timeout sn p rel long : cl_proc c = InLoop sn p rel long →
      cstep w c (processReq_timeout (w_net w) c sn p rel long)
  | cs_finish sn p rel long reply r1 r2 : cl_proc c = LoopLeft sn p rel long reply →
      cstep w c (processReq_finish (w_net w) c sn p rel long reply r1 r2)
  | cs_drain r : cl_drain c = true → cl_exec c = SendingReply r →
      cstep w c (set_drain false (set_exec Exited c))
  | cs_return counted rep st : cl_proc c = Replying counted rep → cl_caller c = Waiting →
      Call_return (cl_reply c) rep = Done st → cstep w c (set_proc Finished (set_caller st c)).

Lemma act_cstep w a w' i c : act w a = Some (Done w') → of_call a = Some i → w_calls w !! i = Some c →
  ∃ c', w_calls w' !! i = Some c' ∧ cstep w c c'.
Proof.
  intros Ha Hi Hc. destruct a; simplify_eq/=; rewrite Hc in Ha; simpl in Ha.
  - destruct (cl_caller c) eqn:Hca; try done. destruct (w_loop w); try done. simplify_eq. eexists. simpl. rewrite lookup_insert_eq.
    split; [done|by apply cs_receive].
  - done.
  - destruct (cl_caller c) eqn:Hca; try done. destruct (rn_done _) eqn:Hd; try done. simplify_eq. eexists. simpl.
    rewrite lookup_insert_eq. split; [done|by apply cs_done].
  - destruct (cl_proc c) eqn:Hp; try done; simplify_eq. eexists. simpl. rewrite lookup_insert_eq.
    split; [done|by apply cs_start].
  - destruct (cl_exec c) eqn:Hx; try done; simplify_eq. unfold a_server_dispatch in Ha.
    destruct (w_store w !! server) as [rs|] eqn:Hrs; [|done].
    apply bind_Done in Ha as ([rs' [svc m]] & Hd & Ha). apply Done_inj in Ha as <-.
    eexists. simpl. rewrite lookup_insert_eq. split; [done|by eapply cs_dispatch].
  - destruct (cl_exec c) eqn:Hx; try done; simplify_eq. unfold a_service_dispatch in Ha.
    apply bind_Done in Ha as ([[σ rep] [u r]] & Hd & Ha). apply Done_inj in Ha as <-.
    eexists. simpl. rewrite lookup_insert_eq. split; [done|by eapply cs_service].
  - destruct (cl_proc c) eqn:Hp; try done. destruct (cl_exec c) eqn:Hx; try done. simplify_eq. eexists. simpl.
    rewrite lookup_insert_eq. split; [done|by apply cs_ready].
  - destruct (cl_proc c) eqn:Hp; try done; simplify_eq. eexists. simpl. rewrite lookup_insert_eq.
    split; [done|by apply cs_timeout].
  - destruct (cl_proc c) eqn:Hp; try done; simplify_eq. eexists. simpl. rewrite lookup_insert_eq.
    split; [done|by apply cs_finish].
  - destruct (cl_drain c) eqn:Hd; try done. destruct (cl_exec c) eqn:Hx; try done. simplify_eq. eexists. simpl.
    rewrite lookup_insert_eq. split; [done|by eapply cs_drain].
  - destruct (cl_proc c) eqn:Hp; try done. destruct (cl_caller c) eqn:Hca; try done. simplify_eq. unfold a_return in Ha.
    apply bind_Done in Ha as (st & Hst & Ha). apply Done_inj in Ha as <-. eexists.
    split; [by destruct counted; simpl; rewrite lookup_insert_eq|by eapply cs_return].
Qed.

(** Every call of the next world is an old one, an old one after a step, or new. *)
Lemma act_call w a w' i c' : act w a = Some (Done w') → w_calls w' !! i = Some c' →
  (w_calls w !! i = Some c' ∧ of_call a ≠ Some i) ∨
  (∃ c, w_calls w !! i = Some c ∧ of_call a = Some i ∧ cstep w c c') ∨
  (w_calls w !! i = None ∧ ∃ e m args rv, a = ACall i e m args rv ∧ Call e m args rv = Done c').
Proof.
  intros Ha Hc'. destruct (decide (of_call a = Some i)) as [Hi|Hi].
  2:{ left. by rewrite <- (act_calls _ _ _ _ Ha Hi). }
  right. destruct (w_calls w !! i) as [c|] eqn:Hc.
  - left. destruct (act_cstep _ _ _ _ _ Ha Hi Hc) as (c1 & Hc1 & Hst). exists c.
    rewrite Hc' in Hc1. by simplify_eq.
  - right. split; [done|]. destruct a; simplify_eq/=; rewrite Hc in Ha; simpl in Ha; try done.
    injection Ha as Ha. apply bind_Done in Ha as (c & Hcall & Ha). apply Done_inj in Ha as <-.
    simpl in Hc'. rewrite lookup_insert_eq in Hc'. simplify_eq. by exists e, svcMeth, args, reply.
Qed.

(** A call keeps its request, its variables and its result. *)
Definition same_call c c' : Prop :=
  cl_req c' = cl_req c ∧ cl_args c' = cl_args c ∧ cl_reply c' = cl_reply c ∧
  ∀ ok v, cl_caller c = Returned ok v → cl_caller c' = Returned ok v.

Lemma cstep_keeps w c c' : cstep w c c' → same_call c c'.
Proof.
  intros []; repeat split; simpl; try congruence;
    unfold processReq_start, processReq_timeout, processReq_finish; repeat case_match; done.
Qed.

Lemma call_keeps w a w' i c : act w a = Some (Done w') → w_calls w !! i = Some c →
  ∃ c', w_calls w' !! i = Some c' ∧ same_call c c'.
Proof.
  intros Ha Hc. destruct (decide (of_call a = Some i)) as [Hi|Hi].
  - destruct (act_cstep _ _ _ _ _ Ha Hi Hc) as (c' & Hc' & Hst). eauto using cstep_keeps.
  - exists c. by rewrite (act_calls _ _ _ _ Ha Hi).
Qed.

(** ** Where requests go *)

Section routes.
Variable R : Name → nat → Prop.
Variable Q : @reqMsg Name V → @Service V S → string → Prop.

Definition route c : Prop :=
  match cl_exec c with
  | Dispatching p => R (rq_endname (cl_req c)) p
  | InService svc m => Q (cl_req c) svc m
  | _ => True
  end.

Definition routed w : Prop := ∀ i c, w_calls w !! i = Some c → route c.

(** [R] says which server an end leads to, [Q] which method a request names
    there. *)
Record leads w : Prop := {
  leads_server e sn p : rn_connections (w_net w) !! e = Some (Some sn) →
    server_at (w_net w) sn = Some p → R e p;
  leads_method req p rs rs' svc m : R (rq_endname req) p → w_store w !! p = Some rs →
    Server_dispatch rs req = Done (rs', (svc, m)) → Q req svc m;
}.

Lemma route_start w c r : leads w → cl_exec c = NoExecutor → route (processReq_start (w_net w) c r).
Proof.
  intros Hl Hx. unfold processReq_start, readEndnameInfo, route.
  destruct (is_enabled _ _); [|simpl; by rewrite Hx].
  destruct (rn_connections (w_net w) !! _) as [[sn|]|] eqn:Hco; simpl; rewrite ?Hx; try done.
  destruct (server_at _ _) as [p|] eqn:Hp; simpl; rewrite ?Hx; try done.
  destruct (_ && _); simpl; rewrite ?Hx; [done|]. by apply (leads_server _ Hl _ sn).
Qed.

Lemma routed_act w a w' : leads w → winv w → act w a = Some (Done w') → routed w → routed w'.
Proof.
  intros Hl Hw Ha Hr i c' Hc'.
  destruct (act_call _ _ _ _ _ Ha Hc') as [[Hc _]|[(c & Hc & _ & Hst)|(_ & e & m & args & rv & _ & Hcall)]].
  - by eapply Hr.
  - pose proof (Hr i c Hc) as Hrc. destruct (winv_call _ _ _ Hw Hc) as [_ _ Hpr _].
    unfold route in Hrc. destruct Hst as [Hs|Hs Hd|r Hp|p rs rs' svc m Hx Hrs Hd|svc m σ rep u r Hx Hd
      |sn p rel long r Hp Hx|sn p rel long Hp|sn p rel long reply r1 r2 Hp|r Hd Hx|counted rep st Hp Hcw Hst];
      try exact Hrc; try done.
    + apply route_start; [done|]. unfold proc_inv in Hpr. by rewrite Hp in Hpr.
    + rewrite Hx in Hrc. unfold route. simpl. by eapply (leads_method _ Hl).
    + unfold processReq_timeout. by destruct (isServerDead _ _ _ _).
    + unfold processReq_finish. destruct reply as [rep|]; [|exact Hrc].
      destruct (isServerDead _ _ _ _); [exact Hrc|]. by destruct (_ && _); [|destruct (_ && _)].
  - unfold Call in Hcall. destruct (encode args) as [? []]; by simplify_eq.
Qed.
End routes.

(** ** Calls whose server is never cut off *)

(** The handler of the call runs only while the caller waits for it. *)
Definition attended c : Prop :=
  cl_drain c = false ∧
  (match cl_exec c with
   | Dispatching _ | InService _ _ | SendingReply _ => ∃ sn p rel long, cl_proc c = InLoop sn p rel long
   | _ => ∀ sn p rel long, cl_proc c ≠ InLoop sn p rel long
   end) ∧
  match cl_proc c with
  | NotStarted => cl_caller c ≠ Waiting
  | Finished => ∃ ok v, cl_caller c = Returned ok v
  | _ => cl_caller c = Waiting
  end.

(** The loops of the calls see a server that is up. *)
Definition uncut w : Prop := ∀ i c sn p rel long, w_calls w !! i = Some c →
  cl_proc c = InLoop sn p rel long → isServerDead (w_net w) (rq_endname (cl_req c)) sn p = false.

Lemma attended_start (rn : @Network Name _ _) c r : cl_exec c = NoExecutor → cl_proc c = Started →
  attended c → attended (processReq_start rn c r).
Proof.
  intros Hx Hp (Hd & _ & Hca). rewrite Hp in Hca. unfold processReq_start.
  repeat case_match; unfold attended; simpl; rewrite ?Hx; split_and!; try done; by eexists _, _, _, _.
Qed.

Lemma attended_act w a w' : winv w → uncut w → rn_done (w_net w) = false → act w a = Some (Done w') →
  (∀ i c, w_calls w !! i = Some c → attended c) → ∀ i c, w_calls w' !! i = Some c → attended c.
Proof.
  intros Hw Hun Hdone Ha Hat i c' Hc'.
  destruct (act_call _ _ _ _ _ Ha Hc') as [[Hc _]|[(c & Hc & _ & Hst)|(_ & e & m & args & rv & _ & Hcall)]].
  - by eapply Hat.
  - pose proof (Hat i c Hc) as Hatc. destruct (winv_call _ _ _ Hw Hc) as [_ Hex Hpr Hcal].
    unfold proc_inv, caller_inv, exec_inv in *.
    destruct Hst as [Hs|Hs Hd|r Hp|p rs rs' svc m Hx Hrs Hd|svc m σ rep u r Hx Hd|sn p rel long r Hp Hx
      |sn p rel long Hp|sn p rel long reply r1 r2 Hp|r Hd Hx|counted rep st Hp Hcw Hst].
    + rewrite Hs in Hcal. rewrite Hcal in Hpr. destruct Hatc as (Hdr & _ & _).
      unfold attended. simpl. rewrite Hpr. done.
    + congruence.
    + rewrite Hp in Hpr. by apply attended_start.
    + destruct Hatc as (Hdr & Hxx & Hca). rewrite Hx in Hxx. done.
    + destruct Hatc as (Hdr & Hxx & Hca). rewrite Hx in Hxx. done.
    + destruct Hatc as (Hdr & _ & Hca). rewrite Hp in Hca. done.
    + unfold processReq_timeout. by rewrite (Hun _ _ _ _ _ _ Hc Hp).
    + destruct Hatc as (Hdr & Hxx & Hca). rewrite Hp in Hca, Hxx. unfold processReq_finish.
      assert (∀ q, attended (set_proc q c) ↔ attended (set_proc q c)) by done.
      assert (match cl_exec c with Dispatching _ | InService _ _ | SendingReply _ => False | _ => True end) as Hidle.
      { destruct (cl_exec c); try done; by destruct Hxx as (? & ? & ? & ? & ?). }
      repeat case_match; unfold attended; simpl; destruct (cl_exec c); done.
    + destruct Hatc as (Hdr & _). congruence.
    + destruct Hatc as (Hdr & Hxx & Hca). rewrite Hp in Hxx.
      assert (match cl_exec c with Dispatching _ | InService _ _ | SendingReply _ => False | _ => True end) as Hidle.
      { destruct (cl_exec c); try done; by destruct Hxx as (? & ? & ? & ? & ?). }
      assert (∃ ok v, st = Returned ok v) as Hret.
      { unfold Call_return in Hst. repeat case_match; simplify_eq; by eexists _, _. }
      unfold attended. simpl. destruct (cl_exec c); done.
  - unfold Call in Hcall. destruct (encode args) as [? []]; simplify_eq. by unfold attended.
Qed.

(** The log of executions only grows, and an executed call keeps its execution. *)
Lemma act_log w a w' : act w a = Some (Done w') → w_log w `prefix_of` w_log w'.
Proof.
  intros Ha. destruct (act_exec _ _ _ Ha) as [(-> & _)|(i & c & svc & m & σ & rep & u & r & -> & _ & _ & _ & ->)];
    [done|]. simpl. by eexists.
Qed.

Lemma execs_prefix i (l l' : list (@execution V)) x : l `prefix_of` l' → execs i l = [x] → (length (execs i l') ≤ 1)%nat →
  execs i l' = [x].
Proof.
  intros [k ->]. unfold execs. rewrite filter_app. intros -> Hlen. rewrite length_app in Hlen. simpl in Hlen.
  destruct (filter _ k); [by rewrite app_nil_r|simpl in Hlen; lia].
Qed.

Lemma winv_execs_length w i : winv w → (length (execs i (w_log w)) ≤ 1)%nat.
Proof.
  intros Hw. specialize (Hw i). destruct (w_calls w !! i) as [c|]; [|rewrite Hw; simpl; lia].
  destruct Hw as [_ Hx _ _]. unfold exec_inv, replied in Hx.
  destruct (cl_exec c); [rewrite Hx; simpl; lia..|destruct Hx as (? & -> & _)|destruct Hx as (? & ? & -> & _)];
    simpl; lia.
Qed.

(** Goroutines leave the ends and the services of the servers alone. *)
Lemma act_ends w a w' : act w a = Some (Done w') → admin a = false → rn_ends (w_net w') = rn_ends (w_net w).
Proof.
  intros Ha Had. destruct a; try done; simpl in Ha.
  all: try (destruct (w_calls w !! i) as [c|] eqn:Hc; simpl in Ha; try done).
  all: unfold a_server_dispatch, a_service_dispatch, a_return in Ha.
  all: repeat case_match; simplify_eq; try done; inv_done.
  all: try (destruct x as [rs' [svc m]]; by inv_done).
  all: try (destruct x as [[? ?] [? ?]]; by inv_done).
  all: done.
Qed.

Lemma act_services w a w' p rs : act w a = Some (Done w') → admin a = false → w_store w !! p = Some rs →
  ∃ rs', w_store w' !! p = Some rs' ∧ rs_services rs' = rs_services rs.
Proof.
  intros Ha Had Hrs. destruct a; try done; simpl in Ha.
  all: try (destruct (w_calls w !! i) as [c|] eqn:Hc; simpl in Ha; try done).
  all: unfold a_server_dispatch, a_service_dispatch, a_return in Ha.
  all: repeat case_match; simplify_eq; try (by eauto); inv_done.
  all: try (by simpl; eauto).
  - destruct x as [rs' [svc m]]. inv_done. simpl. destruct (decide (server = p)) as [->|].
    + rewrite lookup_insert_eq. exists rs'. split; [done|]. simplify_eq.
      by rewrite (Server_dispatch_services _ _ _ _ Hx).
    + rewrite lookup_insert_ne by done. eauto.
  - destruct x as [[? ?] [? ?]]. inv_done. by eauto.
Qed.

(** ** Loops that wait for the server the end leads to *)

Definition aimed (rn : @Network Name _ _) c : Prop :=
  match cl_proc c with
  | InLoop sn p _ _ | LoopLeft sn p _ _ _ =>
      rn_connections rn !! rq_endname (cl_req c) = Some (Some sn) ∧ server_at rn sn = Some p
  | _ => True
  end.

Lemma aimed_start (rn : @Network Name _ _) c r : aimed rn (processReq_start rn c r).
Proof.
  unfold processReq_start, readEndnameInfo, aimed. destruct (is_enabled _ _); [|done].
  destruct (rn_connections rn !! _) as [[sn|]|] eqn:Hco; try done. simpl.
  destruct (server_at rn sn) as [p|] eqn:Hp; [|done]. by destruct (_ && _).
Qed.

Lemma aimed_act w a w' : act w a = Some (Done w') →
  rn_connections (w_net w') = rn_connections (w_net w) → rn_servers (w_net w') = rn_servers (w_net w) →
  (∀ i c, w_calls w !! i = Some c → aimed (w_net w) c) → ∀ i c, w_calls w' !! i = Some c → aimed (w_net w') c.
Proof.
  intros Ha Hco Hsv Hai i c' Hc'. assert (aimed (w_net w) c' → aimed (w_net w') c') as Hext.
  { unfold aimed, server_at. by rewrite Hco, Hsv. }
  apply Hext. clear Hext.
  destruct (act_call _ _ _ _ _ Ha Hc') as [[Hc _]|[(c & Hc & _ & Hst)|(_ & e & m & args & rv & _ & Hcall)]].
  - by eapply Hai.
  - pose proof (Hai i c Hc) as Hac. unfold aimed in Hac.
    destruct Hst as [Hs|Hs Hd|r Hp|p rs rs' svc m Hx Hrs Hd|svc m σ rep u r Hx Hd|sn p rel long r Hp Hx
      |sn p rel long Hp|sn p rel long reply r1 r2 Hp|r Hd Hx|counted rep st Hp Hcw Hst]; try exact Hac; try done.
    + apply aimed_start.
    + by rewrite Hp in Hac.
    + unfold processReq_timeout. rewrite Hp in Hac. unfold aimed.
      destruct (isServerDead _ _ _ _); simpl; [|rewrite Hp]; done.
    + unfold processReq_finish. destruct reply as [rep|]; [|done].
      destruct (isServerDead _ _ _ _); [done|]. by destruct (_ && _); [|destruct (_ && _)].
  - unfold Call in Hcall. destruct (encode args) as [? []]; by simplify_eq.
Qed.

(** Loops whose end is enabled are not cut. *)
Lemma aimed_uncut w : (∀ i c, w_calls w !! i = Some c → aimed (w_net w) c) →
  (∀ i c sn p rel long, w_calls w !! i = Some c → cl_proc c = InLoop sn p rel long →
     is_enabled (w_net w) (rq_endname (cl_req c)) = true) → uncut w.
Proof.
  intros Hai Hen i c sn p rel long Hc Hp. pose proof (Hai i c Hc) as Hac. unfold aimed in Hac.
  rewrite Hp in Hac. destruct Hac as [_ Hs]. unfold isServerDead.
  by rewrite (Hen _ _ _ _ _ _ Hc Hp), Hs, bool_decide_eq_true_2.
Qed.

(** A result is kept in every run. *)
Lemma run_returned w acts w' i c ok v : run w acts w' → w_calls w !! i = Some c →
  cl_caller c = Returned ok v → ∃ c', w_calls w' !! i = Some c' ∧ cl_caller c' = Returned ok v.
Proof.
  intros Hrun. revert c. induction Hrun as [|w a w1 acts w2 Ha Hrun IH]; intros c Hc Hr; [by exists c|].
  destruct (call_keeps _ _ _ _ _ Ha Hc) as (c1 & Hc1 & _ & _ & _ & Hk). eauto.
Qed.
End client.
End rpcclient.

(** ** A codec that satisfies the laws

    Values that can be counted, as bytes of one bit each; [zero] is left open. *)
Module bitcodec.

Fixpoint to_bytes (p : positive) : list Byte.byte :=
  match p with
  | xH => []
  | xO q => Byte.x00 :: to_bytes q
  | xI q => Byte.x01 :: to_bytes q
  end.
Fixpoint of_bytes (b : list Byte.byte) : positive :=
  match b with
  | [] => xH
  | Byte.x00 :: b' => xO (of_bytes b')
  | _ :: b' => xI (of_bytes b')
  end.

Lemma of_to_bytes p : of_bytes (to_bytes p) = p.
Proof. induction p as [p IH|p IH|]; simpl; [by rewrite IH..|done]. Qed.

Section codec.
Context {V C : Type} `{Countable C} (f : V → C) (g : C → V) (z : V → V).

Definition codec : Codec V := {|
  encode v := (to_bytes (countable.encode (f v)), true);
  decode b t := match countable.decode (of_bytes b) with Some c => (g c, true) | None => (t, false) end;
  zero := z;
|}.

Lemma laws : (∀ v, g (f v) = v) → @CodecLaws V codec.
Proof. intros Hgf. split. intros v _. simpl. by rewrite of_to_bytes, countable.decode_encode, Hgf. Qed.
End codec.
End bitcodec.
