(* ===== verification/LabRpcTheorems.v ===== *)
(** * What the simulated network promises

    A call executes its handler at most once, and returns true only with the
    reply of that execution; a call cut off from its server fails; a call on a
    reliable path succeeds; requests reach the method they name. *)

From Stdlib Require Import Ascii.
From S2P Require Import Prelude LabRpc LabRpcFacts.
Import labrpc rpcproof.

Section theorems.
Context {Name : Type} `{Countable Name}.
Context {V : Type} `{CodecLaws V}.
Context {S : Type}.

(** C7: In every run of the network, whatever is dropped, delayed, disabled or
    deleted, the handler of a call is executed at most once; and if [Call]
    returns true, the handler was executed exactly once, on the arguments the
    caller passed, and the caller's reply variable holds the decoded reply of
    that execution, the reply itself if the variable was zero before. *)
Theorem rpc_at_most_once (σ : S) acts (w : @world Name _ _ V S) i c :
  run (init σ) acts w → w_calls w !! i = Some c →
  (length (execs i (w_log w)) ≤ 1)%nat ∧
  ∀ v, cl_caller c = Returned true v →
    ∃ r, execs i (w_log w) = [MkExecution i (cl_args c) r] ∧
         decode (encode r).1 (cl_reply c) = (v, true) ∧
         ((encode r).2 = true → cl_reply c = zero r → v = r).
Proof.
  intros Hrun Hc. destruct (winv_call _ _ _ (winv_run _ _ _ (winv_init σ) Hrun) Hc) as [Hr He _ Hca].
  split.
  - unfold exec_inv, replied in He. destruct (cl_exec c); try (rewrite He; simpl; lia).
    + destruct He as (r' & -> & _). simpl. lia.
    + destruct He as (? & r' & -> & _). simpl. lia.
  - intros v Hv. unfold caller_inv in Hca. rewrite Hv in Hca.
    destruct (Hca eq_refl) as (rep & (r & -> & ->) & Hd). destruct Hr as [Hen Hz].
    exists r. split_and!; [|done|].
    + rewrite Hz. pose proof (decode_encode (cl_args c)) as Hl. rewrite Hen in Hl.
      simpl in Hl. by rewrite Hl.
    + intros Hok Hzero. pose proof (decode_encode r Hok) as Hl. simpl in Hd. congruence.
Qed.

(** C36: Let the network be handling the request of a waiting call ([processReq] has
    handed it to the server [p] and has not yet looked at the reply), and let its end
    be disabled or the server be deleted or replaced.  As long as the harness neither
    enables the end nor adds that very server again, the call never returns true,
    whatever else happens. *)
Theorem rpc_cut_off (w w' : @world Name _ _ V S) acts i c sn p rel long :
  w_calls w !! i = Some c → cl_caller c = Waiting →
  cl_proc c = InLoop sn p rel long →
  isServerDead (w_net w) (rq_endname (cl_req c)) sn p = true →
  run w acts w' → forallb (λ a, negb (revives (rq_endname (cl_req c)) sn p a)) acts = true →
  ∀ c' v, w_calls w' !! i = Some c' → cl_caller c' ≠ Returned true v.
Proof.
  intros Hc Hca Hp Hd Hrun Hacts c' v Hc' Hv.
  destruct (cut_run _ _ _ i _ sn p Hrun Hacts) as (_ & c2 & Hc2 & _ & Hdm).
  { split; [done|]. exists c. split_and!; [done..|]. unfold doomed. by rewrite Hp. }
  simplify_eq. unfold doomed in Hdm.
  destruct (cl_proc c'); destruct_and?; try congruence. destruct Hdm as [? ?]. congruence.
Qed.

(** C37: On a reliable network that is up, a call on an enabled end connected to
    a live server with the method (one that returns, with a reply that can be
    decoded) never returns false, as long as the harness leaves that path alone;
    and at any time at most seven steps of the call's own goroutines make it
    return true. *)
Theorem rpc_reliable (w w1 w' : @world Name _ _ V S) acts i e sn p s svc m svcMeth args rv :
  path (ce_endname e) sn p s svc w →
  act w (ACall i e svcMeth args rv) = Some (Done w1) →
  handles svc s m (MkReqMsg (ce_endname e) svcMeth (zero args) (encode args).1) rv →
  run w1 acts w' → forallb (harmless (ce_endname e) sn p) acts = true →
  ∃ c, w_calls w' !! i = Some c ∧ (∀ v, cl_caller c ≠ Returned false v) ∧
    ∃ acts' w'' c'' v, run w' acts' w'' ∧ Forall (λ a, of_call a = Some i) acts' ∧
      (length acts' ≤ 7)%nat ∧ w_calls w'' !! i = Some c'' ∧ cl_caller c'' = Returned true v.
Proof.
  intros Hp Ha Hh Hrun Hall. pose proof (path_act _ _ _ _ _ _ _ _ Ha eq_refl Hp) as Hp1.
  simpl in Ha. destruct (w_calls w !! i); [done|]. unfold Call in Ha.
  destruct (encode args) as [b [|]] eqn:Hen; simpl in Ha; simplify_eq.
  destruct (serving_run _ _ _ _ _ _ _ _ _ Hrun i _ 7 Hall (lookup_insert_eq _ _ _) eq_refl Hp1 Hh)
    as (Hp' & c & n & Hc & Hq & Hr & Hs & Hn); [done|].
  exists c. split; [done|]. split.
  - intros v Hv. destruct Hs as [_ Hs]. rewrite Hv in Hs. 
    by destruct (cl_proc c) as [| | |? ? ? ? []| |], (cl_exec c).
  - destruct (serving_finishes (ce_endname e) sn p s svc m n w' i c) as
      (acts' & w'' & c'' & Hrun' & Hown & Hlen & Hc'' & _ & Hs'');
      [done|by rewrite Hq|done|by rewrite Hq, Hr|done|].
    destruct (cl_proc c'') as [| | |? ? ? ? []| |], (cl_caller c'') as [| |[|] v] eqn:Hca,
      (cl_exec c'');
      try done; try (by destruct_and?); try lia.
    exists acts', w'', c'', v. split_and!; [done..|lia|done|done].
Qed.

(** [MakeService] on a receiver returns a service with exactly the suitable
    methods of the receiver; and on a server with that service, a request for
    "Svc.Meth" (split at the last dot) runs that method on the decoded arguments
    and a zero reply, counts the RPC, and answers with the encoded reply; if the
    receiver has no suitable method of that name, the process exits. *)
Theorem rpc_dispatch (rcvr : @receiver V S) (rs : @Server V S) (req : @reqMsg Name V) m :
  NoDup (mt_Name <$> rc_methods rcvr) → no_dot m = true →
  rq_svcMeth req = rc_name rcvr +:+ "." +:+ m →
  ∃ svc, MakeService rcvr = Done svc ∧
    Server_dispatch (AddService rs svc) req =
      Done (MkServerRecord (<[rc_name rcvr := svc]> (rs_services rs)) (rs_count rs + 1), (svc, m)) ∧
    (∀ meth z, meth ∈ rc_methods rcvr → mt_Name meth = m → suitable z meth → ∀ σ,
       Service_dispatch svc m req σ =
         (let args := (decode (rq_args req) (rq_argsType req)).1 in
          let! '(σ', r) := mt_Func meth (rc_value rcvr) args z σ in
          Done (σ', MkReplyMsg true (encode r).1, (args, r)))) ∧
    ((∀ meth z, meth ∈ rc_methods rcvr → mt_Name meth = m → ¬ suitable z meth) → ∀ σ,
       Service_dispatch svc m req σ = Fatal "labrpc.Service.dispatch(): unknown method").
Proof.
  intros Hnd Hm Hreq. destruct (MakeService_loop_spec (rc_methods rcvr) ∅ Hnd) as (ms & Hms & Hspec);
    [intros; apply lookup_empty|].
  exists (MkServiceRecord (rc_name rcvr) (rc_value rcvr) ms). split_and!.
  - unfold MakeService. by rewrite Hms.
  - rewrite (Server_dispatch_split _ _ _ _ Hreq Hm). simpl. by rewrite lookup_insert_eq.
  - intros meth z Hin Hname Hs σ. unfold Service_dispatch. simpl.
    rewrite (proj2 (Hspec m meth)) by eauto.
    destruct Hs as (_ & (t0 & t1 & Hin2) & _). by rewrite Hin2.
  - intros Hno σ. unfold Service_dispatch. simpl.
    destruct (ms !! m) as [meth|] eqn:Hl; [|done].
    apply Hspec in Hl as [Hl|(Hin & Hname & z & Hz)]; [by rewrite lookup_empty in Hl|].
    by destruct (Hno meth z).
Qed.

End theorems.

(** ** A concrete service

    One-byte values; the method [Echo] of the service [Kv] counts its executions
    and returns its argument. *)
Module demo.

#[export] Instance byte_codec : Codec Byte.byte := {
  encode b := ([b], true);
  decode bs t := match bs with [b] => (b, true) | _ => (t, false) end;
  zero _ := Byte.x00;
}.

#[export] Instance byte_laws : CodecLaws Byte.byte.
Proof. split. done. Qed.

Definition Echo : @Method Byte.byte nat :=
  MkMethod "" "Echo" [NonPtr; NonPtr; PtrTo Byte.x00] 0 (λ _ a _ n, Done ((n + 1)%nat, a)).
Definition kv : @receiver Byte.byte nat := MkReceiver Byte.x01 "Kv" [Echo].
Definition svc : @Service Byte.byte nat := MkServiceRecord "Kv" Byte.x01 {[ "Echo" := Echo ]}.

Definition setup : list (@action nat Byte.byte nat) :=
  [AMakeServer 0; AAddService 0 svc; AAddServer 7 0; AMakeEnd 1; AConnect 1 7; AEnable 1 true].
Definition calling : @action nat Byte.byte nat :=
  ACall 0 (MkClientEnd 1) "Kv.Echo" Byte.x42 Byte.x00.
Definition serving_steps : list (@action nat Byte.byte nat) :=
  [AReceive 0; AStart 0 0; ATimeout 0; AServerDispatch 0; AServiceDispatch 0; AReplyReady 0;
   AFinish 0 0 0; AReturn 0].

Definition world_after (acts : list (@action nat Byte.byte nat)) :
    @world nat _ _ Byte.byte nat :=
  default (init 0%nat) (exec_run (init 0%nat) acts).

End demo.
Import demo.

Lemma rpc_at_most_once_witness :
  let w := world_after (setup ++ calling :: serving_steps) in
  ∃ c, w_calls w !! 0%nat = Some c ∧ cl_caller c = Returned true Byte.x42 ∧
    (length (execs 0 (w_log w)) ≤ 1)%nat.
Proof.
  intros w. destruct (w_calls w !! 0%nat) as [c|] eqn:Hc; [|vm_compute in Hc; discriminate Hc].
  exists c. split; [reflexivity|]. split.
  - vm_compute in Hc. injection Hc as <-. reflexivity.
  - refine (proj1 (rpc_at_most_once 0%nat (setup ++ calling :: serving_steps) w 0 c _ Hc)).
    apply exec_run_sound. vm_compute. reflexivity.
Defined.

Lemma rpc_cut_off_witness :
  let w := world_after (setup ++ [calling; AReceive 0%nat; AStart 0%nat 0; ADeleteServer 7%nat]) in
  ∃ c c', w_calls w !! 0%nat = Some c ∧ cl_caller c = Waiting ∧
    w_calls (default w (exec_run w [AServerDispatch 0%nat; AServiceDispatch 0%nat;
      AReplyReady 0%nat; AFinish 0%nat 500 0; AReturn 0%nat])) !! 0%nat = Some c' ∧
    cl_caller c' ≠ Returned true Byte.x42.
Proof.
  intros w.
  destruct (w_calls w !! 0%nat) as [c|] eqn:Hc; [|vm_compute in Hc; discriminate Hc].
  set (w' := default w _).
  destruct (w_calls w' !! 0%nat) as [c'|] eqn:Hc'; [|vm_compute in Hc'; discriminate Hc'].
  exists c, c'. split; [reflexivity|].
  assert (cl_caller c = Waiting) as Hw by (vm_compute in Hc; injection Hc as <-; reflexivity).
  split; [exact Hw|]. split; [reflexivity|].
  refine (rpc_cut_off w w' [AServerDispatch 0%nat; AServiceDispatch 0%nat;
      AReplyReady 0%nat; AFinish 0%nat 500 0; AReturn 0%nat] 0 c 7%nat 0 true false Hc Hw _ _ _ _ c' _ Hc').
  - vm_compute in Hc; injection Hc as <-; reflexivity.
  - vm_compute in Hc; injection Hc as <-. vm_compute. reflexivity.
  - apply exec_run_sound. vm_compute. reflexivity.
  - vm_compute in Hc; injection Hc as <-. vm_compute. reflexivity.
Defined.

Lemma rpc_reliable_witness :
  let w := world_after setup in
  ∃ w1, act w calling = Some (Done w1) ∧
    ∃ c, w_calls w1 !! 0%nat = Some c ∧ ∀ v, cl_caller c ≠ Returned false v.
Proof.
  intros w. destruct (act w calling) as [[w1| |]|] eqn:Ha; [|vm_compute in Ha; discriminate Ha..].
  exists w1. split; [reflexivity|].
  destruct (rpc_reliable w w1 w1 [] 0 (MkClientEnd 1%nat) 7%nat 0 "Kv" svc "Echo" "Kv.Echo"
    Byte.x42 Byte.x00) as (c & Hc & Hn & _).
  - split; try (vm_compute; reflexivity).
    eexists. split; vm_compute; reflexivity.
  - exact Ha.
  - split; try (vm_compute; reflexivity). intros σ.
    exists (σ + 1)%nat, Byte.x42, (Byte.x42, Byte.x42). split; vm_compute; reflexivity.
  - apply run_nil.
  - reflexivity.
  - exists c. split; [exact Hc|exact Hn].
Defined.

Lemma rpc_dispatch_witness :
  NoDup (mt_Name <$> rc_methods kv) ∧
  ∃ svc, MakeService kv = Done svc ∧
    Server_dispatch (AddService MakeServer svc) (MkReqMsg 1%nat "Kv.Echo" Byte.x00 [Byte.x42]) =
      Done (MkServerRecord (<["Kv" := svc]> ∅) 1, (svc, "Echo")).
Proof.
  assert (NoDup (mt_Name <$> rc_methods kv)) as Hnd by (apply NoDup_singleton).
  split; [exact Hnd|].
  destruct (rpc_dispatch kv MakeServer (MkReqMsg 1%nat "Kv.Echo" Byte.x00 [Byte.x42]) "Echo")
    as (s & Hs & Hd & _); [exact Hnd|reflexivity|reflexivity|].
  exists s. split; [exact Hs|exact Hd].
Defined.
