(* ===== verification/ShardKv.v ===== *)
(** * The clerks of the shard controller and of the sharded key-value service

    shardctrler/common.go, shardctrler/client.go, shardkv/common.go and
    shardkv/client.go.  The servers of both services are not implemented in the
    repository, so what a [Call] gets is up to an environment [Env], which may
    answer every request as it likes, depending on all requests sent before.
    The loops of the clerks are unbounded; [fuel] bounds their iterations. *)

From Stdlib Require Import Ascii.
From S2P Require Import Prelude.

Module shardctrler.

Definition NShards : Z := 10.

(** [Shards] is an array, so its length is [NShards]; see [wf_config]. *)
Record Config := MkConfig {
  Num : Z;
  Shards : list Z;
  Groups : gmap Z (list string);
}.

Definition wf_config (c : Config) : Prop := zlen (Shards c) = NShards.

(** The zero value: no groups, every shard at the invalid group 0. *)
Definition zero_config : Config := MkConfig 0 (replicate (Z.to_nat NShards) 0%Z) ∅.

Definition OK : string := "OK".

Record JoinArgs := MkJoinArgs { Servers : gmap Z (list string) }.
Record LeaveArgs := MkLeaveArgs { GIDs : list Z }.
Record MoveArgs := MkMoveArgs { mv_Shard : Z; mv_GID : Z }.
Record QueryArgs := MkQueryArgs { qa_Num : Z }.

(** The replies to Join, Leave and Move have the same fields. *)
Record ctl_reply := MkCtlReply { WrongLeader : bool; ct_Err : string }.
Record QueryReply := MkQueryReply { qr_WrongLeader : bool; qr_Err : string; qr_Config : Config }.

End shardctrler.
Import shardctrler.

Module shardkv.

Definition OK : string := "OK".
Definition ErrNoKey : string := "ErrNoKey".
Definition ErrWrongGroup : string := "ErrWrongGroup".
Definition ErrWrongLeader : string := "ErrWrongLeader".

Record PutAppendArgs := MkPutAppendArgs { pa_Key : string; pa_Value : string; pa_Op : string }.
Record PutAppendReply := MkPutAppendReply { pr_Err : string }.
Record GetArgs := MkGetArgs { ga_Key : string }.
Record GetReply := MkGetReply { gr_Err : string; gr_Value : string }.

(** [int(key[0])] is the first byte. *)
Definition key2shard (key : string) : Z :=
  let shard := match key with "" => 0 | String c _ => Z.of_nat (nat_of_ascii c) end%Z in
  Z.rem shard NShards.

End shardkv.
Import shardkv.

(** The requests the clerks send; a controller is known by its index in
    [ck.servers], a key-value server by the name given to [make_end]. *)
Inductive rpc :=
  | CQuery (srv : nat) (args : QueryArgs)
  | CJoin (srv : nat) (args : JoinArgs)
  | CLeave (srv : nat) (args : LeaveArgs)
  | CMove (srv : nat) (args : MoveArgs)
  | CGet (srv : string) (args : GetArgs)
  | CPutAppend (srv : string) (args : PutAppendArgs).

(** What [Call] gets, given the earlier requests; [None] when it returns false. *)
Class Env := {
  answer_query : list rpc → nat → QueryArgs → option QueryReply;
  answer_ctl : list rpc → rpc → option ctl_reply;
  answer_get : list rpc → string → GetArgs → option GetReply;
  answer_put : list rpc → string → PutAppendArgs → option PutAppendReply;
}.

Module ctlclerk.

(** [servers] are the ends of the controllers. *)
Record Clerk := MkClerkRecord { servers : list nat }.

Definition MakeClerk (servers : list nat) : Clerk := MkClerkRecord servers.

Section clerk.
Context `{Env}.
Implicit Types tr : list rpc.

(** The loop over [ck.servers] of [Query]. *)
Fixpoint query_round tr (srvs : list nat) (args : QueryArgs) : list rpc * option Config :=
  match srvs with
  | [] => (tr, None)
  | srv :: srvs' =>
      let tr' := tr ++ [CQuery srv args] in
      match answer_query tr srv args with
      | Some reply => if negb (qr_WrongLeader reply) then (tr', Some (qr_Config reply))
                      else query_round tr' srvs' args
      | None => query_round tr' srvs' args
      end
  end.

Fixpoint Query (fuel : nat) tr (ck : Clerk) (num : Z) : option (list rpc * Config) :=
  match fuel with
  | O => None
  | S fuel' =>
      match query_round tr (servers ck) (MkQueryArgs num) with
      | (tr', Some c) => Some (tr', c)
      | (tr', None) => Query fuel' tr' ck num
      end
  end.

(** The loop over [ck.servers] of [Join], [Leave] and [Move], which differ in the
    request only. *)
Fixpoint ctl_round tr (srvs : list nat) (request : nat → rpc) : list rpc * bool :=
  match srvs with
  | [] => (tr, false)
  | srv :: srvs' =>
      let tr' := tr ++ [request srv] in
      match answer_ctl tr (request srv) with
      | Some reply => if negb (WrongLeader reply) then (tr', true) else ctl_round tr' srvs' request
      | None => ctl_round tr' srvs' request
      end
  end.

Fixpoint ctl_loop (fuel : nat) tr (ck : Clerk) (request : nat → rpc) : option (list rpc) :=
  match fuel with
  | O => None
  | S fuel' =>
      match ctl_round tr (servers ck) request with
      | (tr', true) => Some tr'
      | (tr', false) => ctl_loop fuel' tr' ck request
      end
  end.

Definition Join (fuel : nat) tr ck (srvs : gmap Z (list string)) : option (list rpc) :=
  ctl_loop fuel tr ck (λ srv, CJoin srv (MkJoinArgs srvs)).

Definition Leave (fuel : nat) tr ck (gids : list Z) : option (list rpc) :=
  ctl_loop fuel tr ck (λ srv, CLeave srv (MkLeaveArgs gids)).

Definition Move (fuel : nat) tr ck (shard gid : Z) : option (list rpc) :=
  ctl_loop fuel tr ck (λ srv, CMove srv (MkMoveArgs shard gid)).

End clerk.
End ctlclerk.

Module kvclerk.

Record Clerk := MkClerkRecord { sm : ctlclerk.Clerk; config : Config }.

Definition MakeClerk (ctrlers : list nat) : Clerk :=
  MkClerkRecord (ctlclerk.MakeClerk ctrlers) zero_config.

Section clerk.
Context `{Env}.
Implicit Types tr : list rpc.

(** The loop over the servers of a group in [Get]: the value returned, or
    [None] when the loop ends or breaks. *)
Fixpoint get_round tr (srvs : list string) (args : GetArgs) : list rpc * option string :=
  match srvs with
  | [] => (tr, None)
  | srv :: srvs' =>
      let tr' := tr ++ [CGet srv args] in
      match answer_get tr srv args with
      | Some reply =>
          if String.eqb (gr_Err reply) OK || String.eqb (gr_Err reply) ErrNoKey
          then (tr', Some (gr_Value reply))
          else if String.eqb (gr_Err reply) ErrWrongGroup then (tr', None)
          else get_round tr' srvs' args
      | None => get_round tr' srvs' args
      end
  end.

(** The same loop in [PutAppend]. *)
Fixpoint put_round tr (srvs : list string) (args : PutAppendArgs) : list rpc * option unit :=
  match srvs with
  | [] => (tr, None)
  | srv :: srvs' =>
      let tr' := tr ++ [CPutAppend srv args] in
      match answer_put tr srv args with
      | Some reply =>
          if String.eqb (pr_Err reply) OK then (tr', Some ())
          else if String.eqb (pr_Err reply) ErrWrongGroup then (tr', None)
          else put_round tr' srvs' args
      | None => put_round tr' srvs' args
      end
  end.

(** The outer loop of [Get] and [PutAppend], with the loop over the servers as
    [round]; [None] when the fuel runs out. *)
Fixpoint shard_loop {A} (round : list rpc → list string → list rpc * option A)
    (fuel : nat) tr (ck : Clerk) (key : string) : option (outcome (list rpc * Clerk * A)) :=
  match fuel with
  | O => None
  | S fuel' =>
      let shard := key2shard key in
      match idx (Shards (config ck)) shard with
      | Done gid =>
          let '(tr1, found) := match Groups (config ck) !! gid with
                               | Some srvs => round tr srvs
                               | None => (tr, None)
                               end in
          match found with
          | Some a => Some (Done (tr1, ck, a))
          | None =>
              '(tr2, c) ← ctlclerk.Query fuel' tr1 (sm ck) (-1);
              shard_loop round fuel' tr2 (MkClerkRecord (sm ck) c) key
          end
      | Panic w => Some (Panic w)
      | Fatal w => Some (Fatal w)
      end
  end.

Definition Get (fuel : nat) tr (ck : Clerk) (key : string)
    : option (outcome (list rpc * Clerk * string)) :=
  shard_loop (λ tr srvs, get_round tr srvs (MkGetArgs key)) fuel tr ck key.

Definition PutAppend (fuel : nat) tr (ck : Clerk) (key value op : string)
    : option (outcome (list rpc * Clerk * unit)) :=
  shard_loop (λ tr srvs, put_round tr srvs (MkPutAppendArgs key value op)) fuel tr ck key.

Definition Put (fuel : nat) tr ck (key value : string) := PutAppend fuel tr ck key value "Put".
Definition Append (fuel : nat) tr ck (key value : string) := PutAppend fuel tr ck key value "Append".

End clerk.
End kvclerk.
