(* ===== verification/ShardKvTheorems.v ===== *)
(** * What the clerks of the sharded service do

    Whatever the servers answer, a clerk never indexes outside the shard table,
    returns only what a server of the group that owns the shard (in the
    configuration the clerk holds) has answered, and returns as soon as the
    controllers settle on a configuration whose group answers. *)

From Stdlib Require Import Ascii.
From S2P Require Import Prelude ShardKv.
Import shardctrler shardkv.

Module shardproof.

Lemma key2shard_range key : (0 ≤ key2shard key < NShards)%Z.
Proof.
  unfold key2shard, NShards. destruct key as [|c key]; [done|].
  apply Z.rem_bound_pos; lia.
Qed.

(** The servers of the group that owns the shard of [key] in [c]. *)
Definition owners (c : Config) (key : string) : list string :=
  default [] (Shards c !! Z.to_nat (key2shard key) ≫= λ gid, Groups c !! gid).

Section clerk.
Context `{Env}.
(** The arrays of configurations have their length. *)
Context (Hwf : ∀ tr srv args rep, answer_query tr srv args = Some rep → wf_config (qr_Config rep)).
Implicit Types (tr : list rpc) (ck : kvclerk.Clerk).

(** [c] was the answer to a query among the requests [tr']. *)
Definition queried (tr' : list rpc) (c : Config) : Prop :=
  ∃ tr srv args rep, answer_query tr srv args = Some rep ∧ qr_WrongLeader rep = false ∧
    qr_Config rep = c ∧ tr ++ [CQuery srv args] `prefix_of` tr'.

Lemma queried_prefix tr1 tr2 c : tr1 `prefix_of` tr2 → queried tr1 c → queried tr2 c.
Proof. intros Hp (tr & srv & args & rep & ? & ? & ? & ?). exists tr, srv, args, rep. split_and!; [done..|]. by etrans. Qed.

Lemma query_round_spec args srvs : ∀ tr tr' o, ctlclerk.query_round tr srvs args = (tr', o) →
  tr `prefix_of` tr' ∧ ∀ c, o = Some c → queried tr' c.
Proof.
  induction srvs as [|srv srvs IH]; intros tr tr' o Hr; simpl in Hr; [by simplify_eq|].
  destruct (answer_query tr srv args) as [rep|] eqn:Ha.
  - destruct (qr_WrongLeader rep) eqn:Hw; simpl in Hr.
    + apply IH in Hr as [Hp Hq]. split; [|done]. etrans; [|exact Hp]. by apply prefix_app_r.
    + simplify_eq. split; [by apply prefix_app_r|]. intros c [= <-]. by exists tr, srv, args, rep.
  - apply IH in Hr as [Hp Hq]. split; [|done]. etrans; [|exact Hp]. by apply prefix_app_r.
Qed.

Lemma Query_spec num (sm : ctlclerk.Clerk) fuel : ∀ tr tr' c, ctlclerk.Query fuel tr sm num = Some (tr', c) →
  tr `prefix_of` tr' ∧ queried tr' c.
Proof.
  induction fuel as [|fuel IH]; intros tr tr' c Hq; simpl in Hq; [done|].
  destruct (ctlclerk.query_round tr (ctlclerk.servers sm) (MkQueryArgs num)) as [tr1 o] eqn:Hr.
  apply query_round_spec in Hr as [Hp Ho]. destruct o; simplify_eq; [by auto|].
  apply IH in Hq as [Hp' Hq]. split; [by etrans|done].
Qed.

Section loop.
Context {A : Type} (round : list rpc → list string → list rpc * option A).
(** What a returning round says about its last request. *)
Context (good : list rpc → list rpc → list string → A → Prop).
Context (Hround : ∀ tr srvs tr' o, round tr srvs = (tr', o) →
  tr `prefix_of` tr' ∧ ∀ a, o = Some a → good tr tr' srvs a).

Lemma shard_loop_spec key fuel : ∀ tr ck r, wf_config (kvclerk.config ck) →
  kvclerk.shard_loop round fuel tr ck key = Some r →
  ∃ tr' ck' a tr0, r = Done (tr', ck', a) ∧ tr `prefix_of` tr0 ∧
    good tr0 tr' (owners (kvclerk.config ck') key) a ∧
    (kvclerk.config ck' = kvclerk.config ck ∨ queried tr0 (kvclerk.config ck')).
Proof.
  induction fuel as [|fuel IH]; intros tr ck r Hw Hr; simpl in Hr; [done|].
  pose proof (key2shard_range key) as Hk. unfold wf_config in Hw.
  destruct (idx_total (Shards (kvclerk.config ck)) (key2shard key)) as [gid Hgid]; [lia|].
  rewrite Hgid in Hr. apply idx_Done in Hgid as [_ Hgid].
  set (p := match Groups (kvclerk.config ck) !! gid with Some srvs => round tr srvs | None => (tr, None) end) in Hr.
  assert (tr `prefix_of` p.1 ∧ ∀ a, p.2 = Some a →
    good tr p.1 (owners (kvclerk.config ck) key) a) as [Hp Hgood].
  { unfold p, owners. rewrite Hgid. simpl.
    destruct (Groups (kvclerk.config ck) !! gid) as [srvs|]; [|by split].
    simpl. destruct (round tr srvs) as [tr1 o] eqn:E. by apply Hround. }
  destruct p as [tr1 [a|]].
  - simplify_eq. exists tr1, ck, a, tr. split_and!; [done..|by apply Hgood|by left].
  - destruct (ctlclerk.Query fuel tr1 (kvclerk.sm ck) (-1)) as [[tr2 c]|] eqn:Hq; [|done].
    simpl in Hr. apply Query_spec in Hq as [Hp2 Hqc].
    destruct (IH tr2 (kvclerk.MkClerkRecord (kvclerk.sm ck) c) r)
      as (tr' & ck' & a & tr0 & -> & Hp0 & Hg & Hc); [|exact Hr|].
    { simpl. destruct Hqc as (? & ? & ? & rep & Ha & _ & <- & _). by eapply Hwf. }
    exists tr', ck', a, tr0. split_and!; [done| |done|].
    + etrans; [exact Hp|]. by etrans.
    + right. destruct Hc as [->|?]; [|done]. simpl. by eapply queried_prefix.
Qed.

(** ** Termination when the environment settles *)

Lemma query_round_settled args srvs c : ∀ tr,
  (∀ tr srv rep, srv ∈ srvs → answer_query tr srv args = Some rep →
     qr_WrongLeader rep = false → qr_Config rep = c) →
  (∃ srv, srv ∈ srvs ∧ ∀ tr, ∃ rep, answer_query tr srv args = Some rep ∧ qr_WrongLeader rep = false) →
  ∃ tr', ctlclerk.query_round tr srvs args = (tr', Some c).
Proof.
  induction srvs as [|srv srvs IH]; intros tr Hc (s & Hs & Hans).
  { by apply not_elem_of_nil in Hs. }
  simpl. assert (∀ tr, (∃ rep, answer_query tr srv args = Some rep ∧ qr_WrongLeader rep = false) ∨
    (s ∈ srvs ∧ ∃ tr', ctlclerk.query_round (tr ++ [CQuery srv args]) srvs args = (tr', Some c))) as Hcase.
  { intros tr0. apply elem_of_cons in Hs as [->|Hs]; [by left|]. right. split; [done|].
    apply IH; [|by exists s]. intros t0 s0 rep Hin. apply Hc. by right. }
  destruct (answer_query tr srv args) as [rep|] eqn:Ha.
  - destruct (qr_WrongLeader rep) eqn:Hw; simpl.
    + destruct (Hcase tr) as [(? & ? & ?)|[_ ?]]; [congruence|done].
    + eexists. by rewrite (Hc tr srv rep ltac:(by left) Ha Hw).
  - destruct (Hcase tr) as [(? & ? & ?)|[_ ?]]; [congruence|done].
Qed.

Lemma Query_settled num (sm : ctlclerk.Clerk) c fuel tr : 1 ≤ fuel →
  (∀ tr srv rep, srv ∈ ctlclerk.servers sm → answer_query tr srv (MkQueryArgs num) = Some rep →
     qr_WrongLeader rep = false → qr_Config rep = c) →
  (∃ srv, srv ∈ ctlclerk.servers sm ∧
     ∀ tr, ∃ rep, answer_query tr srv (MkQueryArgs num) = Some rep ∧ qr_WrongLeader rep = false) →
  ∃ tr', ctlclerk.Query fuel tr sm num = Some (tr', c).
Proof.
  intros Hf Hc Hs. destruct fuel as [|fuel]; [lia|]. simpl.
  destruct (query_round_settled _ _ c tr Hc Hs) as [tr' ->]. by exists tr'.
Qed.

(** With a settled configuration whose owners answer, two iterations are enough. *)
Lemma shard_loop_settled key c fuel tr ck : 2 ≤ fuel →
  wf_config (kvclerk.config ck) → wf_config c →
  (∀ tr srv rep, srv ∈ ctlclerk.servers (kvclerk.sm ck) →
     answer_query tr srv (MkQueryArgs (-1)) = Some rep → qr_WrongLeader rep = false → qr_Config rep = c) →
  (∃ srv, srv ∈ ctlclerk.servers (kvclerk.sm ck) ∧
     ∀ tr, ∃ rep, answer_query tr srv (MkQueryArgs (-1)) = Some rep ∧ qr_WrongLeader rep = false) →
  owners c key ≠ [] →
  (∀ tr, ∃ tr' a, round tr (owners c key) = (tr', Some a)) →
  ∃ tr' ck' a, kvclerk.shard_loop round fuel tr ck key = Some (Done (tr', ck', a)).
Proof.
  intros Hf Hw Hwc Hc Hs Hne Hr. pose proof (key2shard_range key) as Hk. unfold wf_config in Hw, Hwc.
  destruct fuel as [|[|fuel]]; [lia..|].
  remember (Datatypes.S fuel) as f eqn:Ef. simpl.
  destruct (idx_total (Shards (kvclerk.config ck)) (key2shard key)) as [gid ->]; [lia|].
  destruct (match Groups (kvclerk.config ck) !! gid with Some srvs => round tr srvs | None => (tr, None) end)
    as [tr1 [a|]]; [by eauto|].
  destruct (Query_settled (-1) (kvclerk.sm ck) c f tr1) as [tr2 ->]; [lia|done..|]. simpl. rewrite Ef. simpl.
  destruct (idx_total (Shards c) (key2shard key)) as [gid' Hgid]; [lia|]. rewrite Hgid.
  apply idx_Done in Hgid as [_ Hgid]. unfold owners in Hr, Hne. rewrite Hgid in Hr, Hne. simpl in Hr, Hne.
  destruct (Groups c !! gid') as [srvs|]; [|done]. simpl in Hr.
  destruct (Hr tr2) as (tr3 & a & ->). by eauto.
Qed.

End loop.

(** ** The rounds of [Get] and [PutAppend] *)

(** The request [f s] was sent last, to one of [srvs], and [ans] answered it. *)
Definition answered {B} (f : string → rpc) (ans : list rpc → string → option B) (acc : B → Prop)
    (tr tr' : list rpc) (srvs : list string) : Prop :=
  ∃ s t b, s ∈ srvs ∧ tr `prefix_of` t ∧ tr' = t ++ [f s] ∧ ans t s = Some b ∧ acc b.

Lemma answered_cons {B} f (ans : list rpc → string → option B) acc tr tr' x s srvs :
  answered f ans acc (tr ++ [x]) tr' srvs → answered f ans acc tr tr' (s :: srvs).
Proof.
  intros (s' & t & b & Hs & Hp & -> & Ha & Hacc). exists s', t, b. split_and!; [by right| |done..].
  etrans; [|exact Hp]. by apply prefix_app_r.
Qed.

(** A reply [Get] accepts with value [v]. *)
Definition accepts (v : string) (rep : GetReply) : Prop :=
  (gr_Err rep = OK ∨ gr_Err rep = ErrNoKey) ∧ gr_Value rep = v.

Lemma get_round_spec args srvs : ∀ tr tr' o, kvclerk.get_round tr srvs args = (tr', o) →
  tr `prefix_of` tr' ∧ ∀ v, o = Some v →
    answered (λ s, CGet s args) (λ t s, answer_get t s args) (accepts v) tr tr' srvs.
Proof.
  induction srvs as [|s srvs IH]; intros tr tr' o Hr; simpl in Hr; [by simplify_eq|].
  assert (kvclerk.get_round (tr ++ [CGet s args]) srvs args = (tr', o) →
    tr `prefix_of` tr' ∧ ∀ v, o = Some v →
      answered (λ s, CGet s args) (λ t s, answer_get t s args) (accepts v) tr tr' (s :: srvs)) as Hgo.
  { intros [Hp Hv]%IH. split; [etrans; [|exact Hp]; by apply prefix_app_r|].
    intros v Ho. eapply answered_cons. by apply Hv. }
  destruct (answer_get tr s args) as [rep|] eqn:Ha; [|by apply Hgo].
  destruct (String.eqb_spec (gr_Err rep) OK) as [Hok|_]; simpl in Hr.
  { simplify_eq. split; [by apply prefix_app_r|]. intros v [= <-]. exists s, tr, rep.
    split_and!; [by left|done..|by split; [left|]]. }
  destruct (String.eqb_spec (gr_Err rep) ErrNoKey) as [Hok|_]; simpl in Hr.
  { simplify_eq. split; [by apply prefix_app_r|]. intros v [= <-]. exists s, tr, rep.
    split_and!; [by left|done..|by split; [right|]]. }
  destruct (String.eqb (gr_Err rep) ErrWrongGroup); [|by apply Hgo].
  simplify_eq. split; [by apply prefix_app_r|done].
Qed.

Lemma put_round_spec args srvs : ∀ tr tr' o, kvclerk.put_round tr srvs args = (tr', o) →
  tr `prefix_of` tr' ∧ ∀ u, o = Some u →
    answered (λ s, CPutAppend s args) (λ t s, answer_put t s args) (λ rep, pr_Err rep = OK) tr tr' srvs.
Proof.
  induction srvs as [|s srvs IH]; intros tr tr' o Hr; simpl in Hr; [by simplify_eq|].
  assert (kvclerk.put_round (tr ++ [CPutAppend s args]) srvs args = (tr', o) →
    tr `prefix_of` tr' ∧ ∀ u, o = Some u →
      answered (λ s, CPutAppend s args) (λ t s, answer_put t s args) (λ rep, pr_Err rep = OK)
        tr tr' (s :: srvs)) as Hgo.
  { intros [Hp Hv]%IH. split; [etrans; [|exact Hp]; by apply prefix_app_r|].
    intros u Ho. eapply answered_cons. by eapply Hv. }
  destruct (answer_put tr s args) as [rep|] eqn:Ha; [|by apply Hgo].
  destruct (String.eqb_spec (pr_Err rep) OK) as [Hok|_]; simpl in Hr.
  { simplify_eq. split; [by apply prefix_app_r|]. intros u _. exists s, tr, rep.
    split_and!; [by left|done..]. }
  destruct (String.eqb (pr_Err rep) ErrWrongGroup); [|by apply Hgo].
  simplify_eq. split; [by apply prefix_app_r|done].
Qed.

(** Among the servers, none answers ErrWrongGroup (which ends the round) and one
    always gives an answer in [acc]. *)
Definition served {B} (ans : list rpc → string → option B) (err : B → string) (acc : string → Prop)
    (srvs : list string) : Prop :=
  (∀ t s r, s ∈ srvs → ans t s = Some r → err r ≠ ErrWrongGroup) ∧
  ∃ s, s ∈ srvs ∧ ∀ t, ∃ r, ans t s = Some r ∧ acc (err r).

Lemma served_cons {B} (ans : list rpc → string → option B) err acc x srvs t :
  served ans err acc (x :: srvs) → (∀ r, ans t x = Some r → ¬ acc (err r)) → served ans err acc srvs.
Proof.
  intros [Hg (s & Hs & Hans)] Hx. split; [intros t' s' r Hs'; apply Hg; by right|].
  apply elem_of_cons in Hs as [->|Hs]; [|by exists s]. destruct (Hans t) as (r & Hr & Hacc). by destruct (Hx r Hr).
Qed.

Lemma get_round_settled args srvs : ∀ tr,
  served (λ t s, answer_get t s args) gr_Err (λ e, e = OK ∨ e = ErrNoKey) srvs →
  ∃ tr' v, kvclerk.get_round tr srvs args = (tr', Some v).
Proof.
  induction srvs as [|x srvs IH]; intros tr Hs; [by destruct Hs as [_ (? & ?%not_elem_of_nil & _)]|].
  simpl. destruct (answer_get tr x args) as [rep|] eqn:Ha.
  - destruct (String.eqb_spec (gr_Err rep) OK) as [|Hne]; simpl; [by eauto|].
    destruct (String.eqb_spec (gr_Err rep) ErrNoKey) as [|Hne']; simpl; [by eauto|].
    destruct (String.eqb_spec (gr_Err rep) ErrWrongGroup) as [Hg|_].
    { destruct Hs as [Hno _]. by destruct (Hno tr x rep ltac:(by left) Ha). }
    apply IH. eapply (served_cons _ _ _ _ _ tr); [exact Hs|]. intros r Hr [?|?]; congruence.
  - apply IH. eapply (served_cons _ _ _ _ _ tr); [exact Hs|]. intros r Hr. congruence.
Qed.

Lemma put_round_settled args srvs : ∀ tr,
  served (λ t s, answer_put t s args) pr_Err (λ e, e = OK) srvs →
  ∃ tr' u, kvclerk.put_round tr srvs args = (tr', Some u).
Proof.
  induction srvs as [|x srvs IH]; intros tr Hs; [by destruct Hs as [_ (? & ?%not_elem_of_nil & _)]|].
  simpl. destruct (answer_put tr x args) as [rep|] eqn:Ha.
  - destruct (String.eqb_spec (pr_Err rep) OK) as [|Hne]; simpl; [by eauto|].
    destruct (String.eqb_spec (pr_Err rep) ErrWrongGroup) as [Hg|_].
    { destruct Hs as [Hno _]. by destruct (Hno tr x rep ltac:(by left) Ha). }
    apply IH. eapply (served_cons _ _ _ _ _ tr); [exact Hs|]. intros r Hr. congruence.
  - apply IH. eapply (served_cons _ _ _ _ _ tr); [exact Hs|]. intros r Hr. congruence.
Qed.

(** The controllers that claim to lead always answer with [c], and one of them
    always does. *)
Record settled (ck : kvclerk.Clerk) (c : Config) : Prop := MkSettled {
  st_wf : wf_config c;
  st_same : ∀ tr srv rep, srv ∈ ctlclerk.servers (kvclerk.sm ck) →
    answer_query tr srv (MkQueryArgs (-1)) = Some rep → qr_WrongLeader rep = false → qr_Config rep = c;
  st_leader : ∃ srv, srv ∈ ctlclerk.servers (kvclerk.sm ck) ∧
    ∀ tr, ∃ rep, answer_query tr srv (MkQueryArgs (-1)) = Some rep ∧ qr_WrongLeader rep = false;
}.

Lemma served_nonempty {B} (ans : list rpc → string → option B) err acc srvs : served ans err acc srvs → srvs ≠ [].
Proof. intros [_ (? & Hs & _)] Hnil. rewrite Hnil in Hs. by apply not_elem_of_nil in Hs. Qed.

End clerk.
End shardproof.
Import shardproof.

(** C38: In every environment, a returning [Get] of the sharded clerk does not
    panic; its value is the answer OK or ErrNoKey to its last request, which went
    to a server of the group that owns the shard of the key in the configuration
    the clerk then holds; and that configuration is the one it had or one a
    controller answered before that request.  A returning [PutAppend] likewise
    got OK from such a server.  And both do return, in at most two iterations, if
    the controllers have settled on a configuration in which no owner of the key
    answers ErrWrongGroup and one of them always accepts (OK, or ErrNoKey to a
    [Get]). *)
Theorem shardkv_clerk `{Env} (tr : list rpc) (ck : kvclerk.Clerk) (key : string) :
  (∀ tr srv args rep, answer_query tr srv args = Some rep → wf_config (qr_Config rep)) →
  wf_config (kvclerk.config ck) →
  (∀ fuel r, kvclerk.Get fuel tr ck key = Some r → ∃ tr' ck' v tr0, r = Done (tr', ck', v) ∧
     answered (λ s, CGet s (MkGetArgs key)) (λ t s, answer_get t s (MkGetArgs key)) (accepts v)
       tr0 tr' (owners (kvclerk.config ck') key) ∧
     (kvclerk.config ck' = kvclerk.config ck ∨ queried tr0 (kvclerk.config ck'))) ∧
  (∀ fuel value op r, kvclerk.PutAppend fuel tr ck key value op = Some r →
     ∃ tr' ck' tr0, r = Done (tr', ck', ()) ∧
     answered (λ s, CPutAppend s (MkPutAppendArgs key value op))
       (λ t s, answer_put t s (MkPutAppendArgs key value op)) (λ rep, pr_Err rep = OK)
       tr0 tr' (owners (kvclerk.config ck') key) ∧
     (kvclerk.config ck' = kvclerk.config ck ∨ queried tr0 (kvclerk.config ck'))) ∧
  (∀ c fuel, settled ck c → 2 ≤ fuel →
     (served (λ t s, answer_get t s (MkGetArgs key)) gr_Err (λ e, e = OK ∨ e = ErrNoKey) (owners c key) →
      ∃ tr' ck' v, kvclerk.Get fuel tr ck key = Some (Done (tr', ck', v))) ∧
     (∀ value op,
      served (λ t s, answer_put t s (MkPutAppendArgs key value op)) pr_Err (λ e, e = OK) (owners c key) →
      ∃ tr' ck', kvclerk.PutAppend fuel tr ck key value op = Some (Done (tr', ck', ())))).
Proof.
  intros Hwf Hw. split_and!.
  - intros fuel r Hr.
    destruct (shard_loop_spec Hwf _ (λ t t' srvs v, answered (λ s, CGet s (MkGetArgs key))
        (λ t s, answer_get t s (MkGetArgs key)) (accepts v) t t' srvs)
      (λ t srvs, get_round_spec (MkGetArgs key) srvs t) key fuel tr ck r Hw Hr)
      as (tr' & ck' & v & tr0 & -> & _ & Hg & Hc).
    by exists tr', ck', v, tr0.
  - intros fuel value op r Hr.
    destruct (shard_loop_spec Hwf _ (λ t t' srvs u, answered
        (λ s, CPutAppend s (MkPutAppendArgs key value op))
        (λ t s, answer_put t s (MkPutAppendArgs key value op)) (λ rep, pr_Err rep = OK) t t' srvs)
      (λ t srvs, put_round_spec (MkPutAppendArgs key value op) srvs t) key fuel tr ck r Hw Hr)
      as (tr' & ck' & [] & tr0 & -> & _ & Hg & Hc).
    by exists tr', ck', tr0.
  - intros c fuel [Hcw Hsame Hlead] Hf. split.
    + intros Hs. eapply shard_loop_settled; [done..|by eapply served_nonempty|].
      intros tr0. by apply get_round_settled.
    + intros value op Hs.
      destruct (shard_loop_settled (λ t srvs, kvclerk.put_round t srvs (MkPutAppendArgs key value op)) key c fuel tr ck)
        as (tr' & ck' & [] & Hp); [done..|by eapply served_nonempty| |by exists tr', ck'].
      intros tr0. by apply put_round_settled.
Qed.

(** ** A concrete environment *)

(** One controller, which leads and knows group 7 with two servers, of which
    "b" is the leader. *)
Module demo_shards.

Definition conf : Config := MkConfig 1 (replicate 10 7%Z) {[ 7%Z := ["a"; "b"] ]}.

#[export] Instance env : Env := {
  answer_query _ _ _ := Some (MkQueryReply false shardctrler.OK conf);
  answer_ctl _ _ := None;
  answer_get _ s _ := if String.eqb s "b" then Some (MkGetReply OK "v")
                      else Some (MkGetReply ErrWrongLeader "");
  answer_put _ s _ := if String.eqb s "b" then Some (MkPutAppendReply OK) else None;
}.

End demo_shards.
Import demo_shards.

Lemma shardkv_clerk_witness :
  kvclerk.Get 2 [] (kvclerk.MakeClerk [0]) "k" =
    Some (Done ([CQuery 0 (MkQueryArgs (-1)); CGet "a" (MkGetArgs "k"); CGet "b" (MkGetArgs "k")],
      kvclerk.MkClerkRecord (ctlclerk.MakeClerk [0]) conf, "v")) ∧
  (∃ tr' ck' v, kvclerk.Get 5 [] (kvclerk.MakeClerk [0]) "k" = Some (Done (tr', ck', v))) ∧
  ∃ tr' ck', kvclerk.PutAppend 5 [] (kvclerk.MakeClerk [0]) "k" "x" "Append" = Some (Done (tr', ck', ())).
Proof.
  split; [vm_compute; reflexivity|].
  destruct (shardkv_clerk [] (kvclerk.MakeClerk [0]) "k") as (_ & _ & Hret).
  - intros tr srv args rep Ha. injection Ha as <-. reflexivity.
  - reflexivity.
  - destruct (Hret conf 5) as [Hget Hput]; [|lia|split; [apply Hget|apply Hput]].
    + split.
      * reflexivity.
      * intros tr srv rep _ Ha _. injection Ha as <-. reflexivity.
      * exists 0. split; [left|]. intros tr. eexists. split; reflexivity.
    + split.
      * intros t s r _ Hr. simpl in Hr. destruct (String.eqb s "b"); injection Hr as <-; discriminate.
      * exists "b". split; [right; left|]. intros t. eexists. split; [reflexivity|left; reflexivity].
    + split.
      * intros t s r _ Hr. simpl in Hr. destruct (String.eqb s "b"); [injection Hr as <-; discriminate|discriminate Hr].
      * exists "b". split; [right; left|]. intros t. eexists. split; reflexivity.
Defined.
