(* ===== verification/Harness.v ===== *)
(** * What the test harnesses of labs 3 to 5 share

    The values and objects that the harnesses (the files config.go) put on the
    network of LabRpc.v: names of ends and servers, the heap with the Raft
    peers, their persisters and the servers of labs 4 and 5, and the methods
    that [labrpc.MakeService] finds on them.

    An address is a position in the heap; nothing is ever freed.  The servers of
    labs 4 and 5 (kvraft/server.go, shardctrler/server.go, shardkv/server.go)
    have handlers with empty bodies, so that of their arguments only the type
    matters. *)

From S2P Require Import Prelude Persister Raft LabRpc ShardKv.
Open Scope Z_scope.

(** The dynamic types of the names of ends and servers: strings and ints. *)
Inductive name := NStr (s : string) | NInt (i : Z).

#[export] Instance name_eq_dec : EqDecision name.
Proof. solve_decision. Defined.

#[export] Instance name_countable : Countable name.
Proof.
  refine (inj_countable' (λ x, match x with NStr s => inl s | NInt i => inr i end)
    (λ y, match y with inl s => NStr s | inr i => NInt i end) _); by intros [].
Defined.

(** ** Objects *)

Notation ClientEnd := (@labrpc.ClientEnd name).

(** The channels [applyCh], from which nobody reads in these labs, are left out. *)
Record KVServer := MkKVServer {
  kv_me : Z;
  kv_rf : nat;
  kv_dead : Z;
  kv_maxraftstate : Z;
}.

Record ShardCtrler := MkShardCtrler {
  sc_me : Z;
  sc_rf : nat;
  sc_configs : list shardctrler.Config;
}.

(** [make_end] is always the closure of [shardkv_config.make_end]. *)
Record ShardKV := MkShardKV {
  skv_me : Z;
  skv_rf : nat;
  skv_gid : Z;
  skv_ctrlers : list ClientEnd;
  skv_maxraftstate : Z;
}.

(** The clerks of labs 4 and 5 as the harnesses see them. *)
Record Clerk := MkClerk { ck_servers : list ClientEnd }.

Section objects.
Context {Cmd : Type}.

(** A peer and the address of its persister, which it shares with the harness:
    the current content of [rf.persister] is in the heap. *)
Inductive obj :=
  | ORaft (rf : Raft Cmd) (ps : nat)
  | OPersister (p : Persister)
  | OKVServer (kv : KVServer)
  | OShardCtrler (sc : ShardCtrler)
  | OShardKV (kv : ShardKV)
  | OClerk (ck : Clerk).

(** The memory of the process and its clock in milliseconds. *)
Record app := MkApp { ap_now : Z; ap_heap : list obj }.

Definition with_heap (σ : app) (h : list obj) : app := MkApp (ap_now σ) h.

(** [new]: the address and the new memory. *)
Definition alloc (σ : app) (o : obj) : nat * app :=
  (length (ap_heap σ), with_heap σ (ap_heap σ ++ [o])).

Definition store (σ : app) (p : nat) (o : obj) : app :=
  with_heap σ (<[p := o]> (ap_heap σ)).

(** Dereferences of pointers of a given type; nil panics. *)
Definition nil_pointer {A} : outcome A := Panic "nil pointer dereference".

Definition raft_at (σ : app) (p : option nat) : outcome (nat * Raft Cmd * nat) :=
  match p with
  | Some p => match ap_heap σ !! p with Some (ORaft rf ps) => Done (p, rf, ps) | _ => nil_pointer end
  | None => nil_pointer
  end.

Definition persister_at (σ : app) (p : option nat) : outcome Persister :=
  match p with
  | Some p => match ap_heap σ !! p with Some (OPersister x) => Done x | _ => nil_pointer end
  | None => nil_pointer
  end.

(** [rf.Kill()] on a peer of the heap. *)
Definition kill_raft (σ : app) (p : option nat) : outcome app :=
  let! '(a, rf, ps) := raft_at σ p in
  Done (store σ a (ORaft (raft.Kill rf) ps)).

(** [rf.GetState()] *)
Definition get_state (σ : app) (p : option nat) : outcome (Z * bool) :=
  let! '(_, rf, _) := raft_at σ p in
  Done (raft.GetState rf).

(** [raft.Make] on fresh memory. *)
Definition make_raft (σ : app) (npeers : nat) (me : Z) (ps : nat) : outcome (nat * app) :=
  let! p := persister_at σ (Some ps) in
  Done (alloc σ (ORaft (raft.Make (ap_now σ) npeers me p) ps)).

(** [ps.Copy()] into a fresh persister. *)
Definition copy_persister (σ : app) (ps : nat) : outcome (nat * app) :=
  let! p := persister_at σ (Some ps) in
  Done (alloc σ (OPersister (persister.Copy p))).

(** ** Values and methods *)

(** Pointers to objects, the messages of Raft, and other structs by the name of
    their type. *)
Inductive value :=
  | VPtr (p : nat)
  | VRequestVoteArgs (a : RequestVoteArgs)
  | VRequestVoteReply (r : RequestVoteReply)
  | VAppendEntriesArgs (a : AppendEntriesArgs Cmd)
  | VAppendEntriesReply (r : AppendEntriesReply)
  | VStruct (ty : string).

Definition wrong_type {A} : outcome A := Panic "reflect: Call using wrong type".

Notation Method := (@labrpc.Method value app).
Notation rtype := (@labrpc.rtype value).

Definition RequestVote_func (rcvr args reply : value) (σ : app) : outcome (app * value) :=
  match rcvr, args with
  | VPtr p, VRequestVoteArgs a =>
      let! '(p, rf, ps) := raft_at σ (Some p) in
      let! '(rf', r) := raft.RequestVote (ap_now σ) rf a in
      Done (store σ p (ORaft rf' ps), VRequestVoteReply r)
  | _, _ => wrong_type
  end.

Definition AppendEntries_func (rcvr args reply : value) (σ : app) : outcome (app * value) :=
  match rcvr, args with
  | VPtr p, VAppendEntriesArgs a =>
      let! '(p, rf, ps) := raft_at σ (Some p) in
      let! '(rf', r) := raft.AppendEntries (ap_now σ) rf a in
      Done (store σ p (ORaft rf' ps), VAppendEntriesReply r)
  | _, _ => wrong_type
  end.

(** A method that is no handler: labrpc never calls it. *)
Definition no_func (rcvr args reply : value) (σ : app) : outcome (app * value) :=
  Panic "not a handler".

Definition ptr_Raft : rtype := labrpc.PtrTo (VStruct "Raft").

(** The exported methods of [*Raft], in the order of [reflect]. *)
Definition raft_methods : list Method :=
  [ labrpc.MkMethod "" "AppendEntries"
      [ptr_Raft; labrpc.PtrTo (VAppendEntriesArgs (MkAppendEntriesArgs 0 0 0 0 [] 0));
       labrpc.PtrTo (VAppendEntriesReply (MkAppendEntriesReply 0 false 0 0))] 0 AppendEntries_func;
    labrpc.MkMethod "" "CommitChecker" [ptr_Raft] 0 no_func;
    labrpc.MkMethod "" "GetState" [ptr_Raft] 2 no_func;
    labrpc.MkMethod "" "KickOffElection" [ptr_Raft] 0 no_func;
    labrpc.MkMethod "" "Kill" [ptr_Raft] 0 no_func;
    labrpc.MkMethod "" "RequestVote"
      [ptr_Raft; labrpc.PtrTo (VRequestVoteArgs (MkRequestVoteArgs 0 0 0 0));
       labrpc.PtrTo (VRequestVoteReply (MkRequestVoteReply 0 false))] 0 RequestVote_func;
    labrpc.MkMethod "" "SendHeartBeats" [ptr_Raft] 0 no_func;
    labrpc.MkMethod "" "Snapshot" [ptr_Raft; labrpc.NonPtr; labrpc.NonPtr] 0 no_func;
    labrpc.MkMethod "" "Start" [ptr_Raft; labrpc.NonPtr] 3 no_func ].

Definition raft_receiver (p : nat) : @labrpc.receiver value app :=
  labrpc.MkReceiver (VPtr p) "Raft" raft_methods.

(** A handler [func (x *T) Name(args *A, reply *R)] with an empty body. *)
Definition empty_func (A : string) (rcvr args reply : value) (σ : app) : outcome (app * value) :=
  match args with
  | VStruct a => if String.eqb a A then Done (σ, reply) else wrong_type
  | _ => wrong_type
  end.

Definition empty_handler (T meth A R : string) : Method :=
  labrpc.MkMethod "" meth
    [labrpc.PtrTo (VStruct T); labrpc.PtrTo (VStruct A); labrpc.PtrTo (VStruct R)] 0 (empty_func A).

(** [Kill] and the like: no parameters, [out] results. *)
Definition plain_method (T meth : string) (out : Z) : Method :=
  labrpc.MkMethod "" meth [labrpc.PtrTo (VStruct T)] out no_func.

Definition kvserver_methods : list Method :=
  [ empty_handler "KVServer" "Append" "PutAppendArgs" "PutAppendReply";
    empty_handler "KVServer" "Get" "GetArgs" "GetReply";
    plain_method "KVServer" "Kill" 0;
    empty_handler "KVServer" "Put" "PutAppendArgs" "PutAppendReply" ].

Definition shardctrler_methods : list Method :=
  [ empty_handler "ShardCtrler" "Join" "JoinArgs" "JoinReply";
    plain_method "ShardCtrler" "Kill" 0;
    empty_handler "ShardCtrler" "Leave" "LeaveArgs" "LeaveReply";
    empty_handler "ShardCtrler" "Move" "MoveArgs" "MoveReply";
    empty_handler "ShardCtrler" "Query" "QueryArgs" "QueryReply";
    plain_method "ShardCtrler" "Raft" 1 ].

Definition shardkv_methods : list Method :=
  [ empty_handler "ShardKV" "Get" "GetArgs" "GetReply";
    plain_method "ShardKV" "Kill" 0;
    empty_handler "ShardKV" "PutAppend" "PutAppendArgs" "PutAppendReply" ].

End objects.
Arguments obj : clear implicits.
Arguments app : clear implicits.
Arguments value : clear implicits.

Notation Network := (@labrpc.Network name _ _).
Notation world Cmd := (@labrpc.world name _ _ (value Cmd) (app Cmd)).
Notation Server Cmd := (@labrpc.Server (value Cmd) (app Cmd)).

(** ** Operations on the world that every harness uses *)
Section world.
Context {Cmd : Type}.
Implicit Types w : world Cmd.

Definition with_memory w (σ : app Cmd) : world Cmd :=
  labrpc.MkWorld (labrpc.w_net w) (labrpc.w_loop w) (labrpc.w_store w) σ
    (labrpc.w_calls w) (labrpc.w_log w).

(** [cfg.net.Enable(endname, yes)] *)
Definition enable w (endname : name) (yes : bool) : world Cmd :=
  labrpc.with_net w (labrpc.Enable (labrpc.w_net w) endname yes).

(** [cfg.net.MakeEnd(endname); cfg.net.Connect(endname, servername)] *)
Definition make_end w (endname servername : name) : outcome (world Cmd * ClientEnd) :=
  let! '(rn, e) := labrpc.MakeEnd (labrpc.w_net w) endname in
  Done (labrpc.with_net w (labrpc.Connect rn endname servername), e).

(** [srv := labrpc.MakeServer(); srv.AddService(svc) ...;
    cfg.net.AddServer(servername, srv)] with a fresh server. *)
Definition add_server w (servername : name) (svcs : list (@labrpc.Service (value Cmd) (app Cmd)))
    : world Cmd :=
  let srv := fresh (dom (labrpc.w_store w)) in
  let rs := foldl labrpc.AddService labrpc.MakeServer svcs in
  labrpc.with_net (labrpc.with_store w (<[srv := rs]> (labrpc.w_store w)))
    (labrpc.AddServer (labrpc.w_net w) servername srv).

(** [cfg.net.DeleteServer(servername)] *)
Definition delete_server w (servername : name) : world Cmd :=
  labrpc.with_net w (labrpc.DeleteServer (labrpc.w_net w) servername).

End world.
