(* ===== verification/HarnessFacts.v ===== *)
(** * Facts about the network and the heap that the harnesses share *)

From S2P Require Import Prelude Persister Raft LabRpc Harness.
Open Scope Z_scope.

(** ** Enabling many ends *)
Section enable.
Context {Cmd : Type}.
Implicit Types w : world Cmd.

Definition enable_all (names : list string) (b : bool) w : world Cmd :=
  foldl (λ w s, enable w (NStr s) b) w names.

Lemma enable_all_frame names b w :
  let w' := enable_all names b w in
  labrpc.w_app w' = labrpc.w_app w ∧ labrpc.w_store w' = labrpc.w_store w ∧
  labrpc.rn_ends (labrpc.w_net w') = labrpc.rn_ends (labrpc.w_net w) ∧
  labrpc.rn_connections (labrpc.w_net w') = labrpc.rn_connections (labrpc.w_net w) ∧
  labrpc.rn_servers (labrpc.w_net w') = labrpc.rn_servers (labrpc.w_net w).
Proof.
  unfold enable_all. revert w. induction names as [|s names IH]; intros w; [done|].
  simpl. destruct (IH (enable w (NStr s) b)) as (-> & -> & -> & -> & ->). done.
Qed.

Lemma enable_is_enabled w nm b nm' :
  labrpc.is_enabled (labrpc.w_net (enable w nm b)) nm' =
    if decide (nm' = nm) then b else labrpc.is_enabled (labrpc.w_net w) nm'.
Proof.
  unfold labrpc.is_enabled, enable. simpl. destruct (decide _) as [->|Hne].
  - by rewrite lookup_insert_eq.
  - by rewrite lookup_insert_ne by done.
Qed.

Lemma enable_all_enabled names b w nm :
  labrpc.is_enabled (labrpc.w_net (enable_all names b w)) nm =
    if decide (nm ∈ (NStr <$> names)) then b else labrpc.is_enabled (labrpc.w_net w) nm.
Proof.
  unfold enable_all. revert w. induction names as [|s names IH]; intros w.
  - destruct (decide (nm ∈ (NStr <$> []))); [set_solver|done].
  - cbn [foldl]. rewrite IH, enable_is_enabled.
    assert (nm ∈ NStr <$> s :: names ↔ nm = NStr s ∨ nm ∈ NStr <$> names) as Hin
      by apply elem_of_cons.
    destruct (decide (nm ∈ NStr <$> names)), (decide (nm = NStr s)),
      (decide (nm ∈ NStr <$> s :: names)); tauto.
Qed.
End enable.

(** ** Pointers and servers *)
Section pointers.
Context {Cmd : Type}.

Lemma persister_at_Done (σ : app Cmd) s p : persister_at σ s = Done p ↔
  ∃ a, s = Some a ∧ ap_heap σ !! a = Some (OPersister p).
Proof.
  unfold persister_at, nil_pointer. split.
  - destruct s as [a|]; [|done]. intros Hp. exists a.
    by destruct (ap_heap σ !! a) as [[]|]; simplify_eq.
  - by intros (a & -> & ->).
Qed.

Lemma raft_at_Done (σ : app Cmd) s p rf ps : raft_at σ s = Done (p, rf, ps) ↔
  s = Some p ∧ ap_heap σ !! p = Some (ORaft rf ps).
Proof.
  unfold raft_at, nil_pointer. split.
  - destruct s as [a|]; [|done]. by destruct (ap_heap σ !! a) as [[]|] eqn:Ha; intros Hp; simplify_eq.
  - by intros [-> ->].
Qed.

Lemma server_at_insert (rn : Network) nm x nm' :
  labrpc.server_at (labrpc.with_servers rn (<[nm := x]> (labrpc.rn_servers rn))) nm' =
    if decide (nm' = nm) then x else labrpc.server_at rn nm'.
Proof.
  unfold labrpc.server_at. simpl. destruct (decide _) as [->|Hne].
  - by rewrite lookup_insert_eq.
  - by rewrite lookup_insert_ne by done.
Qed.

Lemma exists_cons {A} (P : A → Prop) x l : (∃ y, y ∈ x :: l ∧ P y) ↔ P x ∨ ∃ y, y ∈ l ∧ P y.
Proof.
  split.
  - intros (y & [->|Hy]%elem_of_cons & HP); [by left|right; by exists y].
  - intros [HP|(y & Hy & HP)]; [exists x|exists y]; rewrite elem_of_cons; auto.
Qed.

End pointers.

(** ** Results of concrete programs *)

Definition get {A} (d : A) (m : outcome A) : A := match m with Done a => a | _ => d end.
Definition is_done {A} (m : outcome A) : bool := match m with Done _ => true | _ => false end.
Lemma get_Done {A} (d : A) (m : outcome A) : is_done m = true → m = Done (get d m).
Proof. by destruct m. Qed.
