(* ===== verification/RaftConfig.v ===== *)
(** * The test harness of Raft (raft/config.go)

    The struct [config] and its methods, on the network of LabRpc.v and the heap
    of Harness.v.  A method whose receiver is changed takes and returns the
    config; [log.Fatalf] and [t.Fatal] are [Fatal], with a short form of the
    message.  The draws of [randstring] and of [rand] are arguments.

    Where a method releases the lock, sleeps, or calls into a peer, the other
    goroutines run: [env d] is what they do to the config while [d] milliseconds
    pass.  It is an arbitrary function; the theorems state what they need of
    it. *)

From S2P Require Import Prelude Persister Raft LabRpc Harness.
Open Scope Z_scope.

Module raftcfg.
Section raftcfg.
Context {Cmd : Type} `{EqDecision Cmd}.

(** [logs[i]] may be a nil map; a command is an interface, nil is [None]. *)
Notation logmap := (gmap Z (option Cmd)).

Record config := MkConfig {
  cf_failed : bool;                        (* [t.Failed()] *)
  cf_finished : Z;
  cf_w : world Cmd;                        (* [net], and the memory *)
  cf_n : nat;
  cf_rafts : list (option nat);
  cf_applyErr : list string;
  cf_connected : list bool;
  cf_saved : list (option nat);
  cf_endnames : list (option (list string));
  cf_logs : list (option logmap);
  cf_lastApplied : list Z;
  cf_start : Z;
  cf_t0 : Z;
  cf_rpcs0 : Z;
  cf_cmds0 : Z;
  cf_bytes0 : Z;
  cf_maxIndex : Z;
  cf_maxIndex0 : Z;
}.
Implicit Types c : config.

(** ** Assignments *)

Definition set_w w c := MkConfig (cf_failed c) (cf_finished c) w (cf_n c) (cf_rafts c)
  (cf_applyErr c) (cf_connected c) (cf_saved c) (cf_endnames c) (cf_logs c) (cf_lastApplied c)
  (cf_start c) (cf_t0 c) (cf_rpcs0 c) (cf_cmds0 c) (cf_bytes0 c) (cf_maxIndex c) (cf_maxIndex0 c).
Definition set_rafts x c := MkConfig (cf_failed c) (cf_finished c) (cf_w c) (cf_n c) x
  (cf_applyErr c) (cf_connected c) (cf_saved c) (cf_endnames c) (cf_logs c) (cf_lastApplied c)
  (cf_start c) (cf_t0 c) (cf_rpcs0 c) (cf_cmds0 c) (cf_bytes0 c) (cf_maxIndex c) (cf_maxIndex0 c).
Definition set_connected x c := MkConfig (cf_failed c) (cf_finished c) (cf_w c) (cf_n c) (cf_rafts c)
  (cf_applyErr c) x (cf_saved c) (cf_endnames c) (cf_logs c) (cf_lastApplied c)
  (cf_start c) (cf_t0 c) (cf_rpcs0 c) (cf_cmds0 c) (cf_bytes0 c) (cf_maxIndex c) (cf_maxIndex0 c).
Definition set_saved x c := MkConfig (cf_failed c) (cf_finished c) (cf_w c) (cf_n c) (cf_rafts c)
  (cf_applyErr c) (cf_connected c) x (cf_endnames c) (cf_logs c) (cf_lastApplied c)
  (cf_start c) (cf_t0 c) (cf_rpcs0 c) (cf_cmds0 c) (cf_bytes0 c) (cf_maxIndex c) (cf_maxIndex0 c).
Definition set_endnames x c := MkConfig (cf_failed c) (cf_finished c) (cf_w c) (cf_n c) (cf_rafts c)
  (cf_applyErr c) (cf_connected c) (cf_saved c) x (cf_logs c) (cf_lastApplied c)
  (cf_start c) (cf_t0 c) (cf_rpcs0 c) (cf_cmds0 c) (cf_bytes0 c) (cf_maxIndex c) (cf_maxIndex0 c).
Definition set_logs x c := MkConfig (cf_failed c) (cf_finished c) (cf_w c) (cf_n c) (cf_rafts c)
  (cf_applyErr c) (cf_connected c) (cf_saved c) (cf_endnames c) x (cf_lastApplied c)
  (cf_start c) (cf_t0 c) (cf_rpcs0 c) (cf_cmds0 c) (cf_bytes0 c) (cf_maxIndex c) (cf_maxIndex0 c).
Definition set_lastApplied x c := MkConfig (cf_failed c) (cf_finished c) (cf_w c) (cf_n c) (cf_rafts c)
  (cf_applyErr c) (cf_connected c) (cf_saved c) (cf_endnames c) (cf_logs c) x
  (cf_start c) (cf_t0 c) (cf_rpcs0 c) (cf_cmds0 c) (cf_bytes0 c) (cf_maxIndex c) (cf_maxIndex0 c).
Definition set_maxIndex x c := MkConfig (cf_failed c) (cf_finished c) (cf_w c) (cf_n c) (cf_rafts c)
  (cf_applyErr c) (cf_connected c) (cf_saved c) (cf_endnames c) (cf_logs c) (cf_lastApplied c)
  (cf_start c) (cf_t0 c) (cf_rpcs0 c) (cf_cmds0 c) (cf_bytes0 c) x (cf_maxIndex0 c).
Definition set_finished x c := MkConfig (cf_failed c) x (cf_w c) (cf_n c) (cf_rafts c)
  (cf_applyErr c) (cf_connected c) (cf_saved c) (cf_endnames c) (cf_logs c) (cf_lastApplied c)
  (cf_start c) (cf_t0 c) (cf_rpcs0 c) (cf_cmds0 c) (cf_bytes0 c) (cf_maxIndex c) (cf_maxIndex0 c).

Definition net c : Network := labrpc.w_net (cf_w c).
Definition mem c : app Cmd := labrpc.w_app (cf_w c).
Definition now c : Z := ap_now (mem c).
Definition set_net rn c : config := set_w (labrpc.with_net (cf_w c) rn) c.
Definition set_mem σ c : config := set_w (with_memory (cf_w c) σ) c.

(** ** Connecting and disconnecting peers *)

(** [for j := 0; j < cfg.n; j++] visits the peers [seq 0 n]; this is the loop
    over the outgoing ends of peer [i] in [connect]. *)
Fixpoint connect_out (i : Z) (js : list nat) c : outcome config :=
  match js with
  | [] => Done c
  | j :: js' =>
      let! con := idx (cf_connected c) (Z.of_nat j) in
      if (con : bool) then
        let! names := idx (cf_endnames c) i in
        let! endname := idx (default [] names) (Z.of_nat j) in
        connect_out i js' (set_w (enable (cf_w c) (NStr endname) true) c)
      else connect_out i js' c
  end.

Fixpoint connect_in (i : Z) (js : list nat) c : outcome config :=
  match js with
  | [] => Done c
  | j :: js' =>
      let! con := idx (cf_connected c) (Z.of_nat j) in
      if (con : bool) then
        let! names := idx (cf_endnames c) (Z.of_nat j) in
        let! endname := idx (default [] names) i in
        connect_in i js' (set_w (enable (cf_w c) (NStr endname) true) c)
      else connect_in i js' c
  end.

Definition connect (i : Z) c : outcome config :=
  let! con := set_idx (cf_connected c) i true in
  let c := set_connected con c in
  let! c := connect_out i (seq 0 (cf_n c)) c in
  connect_in i (seq 0 (cf_n c)) c.

Fixpoint disconnect_out (i : Z) (js : list nat) c : outcome config :=
  match js with
  | [] => Done c
  | j :: js' =>
      let! names := idx (cf_endnames c) i in
      match names with
      | Some names =>
          let! endname := idx names (Z.of_nat j) in
          disconnect_out i js' (set_w (enable (cf_w c) (NStr endname) false) c)
      | None => disconnect_out i js' c
      end
  end.

Fixpoint disconnect_in (i : Z) (js : list nat) c : outcome config :=
  match js with
  | [] => Done c
  | j :: js' =>
      let! names := idx (cf_endnames c) (Z.of_nat j) in
      match names with
      | Some names =>
          let! endname := idx names i in
          disconnect_in i js' (set_w (enable (cf_w c) (NStr endname) false) c)
      | None => disconnect_in i js' c
      end
  end.

Definition disconnect (i : Z) c : outcome config :=
  let! con := set_idx (cf_connected c) i false in
  let c := set_connected con c in
  let! c := disconnect_out i (seq 0 (cf_n c)) c in
  disconnect_in i (seq 0 (cf_n c)) c.

(** ** Crashing and starting peers *)

(** [cfg.saved[i] = cfg.saved[i].Copy()] *)
Definition copy_saved (i : Z) (ps : nat) c : outcome config :=
  let! '(ps', σ) := copy_persister (mem c) ps in
  let! saved := set_idx (cf_saved c) i (Some ps') in
  Done (set_saved saved (set_mem σ c)).

(** The last lines of [crash1]: a new persister with what [saved[i]] holds. *)
Definition renew_saved (i : Z) (ps : nat) c : outcome config :=
  let! p := persister_at (mem c) (Some ps) in
  let raftlog := persister.ReadRaftState p in
  let snapshot := persister.ReadSnapshot p in
  let '(ps', σ) := alloc (mem c) (OPersister (persister.Save (MkPersister None None) raftlog snapshot)) in
  let! saved := set_idx (cf_saved c) i (Some ps') in
  Done (set_saved saved (set_mem σ c)).

(** [crash1] from the lock on.  The code releases [cfg.mu] around [rf.Kill()],
    which only sets the flag that [killed] reads; the model runs the section
    without that gap. *)
Definition crash1_locked (i : Z) c : outcome config :=
  let! s := idx (cf_saved c) i in
  let! c := match s with Some ps => copy_saved i ps c | None => Done c end in
  let! rf := idx (cf_rafts c) i in
  let! c :=
    match rf with
    | Some _ =>
        let! σ := kill_raft (mem c) rf in
        let! rafts := set_idx (cf_rafts c) i None in
        Done (set_rafts rafts (set_mem σ c))
    | None => Done c
    end in
  let! s := idx (cf_saved c) i in
  match s with Some ps => renew_saved i ps c | None => Done c end.

Definition crash1 (i : Z) c : outcome config :=
  let! c := disconnect i c in
  crash1_locked i (set_w (delete_server (cf_w c) (NInt i)) c).

(** ** Watching what the peers apply *)

(** [cfg.logs[j][index]] with its [ok]; a nil map is empty. *)
Definition log_at c (j : nat) (index : Z) : outcome (option (option Cmd)) :=
  let! m := idx (cf_logs c) (Z.of_nat j) in
  Done (default ∅ m !! index).

(** The loop of [checkLogs]: the message of the last peer that disagrees. *)
Fixpoint checkLogs_loop c (index : Z) (v : option Cmd) (js : list nat) (err_msg : string)
    : outcome string :=
  match js with
  | [] => Done err_msg
  | j :: js' =>
      let! old := log_at c j index in
      match old with
      | Some old =>
          if negb (bool_decide (old = v)) then checkLogs_loop c index v js' "commit index != server"
          else checkLogs_loop c index v js' err_msg
      | None => checkLogs_loop c index v js' err_msg
      end
  end.

(** Writing to a nil map panics. *)
Definition checkLogs (i : Z) (m : ApplyMsg Cmd) c : outcome (string * bool * config) :=
  let v := am_Command m in
  let! err_msg := checkLogs_loop c (am_CommandIndex m) v (seq 0 (length (cf_logs c))) "" in
  let! l := idx (cf_logs c) i in
  let prevok := bool_decide (is_Some (default ∅ l !! (am_CommandIndex m - 1))) in
  match l with
  | None => Panic "assignment to entry in nil map"
  | Some l =>
      let! logs := set_idx (cf_logs c) i (Some (<[am_CommandIndex m := v]> l)) in
      let c := set_logs logs c in
      let c := if cf_maxIndex c <? am_CommandIndex m then set_maxIndex (am_CommandIndex m) c else c in
      Done (err_msg, prevok, c)
  end.

(** The body of the loop of [applier] on one message. *)
Definition applier_msg (i : Z) (m : ApplyMsg Cmd) c : outcome config :=
  if negb (am_CommandValid m) then Done c
  else
    let! '(err_msg, prevok, c) := checkLogs i m c in
    let err_msg := if (1 <? am_CommandIndex m) && negb prevok
                   then "server apply out of order" else err_msg in
    if negb (String.eqb err_msg "") then Fatal ("apply error: " +:+ err_msg)
    else Done c.

(** [for m := range applyCh] over the messages so far. *)
Fixpoint applier (i : Z) (ms : list (ApplyMsg Cmd)) c : outcome config :=
  match ms with
  | [] => Done c
  | m :: ms' => let! c := applier_msg i m c in applier i ms' c
  end.

(** ** Snapshots

    [snap_decode] are the two [Decode]s of [ingestSnap], [snap_encode] the two
    [Encode]s of [applierSnap], both of encoding/gob behind labgob. *)
Section snapshots.
Variable snap_decode : list Z → option (Z * list (option Cmd)).
Variable snap_encode : Z → list (option Cmd) → list Z.

(** [for j := 0; j < len(xlog); j++ { cfg.logs[i][j] = xlog[j] }] *)
Definition log_of (xlog : list (option Cmd)) : logmap :=
  foldl (λ l '(j, x), <[Z.of_nat j := x]> l) ∅ (imap pair xlog).

Definition ingestSnap (i : Z) (snapshot : option (list Z)) (index : Z) c : outcome (string * config) :=
  match snapshot with
  | None => Fatal "nil snapshot"
  | Some b =>
      match snap_decode b with
      | None => Fatal "snapshot decode error"
      | Some (lastIncludedIndex, xlog) =>
          if negb (index =? -1) && negb (index =? lastIncludedIndex)
          then Done ("server snapshot doesn't match m.SnapshotIndex", c)
          else
            let! logs := set_idx (cf_logs c) i (Some (log_of xlog)) in
            let! la := set_idx (cf_lastApplied c) i lastIncludedIndex in
            Done ("", set_lastApplied la (set_logs logs c))
      end
  end.

Definition SnapShotInterval : Z := 10.

(** The log that [applierSnap] puts into a snapshot at [index]. *)
Definition snap_log (l : logmap) (index : Z) : list (option Cmd) :=
  (λ j, default None (l !! j)) <$> seqZ 0 (index + 1).

(** The body of the loop of [applierSnap]; [rf] is the peer it read before. *)
Definition applierSnap_msg (rf : nat) (i : Z) (m : ApplyMsg Cmd) c : outcome config :=
  let! '(err_msg, c) :=
    (if am_SnapshotValid m then ingestSnap i (am_Snapshot m) (am_SnapshotIndex m) c
     else if am_CommandValid m then
       let! la := idx (cf_lastApplied c) i in
       let! '(err_msg, c) :=
         (if negb (am_CommandIndex m =? la + 1) then Done ("server apply out of order, expected", c)
          else
            let! '(err_msg, prevok, c) := checkLogs i m c in
            Done (if (1 <? am_CommandIndex m) && negb prevok
                  then "server apply out of order" else err_msg, c)) in
       let! la := set_idx (cf_lastApplied c) i (am_CommandIndex m) in
       let c := set_lastApplied la c in
       if Z.rem (am_CommandIndex m + 1) SnapShotInterval =? 0 then
         let! l := idx (cf_logs c) i in
         let xlog := snap_log (default ∅ l) (am_CommandIndex m) in
         let! '(p, r, ps) := raft_at (mem c) (Some rf) in
         let r := raft.Snapshot r (am_CommandIndex m) (Some (snap_encode (am_CommandIndex m) xlog)) in
         Done (err_msg, set_mem (store (mem c) p (ORaft r ps)) c)
       else Done (err_msg, c)
     else Done ("", c)) in
  if negb (String.eqb err_msg "") then Fatal ("apply error: " +:+ err_msg)
  else Done c.

Fixpoint applierSnap_loop (rf : nat) (i : Z) (ms : list (ApplyMsg Cmd)) c : outcome config :=
  match ms with
  | [] => Done c
  | m :: ms' => let! c := applierSnap_msg rf i m c in applierSnap_loop rf i ms' c
  end.

Definition applierSnap (i : Z) (ms : list (ApplyMsg Cmd)) c : outcome config :=
  let! rf := idx (cf_rafts c) i in
  match rf with
  | None => Done c
  | Some rf => applierSnap_loop rf i ms c
  end.

(** ** Starting a peer

    [names] are the draws of [randstring(20)], one for each peer. *)

(** The loop that makes and connects the ends. *)
Fixpoint start1_ends (i : Z) (js : list nat) c : outcome config :=
  match js with
  | [] => Done c
  | j :: js' =>
      let! names := idx (cf_endnames c) i in
      let! endname := idx (default [] names) (Z.of_nat j) in
      let! '(w, _) := Harness.make_end (cf_w c) (NStr endname) (NInt (Z.of_nat j)) in
      start1_ends i js' (set_w w c)
  end.

(** The persister for the new instance. *)
Definition start1_saved (i : Z) c : outcome config :=
  let! s := idx (cf_saved c) i in
  match s with
  | Some ps =>
      let! c := copy_saved i ps c in
      let! s := idx (cf_saved c) i in
      let! p := persister_at (mem c) s in
      let snapshot := persister.ReadSnapshot p in
      if negb (bool_decide (snapshot = None)) && (0 <? blen snapshot) then
        let! '(err, c) := ingestSnap i snapshot (-1) c in
        if negb (String.eqb err "") then Fatal err else Done c
      else Done c
  | None =>
      let '(ps', σ) := alloc (mem c) (OPersister persister.MakePersister) in
      let! saved := set_idx (cf_saved c) i (Some ps') in
      Done (set_saved saved (set_mem σ c))
  end.

(** [start1] from the first lock to [cfg.rafts[i] = rf]; the address of the new
    peer is also returned. *)
Definition start1_make (i : Z) c : outcome (config * nat) :=
  let! la := set_idx (cf_lastApplied c) i 0 in
  let c := set_lastApplied la c in
  let! c := start1_saved i c in
  let! s := idx (cf_saved c) i in
  match s with
  | None => nil_pointer
  | Some ps =>
      let! '(rf, σ) := make_raft (mem c) (cf_n c) i ps in
      let c := set_mem σ c in
      let! rafts := set_idx (cf_rafts c) i (Some rf) in
      Done (set_rafts rafts c, rf)
  end.

Definition start1 (i : Z) (names : nat → string) c : outcome config :=
  let! c := crash1 i c in
  let! ens := set_idx (cf_endnames c) i (Some (names <$> seq 0 (cf_n c))) in
  let c := set_endnames ens c in
  let! c := start1_ends i (seq 0 (cf_n c)) c in
  let! '(c, rf) := start1_make i c in
  let! svc := labrpc.MakeService (raft_receiver rf) in
  Done (set_w (add_server (cf_w c) (NInt i) [svc]) c).

(** ** Building the cluster *)

Definition setunreliable (unrel : bool) c : config := set_net (labrpc.Reliable (net c) (negb unrel)) c.

(** The config before the first peer is started; [w] has a fresh network. *)
Definition new_config (w : world Cmd) (n : nat) : config :=
  MkConfig false 0 (labrpc.with_net w labrpc.MakeNetwork) n (replicate n None) (replicate n "")
    (replicate n false) (replicate n None) (replicate n None) (replicate n None) (replicate n 0)
    (ap_now (labrpc.w_app w)) 0 0 0 0 0 0.

(** [names i] are the draws for peer [i]. *)
Fixpoint start_all (names : nat → nat → string) (ids : list nat) c : outcome config :=
  match ids with
  | [] => Done c
  | i :: ids' =>
      let! logs := set_idx (cf_logs c) (Z.of_nat i) (Some ∅) in
      let! c := start1 (Z.of_nat i) (names i) (set_logs logs c) in
      start_all names ids' c
  end.

Fixpoint connect_all (ids : list nat) c : outcome config :=
  match ids with
  | [] => Done c
  | i :: ids' => let! c := connect (Z.of_nat i) c in connect_all ids' c
  end.

Definition make_config (w : world Cmd) (n : nat) (unreliable : bool) (names : nat → nat → string)
    : outcome config :=
  let c := setunreliable unreliable (new_config w n) in
  let c := set_net (labrpc.LongDelays (net c) true) c in
  let! c := start_all names (seq 0 n) c in
  connect_all (seq 0 n) c.

End snapshots.

(** ** Statistics and the end of a test *)

Definition checkTimeout c : outcome unit :=
  if negb (cf_failed c) && (120 * 1000 <? now c - cf_start c)
  then Fatal "test took longer than 120 seconds" else Done tt.

Definition checkFinished c : bool := negb (cf_finished c =? 0).

(** [for i := 0; i < len(cfg.rafts); i++ { if ... != nil { cfg.rafts[i].Kill() } }] *)
Fixpoint kill_all (ids : list nat) c : outcome config :=
  match ids with
  | [] => Done c
  | i :: ids' =>
      let! rf := idx (cf_rafts c) (Z.of_nat i) in
      match rf with
      | Some _ => let! σ := kill_raft (mem c) rf in kill_all ids' (set_mem σ c)
      | None => kill_all ids' c
      end
  end.

Definition cleanup c : outcome config :=
  let c := set_finished 1 c in
  let! c := kill_all (seq 0 (length (cf_rafts c))) c in
  let! rn := labrpc.Cleanup (net c) in
  let c := set_net rn c in
  let! _ := checkTimeout c in
  Done c.

Definition rpcCount c (server : Z) : outcome Z :=
  labrpc.GetCount (net c) (labrpc.w_store (cf_w c)) (NInt server).
Definition rpcTotal c : Z := labrpc.GetTotalCount (net c).
Definition bytesTotal c : Z := labrpc.GetTotalBytes (net c).
Definition setlongreordering (longrel : bool) c : config :=
  set_net (labrpc.LongReordering (net c) longrel) c.

Definition begin c : config :=
  MkConfig (cf_failed c) (cf_finished c) (cf_w c) (cf_n c) (cf_rafts c)
    (cf_applyErr c) (cf_connected c) (cf_saved c) (cf_endnames c) (cf_logs c) (cf_lastApplied c)
    (cf_start c) (now c) (rpcTotal c) 0 (bytesTotal c) (cf_maxIndex c) (cf_maxIndex c).

(** The numbers printed by [end]: time, peers, RPCs, bytes and agreements. *)
Definition end_ c : outcome (option (Z * nat * Z * Z * Z)) :=
  let! _ := checkTimeout c in
  if negb (cf_failed c) then
    Done (Some (now c - cf_t0 c, cf_n c, rpcTotal c - cf_rpcs0 c, bytesTotal c - cf_bytes0 c,
                cf_maxIndex c - cf_maxIndex0 c))
  else Done None.

Fixpoint LogSize_loop c (ids : list nat) (logsize : Z) : outcome Z :=
  match ids with
  | [] => Done logsize
  | i :: ids' =>
      let! s := idx (cf_saved c) (Z.of_nat i) in
      let! p := persister_at (mem c) s in
      let n := persister.RaftStateSize p in
      LogSize_loop c ids' (if logsize <? n then n else logsize)
  end.

Definition LogSize c : outcome Z := LogSize_loop c (seq 0 (cf_n c)) 0.

(** ** Asking the peers *)
Section observers.
Variable env : Z → config → config.

(** The inner loop of [checkOneLeader]; the lock of every peer is taken at a
    different time. *)
Fixpoint collect_leaders (ids : list nat) (leaders : gmap Z (list Z)) c
    : outcome (config * gmap Z (list Z)) :=
  match ids with
  | [] => Done (c, leaders)
  | i :: ids' =>
      let! con := idx (cf_connected c) (Z.of_nat i) in
      if (con : bool) then
        let! rf := idx (cf_rafts c) (Z.of_nat i) in
        let c := env 0 c in
        let! '(term, leader) := get_state (mem c) rf in
        collect_leaders ids'
          (if (leader : bool)
           then <[term := default [] (leaders !! term) ++ [Z.of_nat i]]> leaders else leaders) c
      else collect_leaders ids' leaders c
  end.

(** The loop over the map [leaders]; its order only decides which term the
    message names. *)
Fixpoint last_term (entries : list (Z * list Z)) (lastTermWithLeader : Z) : outcome Z :=
  match entries with
  | [] => Done lastTermWithLeader
  | (term, leaders) :: entries' =>
      if 1 <? zlen leaders then Fatal "term has (>1) leaders"
      else last_term entries' (if lastTermWithLeader <? term then term else lastTermWithLeader)
  end.

(** [draws] are the values of [rand.Int63()], one for each of the ten rounds. *)
Fixpoint checkOneLeader_loop (draws : list Z) c : outcome (config * Z) :=
  match draws with
  | [] => Fatal "expected one leader, got none"
  | r :: draws' =>
      let c := env (450 + Z.rem r 100) c in
      let! '(c, leaders) := collect_leaders (seq 0 (cf_n c)) ∅ c in
      let! lastTermWithLeader := last_term (map_to_list leaders) (-1) in
      if negb (Z.of_nat (size leaders) =? 0) then
        let! i := idx (default [] (leaders !! lastTermWithLeader)) 0 in
        Done (c, i)
      else checkOneLeader_loop draws' c
  end.

Definition checkOneLeader (rand : nat → Z) c : outcome (config * Z) :=
  checkOneLeader_loop (rand <$> seq 0 10) c.

Fixpoint checkTerms_loop (ids : list nat) (term : Z) c : outcome (config * Z) :=
  match ids with
  | [] => Done (c, term)
  | i :: ids' =>
      let! con := idx (cf_connected c) (Z.of_nat i) in
      if (con : bool) then
        let! rf := idx (cf_rafts c) (Z.of_nat i) in
        let c := env 0 c in
        let! '(xterm, _) := get_state (mem c) rf in
        if term =? -1 then checkTerms_loop ids' xterm c
        else if negb (term =? xterm) then Fatal "servers disagree on term"
        else checkTerms_loop ids' term c
      else checkTerms_loop ids' term c
  end.

Definition checkTerms c : outcome (config * Z) := checkTerms_loop (seq 0 (cf_n c)) (-1) c.

Fixpoint checkNoLeader_loop (ids : list nat) c : outcome config :=
  match ids with
  | [] => Done c
  | i :: ids' =>
      let! con := idx (cf_connected c) (Z.of_nat i) in
      if (con : bool) then
        let! rf := idx (cf_rafts c) (Z.of_nat i) in
        let c := env 0 c in
        let! '(_, is_leader) := get_state (mem c) rf in
        if (is_leader : bool) then Fatal "expected no leader among connected servers"
        else checkNoLeader_loop ids' c
      else checkNoLeader_loop ids' c
  end.

Definition checkNoLeader c : outcome config := checkNoLeader_loop (seq 0 (cf_n c)) c.

(** The loop of [nCommitted], which takes [cfg.mu] for every peer anew. *)
Fixpoint nCommitted_loop (index : Z) (ids : list nat) (count : Z) (cmd : option Cmd) c
    : outcome (config * (Z * option Cmd)) :=
  match ids with
  | [] => Done (c, (count, cmd))
  | i :: ids' =>
      let! err := idx (cf_applyErr c) (Z.of_nat i) in
      if negb (String.eqb err "") then Fatal err
      else
        let c := env 0 c in
        let! cmd1 := log_at c i index in
        match cmd1 with
        | Some cmd1 =>
            if (0 <? count) && negb (bool_decide (cmd = cmd1))
            then Fatal "committed values do not match"
            else nCommitted_loop index ids' (count + 1) cmd1 c
        | None => nCommitted_loop index ids' count cmd c
        end
  end.

Definition nCommitted (index : Z) c : outcome (config * (Z * option Cmd)) :=
  nCommitted_loop index (seq 0 (length (cf_rafts c))) 0 None c.

(** [for _, r := range cfg.rafts { if t, _ := r.GetState(); t > startTerm ... }] *)
Fixpoint moved_on (startTerm : Z) (ids : list nat) c : outcome (config * bool) :=
  match ids with
  | [] => Done (c, false)
  | i :: ids' =>
      let! r := idx (cf_rafts c) (Z.of_nat i) in
      let c := env 0 c in
      let! '(t, _) := get_state (mem c) r in
      if startTerm <? t then Done (c, true) else moved_on startTerm ids' c
  end.

(** The loop of [wait] with the rounds left; the flag is its early return. *)
Fixpoint wait_loop (iters : nat) (to index n startTerm : Z) c : outcome (config * bool) :=
  match iters with
  | O => Done (c, false)
  | S iters' =>
      let! '(c, (nd, _)) := nCommitted index c in
      if n <=? nd then Done (c, false)
      else
        let c := env to c in
        let to := if to <? 1000 then to * 2 else to in
        if -1 <? startTerm then
          let! '(c, moved) := moved_on startTerm (seq 0 (length (cf_rafts c))) c in
          if (moved : bool) then Done (c, true) else wait_loop iters' to index n startTerm c
        else wait_loop iters' to index n startTerm c
  end.

(** The result of [wait] is the interface holding the int -1, or a command. *)
Inductive wait_result := MinusOne | TheCommand (cmd : option Cmd).

Definition wait (index n startTerm : Z) c : outcome (config * wait_result) :=
  let! '(c, moved) := wait_loop 30 10 index n startTerm c in
  if (moved : bool) then Done (c, MinusOne)
  else
    let! '(c, (nd, cmd)) := nCommitted index c in
    if nd <? n then Fatal "only some decided; wanted more" else Done (c, TheCommand cmd).

(** [rf.Start(cmd)] *)
Definition start_cmd (p : nat) (cmd : option Cmd) c : outcome (config * (Z * Z * bool)) :=
  let! '(p, rf, ps) := raft_at (mem c) (Some p) in
  let '(rf', r) := raft.Start rf cmd in
  Done (set_mem (store (mem c) p (ORaft rf' ps)) c, r).

(** The loop over the servers in [one]: the new [starts] and the [index]. *)
Fixpoint one_try (si : nat) (starts : Z) (cmd : option Cmd) c : outcome (config * (Z * Z)) :=
  match si with
  | O => Done (c, (starts, -1))
  | S si' =>
      let starts := Z.rem (starts + 1) (Z.of_nat (cf_n c)) in
      let c := env 0 c in
      let! con := idx (cf_connected c) starts in
      let! rf := (if (con : bool) then idx (cf_rafts c) starts else Done None) in
      match rf with
      | Some p =>
          let c := env 0 c in
          let! '(c, (index1, _, ok)) := start_cmd p cmd c in
          if (ok : bool) then Done (c, (starts, index1)) else one_try si' starts cmd c
      | None => one_try si' starts cmd c
      end
  end.

(** How the two loops of [one] end: with a value, or by running out of fuel. *)
Inductive result (A : Type) := Ended (a : A) | NoFuel.
Arguments Ended {A} a.
Arguments NoFuel {A}.

(** The loop that waits two seconds for the agreement. *)
Fixpoint one_poll (fuel : nat) (t1 index : Z) (cmd : option Cmd) (expectedServers : Z) c
    : outcome (config * result bool) :=
  match fuel with
  | O => Done (c, NoFuel)
  | S fuel' =>
      if now c - t1 <? 2 * 1000 then
        let! '(c, (nd, cmd1)) := nCommitted index c in
        if (0 <? nd) && (expectedServers <=? nd) && bool_decide (cmd1 = cmd)
        then Done (c, Ended true)
        else one_poll fuel' t1 index cmd expectedServers (env 20 c)
      else Done (c, Ended false)
  end.

(** The outer loop of [one]. *)
Fixpoint one_loop (fuel pfuel : nat) (t0 starts : Z) (cmd : option Cmd) (expectedServers : Z)
    (retry : bool) c : outcome (config * result Z) :=
  match fuel with
  | O => Done (c, NoFuel)
  | S fuel' =>
      if (now c - t0 <? 10 * 1000) && negb (checkFinished c) then
        let! '(c, (starts, index)) := one_try (cf_n c) starts cmd c in
        if negb (index =? -1) then
          let! '(c, r) := one_poll pfuel (now c) index cmd expectedServers c in
          match r with
          | NoFuel => Done (c, NoFuel)
          | Ended true => Done (c, Ended index)
          | Ended false =>
              if negb retry then Fatal "one() failed to reach agreement"
              else one_loop fuel' pfuel t0 starts cmd expectedServers retry c
          end
        else one_loop fuel' pfuel t0 starts cmd expectedServers retry (env 50 c)
      else if negb (checkFinished c) then Fatal "one() failed to reach agreement"
      else Done (c, Ended (-1))
  end.

Definition one (fuel pfuel : nat) (cmd : option Cmd) (expectedServers : Z) (retry : bool) c
    : outcome (config * result Z) :=
  one_loop fuel pfuel (now c) 0 cmd expectedServers retry c.

End observers.
End raftcfg.
Arguments config : clear implicits.
Arguments Ended {A} a.
Arguments NoFuel {A}.
End raftcfg.
