(* ===== verification/RaftConfigFacts.v ===== *)
(** * The connections and persisters that the Raft harness keeps

    Invariants of raft/config.go over every sequence of [connect],
    [disconnect], [crash1] and [start1], with the other goroutines running in
    between: which ends are enabled, where they lead, and which persister an
    instance of a peer can write. *)

From S2P Require Import Prelude Persister Raft LabRpc Harness HarnessFacts RaftConfig.
Import raftcfg.
Open Scope Z_scope.

Section facts.
Context {Cmd : Type} `{EqDecision Cmd}.
Implicit Types c : config Cmd.

(** The name of the end from peer [i] to peer [j]. *)
Definition end_of c (i j : nat) : option string :=
  names ← mjoin (cf_endnames c !! i); names !! j.

Definition is_connected c (i : nat) : Prop := cf_connected c !! i = Some true.

Lemma idx_endnames c i names : idx (cf_endnames c) i = Done (Some names) →
  ∀ j, end_of c (Z.to_nat i) j = names !! j.
Proof. intros [_ Hi]%idx_Done j. unfold end_of. by rewrite Hi. Qed.

Lemma idx_endnames_default c i names j s : idx (cf_endnames c) i = Done names →
  idx (default [] names) j = Done s → end_of c (Z.to_nat i) (Z.to_nat j) = Some s.
Proof.
  intros Hi [_ Hj]%idx_Done. destruct names as [names|]; [|done].
  by rewrite (idx_endnames _ _ _ Hi).
Qed.

(** The four loops enable or disable exactly the ends they name. *)
Definition switches (P : string → Prop) (b : bool) c c' : Prop :=
  ∃ names, c' = set_w (enable_all names b (cf_w c)) c ∧ ∀ s, s ∈ names ↔ P s.

Lemma switches_nil (P : string → Prop) b c : (∀ s, ¬ P s) → switches P b c c.
Proof. intros HP. exists []. split; [by destruct c|]. intros s. split; [set_solver|by intros ?%HP]. Qed.

Lemma switches_skip (P Q : string → Prop) b c c' :
  switches P b c c' → (∀ s, P s ↔ Q s) → switches Q b c c'.
Proof. intros (ns & -> & Hn) HPQ. exists ns. split; [done|]. intros s. by rewrite Hn. Qed.

Lemma switches_cons (P Q : string → Prop) b c c' s0 :
  switches P b (set_w (enable (cf_w c) (NStr s0) b) c) c' →
  (∀ s, Q s ↔ s = s0 ∨ P s) → switches Q b c c'.
Proof.
  intros (ns & -> & Hn) HQ. exists (s0 :: ns). split; [done|].
  intros s. rewrite elem_of_cons, HQ, Hn. done.
Qed.

Lemma switches_trans (P Q R : string → Prop) b c c1 c2 :
  switches P b c c1 → switches Q b c1 c2 → (∀ s, R s ↔ P s ∨ Q s) → switches R b c c2.
Proof.
  intros (n1 & -> & H1) (n2 & -> & H2) HR. exists (n1 ++ n2). split.
  - unfold enable_all. simpl. by rewrite foldl_app.
  - intros s. rewrite elem_of_app, HR, H1, H2. done.
Qed.

(** One round of a loop: the end of [j] is switched, or there is none. *)
Lemma switches_round (A : nat → string → Prop) b c c' j js s0 :
  switches (λ s, ∃ j, j ∈ js ∧ A j s) b (set_w (enable (cf_w c) (NStr s0) b) c) c' →
  (∀ s, A j s ↔ s = s0) → switches (λ s, ∃ j', j' ∈ j :: js ∧ A j' s) b c c'.
Proof. intros Hs HA. eapply switches_cons; [done|]. intros s. by rewrite exists_cons, HA. Qed.

Lemma switches_pass (A : nat → string → Prop) b c c' j js :
  switches (λ s, ∃ j, j ∈ js ∧ A j s) b c c' →
  (∀ s, ¬ A j s) → switches (λ s, ∃ j', j' ∈ j :: js ∧ A j' s) b c c'.
Proof.
  intros Hs HA. eapply switches_skip; [done|]. intros s. rewrite exists_cons.
  specialize (HA s). tauto.
Qed.

Lemma connect_out_spec i js : ∀ c c', connect_out i js c = Done c' →
  switches (λ s, ∃ j, j ∈ js ∧ is_connected c j ∧ end_of c (Z.to_nat i) j = Some s) true c c'.
Proof.
  induction js as [|j js IH]; intros c c' Hc; simpl in Hc; go_inv.
  - apply switches_nil. by intros s (j & Hj%elem_of_nil & _).
  - eapply (switches_round (λ j s, is_connected c j ∧ end_of c (Z.to_nat i) j = Some s));
      [exact (IH _ _ Hc)|]. apply idx_Done in Hx as [_ Hx].
    pose proof (idx_endnames_default _ _ _ _ _ Hx0 Hx1) as He. rewrite Nat2Z.id in He, Hx.
    intros s. unfold is_connected. rewrite He, Hx. split; [by intros [_ [= ->]]|by intros ->].
  - eapply switches_pass; [by apply IH|]. apply idx_Done in Hx as [_ Hx]. rewrite Nat2Z.id in Hx.
    intros s [Hs _]. unfold is_connected in Hs. congruence.
Qed.

Lemma connect_in_spec i js : ∀ c c', connect_in i js c = Done c' →
  switches (λ s, ∃ j, j ∈ js ∧ is_connected c j ∧ end_of c j (Z.to_nat i) = Some s) true c c'.
Proof.
  induction js as [|j js IH]; intros c c' Hc; simpl in Hc; go_inv.
  - apply switches_nil. by intros s (j & Hj%elem_of_nil & _).
  - eapply (switches_round (λ j s, is_connected c j ∧ end_of c j (Z.to_nat i) = Some s));
      [exact (IH _ _ Hc)|]. apply idx_Done in Hx as [_ Hx].
    pose proof (idx_endnames_default _ _ _ _ _ Hx0 Hx1) as He. rewrite Nat2Z.id in He, Hx.
    intros s. unfold is_connected. rewrite He, Hx. split; [by intros [_ [= ->]]|by intros ->].
  - eapply switches_pass; [by apply IH|]. apply idx_Done in Hx as [_ Hx]. rewrite Nat2Z.id in Hx.
    intros s [Hs _]. unfold is_connected in Hs. congruence.
Qed.

Lemma disconnect_out_spec i js : ∀ c c', disconnect_out i js c = Done c' →
  switches (λ s, ∃ j, j ∈ js ∧ end_of c (Z.to_nat i) j = Some s) false c c'.
Proof.
  induction js as [|j js IH]; intros c c' Hc; simpl in Hc; go_inv.
  - apply switches_nil. by intros s (j & Hj%elem_of_nil & _).
  - destruct x as [names|]; go_inv.
    + eapply (switches_round (λ j s, end_of c (Z.to_nat i) j = Some s)); [exact (IH _ _ Hc)|].
      pose proof (idx_endnames_default _ _ _ _ _ Hx Hx0) as He. rewrite Nat2Z.id in He.
      intros s. rewrite He. split; [by intros [= ->]|by intros ->].
    + eapply switches_pass; [by apply IH|]. apply idx_Done in Hx as [_ Hx].
      intros s. unfold end_of. by rewrite Hx.
Qed.

Lemma disconnect_in_spec i js : ∀ c c', disconnect_in i js c = Done c' →
  switches (λ s, ∃ j, j ∈ js ∧ end_of c j (Z.to_nat i) = Some s) false c c'.
Proof.
  induction js as [|j js IH]; intros c c' Hc; simpl in Hc; go_inv.
  - apply switches_nil. by intros s (j & Hj%elem_of_nil & _).
  - destruct x as [names|]; go_inv.
    + eapply (switches_round (λ j s, end_of c j (Z.to_nat i) = Some s)); [exact (IH _ _ Hc)|].
      pose proof (idx_endnames_default _ _ _ _ _ Hx Hx0) as He. rewrite Nat2Z.id in He.
      intros s. rewrite He. split; [by intros [= ->]|by intros ->].
    + eapply switches_pass; [by apply IH|]. apply idx_Done in Hx as [_ Hx]. rewrite Nat2Z.id in Hx.
      intros s. unfold end_of. by rewrite Hx.
Qed.

Lemma connect_spec i c c' : connect i c = Done c' → (0 ≤ i < zlen (cf_connected c)) ∧
  let c1 := set_connected (<[Z.to_nat i := true]> (cf_connected c)) c in
  switches (λ s, ∃ j, (j < cf_n c)%nat ∧ is_connected c1 j ∧
    (end_of c (Z.to_nat i) j = Some s ∨ end_of c j (Z.to_nat i) = Some s)) true c1 c'.
Proof.
  unfold connect. intros Hc. go_inv. apply set_idx_Done in Hx as [Hi ->]. split; [done|]. simpl.
  apply connect_out_spec in Hx0. pose proof Hx0 as (ns & -> & _). apply connect_in_spec in Hc.
  eapply switches_trans; [exact Hx0|exact Hc|]. intros s. simpl.
  setoid_rewrite elem_of_seq. unfold is_connected, end_of. simpl. split.
  - intros (j & Hj & Hc1 & [He|He]); [left|right]; exists j; split_and!; (done || lia).
  - intros [(j & Hj & Hc1 & He)|(j & Hj & Hc1 & He)]; exists j; split_and!; [lia|done|auto..|lia|done|auto].
Qed.

Lemma disconnect_spec i c c' : disconnect i c = Done c' → (0 ≤ i < zlen (cf_connected c)) ∧
  let c1 := set_connected (<[Z.to_nat i := false]> (cf_connected c)) c in
  switches (λ s, ∃ j, (j < cf_n c)%nat ∧
    (end_of c (Z.to_nat i) j = Some s ∨ end_of c j (Z.to_nat i) = Some s)) false c1 c'.
Proof.
  unfold disconnect. intros Hc. go_inv. apply set_idx_Done in Hx as [Hi ->]. split; [done|]. simpl.
  apply disconnect_out_spec in Hx0. pose proof Hx0 as (ns & -> & _). apply disconnect_in_spec in Hc.
  eapply switches_trans; [exact Hx0|exact Hc|]. intros s. simpl.
  setoid_rewrite elem_of_seq. unfold end_of. simpl. split.
  - intros (j & Hj & [He|He]); [left|right]; exists j; split_and!; (done || lia).
  - intros [(j & Hj & He)|(j & Hj & He)]; exists j; split_and!; [lia|auto|lia|auto].
Qed.

(** ** Which ends are enabled *)

Record net_inv c : Prop := {
  ni_connected : length (cf_connected c) = cf_n c;
  ni_endnames : length (cf_endnames c) = cf_n c;
  ni_row i names : cf_endnames c !! i = Some (Some names) → length names = cf_n c;
  ni_inj i j i' j' s : end_of c i j = Some s → end_of c i' j' = Some s → i = i' ∧ j = j';
  ni_known i j s : end_of c i j = Some s → is_Some (labrpc.rn_ends (net c) !! NStr s);
  ni_to i j s : end_of c i j = Some s →
    labrpc.rn_connections (net c) !! NStr s = Some (Some (NInt (Z.of_nat j)));
  ni_started i : is_connected c i → ∃ names, cf_endnames c !! i = Some (Some names);
  ni_enabled nm : labrpc.is_enabled (net c) nm = true ↔
    ∃ i j s, nm = NStr s ∧ end_of c i j = Some s ∧ is_connected c i ∧ is_connected c j;
}.

Lemma end_of_lt c i j s : net_inv c → end_of c i j = Some s → (i < cf_n c)%nat ∧ (j < cf_n c)%nat.
Proof.
  intros Hi. unfold end_of. destruct (cf_endnames c !! i) as [[names|]|] eqn:He; [|done..].
  simpl. intros Hj%lookup_lt_Some. apply (ni_row _ Hi) in He as Hl.
  apply lookup_lt_Some in He. rewrite (ni_endnames _ Hi) in He. lia.
Qed.

(** What the invariant depends on. *)
Lemma net_inv_ext c c' : net_inv c → cf_n c' = cf_n c → cf_connected c' = cf_connected c →
  cf_endnames c' = cf_endnames c → labrpc.rn_ends (net c') = labrpc.rn_ends (net c) →
  labrpc.rn_enabled (net c') = labrpc.rn_enabled (net c) →
  labrpc.rn_connections (net c') = labrpc.rn_connections (net c) → net_inv c'.
Proof.
  intros [] Hn Hc He Hends Hen Hcon. unfold end_of, is_connected, labrpc.is_enabled in *.
  split; unfold end_of, is_connected, labrpc.is_enabled; rewrite ?Hn, ?Hc, ?He, ?Hends, ?Hen, ?Hcon;
    assumption.
Qed.

Lemma connect_out_started i js : ∀ c c', connect_out i js c = Done c' →
  ∀ j, j ∈ js → is_connected c j → ∃ names, cf_endnames c !! Z.to_nat i = Some (Some names).
Proof.
  induction js as [|j js IH]; intros c c' Hc j0 Hj0 Hcon; [by apply elem_of_nil in Hj0|].
  simpl in Hc. go_inv.
  - apply idx_Done in Hx0 as [_ Hx0]. destruct x0 as [names|]; [by exists names|].
    by apply idx_Done in Hx1 as [_ ?].
  - apply idx_Done in Hx as [_ Hx]. rewrite Nat2Z.id in Hx.
    apply elem_of_cons in Hj0 as [->|Hj0]; [unfold is_connected in Hcon; congruence|].
    by apply (IH _ _ Hc j0).
Qed.

Lemma connect_started i c c' : length (cf_connected c) = cf_n c → connect i c = Done c' →
  ∃ names, cf_endnames c !! Z.to_nat i = Some (Some names).
Proof.
  unfold connect. intros Hl Hc. go_inv. apply set_idx_Done in Hx as [Hi ->].
  unfold zlen in Hi. eapply (connect_out_started _ _ _ _ Hx0 (Z.to_nat i)); simpl.
  - apply elem_of_seq. lia.
  - unfold is_connected. simpl. apply list_lookup_insert_eq. lia.
Qed.

Lemma is_connected_insert c i b j : is_connected (set_connected (<[i := b]> (cf_connected c)) c) j ↔
  (i = j ∧ b = true ∧ (i < length (cf_connected c))%nat) ∨ (i ≠ j ∧ is_connected c j).
Proof.
  unfold is_connected. simpl. destruct (decide (i = j)) as [->|Hne].
  - destruct (decide (j < length (cf_connected c))%nat).
    + rewrite list_lookup_insert_eq by done. naive_solver.
    + rewrite list_insert_ge, lookup_ge_None_2 by lia. naive_solver.
  - rewrite list_lookup_insert_ne by done. naive_solver.
Qed.

Lemma switches_enabled (P : string → Prop) b c c' nm : switches P b c c' →
  (∃ s, nm = NStr s ∧ P s ∧ labrpc.is_enabled (net c') nm = b) ∨
  ((∀ s, nm = NStr s → ¬ P s) ∧ labrpc.is_enabled (net c') nm = labrpc.is_enabled (net c) nm).
Proof.
  intros (ns & -> & Hns). unfold net. simpl. rewrite enable_all_enabled.
  destruct (decide _) as [Hin|Hno].
  - left. apply list_elem_of_fmap in Hin as (s & -> & Hs). exists s. by rewrite <- Hns.
  - right. split; [|done]. intros s -> Hs. apply Hno, list_elem_of_fmap. exists s. by rewrite Hns.
Qed.

(** Everything but the map of the enabled ends stays. *)
Lemma switches_frame P b c c' : switches P b c c' →
  (cf_n c' = cf_n c ∧ cf_connected c' = cf_connected c ∧ cf_endnames c' = cf_endnames c ∧
   cf_rafts c' = cf_rafts c ∧ cf_saved c' = cf_saved c) ∧
  mem c' = mem c ∧ labrpc.w_store (cf_w c') = labrpc.w_store (cf_w c) ∧
  labrpc.rn_ends (net c') = labrpc.rn_ends (net c) ∧
  labrpc.rn_connections (net c') = labrpc.rn_connections (net c) ∧
  labrpc.rn_servers (net c') = labrpc.rn_servers (net c).
Proof.
  intros (ns & -> & _). split; [done|]. unfold mem, net. simpl.
  apply (enable_all_frame ns b (cf_w c)).
Qed.

Lemma net_inv_switch c i b P c' : net_inv c → (i < cf_n c)%nat →
  (b = true → ∃ names, cf_endnames c !! i = Some (Some names)) →
  switches P b (set_connected (<[i := b]> (cf_connected c)) c) c' →
  (∀ nm, labrpc.is_enabled (net c') nm = true ↔
    ∃ j k s, nm = NStr s ∧ end_of c j k = Some s ∧
      is_connected (set_connected (<[i := b]> (cf_connected c)) c) j ∧
      is_connected (set_connected (<[i := b]> (cf_connected c)) c) k) → net_inv c'.
Proof.
  intros Hinv Hi Hst Hsw Hen. pose proof (switches_frame _ _ _ _ Hsw) as ((Hn & Hc & He & _) & _ & _ & Hends & Hcon & _).
  unfold net in Hends, Hcon. simpl in *. unfold is_connected in Hen. simpl in Hen.
  split; unfold end_of, is_connected, net; rewrite ?Hn, ?Hc, ?He, ?Hends, ?Hcon.
  - rewrite length_insert. apply (ni_connected _ Hinv).
  - apply (ni_endnames _ Hinv).
  - apply (ni_row _ Hinv).
  - apply (ni_inj _ Hinv).
  - apply (ni_known _ Hinv).
  - apply (ni_to _ Hinv).
  - intros j Hj. pose proof (proj1 (is_connected_insert c i b j) Hj) as [(-> & -> & _)|(_ & Hj')];
      [by apply Hst|by apply (ni_started _ Hinv)].
  - exact Hen.
Qed.

Lemma connect_inv i c c' : net_inv c → connect i c = Done c' → net_inv c'.
Proof.
  intros Hinv Hc. pose proof (connect_started _ _ _ (ni_connected _ Hinv) Hc) as Hst.
  apply connect_spec in Hc as [Hi Hsw]. simpl in Hsw. unfold zlen in Hi.
  pose proof (ni_connected _ Hinv) as Hl.
  eapply net_inv_switch; [done| |by intros _|exact Hsw|]; [lia|].
  intros nm. pose proof (switches_enabled _ _ _ _ nm Hsw) as Hen. split.
  - intros Ht. destruct Hen as [(s & -> & (j & Hj & Hcj & He) & _)|[_ Heq]].
    + destruct He as [He|He].
      * exists (Z.to_nat i), j, s. split_and!; [done..| |done]. apply is_connected_insert. left. split_and!; [done..|lia].
      * exists j, (Z.to_nat i), s. split_and!; [done..|]. apply is_connected_insert. left. split_and!; [done..|lia].
    + rewrite Heq in Ht. apply (ni_enabled _ Hinv) in Ht as (j & k & s & -> & He & Hj & Hk).
      exists j, k, s. split_and!; [done..| |]; apply is_connected_insert;
        (match goal with |- _ ∨ (?a ≠ ?b ∧ _) => destruct (decide (a = b)) end;
           [left; split_and!; [done..|lia]|by right]).
  - intros (j & k & s & -> & He & Hj & Hk). pose proof (end_of_lt _ _ _ _ Hinv He) as [Hjn Hkn].
    destruct Hen as [(s' & _ & _ & Ht)|[Hno Heq]]; [done|].
    assert (∀ a, Z.to_nat i = a → ¬ (end_of c a k = Some s ∨ end_of c j a = Some s)) as Hne.
    { intros a <- Ha. apply (Hno s eq_refl). destruct Ha as [Ha|Ha]; [exists k|exists j]; auto. }
    rewrite Heq. apply (ni_enabled _ Hinv). exists j, k, s. split_and!; [done..| |].
    + apply is_connected_insert in Hj as [(Hij & _)|(_ & Hj)]; [|done]. by destruct (Hne j Hij); left.
    + apply is_connected_insert in Hk as [(Hik & _)|(_ & Hk)]; [|done]. by destruct (Hne k Hik); right.
Qed.

Lemma disconnect_inv i c c' : net_inv c → disconnect i c = Done c' →
  net_inv c' ∧ ¬ is_connected c' (Z.to_nat i).
Proof.
  intros Hinv Hc. apply disconnect_spec in Hc as [Hi Hsw]. simpl in Hsw. unfold zlen in Hi.
  pose proof (ni_connected _ Hinv) as Hl. split.
  - eapply (net_inv_switch _ (Z.to_nat i) false); [done|lia|done|exact Hsw|].
    intros nm. pose proof (switches_enabled _ _ _ _ nm Hsw) as Hen. split.
    + intros Ht. destruct Hen as [(s & _ & _ & Hf)|[Hno Heq]]; [congruence|].
      rewrite Heq in Ht. apply (ni_enabled _ Hinv) in Ht as (j & k & s & -> & He & Hj & Hk).
      pose proof (end_of_lt _ _ _ _ Hinv He) as [Hjn Hkn].
      exists j, k, s. split_and!; [done..| |]; apply is_connected_insert; right; (split; [|done]);
        intros <-; apply (Hno s eq_refl); [exists k|exists j]; auto.
    + intros (j & k & s & -> & He & Hj & Hk).
      apply is_connected_insert in Hj as [(? & ? & _)|(Hij & Hj)]; [done|].
      apply is_connected_insert in Hk as [(? & ? & _)|(Hik & Hk)]; [done|].
      destruct Hen as [(s' & [= <-] & (a & Ha & [He'|He']) & _)|[_ Heq]].
      * by destruct (ni_inj _ Hinv _ _ _ _ _ He He').
      * by destruct (ni_inj _ Hinv _ _ _ _ _ He He').
      * rewrite Heq. apply (ni_enabled _ Hinv). by exists j, k, s.
  - destruct (switches_frame _ _ _ _ Hsw) as ((_ & Hc & _) & _). unfold is_connected.
    rewrite Hc. simpl. rewrite list_lookup_insert_eq by lia. done.
Qed.

(** ** The persisters *)

Definition heap c : list (obj Cmd) := ap_heap (mem c).

(** Everything that has to do with the network stays. *)
Definition same_net c c' : Prop :=
  (cf_n c' = cf_n c ∧ cf_connected c' = cf_connected c ∧ cf_endnames c' = cf_endnames c) ∧
  net c' = net c ∧ labrpc.w_store (cf_w c') = labrpc.w_store (cf_w c).

#[local] Instance same_net_preorder : PreOrder same_net.
Proof.
  split.
  - done.
  - intros c1 c2 c3 ((? & ? & ?) & ? & ?) ((? & ? & ?) & ? & ?). split_and!; congruence.
Qed.

Lemma same_net_inv c c' : same_net c c' → net_inv c → net_inv c'.
Proof.
  intros ((? & ? & ?) & Hn & _) Hinv. by eapply net_inv_ext; [exact Hinv|..]; rewrite ?Hn.
Qed.

(** A fresh persister for peer [i]. *)
Definition put_saved (i : nat) (p : Persister) c : config Cmd :=
  set_saved (<[i := Some (length (heap c))]> (cf_saved c))
    (set_mem (with_heap (mem c) (heap c ++ [OPersister p])) c).

Lemma copy_saved_Done i ps c c' : copy_saved i ps c = Done c' →
  ∃ p, heap c !! ps = Some (OPersister p) ∧ c' = put_saved (Z.to_nat i) p c.
Proof.
  unfold copy_saved, copy_persister. intros Hc. go_inv. unfold alloc in Hc. go_inv.
  apply persister_at_Done in Hx0 as (a & [= <-] & Ha). apply set_idx_Done in Hx as [_ ->].
  exists x0. split; [done|]. by destruct x0.
Qed.

Lemma renew_saved_Done i ps c c' : renew_saved i ps c = Done c' →
  ∃ p, heap c !! ps = Some (OPersister p) ∧
    c' = put_saved (Z.to_nat i)
      (MkPersister (persister.clone (raftstate p)) (persister.clone (snapshot p))) c.
Proof.
  unfold renew_saved. intros Hc. go_inv.
  apply persister_at_Done in Hx as (a & [= <-] & Ha). simpl in Hc. go_inv.
  apply set_idx_Done in Hx as [_ ->]. by exists x.
Qed.

(** Instances of peers and the persisters they can write; [x] is a peer that is
    just being replaced. *)
Record heap_inv (x : option nat) c : Prop := {
  hi_rafts : length (cf_rafts c) = cf_n c;
  hi_len : length (cf_saved c) = cf_n c;
  hi_saved i a : cf_saved c !! i = Some (Some a) → ∃ p, heap c !! a = Some (OPersister p);
  hi_inj i j a : cf_saved c !! i = Some (Some a) → cf_saved c !! j = Some (Some a) → i = j;
  hi_raft i q : Some i ≠ x → cf_rafts c !! i = Some (Some q) →
    ∃ rf a, heap c !! q = Some (ORaft rf a) ∧ cf_saved c !! i = Some (Some a);
  hi_ps q rf a : heap c !! q = Some (ORaft rf a) → ∃ p, heap c !! a = Some (OPersister p);
  hi_own i q rf a : heap c !! q = Some (ORaft rf a) → cf_saved c !! i = Some (Some a) →
    Some i ≠ x ∧ cf_rafts c !! i = Some (Some q);
}.

(** Objects keep their type, and peers their persister. *)
Definition same_shape (o o' : obj Cmd) : Prop :=
  match o, o' with
  | ORaft _ a, ORaft _ a' => a = a'
  | OPersister _, OPersister _ => True
  | _, _ => o = o'
  end.

Lemma same_shape_refl o : same_shape o o.
Proof. by destruct o. Qed.

Lemma heap_inv_shape x c c' : heap_inv x c → cf_n c' = cf_n c → cf_rafts c' = cf_rafts c →
  cf_saved c' = cf_saved c → Forall2 same_shape (heap c) (heap c') → heap_inv x c'.
Proof.
  intros Hinv Hn Hr Hs Hh.
  assert (∀ a p, heap c !! a = Some (OPersister p) → ∃ p', heap c' !! a = Some (OPersister p')) as Hps.
  { intros a p Ha. destruct (Forall2_lookup_l _ _ _ _ _ Hh Ha) as ([] & Hy & Hsh); try done. eauto. }
  assert (∀ q rf a, heap c' !! q = Some (ORaft rf a) → ∃ rf', heap c !! q = Some (ORaft rf' a)) as Hrf.
  { intros q rf a Hq. destruct (Forall2_lookup_r _ _ _ _ _ Hh Hq) as ([] & Hy & Hsh); try done.
    simpl in Hsh. subst. eauto. }
  split; rewrite ?Hn, ?Hr, ?Hs.
  - apply Hinv.
  - apply Hinv.
  - intros i a Ha. destruct (hi_saved _ _ Hinv _ _ Ha) as [p Hp]. eauto.
  - apply (hi_inj _ _ Hinv).
  - intros i q Hx Hi. destruct (hi_raft _ _ Hinv _ _ Hx Hi) as (rf & a & Hq & Ha).
    destruct (Forall2_lookup_l _ _ _ _ _ Hh Hq) as ([rf' a'| | | | |] & Hy & Hsh); try done.
    simpl in Hsh. subst. eauto.
  - intros q rf a (rf' & Hq)%Hrf. destruct (hi_ps _ _ Hinv _ _ _ Hq) as [p Hp]. eauto.
  - intros i q rf a (rf' & Hq)%Hrf Hi. by apply (hi_own _ _ Hinv _ _ _ _ Hq).
Qed.

Lemma heap_app_raft c o q rf a : (∀ rf a, o ≠ ORaft rf a) →
  (heap c ++ [o]) !! q = Some (ORaft rf a) → heap c !! q = Some (ORaft rf a).
Proof.
  intros Ho Hq. apply lookup_app_Some in Hq as [Hq|[_ Hq]]; [done|].
  apply list_lookup_singleton_Some in Hq as [_ Hq]. by destruct (Ho rf a).
Qed.

Lemma heap_app_old c o a o' : heap c !! a = Some o' → (heap c ++ [o]) !! a = Some o'.
Proof. intros Ha. rewrite lookup_app_l; [done|by eapply lookup_lt_Some]. Qed.

Lemma heap_app_new c o : (heap c ++ [o]) !! length (heap c) = Some o.
Proof. by rewrite lookup_app_r, Nat.sub_diag by lia. Qed.

Lemma saved_lt x c i a : heap_inv x c → cf_saved c !! i = Some (Some a) → (a < length (heap c))%nat.
Proof. intros Hinv Ha. destruct (hi_saved _ _ Hinv _ _ Ha) as [p Hp]. by eapply lookup_lt_Some. Qed.

Lemma put_saved_inv x i p c : heap_inv x c → x = None ∨ x = Some i → (i < cf_n c)%nat →
  heap_inv (Some i) (put_saved i p c).
Proof.
  intros Hinv Hx Hi. unfold put_saved. pose proof (hi_len _ _ Hinv) as Hlen.
  assert (∀ k a, <[i := Some (length (heap c))]> (cf_saved c) !! k = Some (Some a) →
    (k = i ∧ a = length (heap c)) ∨ (k ≠ i ∧ cf_saved c !! k = Some (Some a))) as Hcase.
  { intros k a Hk. destruct (decide (k = i)) as [->|Hne].
    - rewrite list_lookup_insert_eq in Hk by lia. left. by simplify_eq.
    - rewrite list_lookup_insert_ne in Hk by done. by right. }
  assert (∀ k, Some k ≠ Some i → Some k ≠ x) as Hk by (intros k; destruct Hx; congruence).
  split; simpl; unfold heap; simpl.
  - apply Hinv.
  - by rewrite length_insert.
  - intros k a [[-> ->]|[_ Hs]]%Hcase; [exists p; apply heap_app_new|].
    destruct (hi_saved _ _ Hinv _ _ Hs) as [p' Hp']. exists p'. by apply heap_app_old.
  - intros k k' a [[-> ->]|[_ Hs]]%Hcase [[-> Ha]|[_ Hs']]%Hcase; [done| | |].
    + apply (saved_lt _ _ _ _ Hinv) in Hs'. lia.
    + apply (saved_lt _ _ _ _ Hinv) in Hs. lia.
    + by apply (hi_inj _ _ Hinv _ _ _ Hs).
  - intros k q Hne Hq. destruct (hi_raft _ _ Hinv k q (Hk _ Hne) Hq) as (rf & a & Hh & Hs).
    exists rf, a. split; [by apply heap_app_old|]. rewrite list_lookup_insert_ne by congruence. done.
  - intros q rf a Hq%heap_app_raft; [|done]. destruct (hi_ps _ _ Hinv _ _ _ Hq) as [p' Hp'].
    exists p'. by apply heap_app_old.
  - intros k q rf a Hq%heap_app_raft; [|done]. intros [[-> ->]|[Hne Hs]]%Hcase.
    + destruct (hi_ps _ _ Hinv _ _ _ Hq) as [p' Hp'%lookup_lt_Some]. lia.
    + split; [congruence|]. by apply (hi_own _ _ Hinv _ _ _ _ Hq).
Qed.

Lemma heap_inv_skip i c : heap_inv None c →
  (∀ q rf a, heap c !! q = Some (ORaft rf a) → cf_saved c !! i ≠ Some (Some a)) → heap_inv (Some i) c.
Proof.
  intros Hinv Hno. split; try apply Hinv; [by intros k q _; apply (hi_raft _ _ Hinv)|].
  intros k q rf a Hq Hs. split; [|by apply (hi_own _ _ Hinv _ _ _ _ Hq)].
  intros [= ->]. by apply (Hno _ _ _ Hq).
Qed.

Lemma heap_inv_done i c : heap_inv (Some i) c → (∀ q, cf_rafts c !! i ≠ Some (Some q)) → heap_inv None c.
Proof.
  intros Hinv Hno. split; try apply Hinv.
  - intros k q _ Hk. apply (hi_raft _ _ Hinv); [|done]. intros [= ->]. by apply (Hno q).
  - intros k q rf a Hq Hs. split; [done|]. by apply (hi_own _ _ Hinv _ _ _ _ Hq).
Qed.

Lemma heap_inv_drop i c : heap_inv (Some i) c → heap_inv (Some i) (set_rafts (<[i := None]> (cf_rafts c)) c).
Proof.
  intros Hinv. split; simpl; try apply Hinv.
  - rewrite length_insert. apply Hinv.
  - intros k q Hk Hq. rewrite list_lookup_insert_ne in Hq by congruence. by apply (hi_raft _ _ Hinv).
  - intros k q rf a Hq Hs. destruct (hi_own _ _ Hinv _ _ _ _ Hq Hs) as [Hk Hr].
    split; [done|]. rewrite list_lookup_insert_ne by congruence. done.
Qed.

Lemma heap_inv_make i c rf a : heap_inv (Some i) c → (i < cf_n c)%nat → cf_saved c !! i = Some (Some a) →
  heap_inv None (set_rafts (<[i := Some (length (heap c))]> (cf_rafts c))
    (set_mem (with_heap (mem c) (heap c ++ [ORaft rf a])) c)).
Proof.
  intros Hinv Hi Ha. pose proof (hi_rafts _ _ Hinv) as Hlen. split; simpl; unfold heap; simpl.
  - by rewrite length_insert.
  - apply Hinv.
  - intros k b Hs. destruct (hi_saved _ _ Hinv _ _ Hs) as [p Hp]. exists p. by apply heap_app_old.
  - apply (hi_inj _ _ Hinv).
  - intros k q _ Hq. destruct (decide (k = i)) as [->|Hne].
    + rewrite list_lookup_insert_eq in Hq by lia. simplify_eq. exists rf, a. split; [apply heap_app_new|done].
    + rewrite list_lookup_insert_ne in Hq by done.
      destruct (hi_raft _ _ Hinv k q) as (rf' & b & Hh & Hs); [congruence|done|].
      exists rf', b. split; [by apply heap_app_old|done].
  - intros q rf' b Hq. assert (∃ p, heap c !! b = Some (OPersister p)) as [p Hp].
    { apply lookup_app_Some in Hq as [Hq|[_ [_ Hq]%list_lookup_singleton_Some]];
        [by apply (hi_ps _ _ Hinv _ _ _ Hq)|]. simplify_eq. by apply (hi_saved _ _ Hinv i). }
    exists p. by apply heap_app_old.
  - intros k q rf' b Hq Hs. split; [done|].
    apply lookup_app_Some in Hq as [Hq|[Hge [Hz Hq]%list_lookup_singleton_Some]].
    + destruct (hi_own _ _ Hinv _ _ _ _ Hq Hs) as [Hk Hr].
      rewrite list_lookup_insert_ne by congruence. done.
    + unfold heap in Hz. simplify_eq. rewrite (hi_inj _ _ Hinv _ _ _ Hs Ha).
      rewrite list_lookup_insert_eq by lia. do 2 f_equal. unfold heap in *. lia.
Qed.

(** What an instance started now would read from the persister of peer [i]. *)
Definition saved_data c (i : nat) : option (option bytes * option bytes) :=
  a ← mjoin (cf_saved c !! i);
  match heap c !! a with
  | Some (OPersister p) => Some (persister.ReadRaftState p, persister.ReadSnapshot p)
  | _ => None
  end.

Lemma put_saved_data x i p c k : heap_inv x c → (i < cf_n c)%nat →
  saved_data (put_saved i p c) k =
    if decide (k = i) then Some (persister.ReadRaftState p, persister.ReadSnapshot p)
    else saved_data c k.
Proof.
  intros Hinv Hi. unfold saved_data. pose proof (hi_len _ _ Hinv).
  change (heap (put_saved i p c)) with (heap c ++ [OPersister p]). simpl.
  destruct (decide (k = i)) as [->|Hne].
  - rewrite list_lookup_insert_eq by lia. simpl. by rewrite heap_app_new.
  - rewrite list_lookup_insert_ne by done. destruct (cf_saved c !! k) as [[a|]|] eqn:Hs; [|done..].
    simpl. destruct (hi_saved _ _ Hinv _ _ Hs) as [p' Hp'].
    by rewrite (heap_app_old _ _ _ _ Hp'), Hp'.
Qed.

(** Replacing a peer by another state of it. *)
Lemma store_raft_shape c q rf rf' a : heap c !! q = Some (ORaft rf a) →
  Forall2 same_shape (heap c) (heap (set_mem (store (mem c) q (ORaft rf' a)) c)).
Proof.
  intros Hq. unfold heap, store. simpl. rewrite <- (list_insert_id _ _ _ Hq) at 1.
  apply Forall2_insert; [|done]. apply Forall_Forall2_diag, Forall_true, same_shape_refl.
Qed.

Lemma store_raft_data c q rf rf' a k : heap c !! q = Some (ORaft rf a) →
  saved_data (set_mem (store (mem c) q (ORaft rf' a)) c) k = saved_data c k.
Proof.
  intros Hq. unfold saved_data, heap, store. simpl. destruct (mjoin _) as [b|]; [|done]. simpl.
  destruct (decide (b = q)) as [->|Hne].
  - rewrite list_lookup_insert_eq by (by eapply lookup_lt_Some). unfold heap in Hq. by rewrite Hq.
  - by rewrite list_lookup_insert_ne by done.
Qed.

(** The part of [crash1] under the lock. *)
Lemma crash_copy_spec i c c' : heap_inv None c → 0 ≤ i → (Z.to_nat i < cf_n c)%nat →
  (let! s := idx (cf_saved c) i in
   match s with Some ps => copy_saved i ps c | None => Done c end) = Done c' →
  same_net c c' ∧ heap_inv (Some (Z.to_nat i)) c' ∧ cf_rafts c' = cf_rafts c ∧
  ∀ k, saved_data c' k = saved_data c k.
Proof.
  intros Hinv Hi0 Hi Hc. go_inv. apply idx_Done in Hx as [_ Hs]. destruct x as [ps|].
  - apply copy_saved_Done in Hc as (p & Hp & ->). split_and!; [done| |done|].
    + by apply (put_saved_inv None); [|left|].
    + intros k. rewrite (put_saved_data None) by done. case_decide as Hk; [subst k|done].
      unfold saved_data. rewrite Hs. simpl. by rewrite Hp.
  - go_inv. split_and!; [done| |done..]. apply heap_inv_skip; [done|]. intros q rf a _. congruence.
Qed.

Lemma crash_renew_spec i c c' : heap_inv (Some (Z.to_nat i)) c → 0 ≤ i → (Z.to_nat i < cf_n c)%nat →
  (let! s := idx (cf_saved c) i in
   match s with Some ps => renew_saved i ps c | None => Done c end) = Done c' →
  same_net c c' ∧ heap_inv (Some (Z.to_nat i)) c' ∧ cf_rafts c' = cf_rafts c ∧
  ∀ k, saved_data c' k = saved_data c k.
Proof.
  intros Hinv Hi0 Hi Hc. go_inv. apply idx_Done in Hx as [_ Hs]. destruct x as [ps|].
  - apply renew_saved_Done in Hc as (p & Hp & ->). split_and!; [done| |done|].
    + by eapply put_saved_inv; [exact Hinv|right|].
    + intros k. rewrite (put_saved_data _ _ _ _ _ Hinv) by done. case_decide as Hk; [subst k|done].
      unfold saved_data. rewrite Hs. simpl. by rewrite Hp.
  - go_inv. done.
Qed.

Lemma crash1_locked_spec i c c' : heap_inv None c → 0 ≤ i → (Z.to_nat i < cf_n c)%nat →
  crash1_locked i c = Done c' →
  same_net c c' ∧ heap_inv None c' ∧ cf_rafts c' = <[Z.to_nat i := None]> (cf_rafts c) ∧
  ∀ k, saved_data c' k = saved_data c k.
Proof.
  intros Hinv Hi0 Hi Hc. unfold crash1_locked in Hc.
  apply bind_Done in Hc as (s & Hs & Hc). apply bind_Done in Hc as (c1 & Hc1 & Hc).
  destruct (crash_copy_spec i c c1) as (Hn1 & Hh1 & Hr1 & Hd1); [done..|by rewrite Hs|].
  apply bind_Done in Hc as (rf & Hrf & Hc). apply bind_Done in Hc as (c2 & Hc2 & Hc).
  apply idx_Done in Hrf as [_ Hrf].
  assert (same_net c1 c2 ∧ heap_inv (Some (Z.to_nat i)) c2 ∧
    cf_rafts c2 = <[Z.to_nat i := None]> (cf_rafts c1) ∧ ∀ k, saved_data c2 k = saved_data c1 k)
    as (Hn2 & Hh2 & Hr2 & Hd2).
  { clear Hc Hc1 Hs. destruct rf as [q|]; [|go_inv; split_and!; [done|done|by rewrite list_insert_id|done]].
    go_inv. unfold kill_raft in Hx. apply bind_Done in Hx as ([[q' rf] a] & [[= <-] Hq]%raft_at_Done & Hx).
    apply Done_inj in Hx as <-. apply set_idx_Done in Hx0 as [_ ->]. split_and!; [done| |done|].
    - apply (heap_inv_drop _ (set_mem _ c1)).
      eapply heap_inv_shape; [exact Hh1|done..|by eapply store_raft_shape].
    - intros k. exact (store_raft_data c1 q rf _ a k Hq). }
  destruct (crash_renew_spec i c2 c') as (Hn3 & Hh3 & Hr3 & Hd3); [done..| |done|].
  { by rewrite (proj1 (proj1 Hn2)), (proj1 (proj1 Hn1)). }
  split_and!.
  - by etrans; [exact Hn1|etrans].
  - eapply heap_inv_done; [exact Hh3|]. intros q. rewrite Hr3, Hr2.
    rewrite list_lookup_insert_eq by (by eapply lookup_lt_Some). done.
  - by rewrite Hr3, Hr2, Hr1.
  - intros k. by rewrite Hd3, Hd2, Hd1.
Qed.

(** ** Starting a peer *)

Definition same_memory c c' : Prop :=
  mem c' = mem c ∧ cf_rafts c' = cf_rafts c ∧ cf_saved c' = cf_saved c ∧ cf_n c' = cf_n c.

Lemma same_memory_inv x c c' : same_memory c c' → heap_inv x c → heap_inv x c'.
Proof.
  intros (Hm & Hr & Hs & Hn) Hinv. eapply heap_inv_shape; [exact Hinv|done..|].
  unfold heap. rewrite Hm. apply Forall_Forall2_diag, Forall_true, same_shape_refl.
Qed.

Lemma same_memory_data c c' k : same_memory c c' → saved_data c' k = saved_data c k.
Proof. intros (Hm & _ & Hs & _). unfold saved_data, heap. by rewrite Hm, Hs. Qed.

Section snapshots.
Variable snap_decode : list Z → option (Z * list (option Cmd)).

Lemma ingestSnap_Done i b index c r c' : ingestSnap snap_decode i b index c = Done (r, c') →
  same_net c c' ∧ same_memory c c'.
Proof.
  unfold ingestSnap. intros Hc. destruct b as [b|]; [|done].
  destruct (snap_decode b) as [[li xlog]|]; [|done]. by go_inv.
Qed.

Lemma start1_saved_spec i c c' : heap_inv (Some (Z.to_nat i)) c → 0 ≤ i → (Z.to_nat i < cf_n c)%nat →
  start1_saved snap_decode i c = Done c' →
  same_net c c' ∧ heap_inv (Some (Z.to_nat i)) c' ∧ cf_rafts c' = cf_rafts c ∧
  ∀ k, k ≠ Z.to_nat i ∨ is_Some (saved_data c (Z.to_nat i)) → saved_data c' k = saved_data c k.
Proof.
  intros Hinv Hi0 Hi Hc. unfold start1_saved in Hc.
  apply bind_Done in Hc as (s & [_ Hs]%idx_Done & Hc). destruct s as [ps|].
  - apply bind_Done in Hc as (c1 & (p & Hp & ->)%copy_saved_Done & Hc).
    set (c1 := put_saved _ p c) in *.
    assert (same_net c1 c' ∧ same_memory c1 c') as [Hn1 Hm1].
    { apply bind_Done in Hc as (s & _ & Hc). apply bind_Done in Hc as (p1 & _ & Hc).
      destruct (negb _ && _); [|by apply Done_inj in Hc as <-].
      apply bind_Done in Hc as ([err c2] & H2%ingestSnap_Done & Hc).
      destruct (negb _); [done|]. by apply Done_inj in Hc as <-. }
    pose proof (put_saved_inv _ _ p _ Hinv (or_intror eq_refl) Hi) as Hh1.
    split_and!; [by etrans; [|exact Hn1]|by eapply same_memory_inv|apply Hm1|].
    intros k _. rewrite (same_memory_data _ _ _ Hm1). unfold c1.
    rewrite (put_saved_data _ _ _ _ _ Hinv) by done. case_decide as Hk; [subst k|done].
    unfold saved_data. rewrite Hs. simpl. by rewrite Hp.
  - simpl in Hc. go_inv. apply set_idx_Done in Hx as [_ ->].
    change (same_net c (put_saved (Z.to_nat i) persister.MakePersister c) ∧
      heap_inv (Some (Z.to_nat i)) (put_saved (Z.to_nat i) persister.MakePersister c) ∧
      cf_rafts c = cf_rafts c ∧ ∀ k, k ≠ Z.to_nat i ∨ is_Some (saved_data c (Z.to_nat i)) →
      saved_data (put_saved (Z.to_nat i) persister.MakePersister c) k = saved_data c k).
    split_and!; [done| |done|].
    + by eapply put_saved_inv; [exact Hinv|right|].
    + intros k Hk. rewrite (put_saved_data _ _ _ _ _ Hinv) by done. case_decide as Hki; [|done].
      destruct Hk as [Hk|[d Hk]]; [done|]. unfold saved_data in Hk. by rewrite Hs in Hk.
Qed.

Lemma start1_make_spec i c c' q : heap_inv None c → 0 ≤ i → (Z.to_nat i < cf_n c)%nat →
  cf_rafts c !! Z.to_nat i = Some None → start1_make snap_decode i c = Done (c', q) →
  same_net c c' ∧ heap_inv None c' ∧ cf_rafts c' = <[Z.to_nat i := Some q]> (cf_rafts c) ∧
  ∀ k, k ≠ Z.to_nat i ∨ is_Some (saved_data c (Z.to_nat i)) → saved_data c' k = saved_data c k.
Proof.
  intros Hinv Hi0 Hi Hr Hc. unfold start1_make in Hc.
  apply bind_Done in Hc as (la & _ & Hc). apply bind_Done in Hc as (c1 & Hc1 & Hc).
  destruct (start1_saved_spec i (set_lastApplied la c) c1) as (Hn1 & Hh1 & Hr1 & Hd1); [|done..|].
  { apply (same_memory_inv _ c); [done|]. apply heap_inv_skip; [done|].
    intros q' rf a Hq Ha. destruct (hi_own _ _ Hinv _ _ _ _ Hq Ha). congruence. }
  apply bind_Done in Hc as (s & [_ Hs]%idx_Done & Hc). destruct s as [ps|]; [|done].
  apply bind_Done in Hc as ([rf σ] & Hmk & Hc). unfold make_raft in Hmk.
  apply bind_Done in Hmk as (p & Hp & Hmk). apply Done_inj in Hmk. unfold alloc in Hmk.
  apply pair_equal_spec in Hmk as [<- <-]. apply bind_Done in Hc as (rafts & [Hlen ->]%set_idx_Done & Hc).
  apply Done_inj in Hc. apply pair_equal_spec in Hc as [<- <-].
  assert (cf_n c1 = cf_n c) as Hn by apply Hn1. split_and!.
  - done.
  - assert (Z.to_nat i < cf_n c1)%nat as Hi1 by (by rewrite Hn).
    exact (heap_inv_make (Z.to_nat i) c1 _ ps Hh1 Hi1 Hs).
  - simpl. by rewrite Hr1.
  - intros k Hk. change (saved_data c k) with (saved_data (set_lastApplied la c) k).
    rewrite <- (Hd1 k Hk). unfold saved_data. simpl.
    destruct (cf_saved c1 !! k) as [[a|]|] eqn:Ha; [|done..]. simpl.
    destruct (hi_saved _ _ Hh1 _ _ Ha) as [p' Hp']. rewrite Hp'. unfold heap. simpl.
    by rewrite (heap_app_old _ _ _ _ Hp').
Qed.
End snapshots.

(** The ends that [start1_ends] makes: new, distinct, disabled, and leading to
    the peers. *)
Lemma start1_ends_spec i l js : ∀ c c', cf_endnames c !! Z.to_nat i = Some (Some l) → NoDup js →
  start1_ends i js c = Done c' →
  ∃ w, c' = set_w w c ∧ labrpc.w_app w = mem c ∧ labrpc.w_store w = labrpc.w_store (cf_w c) ∧
    labrpc.rn_servers (labrpc.w_net w) = labrpc.rn_servers (net c) ∧
    (∀ j, j ∈ js → ∃ s, l !! j = Some s ∧ labrpc.rn_ends (net c) !! NStr s = None ∧
       is_Some (labrpc.rn_ends (net c') !! NStr s) ∧ labrpc.is_enabled (net c') (NStr s) = false ∧
       labrpc.rn_connections (net c') !! NStr s = Some (Some (NInt (Z.of_nat j)))) ∧
    (∀ j j' s, j ∈ js → j' ∈ js → l !! j = Some s → l !! j' = Some s → j = j') ∧
    (∀ nm, is_Some (labrpc.rn_ends (net c) !! nm) → is_Some (labrpc.rn_ends (net c') !! nm)) ∧
    (∀ nm, (∀ j s, j ∈ js → l !! j = Some s → nm ≠ NStr s) →
       labrpc.is_enabled (net c') nm = labrpc.is_enabled (net c) nm ∧
       labrpc.rn_connections (net c') !! nm = labrpc.rn_connections (net c) !! nm).
Proof.
  induction js as [|j js IH]; intros c c' Hl Hnd Hc; simpl in Hc.
  - apply Done_inj in Hc as <-. exists (cf_w c). split_and!; [by destruct c|done..| | |done|done];
      intros ? Hj; intros; set_solver.
  - apply bind_Done in Hc as (names & [_ Hn]%idx_Done & Hc). rewrite Hn in Hl. injection Hl as ->.
    apply bind_Done in Hc as (s & [_ Hs]%idx_Done & Hc). simpl in Hs. rewrite Nat2Z.id in Hs.
    apply bind_Done in Hc as ([w e] & Hme & Hc). unfold Harness.make_end in Hme.
    apply bind_Done in Hme as ([rn e'] & Hrn & Hme). unfold labrpc.MakeEnd in Hrn.
    destruct (labrpc.rn_ends _ !! NStr s) eqn:Hnew; [done|].
    apply Done_inj in Hrn. apply pair_equal_spec in Hrn as [<- <-].
    apply Done_inj in Hme. apply pair_equal_spec in Hme as [<- <-].
    apply NoDup_cons in Hnd as [Hnj Hnd].
    apply IH in Hc as (w & -> & Ha & Hst & Hsv & Hjs & Hinj & Hold & Hoth); [|exact Hn|exact Hnd]. clear IH.
    unfold net in *. simpl in *.
    assert (∀ j' s', j' ∈ js → l !! j' = Some s' → NStr s ≠ NStr s') as Hns.
    { intros j' s' Hj' Hs' [= <-]. destruct (Hjs j' Hj') as (s' & Hs'' & Hno & _).
      rewrite Hs' in Hs''. injection Hs'' as <-. by rewrite lookup_insert_eq in Hno. }
    exists w. split_and!; [done..| | | |].
    + intros j' [->|Hj']%elem_of_cons.
      * exists s. destruct (Hoth (NStr s) Hns) as [Hen Hco]. split_and!; [done|done|..].
        -- apply Hold. rewrite lookup_insert_eq. by eexists.
        -- rewrite Hen. unfold labrpc.is_enabled. simpl. by rewrite lookup_insert_eq.
        -- rewrite Hco. by rewrite lookup_insert_eq.
      * destruct (Hjs j' Hj') as (s' & Hs' & Hno & Hrest). exists s'. split; [done|].
        split; [|done]. by rewrite lookup_insert_ne in Hno by (by eapply Hns).
    + intros j1 j2 s' [->|H1]%elem_of_cons [->|H2]%elem_of_cons Hs1 Hs2; [done|..].
      * destruct (Hns j2 s' H2 Hs2). congruence.
      * destruct (Hns j1 s' H1 Hs1). congruence.
      * by apply (Hinj _ _ s').
    + intros nm Hnm. apply Hold. destruct (decide (nm = NStr s)) as [->|Hne];
        [rewrite lookup_insert_eq; by eexists|by rewrite lookup_insert_ne].
    + intros nm Hnm. destruct (Hoth nm) as [Hen Hco].
      { intros j' s' Hj'. apply Hnm. by right. }
      assert (nm ≠ NStr s) as Hne by (apply (Hnm j); [by left|done]).
      rewrite Hen, Hco. unfold labrpc.is_enabled. simpl. by rewrite !lookup_insert_ne by done.
Qed.

Lemma end_of_set_endnames c i l a b : (i < length (cf_endnames c))%nat →
  end_of (set_endnames (<[i := Some l]> (cf_endnames c)) c) a b =
    if decide (a = i) then l !! b else end_of c a b.
Proof.
  intros Hi. unfold end_of. simpl. case_decide as Ha.
  - subst. by rewrite list_lookup_insert_eq.
  - by rewrite list_lookup_insert_ne.
Qed.

(** New ends for a disconnected peer. *)
Lemma new_ends_inv i l c c' : net_inv c → 0 ≤ i → (Z.to_nat i < cf_n c)%nat → length l = cf_n c →
  ¬ is_connected c (Z.to_nat i) →
  start1_ends i (seq 0 (cf_n c)) (set_endnames (<[Z.to_nat i := Some l]> (cf_endnames c)) c) = Done c' →
  net_inv c' ∧ ¬ is_connected c' (Z.to_nat i).
Proof.
  intros Hinv Hi0 Hi Hl Hnc Hc. pose proof (ni_endnames _ Hinv) as Hlen.
  set (ii := Z.to_nat i) in *. set (c1 := set_endnames _ c) in *.
  assert (∀ a b, end_of c1 a b = if decide (a = ii) then l !! b else end_of c a b) as Hend
    by (intros; apply end_of_set_endnames; lia).
  destruct (start1_ends_spec i l (seq 0 (cf_n c)) c1 c') as
    (w & -> & _ & _ & _ & Hnew & Hinj & Hold & Hoth); [|apply NoDup_seq|done|].
  { unfold c1. simpl. apply list_lookup_insert_eq. lia. }
  assert (∀ j s, l !! j = Some s → j ∈ seq 0 (cf_n c)) as Hin.
  { intros j s Hj%lookup_lt_Some. apply elem_of_seq. lia. }
  assert (∀ a b s, a ≠ ii → end_of c a b = Some s → ∀ j s', j ∈ seq 0 (cf_n c) → l !! j = Some s' →
    NStr s ≠ NStr s') as Hfresh.
  { intros a b s _ He j s' Hj Hs' [= ->]. destruct (ni_known _ Hinv _ _ _ He) as [e He'].
    destruct (Hnew j Hj) as (s & Hs & Hno & _). rewrite Hs' in Hs. injection Hs as <-.
    unfold c1, net in Hno. simpl in Hno. unfold net in He'. congruence. }
  split; [|done]. split.
  - apply Hinv.
  - unfold c1. simpl. by rewrite length_insert.
  - unfold c1. simpl. intros a names Ha. destruct (decide (a = ii)) as [->|Hne].
    + rewrite list_lookup_insert_eq in Ha by lia. by simplify_eq.
    + rewrite list_lookup_insert_ne in Ha by done. by apply (ni_row _ Hinv a).
  - intros a b a' b' s. change (end_of (set_w w c1)) with (end_of c1). rewrite !Hend.
    destruct (decide (a = ii)) as [->|Ha], (decide (a' = ii)) as [->|Ha']; intros H1 H2.
    + split; [done|]. by apply (Hinj _ _ s); [by eapply Hin..| |].
    + by destruct (Hfresh a' b' s Ha' H2 b s (Hin _ _ H1) H1).
    + by destruct (Hfresh a b s Ha H1 b' s (Hin _ _ H2) H2).
    + by apply (ni_inj _ Hinv _ _ _ _ s).
  - intros a b s. change (end_of (set_w w c1)) with (end_of c1). rewrite Hend.
    destruct (decide (a = ii)) as [->|Ha]; intros He.
    + destruct (Hnew b (Hin _ _ He)) as (s' & Hs' & _ & Hk & _). rewrite He in Hs'. by injection Hs' as <-.
    + apply Hold. by apply (ni_known _ Hinv _ _ _ He).
  - intros a b s. change (end_of (set_w w c1)) with (end_of c1). rewrite Hend.
    destruct (decide (a = ii)) as [->|Ha]; intros He.
    + destruct (Hnew b (Hin _ _ He)) as (s' & Hs' & _ & _ & _ & Hk). rewrite He in Hs'. by injection Hs' as <-.
    + destruct (Hoth (NStr s) (Hfresh _ _ _ Ha He)) as [_ ->]. by apply (ni_to _ Hinv a).
  - intros a Ha. unfold c1. simpl. destruct (decide (a = ii)) as [->|Hne]; [done|].
    rewrite list_lookup_insert_ne by done. by apply (ni_started _ Hinv).
  - intros nm. change (end_of (set_w w c1)) with (end_of c1).
    change (is_connected (set_w w c1)) with (is_connected c). split.
    + intros Hen. destruct (decide (Exists (λ j, l !! j ≫= (λ s, Some (NStr s)) = Some nm) (seq 0 (cf_n c))))
        as [Hex|Hno].
      * apply Exists_exists in Hex as (j & Hj & Hs). destruct (Hnew j Hj) as (s & Hls & _ & _ & Hf & _).
        rewrite Hls in Hs. simpl in Hs. injection Hs as <-. congruence.
      * destruct (Hoth nm) as [Heq _].
        { intros j s Hj Hs ->. apply Hno, Exists_exists. exists j. by rewrite Hs. }
        rewrite Heq in Hen. apply (ni_enabled _ Hinv) in Hen as (a & b & s & -> & He & Ha & Hb).
        exists a, b, s. rewrite Hend. rewrite decide_False; [done|]. by intros ->.
    + intros (a & b & s & -> & He & Ha & Hb). rewrite Hend in He.
      destruct (decide (a = ii)) as [->|Hne]; [done|].
      destruct (Hoth (NStr s) (Hfresh _ _ _ Hne He)) as [-> _].
      apply (ni_enabled _ Hinv). by exists a, b, s.
Qed.

(** ** The servers on the network *)

Record srv_inv c : Prop := {
  si_none i : cf_rafts c !! i = Some None → labrpc.server_at (net c) (NInt (Z.of_nat i)) = None;
  si_some i q : cf_rafts c !! i = Some (Some q) → ∃ a rs svc,
    labrpc.server_at (net c) (NInt (Z.of_nat i)) = Some a ∧
    labrpc.w_store (cf_w c) !! a = Some rs ∧ labrpc.rs_services rs !! "Raft" = Some svc ∧
    labrpc.MakeService (raft_receiver q) = Done svc;
}.

Lemma srv_inv_ext c c' : srv_inv c → cf_rafts c' = cf_rafts c →
  labrpc.rn_servers (net c') = labrpc.rn_servers (net c) →
  (∀ a rs, labrpc.w_store (cf_w c) !! a = Some rs → ∃ rs', labrpc.w_store (cf_w c') !! a = Some rs' ∧
     labrpc.rs_services rs' = labrpc.rs_services rs) → srv_inv c'.
Proof.
  intros Hinv Hr Hs Hst. unfold labrpc.server_at in *.
  split; unfold labrpc.server_at; rewrite Hr, Hs.
  - apply (si_none _ Hinv).
  - intros i q Hi. destruct (si_some _ Hinv i q Hi) as (a & rs & svc & Ha & Hrs & Hsvc & Hm).
    destruct (Hst _ _ Hrs) as (rs' & Hrs' & Heq). exists a, rs', svc. by rewrite Heq.
Qed.

Lemma delete_server_inv i c c' : srv_inv c → 0 ≤ i →
  same_net (set_w (delete_server (cf_w c) (NInt i)) c) c' →
  cf_rafts c' = <[Z.to_nat i := None]> (cf_rafts c) → srv_inv c'.
Proof.
  intros Hinv Hi (_ & Hn & Hst) Hr. unfold net in Hn. simpl in Hn, Hst.
  split; unfold net; rewrite Hr, Hn; setoid_rewrite server_at_insert.
  - intros k Hk. case_decide as Heq; [done|]. rewrite list_lookup_insert_ne in Hk by (intros <-; apply Heq; f_equal; lia).
    by apply (si_none _ Hinv).
  - intros k q Hk. assert (k ≠ Z.to_nat i) as Hne.
    { intros ->. destruct (decide (Z.to_nat i < length (cf_rafts c))%nat).
      - by rewrite list_lookup_insert_eq in Hk by done.
      - by rewrite lookup_ge_None_2 in Hk by (rewrite length_insert; lia). }
    rewrite list_lookup_insert_ne in Hk by done. rewrite decide_False by (intros [= ?]; lia).
    rewrite Hst. by apply (si_some _ Hinv).
Qed.

Lemma add_server_inv i c c' q svc : srv_inv c → 0 ≤ i → cf_rafts c !! Z.to_nat i = Some None →
  cf_rafts c' = <[Z.to_nat i := Some q]> (cf_rafts c) → same_net c c' →
  labrpc.MakeService (raft_receiver q) = Done svc →
  srv_inv (set_w (add_server (cf_w c') (NInt i) [svc]) c').
Proof.
  intros Hinv Hi Hnone Hr (_ & Hn & Hst) Hsvc. unfold net in Hn.
  assert (Z.to_nat i < length (cf_rafts c))%nat as Hlt by (by eapply lookup_lt_Some).
  split; unfold net; simpl; rewrite Hr; setoid_rewrite server_at_insert.
  - intros k Hk. destruct (decide (k = Z.to_nat i)) as [->|Hne].
    + by rewrite list_lookup_insert_eq in Hk.
    + rewrite list_lookup_insert_ne in Hk by done. rewrite decide_False by (intros [= ?]; lia).
      rewrite Hn. by apply (si_none _ Hinv).
  - intros k q' Hk. destruct (decide (k = Z.to_nat i)) as [->|Hne].
    + rewrite list_lookup_insert_eq in Hk by done. simplify_eq. rewrite decide_True by (f_equal; lia).
      eexists _, _, svc. split_and!; [done|by rewrite lookup_insert_eq| |done].
      simpl. assert (labrpc.sv_name svc = "Raft") as ->; [|by rewrite lookup_insert_eq].
      unfold labrpc.MakeService in Hsvc. apply bind_Done in Hsvc as (m & _ & Hsvc).
      apply Done_inj in Hsvc. by rewrite <- Hsvc.
    + rewrite list_lookup_insert_ne in Hk by done. rewrite decide_False by (intros [= ?]; lia).
      rewrite Hn. destruct (si_some _ Hinv _ _ Hk) as (a & rs & svc' & Ha & Hrs & Hrest).
      exists a, rs, svc'. split; [done|]. split; [|done]. rewrite <- Hst in Hrs.
      rewrite lookup_insert_ne; [done|]. intros <-.
      apply (is_fresh (dom (labrpc.w_store (cf_w c')))). apply elem_of_dom. by eexists.
Qed.

(** ** Every history of the harness *)

(** What the other goroutines may do: the peers run and write the persisters
    they were given, RPCs travel, messages are applied, statistics change. *)
Record background c c' : Prop := {
  bg_fields : (cf_n c' = cf_n c ∧ cf_connected c' = cf_connected c ∧ cf_endnames c' = cf_endnames c) ∧
    cf_rafts c' = cf_rafts c ∧ cf_saved c' = cf_saved c;
  bg_net : labrpc.rn_ends (net c') = labrpc.rn_ends (net c) ∧
    labrpc.rn_enabled (net c') = labrpc.rn_enabled (net c) ∧
    labrpc.rn_connections (net c') = labrpc.rn_connections (net c) ∧
    labrpc.rn_servers (net c') = labrpc.rn_servers (net c);
  bg_store a rs : labrpc.w_store (cf_w c) !! a = Some rs → ∃ rs',
    labrpc.w_store (cf_w c') !! a = Some rs' ∧ labrpc.rs_services rs' = labrpc.rs_services rs;
  bg_heap : Forall2 same_shape (heap c) (heap c');
  bg_persisters a p : heap c !! a = Some (OPersister p) → heap c' !! a ≠ Some (OPersister p) →
    ∃ q rf, heap c !! q = Some (ORaft rf a);
}.

Section histories.
Variable snap_decode : list Z → option (Z * list (option Cmd)).

Inductive step c : config Cmd → Prop :=
  | step_connect i c' : connect i c = Done c' → step c c'
  | step_disconnect i c' : disconnect i c = Done c' → step c c'
  | step_crash1 i c' : crash1 i c = Done c' → step c c'
  | step_start1 i names c' : start1 snap_decode i names c = Done c' → step c c'
  | step_background c' : background c c' → step c c'.

(** The configs of [n] peers that a test can reach, from an empty memory. *)
Inductive reach (n : nat) : config Cmd → Prop :=
  | reach_new w : ap_heap (labrpc.w_app w) = [] → reach n (new_config w n)
  | reach_step c c' : reach n c → step c c' → reach n c'.

Record inv (n : nat) c : Prop := {
  inv_n : cf_n c = n;
  inv_net : net_inv c;
  inv_heap : heap_inv None c;
  inv_srv : srv_inv c;
}.

Lemma new_config_inv w n : ap_heap (labrpc.w_app w) = [] → inv n (new_config w n).
Proof.
  intros Hw.
  assert (∀ i (x : option nat), replicate n None !! i = Some (Some x) → False) as Hno.
  { intros i x Hx. by apply lookup_replicate in Hx as [? _]. }
  assert (∀ i j, end_of (new_config w n) i j = None) as He.
  { intros i j. unfold end_of. simpl. destruct (replicate _ _ !! i) as [x|] eqn:Hi; [|done].
    by apply lookup_replicate in Hi as [-> _]. }
  assert (∀ i, ¬ is_connected (new_config w n) i) as Hc.
  { intros i Hi. by apply lookup_replicate in Hi as [? _]. }
  split; [done|split|split|split]; unfold heap, net, mem; simpl; rewrite ?length_replicate; rewrite ?Hw; try done.
  - intros i names Hi. by apply lookup_replicate in Hi as [? _].
  - intros i j i' j' s. by rewrite He.
  - intros i j s. by rewrite He.
  - intros i j s. by rewrite He.
  - intros i Hi. by destruct (Hc i).
  - intros nm. split; [done|]. intros (i & _ & _ & _ & _ & Hi & _). by destruct (Hc i).
  - intros i a Ha. by apply lookup_replicate in Ha as [? _].
  - intros i j a Ha. by apply lookup_replicate in Ha as [? _].
  - intros i q _ Ha. by apply lookup_replicate in Ha as [? _].
  - intros i q Ha. by apply lookup_replicate in Ha as [? _].
Qed.

Lemma switches_invs n P b c c1 c' : inv n c → cf_rafts c1 = cf_rafts c → cf_saved c1 = cf_saved c →
  cf_n c1 = cf_n c → cf_w c1 = cf_w c → switches P b c1 c' → heap_inv None c' ∧ srv_inv c'.
Proof.
  intros Hinv Hr Hs Hn Hw Hsw.
  destruct (switches_frame _ _ _ _ Hsw) as ((Hn' & _ & _ & Hr' & Hs') & Hm & Hst & _ & _ & Hsv).
  unfold mem, net in *. rewrite Hw in *. split.
  - eapply (same_memory_inv _ c); [|apply Hinv]. unfold same_memory, mem. by rewrite Hm, Hr', Hs', Hn'.
  - eapply srv_inv_ext; [apply Hinv|by rewrite Hr'|done|]. intros a rs Ha. rewrite Hst. eauto.
Qed.

Lemma crash1_inv n i c c' : inv n c → crash1 i c = Done c' →
  inv n c' ∧ (0 ≤ i ∧ (Z.to_nat i < n)%nat) ∧ ¬ is_connected c' (Z.to_nat i) ∧
  cf_rafts c' !! Z.to_nat i = Some None ∧ ∀ k, saved_data c' k = saved_data c k.
Proof.
  intros Hinv Hc. unfold crash1 in Hc. apply bind_Done in Hc as (c1 & Hc1 & Hc).
  destruct (disconnect_inv _ _ _ (inv_net _ _ Hinv) Hc1) as [Hn1 Hnc].
  apply disconnect_spec in Hc1 as [Hi Hsw]. simpl in Hsw. unfold zlen in Hi.
  rewrite (ni_connected _ (inv_net _ _ Hinv)), (inv_n _ _ Hinv) in Hi.
  assert (heap_inv None c1 ∧ srv_inv c1) as [Hh1 Hs1] by (by eapply switches_invs; [exact Hinv|..|exact Hsw]).
  pose proof (switches_frame _ _ _ _ Hsw) as ((Hcn & _ & _ & _ & Hsd) & Hm & _).
  simpl in Hcn, Hsd. unfold mem in Hm. simpl in Hm.
  destruct (crash1_locked_spec i (set_w (delete_server (cf_w c1) (NInt i)) c1) c') as (Hn & Hh & Hr & Hd);
    [by apply (same_memory_inv _ c1)|lia|simpl; rewrite Hcn, (inv_n _ _ Hinv); lia|done|].
  split_and!; [|lia..| | |].
  - split.
    + rewrite (proj1 (proj1 Hn)). simpl. by rewrite Hcn, (inv_n _ _ Hinv).
    + eapply same_net_inv; [exact Hn|]. by eapply net_inv_ext; [exact Hn1|..].
    + done.
    + apply (delete_server_inv i c1); [done|lia|done..].
  - unfold is_connected. rewrite (proj1 (proj2 (proj1 Hn))). done.
  - rewrite Hr. apply list_lookup_insert_eq. simpl. rewrite (hi_rafts _ _ Hh1), Hcn, (inv_n _ _ Hinv). lia.
  - intros k. rewrite Hd. unfold saved_data, heap, mem. simpl. unfold mem in *. simpl in *.
    by rewrite Hsd, Hm.
Qed.

Lemma start1_inv n i names c c' : inv n c → start1 snap_decode i names c = Done c' →
  inv n c' ∧ ∀ k, k ≠ Z.to_nat i ∨ is_Some (saved_data c (Z.to_nat i)) → saved_data c' k = saved_data c k.
Proof.
  intros Hinv Hc. unfold start1 in Hc. apply bind_Done in Hc as (c1 & Hc1 & Hc).
  destruct (crash1_inv _ _ _ _ Hinv Hc1) as (Hinv1 & [Hi0 Hi] & Hnc & Hnone & Hd1).
  pose proof (inv_n _ _ Hinv1) as Hn1.
  apply bind_Done in Hc as (ens & [_ ->]%set_idx_Done & Hc). apply bind_Done in Hc as (c2 & Hc2 & Hc).
  pose proof Hc2 as Hc2'. simpl in Hc2'.
  destruct (new_ends_inv i (names <$> seq 0 (cf_n c1)) c1 c2) as [Hnet2 Hnc2];
    [apply Hinv1|done|by rewrite Hn1|by rewrite length_fmap, length_seq|done|exact Hc2|].
  apply start1_ends_spec with (l := names <$> seq 0 (cf_n c1)) in Hc2' as
    (w & -> & Hmem & Hst & Hsv & _);
    [|simpl; apply list_lookup_insert_eq; rewrite (ni_endnames _ (inv_net _ _ Hinv1)), Hn1; done|apply NoDup_seq].
  set (c2 := set_w w _) in *.
  assert (same_memory c1 c2) as Hm2 by (split_and!; [exact Hmem|done..]).
  pose proof (same_memory_inv _ _ _ Hm2 (inv_heap _ _ Hinv1)) as Hh2.
  assert (srv_inv c2) as Hs2.
  { eapply srv_inv_ext; [apply (inv_srv _ _ Hinv1)|done|exact Hsv|].
    intros a rs Ha. exists rs. split; [|done]. simpl. rewrite Hst. exact Ha. }
  apply bind_Done in Hc as ([c3 q] & Hc3 & Hc).
  destruct (start1_make_spec snap_decode i c2 c3 q) as (Hn3 & Hh3 & Hr3 & Hd3); [done|done|by simpl; rewrite Hn1|done|done|].
  apply bind_Done in Hc as (svc & Hsvc & Hc). apply Done_inj in Hc as <-. split.
  - split.
    + simpl. rewrite (proj1 (proj1 Hn3)). exact Hn1.
    + assert (net_inv c3) as Hni3 by (by eapply same_net_inv). by eapply net_inv_ext; [exact Hni3|..].
    + eapply same_memory_inv; [|exact Hh3]. done.
    + eapply (add_server_inv i c2); done.
  - intros k Hk. change (saved_data c3 k = saved_data c k). rewrite Hd3.
    + rewrite (same_memory_data _ _ _ Hm2). apply Hd1.
    + by rewrite (same_memory_data _ _ _ Hm2), Hd1.
Qed.

Lemma background_inv n c c' : inv n c → background c c' → inv n c'.
Proof.
  intros Hinv [((Hn & Hc & He) & Hr & Hs) (He' & Hen & Hco & Hsv) Hst Hh _]. split.
  - rewrite Hn. apply Hinv.
  - by eapply net_inv_ext; [apply (inv_net _ _ Hinv)|..].
  - by eapply heap_inv_shape; [apply (inv_heap _ _ Hinv)|..].
  - by eapply srv_inv_ext; [apply (inv_srv _ _ Hinv)|..].
Qed.

Lemma step_inv n c c' : inv n c → step c c' → inv n c'.
Proof.
  intros Hinv [i ? Hc|i ? Hc|i ? Hc|i names ? Hc|? Hc].
  - pose proof (connect_inv _ _ _ (inv_net _ _ Hinv) Hc) as Hn. apply connect_spec in Hc as [_ Hsw].
    edestruct (switches_invs n) as [Hh Hs]; [exact Hinv|..|exact Hsw|]; [done..|].
    split; [|done..]. rewrite (proj1 (proj1 (switches_frame _ _ _ _ Hsw))). apply Hinv.
  - pose proof (disconnect_inv _ _ _ (inv_net _ _ Hinv) Hc) as [Hn _]. apply disconnect_spec in Hc as [_ Hsw].
    edestruct (switches_invs n) as [Hh Hs]; [exact Hinv|..|exact Hsw|]; [done..|].
    split; [|done..]. rewrite (proj1 (proj1 (switches_frame _ _ _ _ Hsw))). apply Hinv.
  - by eapply crash1_inv.
  - by eapply start1_inv.
  - by eapply background_inv.
Qed.

Lemma reach_inv n c : reach n c → inv n c.
Proof. induction 1; [by apply new_config_inv|by eapply step_inv]. Qed.

(** Changes of the logs and of the modes of the network count as background. *)
Lemma background_config c c' :
  (cf_n c' = cf_n c ∧ cf_connected c' = cf_connected c ∧ cf_endnames c' = cf_endnames c) ∧
    cf_rafts c' = cf_rafts c ∧ cf_saved c' = cf_saved c →
  labrpc.rn_ends (net c') = labrpc.rn_ends (net c) ∧
    labrpc.rn_enabled (net c') = labrpc.rn_enabled (net c) ∧
    labrpc.rn_connections (net c') = labrpc.rn_connections (net c) ∧
    labrpc.rn_servers (net c') = labrpc.rn_servers (net c) →
  mem c' = mem c → labrpc.w_store (cf_w c') = labrpc.w_store (cf_w c) → background c c'.
Proof.
  intros Hf Hn Hm Hst. split; [done|done|..]; unfold heap.
  - intros a rs Ha. rewrite Hst. eauto.
  - rewrite Hm. apply Forall_Forall2_diag, Forall_true, same_shape_refl.
  - rewrite Hm. done.
Qed.

Lemma start_all_reach n names ids : ∀ c c', reach n c →
  start_all snap_decode names ids c = Done c' → reach n c'.
Proof.
  induction ids as [|i ids IH]; intros c c' Hr Hs; simpl in Hs; [by simplify_eq|].
  apply bind_Done in Hs as (logs & _ & Hs). apply bind_Done in Hs as (c1 & H1 & Hs).
  eapply IH; [|exact Hs]. eapply reach_step; [|by eapply step_start1].
  eapply reach_step; [exact Hr|]. by apply step_background, background_config.
Qed.

Lemma connect_all_reach n ids : ∀ c c', reach n c → connect_all ids c = Done c' → reach n c'.
Proof.
  induction ids as [|i ids IH]; intros c c' Hr Hs; simpl in Hs; [by simplify_eq|].
  apply bind_Done in Hs as (c1 & H1 & Hs). eapply IH; [|exact Hs].
  eapply reach_step; [exact Hr|by eapply step_connect].
Qed.

Lemma make_config_reach w n u names c : ap_heap (labrpc.w_app w) = [] →
  make_config snap_decode w n u names = Done c → reach n c.
Proof.
  intros Hw Hc. unfold make_config in Hc. apply bind_Done in Hc as (c1 & H1 & Hc).
  eapply connect_all_reach; [|exact Hc]. eapply start_all_reach; [|exact H1].
  eapply reach_step; [eapply reach_step; [by apply (reach_new n w)|]|];
    by apply step_background, background_config.
Qed.

End histories.
End facts.

