(* ===== verification/RaftTyping.v ===== *)
(** * The memory of the Raft harness is well-typed

    Preservation is [heap_inv] of RaftConfigFacts.v; here is progress: in a config
    that a test can reach, the operations of the harness on a peer return, so no
    nil pointer and no object of another type is met. *)

From S2P Require Import Prelude Persister Raft LabRpc Harness HarnessFacts RaftConfig RaftConfigFacts.
Import raftcfg.
Open Scope Z_scope.

Section typing.
Context {Cmd : Type} `{EqDecision Cmd}.
Implicit Types c : config Cmd.
Variable snap_decode : list Z → option (Z * list (option Cmd)).

(** ** Switching ends *)

Lemma idx_in {A} (l : list A) (k n : nat) : length l = n → (k < n)%nat →
  ∃ x, idx l (Z.of_nat k) = Done x ∧ l !! k = Some x.
Proof.
  intros Hl Hk. destruct (idx_total l (Z.of_nat k)) as [x Hx]; [unfold zlen; lia|].
  exists x. split; [done|]. apply idx_Done in Hx as [_ Hx]. by rewrite Nat2Z.id in Hx.
Qed.

Lemma set_idx_in {A} (l : list A) (k n : nat) x : length l = n → (k < n)%nat →
  set_idx l (Z.of_nat k) x = Done (<[k := x]> l).
Proof. intros Hl Hk. apply set_idx_Done. rewrite Nat2Z.id. split; [unfold zlen; lia|done]. Qed.

(** The tables of names have a row of [n] names for the started peers. *)
Definition rows (n : nat) c : Prop := length (cf_endnames c) = n ∧
  ∀ i names, cf_endnames c !! i = Some (Some names) → length names = n.

Lemma disconnect_out_total n i js : (i < n)%nat → (∀ j, j ∈ js → (j < n)%nat) → ∀ c, rows n c →
  returns (disconnect_out (Z.of_nat i) js c).
Proof.
  intros Hi. induction js as [|j js IH]; intros Hjs c Hr; [by eexists|]. destruct Hr as [Hl Hrow]. cbn [disconnect_out].
  destruct (idx_in (cf_endnames c) i n Hl Hi) as (names & -> & Hn). cbn [mbind outcome_bind].
  assert (∀ j, j ∈ js → (j < n)%nat) as Hjs' by (intros; apply Hjs; by right).
  destruct names as [names|]; [|by apply IH].
  destruct (idx_in names j n (Hrow _ _ Hn)) as (s & -> & _); [apply Hjs; left|]. by apply IH.
Qed.

Lemma disconnect_in_total n i js : (i < n)%nat → (∀ j, j ∈ js → (j < n)%nat) → ∀ c, rows n c →
  returns (disconnect_in (Z.of_nat i) js c).
Proof.
  intros Hi. induction js as [|j js IH]; intros Hjs c Hr; [by eexists|]. destruct Hr as [Hl Hrow]. cbn [disconnect_in].
  destruct (idx_in (cf_endnames c) j n Hl) as (names & -> & Hn); [apply Hjs; left|]. cbn [mbind outcome_bind].
  assert (∀ j, j ∈ js → (j < n)%nat) as Hjs' by (intros; apply Hjs; by right).
  destruct names as [names|]; [|by apply IH].
  destruct (idx_in names i n (Hrow _ _ Hn) Hi) as (s & -> & _). by apply IH.
Qed.

(** Connected peers are started. *)
Definition started c : Prop := length (cf_connected c) = length (cf_endnames c) ∧
  ∀ j, cf_connected c !! j = Some true → ∃ names, cf_endnames c !! j = Some (Some names).

Lemma connect_out_total n i names js : (i < n)%nat → (∀ j, j ∈ js → (j < n)%nat) → ∀ c, rows n c → started c →
  cf_endnames c !! i = Some (Some names) → returns (connect_out (Z.of_nat i) js c).
Proof.
  intros Hi. induction js as [|j js IH]; intros Hjs c Hr Hst Hn; [by eexists|].
  destruct Hr as [Hl Hrow], Hst as [Hlc Hst]. cbn [connect_out].
  assert (∀ j, j ∈ js → (j < n)%nat) as Hjs' by (intros; apply Hjs; by right).
  destruct (idx_in (cf_connected c) j n) as (con & -> & Hc); [congruence|apply Hjs; left|]. cbn [mbind outcome_bind].
  destruct con; [|by apply IH]. rewrite idx_nat, Hn. cbn [mbind outcome_bind from_option id].
  destruct (idx_in names j n (Hrow _ _ Hn)) as (s & -> & _); [apply Hjs; left|]. by apply IH.
Qed.

Lemma connect_in_total n i js : (i < n)%nat → (∀ j, j ∈ js → (j < n)%nat) → ∀ c, rows n c → started c →
  returns (connect_in (Z.of_nat i) js c).
Proof.
  intros Hi. induction js as [|j js IH]; intros Hjs c Hr Hst; [by eexists|].
  destruct Hr as [Hl Hrow], Hst as [Hlc Hst]. cbn [connect_in].
  assert (∀ j, j ∈ js → (j < n)%nat) as Hjs' by (intros; apply Hjs; by right).
  destruct (idx_in (cf_connected c) j n) as (con & -> & Hc); [congruence|apply Hjs; left|]. cbn [mbind outcome_bind].
  destruct con; [|by apply IH]. destruct (Hst j Hc) as [names Hn]. rewrite idx_nat, Hn. cbn [mbind outcome_bind from_option id].
  destruct (idx_in names i n (Hrow _ _ Hn) Hi) as (s & -> & _). by apply IH.
Qed.

Lemma seq_below n j : j ∈ seq 0 n → (j < n)%nat.
Proof. rewrite elem_of_seq. lia. Qed.

Lemma disconnect_total n i c : net_inv c → cf_n c = n → (i < n)%nat → returns (disconnect (Z.of_nat i) c).
Proof.
  intros Hinv Hn Hi. unfold disconnect.
  rewrite (set_idx_in _ i n) by (rewrite ?(ni_connected _ Hinv); done). cbn [mbind outcome_bind].
  set (c1 := set_connected _ c). change (cf_n c1) with (cf_n c). rewrite Hn.
  assert (rows n c1) as Hr.
  { split; [by rewrite <- Hn, <- (ni_endnames _ Hinv)|]. intros k names Hk. rewrite <- Hn. by eapply (ni_row _ Hinv). }
  destruct (disconnect_out_total n i (seq 0 n) Hi (seq_below n) c1 Hr) as [c2 Hc2]. rewrite Hc2. cbn [mbind outcome_bind].
  apply disconnect_out_spec, switches_frame in Hc2 as ((Hn2 & _ & He2 & _) & _).
  rewrite Hn2. change (cf_n c1) with (cf_n c). rewrite Hn. apply (disconnect_in_total n); [done|apply seq_below|].
  unfold rows. by rewrite He2.
Qed.

Lemma connect_total n i names c : net_inv c → cf_n c = n → (i < n)%nat → cf_endnames c !! i = Some (Some names) →
  returns (connect (Z.of_nat i) c).
Proof.
  intros Hinv Hn Hi Hnames. unfold connect.
  rewrite (set_idx_in _ i n) by (rewrite ?(ni_connected _ Hinv); done). cbn [mbind outcome_bind].
  set (c1 := set_connected _ c). change (cf_n c1) with (cf_n c). rewrite Hn.
  assert (rows n c1) as Hr.
  { split; [by rewrite <- Hn, <- (ni_endnames _ Hinv)|]. intros k l Hk. rewrite <- Hn. by eapply (ni_row _ Hinv). }
  assert (started c1) as Hst.
  { split; [simpl; by rewrite length_insert, (ni_connected _ Hinv), (ni_endnames _ Hinv)|].
    simpl. intros j [(<- & _)|[_ Hj]]%list_lookup_insert_Some; [by eexists|by apply (ni_started _ Hinv)]. }
  destruct (connect_out_total n i names (seq 0 n) Hi (seq_below n) c1 Hr Hst Hnames) as [c2 Hc2]. rewrite Hc2.
  cbn [mbind outcome_bind]. apply connect_out_spec, switches_frame in Hc2 as ((Hn2 & Hc2 & He2 & _) & _).
  rewrite Hn2. change (cf_n c1) with (cf_n c). rewrite Hn. apply (connect_in_total n); [done|apply seq_below|..].
  - unfold rows. by rewrite He2.
  - unfold started. by rewrite Hc2, He2.
Qed.

(** ** Persisters and peers *)

Lemma copy_saved_total i ps p c : heap c !! ps = Some (OPersister p) → (i < length (cf_saved c))%nat →
  copy_saved (Z.of_nat i) ps c = Done (put_saved i p c).
Proof.
  intros Hp Hi. unfold copy_saved, copy_persister, persister_at. unfold heap in Hp. rewrite Hp.
  cbn [mbind outcome_bind alloc]. rewrite (set_idx_in _ _ _ _ eq_refl Hi). by destruct p.
Qed.

Lemma renew_saved_total i ps p c : heap c !! ps = Some (OPersister p) → (i < length (cf_saved c))%nat →
  returns (renew_saved (Z.of_nat i) ps c).
Proof.
  intros Hp Hi. unfold renew_saved, persister_at. unfold heap in Hp. rewrite Hp.
  cbn [mbind outcome_bind alloc]. rewrite (set_idx_in _ _ _ _ eq_refl Hi). by eexists.
Qed.

(** The second half of [crash1_locked]: [rf] is killed and the persister renewed. *)
Lemma crash1_kill_total i c n : length (cf_rafts c) = n → length (cf_saved c) = n → (i < n)%nat →
  (∀ q, cf_rafts c !! i = Some (Some q) → ∃ rf a, heap c !! q = Some (ORaft rf a)) →
  (∀ ps, cf_saved c !! i = Some (Some ps) → ∃ p, heap c !! ps = Some (OPersister p)) →
  returns (let! rf := idx (cf_rafts c) (Z.of_nat i) in
    let! c := match rf with
      | Some _ => let! σ := kill_raft (mem c) rf in
          let! rafts := set_idx (cf_rafts c) (Z.of_nat i) None in Done (set_rafts rafts (set_mem σ c))
      | None => Done c
      end in
    let! s := idx (cf_saved c) (Z.of_nat i) in
    match s with Some ps => renew_saved (Z.of_nat i) ps c | None => Done c end).
Proof.
  intros Hr Hs Hi Hq Hp. destruct (idx_in (cf_rafts c) i n Hr Hi) as (rf & -> & Hrf). cbn [mbind outcome_bind].
  assert (∀ c1, cf_saved c1 = cf_saved c →
    (∀ ps p, heap c !! ps = Some (OPersister p) → heap c1 !! ps = Some (OPersister p)) →
    returns (let! s := idx (cf_saved c1) (Z.of_nat i) in
             match s with Some ps => renew_saved (Z.of_nat i) ps c1 | None => Done c1 end)) as Hrest.
  { intros c1 Hs1 Hh1. rewrite Hs1. destruct (idx_in (cf_saved c) i n Hs Hi) as (s & -> & Hsi). cbn [mbind outcome_bind].
    destruct s as [ps|]; [|by eexists]. destruct (Hp ps Hsi) as [p Hps]. apply (renew_saved_total i ps p); [by apply Hh1|].
    rewrite Hs1. lia. }
  destruct rf as [q|]; cbn [mbind outcome_bind]; [|by apply Hrest].
  destruct (Hq q Hrf) as (rf & a & Hqa). unfold kill_raft, raft_at. unfold heap in Hqa. rewrite Hqa.
  cbn [mbind outcome_bind]. rewrite (set_idx_in _ i n _ Hr Hi). cbn [mbind outcome_bind]. apply Hrest; [done|].
  intros ps p Hps. unfold heap, mem. simpl. rewrite list_lookup_insert_ne; [done|]. intros <-.
  unfold heap in Hps. congruence.
Qed.

Lemma crash1_locked_total i c : heap_inv None c → (i < cf_n c)%nat → returns (crash1_locked (Z.of_nat i) c).
Proof.
  intros Hinv Hi. unfold crash1_locked. pose proof (hi_rafts _ _ Hinv) as Hr. pose proof (hi_len _ _ Hinv) as Hs.
  destruct (idx_in (cf_saved c) i _ Hs Hi) as (s & -> & Hsi). cbn [mbind outcome_bind].
  assert (∀ q, cf_rafts c !! i = Some (Some q) → ∃ rf a, heap c !! q = Some (ORaft rf a)) as Hq.
  { intros q Hq. destruct (hi_raft _ _ Hinv i q ltac:(done) Hq) as (rf & a & Ha & _). by eauto. }
  destruct s as [ps|].
  - destruct (hi_saved _ _ Hinv _ _ Hsi) as [p Hp]. rewrite (copy_saved_total i ps p c Hp) by lia.
    cbn [mbind outcome_bind]. apply (crash1_kill_total i _ (cf_n c)).
    + done.
    + simpl. by rewrite length_insert.
    + done.
    + intros q Hqi. destruct (Hq q Hqi) as (rf & a & Ha). exists rf, a. by apply heap_app_old.
    + intros ps'. simpl. rewrite list_lookup_insert_eq by lia. intros [= <-]. exists p. apply heap_app_new.
  - cbn [mbind outcome_bind]. apply (crash1_kill_total i _ (cf_n c)); [done|done|done|done|].
    intros ps Hps. apply (hi_saved _ _ Hinv _ _ Hps).
Qed.

Lemma crash1_total n i c : inv n c → (i < n)%nat → returns (crash1 (Z.of_nat i) c).
Proof.
  intros Hinv Hi. unfold crash1.
  destruct (disconnect_total n i c (inv_net _ _ Hinv) (inv_n _ _ Hinv) Hi) as [c1 Hc1]. rewrite Hc1. cbn [mbind outcome_bind].
  apply disconnect_spec in Hc1 as [_ Hsw].
  pose proof (switches_invs n _ _ c (set_connected (<[Z.to_nat (Z.of_nat i) := false]> (cf_connected c)) c) c1 Hinv
    eq_refl eq_refl eq_refl eq_refl Hsw) as [Hh _].
  pose proof (switches_frame _ _ _ _ Hsw) as ((Hn & _) & _). simpl in Hn.
  apply crash1_locked_total; [by apply (same_memory_inv _ c1)|]. simpl. by rewrite Hn, (inv_n _ _ Hinv).
Qed.

(** ** Starting *)

Lemma crash1_frame i c c' : crash1 i c = Done c' → cf_lastApplied c' = cf_lastApplied c ∧
  cf_logs c' = cf_logs c ∧ labrpc.rn_ends (net c') = labrpc.rn_ends (net c).
Proof.
  unfold crash1. intros Hc. apply bind_Done in Hc as (c1 & [_ Hsw]%disconnect_spec & Hc).
  pose proof (switches_frame _ _ _ _ Hsw) as (_ & _ & _ & He & _). destruct Hsw as (ns & -> & _).
  match type of Hc with crash1_locked _ ?x = _ => set (d := x) in Hc end.
  unfold crash1_locked in Hc. apply bind_Done in Hc as (s & _ & Hc).
  assert (∀ x y, cf_lastApplied y = cf_lastApplied x ∧ cf_logs y = cf_logs x ∧ net y = net x →
    cf_lastApplied x = cf_lastApplied c ∧ cf_logs x = cf_logs c ∧ labrpc.rn_ends (net x) = labrpc.rn_ends (net c) →
    cf_lastApplied y = cf_lastApplied c ∧ cf_logs y = cf_logs c ∧ labrpc.rn_ends (net y) = labrpc.rn_ends (net c))
    as Htrans by (intros x y (-> & -> & ->); done).
  apply bind_Done in Hc as (c2 & Hc2 & Hc). apply bind_Done in Hc as (rf & _ & Hc).
  apply bind_Done in Hc as (c3 & Hc3 & Hc). apply bind_Done in Hc as (s' & _ & Hc).
  apply (Htrans c3). { destruct s'; [apply renew_saved_Done in Hc as (p & _ & ->)|apply Done_inj in Hc as <-]; split_and!; reflexivity. }
  apply (Htrans c2). { clear Hc. destruct rf; [|apply Done_inj in Hc3 as <-; split_and!; reflexivity]. go_inv. split_and!; reflexivity. }
  apply (Htrans d). { destruct s; [apply copy_saved_Done in Hc2 as (p & _ & ->)|apply Done_inj in Hc2 as <-]; split_and!; reflexivity. }
  split; [done|]. split; [done|]. exact He.
Qed.

Lemma start1_ends_total n i names js : (i < n)%nat → NoDup js → (∀ j, j ∈ js → (j < n)%nat) →
  (∀ j k, (j < n)%nat → (k < n)%nat → names j = names k → j = k) → ∀ c,
  cf_endnames c !! i = Some (Some (names <$> seq 0 n)) →
  (∀ j, j ∈ js → labrpc.rn_ends (net c) !! NStr (names j) = None) → returns (start1_ends (Z.of_nat i) js c).
Proof.
  intros Hi Hnd Hjs Hinj. induction js as [|j js IH]; intros c He Hnew; [by eexists|].
  apply NoDup_cons in Hnd as [Hj Hnd]. cbn [start1_ends]. rewrite idx_nat, He. cbn [mbind outcome_bind from_option id].
  assert ((j < n)%nat) as Hjn by (apply Hjs; left).
  rewrite idx_nat, list_lookup_fmap, lookup_seq_lt by done. cbn [fmap option_fmap option_map mbind outcome_bind].
  unfold Harness.make_end, labrpc.MakeEnd. pose proof (Hnew j ltac:(left)) as Hn0. unfold net in Hn0.
  cbn [Nat.add] in *. rewrite Hn0. cbn [mbind outcome_bind].
  apply IH; [done|intros; apply Hjs; by right|done|]. intros k Hk. unfold net. simpl.
  rewrite lookup_insert_ne; [apply Hnew; by right|]. intros [= Heq].
  apply Hinj in Heq; [by subst|done|apply Hjs; by right].
Qed.

Lemma start1_saved_total i c n : heap_inv (Some i) c → (i < cf_n c)%nat → length (cf_logs c) = n →
  length (cf_lastApplied c) = n → (i < n)%nat →
  (∀ rs b, saved_data c i = Some (rs, Some b) → 0 < zlen b → is_Some (snap_decode b)) →
  ∃ c' ps p, start1_saved snap_decode (Z.of_nat i) c = Done c' ∧ cf_saved c' !! i = Some (Some ps) ∧
    heap c' !! ps = Some (OPersister p) ∧ cf_rafts c' = cf_rafts c.
Proof.
  intros Hinv Hi Hlogs Hla Hin Hsnap. pose proof (hi_len _ _ Hinv) as Hs. unfold start1_saved.
  destruct (idx_in (cf_saved c) i _ Hs Hi) as (s & -> & Hsi). cbn [mbind outcome_bind]. destruct s as [ps|].
  - destruct (hi_saved _ _ Hinv _ _ Hsi) as [p Hp]. rewrite (copy_saved_total i ps p c Hp) by lia. cbn [mbind outcome_bind].
    set (c1 := put_saved i p c). assert (cf_saved c1 !! i = Some (Some (length (heap c)))) as Hs1.
    { simpl. by rewrite list_lookup_insert_eq by lia. }
    assert (heap c1 !! length (heap c) = Some (OPersister p)) as Hp1 by apply heap_app_new.
    rewrite idx_nat, Hs1. cbn [mbind outcome_bind]. unfold persister_at.
    change (ap_heap (mem c1)) with (heap c1). rewrite Hp1. cbn [mbind outcome_bind].
    destruct (_ && _) eqn:Hc; [|by exists c1, (length (heap c)), p].
    unfold ingestSnap, persister.ReadSnapshot, persister.clone. unfold persister.ReadSnapshot, persister.clone, blen in Hc.
    z_bool. simpl in *.
    destruct (Hsnap (persister.ReadRaftState p) (default [] (snapshot p))) as [[li xlog] Hd].
    { unfold saved_data. rewrite Hsi. simpl. by rewrite Hp. }
    { done. }
    rewrite Hd. simpl. rewrite (set_idx_in _ i n) by done. cbn [mbind outcome_bind].
    rewrite (set_idx_in _ i n) by done. cbn [mbind outcome_bind]. simpl.
    by eexists _, (length (heap c)), p.
  - cbn [alloc mbind outcome_bind]. rewrite (set_idx_in _ i (cf_n c)) by done. cbn [mbind outcome_bind].
    eexists _, (length (heap c)), _. split; [done|]. split; [simpl; by rewrite list_lookup_insert_eq by lia|].
    split; [|done]. unfold heap, mem. simpl. apply heap_app_new.
Qed.

Lemma start1_total n i names c : inv n c → (i < n)%nat → length (cf_lastApplied c) = n → length (cf_logs c) = n →
  (∀ j, (j < n)%nat → labrpc.rn_ends (net c) !! NStr (names j) = None) →
  (∀ j k, (j < n)%nat → (k < n)%nat → names j = names k → j = k) →
  (∀ rs b, saved_data c i = Some (rs, Some b) → 0 < zlen b → is_Some (snap_decode b)) →
  returns (start1 snap_decode (Z.of_nat i) names c).
Proof.
  intros Hinv Hi Hla Hlogs Hnew Hinj Hsnap. unfold start1.
  destruct (crash1_total n i c Hinv Hi) as [c1 Hc1]. rewrite Hc1. cbn [mbind outcome_bind].
  destruct (crash1_frame _ _ _ Hc1) as (Hla1 & Hlogs1 & He1).
  destruct (crash1_inv _ _ _ _ Hinv Hc1) as (Hinv1 & _ & _ & Hnone & Hd1). rewrite Nat2Z.id in Hnone.
  pose proof (inv_n _ _ Hinv1) as Hn1.
  rewrite (set_idx_in _ i n) by (rewrite ?(ni_endnames _ (inv_net _ _ Hinv1)); done). cbn [mbind outcome_bind].
  set (c2 := set_endnames _ c1). change (cf_n c2) with (cf_n c1). rewrite Hn1.
  assert (cf_endnames c2 !! i = Some (Some (names <$> seq 0 n))) as He2.
  { simpl. rewrite Hn1. apply list_lookup_insert_eq. rewrite (ni_endnames _ (inv_net _ _ Hinv1)). lia. }
  destruct (start1_ends_total n i names (seq 0 n) Hi (NoDup_seq _ _) (seq_below n) Hinj c2 He2) as [c3 Hc3].
  { intros j Hj%seq_below. change (net c2) with (net c1). rewrite He1. by apply Hnew. }
  rewrite Hc3. cbn [mbind outcome_bind].
  apply start1_ends_spec with (l := names <$> seq 0 n) in Hc3 as (w & -> & Hmem & _); [|by rewrite Nat2Z.id|apply NoDup_seq].
  set (c3 := set_w w c2). assert (same_memory c1 c3) as Hm3 by (split_and!; [exact Hmem|done..]).
  unfold start1_make. rewrite (set_idx_in _ i n) by (simpl; rewrite ?Hla1; done). cbn [mbind outcome_bind].
  set (c4 := set_lastApplied _ c3).
  assert (heap_inv (Some i) c4) as Hh4.
  { apply (same_memory_inv _ c1); [exact Hm3|]. apply heap_inv_skip; [apply (inv_heap _ _ Hinv1)|].
    intros q rf a Hq Ha. destruct (hi_own _ _ (inv_heap _ _ Hinv1) _ _ _ _ Hq Ha). congruence. }
  destruct (start1_saved_total i c4 n Hh4) as (c5 & ps & p & Hc5 & Hs5 & Hp5 & Hr5).
  - simpl. by rewrite Hn1.
  - simpl. by rewrite Hlogs1.
  - simpl. by rewrite length_insert, Hla1.
  - done.
  - intros rs b Hb. change (saved_data c4 i) with (saved_data c3 i) in Hb.
    rewrite (same_memory_data _ _ _ Hm3), Hd1 in Hb. by eapply Hsnap.
  - rewrite Hc5. cbn [mbind outcome_bind]. rewrite idx_nat, Hs5. cbn [mbind outcome_bind].
    unfold make_raft, persister_at. change (ap_heap (mem c5)) with (heap c5). rewrite Hp5. cbn [mbind outcome_bind alloc].
    rewrite (set_idx_in _ i n); [|simpl; rewrite Hr5; simpl; by rewrite (hi_rafts _ _ (inv_heap _ _ Hinv1)), Hn1|done].
    cbn [mbind outcome_bind]. by eexists.
Qed.

End typing.
