(* ===== verification/RaftMonitor.v ===== *)
(** * What the Raft harness accepts

    The appliers of raft/config.go read what the peers send on their channels.
    [monitor] runs them on the messages of all peers in the order in which
    [cfg.mu] is taken; this file says exactly which sequences pass, and what
    that means for the runs of RaftCluster.v. *)

From S2P Require Import Prelude Persister Raft RaftFacts RaftCluster RaftBase RaftElection RaftLog.
From S2P Require Import LabRpc Harness HarnessFacts RaftConfig.
Import cluster raft_base raft_log.
Import raftcfg.
Open Scope Z_scope.

Section monitor.
Context {Cmd : Type} `{EqDecision Cmd}.
Implicit Types c : config Cmd.

(** A message of a peer. *)
Definition event : Type := nat * ApplyMsg Cmd.
Implicit Types (evs pre : list event) (e : event) (m : ApplyMsg Cmd).

Fixpoint monitor evs c : outcome (config Cmd) :=
  match evs with
  | [] => Done c
  | (i, m) :: evs' => let! c := applier_msg (Z.of_nat i) m c in monitor evs' c
  end.

(** Peer [e.1] applied command [v] at index [k]. *)
Definition applies (k : Z) (v : option Cmd) e : Prop :=
  am_CommandValid e.2 = true ∧ am_CommandIndex e.2 = k ∧ am_Command e.2 = v.

(** The specification of one message, given the earlier ones: no peer applied
    another command at this index, and this peer applied the index before. *)
Definition agrees pre e : Prop :=
  Forall (λ e', am_CommandValid e'.2 = true → am_CommandIndex e'.2 = am_CommandIndex e.2 →
    am_Command e'.2 = am_Command e.2) pre.
Definition in_order pre e : Prop :=
  1 < am_CommandIndex e.2 →
  Exists (λ e', e'.1 = e.1 ∧ am_CommandValid e'.2 = true ∧
    am_CommandIndex e'.2 = am_CommandIndex e.2 - 1) pre.
Definition accepted pre e : Prop :=
  am_CommandValid e.2 = true → agrees pre e ∧ in_order pre e.

#[global] Instance agrees_dec pre e : Decision (agrees pre e).
Proof. unfold agrees. apply Forall_dec. intros e'. apply _. Defined.
#[global] Instance in_order_dec pre e : Decision (in_order pre e).
Proof. unfold in_order. apply impl_dec; [apply _|]. apply Exists_dec. intros e'. apply _. Defined.

(** [cfg.logs] holds exactly what was applied. *)
Definition logs_hold (n : nat) pre c : Prop :=
  length (cf_logs c) = n ∧ Forall (λ e, e.1 < n)%nat pre ∧
  ∀ i, (i < n)%nat → ∃ L, cf_logs c !! i = Some (Some L) ∧
    ∀ k v, L !! k = Some v ↔ ∃ e, e ∈ pre ∧ e.1 = i ∧ applies k v e.

Lemma logs_hold_empty n c : cf_logs c = replicate n (Some ∅) → logs_hold n [] c.
Proof.
  intros Hl. unfold logs_hold. rewrite Hl, length_replicate. split_and!; [done|constructor|].
  intros i Hi. exists ∅. split; [by apply lookup_replicate_2|].
  intros k v. rewrite lookup_empty. split; [done|]. by intros (e & He%elem_of_nil & _).
Qed.

Lemma log_at_spec n pre c j k : logs_hold n pre c → (j < n)%nat →
  ∃ o, log_at c j k = Done o ∧ ∀ v, o = Some v ↔ ∃ e, e ∈ pre ∧ e.1 = j ∧ applies k v e.
Proof.
  intros (Hl & _ & Hh) Hj. destruct (Hh j Hj) as (L & HL & HLk). unfold log_at.
  rewrite idx_nat, HL. simpl. eexists. split; [done|]. intros v. apply HLk.
Qed.

Lemma checkLogs_loop_spec n pre c k v js : ∀ err,
  logs_hold n pre c → Forall (λ j, j < n)%nat js →
  ∃ r, checkLogs_loop c k v js err = Done r ∧
    ((∀ e, e ∈ pre → e.1 ∈ js → ∀ v', applies k v' e → v' = v) → r = err) ∧
    (¬ (∀ e, e ∈ pre → e.1 ∈ js → ∀ v', applies k v' e → v' = v) → r = "commit index != server").
Proof.
  induction js as [|j js IH]; intros err Hh Hjs; simpl.
  - exists err. split_and!; [done..|]. intros []. set_solver.
  - apply Forall_cons in Hjs as [Hj Hjs].
    destruct (log_at_spec n pre c j k Hh Hj) as (o & Ho & Hv). rewrite Ho. simpl.
    assert ((∀ e, e ∈ pre → e.1 ∈ j :: js → ∀ v', applies k v' e → v' = v) ↔
      (∀ e, e ∈ pre → e.1 = j → ∀ v', applies k v' e → v' = v) ∧
      (∀ e, e ∈ pre → e.1 ∈ js → ∀ v', applies k v' e → v' = v)) as Hsplit.
    { split.
      - intros Ha. split; intros e He Hej v' Hv'; apply (Ha e He); try done; apply elem_of_cons; auto.
      - intros [Ha Hb] e He [Hej|Hej]%elem_of_cons; [by apply Ha|by apply Hb]. }
    destruct Hsplit as [Hs1 Hs2]. destruct o as [old|].
    + destruct (proj1 (Hv old) eq_refl) as (e & He & Hej & Ha).
      assert (∀ e v', e ∈ pre → e.1 = j → applies k v' e → v' = old) as Huniq.
      { intros e' v' He' Hj' Ha'. assert (Some old = Some v') by (apply Hv; eauto). congruence. }
      case_bool_decide as Hold; simpl.
      * subst old. destruct (IH err Hh Hjs) as (r & Hr & H1 & H2). exists r. split; [done|]. split.
        -- intros [_ Hb]%Hs1. auto.
        -- intros Hn. apply H2. intros Hb. apply Hn, Hs2. split; [|done]. eauto.
      * destruct (IH "commit index != server" Hh Hjs) as (r & Hr & H1 & H2). exists r. split; [done|]. split.
        -- intros [Hb _]%Hs1. destruct Hold. by apply (Hb e).
        -- intros _. destruct (decide (r = "commit index != server")) as [|Hne]; [done|].
           apply H2. intros Hb. apply Hne. by apply H1.
    + destruct (IH err Hh Hjs) as (r & Hr & H1 & H2). exists r. split; [done|]. split.
      * intros [_ Hb]%Hs1. auto.
      * intros Hn. apply H2. intros Hb. apply Hn, Hs2. split; [|done].
        intros e He Hej v' Hv'. assert (None = Some v') by (apply Hv; eauto). done.
Qed.

Lemma logs_hold_lookup n pre i m c L : logs_hold n pre c → (i < n)%nat →
  am_CommandValid m = true → agrees pre (i, m) → cf_logs c !! i = Some (Some L) →
  ∀ k v, <[am_CommandIndex m := am_Command m]> L !! k = Some v ↔
    ∃ e, e ∈ pre ++ [(i, m)] ∧ e.1 = i ∧ applies k v e.
Proof.
  intros (_ & _ & HL) Hi Hval Hag HLi k v. destruct (HL i Hi) as (L' & HLi' & HLk).
  rewrite HLi in HLi'. injection HLi' as <-.
  setoid_rewrite elem_of_app. setoid_rewrite list_elem_of_singleton.
  destruct (decide (k = am_CommandIndex m)) as [->|Hne].
  - rewrite lookup_insert_eq. split.
    + intros [= <-]. exists (i, m). split_and!; [by right|done|]. done.
    + intros (e & [He| ->] & Hei & Hv & Hk & <-); [|done].
      unfold agrees in Hag. rewrite Forall_forall in Hag. by rewrite (Hag e He Hv Hk).
  - rewrite lookup_insert_ne by done. rewrite HLk. split.
    + intros (e & He & Hrest). exists e. auto.
    + intros (e & [He| ->] & Hei & Hrest); [by exists e|]. by destruct Hrest as (_ & <- & _).
Qed.

Lemma logs_hold_keep n pre i m c : logs_hold n pre c → (i < n)%nat → am_CommandValid m = false →
  logs_hold n (pre ++ [(i, m)]) c.
Proof.
  intros (Hlen & Hpre & HL) Hi Hval. split_and!; [done|apply Forall_app; split; [done|by apply Forall_singleton]|].
  intros j Hj. destruct (HL j Hj) as (L & HLj & HLk). exists L. split; [done|]. intros k v. rewrite HLk.
  setoid_rewrite elem_of_app. setoid_rewrite list_elem_of_singleton. split.
  - intros (e & He & Hrest). exists e. auto.
  - intros (e & [He| ->] & Hej & Hv & Hrest); [by exists e|]. simpl in Hv. congruence.
Qed.

Lemma logs_hold_add n pre i m c c' L : logs_hold n pre c → (i < n)%nat →
  am_CommandValid m = true → agrees pre (i, m) → cf_logs c !! i = Some (Some L) →
  cf_logs c' = <[i := Some (<[am_CommandIndex m := am_Command m]> L)]> (cf_logs c) →
  logs_hold n (pre ++ [(i, m)]) c'.
Proof.
  intros Hh Hi Hval Hag HLi Hc'. pose proof Hh as (Hlen & Hpre & HL).
  split_and!; [by rewrite Hc', length_insert|apply Forall_app; split; [done|by apply Forall_singleton]|].
  intros j Hj. rewrite Hc'. destruct (decide (i = j)) as [<-|Hne].
  - rewrite list_lookup_insert_eq by lia. eexists. split; [done|]. by eapply logs_hold_lookup.
  - rewrite list_lookup_insert_ne by done. destruct (HL j Hj) as (Lj & HLj & HLk).
    exists Lj. split; [done|]. intros k v. rewrite HLk.
    setoid_rewrite elem_of_app. setoid_rewrite list_elem_of_singleton. split.
    + intros (e & He & Hrest). exists e. auto.
    + intros (e & [He| ->] & Hej & Hrest); [by exists e|]. done.
Qed.

(** One message: accepted and recorded, or reported. *)
Lemma applier_msg_spec n pre c i m : logs_hold n pre c → (i < n)%nat →
  (accepted pre (i, m) →
    ∃ c', applier_msg (Z.of_nat i) m c = Done c' ∧ logs_hold n (pre ++ [(i, m)]) c') ∧
  (am_CommandValid m = true → ¬ in_order pre (i, m) →
    applier_msg (Z.of_nat i) m c = Fatal "apply error: server apply out of order") ∧
  (am_CommandValid m = true → in_order pre (i, m) → ¬ agrees pre (i, m) →
    applier_msg (Z.of_nat i) m c = Fatal "apply error: commit index != server").
Proof.
  intros Hh Hi. pose proof Hh as (Hlen & Hpre & HL). unfold applier_msg, accepted.
  destruct (am_CommandValid m) eqn:Hval; simpl.
  2:{ split_and!; [|done..]. intros _. exists c. split; [done|].
      by apply logs_hold_keep. }
  unfold checkLogs.
  destruct (checkLogs_loop_spec n pre c (am_CommandIndex m) (am_Command m) (seq 0 (length (cf_logs c))) "" Hh)
    as (r & Hr & Hr1 & Hr2).
  { apply Forall_forall. intros j Hj%elem_of_seq. lia. }
  rewrite Hr. cbn [mbind outcome_bind]. rewrite idx_nat.
  destruct (HL i Hi) as (L & HLi & HLk). rewrite HLi. cbn [mbind outcome_bind default].
  assert (set_idx (cf_logs c) (Z.of_nat i) (Some (<[am_CommandIndex m := am_Command m]> L)) =
    Done (<[i := Some (<[am_CommandIndex m := am_Command m]> L)]> (cf_logs c))) as ->.
  { apply set_idx_Done. rewrite Nat2Z.id. unfold zlen. split; [lia|done]. }
  cbn [mbind outcome_bind].
  assert ((∀ e, e ∈ pre → e.1 ∈ seq 0 (length (cf_logs c)) → ∀ v', applies (am_CommandIndex m) v' e →
    v' = am_Command m) ↔ agrees pre (i, m)) as Hag.
  { unfold agrees, applies. rewrite Forall_forall. rewrite Forall_forall in Hpre. split.
    - intros Ha e He Hv Hk. apply (Ha e He); [|done]. apply elem_of_seq. specialize (Hpre e He). lia.
    - intros Ha e He _ v' (Hv & Hk & <-). by apply Ha. }
  rewrite Hag in Hr1, Hr2. clear Hag Hr.
  assert ((1 <? am_CommandIndex m) && negb (bool_decide (is_Some (L !! (am_CommandIndex m - 1)))) =
    negb (bool_decide (in_order pre (i, m)))) as Hord.
  { unfold in_order. simpl. destruct (Z.ltb_spec 1 (am_CommandIndex m)) as [Hlt|Hge]; simpl.
    - f_equal. apply bool_decide_ext. rewrite Exists_exists. split.
      + intros [v Hv] _. apply HLk in Hv as (e & He & Hei & Hv & Hk & _). by exists e.
      + intros Hex. destruct (Hex Hlt) as (e & He & Hei & Hv & Hk). exists (am_Command e.2).
        apply HLk. by exists e.
    - rewrite bool_decide_eq_true_2 by lia. done. }
  change (id L) with L. rewrite Hord. split_and!.
  - intros Hacc. destruct (Hacc Hval) as [Ha Ho]. rewrite (Hr1 Ha), (bool_decide_eq_true_2 _ Ho). simpl.
    eexists. split; [done|]. eapply logs_hold_add; [done..|]. by case_match.
  - intros _ Hno. by rewrite (bool_decide_eq_false_2 _ Hno).
  - intros _ Ho Hna. by rewrite (bool_decide_eq_true_2 _ Ho), (Hr2 Hna).
Qed.

(** Every message is accepted, given the ones before it. *)
Fixpoint all_accepted pre evs : Prop :=
  match evs with
  | [] => True
  | e :: evs' => accepted pre e ∧ all_accepted (pre ++ [e]) evs'
  end.

Lemma all_accepted_iff evs : ∀ pre, all_accepted pre evs ↔
  ∀ evs1 e evs2, evs = evs1 ++ e :: evs2 → accepted (pre ++ evs1) e.
Proof.
  induction evs as [|e evs IH]; intros pre; simpl.
  - split; [|done]. intros _ evs1 e evs2 Heq. by destruct evs1.
  - rewrite IH. split.
    + intros [He Hrest] [|e1 evs1] e' evs2 Heq; simplify_eq/=; [by rewrite app_nil_r|].
      rewrite cons_middle, (assoc_L (++) pre [e1] evs1). by eapply Hrest.
    + intros Hall. split.
      * specialize (Hall [] e evs eq_refl). by rewrite app_nil_r in Hall.
      * intros evs1 e' evs2 ->. rewrite <- (assoc_L (++)). by apply (Hall (e :: evs1) e' evs2).
Qed.

Lemma monitor_spec n evs : ∀ pre c, logs_hold n pre c → Forall (λ e, e.1 < n)%nat evs →
  (all_accepted pre evs ∧ ∃ c', monitor evs c = Done c' ∧ logs_hold n (pre ++ evs) c') ∨
  (¬ all_accepted pre evs ∧ ∃ s, monitor evs c = Fatal ("apply error: " +:+ s) ∧
     ((∀ evs1 e evs2, evs = evs1 ++ e :: evs2 → in_order (pre ++ evs1) e) → s = "commit index != server")).
Proof.
  induction evs as [|[i m] evs IH]; intros pre c Hh Hevs; simpl.
  - left. rewrite app_nil_r. eauto.
  - apply Forall_cons in Hevs as [Hi Hevs]. simpl in Hi.
    destruct (applier_msg_spec n pre c i m Hh Hi) as (Hok & Hno & Hna).
    destruct (decide (accepted pre (i, m))) as [Hacc|Hnacc].
    + destruct (Hok Hacc) as (c' & -> & Hh'). simpl.
      destruct (IH _ _ Hh' Hevs) as [(Hall & c2 & Hm & Hh2)|(Hnot & s & Hm & Hs)].
      * left. split; [done|]. exists c2. split; [done|]. by rewrite <- (assoc_L (++)) in Hh2.
      * right. split; [naive_solver|]. exists s. split; [done|]. intros Hord. apply Hs.
        intros evs1 e evs2 ->. rewrite <- (assoc_L (++)). by apply (Hord ((i, m) :: evs1) e evs2).
    + right. split; [naive_solver|]. unfold accepted in Hnacc. simpl in Hnacc.
      destruct (am_CommandValid m) eqn:Hv; [|naive_solver].
      destruct (decide (in_order pre (i, m))) as [Ho|Ho].
      * exists "commit index != server". split; [|done]. rewrite Hna; [done..|naive_solver].
      * exists "server apply out of order". split; [by rewrite Hno|].
        intros Hord. destruct Ho. specialize (Hord [] (i, m) evs eq_refl). by rewrite app_nil_r in Hord.
Qed.

(** ** The messages of a cluster run *)

Definition label_events (l : label Cmd) : list event :=
  match l with LApply i msgs => pair i <$> msgs | _ => [] end.

(** The messages of a run, oldest first (a trace has its newest event first). *)
Definition events_of (tr : list (label Cmd)) : list event := concat (label_events <$> reverse tr).

(** All peers apply the same command at the same index. *)
Definition peers_agree evs : Prop := ∀ e e', e ∈ evs → e' ∈ evs →
  am_CommandIndex e.2 = am_CommandIndex e'.2 → am_Command e.2 = am_Command e'.2.

Lemma events_cons l tr : events_of (l :: tr) = events_of tr ++ label_events l.
Proof. unfold events_of. rewrite reverse_cons, fmap_app, concat_app. simpl. by rewrite app_nil_r. Qed.

Lemma events_applied tr i :
  applied tr i = (λ e, am_CommandIndex e.2) <$> filter (λ e, e.1 = i) (events_of tr).
Proof.
  induction tr as [|l tr IH]; [done|]. rewrite applied_cons, events_cons, filter_app, fmap_app, IH.
  f_equal. destruct l as [| | | |j msgs|]; try done. simpl. destruct (decide (j = i)) as [->|Hne].
  - rewrite filter_every; [by rewrite <- list_fmap_compose|].
    intros e (m & -> & _)%list_elem_of_fmap. done.
  - rewrite filter_none; [done|]. intros e (m & -> & _)%list_elem_of_fmap. done.
Qed.

Lemma apply_loop_valid fuel : ∀ (rf rf' : Raft Cmd) msgs, raft.apply_loop fuel rf = Done (rf', msgs) →
  Forall (λ m, am_CommandValid m = true) msgs.
Proof.
  induction fuel as [|fuel IH]; intros rf rf' msgs Hl; simpl in Hl; [go_inv; constructor|].
  go_inv; [|constructor]. destruct x0 as [rf1 ms]. go_inv. constructor; [done|]. by eapply IH.
Qed.

Lemma exec_events n tr (σ : cluster Cmd) : exec n tr σ →
  Forall (λ e, (e.1 < n)%nat ∧ am_CommandValid e.2 = true) (events_of tr).
Proof.
  induction 1 as [|tr σ l σ' Hex IH Hst]; [constructor|]. rewrite events_cons, Forall_app.
  split; [done|]. destruct Hst; simpl; try constructor; try (by unfold grant_label, push_label, win_label; repeat case_match; constructor).
  apply Forall_fmap, Forall_forall. intros m Hm. simpl. split.
  - eapply base_node_lt; [by eapply exec_base|done].
  - unfold raft.CommitChecker in *. case_match; [by simplify_eq/=; apply elem_of_nil in Hm|].
    match goal with H : raft.apply_loop _ _ = _ |- _ => apply apply_loop_valid in H as Hv end.
    rewrite Forall_forall in Hv. by apply Hv.
Qed.

(** The appliers read [evs] of a run: every one reads the messages of its peer in
    order, and [cfg.mu] is taken by the appliers in any order. *)
Definition reads tr evs : Prop :=
  ∀ i, filter (λ e, e.1 = i) evs `prefix_of` filter (λ e, e.1 = i) (events_of tr).

Lemma reads_all tr : reads tr (events_of tr).
Proof. by intros i. Qed.

Lemma reads_events n tr (σ : cluster Cmd) evs : exec n tr σ → reads tr evs →
  Forall (λ e, (e.1 < n)%nat ∧ am_CommandValid e.2 = true) evs.
Proof.
  intros Hex Hr. pose proof (exec_events _ _ _ Hex) as Hev. rewrite Forall_forall in Hev |- *.
  intros e He. apply Hev. eapply (list_elem_of_filter (λ e', e'.1 = e.1)).
  eapply elem_of_prefix; [|apply (Hr e.1)]. by apply list_elem_of_filter.
Qed.

(** In a run no peer ever applies out of order. *)
Lemma reads_in_order n tr (σ : cluster Cmd) evs evs1 e evs2 : exec n tr σ → reads tr evs →
  evs = evs1 ++ e :: evs2 → in_order evs1 e.
Proof.
  intros Hex Hr Heq Hlt. pose proof (reads_events _ _ _ _ Hex Hr) as Hev. rewrite Heq in Hev.
  apply Forall_app in Hev as [Hev1 [[Hn _] _]%Forall_cons].
  destruct (lookup_lt_is_Some_2 (nodes σ) e.1) as [rf Hrf].
  { by rewrite (b_len _ _ (exec_base _ _ _ Hex)). }
  destruct (exec_applied n tr σ Hex e.1 rf Hrf) as (_ & _ & Happ). rewrite events_applied in Happ.
  destruct (Hr e.1) as [rest Hrest]. rewrite Hrest in Happ.
  rewrite Heq, filter_app, filter_cons_True, !fmap_app in Happ by done. simpl in Happ.
  set (A := filter _ evs1) in *. set (k := length A).
  assert (∀ j x, ((λ e : event, am_CommandIndex e.2) <$> A) !! j = Some x → x = 1 + Z.of_nat j) as Hnum.
  { intros j x Hj. assert (seqZ 1 (lastApplied rf) !! j = Some x) as Hs
      by (rewrite <- Happ; by do 2 apply lookup_app_l_Some).
    apply lookup_seqZ in Hs as [-> _]. lia. }
  assert (am_CommandIndex e.2 = 1 + Z.of_nat k) as Hk.
  { assert (seqZ 1 (lastApplied rf) !! k = Some (am_CommandIndex e.2)) as Hs.
    { rewrite <- Happ. apply lookup_app_l_Some.
      rewrite lookup_app_r; rewrite length_fmap; [|done]. unfold k. by rewrite Nat.sub_diag. }
    apply lookup_seqZ in Hs as [-> _]. lia. }
  destruct (lookup_lt_is_Some_2 A (k - 1)) as [e' He']; [unfold k in *; lia|].
  apply Exists_exists. exists e'. pose proof (list_elem_of_lookup_2 _ _ _ He') as Hin.
  apply list_elem_of_filter in Hin as [Hi Hin]. rewrite Forall_forall in Hev1.
  split_and!; [done|done|by apply Hev1|].
  rewrite (Hnum (k - 1)%nat (am_CommandIndex e'.2)); [lia|]. by rewrite list_lookup_fmap, He'.
Qed.

(** So the harness accepts a run exactly when the peers agree. *)
Lemma reads_accepted n tr (σ : cluster Cmd) evs : exec n tr σ → reads tr evs →
  all_accepted [] evs ↔ peers_agree evs.
Proof.
  intros Hex Hr. pose proof (reads_events _ _ _ _ Hex Hr) as Hev. rewrite Forall_forall in Hev.
  rewrite all_accepted_iff. split.
  - intros Hall.
    assert (∀ evs1 e evs2 e', evs = evs1 ++ e :: evs2 → e' ∈ evs1 →
      am_CommandIndex e'.2 = am_CommandIndex e.2 → am_Command e'.2 = am_Command e.2) as Hpre.
    { intros evs1 e evs2 e' Heq He' Hk. destruct (Hall _ _ _ Heq) as [Hag _].
      { apply Hev. rewrite Heq. apply elem_of_app. right. by left. }
      unfold agrees in Hag. rewrite Forall_forall in Hag. apply Hag; [done| |done].
      apply Hev. rewrite Heq. apply elem_of_app. by left. }
    intros e e' He He' Hk. apply list_elem_of_split in He as (evs1 & evs2 & Heq).
    rewrite Heq in He'. apply elem_of_app in He' as [He'|[->|He']%elem_of_cons].
    + symmetry. by eapply Hpre.
    + done.
    + apply list_elem_of_split in He' as (evs3 & evs4 & ->).
      apply (Hpre (evs1 ++ e :: evs3) e' evs4); [by rewrite Heq, <- (assoc_L (++))| |done].
      apply elem_of_app. right. by left.
  - intros Hag evs1 e evs2 Heq _. split; [|by eapply reads_in_order].
    apply Forall_forall. intros e' He' _ Hk. apply Hag; [..|done]; rewrite Heq; apply elem_of_app;
      [by left|right; by left].
Qed.
End monitor.
