(* ===== verification/RaftObserve.v ===== *)
(** * Tests that ask the peers: leaders and agreements

    Facts about [checkOneLeader], [nCommitted], [wait] and [one] of
    raft/config.go while the peers run on: which verdicts are possible, that the
    loops end, and what a result says about the peers. *)

From S2P Require Import Prelude Persister Raft RaftFacts RaftCluster RaftBase RaftElection RaftLog.
From S2P Require Import LabRpc Harness HarnessFacts RaftConfig RaftConfigFacts.
Import cluster raft_base raft_election raft_log.
Import raftcfg.
Open Scope Z_scope.

(** ** Looking for the leader *)
Section leaders.
Context {Cmd : Type} `{EqDecision Cmd}.
Implicit Types (c : config Cmd) (tr : list (label Cmd)) (σ : cluster Cmd).

(** The connected peers of the config are the peers of a run of the cluster in
    which every election is won in its own term. *)
Record watches (n : nat) c tr σ : Prop := {
  wa_exec : exec n tr σ;
  wa_timely : timely tr;
  wa_n : cf_n c = n;
  wa_connected : length (cf_connected c) = n;
  wa_rafts : length (cf_rafts c) = n;
  wa_peer i : is_connected c i → ∃ p rf ps, cf_rafts c !! i = Some (Some p) ∧
    heap c !! p = Some (ORaft rf ps) ∧ nodes σ !! i = Some rf;
}.

(** While the test waits, the run continues, and nobody changes the config. *)
Definition runs_peers (n : nat) (env : Z → config Cmd → config Cmd) : Prop :=
  ∀ d c tr σ, watches n c tr σ →
    (cf_connected (env d c) = cf_connected c ∧ cf_rafts (env d c) = cf_rafts c) ∧
    ∃ tr' σ', watches n (env d c) (tr' ++ tr) σ'.

Lemma led_app tr' tr i t : led tr i t → led (tr' ++ tr) i t.
Proof. intros (eid & te & Hw). exists eid, te. apply elem_of_app. by right. Qed.

(** What the map [leaders] holds after asking the peers of [seen]. *)
Definition collected c tr (seen : list nat) (L : gmap Z (list Z)) : Prop :=
  ∀ t l, L !! t = Some l → l ≠ [] ∧ NoDup l ∧ 0 ≤ t ∧
    ∀ z, z ∈ l → ∃ i, z = Z.of_nat i ∧ i ∈ seen ∧ is_connected c i ∧ led tr i t.

Lemma collected_mono c c' tr tr' seen seen' L : collected c tr seen L →
  cf_connected c' = cf_connected c → seen ⊆ seen' → collected c' (tr' ++ tr) seen' L.
Proof.
  intros Hcol Hc Hs t l Hl. destruct (Hcol t l Hl) as (? & ? & ? & Hz). split_and!; [done..|].
  intros z (i & -> & Hi & Hci & Hled)%Hz. exists i. unfold is_connected in *. rewrite Hc.
  split_and!; [done|by apply Hs|done|by apply led_app].
Qed.

(** A peer that says it leads is added to its term. *)
Lemma collected_add c tr seen L i t : collected c tr seen L → i ∉ seen → 0 ≤ t →
  is_connected c i → led tr i t →
  collected c tr (seen ++ [i]) (<[t := default [] (L !! t) ++ [Z.of_nat i]]> L).
Proof.
  intros Hcol Hi Ht Hc Hled t' l Hl. destruct (decide (t' = t)) as [->|Hne].
  - rewrite lookup_insert_eq in Hl. injection Hl as <-. destruct (L !! t) as [l0|] eqn:HL; simpl.
    + destruct (Hcol t l0 HL) as (_ & Hnd & _ & Hz). split_and!; [by destruct l0|..|done|].
      * apply NoDup_app. split_and!; [done| |apply NoDup_singleton].
        intros z (k & -> & Hk & _)%Hz Hin%list_elem_of_singleton. apply Nat2Z.inj in Hin. by subst.
      * intros z [Hin|Hin%list_elem_of_singleton]%elem_of_app.
        -- destruct (Hz z Hin) as (k & -> & Hk & Hrest). exists k. rewrite elem_of_app. auto.
        -- exists i. rewrite elem_of_app, list_elem_of_singleton. auto.
    + split_and!; [done|apply NoDup_singleton|done|]. intros z ->%list_elem_of_singleton.
      exists i. rewrite elem_of_app, list_elem_of_singleton. auto.
  - rewrite lookup_insert_ne in Hl by done. destruct (Hcol t' l Hl) as (? & ? & ? & Hz).
    split_and!; [done..|]. intros z (k & -> & Hk & Hrest)%Hz. exists k. rewrite elem_of_app. auto.
Qed.

Lemma watched_state n c tr σ i p rf ps : watches n c tr σ → cf_rafts c !! i = Some (Some p) →
  heap c !! p = Some (ORaft rf ps) → get_state (mem c) (Some p) = Done (raft.GetState rf).
Proof. intros _ _ Hp. unfold get_state, raft_at. unfold heap in Hp. by rewrite Hp. Qed.

Variable env : Z → config Cmd → config Cmd.

Lemma collect_leaders_spec n ids : ∀ c tr σ seen L, runs_peers n env → watches n c tr σ →
  NoDup (seen ++ ids) → Forall (λ i, i < n)%nat ids → collected c tr seen L →
  ∃ c' L' tr' σ', collect_leaders env ids L c = Done (c', L') ∧ watches n c' (tr' ++ tr) σ' ∧
    cf_connected c' = cf_connected c ∧ collected c' (tr' ++ tr) (seen ++ ids) L'.
Proof.
  induction ids as [|i ids IH]; intros c tr σ seen L Henv Hw Hnd Hids Hcol; cbn [collect_leaders].
  { exists c, L, [], σ. by rewrite app_nil_r. }
  apply Forall_cons in Hids as [Hi Hids].
  assert (i ∉ seen) as Hns.
  { apply NoDup_app in Hnd as (_ & Hnd & _). intros Hin. apply (Hnd i Hin). by left. }
  rewrite (cons_middle i), (assoc_L (++)) in Hnd. rewrite (cons_middle i seen ids), (assoc_L (++)).
  destruct (lookup_lt_is_Some_2 (cf_connected c) i) as [b Hb]; [by rewrite (wa_connected _ _ _ _ Hw)|].
  rewrite (idx_nat (cf_connected c)), Hb. cbn [mbind outcome_bind]. destruct b.
  - destruct (wa_peer _ _ _ _ Hw i Hb) as (p & _ & _ & Hp & _).
    rewrite (idx_nat (cf_rafts c)), Hp. cbn [mbind outcome_bind]. destruct (Henv 0 c tr σ Hw) as ([Hc1 Hr1] & tr1 & σ1 & Hw1).
    destruct (wa_peer _ _ _ _ Hw1 i) as (p' & rf & ps & Hp' & Hh & Hrf);
      [unfold is_connected; by rewrite Hc1|].
    rewrite Hr1, Hp in Hp'. injection Hp' as <-.
    rewrite (watched_state n (env 0 c) (tr1 ++ tr) σ1 i p rf ps Hw1) by (by rewrite ?Hr1).
    unfold raft.GetState. cbn [mbind outcome_bind].
    set (L1 := if bool_decide _ then _ else _).
    assert (collected (env 0 c) (tr1 ++ tr) (seen ++ [i]) L1) as Hcol1.
    { assert (collected (env 0 c) (tr1 ++ tr) seen L) as Hc by (by eapply collected_mono).
      unfold L1. case_bool_decide as Hl.
      - pose proof (b_node _ _ (exec_base _ _ _ (wa_exec _ _ _ _ Hw1)) i rf Hrf) as Hok.
        apply collected_add; [done..|apply Hok| |].
        + unfold is_connected. by rewrite Hc1.
        + destruct (exec_wins _ _ _ (wa_exec _ _ _ _ Hw1)) as [_ Hlead]. by apply Hlead.
      - apply (collected_mono _ _ _ [] _ (seen ++ [i]) L Hc); [done|]. intros x Hx. apply elem_of_app. by left. }
    destruct (IH _ _ _ _ _ Henv Hw1 Hnd Hids Hcol1) as (c' & L' & tr' & σ' & Hc' & Hw' & Hcc & Hcol').
    exists c', L', (tr' ++ tr1), σ'. rewrite <- (assoc_L (++)). split_and!; [done|done|congruence|done].
  - destruct (IH c tr σ (seen ++ [i]) L Henv Hw Hnd Hids) as (c' & L' & tr' & σ' & Hrest).
    { apply (collected_mono _ _ _ [] _ (seen ++ [i]) L Hcol); [done|]. intros x Hx. apply elem_of_app. by left. }
    by exists c', L', tr', σ'.
Qed.

Lemma last_term_spec entries : ∀ t0, Forall (λ e, zlen e.2 ≤ 1) entries →
  ∃ t, last_term entries t0 = Done t ∧ (t = t0 ∨ ∃ l, (t, l) ∈ entries) ∧ t0 ≤ t ∧
    Forall (λ e, e.1 ≤ t) entries.
Proof.
  induction entries as [|[t1 l] entries IH]; intros t0 Hall; simpl.
  - exists t0. split_and!; [done|by left|lia|constructor].
  - apply Forall_cons in Hall as [Hl Hall]. simpl in Hl.
    destruct (Z.ltb_spec 1 (zlen l)); [lia|].
    destruct (IH (if t0 <? t1 then t1 else t0) Hall) as (t & Ht & Hor & Hle & Hmax).
    exists t. split; [done|]. destruct (Z.ltb_spec t0 t1).
    + split_and!; [|lia|constructor; [simpl; lia|done]].
      right. destruct Hor as [->|[l' Hl']]; [exists l; by left|exists l'; by right].
    + split_and!; [|lia|constructor; [simpl; lia|done]].
      destruct Hor as [->|[l' Hl']]; [by left|right; exists l'; by right].
Qed.

Lemma collected_short n c tr σ seen L : watches n c tr σ → collected c tr seen L →
  Forall (λ e, zlen e.2 ≤ 1) (map_to_list L).
Proof.
  intros Hw Hcol. apply Forall_forall. intros [t l] Hl%elem_of_map_to_list. simpl.
  destruct (Hcol t l Hl) as (_ & Hnd & _ & Hz). destruct l as [|z1 [|z2 l]]; [unfold zlen; simpl; lia..|].
  destruct (Hz z1) as (i1 & -> & _ & _ & e1 & te1 & Hw1); [by left|].
  destruct (Hz z2) as (i2 & -> & _ & _ & e2 & te2 & Hw2); [right; by left|].
  assert (i1 = i2) as <- by (by eapply win_unique; [apply Hw|apply Hw|..]).
  apply NoDup_cons in Hnd as [Hnd _]. destruct Hnd. by left.
Qed.

(** [checkOneLeader] over the rounds left. *)
Lemma checkOneLeader_spec n draws : ∀ c tr σ, runs_peers n env → watches n c tr σ →
  checkOneLeader_loop env draws c = Fatal "expected one leader, got none" ∨
  ∃ c' i t tr' σ', checkOneLeader_loop env draws c = Done (c', Z.of_nat i) ∧
    watches n c' (tr' ++ tr) σ' ∧ is_connected c i ∧ led (tr' ++ tr) i t.
Proof.
  induction draws as [|r draws IH]; intros c tr σ Henv Hw; [by left|]. cbn [checkOneLeader_loop].
  destruct (Henv (450 + Z.rem r 100) c tr σ Hw) as ([Hc1 _] & tr1 & σ1 & Hw1).
  set (c1 := env _ c) in *. rewrite (wa_n _ _ _ _ Hw1).
  destruct (collect_leaders_spec n (seq 0 n) c1 (tr1 ++ tr) σ1 [] ∅ Henv Hw1) as
    (c2 & L & tr2 & σ2 & Hcol & Hw2 & Hc2 & HL);
    [apply NoDup_seq|apply Forall_forall; intros j Hj%elem_of_seq; lia|intros t l; by rewrite lookup_empty|].
  rewrite Hcol. cbn [mbind outcome_bind].
  destruct (last_term_spec (map_to_list L) (-1) (collected_short _ _ _ _ _ _ Hw2 HL)) as
    (t & Ht & Hor & _ & Hmax).
  rewrite Ht. cbn [mbind outcome_bind]. rewrite (assoc_L (++)) in Hw2, HL.
  destruct (Z.eqb_spec (Z.of_nat (size L)) 0) as [Hz|Hz]; simpl.
  - destruct (IH c2 _ _ Henv Hw2) as [->|(c' & i & t' & tr' & σ' & -> & Hw' & Hi & Hled)]; [by left|].
    right. exists c', i, t', (tr' ++ tr2 ++ tr1), σ'. 
    assert ((tr' ++ tr2 ++ tr1) ++ tr = tr' ++ (tr2 ++ tr1) ++ tr) as -> by (by rewrite !app_assoc).
    split_and!; [done|done| |done]. unfold is_connected in *. congruence.
  - right. assert (∃ t1 l1, L !! t1 = Some l1) as (t1 & l1 & Hl1).
    { destruct (map_choose L) as (t1 & l1 & Hl1); [|by exists t1, l1]. intros ->. by rewrite map_size_empty in Hz. }
    assert (∃ l, L !! t = Some l) as [l Hl].
    { destruct Hor as [->|[l Hl%elem_of_map_to_list]]; [|by exists l].
      rewrite Forall_forall in Hmax. specialize (Hmax (t1, l1)). rewrite elem_of_map_to_list in Hmax.
      destruct (HL t1 l1 Hl1) as (_ & _ & Hpos & _). specialize (Hmax Hl1). simpl in Hmax. lia. }
    destruct (HL t l Hl) as (Hne & _ & _ & Hz'). destruct l as [|z l]; [done|].
    destruct (Hz' z) as (i & -> & _ & Hci & Hled); [by left|].
    rewrite Hl. simpl. exists c2, i, t, (tr2 ++ tr1), σ2. split_and!; [done|done| |done].
    unfold is_connected in *. congruence.
Qed.
End leaders.

(** ** Waiting for agreement *)
Section agreement.
Context {Cmd : Type} `{EqDecision Cmd}.
Implicit Types (c : config Cmd).
Variable env : Z → config Cmd → config Cmd.

(** Sleeping takes at least the time asked for; or exactly that, when nothing
    else takes time. *)
Definition clock_runs : Prop := ∀ d c, 0 ≤ d → now c + d ≤ now (env d c).
Definition clock_exact : Prop := ∀ d c, 0 ≤ d → now (env d c) = now c + d.

(** What the appliers recorded stays recorded. *)
Definition extends c c' : Prop :=
  ∀ i k v, log_at c i k = Done (Some v) → log_at c' i k = Done (Some v).
Definition keeps_logs : Prop := ∀ d c, extends c (env d c).

#[local] Instance extends_preorder : PreOrder extends.
Proof. split; [by intros c i k v|]. intros c1 c2 c3 H12 H23 i k v Hv. by apply H23, H12. Qed.

Lemma preorder_eq {A} (f : config Cmd → A) : PreOrder (λ c c', f c = f c').
Proof. split; [done|]. intros c1 c2 c3 H12 H23. congruence. Qed.
Lemma preorder_le (f : config Cmd → Z) : PreOrder (λ c c', f c ≤ f c').
Proof. split; [intros ?; lia|]. intros c1 c2 c3 H12 H23. lia. Qed.

Lemma nCommitted_loop_env (R : config Cmd → config Cmd → Prop) `{!PreOrder R} index ids :
  (∀ c, R c (env 0 c)) →
  ∀ count cmd c c' r, nCommitted_loop env index ids count cmd c = Done (c', r) → R c c'.
Proof.
  intros HR. induction ids as [|i ids IH]; intros count cmd c c' r Hl; simpl in Hl.
  - by simplify_eq.
  - apply bind_Done in Hl as (err & _ & Hl). destruct (negb _); [done|].
    apply bind_Done in Hl as (o & _ & Hl). trans (env 0 c); [apply HR|].
    destruct o as [cmd1|]; [destruct (_ && _); [done|]|]; by eapply IH.
Qed.

Lemma nCommitted_env (R : config Cmd → config Cmd → Prop) `{!PreOrder R} index c c' r :
  (∀ c, R c (env 0 c)) → nCommitted env index c = Done (c', r) → R c c'.
Proof. intros HR. by apply nCommitted_loop_env. Qed.

(** The count of [nCommitted] is the number of peers that hold the command. *)
Lemma nCommitted_loop_spec index ids : keeps_logs → ∀ count cmd c c' count' cmd', 0 ≤ count →
  nCommitted_loop env index ids count cmd c = Done (c', (count', cmd')) →
  ∃ S, S `sublist_of` ids ∧ count' = count + zlen S ∧ (0 < count → cmd' = cmd) ∧
    ∀ i, i ∈ S → log_at c' i index = Done (Some cmd').
Proof.
  intros Hk. induction ids as [|i ids IH]; intros count cmd c c' count' cmd' Hcount Hl; simpl in Hl.
  - simplify_eq. exists []. split_and!; [done|unfold zlen; simpl; lia|done|set_solver].
  - apply bind_Done in Hl as (err & _ & Hl). destruct (negb _); [done|].
    apply bind_Done in Hl as (o & Ho & Hl). destruct o as [cmd1|].
    + destruct (_ && _) eqn:Hne; [done|].
      assert (extends (env 0 c) c') as Hext by (eapply nCommitted_loop_env; [apply _|apply Hk|exact Hl]).
      apply IH in Hl as (S & HS & -> & Hcmd & Hin); [|lia]. specialize (Hcmd ltac:(lia)). subst cmd'.
      exists (i :: S). split_and!.
      * by apply sublist_skip.
      * unfold zlen. simpl. lia.
      * intros Hpos. z_bool. destruct Hne as [Hne|Hne]; [z_bool; lia|]. z_bool. congruence.
      * intros j [->|Hj]%elem_of_cons; [by apply Hext|by apply Hin].
    + apply IH in Hl as (S & HS & -> & Hcmd & Hin); [|done]. exists S.
      split_and!; [by apply sublist_cons|done..].
Qed.

(** [n] peers hold [cmd] at [index]. *)
Definition holds_at c (index : Z) (cmd : option Cmd) (S : list nat) : Prop :=
  NoDup S ∧ ∀ i, i ∈ S → (i < length (cf_rafts c))%nat ∧ log_at c i index = Done (Some cmd).

Lemma nCommitted_spec index c c' nd cmd : keeps_logs → (∀ d c, cf_rafts (env d c) = cf_rafts c) →
  nCommitted env index c = Done (c', (nd, cmd)) → ∃ S, zlen S = nd ∧ holds_at c' index cmd S.
Proof.
  intros Hk Hr Hn.
  assert (cf_rafts c' = cf_rafts c) as Hr'.
  { symmetry. eapply (nCommitted_env _ (PreOrder0 := preorder_eq cf_rafts)); [|exact Hn]. intros c0. by rewrite Hr. }
  apply nCommitted_loop_spec in Hn as (S & HS & -> & _ & Hin); [|done..].
  exists S. split; [lia|]. split.
  - eapply sublist_NoDup; [apply NoDup_seq|exact HS].
  - intros i Hi. split; [|by apply Hin]. rewrite Hr'.
    pose proof (elem_of_sublist _ _ _ Hi HS) as Hj%elem_of_seq. lia.
Qed.

(** Relations that hold across every step of the tests. *)
Lemma one_try_env (R : config Cmd → config Cmd → Prop) `{!PreOrder R} si cmd :
  (∀ c, R c (env 0 c)) → (∀ c p o, R c (set_mem (store (mem c) p o) c)) →
  ∀ starts c c' r, one_try env si starts cmd c = Done (c', r) → R c c'.
Proof.
  intros HR HS. induction si as [|si IH]; intros starts c c' r Ht; simpl in Ht; [by simplify_eq|].
  apply bind_Done in Ht as (con & _ & Ht). apply bind_Done in Ht as (rf & _ & Ht).
  trans (env 0 c); [apply HR|]. destruct rf as [p|]; [|by eapply IH].
  apply bind_Done in Ht as ([c1 [[index1 term] ok]] & Hs & Ht).
  trans c1.
  - trans (env 0 (env 0 c)); [apply HR|]. unfold start_cmd in Hs.
    apply bind_Done in Hs as ([[p1 r1] ps] & _ & Hs). destruct (raft.Start r1 cmd). simplify_eq. apply HS.
  - destruct ok; [by simplify_eq|by eapply IH].
Qed.

Lemma one_poll_env (R : config Cmd → config Cmd → Prop) `{!PreOrder R} fuel t1 index cmd expected :
  (∀ d c, 0 ≤ d → R c (env d c)) →
  ∀ c c' r, one_poll env fuel t1 index cmd expected c = Done (c', r) → R c c'.
Proof.
  intros HR. induction fuel as [|fuel IH]; intros c c' r Hp; simpl in Hp; [by simplify_eq|].
  destruct (now c - t1 <? 2 * 1000); [|by simplify_eq].
  apply bind_Done in Hp as ([c1 [nd cmd1]] & Hn & Hp).
  apply (nCommitted_env R) in Hn; [|intros; by apply HR].
  destruct (_ && _); [by simplify_eq|]. trans c1; [done|]. trans (env 20 c1); [by apply HR|by eapply IH].
Qed.

(** The polling loop ends: by its clock within a hundred rounds. *)
Lemma one_poll_ends fuel t1 index cmd expected : clock_runs → ∀ k c c' r, (0 < fuel)%nat →
  101 ≤ Z.of_nat fuel + k → t1 + 20 * k ≤ now c →
  one_poll env fuel t1 index cmd expected c = Done (c', r) →
  r = Ended true ∨ (r = Ended false ∧ t1 + 2000 ≤ now c').
Proof.
  intros Hclk. induction fuel as [|fuel IH]; intros k c c' r Hf Hk Hnow Hp; [lia|]. simpl in Hp.
  destruct (Z.ltb_spec (now c - t1) (2 * 1000)) as [Hlt|Hge]; [|simplify_eq; right; split; [done|lia]].
  apply bind_Done in Hp as ([c1 [nd cmd1]] & Hn & Hp).
  apply (nCommitted_env _ (PreOrder0 := preorder_le now)) in Hn; cycle 1.
  { intros c0. specialize (Hclk 0 c0). lia. }
  destruct (_ && _); [simplify_eq; by left|].
  pose proof (Hclk 20 c1 ltac:(lia)). eapply (IH (k + 1)); [lia|lia| |exact Hp]. lia.
Qed.

Lemma one_poll_agrees fuel t1 index cmd expected : keeps_logs → (∀ d c, cf_rafts (env d c) = cf_rafts c) →
  ∀ c c', one_poll env fuel t1 index cmd expected c = Done (c', Ended true) →
  ∃ S, expected ≤ zlen S ∧ 0 < zlen S ∧ holds_at c' index cmd S.
Proof.
  intros Hk Hr. induction fuel as [|fuel IH]; intros c c' Hp; simpl in Hp; [by simplify_eq|].
  destruct (now c - t1 <? 2 * 1000); [|by simplify_eq].
  apply bind_Done in Hp as ([c1 [nd cmd1]] & Hn & Hp).
  destruct (_ && _) eqn:Hok; [|by eapply IH]. simplify_eq.
  apply nCommitted_spec in Hn as (S & <- & HS); [|done..]. z_bool. subst cmd1. exists S. split_and!; [lia|lia|done].
Qed.

(** The outer loop ends within two hundred rounds, and returns an index only
    with an agreement on it. *)
Lemma one_loop_spec fuel t0 cmd expected retry : clock_runs → keeps_logs →
  (∀ d c, cf_rafts (env d c) = cf_rafts c) → ∀ k starts c c' r, (0 < fuel)%nat →
  201 ≤ Z.of_nat fuel + k → t0 + 50 * k ≤ now c →
  one_loop env fuel 101 t0 starts cmd expected retry c = Done (c', r) →
  ∃ index, r = Ended index ∧ (index ≠ -1 →
    ∃ S, expected ≤ zlen S ∧ 0 < zlen S ∧ holds_at c' index cmd S).
Proof.
  intros Hclk Hkeep Hr. induction fuel as [|fuel IH]; intros k starts c c' r Hf Hk Hnow Hl; [lia|].
  cbn [one_loop] in Hl. destruct (Z.ltb_spec (now c - t0) (10 * 1000)) as [Hlt|Hge]; cbn [andb] in Hl.
  2:{ destruct (negb _); [done|]. simplify_eq. by exists (-1). }
  destruct (negb (checkFinished c)); [|simplify_eq; by exists (-1)].
  apply bind_Done in Hl as ([c1 [starts1 index]] & Ht & Hl).
  apply (one_try_env _ (PreOrder0 := preorder_le now)) in Ht; cycle 1.
  { intros c0. specialize (Hclk 0 c0). lia. }
  { intros c0 p o. unfold now. simpl. lia. }
  destruct (Z.eqb_spec index (-1)) as [Hi|Hi]; cbn [negb] in Hl.
  - pose proof (Hclk 50 c1 ltac:(lia)). eapply (IH (k + 1)); [lia|lia| |exact Hl]. lia.
  - apply bind_Done in Hl as ([c2 r2] & Hp & Hl).
    destruct (one_poll_ends 101 (now c1) index cmd expected Hclk 0 c1 c2 r2) as [->|[-> Hlate]];
      [lia|lia|lia|done|..].
    + simplify_eq. exists index. split; [done|]. intros _. exact (one_poll_agrees _ _ _ _ _ Hkeep Hr _ _ Hp).
    + destruct retry; cbn [negb] in Hl; [|done]. eapply (IH (k + 1)); [lia|lia| |exact Hl]. lia.
Qed.

Lemma one_unfold fuel pfuel cmd expected retry c : one env fuel pfuel cmd expected retry c =
  one_loop env fuel pfuel (now c) 0 cmd expected retry c.
Proof. done. Qed.

(** If only sleeping takes time, the loop is over after twelve seconds. *)
Lemma one_poll_time fuel t1 index cmd expected : clock_exact → ∀ c c' r, now c ≤ t1 + 2019 →
  one_poll env fuel t1 index cmd expected c = Done (c', r) → now c' ≤ t1 + 2019.
Proof.
  intros Hclk. induction fuel as [|fuel IH]; intros c c' r Hnow Hp; simpl in Hp; [by simplify_eq|].
  destruct (Z.ltb_spec (now c - t1) (2 * 1000)) as [Hlt|Hge]; [|by simplify_eq].
  apply bind_Done in Hp as ([c1 [nd cmd1]] & Hn & Hp).
  apply (nCommitted_env _ (PreOrder0 := preorder_eq now)) in Hn; cycle 1.
  { intros c0. rewrite Hclk; lia. }
  destruct (_ && _); [simplify_eq; lia|]. eapply IH; [|exact Hp]. rewrite Hclk; lia.
Qed.

Lemma one_loop_time fuel pfuel t0 cmd expected retry : clock_exact → ∀ starts c c' r,
  now c ≤ t0 + 12018 → one_loop env fuel pfuel t0 starts cmd expected retry c = Done (c', r) →
  now c' ≤ t0 + 12018.
Proof.
  intros Hclk. induction fuel as [|fuel IH]; intros starts c c' r Hnow Hl; cbn [one_loop] in Hl; [by simplify_eq|].
  destruct (Z.ltb_spec (now c - t0) (10 * 1000)) as [Hlt|Hge]; cbn [andb] in Hl.
  2:{ destruct (negb _); [done|by simplify_eq]. }
  destruct (negb (checkFinished c)); [|by simplify_eq].
  apply bind_Done in Hl as ([c1 [starts1 index]] & Ht & Hl).
  apply (one_try_env _ (PreOrder0 := preorder_eq now)) in Ht; cycle 1.
  { intros c0. rewrite Hclk; lia. }
  { done. }
  destruct (negb (index =? -1)).
  - apply bind_Done in Hl as ([c2 r2] & Hp & Hl).
    apply one_poll_time in Hp; [|done|lia].
    destruct r2 as [[|]|]; [simplify_eq; lia| |simplify_eq; lia].
    destruct (negb retry); [done|]. eapply IH; [|exact Hl]. lia.
  - eapply IH; [|exact Hl]. rewrite Hclk; lia.
Qed.

Lemma moved_on_env (R : config Cmd → config Cmd → Prop) `{!PreOrder R} startTerm ids :
  (∀ c, R c (env 0 c)) → ∀ c c' b, moved_on env startTerm ids c = Done (c', b) → R c c'.
Proof.
  intros HR. induction ids as [|i ids IH]; intros c c' b Hm; simpl in Hm; [by simplify_eq|].
  apply bind_Done in Hm as (r & _ & Hm). apply bind_Done in Hm as ([t l] & _ & Hm).
  trans (env 0 c); [apply HR|]. destruct (startTerm <? t); [by simplify_eq|by eapply IH].
Qed.

(** The time [wait] sleeps in [iters] rounds, beginning with [to]. *)
Fixpoint wait_time (iters : nat) (to : Z) : Z :=
  match iters with
  | O => 0
  | S iters' => to + wait_time iters' (if to <? 1000 then to * 2 else to)
  end.

Lemma wait_time_nonneg iters : ∀ to, 0 ≤ to → 0 ≤ wait_time iters to.
Proof.
  induction iters as [|iters IH]; intros to Hto; simpl; [lia|].
  specialize (IH (if to <? 1000 then to * 2 else to)). destruct (to <? 1000); lia.
Qed.

Lemma wait_loop_time iters index n startTerm : clock_exact → ∀ to c c' b, 0 ≤ to →
  wait_loop env iters to index n startTerm c = Done (c', b) → now c' ≤ now c + wait_time iters to.
Proof.
  intros Hclk. induction iters as [|iters IH]; intros to c c' b Hto Hw; cbn [wait_loop] in Hw; [simplify_eq/=; lia|].
  apply bind_Done in Hw as ([c1 [nd cmd1]] & Hn & Hw).
  apply (nCommitted_env _ (PreOrder0 := preorder_eq now)) in Hn; cycle 1.
  { intros c0. rewrite Hclk; lia. }
  cbn [wait_time]. set (to' := if to <? 1000 then to * 2 else to) in *.
  assert (0 ≤ to') as Hto' by (unfold to'; destruct (to <? 1000); lia).
  pose proof (wait_time_nonneg iters to' Hto').
  destruct (n <=? nd); [simplify_eq; lia|]. pose proof (Hclk to c1 Hto) as Hc1.
  destruct (-1 <? startTerm).
  - apply bind_Done in Hw as ([c2 moved] & Hm & Hw).
    apply (moved_on_env _ (PreOrder0 := preorder_eq now)) in Hm; cycle 1.
    { intros c0. rewrite Hclk; lia. }
    destruct moved; [simplify_eq; lia|]. apply IH in Hw; [lia|done].
  - apply IH in Hw; [lia|done].
Qed.
End agreement.

(** ** Snapshots *)
Section snapshots.
Context {Cmd : Type}.

Lemma log_of_lookup (xlog : list (option Cmd)) k :
  log_of xlog !! k = if (0 <=? k) then xlog !! Z.to_nat k else None.
Proof.
  unfold log_of. induction xlog as [|x xlog IH] using rev_ind.
  - simpl. by destruct (0 <=? k).
  - rewrite imap_app, foldl_app. simpl. rewrite Nat.add_0_r.
    destruct (decide (k = Z.of_nat (length xlog))) as [->|Hne].
    + rewrite lookup_insert_eq. destruct (Z.leb_spec 0 (Z.of_nat (length xlog))); [|lia].
      by rewrite Nat2Z.id, lookup_app_r, Nat.sub_diag by lia.
    + rewrite lookup_insert_ne by done. rewrite IH. destruct (Z.leb_spec 0 k); [|done].
      destruct (decide (Z.to_nat k < length xlog)%nat).
      * by rewrite lookup_app_l by done.
      * rewrite !lookup_ge_None_2; [done|rewrite length_app; simpl; lia|lia].
Qed.

Lemma snap_log_lookup (l : gmap Z (option Cmd)) index k : 0 ≤ index →
  log_of (snap_log l index) !! k =
    if (0 <=? k) && (k <=? index) then Some (default None (l !! k)) else None.
Proof.
  intros Hi. rewrite log_of_lookup. destruct (Z.leb_spec 0 k); simpl; [|done].
  unfold snap_log. rewrite list_lookup_fmap. destruct (Z.leb_spec k index).
  - rewrite lookup_seqZ_lt by lia. simpl. by rewrite Z2Nat.id, Z.add_0_l by lia.
  - rewrite lookup_seqZ_ge by lia. done.
Qed.
End snapshots.
