(* ===== verification/RaftConfigTheorems.v ===== *)
(** * What the Raft harness guarantees to the tests

    The network and the persisters that [connect], [disconnect], [crash1] and
    [start1] maintain, what the appliers accept, and the verdicts of
    [checkOneLeader], [one] and [wait]. *)

From Stdlib Require Import Ascii.
From S2P Require Import Prelude Persister Raft RaftFacts RaftCluster RaftBase RaftElection RaftLog RaftRun.
From S2P Require Import LabRpc Harness HarnessFacts RaftConfig RaftConfigFacts RaftTyping RaftMonitor RaftObserve.
Import cluster raft_election raft_log raft_run.
Import raftcfg.
Open Scope Z_scope.

(** The loops have a fixed number of rounds; they are not to be unrolled. *)
Local Opaque wait_loop one_loop one_poll.

Section theorems.
Context {Cmd : Type} `{EqDecision Cmd}.
Implicit Types (c : config Cmd).
Variable snap_decode : list Z → option (Z * list (option Cmd)).

(** C22: The memory of the harness is well-typed, and its operations are safe.
    After any history of [connect], [disconnect], [crash1] and [start1] the entry
    of a running peer is a Raft peer, whose persister is the one the harness keeps
    for it, and what the harness keeps are persisters; so on every peer
    [disconnect] and [crash1] return, [connect] returns if the peer was ever
    started, and [start1] returns if the drawn names are new and the saved
    snapshot, if there is one, can be decoded: no operation meets a nil pointer
    or leaves a slice. *)
Theorem harness_typed n c : reach snap_decode n c →
  (∀ i q, cf_rafts c !! i = Some (Some q) → ∃ rf ps p, heap c !! q = Some (ORaft rf ps) ∧
     cf_saved c !! i = Some (Some ps) ∧ heap c !! ps = Some (OPersister p)) ∧
  (∀ i ps, cf_saved c !! i = Some (Some ps) → ∃ p, heap c !! ps = Some (OPersister p)) ∧
  ∀ i, (i < n)%nat →
    returns (disconnect (Z.of_nat i) c) ∧ returns (crash1 (Z.of_nat i) c) ∧
    (∀ l, cf_endnames c !! i = Some (Some l) → returns (connect (Z.of_nat i) c)) ∧
    ∀ names, length (cf_lastApplied c) = n → length (cf_logs c) = n →
      (∀ j, (j < n)%nat → labrpc.rn_ends (net c) !! NStr (names j) = None) →
      (∀ j k, (j < n)%nat → (k < n)%nat → names j = names k → j = k) →
      (∀ rs b, saved_data c i = Some (rs, Some b) → 0 < zlen b → is_Some (snap_decode b)) →
      returns (start1 snap_decode (Z.of_nat i) names c).
Proof.
  intros Hr. pose proof (reach_inv _ _ _ Hr) as Hinv. pose proof (inv_heap _ _ Hinv) as Hh. split_and!.
  - intros i q Hq. destruct (hi_raft _ _ Hh i q ltac:(done) Hq) as (rf & ps & Hrf & Hs).
    destruct (hi_saved _ _ Hh _ _ Hs) as [p Hp]. by exists rf, ps, p.
  - apply (hi_saved _ _ Hh).
  - intros i Hi. split_and!.
    + apply (disconnect_total n); [apply Hinv|apply Hinv|done].
    + by apply (crash1_total n).
    + intros l Hl. apply (connect_total n i l); [apply Hinv|apply Hinv|done|done].
    + intros names Hla Hlogs Hnew Hinj Hsnap. by apply (start1_total snap_decode n).
Qed.

(** C21: The network of the harness.  After any history of [connect],
    [disconnect], [crash1] and [start1], a request on the end from peer [i] to
    peer [j] of the current instance of [i] reaches exactly the current instance
    of [j] if both are connected and [j] is running, and gets the reply "no answer" if
    [j] is crashed; a request on an end of any other kind, in particular of an earlier
    instance of a peer or with a disconnected peer, gets the reply "no answer", and so
    does a request that is under way on it. *)
Theorem harness_network n c (call : @labrpc.call name (value Cmd) (app Cmd)) :
  reach snap_decode n c →
  (∀ i j s q, end_of c i j = Some s → is_connected c i → is_connected c j →
     cf_rafts c !! j = Some (Some q) →
     ∃ a rs svc, labrpc.readEndnameInfo (net c) (NStr s) =
         (true, Some (NInt (Z.of_nat j)), Some a,
          labrpc.rn_reliable (net c), labrpc.rn_longReordering (net c)) ∧
       labrpc.w_store (cf_w c) !! a = Some rs ∧ labrpc.rs_services rs !! "Raft" = Some svc ∧
       labrpc.MakeService (raft_receiver q) = Done svc) ∧
  (∀ i j s, labrpc.rq_endname (labrpc.cl_req call) = NStr s → end_of c i j = Some s →
     cf_rafts c !! j = Some None →
     ∀ r, labrpc.processReq_start (net c) call r =
       labrpc.set_proc (labrpc.Replying false labrpc.noReply) call) ∧
  (¬ (∃ i j s, labrpc.rq_endname (labrpc.cl_req call) = NStr s ∧ end_of c i j = Some s ∧
        is_connected c i ∧ is_connected c j) →
   (∀ r, labrpc.processReq_start (net c) call r =
      labrpc.set_proc (labrpc.Replying false labrpc.noReply) call) ∧
   ∀ sn a, labrpc.isServerDead (net c) (labrpc.rq_endname (labrpc.cl_req call)) sn a = true).
Proof.
  intros Hr. apply reach_inv in Hr as [_ Hnet _ Hsrv]. split_and!.
  - intros i j s q He Hi Hj Hq. destruct (si_some _ Hsrv j q Hq) as (a & rs & svc & Ha & Hrest).
    exists a, rs, svc. split; [|done]. unfold labrpc.readEndnameInfo.
    rewrite (ni_to _ Hnet i j s He). simpl.
    rewrite (proj2 (ni_enabled _ Hnet (NStr s))) by (by exists i, j, s). by rewrite Ha.
  - intros i j s Hs He Hj r. unfold labrpc.processReq_start, labrpc.readEndnameInfo.
    rewrite Hs, (ni_to _ Hnet i j s He). simpl. rewrite (si_none _ Hsrv j Hj). by destruct (labrpc.is_enabled _ _).
  - intros Hno. assert (labrpc.is_enabled (net c) (labrpc.rq_endname (labrpc.cl_req call)) = false) as Hf.
    { apply not_true_is_false. intros Ht. by apply Hno, (ni_enabled _ Hnet). }
    split; [|by intros sn a; unfold labrpc.isServerDead; rewrite Hf].
    intros r. unfold labrpc.processReq_start, labrpc.readEndnameInfo. by rewrite Hf.
Qed.

(** C33: Old instances cannot touch saved state.  After any history, the
    persister of an instance that was crashed or replaced is not the one the
    harness keeps for any peer, so that what it still saves is never read again;
    and [crash1] and [start1] hand on, for every peer, the raft state and the
    snapshot that were saved last. *)
Theorem persister_isolated n c : reach snap_decode n c →
  (∀ q rf ps, heap c !! q = Some (ORaft rf ps) → (∀ i, cf_rafts c !! i ≠ Some (Some q)) →
     ∀ i, cf_saved c !! i ≠ Some (Some ps)) ∧
  (∀ i c', crash1 i c = Done c' → ∀ k, saved_data c' k = saved_data c k) ∧
  (∀ i names c', start1 snap_decode i names c = Done c' →
     ∀ k d, saved_data c k = Some d → saved_data c' k = Some d).
Proof.
  intros Hr. apply reach_inv in Hr as Hinv. split_and!.
  - intros q rf ps Hq Hold i Hi. by apply (Hold i), (hi_own _ _ (inv_heap _ _ Hinv) i q rf ps).
  - intros i c' Hc. by eapply crash1_inv.
  - intros i names c' Hc k d Hd. destruct (start1_inv _ _ _ _ _ _ Hinv Hc) as [_ Hk].
    rewrite Hk; [done|]. destruct (decide (k = Z.to_nat i)) as [->|]; [right; by eexists|by left].
Qed.

(** The appliers are exact.  On a config with empty logs, the appliers get
    through a sequence of messages of the peers exactly when every command comes
    after the command before it on the same peer and no peer applied another
    command at the same index earlier; the logs then hold exactly what was
    applied, and otherwise the process exits with an apply error. *)
Theorem harness_applier_exact n c evs :
  cf_logs c = replicate n (Some ∅) → Forall (λ e, e.1 < n)%nat evs →
  ((∃ c', monitor evs c = Done c' ∧ logs_hold n evs c') ↔
     ∀ evs1 e evs2, evs = evs1 ++ e :: evs2 → accepted evs1 e) ∧
  ((∃ c', monitor evs c = Done c') ∨ ∃ s, monitor evs c = Fatal ("apply error: " +:+ s)).
Proof.
  intros Hl Hevs. pose proof (logs_hold_empty _ _ Hl) as Hh.
  pose proof (all_accepted_iff evs []) as Hiff. simpl in Hiff.
  destruct (monitor_spec n evs [] c Hh Hevs) as [(Hall & c' & Hm & Hh')|(Hno & s & Hm & _)].
  - split; [|left; by exists c']. split; [|by exists c']. intros _. by apply Hiff.
  - split; [|right; by exists s]. split; [|by intros Hall%Hiff].
    intros (c' & Hm' & _). congruence.
Qed.

(** C19: The harness judges runs of Raft.  In every run of the cluster, however
    the appliers interleave what they read from the peers, no peer is reported as
    out of order: the harness accepts what it read if and only if no two peers
    applied different commands at the same index, and otherwise it exits with that
    disagreement. *)
Theorem harness_judges_runs n tr (σ : cluster Cmd) evs c :
  exec n tr σ → reads tr evs → cf_logs c = replicate n (Some ∅) →
  (peers_agree evs → ∃ c', monitor evs c = Done c' ∧ logs_hold n evs c') ∧
  (¬ peers_agree evs → monitor evs c = Fatal "apply error: commit index != server").
Proof.
  intros Hex Hr Hl. rewrite <- (reads_accepted _ _ _ _ Hex Hr).
  destruct (monitor_spec n evs [] c (logs_hold_empty _ _ Hl)) as [(Hall & c' & Hm & Hh')|(Hno & s & Hm & Hs)].
  - eapply Forall_impl; [exact (reads_events _ _ _ _ Hex Hr)|]. by intros e [? _].
  - split; [by exists c'|done].
  - split; [done|]. intros _. rewrite Hs in Hm; [done|].
    intros evs1 e evs2 Heq. by eapply reads_in_order.
Qed.

(** C31: One leader per term, as the tests see it.  While a run of the cluster
    with timely elections goes on, [checkOneLeader] never reports two leaders of
    one term, although it asks the peers one after the other: it returns a
    connected peer that became leader during the run, or reports after ten rounds
    that there is none. *)
Theorem checkOneLeader_sound n env rand c tr (σ : cluster Cmd) :
  runs_peers n env → watches n c tr σ →
  checkOneLeader env rand c = Fatal "expected one leader, got none" ∨
  ∃ c' i t tr' σ', checkOneLeader env rand c = Done (c', Z.of_nat i) ∧
    watches n c' (tr' ++ tr) σ' ∧ is_connected c i ∧ led (tr' ++ tr) i t ∧
    ∀ j, led (tr' ++ tr) j t → j = i.
Proof.
  intros Henv Hw. destruct (checkOneLeader_spec env n (rand <$> seq 0 10) c tr σ Henv Hw)
    as [Hf|(c' & i & t & tr' & σ' & Hd & Hw' & Hi & Hled)]; [by left|right].
  exists c', i, t, tr', σ'. split_and!; [done..|]. intros j (e & te & Hj). destruct Hled as (e' & te' & Hi').
  by eapply win_unique; [apply Hw'|apply Hw'|exact Hj|exact Hi'].
Qed.

(** C34: [one] ends and means agreement.  Whatever the peers do, as long as
    sleeping takes the time asked for and recorded commands stay recorded, the two
    loops of [one] end within 201 and 101 rounds; an index other than -1 is
    returned only when at least one and at least [expectedServers] peers have
    applied the command at that index; and if only sleeping takes time, the call
    is over after at most 12018 milliseconds. *)
Theorem one_agreement env cmd expectedServers retry c c' r :
  clock_runs env → keeps_logs env → (∀ d c, cf_rafts (env d c) = cf_rafts c) →
  one env 201 101 cmd expectedServers retry c = Done (c', r) →
  (∃ index, r = Ended index ∧ (index ≠ -1 →
     ∃ S, expectedServers ≤ zlen S ∧ 0 < zlen S ∧ holds_at c' index cmd S)) ∧
  (clock_exact env → now c' ≤ now c + 12018).
Proof.
  intros Hclk Hkeep Hrafts Hone. rewrite one_unfold in Hone. split.
  - by apply (one_loop_spec env 201 (now c) cmd expectedServers retry Hclk Hkeep Hrafts 0 0 c c' r); [lia..|].
  - intros Hex. by apply (one_loop_time env 201 101 (now c) cmd expectedServers retry Hex 0 c c' r); [lia|].
Qed.

(** [wait] does not wait forever.  If only sleeping takes time, a call of
    [wait] returns after at most 30710 milliseconds, the sum of thirty sleeps that
    double from 10 to 1280; and a command is returned only if the wanted number of
    peers have applied it at the index. *)
Theorem wait_bounded env index n startTerm c c' r :
  clock_exact env → keeps_logs env → (∀ d c, cf_rafts (env d c) = cf_rafts c) →
  wait env index n startTerm c = Done (c', r) →
  now c' ≤ now c + 30710 ∧
  ∀ cmd, r = TheCommand cmd → ∃ S, n ≤ zlen S ∧ holds_at c' index cmd S.
Proof.
  intros Hclk Hkeep Hrafts Hw. unfold wait in Hw. apply bind_Done in Hw as ([c1 moved] & Hl & Hw).
  apply wait_loop_time in Hl; [|done|lia]. change (wait_time 30 10) with 30710 in Hl.
  destruct moved; [simplify_eq; split; [lia|done]|].
  apply bind_Done in Hw as ([c2 [nd cmd]] & Hn & Hw).
  destruct (Z.ltb_spec nd n) as [Hlt|Hge]; [done|]. simplify_eq. split.
  - apply (nCommitted_env env _ (PreOrder0 := preorder_eq now)) in Hn; [lia|].
    intros c0. rewrite Hclk; lia.
  - intros cmd0 [= <-]. apply nCommitted_spec in Hn as (S & HS & Hh); [|done..].
    exists S. split; [lia|done].
Qed.

(** Snapshots of the harness round-trip.  The snapshot that [applierSnap]
    takes of a peer's log at [index], installed by [ingestSnap] on any peer,
    leaves there exactly the commands up to [index] and lets that peer continue
    at [index + 1]; a snapshot for another index is refused. *)
Theorem harness_snapshot_roundtrip snap_encode (l : gmap Z (option Cmd)) index index' i c :
  (∀ k xlog, snap_decode (snap_encode k xlog) = Some (k, xlog)) →
  0 ≤ index → 0 ≤ i < zlen (cf_logs c) → i < zlen (cf_lastApplied c) →
  let b := Some (snap_encode index (snap_log l index)) in
  (index' = -1 ∨ index' = index → ∃ c' l', ingestSnap snap_decode i b index' c = Done ("", c') ∧
     cf_logs c' = <[Z.to_nat i := Some l']> (cf_logs c) ∧
     (∀ k, l' !! k = if (0 <=? k) && (k <=? index) then Some (default None (l !! k)) else None) ∧
     cf_lastApplied c' = <[Z.to_nat i := index]> (cf_lastApplied c)) ∧
  (index' ≠ -1 → index' ≠ index →
     ingestSnap snap_decode i b index' c = Done ("server snapshot doesn't match m.SnapshotIndex", c)).
Proof.
  intros Hlaw Hi Hlogs Hla b. unfold ingestSnap, b. rewrite Hlaw. split.
  - intros Hidx. assert (negb (index' =? -1) && negb (index' =? index) = false) as ->.
    { destruct (Z.eqb_spec index' (-1)), (Z.eqb_spec index' index); simpl; lia || done. }
    rewrite (proj2 (set_idx_Done (cf_logs c) i _ _)) by done. cbn [mbind outcome_bind].
    rewrite (proj2 (set_idx_Done (cf_lastApplied c) i _ _)) by (split; [lia|done]).
    eexists _, _. split_and!; [done|done| |done]. intros k. by apply snap_log_lookup.
  - intros H1 H2. destruct (Z.eqb_spec index' (-1)), (Z.eqb_spec index' index); done.
Qed.
End theorems.

(** ** Concrete configs *)
Module demo_config.

Definition enc (k : Z) (xlog : list (option nat)) : list Z :=
  k :: ((λ x, match x with None => 0 | Some v => 1 + Z.of_nat v end) <$> xlog).
Definition dec (b : list Z) : option (Z * list (option nat)) :=
  match b with
  | [] => None
  | k :: zs => Some (k, (λ z, if z =? 0 then None else Some (Z.to_nat (z - 1))) <$> zs)
  end.

Lemma dec_enc k xlog : dec (enc k xlog) = Some (k, xlog).
Proof.
  unfold dec, enc. do 2 f_equal. rewrite <- list_fmap_compose.
  rewrite <- (list_fmap_id xlog) at 2. apply list_fmap_ext. intros i [v|] _; [|done].
  unfold compose. destruct (Z.eqb_spec (1 + Z.of_nat v) 0); [lia|].
  unfold id. do 2 f_equal. lia.
Qed.

Definition world0 : world nat := labrpc.init (MkApp 0 []).
Definition names (i j : nat) : string :=
  String (ascii_of_nat (97 + i)) (String (ascii_of_nat (97 + j)) "").

(** Two connected peers; then peer 0 detached; then peer 0 crashed. *)
Definition two : config nat := get (new_config world0 2) (make_config dec world0 2 false names).
Definition detached : config nat := get two (disconnect 0 two).
Definition crashed : config nat := get two (crash1 0 two).

Lemma two_reach : reach dec 2 two.
Proof. apply (make_config_reach dec world0 2 false names), get_Done; [done|]. vm_compute. reflexivity. Qed.
Lemma detached_reach : reach dec 2 detached.
Proof.
  eapply reach_step; [exact two_reach|]. apply (step_disconnect dec two 0), get_Done. vm_compute. reflexivity.
Qed.
Lemma crashed_reach : reach dec 2 crashed.
Proof.
  eapply reach_step; [exact two_reach|]. apply (step_crash1 dec two 0), get_Done. vm_compute. reflexivity.
Qed.

(** A config that watches the peers of a cluster, with all of them connected. *)
Definition watching (σ : cluster nat) : config nat :=
  let n := length (nodes σ) in
  MkConfig false 0 (labrpc.init (MkApp 0 ((λ rf, ORaft rf 0%nat) <$> nodes σ))) n
    (Some <$> seq 0 n) (replicate n "") (replicate n true) (replicate n (Some 0%nat))
    (replicate n None) (replicate n (Some ∅)) (replicate n 0) 0 0 0 0 0 0 0.

Lemma watching_watches n tr σ : exec n tr σ → timely tr → watches n (watching σ) tr σ.
Proof.
  intros Hex Ht. pose proof (raft_base.b_len _ _ (raft_base.exec_base _ _ _ Hex)) as Hlen.
  split; [done|done|done|simpl; by rewrite length_replicate|simpl; by rewrite length_fmap, length_seq|].
  intros i Hi. apply lookup_replicate in Hi as [_ Hi].
  destruct (lookup_lt_is_Some_2 (nodes σ) i Hi) as [rf Hrf].
  exists i, rf, 0%nat. split_and!; [| |done].
  - simpl. rewrite list_lookup_fmap, lookup_seq_lt by done. done.
  - unfold heap, mem. simpl. by rewrite list_lookup_fmap, Hrf.
Qed.

(** The other goroutines do nothing. *)
Definition idle (d : Z) (c : config nat) : config nat := c.
Lemma idle_runs n : runs_peers n idle.
Proof. intros d c tr σ Hw. split; [done|]. by exists [], σ. Qed.

(** A leader of one, and goroutines that apply command 7 at index 1 on every peer
    while the clock runs. *)
Definition leader1 : config nat :=
  watching (MkCluster [with_state Leader (raft.Make 0 1 0 persister.MakePersister)] [] [] []).
Definition add7 (l : option (gmap Z (option nat))) : option (gmap Z (option nat)) :=
  match l with Some m => Some (m ∪ {[1 := Some 7%nat]}) | None => None end.
Definition apply7 (d : Z) (c : config nat) : config nat :=
  set_logs (add7 <$> cf_logs c)
    (set_mem (MkApp (now c + d) (ap_heap (mem c))) c).

Lemma apply7_clock : clock_exact apply7.
Proof. intros d c _. done. Qed.

Lemma apply7_keeps : keeps_logs apply7.
Proof.
  intros d c i k v. unfold log_at. simpl. rewrite !idx_nat, list_lookup_fmap.
  destruct (cf_logs c !! i) as [[m|]|]; simpl; [|done|done].
  intros [= Hm]. by rewrite (lookup_union_Some_l m _ k v).
Qed.

End demo_config.
Import demo_config.

Lemma harness_network_witness :
  reach dec 2 detached ∧ end_of detached 0 1 = Some "ab" ∧
  labrpc.isServerDead (net detached) (NStr "ab") (NInt 1) 1 = true.
Proof.
  split; [exact detached_reach|]. split; [vm_compute; reflexivity|].
  refine (proj2 (proj2 (proj2 (harness_network dec 2 detached
    (labrpc.MkCall (labrpc.MkReqMsg (NStr "ab") "Raft.RequestVote" (VStruct "") []) (VStruct "") (VStruct "")
       labrpc.Waiting labrpc.Started labrpc.NoExecutor false) detached_reach)) _) (NInt 1) 1%nat).
  intros (i & j & s & Hs & He & Hi & Hj). injection Hs as <-.
  destruct i as [|[|i]]; [vm_compute in Hi; discriminate Hi| |vm_compute in Hi; discriminate Hi].
  destruct j as [|[|j]]; [vm_compute in Hj; discriminate Hj| |vm_compute in Hj; discriminate Hj].
  vm_compute in He. discriminate He.
Defined.

(** The crashed peer is started again. *)
Lemma harness_typed_witness : reach dec 2 crashed ∧ returns (start1 dec 0 (names 2) crashed).
Proof.
  split; [exact crashed_reach|].
  refine (proj2 (proj2 (proj2 (proj2 (proj2 (harness_typed dec 2 crashed crashed_reach)) 0%nat _))) (names 2) _ _ _ _ _).
  - lia.
  - vm_compute. reflexivity.
  - vm_compute. reflexivity.
  - intros [|[|j]] Hj; [vm_compute; reflexivity..|lia].
  - intros [|[|j]] [|[|k]] Hj Hk; try lia; done.
  - intros rs b Hs Hb. vm_compute in Hs. injection Hs as <- <-. vm_compute in Hb. discriminate Hb.
Defined.

Lemma persister_isolated_witness :
  reach dec 2 crashed ∧ ∃ rf, heap crashed !! 1%nat = Some (ORaft rf 0%nat) ∧
  ∀ i, cf_saved crashed !! i ≠ Some (Some 0%nat).
Proof.
  split; [exact crashed_reach|]. eexists. split; [vm_compute; reflexivity|].
  refine (proj1 (persister_isolated dec 2 crashed crashed_reach) 1%nat _ 0%nat _ _);
    [vm_compute; reflexivity|].
  intros [|[|i]]; vm_compute; discriminate.
Defined.

(** Messages of two peers: both apply 5 at index 1. *)
Definition msg (k : Z) (v : nat) : ApplyMsg nat := MkApplyMsg true (Some v) k false None 0 0.

Lemma harness_applier_exact_witness :
  let c := set_logs (replicate 2 (Some ∅)) two in
  let evs := [(0%nat, msg 1 5); (1%nat, msg 1 5)] in
  ∃ c', monitor evs c = Done c' ∧ logs_hold 2 evs c'.
Proof.
  intros c evs.
  apply (proj1 (harness_applier_exact 2 c evs ltac:(reflexivity)
    ltac:(repeat constructor; simpl; lia))).
  intros evs1 e evs2 Heq _. destruct evs1 as [|e1 [|e2 [|e3 evs1]]]; simplify_eq/=.
  - split; [constructor|]. intros Hlt. simpl in Hlt. lia.
  - split; [repeat constructor|]. intros Hlt. simpl in Hlt. lia.
Defined.

Lemma harness_judges_runs_witness :
  let tr := (run_of resend).1 in
  exec 3 tr (run_of resend).2 ∧
  monitor (events_of tr) (watching (run_of resend).2) = Fatal "apply error: commit index != server".
Proof.
  intros tr.
  assert (exec 3 tr (run_of resend).2) as Hex by (apply run_of_exec; vm_compute; discriminate).
  split; [exact Hex|].
  apply (harness_judges_runs 3 tr (run_of resend).2 (events_of tr) _ Hex (reads_all tr));
    [vm_compute; reflexivity|].
  intros Hag. specialize (Hag (0%nat, msg 2 2) (1%nat, msg 2 1)).
  assert (Some 2%nat = Some 1%nat) as Heq; [|discriminate Heq].
  apply Hag; [| |reflexivity]; apply list_elem_of_lookup; [exists 1%nat|exists 3%nat]; vm_compute; reflexivity.
Defined.

Lemma checkOneLeader_sound_witness :
  let σ := (run_of commit_one).2 in
  watches 3 (watching σ) (run_of commit_one).1 σ ∧
  ∃ c' i t, checkOneLeader idle (λ _, 0) (watching σ) = Done (c', Z.of_nat i) ∧
    led (run_of commit_one).1 0 t ∧ i = 0%nat.
Proof.
  intros σ.
  assert (watches 3 (watching σ) (run_of commit_one).1 σ) as Hw.
  { apply watching_watches; [apply run_of_exec; vm_compute; discriminate|].
    apply timely_forallb. vm_compute. reflexivity. }
  split; [exact Hw|].
  destruct (checkOneLeader_sound 3 idle (λ _, 0) (watching σ) (run_of commit_one).1 σ (idle_runs 3) Hw)
    as [Hf|(c' & i & t & tr' & σ' & Hd & _)]; [vm_compute in Hf; discriminate Hf|].
  exists c', i, 1. split; [exact Hd|]. split.
  - exists 0%nat, 1. apply list_elem_of_lookup. exists 9%nat. vm_compute. reflexivity.
  - vm_compute in Hd. injection Hd as _ Hi. destruct i; [reflexivity|]. vm_compute in Hi. discriminate Hi.
Defined.

Lemma one_agreement_witness :
  ∃ c', one apply7 201 101 (Some 7%nat) 1 false leader1 = Done (c', Ended 1) ∧
  ∃ S, 1 ≤ zlen S ∧ holds_at c' 1 (Some 7%nat) S.
Proof.
  destruct (one apply7 201 101 (Some 7%nat) 1 false leader1) as [[c' r]| |] eqn:Ho;
    [|vm_compute in Ho; discriminate Ho..].
  assert (r = Ended 1) as -> by (vm_compute in Ho; congruence).
  exists c'. split; [reflexivity|].
  destruct (one_agreement apply7 (Some 7%nat) 1 false leader1 c' (Ended 1)) as [(index & Hi & HS) _].
  - intros d c Hd. rewrite apply7_clock by done. reflexivity.
  - exact apply7_keeps.
  - reflexivity.
  - exact Ho.
  - injection Hi as <-. destruct HS as (S & H1 & _ & H2); [discriminate|]. exists S. split; [exact H1|exact H2].
Defined.

Lemma wait_bounded_witness :
  ∃ c', wait apply7 1 1 (-1) leader1 = Done (c', TheCommand (Some 7%nat)) ∧ now c' ≤ 30710.
Proof.
  destruct (wait apply7 1 1 (-1) leader1) as [[c' r]| |] eqn:Ho;
    [|vm_compute in Ho; discriminate Ho..].
  assert (r = TheCommand (Some 7%nat)) as -> by (vm_compute in Ho; congruence).
  exists c'. split; [reflexivity|].
  refine (proj1 (wait_bounded apply7 1 1 (-1) leader1 c' _ apply7_clock apply7_keeps _ Ho)). reflexivity.
Defined.

Lemma harness_snapshot_roundtrip_witness :
  ∃ c' l', ingestSnap dec 1 (Some (enc 2 (snap_log {[1 := Some 4%nat; 2 := Some 5%nat]} 2))) 2 two = Done ("", c') ∧
    cf_lastApplied c' = [0; 2] ∧ l' !! 2 = Some (Some 5%nat) ∧ cf_logs c' !! 1%nat = Some (Some l').
Proof.
  destruct (harness_snapshot_roundtrip dec enc {[1 := Some 4%nat; 2 := Some 5%nat]} 2 2 1 two dec_enc)
    as [Hok _]; [lia|vm_compute; split; congruence|vm_compute; reflexivity|].
  destruct (Hok (or_intror eq_refl)) as (c' & l' & Hd & Hl & Hk & Ha).
  exists c', l'. split; [exact Hd|]. split; [rewrite Ha; vm_compute; reflexivity|].
  split; [rewrite Hk; vm_compute; reflexivity|]. rewrite Hl. vm_compute. reflexivity.
Defined.

(** The run with a stale election, seen by the tests: two leaders of one term. *)
Example stale_election_reported :
  checkOneLeader idle (λ _, 0) (watching (run_of stale_win).2) = Fatal "term has (>1) leaders".
Proof. vm_compute. reflexivity. Qed.
