(* ===== verification/RaftSafetyTheorems.v ===== *)
(** * State machine safety of raft/raft.go

    The theorems that follow from the simulation of RaftRefine.v, for runs in which
    elections are timely and no peer is sent an entry it already has. *)

From stdpp Require Import functions.
From S2P Require Import Prelude Persister Raft RaftFacts RaftCluster RaftBase RaftElection RaftLog RaftRun RaftClean RaftSpec RaftSafety RaftRefine.
From S2P Require Import LabRpc Harness RaftConfig RaftMonitor.
Open Scope Z_scope.

Import raft_facts cluster raft_base raft_election raft_log raft_run raft_clean raft_spec raft_safety raft_refine.

Section safety.
Context {Cmd : Type}.
Implicit Types (rf : Raft Cmd) (σ : cluster Cmd) (tr : list (label Cmd)) (a : astate (Cmd := Cmd)).

(** ** The initial state *)

(** Every log is the sentinel of [Make], which stands for the log of term 0. *)
Definition ainit : astate (Cmd := Cmd) :=
  MkAstate (λ _, 0) (λ _, [MkEntry None 0 0]) (λ t, if decide (t = 0) then [MkEntry None 0 0] else [])
    (λ _ _, []) (λ _ _, 0%nat) (λ _ _ _, False).

Lemma ainit_inv n : ainv n ainit.
Proof.
  assert (∀ t i e, a_lead ainit t !! i = Some e → t = 0 ∧ i = 0%nat ∧ e = MkEntry None 0 0) as Hlead.
  { intros t i e. simpl. case_decide; [|by rewrite lookup_nil]. by intros [-> <-]%list_lookup_singleton_Some. }
  assert (matches ainit [MkEntry None 0 0]) as Hm.
  { intros i e [-> <-]%list_lookup_singleton_Some. by apply agree_refl. }
  split; try done.
  - intros t. simpl. case_decide; [done|]. by intros i e He.
  - intros t i e (-> & _ & ->)%Hlead. done.
  - intros j i e [_ <-]%list_lookup_singleton_Some. done.
  - intros t j. simpl. lia.
  - simpl. lia.
  - intros t. simpl. case_decide; [by left|done].
  - simpl. lia.
  - intros t T N Ht HT (e & (-> & _)%Hlead & _). simpl in HT. rewrite decide_False in HT by lia. done.
Qed.

Lemma ainit_rel n : rel n [] (init n) ainit.
Proof.
  assert (∀ i t, ¬ led (Cmd := Cmd) [] i t) as Hno by (by intros i t (? & ? & ?%elem_of_nil)).
  split.
  - intros i rf Hi. apply list_lookup_fmap_Some_1 in Hi as (k & -> & _).
    split; try done; try (intros; exfalso; by eapply Hno). by left.
  - by intros j t c (? & ?%elem_of_nil & _).
  - intros t. simpl. case_decide; [by split; [left|]|]. split; [done|]. intros [|[i Hi]]; [done|by apply Hno in Hi].
  - done.
  - constructor.
Qed.

(** ** What was applied *)

(** What was sent on [applyCh] is still committed in the log. *)
Definition applied_inv tr σ : Prop := ∀ i ms m, LApply i ms ∈ tr → m ∈ ms → ∃ rf e,
  nodes σ !! i = Some rf ∧ 0 < am_CommandIndex m ≤ commitIndex rf ∧
  log rf !! Z.to_nat (am_CommandIndex m) = Some e ∧ m = apply_msg (le_Command e) (am_CommandIndex m).

(** [commitIndex] is inside the log. *)
Lemma node_commit_lt n tr a i rf : node_rel n tr a i rf → log rf ≠ [] → commitIndex rf < zlen (log rf).
Proof.
  intros Hr Hl. unfold zlen. destruct (nr_commit _ _ _ _ _ Hr) as [|(_ & _ & _ & _ & _ & _ & Hlen & _)]; [|lia].
  destruct (log rf); [done|]. simpl. lia.
Qed.

Lemma CommitChecker_msgs rf rf' msgs m : 0 ≤ lastApplied rf → commitIndex rf < zlen (log rf) →
  raft.CommitChecker rf = Done (rf', msgs) → m ∈ msgs →
  commitIndex rf' = commitIndex rf ∧ log rf' = log rf ∧
  ∃ e, 0 < am_CommandIndex m ≤ commitIndex rf ∧
    log rf !! Z.to_nat (am_CommandIndex m) = Some e ∧ m = apply_msg (le_Command e) (am_CommandIndex m).
Proof.
  intros Ha Hc H Hm. unfold raft.CommitChecker in H. destruct (Z.leb_spec (commitIndex rf) (lastApplied rf)).
  { apply Done_inj in H as [= <- <-]. by apply elem_of_nil in Hm. }
  rewrite apply_loop_spec in H by lia. apply Done_inj in H as [= <- <-]. split_and!; [done..|].
  apply list_elem_of_lookup in Hm as [k Hk]. rewrite list_lookup_imap in Hk.
  destruct (take _ _ !! k) as [e|] eqn:E; [|done]. apply lookup_take_Some in E as [E Hlt]. rewrite lookup_drop in E.
  injection Hk as <-. simpl. exists e. split_and!; [lia|lia| |done].
  by replace (Z.to_nat (lastApplied rf + 1 + Z.of_nat k)) with (Z.to_nat (lastApplied rf + 1) + k)%nat by lia.
Qed.

Lemma applied_step n tr σ a l σ' : exec n tr σ → rel n tr σ a → step σ l σ' → kept σ σ' → applied_inv tr σ → applied_inv (l :: tr) σ'.
Proof.
  intros Hex Hrel Hst Hk Happ i ms m [<-|Hin]%elem_of_cons Hm.
  - inversion Hst as [| | | | | | |? rf rf' ? Hi Hw Hcc| | | |]; subst;
      try (unfold grant_label, push_label, win_label in *; repeat case_match; done).
    pose proof (b_node _ _ (exec_base _ _ _ Hex) _ _ Hi) as Hn.
    destruct (CommitChecker_msgs rf rf' ms m) as (Hc & Hl & e & He); [apply Hn| |done|done|].
    { eapply node_commit_lt; [by apply (rl_node _ _ _ _ Hrel)|apply log_ok_nonempty, Hn]. }
    exists rf', e. rewrite Hc, Hl. split; [|done]. simpl. apply list_lookup_insert_eq. by eapply lookup_lt_Some.
  - destruct (Happ _ _ _ Hin Hm) as (rf & e & Hi & Hb & He & Heq).
    destruct (step_forward n σ l σ' i rf (exec_base _ _ _ Hex) Hst Hi) as (rf' & Hi' & _).
    destruct (Hk _ _ _ Hi Hi') as [Hle Hlog]. exists rf', e. split_and!; [done|lia|lia| |done].
    by rewrite Hlog by lia.
Qed.

Lemma clean_exec_rel n tr σ : clean_exec n tr σ → timely tr →
  ∃ a, rtc (astep n) ainit a ∧ rel n tr σ a ∧ applied_inv tr σ.
Proof.
  induction 1 as [|tr σ l σ' Hex IH Hst Hcl]; intros Htm.
  - exists ainit. split_and!; [done|apply ainit_rel|]. by intros i ms m ?%elem_of_nil.
  - pose proof (timely_cons _ _ Htm) as Htm0. destruct (IH Htm0) as (a & Hs & Hr & Ha).
    destruct (asteps_inv _ _ _ (ainit_inv n) Hs) as [Hinv _]. pose proof (clean_exec_exec _ _ _ Hex) as Hex0.
    destruct (refine_step n tr σ a Hex0 Htm0 Hinv Hr l σ' Hst Hcl Htm) as (a' & Hs' & Hr' & Hk).
    exists a'. split_and!; [by etrans|done|by eapply applied_step].
Qed.

(** What two peers have committed is the same. *)
Lemma justified_agree n a T1 T2 m1 m2 m (l1 l2 : list (LogEntry Cmd)) : ainv n a → justified n a T1 m1 l1 → justified n a T2 m2 l2 →
  0 < m → m ≤ m1 → m ≤ m2 → agree (S (Z.to_nat m)) l1 l2.
Proof.
  intros Hi [|(t1 & N1 & Hc1 & _ & HN1 & Ha1)] [|(t2 & N2 & Hc2 & _ & HN2 & Ha2)] Hm H1 H2; try lia.
  assert (agree (S (Z.to_nat m)) (a_lead a t1) (a_lead a t2)) as Hag.
  { destruct (decide (N1 ≤ N2)%nat).
    - eapply agree_le; [by eapply chosen_agree|lia].
    - apply agree_sym. eapply agree_le; [eapply chosen_agree; [done|exact Hc2|exact Hc1|lia]|lia]. }
  eapply agree_trans; [eapply agree_le; [exact Ha1|lia]|]. eapply agree_trans; [exact Hag|].
  apply agree_sym. eapply agree_le; [exact Ha2|lia].
Qed.

Lemma applied_agree n tr σ i j ms ms' m m' : clean_exec n tr σ → timely tr →
  LApply i ms ∈ tr → LApply j ms' ∈ tr → m ∈ ms → m' ∈ ms' → am_CommandIndex m = am_CommandIndex m' → m = m'.
Proof.
  intros Hex Htm Hi Hj Hm Hm' Heq. destruct (clean_exec_rel _ _ _ Hex Htm) as (a & Hs & Hr & Ha).
  destruct (asteps_inv _ _ _ (ainit_inv n) Hs) as [Hinv _].
  destruct (Ha _ _ _ Hi Hm) as (rf & e & Hn & Hb & He & ->), (Ha _ _ _ Hj Hm') as (rf' & e' & Hn' & Hb' & He' & ->).
  simpl in *. rewrite <- Heq in *. f_equal.
  pose proof (justified_agree _ _ _ _ _ _ (am_CommandIndex m) _ _ Hinv (nr_commit _ _ _ _ _ (rl_node _ _ _ _ Hr _ _ Hn))
    (nr_commit _ _ _ _ _ (rl_node _ _ _ _ Hr _ _ Hn'))) as Hag.
  rewrite (agree_lookup _ _ _ (Z.to_nat (am_CommandIndex m)) (Hag ltac:(lia) ltac:(lia) ltac:(lia))) in He by lia.
  by simplify_eq.
Qed.

(** ** Theorems *)

(** C8: Refinement.  Every run with timely elections and without resent entries is
    a run of the abstract Raft of RaftSpec.v: there is a sequence of its steps
    whose last state has the term and the log of every peer, in which the log of a
    leader is the log of its term, every vote was cast, and what a peer has
    committed was acknowledged by a majority in the term of a leader. *)
Theorem cluster_refines_spec n tr σ : clean_exec n tr σ → timely tr →
  ∃ a, rtc (astep n) ainit a ∧ (∀ j t c, voted tr j t c → a_vote a j t c) ∧
    ∀ i rf, nodes σ !! i = Some rf →
      a_term a i = currentTerm rf ∧ a_log a i = log rf ∧
      (state rf = Leader → a_lead a (currentTerm rf) = log rf) ∧
      (0 < commitIndex rf → ∃ t N, chosen n a t N ∧ t ≤ currentTerm rf ∧ commitIndex rf ≤ Z.of_nat N ∧
         agree (S (Z.to_nat (commitIndex rf))) (log rf) (a_lead a t)).
Proof.
  intros Hex Htm. destruct (clean_exec_rel _ _ _ Hex Htm) as (a & Hs & Hr & _). exists a. split_and!; [done|apply Hr|].
  intros i rf Hi. pose proof (rl_node _ _ _ _ Hr _ _ Hi) as Hn. split_and!; [apply Hn..| |].
  - intros Hl. symmetry. apply (nr_leader _ _ _ _ _ Hn). eapply leader_led; [by apply clean_exec_exec|done..].
  - intros Hp. destruct (nr_commit _ _ _ _ _ Hn); [lia|done].
Qed.

(** C1: State machine safety.  In a run with timely elections and without resent
    entries, whatever the network loses, delays or reorders, two peers that send
    messages for the same index on [applyCh] send the same message: no two
    services apply different commands at one index. *)
Theorem state_machine_safety n tr σ i j ms ms' m m' : clean_exec n tr σ → timely tr →
  LApply i ms ∈ tr → LApply j ms' ∈ tr → m ∈ ms → m' ∈ ms' → am_CommandIndex m = am_CommandIndex m' → m = m'.
Proof. apply applied_agree. Qed.

(** C12: Leader completeness.  In such a run a leader has everything that a peer of
    its term or of an earlier one has committed. *)
Theorem leader_completeness n tr σ i j rf rf' : clean_exec n tr σ → timely tr →
  nodes σ !! i = Some rf → nodes σ !! j = Some rf' → state rf' = Leader → currentTerm rf ≤ currentTerm rf' →
  0 < commitIndex rf → take (S (Z.to_nat (commitIndex rf))) (log rf) `prefix_of` log rf' ∧ commitIndex rf < zlen (log rf').
Proof.
  intros Hex Htm Hi Hj Hs Ht Hc. destruct (clean_exec_rel _ _ _ Hex Htm) as (a & Hst & Hr & _).
  destruct (asteps_inv _ _ _ (ainit_inv n) Hst) as [Hinv _]. pose proof (clean_exec_exec _ _ _ Hex) as Hex0.
  pose proof (leader_led _ _ _ Hex0 _ _ Hj Hs) as Hled.
  assert (agree (S (Z.to_nat (commitIndex rf))) (log rf) (log rf')) as (Heq & _ & Hlen).
  { rewrite (nr_leader _ _ _ _ _ (rl_node _ _ _ _ Hr _ _ Hj) Hled). eapply justified_lead; [exact Hinv| |done|exact Ht|].
    - apply (nr_commit _ _ _ _ _ (rl_node _ _ _ _ Hr _ _ Hi)).
    - by eapply led_lead. }
  unfold zlen. split; [|lia]. rewrite Heq. eexists. by rewrite take_drop.
Qed.

(** C13: Log matching.  In such a run, when the logs of two peers hold an entry of
    the same term at the same index, they are the same up to that index. *)
Theorem log_matching n tr σ i j rf rf' k e e' : clean_exec n tr σ → timely tr →
  nodes σ !! i = Some rf → nodes σ !! j = Some rf' → log rf !! k = Some e → log rf' !! k = Some e' →
  le_Term e = le_Term e' → take (S k) (log rf) = take (S k) (log rf').
Proof.
  intros Hex Htm Hi Hj He He' Ht. destruct (clean_exec_rel _ _ _ Hex Htm) as (a & Hst & Hr & _).
  destruct (asteps_inv _ _ _ (ainit_inv n) Hst) as [Hinv _].
  rewrite <- (nr_log _ _ _ _ _ (rl_node _ _ _ _ Hr _ _ Hi)) in *. rewrite <- (nr_log _ _ _ _ _ (rl_node _ _ _ _ Hr _ _ Hj)) in *.
  pose proof (ai_log _ _ Hinv i _ _ He) as H1. pose proof (ai_log _ _ Hinv j _ _ He') as H2. rewrite <- Ht in H2.
  by destruct (agree_trans _ _ _ _ H1 (agree_sym _ _ _ H2)) as [? _].
Qed.

(** C17: The applier does not panic.  In such a run [commitIndex] of every peer is
    inside its log, so [CommitChecker] returns. *)
Theorem applier_panic_free n tr σ i rf : clean_exec n tr σ → timely tr → nodes σ !! i = Some rf →
  commitIndex rf < zlen (log rf) ∧ returns (raft.CommitChecker rf).
Proof.
  intros Hex Htm Hi. destruct (clean_exec_rel _ _ _ Hex Htm) as (a & _ & Hr & _).
  pose proof (b_node _ _ (exec_base _ _ _ (clean_exec_exec _ _ _ Hex)) _ _ Hi) as Hn.
  assert (commitIndex rf < zlen (log rf)) as Hlt.
  { eapply node_commit_lt; [by apply (rl_node _ _ _ _ Hr)|apply log_ok_nonempty, Hn]. }
  split; [done|]. unfold raft.CommitChecker. destruct (Z.leb_spec (commitIndex rf) (lastApplied rf)); [by eexists|].
  rewrite apply_loop_spec; [by eexists|apply Hn|done|lia].
Qed.
End safety.

Section harness.
Context {Cmd : Type} `{EqDecision Cmd}.
Implicit Types (σ : cluster Cmd) (c : raftcfg.config Cmd).

Lemma events_elem tr (e : nat * ApplyMsg Cmd) : e ∈ events_of tr → ∃ ms, LApply e.1 ms ∈ tr ∧ e.2 ∈ ms.
Proof.
  induction tr as [|l tr IH]; [by intros ?%elem_of_nil|]. rewrite events_cons. intros [He|He]%elem_of_app.
  - destruct (IH He) as (ms & Hl & Hm). exists ms. split; [by right|done].
  - destruct l as [| | | |i ms|]; try (by apply elem_of_nil in He). apply list_elem_of_fmap in He as (m & -> & Hm).
    exists ms. split; [by left|done].
Qed.

(** C20: The tests accept safe runs.  In a run with timely elections and without
    resent entries, however the appliers of the harness interleave what they read from
    the peers, none of them reports an error, and [cfg.logs] holds what the peers
    applied. *)
Theorem harness_accepts_clean_runs n tr σ evs c :
  clean_exec n tr σ → timely tr → reads tr evs → raftcfg.cf_logs c = replicate n (Some ∅) →
  ∃ c', monitor evs c = Done c' ∧ logs_hold n evs c'.
Proof.
  intros Hex Htm Hr Hl. pose proof (clean_exec_exec _ _ _ Hex) as Hex0.
  assert (peers_agree evs) as Hag.
  { assert (∀ e, e ∈ evs → ∃ ms, LApply e.1 ms ∈ tr ∧ e.2 ∈ ms) as Hev.
    { intros e He. apply events_elem. eapply (list_elem_of_filter (λ e', e'.1 = e.1)).
      eapply elem_of_prefix; [|apply (Hr e.1)]. by apply list_elem_of_filter. }
    intros e e' (ms & Hi & Hm)%Hev (ms' & Hi' & Hm')%Hev Heq.
    by rewrite (applied_agree n tr σ _ _ _ _ _ _ Hex Htm Hi Hi' Hm Hm' Heq). }
  apply (reads_accepted _ _ _ _ Hex0 Hr) in Hag.
  destruct (monitor_spec n evs [] c (logs_hold_empty _ _ Hl)) as [(_ & c' & Hm & Hh)|(Hno & _)]; [|by exists c'|done].
  eapply Forall_impl; [exact (reads_events _ _ _ _ Hex0 Hr)|]. by intros e [? _].
Qed.
End harness.

(** ** Instances *)

(** Peer 0 commits and applies one command; peer 1, which has it, is elected with the
    vote of peer 2, commits another command with the help of peer 0 and applies
    both. *)
Definition change_leader : list (action nat) :=
  elect0 ++ [AStart 0 (Some 7%nat); AHeartbeat 0; AAppend 0 0; AAppendReply 0 0; AApply 0;
             AKick 1 0; AVote 2 0; AVoteReply 2 0; ACollect 1;
             AStart 1 (Some 8%nat); AHeartbeat 1; AAppend 1 0; AAppendReply 1 0; AApply 1].

Lemma change_leader_clean : clean_exec 3 (run_of change_leader).1 (run_of change_leader).2.
Proof. apply run_of_clean; vm_compute; [discriminate|reflexivity]. Qed.

Lemma change_leader_timely : timely (run_of change_leader).1.
Proof. apply timely_forallb. vm_compute. reflexivity. Qed.

(** The peers at its end. *)
Definition changed_node (i : nat) : Raft nat :=
  nth i (nodes (run_of change_leader).2) (raft.Make 0 0 0 persister.MakePersister).

Lemma state_machine_safety_witness :
  ∃ ms ms' c, LApply 0 ms ∈ (run_of change_leader).1 ∧ LApply 1 ms' ∈ (run_of change_leader).1 ∧
    apply_msg (Some 7%nat) 1 ∈ ms ∧ apply_msg c 1 ∈ ms' ∧ apply_msg (Some 7%nat) 1 = apply_msg c 1.
Proof.
  assert (LApply 0 [apply_msg (Some 7%nat) 1] ∈ (run_of change_leader).1) as H0.
  { apply list_elem_of_lookup. exists 9%nat. vm_compute. reflexivity. }
  assert (LApply 1 [apply_msg (Some 7%nat) 1; apply_msg (Some 8%nat) 2] ∈ (run_of change_leader).1) as H1.
  { apply list_elem_of_lookup. exists 0%nat. vm_compute. reflexivity. }
  do 3 eexists. split_and!; [exact H0|exact H1|by left|by left|].
  apply (state_machine_safety 3 _ _ 0 1 _ _ _ _ change_leader_clean change_leader_timely H0 H1); [by left|by left|reflexivity].
Defined.

Lemma cluster_refines_spec_witness :
  ∃ a, rtc (astep 3) ainit a ∧ a_lead a 2 = log (changed_node 1) ∧ ∃ t N, chosen 3 a t N ∧ 2 ≤ Z.of_nat N.
Proof.
  destruct (cluster_refines_spec 3 _ _ change_leader_clean change_leader_timely) as (a & Hs & _ & Hn).
  destruct (Hn 1%nat (changed_node 1)) as (_ & _ & Hl & Hc); [vm_compute; reflexivity|].
  exists a. split; [exact Hs|]. split; [exact (Hl eq_refl)|].
  destruct Hc as (t & N & Hc & _ & HN & _); [vm_compute; reflexivity|]. exists t, N. split; [exact Hc|exact HN].
Defined.

Lemma leader_completeness_witness :
  take 2 (log (changed_node 0)) `prefix_of` log (changed_node 1) ∧ 1 < zlen (log (changed_node 1)).
Proof.
  apply (leader_completeness 3 _ _ 0 1 (changed_node 0) (changed_node 1) change_leader_clean change_leader_timely);
    vm_compute; reflexivity || discriminate.
Defined.

Lemma log_matching_witness : take 3 (log (changed_node 0)) = take 3 (log (changed_node 1)).
Proof.
  eapply (log_matching 3 _ _ 0 1 (changed_node 0) (changed_node 1) 2 _ _ change_leader_clean change_leader_timely);
    vm_compute; reflexivity.
Defined.

Lemma applier_panic_free_witness :
  commitIndex (changed_node 1) < zlen (log (changed_node 1)) ∧ returns (raft.CommitChecker (changed_node 1)).
Proof.
  apply (applier_panic_free 3 _ _ 1 (changed_node 1) change_leader_clean change_leader_timely). vm_compute. reflexivity.
Defined.

Lemma harness_accepts_clean_runs_witness :
  let c := raftcfg.set_logs (replicate 3 (Some ∅)) (raftcfg.new_config (labrpc.init (MkApp 0 [])) 3) in
  length (events_of (run_of change_leader).1) = 3%nat ∧
  ∃ c', monitor (events_of (run_of change_leader).1) c = Done c' ∧ logs_hold 3 (events_of (run_of change_leader).1) c'.
Proof.
  intros c. split; [vm_compute; reflexivity|].
  apply (harness_accepts_clean_runs 3 _ _ _ c change_leader_clean change_leader_timely (reads_all _)). reflexivity.
Defined.
