(* ===== verification/RaftNet.v ===== *)
(** * Raft peers on the simulated network

    The goroutines of raft.go as they run under raft/config.go: the peers are
    objects of the memory, their calls are calls of LabRpc.v on the ends that the
    harness made, and the handlers are the methods that the network finds on the
    peers.  One event is one critical section, one step inside [Call], one step of
    a goroutine of the network, or an operation of the test.  Peers are crashed but
    not restarted: a restarted peer has forgotten its state.

    The locals of [KickOffElection] and [collectVotes] are the records [election]
    of RaftCluster.v.  The arguments of an AppendEntries call are a value from the
    moment they are built. *)

From S2P Require Import Prelude Persister Raft RaftCluster LabRpc Harness RaftConfig.
Import raftcfg cluster.
Open Scope Z_scope.

Module raftnet.

Section raftnet.
Context {Cmd : Type} `{Codec (value Cmd)}.

(** A goroutine [handleRequestVote(server, args, voteCh)] of an election, and the
    call it is in. *)
Record vote_go := MkVoteGo { vg_eid : nat; vg_dst : nat; vg_call : option nat }.

(** A goroutine [handleAppendEntries(serverTo, args)]. *)
Record append_go := MkAppendGo {
  ag_src : nat; ag_dst : nat; ag_args : AppendEntriesArgs Cmd; ag_call : option nat }.

(** The process: the harness with its network and memory, the addresses of the
    peers, and the goroutines of the peers. *)
Record process := MkProcess {
  np_cfg : config Cmd;
  np_peers : list nat;
  np_kicks : list nat;           (* [go rf.KickOffElection()] that did not begin *)
  np_hearts : list nat;          (* [go rf.SendHeartBeats()] *)
  np_elections : list election;
  np_votes : list vote_go;
  np_appends : list append_go;
}.
Implicit Types s : process.

Definition world s := cf_w (np_cfg s).
Definition heap s : list (obj Cmd) := ap_heap (mem (np_cfg s)).

(** Peer [i]: its address, its fields and its persister. *)
Definition peer s (i : nat) : option (nat * Raft Cmd * nat) :=
  q ← np_peers s !! i;
  match heap s !! q with Some (ORaft rf ps) => Some (q, rf, ps) | _ => None end.

(** [rf.peers[j]] of peer [i]. *)
Definition end_from s (i j : nat) : option ClientEnd :=
  names ← mjoin (cf_endnames (np_cfg s) !! i);
  nm ← names !! j;
  Some (labrpc.MkClientEnd (NStr nm)).

Definition with_cfg s c : process :=
  MkProcess c (np_peers s) (np_kicks s) (np_hearts s) (np_elections s) (np_votes s) (np_appends s).
Definition with_world s w : process := with_cfg s (set_w w (np_cfg s)).
Definition set_peer s (q : nat) (rf : Raft Cmd) (ps : nat) : process :=
  with_cfg s (set_mem (store (mem (np_cfg s)) q (ORaft rf ps)) (np_cfg s)).
Definition with_kicks s x : process :=
  MkProcess (np_cfg s) (np_peers s) x (np_hearts s) (np_elections s) (np_votes s) (np_appends s).
Definition with_hearts s x : process :=
  MkProcess (np_cfg s) (np_peers s) (np_kicks s) x (np_elections s) (np_votes s) (np_appends s).
Definition with_elections s x : process :=
  MkProcess (np_cfg s) (np_peers s) (np_kicks s) (np_hearts s) x (np_votes s) (np_appends s).
Definition with_votes s x : process :=
  MkProcess (np_cfg s) (np_peers s) (np_kicks s) (np_hearts s) (np_elections s) x (np_appends s).
Definition with_appends s x : process :=
  MkProcess (np_cfg s) (np_peers s) (np_kicks s) (np_hearts s) (np_elections s) (np_votes s) x.

Inductive event :=
  | RTicker (i : nat) (plusMs : Z)      (* an iteration of [ticker] of peer [i] *)
  | RKick (k : nat)                     (* [KickOffElection] up to [collectVotes] *)
  | RVoteCall (k id : nat)              (* goroutine [k] enters [Call], as call [id] *)
  | RVoteReturn (k : nat)               (* the rest of [handleRequestVote] *)
  | RCollect (eid : nat)                (* an iteration of [collectVotes] *)
  | RHeart (k : nat)                    (* an iteration of [SendHeartBeats] *)
  | RAppendCall (k id : nat)
  | RAppendReturn (k : nat)             (* the rest of [handleAppendEntries] *)
  | RApply (i : nat)                    (* a critical section of [CommitChecker] *)
  | RStart (i : nat) (cmd : option Cmd) (* [Start] *)
  | RConnect (i : Z) | RDisconnect (i : Z) | RCrash (i : Z)
  | RNet (a : @labrpc.action name (value Cmd) (app Cmd))
  | RTime (d : Z).

(** The goroutines of the network and the settings that tests change. *)
Definition of_network (a : @labrpc.action name (value Cmd) (app Cmd)) : bool :=
  match a with
  | labrpc.AReliable _ | labrpc.ALongReordering _ | labrpc.ALongDelays _
  | labrpc.AReceive _ | labrpc.ALoopExit | labrpc.ACallDone _ | labrpc.AStart _ _
  | labrpc.AServerDispatch _ | labrpc.AServiceDispatch _ | labrpc.AReplyReady _
  | labrpc.ATimeout _ | labrpc.AFinish _ _ _ | labrpc.ADrain _ | labrpc.AReturn _ => true
  | _ => false
  end.

(** What an action of the network lets the theorems see: a vote that is granted. *)
Definition net_label (w w' : Harness.world Cmd) : label Cmd :=
  match drop (length (labrpc.w_log w)) (labrpc.w_log w') with
  | [x] =>
      match labrpc.ex_args x, labrpc.ex_reply x, labrpc.w_calls w !! labrpc.ex_call x with
      | VRequestVoteArgs args, VRequestVoteReply r, Some c =>
          match labrpc.rn_connections (labrpc.w_net w) !! labrpc.rq_endname (labrpc.cl_req c) with
          | Some (Some (NInt j)) => grant_label (Z.to_nat j) args r
          | _ => LTau
          end
      | _, _, _ => LTau
      end
  | _ => LTau
  end.

Definition no_vote : value Cmd := VRequestVoteReply (MkRequestVoteReply 0 false).
Definition no_append : value Cmd := VAppendEntriesReply (MkAppendEntriesReply 0 false 0 0).

(** What an event does, and its label; [None] if the goroutine is not at that
    point. *)
Notation effect := (option (outcome (process * label Cmd))).

(** An iteration of [ticker] of peer [i]; [plusMs] is the draw. *)
Definition ticker_go s (i : nat) (plusMs : Z) : effect :=
  '(_, rf, _) ← peer s i;
  Some (Done (if raft.ticker (now (np_cfg s)) (raft.getRandomElectTimeOut plusMs) rf
              then with_kicks s (np_kicks s ++ [i]) else s, LTau)).

(** [KickOffElection] up to the call of [collectVotes]. *)
Definition kick_go s (k : nat) : effect :=
  i ← np_kicks s !! k;
  '(q, rf, ps) ← peer s i;
  Some (
    let! '(rf', args) := raft.KickOffElection (now (np_cfg s)) rf in
    let eid := length (np_elections s) in
    let s := set_peer (with_kicks s (delete k (np_kicks s))) q rf' ps in
    let s := with_elections s (np_elections s ++ [MkElection i args [] 1 0 false]) in
    Done (with_votes s (np_votes s ++ ((λ j, MkVoteGo eid j None) <$> raft.vote_targets rf')),
          LKick eid i (rv_Term args))).

(** Goroutine [k] enters [Call] in [sendRequestVote], as call [id]. *)
Definition sendRequestVote s (k id : nat) : effect :=
  g ← np_votes s !! k;
  el ← np_elections s !! vg_eid g;
  e ← end_from s (el_server el) (vg_dst g);
  match vg_call g with
  | Some _ => None
  | None =>
      m ← labrpc.act (world s)
            (labrpc.ACall id e "Raft.RequestVote" (VRequestVoteArgs (el_args el)) no_vote);
      Some (
        let! w := m in
        Done (with_votes (with_world s w) (<[k := MkVoteGo (vg_eid g) (vg_dst g) (Some id)]> (np_votes s)), LTau))
  end.

(** [handleRequestVote] after [sendRequestVote] returned. *)
Definition vote_go_end s (k : nat) : effect :=
  g ← np_votes s !! k;
  el ← np_elections s !! vg_eid g;
  id ← vg_call g;
  x ← labrpc.w_calls (world s) !! id;
  match labrpc.cl_caller x with
  | labrpc.Returned ok v =>
      let s := with_votes s (delete k (np_votes s)) in
      if (ok : bool) then
        match v with
        | VRequestVoteReply r =>
            '(q, rf, ps) ← peer s (el_server el);
            let '(rf', o) := raft.handleRequestVote (now (np_cfg s)) rf (el_args el) r in
            let s := set_peer s q rf' ps in
            Some (Done (with_elections s (<[vg_eid g := push_vote el o]> (np_elections s)),
                        push_label (vg_eid g) (vg_dst g) o))
        | _ => Some wrong_type
        end
      else Some (Done (s, LTau))
  | _ => None
  end.

(** An iteration of [collectVotes]; a new leader starts [SendHeartBeats]. *)
Definition collect_go s (eid : nat) : effect :=
  el ← np_elections s !! eid;
  '(q, rf, ps) ← peer s (el_server el);
  match el_returned el, el_chan el with
  | false, b :: ch =>
      if Z.of_nat (el_iter el) <? Z.of_nat (peers rf) - 1 then
        let '(rf', v, ret) := raft.collectVotes rf b (el_votes el) in
        let s := set_peer s q rf' ps in
        let s := with_elections s
          (<[eid := MkElection (el_server el) (el_args el) ch v (S (el_iter el)) ret]> (np_elections s)) in
        Some (Done (if bool_decide (state rf = Candidate) && bool_decide (state rf' = Leader)
                    then with_hearts s (np_hearts s ++ [el_server el]) else s,
                    win_label eid el rf rf'))
      else None
  | _, _ => None
  end.

(** An iteration of [SendHeartBeats]; it returns when the peer is killed or not
    the leader. *)
Definition heart_go s (k : nat) : effect :=
  i ← np_hearts s !! k;
  '(q, rf, ps) ← peer s i;
  Some (
    let! m := raft.SendHeartBeats rf in
    match m with
    | None => Done (with_hearts s (delete k (np_hearts s)), LTau)
    | Some msgs =>
        Done (with_appends s (np_appends s ++ ((λ m, MkAppendGo i m.1 m.2 None) <$> msgs)), LTau)
    end).

(** Goroutine [k] enters [Call] in [sendAppendEntries], as call [id]. *)
Definition sendAppendEntries s (k id : nat) : effect :=
  g ← np_appends s !! k;
  e ← end_from s (ag_src g) (ag_dst g);
  match ag_call g with
  | Some _ => None
  | None =>
      m ← labrpc.act (world s)
            (labrpc.ACall id e "Raft.AppendEntries" (VAppendEntriesArgs (ag_args g)) no_append);
      Some (
        let! w := m in
        Done (with_appends (with_world s w)
                (<[k := MkAppendGo (ag_src g) (ag_dst g) (ag_args g) (Some id)]> (np_appends s)), LTau))
  end.

(** [handleAppendEntries] after [sendAppendEntries] returned. *)
Definition append_go_end s (k : nat) : effect :=
  g ← np_appends s !! k;
  id ← ag_call g;
  x ← labrpc.w_calls (world s) !! id;
  match labrpc.cl_caller x with
  | labrpc.Returned ok v =>
      let s := with_appends s (delete k (np_appends s)) in
      if (ok : bool) then
        match v with
        | VAppendEntriesReply r =>
            '(q, rf, ps) ← peer s (ag_src g);
            Some (
              let! rf' := raft.handleAppendEntries (now (np_cfg s)) rf (Z.of_nat (ag_dst g)) (ag_args g) r in
              Done (set_peer s q rf' ps, LTau))
        | _ => Some wrong_type
        end
      else Some (Done (s, LTau))
  | _ => None
  end.

(** A critical section of [CommitChecker], when it is not parked. *)
Definition apply_go s (i : nat) : effect :=
  '(q, rf, ps) ← peer s i;
  if condApply rf then None
  else Some (let! '(rf', msgs) := raft.CommitChecker rf in Done (set_peer s q rf' ps, LApply i msgs)).

(** The test calls [Start]. *)
Definition start_go s (i : nat) (cmd : option Cmd) : effect :=
  '(q, rf, ps) ← peer s i;
  Some (Done (set_peer s q (raft.Start rf cmd).1 ps, LTau)).

Definition happen s (ev : event) : effect :=
  let c := np_cfg s in
  match ev with
  | RTicker i plusMs => ticker_go s i plusMs
  | RKick k => kick_go s k
  | RVoteCall k id => sendRequestVote s k id
  | RVoteReturn k => vote_go_end s k
  | RCollect eid => collect_go s eid
  | RHeart k => heart_go s k
  | RAppendCall k id => sendAppendEntries s k id
  | RAppendReturn k => append_go_end s k
  | RApply i => apply_go s i
  | RStart i cmd => start_go s i cmd
  | RConnect i => Some (let! c := connect i c in Done (with_cfg s c, LTau))
  | RDisconnect i => Some (let! c := disconnect i c in Done (with_cfg s c, LTau))
  | RCrash i => Some (let! c := crash1 i c in Done (with_cfg s c, LTau))
  | RNet a =>
      if of_network a then
        m ← labrpc.act (world s) a;
        Some (let! w := m in Done (with_world s w, net_label (world s) w))
      else None
  | RTime d =>
      if 0 <? d then Some (Done (with_cfg s (set_mem (MkApp (now c + d) (heap s)) c), LTau)) else None
  end.

(** The events lead from [s] to the result, and none of them ends the process; the
    newest label comes first. *)
Fixpoint run s (evs : list event) (tr : list (label Cmd)) : option (process * list (label Cmd)) :=
  match evs with
  | [] => Some (s, tr)
  | ev :: evs' => match happen s ev with Some (Done (s1, l)) => run s1 evs' (l :: tr) | _ => None end
  end.

(** The tests begin with [make_config] in a fresh process. *)
Definition start (snap_decode : list Z → option (Z * list (option Cmd))) (n : nat) (unreliable : bool)
    (names : nat → nat → string) : outcome process :=
  let! c := make_config snap_decode (labrpc.init (MkApp 0 [])) n unreliable names in
  Done (MkProcess c (omap id (cf_rafts c)) [] [] [] [] []).

End raftnet.
Arguments process : clear implicits.
Arguments event : clear implicits.
End raftnet.
