(* ===== verification/RaftNetFacts.v ===== *)
(** * Raft peers on the network: where requests go

    The part of the invariant that concerns the network: without restarts, the end
    from peer [i] to peer [j] leads to the server of peer [j] for good, and what is
    executed there are the methods of peer [j]. *)

From S2P Require Import Prelude Persister Raft RaftCluster LabRpc LabRpcFacts LabRpcClient Harness HarnessFacts.
From S2P Require Import RaftConfig RaftConfigFacts RaftNet.
Import raftcfg cluster raftnet.
Open Scope Z_scope.

(** What the peers rely on from labgob: replies are encoded without error, and
    their zero value is the reply before the call. *)
Class RaftCodec {Cmd : Type} `{Codec (value Cmd)} : Prop := {
  rc_laws :: CodecLaws (value Cmd);
  rc_vote_reply x : (encode (VRequestVoteReply x)).2 = true ∧ zero (VRequestVoteReply x) = no_vote;
  rc_append_reply x : (encode (VAppendEntriesReply x)).2 = true ∧ zero (VAppendEntriesReply x) = no_append;
}.
Arguments RaftCodec : clear implicits.
Arguments RaftCodec Cmd {_}.

Module raftnetproof.
Import labrpc rpcproof rpcclient raftcfg cluster raftnet.

Section facts.
Context {Cmd : Type} `{EqDecision Cmd} `{Codec (value Cmd)} `{!RaftCodec Cmd}.
(** The names of the ends, and the addresses of the labrpc servers and of the
    peers. *)
Context (E : nat → nat → option string) (srvs P : list nat).
Implicit Types (s : process Cmd) (w : Harness.world Cmd).

Definition to_server (e : name) (p : nat) : Prop :=
  ∀ i j nm, e = NStr nm → E i j = Some nm → srvs !! j = Some p.

Definition to_method (req : @reqMsg name (value Cmd)) (svc : @Service (value Cmd) (app Cmd)) (m : string) : Prop :=
  ∀ i j nm meth, rq_endname req = NStr nm → E i j = Some nm → no_dot meth = true →
    rq_svcMeth req = "Raft" +:+ "." +:+ meth →
    m = meth ∧ ∃ q, P !! j = Some q ∧ MakeService (raft_receiver q) = Done svc.

Record rinv s : Prop := {
  ri_peers : np_peers s = P;
  ri_w : winv (world s);
  ri_routed : routed to_server to_method (world s);
  ri_names i j : end_of (np_cfg s) i j = E i j;
  ri_to i j nm : E i j = Some nm → rn_connections (w_net (world s)) !! NStr nm = Some (Some (NInt (Z.of_nat j)));
  ri_srv i j nm p : E i j = Some nm → server_at (w_net (world s)) (NInt (Z.of_nat j)) = Some p → srvs !! j = Some p;
  ri_store j p : srvs !! j = Some p → ∃ rs q svc, w_store (world s) !! p = Some rs ∧
    rs_services rs !! "Raft" = Some svc ∧ P !! j = Some q ∧ MakeService (raft_receiver q) = Done svc;
  ri_rafts i q : cf_rafts (np_cfg s) !! i = Some (Some q) → P !! i = Some q;
}.

Lemma rinv_leads s : rinv s → leads to_server to_method (world s).
Proof.
  intros Hs. split.
  - intros e sn p Hco Hp i j nm -> HE. rewrite (ri_to _ Hs _ _ _ HE) in Hco. simplify_eq.
    by eapply (ri_srv _ Hs).
  - intros req p rs rs' svc m Hp Hrs Hd i j nm meth He HE Hnd Hm.
    destruct (ri_store _ Hs j p (Hp _ _ _ He HE)) as (rs1 & q & svc1 & Hrs1 & Hsvc1 & Hq & Hmk).
    rewrite Hrs in Hrs1. simplify_eq. rewrite (Server_dispatch_split _ _ "Raft" meth) in Hd by done.
    rewrite Hsvc1 in Hd. simplify_eq. eauto.
Qed.

(** Only these parts of the process matter. *)
Lemma rinv_ext s s' : rinv s → np_peers s' = np_peers s →
  w_calls (world s') = w_calls (world s) → w_log (world s') = w_log (world s) →
  cf_endnames (np_cfg s') = cf_endnames (np_cfg s) →
  rn_connections (w_net (world s')) = rn_connections (w_net (world s)) →
  (∀ nm p, server_at (w_net (world s')) nm = Some p → server_at (w_net (world s)) nm = Some p) →
  w_store (world s') = w_store (world s) →
  (∀ i q, cf_rafts (np_cfg s') !! i = Some (Some q) → cf_rafts (np_cfg s) !! i = Some (Some q)) → rinv s'.
Proof.
  intros Hs Hp Hca Hl He Hco Hsv Hst Hr. split.
  - by rewrite Hp, (ri_peers _ Hs).
  - eapply winv_ext; [apply (ri_w _ Hs)|done..].
  - intros i c Hc. rewrite Hca in Hc. by apply (ri_routed _ Hs i).
  - intros i j. unfold end_of. rewrite He. apply (ri_names _ Hs).
  - intros i j nm HE. rewrite Hco. by eapply (ri_to _ Hs).
  - intros i j nm p HE Hj. eapply (ri_srv _ Hs); [done|]. by apply Hsv.
  - intros j p Hj. rewrite Hst. by apply (ri_store _ Hs).
  - intros i q Hi. apply (ri_rafts _ Hs). by apply Hr.
Qed.

(** A goroutine of the network, or a new call. *)
Definition quiet (a : @action name (value Cmd) (app Cmd)) : bool :=
  of_network a || match a with ACall _ _ _ _ _ => true | _ => false end.

Lemma quiet_config w a w' : act w a = Some (Done w') → quiet a = true →
  rn_connections (w_net w') = rn_connections (w_net w) ∧ rn_servers (w_net w') = rn_servers (w_net w) ∧
  ∀ p rs, w_store w !! p = Some rs → ∃ rs', w_store w' !! p = Some rs' ∧ rs_services rs' = rs_services rs.
Proof.
  intros Ha Hq. destruct (admin a) eqn:Had.
  - destruct a; try done; simpl in Ha; simplify_eq; simpl; split_and!; eauto.
  - pose proof (act_config _ _ _ Ha Had) as Hc. unfold rpcproof.config in Hc. simplify_eq.
    split_and!; [congruence..|]. intros p rs Hrs. by eapply act_services.
Qed.

Lemma rinv_act s a w s' : rinv s → act (world s) a = Some (Done w) → quiet a = true →
  np_peers s' = np_peers s → np_cfg s' = set_w w (np_cfg s) → rinv s'.
Proof.
  intros Hs Ha Hq Hp Hc. destruct (quiet_config _ _ _ Ha Hq) as (Hco & Hsv & Hst).
  assert (world s' = w) as Hw by (unfold world; by rewrite Hc). split; rewrite ?Hw, ?Hc.
  - by rewrite Hp, (ri_peers _ Hs).
  - eapply winv_act; [apply (ri_w _ Hs)|done].
  - eapply routed_act; [by apply rinv_leads|apply (ri_w _ Hs)|done|apply (ri_routed _ Hs)].
  - apply (ri_names _ Hs).
  - intros i j nm HE. rewrite Hco. by eapply (ri_to _ Hs).
  - intros i j nm p HE Hj. unfold server_at in Hj. rewrite Hsv in Hj. by eapply (ri_srv _ Hs).
  - intros j p Hj. destruct (ri_store _ Hs _ _ Hj) as (rs & q & svc & Hrs & Hsvc & Hq' & Hmk).
    destruct (Hst _ _ Hrs) as (rs' & Hrs' & Heq). exists rs', q, svc. by rewrite Heq.
  - apply (ri_rafts _ Hs).
Qed.

(** ** The operations of the harness *)

Lemma enable_all_calls ns b w : w_calls (enable_all ns b w) = w_calls w ∧ w_log (enable_all ns b w) = w_log w.
Proof.
  unfold enable_all. revert w. induction ns as [|x ns IH]; intros w; [done|]. simpl.
  by destruct (IH (enable w (NStr x) b)) as [-> ->].
Qed.

Lemma switches_calls Q b (c c' : config Cmd) : switches Q b c c' →
  w_calls (cf_w c') = w_calls (cf_w c) ∧ w_log (cf_w c') = w_log (cf_w c).
Proof. intros (ns & -> & _). apply enable_all_calls. Qed.

Lemma rinv_switches s Q b c c' : rinv s → cf_endnames c = cf_endnames (np_cfg s) →
  cf_rafts c = cf_rafts (np_cfg s) → cf_w c = world s → switches Q b c c' → rinv (with_cfg s c').
Proof.
  intros Hs He Hr Hw Hsw. destruct (switches_frame _ _ _ _ Hsw) as ((_ & _ & He' & Hr' & _) & _ & Hst & _ & Hco & Hsv).
  destruct (switches_calls _ _ _ _ Hsw) as [Hca Hlog]. unfold net in *. rewrite Hw in *.
  apply (rinv_ext s); unfold world in *; simpl; try done; try congruence.
  intros nm p. unfold server_at. by rewrite Hsv.
Qed.

Lemma connect_rinv s i c' : rinv s → connect i (np_cfg s) = Done c' → rinv (with_cfg s c') ∧ mem c' = mem (np_cfg s) ∧
  w_calls (cf_w c') = w_calls (world s) ∧ w_log (cf_w c') = w_log (world s) ∧
  rn_connections (w_net (cf_w c')) = rn_connections (w_net (world s)).
Proof.
  intros Hs [_ Hsw]%connect_spec. cbv zeta in Hsw. split; [by eapply (rinv_switches s _ _ _ _ Hs); [..|exact Hsw]|].
  destruct (switches_frame _ _ _ _ Hsw) as (_ & Hm & _ & _ & Hco & _). destruct (switches_calls _ _ _ _ Hsw). done.
Qed.

Lemma disconnect_rinv s i c' : rinv s → disconnect i (np_cfg s) = Done c' → rinv (with_cfg s c') ∧ mem c' = mem (np_cfg s) ∧
  w_calls (cf_w c') = w_calls (world s) ∧ w_log (cf_w c') = w_log (world s) ∧
  rn_connections (w_net (cf_w c')) = rn_connections (w_net (world s)) ∧ cf_rafts c' = cf_rafts (np_cfg s).
Proof.
  intros Hs [_ Hsw]%disconnect_spec. cbv zeta in Hsw. split; [by eapply (rinv_switches s _ _ _ _ Hs); [..|exact Hsw]|].
  destruct (switches_frame _ _ _ _ Hsw) as ((_ & _ & _ & Hr & _) & Hm & _ & _ & Hco & _).
  destruct (switches_calls _ _ _ _ Hsw). done.
Qed.

(** [crash1] kills the peer that runs, and allocates persisters. *)
Definition killed_heap (o : option nat) (h h' : list (obj Cmd)) : Prop := ∀ q,
  (Some q ≠ o → (q < length h)%nat → h' !! q = h !! q) ∧
  ∀ rf a, Some q = o → h !! q = Some (ORaft rf a) → h' !! q = Some (ORaft (raft.Kill rf) a).

Lemma crash1_locked_frame i (c c' : config Cmd) : crash1_locked i c = Done c' →
  net c' = net c ∧ w_store (cf_w c') = w_store (cf_w c) ∧ w_calls (cf_w c') = w_calls (cf_w c) ∧
  w_log (cf_w c') = w_log (cf_w c) ∧ cf_endnames c' = cf_endnames c ∧
  ∃ o, cf_rafts c !! Z.to_nat i = Some o ∧ cf_rafts c' = <[Z.to_nat i := None]> (cf_rafts c) ∧
    killed_heap o (ap_heap (mem c)) (ap_heap (mem c')) ∧
    ∀ q, o = Some q → ∃ rf a, ap_heap (mem c) !! q = Some (ORaft rf a).
Proof.
  intros Hc. unfold crash1_locked in Hc. apply bind_Done in Hc as (x & _ & Hc).
  apply bind_Done in Hc as (c1 & Hc1 & Hc). apply bind_Done in Hc as (o & [_ Ho]%idx_Done & Hc).
  apply bind_Done in Hc as (c2 & Hc2 & Hc). apply bind_Done in Hc as (y & _ & Hc).
  assert (net c1 = net c ∧ w_store (cf_w c1) = w_store (cf_w c) ∧ w_calls (cf_w c1) = w_calls (cf_w c) ∧
    w_log (cf_w c1) = w_log (cf_w c) ∧ cf_endnames c1 = cf_endnames c ∧ cf_rafts c1 = cf_rafts c ∧
    ∃ k, ap_heap (mem c1) = ap_heap (mem c) ++ k ∧ ∀ x, x ∈ k → ∃ p, x = OPersister p) as
    (Hn1 & Hst1 & Hca1 & Hl1 & He1 & Hr1 & k1 & Hh1 & Hk1).
  { destruct x as [ps|]; [apply copy_saved_Done in Hc1 as (p & _ & ->)|apply Done_inj in Hc1 as <-].
    - split_and!; try reflexivity. exists [OPersister p]. split; [done|].
      intros ? ->%list_elem_of_singleton. by eexists.
    - split_and!; try reflexivity. exists []. rewrite app_nil_r. split; [done|]. by intros ? ?%not_elem_of_nil. }
  assert (net c' = net c2 ∧ w_store (cf_w c') = w_store (cf_w c2) ∧ w_calls (cf_w c') = w_calls (cf_w c2) ∧
    w_log (cf_w c') = w_log (cf_w c2) ∧ cf_endnames c' = cf_endnames c2 ∧ cf_rafts c' = cf_rafts c2 ∧
    ∃ k, ap_heap (mem c') = ap_heap (mem c2) ++ k) as (-> & -> & -> & -> & -> & -> & k3 & ->).
  { destruct y as [ps|]; [apply renew_saved_Done in Hc as (p & _ & ->)|apply Done_inj in Hc as <-].
    - split_and!; try reflexivity. by eexists.
    - split_and!; try reflexivity. exists []. by rewrite app_nil_r. }
  clear Hc Hc1. rewrite Hr1 in Ho. destruct o as [q|].
  - apply bind_Done in Hc2 as (σ & Hk & Hc2). apply bind_Done in Hc2 as (rafts & [_ ->]%set_idx_Done & Hc2).
    apply Done_inj in Hc2 as <-. unfold kill_raft in Hk.
    apply bind_Done in Hk as ([[q' rf] a] & [[= <-] Hq]%raft_at_Done & Hk). apply Done_inj in Hk as <-.
    split_and!; try done. exists (Some q). split_and!; [done|simpl; by rewrite Hr1| |].
    + assert (ap_heap (mem c) !! q = Some (ORaft rf a)) as Hqc.
      { rewrite Hh1 in Hq. apply lookup_app_Some in Hq as [?|[_ Hq]]; [done|].
        apply list_elem_of_lookup_2, Hk1 in Hq as [p ?]. done. }
      pose proof (lookup_lt_Some _ _ _ Hqc) as Hlt.
      match goal with |- killed_heap _ _ (ap_heap (mem ?d) ++ _) =>
        change (ap_heap (mem d)) with (<[q := ORaft (raft.Kill rf) a]> (ap_heap (mem c1))) end.
      rewrite Hh1. intros q'. split.
      * intros Hne Hlt'. rewrite lookup_app_l by (rewrite length_insert, length_app; lia).
        rewrite list_lookup_insert_ne by congruence. by apply lookup_app_l.
      * intros rf' a' [= ->] Hq'. rewrite Hqc in Hq'. simplify_eq. apply lookup_app_l_Some.
        apply list_lookup_insert_eq. rewrite length_app. lia.
    + intros q' [= <-]. rewrite Hh1 in Hq. apply lookup_app_Some in Hq as [?|[_ Hq]]; [by eauto|].
      apply list_elem_of_lookup_2, Hk1 in Hq as [p ?]. done.
  - apply Done_inj in Hc2 as <-. split_and!; try done. exists None. split_and!; [done|by rewrite Hr1, list_insert_id| |done].
    intros q. split; [|done]. intros _ Hlt. rewrite Hh1, <- app_assoc. by apply lookup_app_l.
Qed.

Lemma crash_rinv s i c' : rinv s → crash1 i (np_cfg s) = Done c' → rinv (with_cfg s c') ∧
  w_calls (cf_w c') = w_calls (world s) ∧ w_log (cf_w c') = w_log (world s) ∧
  ∃ o, killed_heap o (heap s) (ap_heap (mem c')) ∧
    ∀ q, o = Some q → P !! Z.to_nat i = Some q ∧ ∃ rf a, heap s !! q = Some (ORaft rf a).
Proof.
  intros Hs Hc. unfold crash1 in Hc. apply bind_Done in Hc as (c1 & Hc1 & Hc).
  destruct (disconnect_rinv s i c1 Hs Hc1) as (Hs1 & Hm1 & Hca1 & Hl1 & Hco1 & Hr1).
  destruct (crash1_locked_frame _ _ _ Hc) as (Hn & Hst & Hca & Hl & He & o & Ho & Hr & Hk & Hrf). simpl in *.
  unfold net in Hn. split_and!.
  - apply (rinv_ext (with_cfg s c1)); unfold world; simpl; try done.
    + by rewrite Hn.
    + intros nm p. rewrite Hn. unfold server_at. simpl. destruct (decide (nm = NInt i)) as [->|Hne].
      * by rewrite lookup_insert_eq.
      * by rewrite lookup_insert_ne by done.
    + intros j q. rewrite Hr. destruct (decide (j = Z.to_nat i)) as [->|Hne].
      * by rewrite list_lookup_insert_eq by (by eapply lookup_lt_Some).
      * by rewrite list_lookup_insert_ne by done.
  - congruence.
  - congruence.
  - exists o. unfold heap. unfold mem in Hk, Hrf. simpl in Hk, Hrf. unfold mem in Hm1. rewrite Hm1 in Hk, Hrf.
    split; [done|]. intros q ->. split; [|by apply Hrf]. apply (ri_rafts _ Hs). by rewrite <- Hr1.
Qed.

(** ** Executions *)

(** The methods of the peer at [q]. *)
Lemma raft_service q svc (req : @reqMsg name (value Cmd)) σ x : MakeService (raft_receiver q) = Done svc →
  (∀ a, (decode (rq_args req) (rq_argsType req)).1 = VRequestVoteArgs a →
    Service_dispatch svc "RequestVote" req σ = Done x → ∃ rf ps rf' r, ap_heap σ !! q = Some (ORaft rf ps) ∧
      raft.RequestVote (ap_now σ) rf a = Done (rf', r) ∧
      x = (store σ q (ORaft rf' ps), MkReplyMsg true (encode (VRequestVoteReply r)).1,
           (VRequestVoteArgs a, VRequestVoteReply r))) ∧
  (∀ a, (decode (rq_args req) (rq_argsType req)).1 = VAppendEntriesArgs a →
    Service_dispatch svc "AppendEntries" req σ = Done x → ∃ rf ps rf' r, ap_heap σ !! q = Some (ORaft rf ps) ∧
      raft.AppendEntries (ap_now σ) rf a = Done (rf', r) ∧
      x = (store σ q (ORaft rf' ps), MkReplyMsg true (encode (VAppendEntriesReply r)).1,
           (VAppendEntriesArgs a, VAppendEntriesReply r))).
Proof.
  intros Hsvc. unfold MakeService in Hsvc. cbn in Hsvc. apply Done_inj in Hsvc as <-. split; intros a Ha Hd.
  - unfold Service_dispatch in Hd. cbn [sv_methods] in Hd. rewrite lookup_insert_eq in Hd.
    cbn [mt_In mt_Func sv_rcvr] in Hd. rewrite Ha in Hd. simpl in Hd.
    apply bind_Done in Hd as ([σ' r0] & Hf & Hd). apply bind_Done in Hf as ([[q' rf] ps] & Hat & Hf).
    apply (raft_at_Done σ (Some q)) in Hat as [[= <-] Hq]. apply bind_Done in Hf as ([rf' r] & Hv & Hf). apply Done_inj, pair_equal_spec in Hf as [<- <-]. apply Done_inj in Hd as <-.
    by exists rf, ps, rf', r.
  - unfold Service_dispatch in Hd. cbn [sv_methods] in Hd. rewrite lookup_insert_ne, lookup_insert_eq in Hd by done.
    cbn [mt_In mt_Func sv_rcvr] in Hd. rewrite Ha in Hd. simpl in Hd.
    apply bind_Done in Hd as ([σ' r0] & Hf & Hd). apply bind_Done in Hf as ([[q' rf] ps] & Hat & Hf).
    apply (raft_at_Done σ (Some q)) in Hat as [[= <-] Hq]. apply bind_Done in Hf as ([rf' r] & Hv & Hf). apply Done_inj, pair_equal_spec in Hf as [<- <-]. apply Done_inj in Hd as <-.
    by exists rf, ps, rf', r.
Qed.

(** The arguments that the handler of a call gets are those of the caller. *)
Lemma call_args (c : @call name (value Cmd) (app Cmd)) : req_inv c →
  (decode (rq_args (cl_req c)) (rq_argsType (cl_req c))).1 = cl_args c.
Proof.
  intros [He Hz]. pose proof (decode_encode (cl_args c)) as Hd. rewrite He in Hd. simpl in Hd.
  rewrite Hz, Hd by done. done.
Qed.

End facts.
End raftnetproof.
