(* ===== verification/RaftNetRefine.v ===== *)
(** * Raft peers on the network run as the cluster

    Every event of RaftNet.v is a step of RaftCluster.v or none.  A goroutine
    [handleRequestVote] or [handleAppendEntries] stands for the pending RPC of the
    cluster: a request until the handler has run, then a reply.  A call that
    returned false may still be executed later, so its RPC stays pending. *)

From S2P Require Import Prelude Persister Raft RaftCluster LabRpc LabRpcFacts LabRpcClient Harness HarnessFacts.
From S2P Require Import RaftConfig RaftConfigFacts RaftNet RaftNetFacts.
Open Scope Z_scope.

Module raftnetrefine.
Import labrpc rpcproof rpcclient raftcfg cluster raftnet raftnetproof.

Section refine.
Context {Cmd : Type} `{EqDecision Cmd} `{Codec (value Cmd)} `{!RaftCodec Cmd}.
Context (E : nat → nat → option string) (srvs P : list nat) (HP : NoDup P).
Implicit Types (s : process Cmd) (w : Harness.world Cmd) (vs : list vote_go) (ags : list (@append_go Cmd)).
Implicit Types (V : list vote_rpc) (A : list (append_rpc Cmd)) (log : list (@execution (value Cmd))).
Notation rinv := (rinv E srvs P).

(** ** Peers *)

Definition nodes_ok (h : list (obj Cmd)) (N : list (Raft Cmd)) : Prop :=
  length N = length P ∧ ∀ i q, P !! i = Some q → ∃ rf ps, h !! q = Some (ORaft rf ps) ∧ N !! i = Some rf.

Lemma nodes_same h h' N : (∀ i q rf ps, P !! i = Some q → h !! q = Some (ORaft rf ps) → h' !! q = Some (ORaft rf ps)) →
  nodes_ok h N → nodes_ok h' N.
Proof.
  intros Hh [Hl Hn]. split; [done|]. intros i q Hi. destruct (Hn i q Hi) as (rf & ps & Hq & Hrf). eauto.
Qed.

Lemma nodes_store h N i q rf rf' ps : P !! i = Some q → h !! q = Some (ORaft rf ps) → nodes_ok h N →
  nodes_ok (<[q := ORaft rf' ps]> h) (<[i := rf']> N).
Proof.
  intros Hi Hq [Hl Hn]. split; [by rewrite length_insert|]. intros j q' Hj.
  destruct (Hn j q' Hj) as (rf1 & ps1 & Hq1 & Hrf1). destruct (decide (j = i)) as [->|Hne].
  - rewrite Hi in Hj. injection Hj as <-. exists rf', ps. split; apply list_lookup_insert_eq; by eapply lookup_lt_Some.
  - exists rf1, ps1. rewrite !list_lookup_insert_ne; [done|done|]. intros <-. apply Hne. by eapply NoDup_lookup.
Qed.

Lemma peer_spec s i q rf ps : rinv s → peer s i = Some (q, rf, ps) →
  P !! i = Some q ∧ heap s !! q = Some (ORaft rf ps).
Proof.
  intros Hs. unfold peer. rewrite (ri_peers _ _ _ _ Hs). destruct (P !! i) as [q'|]; [|done]. simpl.
  destruct (heap s !! q') as [[]|] eqn:Hq; naive_solver.
Qed.

Lemma nodes_at s N i q rf ps : rinv s → nodes_ok (heap s) N → peer s i = Some (q, rf, ps) → N !! i = Some rf.
Proof.
  intros Hs [_ Hn] [Hi Hq]%peer_spec; [|done]. destruct (Hn i q Hi) as (rf' & ps' & Hq' & Hrf').
  rewrite Hq in Hq'. by simplify_eq.
Qed.

(** ** Goroutines as pending RPCs *)

Definition vote_reply log (g : vote_go) : option RequestVoteReply :=
  id ← vg_call g; x ← head (execs id log);
  match ex_reply x with VRequestVoteReply r => Some r | _ => None end.

Definition vtoken log (g : vote_go) : vote_rpc :=
  match vote_reply log g with
  | Some r => VRep (vg_eid g) (vg_dst g) r
  | None => VReq (vg_eid g) (vg_dst g)
  end.

Definition append_reply log (g : @append_go Cmd) : option AppendEntriesReply :=
  id ← ag_call g; x ← head (execs id log);
  match ex_reply x with VAppendEntriesReply r => Some r | _ => None end.

Definition atoken log (g : append_go) : append_rpc Cmd :=
  match append_reply log g with
  | Some r => ARep (ag_src g) (ag_dst g) (ag_args g) r
  | None => AReq (ag_src g) (ag_dst g) (ag_args g)
  end.

(** Call [id] was made by peer [i] to peer [j]. *)
Definition sent w (i j : nat) (meth : string) (args rv : value Cmd) (ok : value Cmd → Prop) (id : nat) : Prop :=
  ∃ c nm, w_calls w !! id = Some c ∧ E i j = Some nm ∧ rq_endname (cl_req c) = NStr nm ∧
    rq_svcMeth (cl_req c) = "Raft" +:+ "." +:+ meth ∧ cl_args c = args ∧ cl_reply c = rv ∧
    ∀ x, x ∈ execs id (w_log w) → ok (ex_reply x).

Definition is_vote (v : value Cmd) : Prop := ∃ r, v = VRequestVoteReply r.
Definition is_append (v : value Cmd) : Prop := ∃ r, v = VAppendEntriesReply r.

Definition ids vs ags : list nat := omap vg_call vs ++ omap ag_call ags.

Record gos w (els : list election) vs ags V A : Prop := {
  go_votes : V ≡ₚ vtoken (w_log w) <$> vs;
  go_appends : A ≡ₚ atoken (w_log w) <$> ags;
  go_vote g : g ∈ vs → ∃ el, els !! vg_eid g = Some el ∧ ∀ id, vg_call g = Some id →
    sent w (el_server el) (vg_dst g) "RequestVote" (VRequestVoteArgs (el_args el)) no_vote is_vote id;
  go_append g id : g ∈ ags → ag_call g = Some id →
    sent w (ag_src g) (ag_dst g) "AppendEntries" (VAppendEntriesArgs (ag_args g)) no_append is_append id;
  go_nodup : NoDup (ids vs ags);
  go_calls id c : w_calls w !! id = Some c → id ∈ ids vs ags ∨
    execs id (w_log w) ≠ [] ∧ ∃ ok v, cl_caller c = Returned ok v;
}.

Lemma ids_perm vs vs' ags ags' : vs ≡ₚ vs' → ags ≡ₚ ags' → ids vs ags ≡ₚ ids vs' ags'.
Proof. intros Hv Ha. unfold ids. by rewrite Hv, Ha. Qed.

Lemma gos_perm w els vs vs' ags ags' V A : vs ≡ₚ vs' → ags ≡ₚ ags' → gos w els vs ags V A → gos w els vs' ags' V A.
Proof.
  intros Hv Ha [Hgv Hga Hv1 Ha1 Hnd Hc]. pose proof (ids_perm _ _ _ _ Hv Ha) as Hp. split.
  - by rewrite Hgv, Hv.
  - by rewrite Hga, Ha.
  - intros g Hg. apply Hv1. by rewrite Hv.
  - intros g id Hg. apply Ha1. by rewrite Ha.
  - by rewrite <- Hp.
  - intros id c Hid. rewrite <- Hp. by eapply Hc.
Qed.

(** The elections keep their peer and their arguments. *)
Definition same_els (els els' : list election) : Prop := ∀ k el, els !! k = Some el →
  ∃ el', els' !! k = Some el' ∧ el_server el' = el_server el ∧ el_args el' = el_args el.

Lemma same_els_insert els k el el' : els !! k = Some el → el_server el' = el_server el → el_args el' = el_args el →
  same_els els (<[k := el']> els).
Proof.
  intros Hk Hs Ha j e Hj. destruct (decide (j = k)) as [->|Hne].
  - exists el'. rewrite list_lookup_insert_eq by (by eapply lookup_lt_Some). by simplify_eq.
  - exists e. by rewrite list_lookup_insert_ne.
Qed.

Lemma gos_els w els els' vs ags V A : same_els els els' → gos w els vs ags V A → gos w els' vs ags V A.
Proof.
  intros Hels [Hgv Hga Hv1 Ha1 Hnd Hc]. split; try done. intros g Hg.
  destruct (Hv1 g Hg) as (el & Hel & Hs). destruct (Hels _ _ Hel) as (el' & Hel' & Hes & Hea).
  exists el'. rewrite Hes, Hea. done.
Qed.

Lemma gos_world w w' els vs ags V A : w_calls w' = w_calls w → w_log w' = w_log w →
  gos w els vs ags V A → gos w' els vs ags V A.
Proof.
  intros Hca Hl [Hgv Hga Hv1 Ha1 Hnd Hc]. split; unfold sent in *; by rewrite ?Hl, ?Hca.
Qed.

(** ** Pending RPCs of the cluster *)

Lemma eq_Permutation {T} (l k : list T) : l = k → l ≡ₚ k.
Proof. by intros ->. Qed.

Lemma perm_split {T} (l k : list T) x : l ≡ₚ x :: k → ∃ l1 l2, l = l1 ++ x :: l2 ∧ l1 ++ l2 ≡ₚ k.
Proof.
  intros Hp. assert (x ∈ l) as (l1 & l2 & ->)%list_elem_of_split by (rewrite Hp; left).
  exists l1, l2. split; [done|]. apply (Permutation_cons_inv (a := x)). by rewrite <- Hp, Permutation_middle.
Qed.

Lemma NoDup_drop_vote g vs ags : NoDup (ids (g :: vs) ags) → NoDup (ids vs ags).
Proof.
  unfold ids. simpl. destruct (vg_call g); [|done]. simpl. by intros [_ ?]%NoDup_cons.
Qed.

Lemma ids_drop_vote g vs ags id : id ∈ ids (g :: vs) ags → vg_call g = Some id ∨ id ∈ ids vs ags.
Proof.
  unfold ids. simpl. destruct (vg_call g) as [j|]; [|by right]. simpl. rewrite elem_of_cons. naive_solver.
Qed.

Lemma ids_vote g vs ags : ids (g :: vs) ags = match vg_call g with Some id => [id] | None => [] end ++ ids vs ags.
Proof. unfold ids. simpl. by destruct (vg_call g). Qed.

Lemma ids_append_perm g vs ags : ids vs (g :: ags) ≡ₚ match ag_call g with Some id => [id] | None => [] end ++ ids vs ags.
Proof.
  unfold ids. simpl. destruct (ag_call g) as [j|]; [|done]. simpl. by rewrite <- Permutation_middle.
Qed.

(** The goroutine has got its reply. *)
Lemma gos_vote_done w els g id c ok v vs ags V A : gos w els (g :: vs) ags V A → vg_call g = Some id →
  w_calls w !! id = Some c → cl_caller c = Returned ok v → execs id (w_log w) ≠ [] → ∃ l1 l2, V = l1 ++ vtoken (w_log w) g :: l2 ∧ gos w els vs ags (l1 ++ l2) A.
Proof.
  intros [Hgv Hga Hv1 Ha1 Hnd Hc] Hid Hw Hret Hx. rewrite fmap_cons in Hgv. apply perm_split in Hgv as (l1 & l2 & -> & Hp).
  exists l1, l2. split; [done|]. split; try done.
  - intros g' Hg'. apply Hv1. by right.
  - by eapply NoDup_drop_vote.
  - intros j cj Hj. destruct (Hc j cj Hj) as [Hj'|]; [|by right].
    destruct (ids_drop_vote _ _ _ _ Hj') as [Heq|]; [|by left]. rewrite Hid in Heq. simplify_eq. right. eauto.
Qed.

Lemma gos_append_done w els g id c ok v vs ags V A : gos w els vs (g :: ags) V A → ag_call g = Some id →
  w_calls w !! id = Some c → cl_caller c = Returned ok v → execs id (w_log w) ≠ [] → ∃ l1 l2, A = l1 ++ atoken (w_log w) g :: l2 ∧ gos w els vs ags V (l1 ++ l2).
Proof.
  intros [Hgv Hga Hv1 Ha1 Hnd Hc] Hid Hw Hret Hx. rewrite fmap_cons in Hga. apply perm_split in Hga as (l1 & l2 & -> & Hp).
  exists l1, l2. split; [done|]. pose proof (ids_append_perm g vs ags) as Hi. rewrite Hid in Hi. simpl in Hi. split; try done.
  - intros g' j Hg'. apply Ha1. by right.
  - rewrite Hi in Hnd. by apply NoDup_cons in Hnd as [_ ?].
  - intros j cj Hj. destruct (Hc j cj Hj) as [Hj'|]; [|by right]. rewrite Hi, elem_of_cons in Hj'.
    destruct Hj' as [->|]; [|by left]. simplify_eq. right. eauto.
Qed.

(** New goroutines. *)
Lemma gos_new_votes w els vs gs ags V A : gos w els vs ags V A →
  (∀ g, g ∈ gs → vg_call g = None ∧ is_Some (els !! vg_eid g)) →
  gos w els (vs ++ gs) ags (V ++ ((λ g, VReq (vg_eid g) (vg_dst g)) <$> gs)) A.
Proof.
  intros [Hgv Hga Hv1 Ha1 Hnd Hc] Hgs.
  assert (vtoken (w_log w) <$> gs = (λ g, VReq (vg_eid g) (vg_dst g)) <$> gs) as Htok.
  { apply list_fmap_ext. intros i g Hg%list_elem_of_lookup_2. unfold vtoken, vote_reply. by rewrite (proj1 (Hgs g Hg)). }
  assert (ids (vs ++ gs) ags = ids vs ags) as Hids.
  { unfold ids. rewrite omap_app. assert (omap vg_call gs = []) as ->; [|by rewrite app_nil_r].
    clear -Hgs. induction gs as [|g gs IH]; [done|]. simpl. rewrite (proj1 (Hgs g ltac:(left))).
    apply IH. intros g' Hg'. apply Hgs. by right. }
  split; rewrite ?Hids; try done.
  - by rewrite fmap_app, Htok, Hgv.
  - intros g [Hg|Hg]%elem_of_app; [by apply Hv1|]. destruct (Hgs g Hg) as [Hn [el Hel]].
    exists el. split; [done|]. intros id Hid. congruence.
Qed.

Lemma gos_new_appends w els vs ags gs V A : gos w els vs ags V A →
  (∀ g, g ∈ gs → ag_call g = None) →
  gos w els vs (ags ++ gs) V (A ++ ((λ g, AReq (ag_src g) (ag_dst g) (ag_args g)) <$> gs)).
Proof.
  intros [Hgv Hga Hv1 Ha1 Hnd Hc] Hgs.
  assert (atoken (w_log w) <$> gs = (λ g, AReq (ag_src g) (ag_dst g) (ag_args g)) <$> gs) as Htok.
  { apply list_fmap_ext. intros i g Hg%list_elem_of_lookup_2. unfold atoken, append_reply. by rewrite (Hgs g Hg). }
  assert (ids vs (ags ++ gs) = ids vs ags) as Hids.
  { unfold ids. rewrite omap_app. assert (omap ag_call gs = []) as ->; [|by rewrite app_nil_r].
    clear -Hgs. induction gs as [|g gs IH]; [done|]. simpl. rewrite (Hgs g ltac:(left)).
    apply IH. intros g' Hg'. apply Hgs. by right. }
  split; rewrite ?Hids; try done.
  - by rewrite fmap_app, Htok, Hga.
  - intros g id [Hg|Hg]%elem_of_app; [by apply Ha1|]. rewrite (Hgs g Hg). done.
Qed.

(** ** Calls *)

Lemma elem_ids vs ags id : id ∈ ids vs ags ↔ (∃ g, g ∈ vs ∧ vg_call g = Some id) ∨ ∃ g, g ∈ ags ∧ ag_call g = Some id.
Proof. clear. unfold ids. rewrite elem_of_app, !list_elem_of_omap. naive_solver. Qed.

Lemma gos_id_call w els vs ags V A id : gos w els vs ags V A → id ∈ ids vs ags → is_Some (w_calls w !! id).
Proof.
  intros Hg [(g & Hgv & Hid)|(g & Hga & Hid)]%elem_ids.
  - destruct (go_vote _ _ _ _ _ _ Hg g Hgv) as (el & _ & Hs). destruct (Hs id Hid) as (c & nm & Hc & _). by eexists.
  - destruct (go_append _ _ _ _ _ _ Hg g id Hga Hid) as (c & nm & Hc & _). by eexists.
Qed.

(** What keeps the call keeps what is known of it. *)
Lemma sent_keep w w' i j meth args rv ok id : sent w i j meth args rv ok id →
  (∀ c, w_calls w !! id = Some c → ∃ c', w_calls w' !! id = Some c' ∧ same_call c c') →
  (∀ x, x ∈ execs id (w_log w') → x ∈ execs id (w_log w) ∨ ok (ex_reply x)) →
  sent w' i j meth args rv ok id.
Proof.
  intros (c & nm & Hc & HE & He & Hm & Ha & Hr & Hx) Hk Hl. destruct (Hk c Hc) as (c' & Hc' & Hq & Ha' & Hr' & _).
  exists c', nm. rewrite Hq, Ha', Hr'. split_and!; try done. intros x Hx'. destruct (Hl x Hx'); [by apply Hx|done].
Qed.

Lemma sent_new w i j meth args rv ok id nm c : winv w → w_calls w !! id = None → E i j = Some nm →
  Call (MkClientEnd (NStr nm)) ("Raft." +:+ meth) args rv = Done c →
  sent (with_call w id c) i j meth args rv ok id.
Proof.
  intros Hw Hid HE Hc. unfold Call in Hc. destruct (encode args) as [b []]; [|done]. apply Done_inj in Hc as <-.
  eexists _, nm. simpl. rewrite lookup_insert_eq. split_and!; try done.
  specialize (Hw id). rewrite Hid in Hw. rewrite Hw. by intros x ?%not_elem_of_nil.
Qed.

(** The call is new to all goroutines. *)
Lemma gos_with_call w els vs ags V A id c : gos w els vs ags V A → w_calls w !! id = None → 
  (∀ g, g ∈ vs → ∃ el, els !! vg_eid g = Some el ∧ ∀ j, vg_call g = Some j →
    sent (with_call w id c) (el_server el) (vg_dst g) "RequestVote" (VRequestVoteArgs (el_args el)) no_vote is_vote j) ∧
  (∀ g j, g ∈ ags → ag_call g = Some j →
    sent (with_call w id c) (ag_src g) (ag_dst g) "AppendEntries" (VAppendEntriesArgs (ag_args g)) no_append is_append j) ∧
  id ∉ ids vs ags.
Proof.
  intros Hg Hid. assert (∀ j c0, w_calls w !! j = Some c0 → ∃ c', w_calls (with_call w id c) !! j = Some c' ∧ same_call c0 c') as Hk.
  { intros j c0 Hj. exists c0. simpl. rewrite lookup_insert_ne by congruence. done. }
  split_and!.
  - intros g Hgv. destruct (go_vote _ _ _ _ _ _ Hg g Hgv) as (el & Hel & Hs). exists el. split; [done|].
    intros j Hj. eapply sent_keep; [by apply Hs|by apply Hk|by left].
  - intros g j Hga Hj. eapply sent_keep; [by eapply (go_append _ _ _ _ _ _ Hg)|by apply Hk|by left].
  - intros Hin. destruct (gos_id_call _ _ _ _ _ _ _ Hg Hin). congruence.
Qed.

Lemma gos_call_vote w els g vs ags V A id el nm c : winv w → gos w els (g :: vs) ags V A → vg_call g = None →
  w_calls w !! id = None → els !! vg_eid g = Some el → E (el_server el) (vg_dst g) = Some nm →
  Call (MkClientEnd (NStr nm)) "Raft.RequestVote" (VRequestVoteArgs (el_args el)) no_vote = Done c →
  gos (with_call w id c) els (MkVoteGo (vg_eid g) (vg_dst g) (Some id) :: vs) ags V A.
Proof.
  intros Hw Hg Hno Hid Hel HE Hc. destruct (gos_with_call _ _ _ _ _ _ _ c Hg Hid) as (Hv & Ha & Hnew).
  pose proof (Hw id) as Hx. rewrite Hid in Hx.
  assert (ids (g :: vs) ags = ids vs ags) as Hids by (unfold ids; simpl; by rewrite Hno).
  rewrite Hids in Hnew. split; simpl.
  - rewrite (go_votes _ _ _ _ _ _ Hg), !fmap_cons. unfold vtoken, vote_reply at 1 3. rewrite Hno. simpl. by rewrite Hx.
  - apply (go_appends _ _ _ _ _ _ Hg).
  - intros g' [->|Hg']%elem_of_cons; [|apply Hv; by right]. exists el. split; [done|]. simpl.
    intros j [= <-]. by eapply (sent_new _ _ _ "RequestVote").
  - done.
  - change (NoDup (id :: ids vs ags)). apply NoDup_cons. split; [done|]. rewrite <- Hids. apply (go_nodup _ _ _ _ _ _ Hg).
  - intros j c'. change (ids _ ags) with (id :: ids vs ags). rewrite lookup_insert_Some, elem_of_cons.
    intros [[<- _]|[Hne Hj]]; [by left; left|]. destruct (go_calls _ _ _ _ _ _ Hg j c' Hj) as [Hin|]; [|by right].
    left. right. by rewrite <- Hids.
Qed.

Lemma gos_call_append w els g vs ags V A id nm c : winv w → gos w els vs (g :: ags) V A → ag_call g = None →
  w_calls w !! id = None → E (ag_src g) (ag_dst g) = Some nm →
  Call (MkClientEnd (NStr nm)) "Raft.AppendEntries" (VAppendEntriesArgs (ag_args g)) no_append = Done c →
  gos (with_call w id c) els vs (MkAppendGo (ag_src g) (ag_dst g) (ag_args g) (Some id) :: ags) V A.
Proof.
  intros Hw Hg Hno Hid HE Hc. destruct (gos_with_call _ _ _ _ _ _ _ c Hg Hid) as (Hv & Ha & Hnew).
  pose proof (Hw id) as Hx. rewrite Hid in Hx. set (g' := MkAppendGo _ _ _ (Some id)).
  assert (ids vs (g :: ags) = ids vs ags) as Hids by (unfold ids; simpl; by rewrite Hno).
  pose proof (ids_append_perm g' vs ags) as Hp. simpl in Hp.
  rewrite Hids in Hnew. split; simpl.
  - apply (go_votes _ _ _ _ _ _ Hg).
  - rewrite (go_appends _ _ _ _ _ _ Hg), !fmap_cons. unfold atoken, append_reply at 1 3. rewrite Hno. simpl. by rewrite Hx.
  - done.
  - intros g1 j [->|Hg1]%elem_of_cons; [|apply Ha; by right]. simpl.
    intros [= <-]. by eapply (sent_new _ _ _ "AppendEntries").
  - rewrite Hp. apply NoDup_cons. split; [done|]. rewrite <- Hids. apply (go_nodup _ _ _ _ _ _ Hg).
  - intros j c'. rewrite Hp, lookup_insert_Some, elem_of_cons.
    intros [[<- _]|[Hne Hj]]; [by left; left|]. destruct (go_calls _ _ _ _ _ _ Hg j c' Hj) as [Hin|]; [|by right].
    left. right. by rewrite <- Hids.
Qed.

(** ** Goroutines of the network *)

(** An action that runs no handler. *)
Lemma gos_act w a w' els vs ags V A : act w a = Some (Done w') → of_network a = true → w_log w' = w_log w →
  gos w els vs ags V A → gos w' els vs ags V A.
Proof.
  intros Ha Hq Hl Hg. split; rewrite ?Hl.
  - apply Hg.
  - apply Hg.
  - intros g Hgv. destruct (go_vote _ _ _ _ _ _ Hg g Hgv) as (el & Hel & Hs). exists el. split; [done|].
    intros j Hj. eapply sent_keep; [by apply Hs|intros c; by eapply call_keeps|rewrite Hl; by left].
  - intros g j Hga Hj.
    eapply sent_keep; [by eapply (go_append _ _ _ _ _ _ Hg)|intros c; by eapply call_keeps|rewrite Hl; by left].
  - apply Hg.
  - intros j c' Hc'.
    destruct (act_call _ _ _ _ _ Ha Hc') as [[Hc _]|[(c & Hc & _ & Hst)|(_ & e & m & args & rv & -> & _)]]; [..|done].
    + by apply (go_calls _ _ _ _ _ _ Hg j c').
    + destruct (go_calls _ _ _ _ _ _ Hg j c Hc) as [|(Hx & ok & v & Hr)]; [by left|right].
      split; [done|]. exists ok, v. by apply (cstep_keeps _ _ _ Hst).
Qed.

Lemma vtoken_other log x g : vg_call g ≠ Some (ex_call x) → vtoken (log ++ [x]) g = vtoken log g.
Proof.
  intros Hne. unfold vtoken, vote_reply. destruct (vg_call g) as [id|]; [|done]. simpl. destruct x as [k u r].
  simpl in Hne. by rewrite execs_snoc_ne by congruence.
Qed.

Lemma atoken_other log x g : ag_call g ≠ Some (ex_call x) → atoken (log ++ [x]) g = atoken log g.
Proof.
  intros Hne. unfold atoken, append_reply. destruct (ag_call g) as [id|]; [|done]. simpl. destruct x as [k u r].
  simpl in Hne. by rewrite execs_snoc_ne by congruence.
Qed.

(** The execution of call [id], which is that of [id] only. *)
Lemma gos_logged w σ id c c' u r els vs ags V A : gos w els vs ags V A → w_calls w !! id = Some c → same_call c c' →
  execs id (w_log w) = [] → let w' := with_call (with_app w σ (MkExecution id u r)) id c' in
  (∀ g, g ∈ vs → ∃ el, els !! vg_eid g = Some el ∧ ∀ j, vg_call g = Some j → (j = id → is_vote r) →
    sent w' (el_server el) (vg_dst g) "RequestVote" (VRequestVoteArgs (el_args el)) no_vote is_vote j) ∧
  (∀ g j, g ∈ ags → ag_call g = Some j → (j = id → is_append r) →
    sent w' (ag_src g) (ag_dst g) "AppendEntries" (VAppendEntriesArgs (ag_args g)) no_append is_append j) ∧
  ∀ j c0, w_calls w' !! j = Some c0 → j ∈ ids vs ags ∨ execs j (w_log w') ≠ [] ∧ ∃ ok v, cl_caller c0 = Returned ok v.
Proof.
  intros Hg Hc Hsc Hx0 w'.
  assert (∀ j c0, w_calls w !! j = Some c0 → ∃ c1, w_calls w' !! j = Some c1 ∧ same_call c0 c1) as Hk.
  { intros j c0 Hj. simpl. destruct (decide (j = id)) as [->|Hne].
    - exists c'. rewrite lookup_insert_eq. rewrite Hc in Hj. by simplify_eq.
    - exists c0. by rewrite lookup_insert_ne. }
  assert (∀ j (ok : value Cmd → Prop), (j = id → ok r) → ∀ x, x ∈ execs j (w_log w') → x ∈ execs j (w_log w) ∨ ok (ex_reply x)) as Hlog.
  { intros j ok Hok x Hx. simpl in Hx. destruct (decide (id = j)) as [->|Hne].
    - rewrite execs_snoc in Hx. apply elem_of_app in Hx as [| ->%list_elem_of_singleton]; [by left|]. right. by apply Hok.
    - rewrite execs_snoc_ne in Hx by done. by left. }
  split_and!.
  - intros g Hgv. destruct (go_vote _ _ _ _ _ _ Hg g Hgv) as (el & Hel & Hs). exists el. split; [done|].
    intros j Hj Hok. eapply sent_keep; [by apply Hs|by apply Hk|by apply Hlog].
  - intros g j Hga Hj Hok. eapply sent_keep; [by eapply (go_append _ _ _ _ _ _ Hg)|by apply Hk|by apply Hlog].
  - intros j c0. simpl. rewrite lookup_insert_Some. intros [[<- _]|[Hne Hj]].
    + left. by destruct (go_calls _ _ _ _ _ _ Hg id c Hc) as [|[? _]].
    + destruct (go_calls _ _ _ _ _ _ Hg j c0 Hj) as [|Hxj]; [by left|right]. by rewrite execs_snoc_ne.
Qed.

(** The handler of a vote request runs. *)
Lemma gos_exec_vote w σ id c c' u r g els vs ags V A : gos w els vs ags V A → w_calls w !! id = Some c →
  same_call c c' → execs id (w_log w) = [] → g ∈ vs → vg_call g = Some id →
  ∃ l1 l2, V = l1 ++ VReq (vg_eid g) (vg_dst g) :: l2 ∧
    gos (with_call (with_app w σ (MkExecution id u (VRequestVoteReply r))) id c') els vs ags
      (l1 ++ VRep (vg_eid g) (vg_dst g) r :: l2) A.
Proof.
  intros Hg Hc Hsc Hx Hgv Hid.
  destruct (gos_logged _ σ _ _ _ u (VRequestVoteReply r) _ _ _ _ _ Hg Hc Hsc Hx) as (Hv & Ha & Hcs).
  apply elem_of_Permutation in Hgv as [vs' Hvs]. pose proof (go_nodup _ _ _ _ _ _ Hg) as Hnd.
  rewrite (ids_perm _ _ _ _ Hvs (reflexivity ags)), ids_vote, Hid in Hnd.
  apply NoDup_cons in Hnd as [Hnew _]. rewrite elem_ids in Hnew.
  pose proof (go_votes _ _ _ _ _ _ Hg) as Hp. rewrite Hvs, fmap_cons in Hp.
  apply perm_split in Hp as (l1 & l2 & HV & Hp). exists l1, l2.
  assert (vtoken (w_log w) g = VReq (vg_eid g) (vg_dst g)) as Htok.
  { unfold vtoken, vote_reply. rewrite Hid. simpl. by rewrite Hx. }
  rewrite Htok in HV. split; [done|]. split.
  - rewrite Hvs, fmap_cons, <- Permutation_middle, Hp. unfold vtoken at 2, vote_reply. rewrite Hid. simpl.
    rewrite execs_snoc, Hx. simpl. f_equiv. apply eq_Permutation, list_fmap_ext.
    intros i g' Hg'%list_elem_of_lookup_2. symmetry. apply vtoken_other. simpl. intros Heq. apply Hnew. left. by exists g'.
  - rewrite (go_appends _ _ _ _ _ _ Hg). apply eq_Permutation, list_fmap_ext.
    intros i g' Hg'%list_elem_of_lookup_2. symmetry. apply atoken_other. simpl. intros Heq. apply Hnew. right. by exists g'.
  - intros g' Hg'. destruct (Hv g' Hg') as (el & Hel & Hs). exists el. split; [done|]. intros j Hj. apply Hs; [done|].
    intros _. by exists r.
  - intros g' j Hg' Hj. apply (Ha g' j Hg' Hj). intros ->. exfalso. apply Hnew. right. by exists g'.
  - apply Hg.
  - done.
Qed.

(** The handler of an append request runs. *)
Lemma gos_exec_append w σ id c c' u r g els vs ags V A : gos w els vs ags V A → w_calls w !! id = Some c →
  same_call c c' → execs id (w_log w) = [] → g ∈ ags → ag_call g = Some id →
  ∃ l1 l2, A = l1 ++ AReq (ag_src g) (ag_dst g) (ag_args g) :: l2 ∧
    gos (with_call (with_app w σ (MkExecution id u (VAppendEntriesReply r))) id c') els vs ags V
      (l1 ++ ARep (ag_src g) (ag_dst g) (ag_args g) r :: l2).
Proof.
  intros Hg Hc Hsc Hx Hga Hid.
  destruct (gos_logged _ σ _ _ _ u (VAppendEntriesReply r) _ _ _ _ _ Hg Hc Hsc Hx) as (Hv & Ha & Hcs).
  apply elem_of_Permutation in Hga as [ags' Hags]. pose proof (go_nodup _ _ _ _ _ _ Hg) as Hnd.
  rewrite (ids_perm _ _ _ _ (reflexivity vs) Hags), ids_append_perm, Hid in Hnd.
  apply NoDup_cons in Hnd as [Hnew _]. rewrite elem_ids in Hnew.
  pose proof (go_appends _ _ _ _ _ _ Hg) as Hp. rewrite Hags, fmap_cons in Hp.
  apply perm_split in Hp as (l1 & l2 & HA & Hp). exists l1, l2.
  assert (atoken (w_log w) g = AReq (ag_src g) (ag_dst g) (ag_args g)) as Htok.
  { unfold atoken, append_reply. rewrite Hid. simpl. by rewrite Hx. }
  rewrite Htok in HA. split; [done|]. split.
  - rewrite (go_votes _ _ _ _ _ _ Hg). apply eq_Permutation, list_fmap_ext.
    intros i g' Hg'%list_elem_of_lookup_2. symmetry. apply vtoken_other. simpl. intros Heq. apply Hnew. left. by exists g'.
  - rewrite Hags, fmap_cons, <- Permutation_middle, Hp. unfold atoken at 2, append_reply. rewrite Hid. simpl.
    rewrite execs_snoc, Hx. simpl. f_equiv. apply eq_Permutation, list_fmap_ext.
    intros i g' Hg'%list_elem_of_lookup_2. symmetry. apply atoken_other. simpl. intros Heq. apply Hnew. right. by exists g'.
  - intros g' Hg'. destruct (Hv g' Hg') as (el & Hel & Hs). exists el. split; [done|]. intros j Hj. apply Hs; [done|].
    intros ->. exfalso. apply Hnew. left. by exists g'.
  - intros g' j Hg' Hj. apply (Ha g' j Hg' Hj). intros _. by exists r.
  - apply Hg.
  - done.
Qed.
End refine.
End raftnetrefine.
