(* ===== verification/RaftNetSim.v ===== *)
(** * Raft peers on the network: the simulation

    One lemma per event of RaftNet.v: the cluster of RaftCluster.v makes the same
    step, or none when the event only concerns the network, the harness or a local
    of a goroutine. *)

From S2P Require Import Prelude Persister Raft RaftFacts RaftCluster RaftClean LabRpc LabRpcFacts LabRpcClient Harness HarnessFacts.
From S2P Require Import RaftConfig RaftConfigFacts RaftNet RaftNetFacts RaftNetRefine.
Open Scope Z_scope.

Module raftnetsim.
Import labrpc rpcproof rpcclient raftcfg cluster raft_clean raftnet raftnetproof raftnetrefine.

Section sim.
Context {Cmd : Type} `{EqDecision Cmd} `{Codec (value Cmd)} `{!RaftCodec Cmd}.
Context (E : nat → nat → option string) (srvs P : list nat) (HP : NoDup P).
Implicit Types (s : process Cmd) (w : Harness.world Cmd) (vs : list vote_go) (ags : list (@append_go Cmd)).
Implicit Types (σ : cluster Cmd).
Notation rinv := (rinv E srvs P).
Notation nodes_ok := (nodes_ok P).
Notation gos := (gos E).

(** [gv] and [ga] are the goroutines whose call returned false. *)
Record sim s σ gv ga : Prop := {
  sim_rinv : rinv s;
  sim_nodes : nodes_ok (heap s) (nodes σ);
  sim_els : np_elections s = elections σ;
  sim_gos : gos (world s) (np_elections s) (np_votes s ++ gv) (np_appends s ++ ga) (votes σ) (appends σ);
}.

(** The event does not run AppendEntries on entries that the peer already has. *)
Definition clean_event s (ev : event Cmd) : bool :=
  match ev with
  | RNet a =>
      match act (world s) a with
      | Some (Done w) =>
          match drop (length (w_log (world s))) (w_log w) with
          | [x] =>
              match ex_args x, w_calls (world s) !! ex_call x with
              | VAppendEntriesArgs args, Some c =>
                  match rn_connections (w_net (world s)) !! rq_endname (cl_req c) with
                  | Some (Some (NInt j)) =>
                      match peer s (Z.to_nat j) with Some (_, rf, _) => clean_call rf args | None => true end
                  | _ => true
                  end
              | _, _ => true
              end
          | _ => true
          end
      | _ => true
      end
  | _ => true
  end.

(** The cluster makes the step, which is clean if the event is. *)
Definition follows (clean : bool) s' σ (l : label Cmd) : Prop :=
  ∃ σ' gv ga, sim s' σ' gv ga ∧ (step σ l σ' ∧ (clean = true → clean_step σ σ') ∨ σ' = σ ∧ l = LTau).

(** Goroutine [k] and the others. *)
Lemma take_out {T} (l m : list T) k x : l !! k = Some x → l ++ m ≡ₚ x :: (delete k l ++ m).
Proof. intros Hk. rewrite app_comm_cons. f_equiv. by apply delete_Permutation. Qed.

Lemma put_back {T} (l m : list T) k x y : l !! k = Some x → <[k := y]> l ++ m ≡ₚ y :: (delete k l ++ m).
Proof.
  intros Hk. pose proof (lookup_lt_Some _ _ _ Hk). rewrite app_comm_cons. f_equiv.
  by rewrite insert_take_drop, delete_take_drop, Permutation_middle by done.
Qed.

(** Assignments to memory. *)
Lemma rinv_mem s s' m : rinv s → np_peers s' = np_peers s → np_cfg s' = set_mem m (np_cfg s) → rinv s'.
Proof.
  intros Hs Hp Hc. apply (rinv_ext _ _ _ s); try done; unfold world; rewrite Hc; try done.
Qed.

(** A critical section of peer [i]. *)
Lemma sim_peer s σ gv ga i q rf ps rf' s' : sim s σ gv ga → peer s i = Some (q, rf, ps) →
  np_peers s' = np_peers s → np_cfg s' = np_cfg (set_peer s q rf' ps) →
  rinv s' ∧ nodes_ok (heap s') (<[i := rf']> (nodes σ)) ∧
  ∀ els V A vs ags, gos (world s) els vs ags V A → gos (world s') els vs ags V A.
Proof.
  intros Hs Hpe Hp Hc. pose proof (sim_rinv _ _ _ _ Hs) as Hr. destruct (peer_spec _ _ _ _ _ _ _ _ Hr Hpe) as [Hi Hq].
  split_and!.
  - apply (rinv_mem s s' (store (mem (np_cfg s)) q (ORaft rf' ps)) Hr Hp Hc).
  - unfold heap. rewrite Hc. change (nodes_ok (<[q := ORaft rf' ps]> (heap s)) (<[i := rf']> (nodes σ))).
    eapply nodes_store; [done..|apply (sim_nodes _ _ _ _ Hs)].
  - intros els V A vs ags. apply gos_world; unfold world; by rewrite Hc.
Qed.

Lemma sim_node s σ gv ga i q rf ps : sim s σ gv ga → peer s i = Some (q, rf, ps) → nodes σ !! i = Some rf.
Proof.
  intros Hs Hpe. eapply nodes_at; [apply (sim_rinv _ _ _ _ Hs)|apply (sim_nodes _ _ _ _ Hs)|done].
Qed.

(** [rf.peers[j]] of peer [i]. *)
Lemma end_from_spec s i j e : rinv s → end_from s i j = Some e → ∃ nm, e = MkClientEnd (NStr nm) ∧ E i j = Some nm.
Proof.
  intros Hs He. rewrite <- (ri_names _ _ _ _ Hs). unfold end_from in He. unfold end_of.
  destruct (mjoin _) as [names|]; [|done]. simpl in *. destruct (names !! j) as [nm|]; [|done].
  simpl in He. simplify_eq. by exists nm.
Qed.

(** A call that returned true has been executed, and its reply is the handler's. *)
Lemma returned_reply w i j meth args rv ok id c v : winv w → sent E w i j meth args rv ok id →
  w_calls w !! id = Some c → cl_caller c = Returned true v →
  (∀ r, ok r → (encode r).2 = true ∧ zero r = rv) → ok v ∧ ∃ x, execs id (w_log w) = [x] ∧ ex_reply x = v.
Proof.
  intros Hw (c' & nm & Hc' & _ & _ & _ & _ & Hrv & Hok) Hc Hca Henc. rewrite Hc in Hc'. injection Hc' as <-.
  pose proof (cinv_caller _ _ _ (winv_call _ _ _ Hw Hc)) as Hcal. unfold caller_inv in Hcal. rewrite Hca in Hcal.
  destruct (Hcal eq_refl) as (rep & (r & Hxs & ->) & Hd). rewrite Hxs in *.
  assert (ok r) as Hr by (eapply (Hok (MkExecution id _ r)); by apply list_elem_of_singleton). destruct (Henc r Hr) as [Henc1 Hz].
  simpl in Hd. rewrite Hrv, <- Hz, decode_encode in Hd by done. simplify_eq. split; [done|]. by eexists.
Qed.

(** ** Elections *)

Lemma sim_kick s σ gv ga k s' l b : sim s σ gv ga → happen s (RKick k) = Some (Done (s', l)) → follows b s' σ l.
Proof.
  intros Hs Ha. cbn [happen] in Ha. unfold kick_go in Ha. destruct (np_kicks s !! k) as [i|]; [|done]. cbn [mbind option_bind] in Ha.
  destruct (peer s i) as [[[q rf] ps]|] eqn:Hpe; [|done]. cbn [mbind option_bind] in Ha. injection Ha as Ha.
  apply bind_Done in Ha as ([rf' args] & Hk & Ha). apply Done_inj, pair_equal_spec in Ha as [<- <-].
  eexists _, gv, ga. split; [|left].
  2:{ split; [rewrite (sim_els _ _ _ _ Hs); eapply step_kick; [by eapply sim_node|done]|intros _; by apply clean_same]. }
  edestruct sim_peer as (Hr & Hn & Hg); [done|exact Hpe|..|split; [exact Hr|exact Hn|..]]; [done..| |].
  - simpl. by rewrite (sim_els _ _ _ _ Hs).
  - simpl. apply Hg. rewrite <- app_assoc.
    eapply gos_perm; [by rewrite (Permutation_app_comm _ gv), app_assoc|done|].
    rewrite <- (sim_els _ _ _ _ Hs). set (els := _ ++ [_]).
    assert (same_els (np_elections s) els) as Hels.
    { intros j el Hj. exists el. split; [|done]. unfold els. by apply lookup_app_l_Some. }
    pose proof (gos_els _ _ _ _ _ _ _ _ Hels (sim_gos _ _ _ _ Hs)) as Hg1.
    eapply (gos_new_votes _ _ _ _ ((λ j, MkVoteGo (length (np_elections s)) j None) <$> raft.vote_targets rf')) in Hg1.
    + by rewrite <- list_fmap_compose in Hg1.
    + intros g (j & -> & _)%list_elem_of_fmap. split; [done|]. simpl. unfold els.
      rewrite lookup_app_r, Nat.sub_diag by done. by eexists.
Qed.

Lemma sim_vote_call s σ gv ga k id s' l b : sim s σ gv ga → happen s (RVoteCall k id) = Some (Done (s', l)) → follows b s' σ l.
Proof.
  intros Hs Ha. cbn [happen] in Ha. unfold sendRequestVote in Ha. simpl in Ha. destruct (np_votes s !! k) as [g|] eqn:Hk; [|done]. cbn [mbind option_bind] in Ha.
  destruct (np_elections s !! vg_eid g) as [el|] eqn:Hel; [|done]. cbn [mbind option_bind] in Ha.
  destruct (end_from s (el_server el) (vg_dst g)) as [e|] eqn:He; [|done]. cbn [mbind option_bind] in Ha.
  destruct (vg_call g) eqn:Hno; [done|]. destruct (w_calls (world s) !! id) eqn:Hid; [done|].
  cbn [mbind option_bind] in Ha. injection Ha as Ha.
  apply bind_Done in Ha as (w & Hw & Ha). apply bind_Done in Hw as (c & Hc & Hw). apply Done_inj in Hw as <-.
  apply Done_inj, pair_equal_spec in Ha as [<- <-].
  destruct (end_from_spec _ _ _ _ (sim_rinv _ _ _ _ Hs) He) as (nm & -> & HE).
  exists σ, gv, ga. split; [|by right]. split.
  - eapply (rinv_act _ _ _ s (ACall id _ _ _ _) (with_call (world s) id c)); [apply Hs| |done..].
    simpl. rewrite Hid. simpl. by rewrite Hc.
  - apply (sim_nodes _ _ _ _ Hs).
  - apply (sim_els _ _ _ _ Hs).
  - simpl. eapply gos_perm; [symmetry; by apply (put_back _ _ _ g)|done|].
    eapply gos_call_vote; [apply (sim_rinv _ _ _ _ Hs)| |done..].
    eapply gos_perm; [by apply take_out|done|]. apply (sim_gos _ _ _ _ Hs).
Qed.

(** What a vote goroutine finds when its call returned true. *)
Lemma vote_returned s σ gv ga k g id c v : sim s σ gv ga → np_votes s !! k = Some g → vg_call g = Some id →
  w_calls (world s) !! id = Some c → cl_caller c = Returned true v →
  ∃ r, v = VRequestVoteReply r ∧ vtoken (w_log (world s)) g = VRep (vg_eid g) (vg_dst g) r ∧
    execs id (w_log (world s)) ≠ [].
Proof.
  intros Hs Hk Hid Hc Hca.
  destruct (go_vote _ _ _ _ _ _ _ (sim_gos _ _ _ _ Hs) g) as (el & Hel & Hsent);
    [apply elem_of_app; left; by eapply list_elem_of_lookup_2|].
  destruct (returned_reply _ _ _ _ _ _ _ _ _ _ (ri_w _ _ _ _ (sim_rinv _ _ _ _ Hs)) (Hsent id Hid) Hc Hca)
    as [[r ->] (x & Hx & Hxr)]; [intros r [rr ->]; apply rc_vote_reply|].
  exists r. split_and!; [done| |by rewrite Hx]. unfold vtoken, vote_reply. rewrite Hid. simpl. rewrite Hx. simpl. by rewrite Hxr.
Qed.

Lemma sim_vote_return s σ gv ga k s' l b : sim s σ gv ga → happen s (RVoteReturn k) = Some (Done (s', l)) → follows b s' σ l.
Proof.
  intros Hs Ha. cbn [happen] in Ha. unfold vote_go_end in Ha. destruct (np_votes s !! k) as [g|] eqn:Hk; [|done]. cbn [mbind option_bind] in Ha.
  destruct (np_elections s !! vg_eid g) as [el|] eqn:Hel; [|done]. cbn [mbind option_bind] in Ha.
  destruct (vg_call g) as [id|] eqn:Hid; [|done]. cbn [mbind option_bind] in Ha.
  destruct (w_calls (world s) !! id) as [c|] eqn:Hc; [|done]. cbn [mbind option_bind] in Ha.
  destruct (cl_caller c) as [| |ok v] eqn:Hca; [done..|].
  pose proof (gos_perm _ _ _ _ _ _ _ _ _ (take_out _ gv _ _ Hk) (reflexivity _) (sim_gos _ _ _ _ Hs)) as Hg.
  destruct ok.
  2:{ injection Ha as <- <-. exists σ, (g :: gv), ga. split; [|by right]. split; [|apply Hs..|].
      - apply (rinv_ext _ _ _ s); try done; apply Hs.
      - simpl. eapply gos_perm; [apply Permutation_middle|done|exact Hg]. }
  destruct (vote_returned _ _ _ _ _ _ _ _ _ Hs Hk Hid Hc Hca) as (r & -> & Htok & Hx).
  destruct (peer _ _) as [[[q rf] ps]|] eqn:Hpe in Ha; [|done]. cbn [mbind option_bind] in Ha.
  destruct (raft.handleRequestVote _ _ _ _) as [rf' o] eqn:Hh. injection Ha as <- <-.
  destruct (gos_vote_done _ _ _ _ _ _ _ _ _ _ _ _ Hg Hid Hc Hca Hx) as (l1 & l2 & HV & Hg').
  rewrite Htok in HV. eexists _, gv, ga. split; [|left].
  2:{ split; [eapply step_vote_reply; [done|by rewrite <- (sim_els _ _ _ _ Hs)|by eapply (sim_node s)|done]|intros _; by apply clean_same]. }
  edestruct (sim_peer s) as (Hr & Hn & Hgg); [done|exact Hpe|..|split; [exact Hr|exact Hn|..]]; [done..| |].
  - simpl. by rewrite (sim_els _ _ _ _ Hs).
  - simpl. apply Hgg. eapply gos_els; [by eapply same_els_insert|done].
Qed.

Lemma sim_collect s σ gv ga eid s' l cl : sim s σ gv ga → happen s (RCollect eid) = Some (Done (s', l)) → follows cl s' σ l.
Proof.
  intros Hs Ha. cbn [happen] in Ha. unfold collect_go in Ha. destruct (np_elections s !! eid) as [el|] eqn:Hel; [|done]. cbn [mbind option_bind] in Ha.
  destruct (peer s (el_server el)) as [[[q rf] ps]|] eqn:Hpe; [|done]. cbn [mbind option_bind] in Ha.
  destruct (el_returned el) eqn:Hret; [done|]. destruct (el_chan el) as [|b ch] eqn:Hch; [done|].
  destruct (Z.ltb_spec (Z.of_nat (el_iter el)) (Z.of_nat (peers rf) - 1)) as [Hlt|]; [|done].
  destruct (raft.collectVotes rf b (el_votes el)) as [[rf' v] ret] eqn:Hcv. injection Ha as Hs' <-.
  eexists _, gv, ga. split; [|left].
  2:{ split; [eapply step_collect; [by rewrite <- (sim_els _ _ _ _ Hs)|done|done|by eapply sim_node|done|done]|intros _; by apply clean_same]. }
  set (el' := MkElection _ _ _ _ _ _) in *.
  assert (np_peers s' = np_peers s ∧ np_cfg s' = np_cfg (set_peer s q rf' ps) ∧
    np_elections s' = <[eid := el']> (np_elections s) ∧ np_votes s' = np_votes s ∧ np_appends s' = np_appends s) as
    (Hp & Hc & He & Hv & Hap) by (rewrite <- Hs'; by destruct (_ && _)).
  destruct (sim_peer s _ gv ga _ _ _ _ rf' s' Hs Hpe Hp Hc) as (Hr & Hn & Hgg).
  split; [exact Hr|exact Hn|simpl; by rewrite He, (sim_els _ _ _ _ Hs)|].
  apply Hgg. rewrite He, Hv, Hap. eapply gos_els; [by eapply same_els_insert|apply (sim_gos _ _ _ _ Hs)].
Qed.

(** ** Heartbeats *)

Lemma sim_heart s σ gv ga k s' l b : sim s σ gv ga → happen s (RHeart k) = Some (Done (s', l)) → follows b s' σ l.
Proof.
  intros Hs Ha. cbn [happen] in Ha. unfold heart_go in Ha. destruct (np_hearts s !! k) as [i|]; [|done]. cbn [mbind option_bind] in Ha.
  destruct (peer s i) as [[[q rf] ps]|] eqn:Hpe; [|done]. cbn [mbind option_bind] in Ha. injection Ha as Ha.
  apply bind_Done in Ha as ([msgs|] & Hm & Ha); apply Done_inj, pair_equal_spec in Ha as [<- <-].
  - eexists _, gv, ga. split; [|left; split; [by eapply step_heartbeat; [eapply sim_node|]|intros _; eapply clean_longer; [|done]]].
    2:{ intros m' (m & -> & _)%list_elem_of_fmap. eauto. }
    split; [apply (rinv_ext _ _ _ s); try done; apply Hs|apply Hs..|]. simpl. rewrite <- app_assoc.
    eapply gos_perm; [done|by rewrite (Permutation_app_comm _ ga), app_assoc|].
    pose proof (sim_gos _ _ _ _ Hs) as Hg.
    eapply (gos_new_appends _ _ _ _ _ ((λ m, MkAppendGo i m.1 m.2 None) <$> msgs)) in Hg.
    + by rewrite <- list_fmap_compose in Hg.
    + by intros g (m & -> & _)%list_elem_of_fmap.
  - exists σ, gv, ga. split; [|by right]. split; [apply (rinv_ext _ _ _ s); try done; apply Hs|apply Hs..].
Qed.

Lemma sim_append_call s σ gv ga k id s' l b : sim s σ gv ga → happen s (RAppendCall k id) = Some (Done (s', l)) → follows b s' σ l.
Proof.
  intros Hs Ha. cbn [happen] in Ha. unfold sendAppendEntries in Ha. simpl in Ha. destruct (np_appends s !! k) as [g|] eqn:Hk; [|done]. cbn [mbind option_bind] in Ha.
  destruct (end_from s (ag_src g) (ag_dst g)) as [e|] eqn:He; [|done]. cbn [mbind option_bind] in Ha.
  destruct (ag_call g) eqn:Hno; [done|]. destruct (w_calls (world s) !! id) eqn:Hid; [done|].
  cbn [mbind option_bind] in Ha. injection Ha as Ha.
  apply bind_Done in Ha as (w & Hw & Ha). apply bind_Done in Hw as (c & Hc & Hw). apply Done_inj in Hw as <-.
  apply Done_inj, pair_equal_spec in Ha as [<- <-].
  destruct (end_from_spec _ _ _ _ (sim_rinv _ _ _ _ Hs) He) as (nm & -> & HE).
  exists σ, gv, ga. split; [|by right]. split.
  - eapply (rinv_act _ _ _ s (ACall id _ _ _ _) (with_call (world s) id c)); [apply Hs| |done..].
    simpl. rewrite Hid. simpl. by rewrite Hc.
  - apply (sim_nodes _ _ _ _ Hs).
  - apply (sim_els _ _ _ _ Hs).
  - simpl. eapply gos_perm; [done|symmetry; by apply (put_back _ _ _ g)|].
    eapply gos_call_append; [apply (sim_rinv _ _ _ _ Hs)| |done..].
    eapply gos_perm; [done|by apply take_out|]. apply (sim_gos _ _ _ _ Hs).
Qed.

Lemma append_returned s σ gv ga k g id c v : sim s σ gv ga → np_appends s !! k = Some g → ag_call g = Some id →
  w_calls (world s) !! id = Some c → cl_caller c = Returned true v →
  ∃ r, v = VAppendEntriesReply r ∧ atoken (w_log (world s)) g = ARep (ag_src g) (ag_dst g) (ag_args g) r ∧
    execs id (w_log (world s)) ≠ [].
Proof.
  intros Hs Hk Hid Hc Hca.
  assert (g ∈ np_appends s ++ ga) as Hin by (apply elem_of_app; left; by eapply list_elem_of_lookup_2).
  pose proof (go_append _ _ _ _ _ _ _ (sim_gos _ _ _ _ Hs) g id Hin Hid) as Hsent.
  destruct (returned_reply _ _ _ _ _ _ _ _ _ _ (ri_w _ _ _ _ (sim_rinv _ _ _ _ Hs)) Hsent Hc Hca)
    as [[r ->] (x & Hx & Hxr)]; [intros r [rr ->]; apply rc_append_reply|].
  exists r. split_and!; [done| |by rewrite Hx]. unfold atoken, append_reply. rewrite Hid. simpl. rewrite Hx. simpl. by rewrite Hxr.
Qed.

Lemma sim_append_return s σ gv ga k s' l b : sim s σ gv ga → happen s (RAppendReturn k) = Some (Done (s', l)) → follows b s' σ l.
Proof.
  intros Hs Ha. cbn [happen] in Ha. unfold append_go_end in Ha. destruct (np_appends s !! k) as [g|] eqn:Hk; [|done]. cbn [mbind option_bind] in Ha.
  destruct (ag_call g) as [id|] eqn:Hid; [|done]. cbn [mbind option_bind] in Ha.
  destruct (w_calls (world s) !! id) as [c|] eqn:Hc; [|done]. cbn [mbind option_bind] in Ha.
  destruct (cl_caller c) as [| |ok v] eqn:Hca; [done..|].
  pose proof (gos_perm _ _ _ _ _ _ _ _ _ (reflexivity _) (take_out _ ga _ _ Hk) (sim_gos _ _ _ _ Hs)) as Hg.
  destruct ok.
  2:{ injection Ha as <- <-. exists σ, gv, (g :: ga). split; [|by right]. split; [|apply Hs..|].
      - apply (rinv_ext _ _ _ s); try done; apply Hs.
      - simpl. eapply gos_perm; [done|apply Permutation_middle|exact Hg]. }
  destruct (append_returned _ _ _ _ _ _ _ _ _ Hs Hk Hid Hc Hca) as (r & -> & Htok & Hx).
  destruct (peer _ _) as [[[q rf] ps]|] eqn:Hpe in Ha; [|done]. cbn [mbind option_bind] in Ha. injection Ha as Ha.
  apply bind_Done in Ha as (rf' & Hh & Ha). apply Done_inj, pair_equal_spec in Ha as [<- <-].
  destruct (gos_append_done _ _ _ _ _ _ _ _ _ _ _ _ Hg Hid Hc Hca Hx) as (l1 & l2 & HA & Hg').
  rewrite Htok in HA. eexists _, gv, ga. split; [|left].
  2:{ split; [eapply step_append_reply; [done|by eapply (sim_node s)|done]|intros _; by eapply clean_shorter]. }
  edestruct (sim_peer s) as (Hr & Hn & Hgg); [done|exact Hpe|..|split; [exact Hr|exact Hn|..]]; [done..| |].
  - apply Hs.
  - simpl. by apply Hgg.
Qed.

(** ** The service and the harness *)

Lemma sim_apply s σ gv ga i s' l b : sim s σ gv ga → happen s (RApply i) = Some (Done (s', l)) → follows b s' σ l.
Proof.
  intros Hs Ha. cbn [happen] in Ha. unfold apply_go in Ha. destruct (peer s i) as [[[q rf] ps]|] eqn:Hpe; [|done]. cbn [mbind option_bind] in Ha.
  destruct (condApply rf) eqn:Hca; [done|]. injection Ha as Ha.
  apply bind_Done in Ha as ([rf' msgs] & Hm & Ha). apply Done_inj, pair_equal_spec in Ha as [<- <-].
  eexists _, gv, ga. split; [|left; split; [by eapply step_apply; [eapply sim_node|..]|intros _; by apply clean_same]].
  edestruct (sim_peer s) as (Hr & Hn & Hgg); [done|exact Hpe|..|split; [exact Hr|exact Hn|..]]; [done..|apply Hs|].
  apply Hgg, Hs.
Qed.

Lemma sim_start s σ gv ga i cmd s' l b : sim s σ gv ga → happen s (RStart i cmd) = Some (Done (s', l)) → follows b s' σ l.
Proof.
  intros Hs Ha. cbn [happen] in Ha. unfold start_go in Ha. destruct (peer s i) as [[[q rf] ps]|] eqn:Hpe; [|done]. cbn [mbind option_bind] in Ha.
  injection Ha as <- <-. eexists _, gv, ga. split; [|left; split; [by eapply step_start, sim_node|intros _; by apply clean_same]].
  edestruct (sim_peer s) as (Hr & Hn & Hgg); [done|exact Hpe|..|split; [exact Hr|exact Hn|..]]; [done..|apply Hs|].
  apply Hgg, Hs.
Qed.

(** The harness changed the network only. *)
Lemma sim_cfg s σ gv ga c b : sim s σ gv ga → rinv (with_cfg s c) → mem c = mem (np_cfg s) →
  w_calls (cf_w c) = w_calls (world s) → w_log (cf_w c) = w_log (world s) → follows b (with_cfg s c) σ LTau.
Proof.
  intros Hs Hr Hm Hca Hl. exists σ, gv, ga. split; [|by right]. split; [done|unfold heap; simpl; rewrite Hm; apply Hs|apply Hs|].
  simpl. eapply gos_world; [done..|apply Hs].
Qed.

Lemma sim_crash s σ gv ga i c b : sim s σ gv ga → crash1 i (np_cfg s) = Done c → follows b (with_cfg s c) σ LTau.
Proof.
  intros Hs Hc. destruct (crash_rinv _ _ _ _ _ _ (sim_rinv _ _ _ _ Hs) Hc) as (Hr & Hca & Hl & o & Hk & Ho).
  destruct (sim_nodes _ _ _ _ Hs) as [Hlen Hn].
  assert (∀ els V A vs ags, gos (world s) els vs ags V A → gos (world (with_cfg s c)) els vs ags V A) as Hg.
  { intros els V A vs ags. by apply gos_world. }
  destruct o as [q|].
  - destruct (Ho q eq_refl) as (Hi & rf & a & Hq). destruct (Hn _ _ Hi) as (rf' & ps & Hq' & Hrf).
    rewrite Hq in Hq'. simplify_eq. eexists _, gv, ga. split; [|left; split; [by eapply step_kill|intros _; by apply clean_same]].
    split; [done| |apply Hs|apply Hg, Hs]. split; [simpl; by rewrite length_insert|]. intros j q' Hj.
    destruct (decide (j = Z.to_nat i)) as [->|Hne].
    + rewrite Hi in Hj. simplify_eq. eexists _, _. split; [by eapply (proj2 (Hk q'))|].
      simpl. apply list_lookup_insert_eq. by eapply lookup_lt_Some.
    + destruct (Hn j q' Hj) as (rf1 & ps1 & Hq1 & Hrf1). exists rf1, ps1. simpl. rewrite list_lookup_insert_ne by done.
      split; [|done]. unfold heap. simpl. rewrite (proj1 (Hk q')); [done| |by eapply lookup_lt_Some].
      intros [= ->]. apply Hne. by eapply NoDup_lookup.
  - exists σ, gv, ga. split; [|by right]. split; [done| |apply Hs|apply Hg, Hs].
    eapply nodes_same; [|apply (sim_nodes _ _ _ _ Hs)]. intros j q rf ps Hj Hq. unfold heap. simpl.
    rewrite (proj1 (Hk q)); [done|done|by eapply lookup_lt_Some].
Qed.

(** ** The network *)

(** What the label of an execution is. *)
Lemma net_label_exec w w' id c u r : w_calls w !! id = Some c → w_log w' = w_log w ++ [MkExecution id u r] →
  net_label w w' =
  match u, r with
  | VRequestVoteArgs args, VRequestVoteReply rep =>
      match rn_connections (w_net w) !! rq_endname (cl_req c) with
      | Some (Some (NInt j)) => grant_label (Z.to_nat j) args rep
      | _ => LTau
      end
  | _, _ => LTau
  end.
Proof. intros Hc Hl. unfold net_label. rewrite Hl, drop_app_length. simpl. by rewrite Hc. Qed.

(** The handler of a call that a goroutine [sent] to peer [j] is the method of
    peer [j]. *)
Lemma sent_method s i j meth args rv ok id c svc m : rinv s → sent E (world s) i j meth args rv ok id → no_dot meth = true →
  w_calls (world s) !! id = Some c → cl_exec c = InService svc m →
  m = meth ∧ cl_args c = args ∧ execs id (w_log (world s)) = [] ∧
  rn_connections (w_net (world s)) !! rq_endname (cl_req c) = Some (Some (NInt (Z.of_nat j))) ∧
  ∃ q, P !! j = Some q ∧ MakeService (raft_receiver q) = Done svc.
Proof.
  intros Hs (c' & nm & Hc' & HE & He & Hm & Ha & _ & _) Hnd Hc Hx. rewrite Hc in Hc'. injection Hc' as <-.
  pose proof (ri_routed _ _ _ _ Hs id c Hc) as Hro. unfold route in Hro. rewrite Hx in Hro.
  destruct (Hro i j nm meth He HE Hnd Hm) as (-> & q & Hq & Hmk).
  pose proof (cinv_exec _ _ _ (winv_call _ _ _ (ri_w _ _ _ _ Hs) Hc)) as Hxi. unfold exec_inv in Hxi. rewrite Hx in Hxi.
  split_and!; try done; [|by exists q]. rewrite He. by eapply (ri_to _ _ _ _ Hs).
Qed.

(** The memory after a handler of the peer at [q]. *)
Lemma sim_handler s s' σ j q rf ps rf' gv ga : sim s σ gv ga → P !! j = Some q → heap s !! q = Some (ORaft rf ps) →
  heap s' = <[q := ORaft rf' ps]> (heap s) → nodes σ !! j = Some rf ∧ nodes_ok (heap s') (<[j := rf']> (nodes σ)).
Proof.
  intros Hs Hj Hq Hh. split.
  - destruct (sim_nodes _ _ _ _ Hs) as [_ Hn]. destruct (Hn j q Hj) as (rf1 & ps1 & Hq1 & ?). rewrite Hq in Hq1. by simplify_eq.
  - rewrite Hh. eapply nodes_store; [done..|apply Hs].
Qed.

Lemma sim_net_exec s σ gv ga a id c svc m σm rep u r : sim s σ gv ga → w_calls (world s) !! id = Some c →
  cl_exec c = InService svc m → Service_dispatch svc m (cl_req c) (w_app (world s)) = Done (σm, rep, (u, r)) →
  let w' := with_call (with_app (world s) σm (MkExecution id u r)) id (set_exec (SendingReply rep) c) in
  act (world s) a = Some (Done w') → rinv (with_world s w') →
  follows (clean_event s (RNet a)) (with_world s w') σ (net_label (world s) w').
Proof.
  intros Hs Hc Hx Hd w' Hact Hr'. pose proof (sim_rinv _ _ _ _ Hs) as Hr. pose proof (sim_gos _ _ _ _ Hs) as Hg.
  rewrite (net_label_exec _ w' _ _ _ _ Hc) by done.
  pose proof (winv_call _ _ _ (ri_w _ _ _ _ Hr) Hc) as Hci.
  pose proof (cinv_exec _ _ _ Hci) as Hxi. unfold exec_inv in Hxi. rewrite Hx in Hxi.
  destruct (go_calls _ _ _ _ _ _ _ Hg id c Hc) as [[(g & Hin & Hid)|(g & Hin & Hid)]%elem_ids|[? _]]; [..|done].
  - destruct (go_vote _ _ _ _ _ _ _ Hg g Hin) as (el & Hel & Hsent).
    destruct (sent_method _ _ _ _ _ _ _ _ _ _ _ Hr (Hsent id Hid) eq_refl Hc Hx) as (-> & Hargs & _ & Hco & q & Hq & Hmk).
    destruct (raft_service q svc (cl_req c) (w_app (world s)) (σm, rep, (u, r)) Hmk) as [Hv _].
    destruct (Hv (el_args el)) as (rf & ps & rf' & rr & Hqh & Hrv & [= -> -> -> ->]); [by rewrite call_args; [|apply Hci]|done|].
    rewrite Hco, Nat2Z.id.
    destruct (gos_exec_vote _ _ (store (w_app (world s)) q (ORaft rf' ps)) _ c
      (set_exec (SendingReply (MkReplyMsg true (encode (VRequestVoteReply rr)).1)) c)
      (VRequestVoteArgs (el_args el)) rr _ _ _ _ _ _ Hg Hc ltac:(done) Hxi Hin Hid) as (l1 & l2 & HV & Hg').
    destruct (sim_handler s (with_world s w') σ _ q rf ps rf' gv ga Hs Hq Hqh eq_refl) as [Hnode Hn].
    eexists _, gv, ga. split; [|left; split; [eapply step_vote_request; [done|by rewrite <- (sim_els _ _ _ _ Hs)|done|done]|intros _; by apply clean_same]].
    split; [done|exact Hn|apply Hs|exact Hg'].
  - pose proof (go_append _ _ _ _ _ _ _ Hg g id Hin Hid) as Hsent.
    destruct (sent_method _ _ _ _ _ _ _ _ _ _ _ Hr Hsent eq_refl Hc Hx) as (-> & Hargs & _ & Hco & q & Hq & Hmk).
    destruct (raft_service q svc (cl_req c) (w_app (world s)) (σm, rep, (u, r)) Hmk) as [_ Hv].
    destruct (Hv (ag_args g)) as (rf & ps & rf' & rr & Hqh & Hrv & [= -> -> -> ->]); [by rewrite call_args; [|apply Hci]|done|].
    destruct (gos_exec_append _ _ (store (w_app (world s)) q (ORaft rf' ps)) _ c
      (set_exec (SendingReply (MkReplyMsg true (encode (VAppendEntriesReply rr)).1)) c)
      (VAppendEntriesArgs (ag_args g)) rr _ _ _ _ _ _ Hg Hc ltac:(done) Hxi Hin Hid) as (l1 & l2 & HA & Hg').
    destruct (sim_handler s (with_world s w') σ _ q rf ps rf' gv ga Hs Hq Hqh eq_refl) as [Hnode Hn].
    eexists _, gv, ga. split; [|left; split; [by eapply step_append_request|intros Hcl; eapply clean_handled; [exact HA|exact Hnode| |done]]].
    2:{ unfold clean_event in Hcl. rewrite Hact in Hcl. simpl in Hcl. rewrite drop_app_length in Hcl. simpl in Hcl.
        rewrite Hc, Hco, Nat2Z.id in Hcl. unfold peer in Hcl. rewrite (ri_peers _ _ _ _ Hr), Hq in Hcl.
        change (heap s !! q = Some (ORaft rf ps)) in Hqh. simpl in Hcl. by rewrite Hqh in Hcl. }
    split; [done|exact Hn|apply Hs|exact Hg'].
Qed.

Lemma sim_net s σ gv ga a s' l : sim s σ gv ga → happen s (RNet a) = Some (Done (s', l)) → follows (clean_event s (RNet a)) s' σ l.
Proof.
  intros Hs Ha. cbn [happen] in Ha. destruct (of_network a) eqn:Hof; [|done].
  destruct (act (world s) a) as [m|] eqn:Hact; [|done]. cbn [mbind option_bind] in Ha. injection Ha as Ha.
  apply bind_Done in Ha as (w & -> & Ha). apply Done_inj, pair_equal_spec in Ha as [<- <-].
  assert (rinv (with_world s w)) as Hr.
  { eapply (rinv_act _ _ _ s a w); [apply Hs|done| |done..]. unfold quiet. by rewrite Hof. }
  destruct (act_exec _ _ _ Hact) as [(Hl & Happ & _)|(id & c & svc & m & σm & rep & u & r & -> & Hc & Hx & Hd & ->)].
  - assert (net_label (world s) w = LTau) as -> by (unfold net_label; by rewrite Hl, drop_all).
    exists σ, gv, ga. split; [|by right]. split; [done| |apply Hs|].
    + unfold heap, mem. simpl. rewrite Happ. apply Hs.
    + simpl. eapply (gos_act _ (world s)); [done..|apply Hs].
  - by eapply sim_net_exec.
Qed.

(** ** Every event *)

Lemma sim_happen s σ gv ga ev s' l : sim s σ gv ga → happen s ev = Some (Done (s', l)) → follows (clean_event s ev) s' σ l.
Proof.
  intros Hs Ha. destruct ev.
  - simpl in Ha. unfold ticker_go in Ha. destruct (peer s i) as [[[q rf] ps]|]; [|done].
    cbn [mbind option_bind] in Ha. injection Ha as <- <-.
    exists σ, gv, ga. split; [|by right]. destruct (raft.ticker _ _ _); [|done].
    split; [apply (rinv_ext _ _ _ s); try done; apply Hs|apply Hs..].
  - by eapply sim_kick.
  - by eapply sim_vote_call.
  - by eapply sim_vote_return.
  - by eapply sim_collect.
  - by eapply sim_heart.
  - by eapply sim_append_call.
  - by eapply sim_append_return.
  - by eapply sim_apply.
  - by eapply sim_start.
  - simpl in Ha. injection Ha as Ha. apply bind_Done in Ha as (c & Hc & Ha). apply Done_inj, pair_equal_spec in Ha as [<- <-].
    destruct (connect_rinv _ _ _ _ _ _ (sim_rinv _ _ _ _ Hs) Hc) as (? & ? & ? & ? & _). by eapply sim_cfg.
  - simpl in Ha. injection Ha as Ha. apply bind_Done in Ha as (c & Hc & Ha). apply Done_inj, pair_equal_spec in Ha as [<- <-].
    destruct (disconnect_rinv _ _ _ _ _ _ (sim_rinv _ _ _ _ Hs) Hc) as (? & ? & ? & ? & _). by eapply sim_cfg.
  - simpl in Ha. injection Ha as Ha. apply bind_Done in Ha as (c & Hc & Ha). apply Done_inj, pair_equal_spec in Ha as [<- <-].
    by eapply sim_crash.
  - by eapply sim_net.
  - simpl in Ha. destruct (0 <? d); [|done]. injection Ha as <- <-. exists σ, gv, ga. split; [|by right].
    split; [|apply Hs|apply Hs|].
    + eapply rinv_mem; [apply Hs|done|reflexivity].
    + eapply (gos_world _ (world s)); [done..|apply Hs].
Qed.
End sim.
End raftnetsim.
