(* ===== verification/RaftNetSafe.v ===== *)
(** * Raft peers on the network: no event ends the process

    The events of the peers and of the network return: no handler and no reply
    handler panics, labrpc finds the service, the method and a reply it can decode. *)

From S2P Require Import Prelude Persister Raft RaftFacts RaftCluster RaftBase RaftElection RaftLog.
From S2P Require Import LabRpc LabRpcFacts LabRpcClient Harness HarnessFacts.
From S2P Require Import RaftConfig RaftConfigFacts RaftNet RaftNetFacts RaftNetRefine RaftNetSim.
Open Scope Z_scope.

Module raftnetsafe.
Import raft_log labrpc rpcproof rpcclient raftcfg cluster raftnet raftnetproof raftnetrefine raftnetsim.

(** The events of the peers and of the network, without the applier. *)
Definition of_peers {Cmd} (ev : event Cmd) : bool :=
  match ev with RConnect _ | RDisconnect _ | RCrash _ | RApply _ => false | _ => true end.

Section safe.
Context {Cmd : Type} `{EqDecision Cmd} `{Codec (value Cmd)} `{!RaftCodec Cmd}.
Context (E : nat → nat → option string) (srvs P : list nat) (HP : NoDup P).
(** labgob can encode the arguments: the types of the commands are registered. *)
Context (Hvote : ∀ a, (encode (VRequestVoteArgs (Cmd := Cmd) a)).2 = true).
Context (Happend : ∀ a, (encode (VAppendEntriesArgs (Cmd := Cmd) a)).2 = true).
Implicit Types (s : process Cmd) (w : Harness.world Cmd) (σ : cluster Cmd).
Notation sim := (sim E srvs P).

Lemma returns_bind {A B} (m : outcome A) (f : A → outcome B) :
  returns m → (∀ a, m = Done a → returns (f a)) → returns (m ≫= f).
Proof. intros [a ->] Hf. by apply Hf. Qed.

Lemma call_returns w id e m (args rv : value Cmd) x : (encode args).2 = true →
  act w (ACall id e m args rv) = Some x → returns x.
Proof.
  intros He Ha. simpl in Ha. destruct (w_calls w !! id); [done|]. injection Ha as <-. apply returns_bind; [|by eexists].
  unfold Call. destruct (encode args) as [b ok]. simpl in He. rewrite He. by eexists.
Qed.

(** Every call that is not over belongs to a goroutine. *)
Lemma gos_sent s σ gv ga id : sim s σ gv ga → id ∈ ids (np_votes s ++ gv) (np_appends s ++ ga) →
  ∃ i j meth args rv ok, sent E (world s) i j meth args rv ok id ∧ no_dot meth = true ∧
    ∀ r, ok r → (encode r).2 = true ∧ zero r = rv.
Proof.
  intros Hs [(g & Hin & Hid)|(g & Hin & Hid)]%elem_ids; pose proof (sim_gos _ _ _ _ _ _ _ Hs) as Hg.
  - destruct (go_vote _ _ _ _ _ _ _ Hg g Hin) as (el & Hel & Hsent). eexists _, _, _, _, _, _.
    split; [by apply Hsent|split; [done|]]. intros r [rr ->]. apply rc_vote_reply.
  - eexists _, _, _, _, _, _. split; [by apply (go_append _ _ _ _ _ _ _ Hg g)|split; [done|]].
    intros r [rr ->]. apply rc_append_reply.
Qed.

Lemma dispatch_returns s σ gv ga id c p : sim s σ gv ga → w_calls (world s) !! id = Some c → cl_exec c = Dispatching p →
  returns (a_server_dispatch (world s) id c p).
Proof.
  intros Hs Hc Hx. pose proof (sim_rinv _ _ _ _ _ _ _ Hs) as Hr.
  pose proof (cinv_exec _ _ _ (winv_call _ _ _ (ri_w _ _ _ _ Hr) Hc)) as Hxi. unfold exec_inv in Hxi. rewrite Hx in Hxi.
  destruct (go_calls _ _ _ _ _ _ _ (sim_gos _ _ _ _ _ _ _ Hs) id c Hc) as [Hin|[? _]]; [|done].
  destruct (gos_sent _ _ _ _ _ Hs Hin) as (i & j & meth & args & rv & ok & (c' & nm & Hc' & HE & He & Hm & _) & Hnd & _).
  rewrite Hc in Hc'. injection Hc' as <-.
  pose proof (ri_routed _ _ _ _ Hr id c Hc) as Hro. unfold route in Hro. rewrite Hx in Hro.
  destruct (ri_store _ _ _ _ Hr j p (Hro i j nm He HE)) as (rs & q & svc & Hrs & Hsvc & _).
  unfold a_server_dispatch. rewrite Hrs, (Server_dispatch_split _ _ "Raft" meth), Hsvc by done. by eexists.
Qed.

Lemma return_returns s σ gv ga id c counted rep : sim s σ gv ga → w_calls (world s) !! id = Some c →
  cl_proc c = Replying counted rep → cl_caller c = Waiting → returns (a_return (world s) id c counted rep).
Proof.
  intros Hs Hc Hp Hca. pose proof (sim_rinv _ _ _ _ _ _ _ Hs) as Hr.
  apply returns_bind; [|by eexists]. unfold Call_return. destruct (rp_ok rep) eqn:Hok; [|by eexists].
  pose proof (cinv_proc _ _ _ (winv_call _ _ _ (ri_w _ _ _ _ Hr) Hc)) as Hpi. unfold proc_inv in Hpi. rewrite Hp in Hpi.
  destruct (Hpi Hok) as (r & Hxs & ->).
  destruct (go_calls _ _ _ _ _ _ _ (sim_gos _ _ _ _ _ _ _ Hs) id c Hc) as [Hin|(_ & ? & ? & ?)]; [|congruence].
  destruct (gos_sent _ _ _ _ _ Hs Hin) as (i & j & meth & args & rv & ok & (c' & nm & Hc' & _ & _ & _ & _ & Hrv & Hx) & _ & Henc).
  rewrite Hc in Hc'. injection Hc' as <-. destruct (Henc r) as [He Hz].
  { eapply (Hx (MkExecution id _ r)). rewrite Hxs. by apply list_elem_of_singleton. }
  rewrite Hrv, <- Hz. simpl. rewrite decode_encode by done. by eexists.
Qed.

(** The methods of the peer at [q] return when the handlers do. *)
Lemma method_returns q svc (req : @reqMsg name (value Cmd)) m rf ps : MakeService (raft_receiver q) = Done svc →
  ap_heap m !! q = Some (ORaft rf ps) →
  (∀ a, (decode (rq_args req) (rq_argsType req)).1 = VRequestVoteArgs a → returns (raft.RequestVote (ap_now m) rf a) →
    returns (Service_dispatch svc "RequestVote" req m)) ∧
  (∀ a, (decode (rq_args req) (rq_argsType req)).1 = VAppendEntriesArgs a → returns (raft.AppendEntries (ap_now m) rf a) →
    returns (Service_dispatch svc "AppendEntries" req m)).
Proof.
  intros Hsvc Hq. unfold MakeService in Hsvc. cbn in Hsvc. apply Done_inj in Hsvc as <-.
  split; intros a Ha [[rf' r] Hret]; unfold Service_dispatch; cbn [sv_methods];
    [rewrite lookup_insert_eq|rewrite lookup_insert_ne, lookup_insert_eq by done];
    cbn [mt_In mt_Func sv_rcvr]; rewrite Ha; simpl; rewrite Hq; simpl; rewrite Hret; by eexists.
Qed.

Lemma service_returns s σ gv ga id c svc m : sim s σ gv ga → no_panic σ → w_calls (world s) !! id = Some c →
  cl_exec c = InService svc m → returns (a_service_dispatch (world s) id c svc m).
Proof.
  intros Hs Hnp Hc Hx. pose proof (sim_rinv _ _ _ _ _ _ _ Hs) as Hr. pose proof (sim_gos _ _ _ _ _ _ _ Hs) as Hg.
  pose proof (winv_call _ _ _ (ri_w _ _ _ _ Hr) Hc) as Hci. pose proof (call_args _ (cinv_req _ _ _ Hci)) as Hargs.
  pose proof (cinv_exec _ _ _ Hci) as Hxi. unfold exec_inv in Hxi. rewrite Hx in Hxi.
  apply returns_bind; [|intros [[? ?] [? ?]] _; by eexists].
  assert (∀ j q, P !! j = Some q → ∃ rf ps, ap_heap (w_app (world s)) !! q = Some (ORaft rf ps) ∧ nodes σ !! j = Some rf) as Hn
    by (apply (sim_nodes _ _ _ _ _ _ _ Hs)).
  destruct (go_calls _ _ _ _ _ _ _ Hg id c Hc) as [[(g & Hin & Hid)|(g & Hin & Hid)]%elem_ids|[? _]]; [..|done].
  - destruct (go_vote _ _ _ _ _ _ _ Hg g Hin) as (el & Hel & Hsent).
    destruct (sent_method _ _ _ _ _ _ _ _ _ _ _ _ _ _ Hr (Hsent id Hid) eq_refl Hc Hx) as (-> & Ha & _ & _ & q & Hq & Hmk).
    destruct (Hn _ _ Hq) as (rf & ps & Hqh & Hrf). rewrite Ha in Hargs.
    apply (proj1 (method_returns _ _ (cl_req c) _ _ _ Hmk Hqh) _ Hargs).
    apply (np_vote _ Hnp (vg_eid g) (vg_dst g)); [|by rewrite <- (sim_els _ _ _ _ _ _ _ Hs)|done].
    rewrite (go_votes _ _ _ _ _ _ _ Hg). apply list_elem_of_fmap. exists g. split; [|done].
    unfold vtoken, vote_reply. rewrite Hid. simpl. by rewrite Hxi.
  - pose proof (go_append _ _ _ _ _ _ _ Hg g id Hin Hid) as Hsent.
    destruct (sent_method _ _ _ _ _ _ _ _ _ _ _ _ _ _ Hr Hsent eq_refl Hc Hx) as (-> & Ha & _ & _ & q & Hq & Hmk).
    destruct (Hn _ _ Hq) as (rf & ps & Hqh & Hrf). rewrite Ha in Hargs.
    apply (proj2 (method_returns _ _ (cl_req c) _ _ _ Hmk Hqh) _ Hargs).
    apply (np_append _ Hnp (ag_src g) (ag_dst g)); [|done].
    rewrite (go_appends _ _ _ _ _ _ _ Hg). apply list_elem_of_fmap. exists g. split; [|done].
    unfold atoken, append_reply. rewrite Hid. simpl. by rewrite Hxi.
Qed.

Lemma net_returns s σ gv ga a m : sim s σ gv ga → no_panic σ → of_network a = true → act (world s) a = Some m → returns m.
Proof.
  intros Hs Hnp Ha Hm. destruct a; try discriminate Ha; simpl in Hm.
  all: try (by (injection Hm as <-; eexists)).
  all: try (destruct (w_calls (world s) !! i) as [c|] eqn:Hc; [|done]; cbn [mbind option_bind] in Hm).
  all: try (by (repeat case_match; simplify_eq; eexists)).
  - destruct (cl_exec c) eqn:Hx; try done. injection Hm as <-. by eapply dispatch_returns.
  - destruct (cl_exec c) eqn:Hx; try done. injection Hm as <-. by eapply service_returns.
  - destruct (cl_proc c) eqn:Hp; try done. destruct (cl_caller c) eqn:Hca; try done. injection Hm as <-.
    by eapply return_returns.
Qed.

(** ** Every event *)

Lemma kick_returns s σ gv ga k m : sim s σ gv ga → no_panic σ → kick_go s k = Some m → returns m.
Proof.
  intros Hs Hnp Ha. unfold kick_go in Ha.
  destruct (np_kicks s !! k) as [i|]; [|done]. cbn [mbind option_bind] in Ha.
  destruct (peer s i) as [[[q rf] ps]|] eqn:Hpe; [|done]. cbn [mbind option_bind] in Ha. injection Ha as <-.
  apply returns_bind; [|intros [? ?] _; by eexists]. eapply (np_kick _ Hnp i). by eapply sim_node.
Qed.

Lemma vote_call_returns s σ gv ga k i m : sim s σ gv ga → sendRequestVote s k i = Some m → returns m.
Proof.
  intros Hs Ha. unfold sendRequestVote in Ha.
  destruct (np_votes s !! k) as [g|]; [|done]. cbn [mbind option_bind] in Ha.
  destruct (np_elections s !! vg_eid g) as [el|]; [|done]. cbn [mbind option_bind] in Ha.
  destruct (end_from s _ _) as [e|]; [|done]. cbn [mbind option_bind] in Ha. destruct (vg_call g); [done|].
  destruct (act (world s) _) as [x|] eqn:Hx; [|done]. cbn [mbind option_bind] in Ha. injection Ha as <-.
  apply returns_bind; [|by eexists]. eapply call_returns; [|exact Hx]. apply Hvote.
Qed.

Lemma vote_return_returns s σ gv ga k m : sim s σ gv ga → vote_go_end s k = Some m → returns m.
Proof.
  intros Hs Ha. unfold vote_go_end in Ha.
  destruct (np_votes s !! k) as [g|] eqn:Hk; [|done]. cbn [mbind option_bind] in Ha.
  destruct (np_elections s !! vg_eid g) as [el|]; [|done]. cbn [mbind option_bind] in Ha.
  destruct (vg_call g) as [id|] eqn:Hid; [|done]. cbn [mbind option_bind] in Ha.
  destruct (w_calls (world s) !! id) as [c|] eqn:Hc; [|done]. cbn [mbind option_bind] in Ha.
  destruct (cl_caller c) as [| |[] v] eqn:Hca; [done..| |injection Ha as <-; by eexists].
  destruct (vote_returned _ _ _ _ _ _ _ _ _ _ _ _ Hs Hk Hid Hc Hca) as (r & -> & _).
  destruct (peer _ _) as [[[q rf] ps]|]; [|done]. cbn [mbind option_bind] in Ha.
  destruct (raft.handleRequestVote _ _ _ _). injection Ha as <-. by eexists.
Qed.

Lemma heart_returns s σ gv ga k m : sim s σ gv ga → no_panic σ → heart_go s k = Some m → returns m.
Proof.
  intros Hs Hnp Ha. unfold heart_go in Ha.
  destruct (np_hearts s !! k) as [i|]; [|done]. cbn [mbind option_bind] in Ha.
  destruct (peer s i) as [[[q rf] ps]|] eqn:Hpe; [|done]. cbn [mbind option_bind] in Ha. injection Ha as <-.
  apply returns_bind; [|intros [?|] _; by eexists]. eapply (np_heartbeat _ Hnp i). by eapply sim_node.
Qed.

Lemma append_call_returns s σ gv ga k i m : sim s σ gv ga → sendAppendEntries s k i = Some m → returns m.
Proof.
  intros Hs Ha. unfold sendAppendEntries in Ha.
  destruct (np_appends s !! k) as [g|]; [|done]. cbn [mbind option_bind] in Ha.
  destruct (end_from s _ _) as [e|]; [|done]. cbn [mbind option_bind] in Ha. destruct (ag_call g); [done|].
  destruct (act (world s) _) as [x|] eqn:Hx; [|done]. cbn [mbind option_bind] in Ha. injection Ha as <-.
  apply returns_bind; [|by eexists]. eapply call_returns; [|exact Hx]. apply Happend.
Qed.

Lemma append_return_returns s σ gv ga k m : sim s σ gv ga → no_panic σ → append_go_end s k = Some m → returns m.
Proof.
  intros Hs Hnp Ha. unfold append_go_end in Ha.
  pose proof (sim_gos _ _ _ _ _ _ _ Hs) as Hg.
  destruct (np_appends s !! k) as [g|] eqn:Hk; [|done]. cbn [mbind option_bind] in Ha.
  destruct (ag_call g) as [id|] eqn:Hid; [|done]. cbn [mbind option_bind] in Ha.
  destruct (w_calls (world s) !! id) as [c|] eqn:Hc; [|done]. cbn [mbind option_bind] in Ha.
  destruct (cl_caller c) as [| |[] v] eqn:Hca; [done..| |injection Ha as <-; by eexists].
  destruct (append_returned _ _ _ _ _ _ _ _ _ _ _ _ Hs Hk Hid Hc Hca) as (r & -> & Htok & _).
  destruct (peer _ _) as [[[q rf] ps]|] eqn:Hpe; [|done]. cbn [mbind option_bind] in Ha. injection Ha as <-.
  apply returns_bind; [|by eexists]. eapply (np_reply _ Hnp (ag_src g)); [|by eapply (sim_node _ _ _ s)].
  rewrite (go_appends _ _ _ _ _ _ _ Hg), <- Htok. apply list_elem_of_fmap. exists g. split; [done|].
  apply elem_of_app. left. by eapply list_elem_of_lookup_2.
Qed.

Lemma event_returns s σ gv ga ev m : sim s σ gv ga → no_panic σ → of_peers ev = true → happen s ev = Some m → returns m.
Proof.
  intros Hs Hnp Ho Ha. destruct ev; try discriminate Ho; cbn [happen] in Ha.
  - unfold ticker_go in Ha. destruct (peer s i) as [[[q rf] ps]|]; [|done]. cbn [mbind option_bind] in Ha. injection Ha as <-. by eexists.
  - by eapply kick_returns.
  - by eapply vote_call_returns.
  - by eapply vote_return_returns.
  - unfold collect_go in Ha. destruct (np_elections s !! eid) as [el|]; [|done]. cbn [mbind option_bind] in Ha.
    destruct (peer s _) as [[[q rf] ps]|]; [|done]. cbn [mbind option_bind] in Ha.
    destruct (el_returned el); [done|]. destruct (el_chan el); [done|]. destruct (_ <? _); [|done].
    destruct (raft.collectVotes _ _ _) as [[? ?] ?]. injection Ha as <-. by eexists.
  - by eapply heart_returns.
  - by eapply append_call_returns.
  - by eapply append_return_returns.
  - unfold start_go in Ha. destruct (peer s i) as [[[q rf] ps]|]; [|done]. cbn [mbind option_bind] in Ha. injection Ha as <-. by eexists.
  - destruct (of_network a) eqn:Hof; [|done]. destruct (act (world s) a) as [x|] eqn:Hx; [|done].
    cbn [mbind option_bind] in Ha. injection Ha as <-. apply returns_bind; [|by eexists]. by eapply net_returns.
  - destruct (0 <? d); [|done]. injection Ha as <-. by eexists.
Qed.
End safe.
End raftnetsafe.
