(* ===== verification/RaftNetTheorems.v ===== *)
(** * Raft peers on the network: theorems

    A run of the process that [make_config] builds is a run of the cluster of
    RaftCluster.v, so what holds of the cluster holds of the peers that call each
    other through labrpc. *)

From S2P Require Import Prelude Persister Raft RaftFacts RaftCluster RaftBase RaftElection RaftLog RaftRun RaftClean RaftSafetyTheorems LabRpc LabRpcFacts LabRpcClient Harness HarnessFacts.
From S2P Require Import RaftConfig RaftConfigFacts RaftNet RaftNetFacts RaftNetRefine RaftNetSim RaftNetSafe.
Open Scope Z_scope.

Module raftnettheorems.
Import raft_election raft_log raft_clean labrpc rpcproof rpcclient raftcfg cluster raftnet raftnetproof raftnetrefine raftnetsim raftnetsafe.

Section start.
Context {Cmd : Type} `{EqDecision Cmd} `{Codec (value Cmd)}.
Variable snap_decode : list Z → option (Z * list (option Cmd)).
Implicit Types (c : config Cmd) (w : Harness.world Cmd).

(** ** Building the cluster *)

(** The first [i] of [n] peers are new, the others do not exist. *)
Record made (n i : nat) c : Prop := {
  md_n : cf_n c = n;
  md_calls : w_calls (cf_w c) = ∅ ∧ w_log (cf_w c) = [];
  md_now : now c = 0;
  md_new k : (k < i)%nat → ∃ q ps, cf_rafts c !! k = Some (Some q) ∧
    ap_heap (mem c) !! q = Some (ORaft (raft.Make 0 n (Z.of_nat k) persister.MakePersister) ps);
  md_none k : (i ≤ k < n)%nat → cf_rafts c !! k = Some None ∧ cf_saved c !! k = Some None;
}.

Lemma made_ext n i c c' : made n i c → cf_n c' = cf_n c → w_calls (cf_w c') = w_calls (cf_w c) →
  w_log (cf_w c') = w_log (cf_w c) → mem c' = mem c → cf_rafts c' = cf_rafts c → cf_saved c' = cf_saved c → made n i c'.
Proof.
  intros [Hn [Hc Hl] Hno Hne Hna] Hn' Hc' Hl' Hm Hr Hs. split; unfold now in *; rewrite ?Hm, ?Hr, ?Hs; try done; by rewrite ?Hn', ?Hc', ?Hl'.
Qed.

Lemma made_switches n i c c1 c' Q b : made n i c → cf_n c1 = cf_n c → cf_w c1 = cf_w c → cf_rafts c1 = cf_rafts c →
  cf_saved c1 = cf_saved c → switches Q b c1 c' → made n i c'.
Proof.
  intros Hm Hn Hw Hr Hs Hsw. destruct (switches_frame _ _ _ _ Hsw) as ((Hn' & _ & _ & Hr' & Hs') & Hm' & _).
  destruct (switches_calls _ _ _ _ Hsw) as [Hc Hl]. unfold mem in *. apply (made_ext _ _ c); unfold mem; try done; congruence.
Qed.

Lemma start1_ends_calls i js : ∀ c c', start1_ends i js c = Done c' →
  ∃ w, c' = set_w w c ∧ w_calls w = w_calls (cf_w c) ∧ w_log w = w_log (cf_w c) ∧ w_app w = w_app (cf_w c).
Proof.
  induction js as [|j js IH]; intros c c' Hc; simpl in Hc.
  - apply Done_inj in Hc as <-. exists (cf_w c). by destruct c.
  - apply bind_Done in Hc as (names & _ & Hc). apply bind_Done in Hc as (nm & _ & Hc).
    apply bind_Done in Hc as ([w e] & Hme & Hc). unfold Harness.make_end in Hme.
    apply bind_Done in Hme as ([rn e'] & _ & Hme). apply Done_inj, pair_equal_spec in Hme as [<- _].
    apply IH in Hc as (w & -> & ? & ? & ?). by exists w.
Qed.

(** Peer [i] is started for the first time. *)
Lemma start1_made n i names c c' : (i < n)%nat → made n i c → start1 snap_decode (Z.of_nat i) names c = Done c' → made n (S i) c'.
Proof.
  intros Hi Hm Hc. unfold start1, crash1 in Hc. apply bind_Done in Hc as (c2 & Hc2 & Hc).
  apply bind_Done in Hc2 as (c1 & [_ Hsw]%disconnect_spec & Hc2). cbv zeta in Hsw.
  assert (made n i c1) as Hm1 by (by eapply (made_switches _ _ c); [..|exact Hsw]). clear Hsw Hm c.
  destruct (md_none _ _ _ Hm1 i) as [Hr1 Hs1]; [lia|].
  assert (c2 = set_w (delete_server (cf_w c1) (NInt (Z.of_nat i))) c1) as ->.
  { unfold crash1_locked in Hc2. apply bind_Done in Hc2 as (x & [_ Hx]%idx_Done & Hc2). simpl in Hx.
    rewrite Nat2Z.id, Hs1 in Hx. injection Hx as <-. cbn [mbind outcome_bind] in Hc2.
    apply bind_Done in Hc2 as (x & [_ Hx]%idx_Done & Hc2). simpl in Hx. rewrite Nat2Z.id, Hr1 in Hx. injection Hx as <-.
    cbn [mbind outcome_bind] in Hc2. apply bind_Done in Hc2 as (x & [_ Hx]%idx_Done & Hc2). simpl in Hx.
    rewrite Nat2Z.id, Hs1 in Hx. injection Hx as <-. by apply Done_inj in Hc2. }
  clear Hc2. apply bind_Done in Hc as (ens & _ & Hc). apply bind_Done in Hc as (c3 & Hc3 & Hc).
  apply start1_ends_calls in Hc3 as (w & -> & Hca & Hl & Hap). simpl in Hca, Hl, Hap.
  set (c3 := set_w w _) in *. assert (made n i c3) as Hm3 by (apply (made_ext _ _ c1); try done; unfold mem; simpl; by rewrite Hap).
  apply bind_Done in Hc as ([c4 q] & Hc4 & Hc). apply bind_Done in Hc as (svc & _ & Hc). apply Done_inj in Hc as <-.
  enough (made n (S i) c4) as Hm4 by (by apply (made_ext _ _ c4)).
  clearbody c3. clear svc w Hca Hl Hap c1 Hm1 Hr1 Hs1. rename c3 into c.
  destruct (md_none _ _ _ Hm3 i) as [Hr Hs]; [lia|].
  unfold start1_make in Hc4. apply bind_Done in Hc4 as (la & _ & Hc4). apply bind_Done in Hc4 as (c5 & Hc5 & Hc4).
  unfold start1_saved in Hc5. apply bind_Done in Hc5 as (x & [_ Hx]%idx_Done & Hc5). simpl in Hx. rewrite Nat2Z.id, Hs in Hx.
  injection Hx as <-. simpl in Hc5. apply bind_Done in Hc5 as (sv & [Hlen ->]%set_idx_Done & Hc5). apply Done_inj in Hc5 as <-.
  apply bind_Done in Hc4 as (x & [_ Hx]%idx_Done & Hc4). simpl in Hx. rewrite Nat2Z.id in *.
  rewrite list_lookup_insert_eq in Hx by (by eapply lookup_lt_Some). injection Hx as <-.
  apply bind_Done in Hc4 as ([q' σ] & Hmk & Hc4). unfold make_raft in Hmk.
  apply bind_Done in Hmk as (p & Hp & Hmk). unfold persister_at in Hp. simpl in Hp. rewrite list_lookup_middle in Hp by done.
  apply Done_inj in Hp as <-. apply Done_inj, pair_equal_spec in Hmk as [<- <-].
  apply bind_Done in Hc4 as (rafts & [_ ->]%set_idx_Done & Hc4). apply Done_inj, pair_equal_spec in Hc4 as [<- <-].
  rewrite Nat2Z.id. destruct Hm3 as [Hn Hcl Hno Hne Hna]. split; try done.
  - intros k Hk. unfold mem. simpl. destruct (decide (k = i)) as [->|Hki].
    + eexists _, _. rewrite list_lookup_insert_eq by (by eapply lookup_lt_Some). split; [done|].
      rewrite list_lookup_middle by done. unfold now, mem in Hno. simpl. unfold mem. by rewrite Hno, Hn.
    + rewrite list_lookup_insert_ne by done. destruct (Hne k) as (q' & ps' & Hq' & Hh); [lia|]. exists q', ps'.
      split; [done|]. by apply lookup_app_l_Some, lookup_app_l_Some.
  - intros k Hk. simpl. rewrite !list_lookup_insert_ne by lia. apply Hna. lia.
Qed.

Lemma start_all_made n names m : ∀ i c c', (i + m = n)%nat → made n i c →
  start_all snap_decode names (seq i m) c = Done c' → made n n c'.
Proof.
  induction m as [|m IH]; intros i c c' Him Hm Hc; simpl in Hc.
  - apply Done_inj in Hc as <-. by replace n with i at 2 by lia.
  - apply bind_Done in Hc as (logs & _ & Hc). apply bind_Done in Hc as (c1 & Hc1 & Hc).
    eapply (IH (S i)); [lia| |exact Hc]. eapply start1_made; [lia| |exact Hc1]. by apply (made_ext _ _ c).
Qed.

Lemma connect_all_made n ids : ∀ c c', made n n c → connect_all ids c = Done c' → made n n c'.
Proof.
  induction ids as [|i ids IH]; intros c c' Hm Hc; simpl in Hc; [by apply Done_inj in Hc as <-|].
  apply bind_Done in Hc as (c1 & [_ Hsw]%connect_spec & Hc). eapply IH; [|exact Hc].
  by eapply (made_switches _ _ c); [..|exact Hsw].
Qed.

Lemma make_config_made n u names c :
  make_config snap_decode (labrpc.init (MkApp 0 [])) n u names = Done c → made n n c.
Proof.
  intros Hc. unfold make_config in Hc. apply bind_Done in Hc as (c1 & H1 & Hc).
  eapply connect_all_made; [|exact Hc]. eapply (start_all_made _ _ n 0); [done| |exact H1].
  split; try done; [intros k Hk; lia|]. intros k Hk. simpl. by rewrite !lookup_replicate_2 by lia.
Qed.

(** The peers that [make_config] leaves. *)
Lemma made_peers n c k : made n n c → (k < n)%nat → length (cf_rafts c) = n →
  ∃ q, cf_rafts c !! k = Some (Some q) ∧ omap id (cf_rafts c) !! k = Some q.
Proof.
  intros Hm Hk Hlen. assert (∃ l, cf_rafts c = Some <$> l) as [l Hl].
  { assert (Forall is_Some (cf_rafts c)) as Hall.
    { apply Forall_lookup. intros j o Hj. destruct (md_new _ _ _ Hm j) as (q & ps & Hq & _);
        [rewrite <- Hlen; by eapply lookup_lt_Some|]. rewrite Hj in Hq. by simplify_eq. }
    clear -Hall. induction Hall as [|o os [q ->] _ [l ->]]; [by exists []|by exists (q :: l)]. }
  assert (omap id (Some <$> l) = l) as Hid by (clear; induction l; simpl; by f_equal).
  destruct (md_new _ _ _ Hm k Hk) as (q & ps & Hq & _). exists q. split; [done|].
  rewrite Hl in Hq |- *. rewrite Hid. rewrite list_lookup_fmap in Hq. by destruct (l !! k); simplify_eq/=.
Qed.

Lemma omap_id_length {T} (l : list (option T)) : (∀ k, (k < length l)%nat → is_Some (omap id l !! k)) → length (omap id l) = length l.
Proof.
  intros Hl. assert (length (omap id l) ≤ length l)%nat as Hle.
  { clear. induction l as [|[x|] l IH]; [done|..]; simpl in *; fold (omap (M := list) (B := T) id l) in *; lia. }
  destruct (decide (length (omap id l) = length l)) as [|Hne]; [done|].
  destruct (Hl (length (omap id l))) as [x Hx%lookup_lt_Some]; lia.
Qed.

(** All slots hold a peer. *)
Lemma made_slots n c : made n n c → length (cf_rafts c) = n → let P := omap id (cf_rafts c) in
  length P = n ∧ (∀ k q, cf_rafts c !! k = Some (Some q) ↔ P !! k = Some q).
Proof.
  intros Hm Hlen P. assert (∀ k, (k < n)%nat → ∃ q, cf_rafts c !! k = Some (Some q) ∧ P !! k = Some q) as HPk.
  { intros k Hk. by apply (made_peers n). }
  assert (length P = n) as HPlen.
  { rewrite <- Hlen. apply omap_id_length. intros k Hk. rewrite Hlen in Hk. destruct (HPk k Hk) as (q & _ & Hq). by eexists. }
  split; [done|]. intros k q. split; intros Hk.
  - destruct (HPk k) as (q' & Hq' & Hk'); [rewrite <- Hlen; by eapply lookup_lt_Some|]. rewrite Hk in Hq'. by simplify_eq.
  - destruct (HPk k) as (q' & Hq' & Hk'); [rewrite <- HPlen; by eapply lookup_lt_Some|]. rewrite Hk in Hk'. by simplify_eq.
Qed.

(** The process in which the test begins is that cluster. *)
Lemma start_sim n u names s : raftnet.start snap_decode n u names = Done s →
  ∃ E srvs P, NoDup P ∧ sim E srvs P s (cluster.init n) [] [].
Proof.
  intros Hs. unfold raftnet.start in Hs. apply bind_Done in Hs as (c & Hc & Hs). apply Done_inj in Hs as <-.
  pose proof (make_config_made _ _ _ _ Hc) as Hm.
  apply make_config_reach, reach_inv in Hc as [Hn Hnet Hh Hsrv]; [|done].
  pose proof (hi_rafts _ _ Hh) as Hlen. rewrite Hn in Hlen.
  destruct (made_slots n c Hm Hlen) as [HPlen HP]. set (P := omap id (cf_rafts c)) in *.
  exists (end_of c), ((λ j, default 0%nat (server_at (net c) (NInt (Z.of_nat j)))) <$> seq 0 n), P. split; [|split; [split| | |split]].
  - apply NoDup_alt. intros i j q Hi%(proj2 (HP _ _)) Hj%(proj2 (HP _ _)).
    destruct (hi_raft _ _ Hh i q) as (rf & a & Hq & Hsi); [done..|].
    destruct (hi_raft _ _ Hh j q) as (rf' & a' & Hq' & Hsj); [done..|]. rewrite Hq in Hq'. simplify_eq.
    by eapply (hi_inj _ _ Hh).
  - done.
  - intros i. unfold world. simpl. rewrite (proj1 (md_calls _ _ _ Hm)), (proj2 (md_calls _ _ _ Hm)). by rewrite lookup_empty.
  - intros i cl. unfold world. simpl. by rewrite (proj1 (md_calls _ _ _ Hm)), lookup_empty.
  - done.
  - intros i j nm. apply (ni_to _ Hnet).
  - intros i j nm p [_ Hj]%(end_of_lt _ _ _ _ Hnet) Hp. rewrite Hn in Hj. unfold world in Hp. simpl in Hp. unfold net.
    rewrite list_lookup_fmap, lookup_seq_lt by done. simpl. by rewrite Hp.
  - intros j p. rewrite list_lookup_fmap. intros Hp. destruct (decide (j < n)%nat) as [Hj|Hj].
    2:{ rewrite lookup_seq_ge in Hp by lia. done. }
    rewrite lookup_seq_lt in Hp by done. simpl in Hp. destruct (made_peers n c j Hm Hj Hlen) as (q & Hq & HPj).
    destruct (si_some _ Hsrv _ _ Hq) as (a & rs & svc & Ha & Hrs & Hsvc & Hmk). rewrite Ha in Hp. simplify_eq/=.
    exists rs, q, svc. done.
  - simpl. intros i q Hi. by apply HP.
  - split; [simpl; by rewrite length_fmap, length_seq|]. intros i q Hi.
    assert (i < n)%nat as Hin by (rewrite <- HPlen; by eapply lookup_lt_Some).
    destruct (md_new _ _ _ Hm i Hin) as (q' & ps & Hq' & Hh'). rewrite (proj2 (HP _ _) Hi) in Hq'. injection Hq' as <-.
    eexists _, ps. split; [exact Hh'|]. simpl. rewrite list_lookup_fmap, lookup_seq_lt by done. done.
  - done.
  - done.
  - done.
  - by intros g ?%not_elem_of_nil.
  - by intros g id ?%not_elem_of_nil.
  - apply NoDup_nil_2.
  - intros id cl. unfold world. simpl. by rewrite (proj1 (md_calls _ _ _ Hm)), lookup_empty.
Qed.
End start.

Section run.
Context {Cmd : Type} `{EqDecision Cmd} `{Codec (value Cmd)} `{!RaftCodec Cmd}.
Variable snap_decode : list Z → option (Z * list (option Cmd)).
Implicit Types (s : process Cmd) (tr : list (label Cmd)) (σ : cluster Cmd).

(** ** Runs *)

Definition is_tau (l : label Cmd) : bool := match l with LTau => true | _ => false end.

(** What can be seen of a run. *)
Definition visible tr : list (label Cmd) := filter (λ l, is_tau l = false) tr.

Lemma visible_cons l tr tr' : visible tr = visible tr' → visible (l :: tr) = visible (l :: tr').
Proof. intros Hv. unfold visible in *. rewrite !filter_cons, Hv. done. Qed.

Lemma visible_timely tr tr' : visible tr = visible tr' → timely tr → timely tr'.
Proof.
  intros Hv Ht eid i te t Hin. apply (Ht eid i). assert (LWin eid i te t ∈ visible tr) as Hl.
  { rewrite Hv. by apply list_elem_of_filter. }
  by apply list_elem_of_filter in Hl as [_ ?].
Qed.

(** No event hands a peer entries that it already has. *)
Fixpoint clean_run s (evs : list (event Cmd)) : bool :=
  match evs with
  | [] => true
  | ev :: evs' => clean_event s ev && match happen s ev with Some (Done (s1, _)) => clean_run s1 evs' | _ => true end
  end.

Lemma run_sim E srvs P n evs : NoDup P → ∀ s σ gv ga tr trc s' tr', sim E srvs P s σ gv ga → exec n trc σ →
  visible trc = visible tr → run s evs tr = Some (s', tr') →
  ∃ σ' gv' ga' trc', sim E srvs P s' σ' gv' ga' ∧ exec n trc' σ' ∧ visible trc' = visible tr' ∧
    (clean_run s evs = true → clean_exec n trc σ → clean_exec n trc' σ').
Proof.
  intros HP. induction evs as [|ev evs IH]; intros s σ gv ga tr trc s' tr' Hs Hex Hv Hr; simpl in Hr.
  - simplify_eq. by exists σ, gv, ga, trc.
  - destruct (happen s ev) as [[[s1 l]| |]|] eqn:Hh; try done.
    simpl. rewrite Hh. destruct (sim_happen _ _ _ HP _ _ _ _ _ _ _ Hs Hh) as (σ1 & gv1 & ga1 & Hs1 & [[Hst Hcl]|[-> ->]]).
    + destruct (IH s1 σ1 gv1 ga1 (l :: tr) (l :: trc) s' tr') as (σ' & gv' & ga' & trc' & ? & ? & ? & Hc);
        [exact Hs1|by eapply exec_step|by apply visible_cons|exact Hr|].
      exists σ', gv', ga', trc'. split_and!; [done..|]. intros [Hc1 Hc2]%andb_true_iff Hce. apply Hc; [done|].
      eapply clean_more; [exact Hce|exact Hst|auto].
    + destruct (IH s1 σ gv1 ga1 (LTau :: tr) trc s' tr') as (σ' & gv' & ga' & trc' & ? & ? & ? & Hc);
        [exact Hs1|exact Hex|done|exact Hr|].
      exists σ', gv', ga', trc'. split_and!; [done..|]. intros [Hc1 Hc2]%andb_true_iff. auto.
Qed.

(** The peers of the process are the nodes of the cluster. *)
Lemma sim_peers E srvs P s σ gv ga i : sim E srvs P s σ gv ga →
  (λ x : nat * Raft Cmd * nat, x.1.2) <$> peer s i = nodes σ !! i.
Proof.
  intros Hs. destruct (sim_nodes _ _ _ _ _ _ _ Hs) as [Hlen Hn]. unfold peer.
  rewrite (ri_peers _ _ _ _ (sim_rinv _ _ _ _ _ _ _ Hs)). destruct (P !! i) as [q|] eqn:Hi.
  - destruct (Hn i q Hi) as (rf & ps & Hq & Hrf). simpl. by rewrite Hq.
  - simpl. symmetry. apply lookup_ge_None. rewrite Hlen. by apply lookup_ge_None.
Qed.

Lemma run_cluster n u names s evs s' tr : raftnet.start snap_decode n u names = Done s →
  run s evs [] = Some (s', tr) → ∃ trc σ, exec n trc σ ∧ visible trc = visible tr ∧
    np_elections s' = elections σ ∧ (∀ i, (λ x : nat * Raft Cmd * nat, x.1.2) <$> peer s' i = nodes σ !! i) ∧
    (clean_run s evs = true → clean_exec n trc σ).
Proof.
  intros Hst Hr. destruct (start_sim _ _ _ _ _ Hst) as (E & srvs & P & HP & Hs).
  destruct (run_sim _ _ _ n _ HP _ _ _ _ [] [] _ _ Hs (exec_init n) eq_refl Hr) as (σ & gv & ga & trc & Hs' & Hex & Hv & Hc).
  exists trc, σ. split_and!; [done..|apply Hs'| |intros; apply Hc; [done|apply clean_init]]. intros i. by eapply sim_peers.
Qed.

(** C3: Refinement.  Whatever the goroutines of the peers, the goroutines of labrpc
    and the test do (which connects, disconnects and crashes peers and starts
    commands, but restarts none), in whatever order, the run from [make_config] of [n] peers is a
    run of the cluster of [n] peers: it has the same visible events (elections
    started, votes granted, votes counted, leaders made, commands applied) and ends
    with the same peers and elections. *)
Theorem raft_network_refines n u names s evs s' tr :
  raftnet.start snap_decode n u names = Done s → run s evs [] = Some (s', tr) →
  ∃ trc σ, exec n trc σ ∧ visible trc = visible tr ∧ np_elections s' = elections σ ∧
    ∀ i, (λ x : nat * Raft Cmd * nat, x.1.2) <$> peer s' i = nodes σ !! i.
Proof.
  intros Hst Hr. destruct (run_cluster _ _ _ _ _ _ _ Hst Hr) as (trc & σ & ? & ? & ? & ? & _). by exists trc, σ.
Qed.

(** Election safety over labrpc.  If every peer that turned leader did so in the
    term its election began in, then two peers of the process that are leaders of the
    same term are the same peer, whatever requests and replies the network lost,
    delayed or reordered and whichever peers the test disconnected or crashed. *)
Theorem raft_network_election_safety n u names s evs s' tr i1 i2 q1 q2 rf1 rf2 ps1 ps2 :
  raftnet.start snap_decode n u names = Done s → run s evs [] = Some (s', tr) → timely tr →
  peer s' i1 = Some (q1, rf1, ps1) → peer s' i2 = Some (q2, rf2, ps2) →
  state rf1 = Leader → state rf2 = Leader → currentTerm rf1 = currentTerm rf2 → i1 = i2.
Proof.
  intros Hst Hr Ht H1 H2. destruct (run_cluster _ _ _ _ _ _ _ Hst Hr) as (trc & σ & Hex & Hv & _ & Hn & _).
  apply (leader_unique n trc σ); [done|by apply (visible_timely tr)|by rewrite <- Hn, H1|by rewrite <- Hn, H2].
Qed.

Lemma visible_elem tr tr' l : visible tr = visible tr' → is_tau l = false → l ∈ tr' → l ∈ tr.
Proof.
  intros Hv Ht Hl. assert (l ∈ visible tr) as Hin; [rewrite Hv; by apply list_elem_of_filter|].
  by apply list_elem_of_filter in Hin as [_ ?].
Qed.

(** C6: State machine safety over labrpc.  If elections are timely and no peer is
    handed entries that it already has, then the peers of the process never apply
    different commands at one index, whatever requests and replies the network lost,
    delayed or reordered and whichever peers the test disconnected or crashed. *)
Theorem raft_network_state_machine_safety n u names s evs s' tr i j ms ms' m m' :
  raftnet.start snap_decode n u names = Done s → run s evs [] = Some (s', tr) → timely tr → clean_run s evs = true →
  LApply i ms ∈ tr → LApply j ms' ∈ tr → m ∈ ms → m' ∈ ms' → am_CommandIndex m = am_CommandIndex m' → m = m'.
Proof.
  intros Hst Hr Ht Hc Hi Hj. destruct (run_cluster _ _ _ _ _ _ _ Hst Hr) as (trc & σ & Hex & Hv & _ & _ & Hcl).
  eapply (applied_agree n trc σ); [by apply Hcl|by apply (visible_timely tr)|by eapply visible_elem..].
Qed.

(** C16: No event ends the process.  After a run with timely elections, whatever a
    peer or a goroutine of labrpc does next (the applier apart) neither panics nor
    calls [log.Fatal]: no index of a peer's slices is out of range, labrpc finds the
    service and the method of every request, and every reply can be decoded. *)
Theorem raft_network_panic_free n u names s evs s' tr ev m :
  (∀ a, (encode (VRequestVoteArgs (Cmd := Cmd) a)).2 = true) →
  (∀ a, (encode (VAppendEntriesArgs (Cmd := Cmd) a)).2 = true) →
  raftnet.start snap_decode n u names = Done s → run s evs [] = Some (s', tr) → timely tr →
  of_peers ev = true → happen s' ev = Some m → returns m.
Proof.
  intros Hve Hae Hst Hr Ht Ho Hev. destruct (start_sim _ _ _ _ _ Hst) as (E & srvs & P & HP & Hs).
  destruct (run_sim _ _ _ n _ HP _ _ _ _ [] [] _ _ Hs (exec_init n) eq_refl Hr) as (σ & gv & ga & trc & Hs' & Hex & Hv & _).
  eapply event_returns; [done|done|exact Hs'| |done|done]. eapply exec_no_panic; [done|by apply (visible_timely tr)].
Qed.
End run.
End raftnettheorems.
Import raftnettheorems.

(** ** A run of three peers *)

Module demo_raftnet.
Import labrpc raftcfg cluster raftnet.

Definition value_code (v : value nat) :=
  match v with
  | VPtr p => inl p
  | VRequestVoteArgs (MkRequestVoteArgs t c i lt) => inr (inl (t, c, i, lt))
  | VRequestVoteReply (MkRequestVoteReply t g) => inr (inr (inl (t, g)))
  | VAppendEntriesArgs (MkAppendEntriesArgs t i pi pt es lc) =>
      inr (inr (inr (inl (t, i, pi, pt, (λ e, (le_Command e, le_Term e, le_Index e)) <$> es, lc))))
  | VAppendEntriesReply (MkAppendEntriesReply t ok ci ct) => inr (inr (inr (inr (inl (t, ok, ci, ct)))))
  | VStruct ty => inr (inr (inr (inr (inr ty))))
  end.
Definition value_of c : value nat :=
  match c with
  | inl p => VPtr p
  | inr (inl (t, c, i, lt)) => VRequestVoteArgs (MkRequestVoteArgs t c i lt)
  | inr (inr (inl (t, g))) => VRequestVoteReply (MkRequestVoteReply t g)
  | inr (inr (inr (inl (t, i, pi, pt, es, lc)))) =>
      VAppendEntriesArgs (MkAppendEntriesArgs t i pi pt ((λ x : option nat * Z * Z, MkEntry x.1.1 x.1.2 x.2) <$> es) lc)
  | inr (inr (inr (inr (inl (t, ok, ci, ct))))) => VAppendEntriesReply (MkAppendEntriesReply t ok ci ct)
  | inr (inr (inr (inr (inr ty)))) => VStruct ty
  end.

#[export] Instance value_codec : Codec (value nat) := bitcodec.codec value_code value_of (λ v,
  match v with
  | VRequestVoteArgs _ => VRequestVoteArgs (MkRequestVoteArgs 0 0 0 0)
  | VRequestVoteReply _ => no_vote
  | VAppendEntriesArgs _ => VAppendEntriesArgs (MkAppendEntriesArgs 0 0 0 0 [] 0)
  | VAppendEntriesReply _ => no_append
  | v => v
  end).

#[export] Instance value_raftcodec : RaftCodec nat.
Proof.
  split; [|done..]. apply bitcodec.laws. intros [|[]|[]|[t i pi pt es lc]|[]|]; try done.
  unfold value_code, value_of. do 2 f_equal. rewrite <- list_fmap_compose. etrans; [|apply list_fmap_id].
  apply list_fmap_ext. by intros k [] _.
Qed.

(** The end from peer [i] to peer [j]. *)
Definition end_name (i j : nat) : string :=
  String (Ascii.ascii_of_nat (65 + i)) (String (Ascii.ascii_of_nat (65 + j)) EmptyString).

Definition no_process : process nat :=
  MkProcess (new_config (labrpc.init (MkApp 0 [])) 0) [] [] [] [] [] [].
Definition started : process nat := get no_process (raftnet.start (λ _, None) 3 true end_name).

Lemma started_start : raftnet.start (λ _, None) 3 true end_name = Done started.
Proof. apply get_Done. vm_compute. reflexivity. Qed.

(** Call [id], whose reply is dropped if [r1] is below 100. *)
Definition deliver (id : nat) (r1 : Z) : list (event nat) :=
  RNet <$> [AReceive id; AStart id 500; AServerDispatch id; AServiceDispatch id; AReplyReady id; AFinish id r1 0; AReturn id].

(** Peer 0 is elected with the vote of peer 1 and replicates a command there; the
    vote of peer 2 is granted but its reply is lost; peer 1 starts an election of the
    next term, and peer 2 crashes. *)
Definition script : list (event nat) :=
  [RTime 1000; RTicker 0 0; RKick 0; RVoteCall 0 0; RVoteCall 1 1] ++ deliver 0 700 ++ deliver 1 5 ++
  [RVoteReturn 0; RVoteReturn 0; RCollect 0; RStart 0 (Some 7%nat); RHeart 0; RAppendCall 0 2] ++ deliver 2 700 ++
  [RAppendReturn 0; RApply 0; RTime 1000; RTicker 1 0; RKick 0; RCrash 2; RVoteCall 0 3].

Definition finished : process nat * list (label nat) := default (started, []) (raftnet.run started script []).

Lemma script_run : raftnet.run started script [] = Some (finished.1, finished.2).
Proof.
  assert (match raftnet.run started script [] with Some _ => true | None => false end = true) as Hr
    by (vm_compute; reflexivity).
  unfold finished. by destruct (raftnet.run started script []) as [[]|].
Qed.

Lemma script_timely : raft_election.timely finished.2.
Proof. apply raft_run.timely_forallb. vm_compute. reflexivity. Qed.

(** Peer 0 is elected and replicates a command on peer 1; both apply it. *)
Definition script_apply : list (event nat) :=
  [RTime 1000; RTicker 0 0; RKick 0; RVoteCall 0 0] ++ deliver 0 700 ++
  [RVoteReturn 0; RCollect 0; RStart 0 (Some 7%nat); RHeart 0; RAppendCall 0 1] ++ deliver 1 700 ++
  [RAppendReturn 0; RApply 0; RHeart 0; RAppendCall 1 2] ++ deliver 2 700 ++ [RAppendReturn 1; RApply 1].

Definition applied_run : process nat * list (label nat) := default (started, []) (raftnet.run started script_apply []).

Lemma script_apply_run : raftnet.run started script_apply [] = Some (applied_run.1, applied_run.2).
Proof.
  assert (match raftnet.run started script_apply [] with Some _ => true | None => false end = true) as Hr
    by (vm_compute; reflexivity).
  unfold applied_run. by destruct (raftnet.run started script_apply []) as [[]|].
Qed.

Definition peer0 : nat * Raft nat * nat :=
  default (0%nat, raft.Make 0 0 0 persister.MakePersister, 0%nat) (raftnet.peer finished.1 0).
End demo_raftnet.
Import demo_raftnet.

Lemma raft_network_refines_witness : ∃ trc σ,
  cluster.exec 3 trc σ ∧ visible trc = [cluster.LKick 1 1 2; cluster.LApply 0 [raft_facts.apply_msg (Some 7%nat) 1];
    cluster.LWin 0 0 1 1; cluster.LPush 0 1; cluster.LGrant 2 1 0; cluster.LGrant 1 1 0; cluster.LKick 0 0 1].
Proof.
  destruct (raft_network_refines (λ _, None) 3 true end_name started script _ _ started_start script_run)
    as (trc & σ & Hex & Hv & _).
  exists trc, σ. split; [exact Hex|]. rewrite Hv. vm_compute. reflexivity.
Defined.

Lemma raft_network_election_safety_witness : state peer0.1.2 = Leader ∧ 0%nat = 0%nat.
Proof.
  split; [vm_compute; reflexivity|].
  apply (raft_network_election_safety (λ _, None) 3 true end_name started script finished.1 finished.2 0 0
    peer0.1.1 peer0.1.1 peer0.1.2 peer0.1.2 peer0.2 peer0.2);
    [exact started_start|exact script_run|exact script_timely|vm_compute; reflexivity..].
Defined.

Lemma raft_network_state_machine_safety_witness :
  ∃ ms ms' m', cluster.LApply 0 ms ∈ applied_run.2 ∧ cluster.LApply 1 ms' ∈ applied_run.2 ∧
    raft_facts.apply_msg (Some 7%nat) 1 ∈ ms ∧ m' ∈ ms' ∧ raft_facts.apply_msg (Some 7%nat) 1 = m'.
Proof.
  assert (cluster.LApply 1 [raft_facts.apply_msg (Some 7%nat) 1] ∈ applied_run.2) as H1.
  { apply list_elem_of_lookup. exists 0%nat. vm_compute. reflexivity. }
  assert (cluster.LApply 0 [raft_facts.apply_msg (Some 7%nat) 1] ∈ applied_run.2) as H0.
  { apply list_elem_of_lookup. exists 11%nat. vm_compute. reflexivity. }
  do 3 eexists. split_and!; [exact H0|exact H1|by left|by left|].
  apply (raft_network_state_machine_safety (λ _, None) 3 true end_name started script_apply applied_run.1 applied_run.2
    0 1 [raft_facts.apply_msg (Some 7%nat) 1] [raft_facts.apply_msg (Some 7%nat) 1] _ _ started_start script_apply_run); [|vm_compute; reflexivity|exact H0|exact H1|by left|by left|reflexivity].
  apply raft_run.timely_forallb. vm_compute. reflexivity.
Defined.

Lemma raft_network_panic_free_witness : ∃ m, raftnet.happen finished.1 (raftnet.RHeart 0) = Some m ∧ returns m.
Proof.
  destruct (raftnet.happen finished.1 (raftnet.RHeart 0)) as [m|] eqn:Hm; [|vm_compute in Hm; discriminate].
  exists m. split; [reflexivity|].
  apply (raft_network_panic_free (λ _, None) 3 true end_name started script finished.1 finished.2 (raftnet.RHeart 0) m);
    [reflexivity|reflexivity|exact started_start|exact script_run|exact script_timely|reflexivity|exact Hm].
Defined.
