(* ===== verification/LabServers.v ===== *)
(** * The servers and clerks of labs 4 and 5 as they are

    kvraft/server.go, shardctrler/server.go and shardkv/server.go: construction,
    [Kill] and the methods labrpc finds.  The handlers have empty bodies in the
    repository (see Harness.v).  [labgob.Register] of the empty struct [Op], which
    only marks it as checked, is left out.

    [Service] is what such a server offers to a test harness; KvRaftConfig.v is
    written against it. *)

From S2P Require Import Prelude Persister Raft LabRpc ShardKv Harness.
Open Scope Z_scope.

Section servers.
Context {Cmd : Type}.
Notation app := (app Cmd).
Implicit Types σ : app.

(** ** kvraft *)

Definition kv_at σ (p : nat) : outcome KVServer :=
  match ap_heap σ !! p with Some (OKVServer kv) => Done kv | _ => nil_pointer end.

Definition StartKVServer σ (nservers : nat) (me : Z) (ps : nat) (maxraftstate : Z) : outcome (nat * app) :=
  let! '(rf, σ) := make_raft σ nservers me ps in
  Done (alloc σ (OKVServer (MkKVServer me rf 0 maxraftstate))).

Definition KVServer_Kill σ (p : nat) : outcome app :=
  let! kv := kv_at σ p in
  let σ := store σ p (OKVServer (MkKVServer (kv_me kv) (kv_rf kv) 1 (kv_maxraftstate kv))) in
  kill_raft σ (Some (kv_rf kv)).

Definition KVServer_killed (kv : KVServer) : bool := kv_dead kv =? 1.

Definition kvserver_receiver (p : nat) : @labrpc.receiver (value Cmd) app :=
  labrpc.MkReceiver (VPtr p) "KVServer" kvserver_methods.

(** ** shardctrler *)

Definition ctrler_at σ (p : nat) : outcome ShardCtrler :=
  match ap_heap σ !! p with Some (OShardCtrler sc) => Done sc | _ => nil_pointer end.

Definition ShardCtrler_StartServer σ (nservers : nat) (me : Z) (ps : nat) : outcome (nat * app) :=
  let! '(rf, σ) := make_raft σ nservers me ps in
  Done (alloc σ (OShardCtrler (MkShardCtrler me rf [shardctrler.zero_config]))).

(** [Raft()] *)
Definition ShardCtrler_Raft σ (p : nat) : outcome nat :=
  let! sc := ctrler_at σ p in Done (sc_rf sc).

Definition ShardCtrler_Kill σ (p : nat) : outcome app :=
  let! sc := ctrler_at σ p in kill_raft σ (Some (sc_rf sc)).

Definition shardctrler_receiver (p : nat) : @labrpc.receiver (value Cmd) app :=
  labrpc.MkReceiver (VPtr p) "ShardCtrler" shardctrler_methods.

(** ** shardkv *)

Definition shardkv_at σ (p : nat) : outcome ShardKV :=
  match ap_heap σ !! p with Some (OShardKV kv) => Done kv | _ => nil_pointer end.

Definition ShardKV_StartServer σ (nservers : nat) (me : Z) (ps : nat) (maxraftstate gid : Z)
    (ctrlers : list ClientEnd) : outcome (nat * app) :=
  let! '(rf, σ) := make_raft σ nservers me ps in
  Done (alloc σ (OShardKV (MkShardKV me rf gid ctrlers maxraftstate))).

Definition ShardKV_Kill σ (p : nat) : outcome app :=
  let! kv := shardkv_at σ p in kill_raft σ (Some (skv_rf kv)).

Definition shardkv_receiver (p : nat) : @labrpc.receiver (value Cmd) app :=
  labrpc.MkReceiver (VPtr p) "ShardKV" shardkv_methods.

(** ** Clerks *)

(** [MakeClerk] of kvraft and shardctrler keep the ends they are given. *)
Definition MakeClerk σ (servers : list ClientEnd) : nat * app := alloc σ (OClerk (MkClerk servers)).

(** The interface of a replicated service: [StartKVServer] or [StartServer],
    [Kill], the field [rf], and the receiver for [labrpc.MakeService]. *)
Class Service := {
  sv_start : app → nat → Z → nat → Z → outcome (nat * app);
  sv_kill : app → nat → outcome app;
  sv_rf : app → nat → outcome nat;
  sv_receiver : nat → @labrpc.receiver (value Cmd) app;
}.

(** What the harness relies on: starting allocates two objects, the peer with
    the persister it was given and the server that refers to it; a server starts
    on every persister; and killing one changes no persister. *)
Class ServiceLaws `{Service} := {
  sv_start_spec σ n me ps maxraft q σ' : sv_start σ n me ps maxraft = Done (q, σ') →
    ∃ rf o, ap_heap σ' = ap_heap σ ++ [ORaft rf ps; o] ∧ q = S (length (ap_heap σ)) ∧
      sv_rf σ' q = Done (length (ap_heap σ));
  sv_start_total σ n me ps maxraft p : ap_heap σ !! ps = Some (OPersister p) →
    ∃ q σ', sv_start σ n me ps maxraft = Done (q, σ');
  sv_kill_spec σ q σ' : sv_kill σ q = Done σ' → length (ap_heap σ') = length (ap_heap σ) ∧
    ∀ a p, ap_heap σ !! a = Some (OPersister p) → ap_heap σ' !! a = Some (OPersister p);
}.

End servers.
Arguments Service : clear implicits.
Arguments ServiceLaws Cmd {_}.

#[export] Instance kvraft_service {Cmd} : Service Cmd := {|
  sv_start := StartKVServer;
  sv_kill := KVServer_Kill;
  sv_rf σ p := let! kv := kv_at σ p in Done (kv_rf kv);
  sv_receiver := kvserver_receiver;
|}.

Definition shardctrler_service {Cmd} : Service Cmd := {|
  sv_start σ n me ps _ := ShardCtrler_StartServer σ n me ps;
  sv_kill := ShardCtrler_Kill;
  sv_rf := ShardCtrler_Raft;
  sv_receiver := shardctrler_receiver;
|}.

Lemma make_raft_spec {Cmd} (σ : app Cmd) n me ps rf σ' : make_raft σ n me ps = Done (rf, σ') →
  ∃ p, ap_heap σ !! ps = Some (OPersister p) ∧ rf = length (ap_heap σ) ∧
    σ' = with_heap σ (ap_heap σ ++ [ORaft (raft.Make (ap_now σ) n me p) ps]).
Proof.
  unfold make_raft, persister_at, nil_pointer. intros Hm. apply bind_Done in Hm as (p & Hp & Hm).
  exists p. destruct (ap_heap σ !! ps) as [[]|]; by simplify_eq.
Qed.

Lemma make_raft_total {Cmd} (σ : app Cmd) n me ps p : ap_heap σ !! ps = Some (OPersister p) →
  make_raft σ n me ps = Done (alloc σ (ORaft (raft.Make (ap_now σ) n me p) ps)).
Proof. intros Hp. unfold make_raft, persister_at. by rewrite Hp. Qed.

(** Overwriting an object that is no persister. *)
Lemma store_keeps {Cmd} (σ : app Cmd) q o o' : ap_heap σ !! q = Some o → (∀ p, o ≠ OPersister p) →
  length (ap_heap (store σ q o')) = length (ap_heap σ) ∧
  ∀ a p, ap_heap σ !! a = Some (OPersister p) → ap_heap (store σ q o') !! a = Some (OPersister p).
Proof.
  intros Hq Ho. unfold store. simpl. split; [apply length_insert|]. intros a p Ha.
  rewrite list_lookup_insert_ne; [done|]. intros <-. rewrite Hq in Ha. injection Ha as ->. by apply (Ho p).
Qed.

Lemma kill_raft_keeps {Cmd} (σ : app Cmd) q σ' : kill_raft σ q = Done σ' →
  length (ap_heap σ') = length (ap_heap σ) ∧
  ∀ a p, ap_heap σ !! a = Some (OPersister p) → ap_heap σ' !! a = Some (OPersister p).
Proof.
  unfold kill_raft, raft_at, nil_pointer. intros Hk. destruct q as [q|]; [|done].
  destruct (ap_heap σ !! q) as [[]|] eqn:Hq; try done. simpl in Hk. apply Done_inj in Hk as <-.
  by eapply store_keeps.
Qed.

#[export] Instance kvraft_laws {Cmd} : ServiceLaws Cmd.
Proof.
  split.
  - intros σ n me ps maxraft q σ' Hs. simpl in Hs. unfold StartKVServer in Hs.
    apply bind_Done in Hs as ([rf σ1] & (p & Hp & -> & ->)%make_raft_spec & Hs).
    unfold alloc in Hs. simpl in Hs. apply Done_inj, pair_equal_spec in Hs as [<- <-].
    do 2 eexists. split_and!; simpl; [by rewrite <- app_assoc|by rewrite length_app, Nat.add_comm|].
    unfold kv_at. simpl. rewrite lookup_app_r by done. rewrite Nat.sub_diag. done.
  - intros σ n me ps maxraft p Hp. simpl. unfold StartKVServer. rewrite (make_raft_total _ _ _ _ _ Hp).
    simpl. eauto.
  - intros σ q σ' Hk. simpl in Hk. unfold KVServer_Kill, kv_at, nil_pointer in Hk.
    destruct (ap_heap σ !! q) as [[]|] eqn:Hq; try done. simpl in Hk.
    destruct (store_keeps σ q _ (OKVServer (MkKVServer (kv_me kv) (kv_rf kv) 1 (kv_maxraftstate kv))) Hq)
      as [Hl1 Hp1]; [done|].
    apply kill_raft_keeps in Hk as [Hl2 Hp2]. split; [congruence|]. eauto.
Qed.

Lemma shardctrler_laws {Cmd} : @ServiceLaws Cmd shardctrler_service.
Proof.
  split.
  - intros σ n me ps maxraft q σ' Hs. simpl in Hs. unfold ShardCtrler_StartServer in Hs.
    apply bind_Done in Hs as ([rf σ1] & (p & Hp & -> & ->)%make_raft_spec & Hs).
    unfold alloc in Hs. simpl in Hs. apply Done_inj, pair_equal_spec in Hs as [<- <-].
    do 2 eexists. split_and!; simpl; [by rewrite <- app_assoc|by rewrite length_app, Nat.add_comm|].
    unfold ShardCtrler_Raft, ctrler_at. simpl. rewrite lookup_app_r by done. rewrite Nat.sub_diag. done.
  - intros σ n me ps maxraft p Hp. simpl. unfold ShardCtrler_StartServer.
    rewrite (make_raft_total _ _ _ _ _ Hp). simpl. eauto.
  - intros σ q σ' Hk. simpl in Hk. unfold ShardCtrler_Kill, ctrler_at, nil_pointer in Hk.
    destruct (ap_heap σ !! q) as [[]|] eqn:Hq; try done. simpl in Hk. by apply kill_raft_keeps in Hk.
Qed.

(** ** The clerk of kvraft *)

(** kvraft/client.go and common.go: the operations are stubs that send nothing; the
    memory is left as it is. *)
Module kvraft.

Record GetArgs := MkGetArgs { ga_Key : string }.
Record GetReply := MkGetReply { gr_Err : string; gr_Value : string }.
Record PutAppendArgs := MkPutAppendArgs { pa_Key : string; pa_Value : string }.
Record PutAppendReply := MkPutAppendReply { par_Err : string }.

Section clerk.
Context {Cmd : Type}.

Definition Get (σ : app Cmd) (ck : nat) (key : string) : string * app Cmd := ("", σ).
Definition PutAppend (σ : app Cmd) (ck : nat) (key value op : string) : app Cmd := σ.
Definition Put (σ : app Cmd) (ck : nat) (key value : string) : app Cmd := PutAppend σ ck key value "Put".
Definition Append (σ : app Cmd) (ck : nat) (key value : string) : app Cmd := PutAppend σ ck key value "Append".

End clerk.
End kvraft.
