(* ===== verification/KvRaftConfig.v ===== *)
(** * The test harnesses of the replicated services (kvraft/config.go, shardctrler/config.go)

    Both packages have the same harness up to the server they start, so it is
    written once against the interface [Service] of LabServers.v; the module
    [ctrlcfg] below has the harness of the shard controller and what is
    different there.  Draws of [randstring] and of [rand.Intn] are arguments;
    [t.Fatal] is [Fatal].  Every method holds [cfg.mu] while it changes the
    config, except where it calls into a server. *)

From S2P Require Import Prelude Persister Raft LabRpc Harness LabServers.
Open Scope Z_scope.

Module kvcfg.

(** [sa[i], sa[j] = sa[j], sa[i]] *)
Definition swap {A} (l : list A) (i j : Z) : outcome (list A) :=
  let! x := idx l j in
  let! y := idx l i in
  let! l := set_idx l i x in
  set_idx l j y.

(** The loop of [random_handles]; [draws i] is the value behind
    [rand.Intn(i+1)], which lies in [0 .. i]. *)
Fixpoint random_loop {A} (draws : nat → Z) (is_ : list nat) (sa : list A) : outcome (list A) :=
  match is_ with
  | [] => Done sa
  | i :: is' =>
      let j := draws i mod (Z.of_nat i + 1) in
      let! sa := swap sa (Z.of_nat i) j in
      random_loop draws is' sa
  end.

Definition random_handles {A} (draws : nat → Z) (kvh : list A) : outcome (list A) :=
  random_loop draws (seq 0 (length kvh)) kvh.

Section kvcfg.
Context {Cmd : Type} `{Service Cmd}.

Record config := MkConfig {
  sf_failed : bool;                        (* [t.Failed()] *)
  sf_w : world Cmd;
  sf_n : nat;
  sf_servers : list (option nat);          (* [kvservers] *)
  sf_saved : list (option nat);
  sf_endnames : list (option (list string));
  sf_clerks : gmap nat (list string);
  sf_nextClientId : Z;
  sf_maxraftstate : Z;
  sf_start : Z;
  sf_t0 : Z;
  sf_rpcs0 : Z;
  sf_ops : Z;
}.
Implicit Types c : config.

Definition set_w w c := MkConfig (sf_failed c) w (sf_n c) (sf_servers c) (sf_saved c) (sf_endnames c)
  (sf_clerks c) (sf_nextClientId c) (sf_maxraftstate c) (sf_start c) (sf_t0 c) (sf_rpcs0 c) (sf_ops c).
Definition set_servers x c := MkConfig (sf_failed c) (sf_w c) (sf_n c) x (sf_saved c) (sf_endnames c)
  (sf_clerks c) (sf_nextClientId c) (sf_maxraftstate c) (sf_start c) (sf_t0 c) (sf_rpcs0 c) (sf_ops c).
Definition set_saved x c := MkConfig (sf_failed c) (sf_w c) (sf_n c) (sf_servers c) x (sf_endnames c)
  (sf_clerks c) (sf_nextClientId c) (sf_maxraftstate c) (sf_start c) (sf_t0 c) (sf_rpcs0 c) (sf_ops c).
Definition set_endnames x c := MkConfig (sf_failed c) (sf_w c) (sf_n c) (sf_servers c) (sf_saved c) x
  (sf_clerks c) (sf_nextClientId c) (sf_maxraftstate c) (sf_start c) (sf_t0 c) (sf_rpcs0 c) (sf_ops c).
Definition set_clerks x id c := MkConfig (sf_failed c) (sf_w c) (sf_n c) (sf_servers c) (sf_saved c)
  (sf_endnames c) x id (sf_maxraftstate c) (sf_start c) (sf_t0 c) (sf_rpcs0 c) (sf_ops c).
Definition set_stats t0 rpcs0 ops c := MkConfig (sf_failed c) (sf_w c) (sf_n c) (sf_servers c) (sf_saved c)
  (sf_endnames c) (sf_clerks c) (sf_nextClientId c) (sf_maxraftstate c) (sf_start c) t0 rpcs0 ops.

Definition net c : Network := labrpc.w_net (sf_w c).
Definition mem c : app Cmd := labrpc.w_app (sf_w c).
Definition now c : Z := ap_now (mem c).
Definition set_net rn c : config := set_w (labrpc.with_net (sf_w c) rn) c.
Definition set_mem σ c : config := set_w (with_memory (sf_w c) σ) c.

(** ** Connections *)

(** [cfg.endnames[i][j]]; a nil slice has no elements. *)
Definition endname_at c (i j : Z) : outcome string :=
  let! names := idx (sf_endnames c) i in
  idx (default [] names) j.

Fixpoint connect_out (i : Z) (to : list Z) c : outcome config :=
  match to with
  | [] => Done c
  | j :: to' =>
      let! endname := endname_at c i j in
      connect_out i to' (set_w (enable (sf_w c) (NStr endname) true) c)
  end.

Fixpoint connect_in (i : Z) (to : list Z) c : outcome config :=
  match to with
  | [] => Done c
  | j :: to' =>
      let! endname := endname_at c j i in
      connect_in i to' (set_w (enable (sf_w c) (NStr endname) true) c)
  end.

Definition connectUnlocked (i : Z) (to : list Z) c : outcome config :=
  let! c := connect_out i to c in
  connect_in i to c.

Definition connect (i : Z) (to : list Z) c : outcome config := connectUnlocked i to c.

Fixpoint disconnect_out (i : Z) (from : list Z) c : outcome config :=
  match from with
  | [] => Done c
  | j :: from' =>
      let! names := idx (sf_endnames c) i in
      match names with
      | Some names =>
          let! endname := idx names j in
          disconnect_out i from' (set_w (enable (sf_w c) (NStr endname) false) c)
      | None => disconnect_out i from' c
      end
  end.

(** The test in the second loop is on [cfg.endnames[j]], where [j] is the
    position in [from], not the peer [from[j]]. *)
Fixpoint disconnect_in (i : Z) (j : Z) (from : list Z) c : outcome config :=
  match from with
  | [] => Done c
  | fj :: from' =>
      let! names := idx (sf_endnames c) j in
      match names with
      | Some _ =>
          let! endname := endname_at c fj i in
          disconnect_in i (j + 1) from' (set_w (enable (sf_w c) (NStr endname) false) c)
      | None => disconnect_in i (j + 1) from' c
      end
  end.

Definition disconnectUnlocked (i : Z) (from : list Z) c : outcome config :=
  let! c := disconnect_out i from c in
  disconnect_in i 0 from c.

Definition disconnect (i : Z) (from : list Z) c : outcome config := disconnectUnlocked i from c.

Definition All c : list Z := Z.of_nat <$> seq 0 (sf_n c).

Fixpoint connect_each (is_ : list Z) c : outcome config :=
  match is_ with
  | [] => Done c
  | i :: is' => let! c := connectUnlocked i (All c) c in connect_each is' c
  end.

Definition ConnectAll c : outcome config := connect_each (All c) c.

(** One of the two loops of [partition]. *)
Fixpoint partition_loop (is_ side other : list Z) c : outcome config :=
  match is_ with
  | [] => Done c
  | i :: is' =>
      let! c := disconnectUnlocked i other c in
      let! c := connectUnlocked i side c in
      partition_loop is' side other c
  end.

Definition partition (p1 p2 : list Z) c : outcome config :=
  let! c := partition_loop p1 p1 p2 c in
  partition_loop p2 p2 p1 c.

(** ** Clerks *)

Fixpoint switch_client (endnames : list string) (js : list Z) (yes : bool) c : outcome config :=
  match js with
  | [] => Done c
  | j :: js' =>
      let! s := idx endnames j in
      switch_client endnames js' yes (set_w (enable (sf_w c) (NStr s) yes) c)
  end.

(** A clerk that is not in the map has the nil slice. *)
Definition ConnectClientUnlocked (ck : nat) (to : list Z) c : outcome config :=
  switch_client (default [] (sf_clerks c !! ck)) to true c.
Definition ConnectClient (ck : nat) (to : list Z) c : outcome config := ConnectClientUnlocked ck to c.
Definition DisconnectClientUnlocked (ck : nat) (from : list Z) c : outcome config :=
  switch_client (default [] (sf_clerks c !! ck)) from false c.
Definition DisconnectClient (ck : nat) (from : list Z) c : outcome config :=
  DisconnectClientUnlocked ck from c.

(** The loop that makes an end to every server; the names are the draws. *)
Fixpoint make_ends (names : nat → string) (js : list nat) (w : world Cmd)
    : outcome (world Cmd * list ClientEnd) :=
  match js with
  | [] => Done (w, [])
  | j :: js' =>
      let! '(w, e) := Harness.make_end w (NStr (names j)) (NInt (Z.of_nat j)) in
      let! '(w, es) := make_ends names js' w in
      Done (w, e :: es)
  end.

Definition makeClient (names : nat → string) (draws : nat → Z) (to : list Z) c : outcome (config * nat) :=
  let! '(w, ends) := make_ends names (seq 0 (sf_n c)) (sf_w c) in
  let c := set_w w c in
  let! handles := random_handles draws ends in
  let '(ck, σ) := MakeClerk (mem c) handles in
  let c := set_mem σ c in
  let c := set_clerks (<[ck := names <$> seq 0 (sf_n c)]> (sf_clerks c)) (sf_nextClientId c + 1) c in
  let! c := ConnectClientUnlocked ck to c in
  Done (c, ck).

(** [os.Remove] of files that do not exist is left out. *)
Definition deleteClient (ck : nat) c : config :=
  set_clerks (delete ck (sf_clerks c)) (sf_nextClientId c) c.

(** ** Servers *)

(** [cfg.saved[i] = cfg.saved[i].Copy()] *)
Definition copy_saved (i : Z) (ps : nat) c : outcome config :=
  let! '(ps', σ) := copy_persister (mem c) ps in
  let! saved := set_idx (sf_saved c) i (Some ps') in
  Done (set_saved saved (set_mem σ c)).

Definition ShutdownServer (i : Z) c : outcome config :=
  let! c := disconnectUnlocked i (All c) c in
  let c := set_w (delete_server (sf_w c) (NInt i)) c in
  let! s := idx (sf_saved c) i in
  let! c := match s with Some ps => copy_saved i ps c | None => Done c end in
  let! kv := idx (sf_servers c) i in
  match kv with
  | Some p =>
      let! σ := sv_kill (mem c) p in
      let! servers := set_idx (sf_servers c) i None in
      Done (set_servers servers (set_mem σ c))
  | None => Done c
  end.

(** The persister for the new instance. *)
Definition start_saved (i : Z) c : outcome config :=
  let! s := idx (sf_saved c) i in
  match s with
  | Some ps => copy_saved i ps c
  | None =>
      let '(ps', σ) := alloc (mem c) (OPersister persister.MakePersister) in
      let! saved := set_idx (sf_saved c) i (Some ps') in
      Done (set_saved saved (set_mem σ c))
  end.

Definition StartServer (i : Z) (names : nat → string) c : outcome config :=
  let! ens := set_idx (sf_endnames c) i (Some (names <$> seq 0 (sf_n c))) in
  let c := set_endnames ens c in
  let! '(w, ends) := make_ends names (seq 0 (sf_n c)) (sf_w c) in
  let c := set_w w c in
  let! c := start_saved i c in
  let! s := idx (sf_saved c) i in
  match s with
  | None => nil_pointer
  | Some ps =>
      let! '(kv, σ) := sv_start (mem c) (length ends) i ps (sf_maxraftstate c) in
      let c := set_mem σ c in
      let! servers := set_idx (sf_servers c) i (Some kv) in
      let c := set_servers servers c in
      let! kvsvc := labrpc.MakeService (sv_receiver kv) in
      let! rf := sv_rf (mem c) kv in
      let! rfsvc := labrpc.MakeService (raft_receiver rf) in
      Done (set_w (add_server (sf_w c) (NInt i) [kvsvc; rfsvc]) c)
  end.

(** ** Leaders and partitions *)

(** The loop of [Leader]; a server that is shut down is a nil pointer. *)
Fixpoint Leader_loop c (is_ : list nat) : outcome (bool * Z) :=
  match is_ with
  | [] => Done (false, 0)
  | i :: is' =>
      let! kv := idx (sf_servers c) (Z.of_nat i) in
      match kv with
      | None => nil_pointer
      | Some p =>
          let! rf := sv_rf (mem c) p in
          let! '(_, is_leader) := get_state (mem c) (Some rf) in
          if (is_leader : bool) then Done (true, Z.of_nat i) else Leader_loop c is'
      end
  end.

Definition Leader c : outcome (bool * Z) := Leader_loop c (seq 0 (sf_n c)).

(** The loop of [make_partition], with the variables [j], [p1] and [p2]. *)
Fixpoint split_loop (l : Z) (is_ : list nat) (j : Z) (p1 p2 : list Z) : outcome (list Z * list Z) :=
  match is_ with
  | [] => Done (p1, p2)
  | i :: is' =>
      if negb (Z.of_nat i =? l) then
        if j <? zlen p1 then
          let! p1 := set_idx p1 j (Z.of_nat i) in
          split_loop l is' (j + 1) p1 p2
        else
          let! p2 := set_idx p2 (j - zlen p1) (Z.of_nat i) in
          split_loop l is' (j + 1) p1 p2
      else split_loop l is' j p1 p2
  end.

(** [make_partition] once the leader [l] is known. *)
Definition split_at_leader (n : nat) (l : Z) : outcome (list Z * list Z) :=
  let! '(p1, p2) := split_loop l (seq 0 n) 0 (replicate (n / 2 + 1) 0) (replicate (n / 2) 0) in
  let! p2 := set_idx p2 (zlen p2 - 1) l in
  Done (p1, p2).

Definition make_partition c : outcome (list Z * list Z) :=
  let! '(_, l) := Leader c in
  split_at_leader (sf_n c) l.

(** ** The whole test *)

Definition new_config (w : world Cmd) (n : nat) (maxraftstate : Z) : config :=
  MkConfig false (labrpc.with_net w labrpc.MakeNetwork) n (replicate n None) (replicate n None)
    (replicate n None) ∅ (Z.of_nat n + 1000) maxraftstate (ap_now (labrpc.w_app w)) 0 0 0.

Fixpoint start_each (names : nat → nat → string) (is_ : list nat) c : outcome config :=
  match is_ with
  | [] => Done c
  | i :: is' => let! c := StartServer (Z.of_nat i) (names i) c in start_each names is' c
  end.

Definition make_config (w : world Cmd) (n : nat) (unreliable : bool) (maxraftstate : Z)
    (names : nat → nat → string) : outcome config :=
  let! c := start_each names (seq 0 n) (new_config w n maxraftstate) in
  let! c := ConnectAll c in
  Done (set_net (labrpc.Reliable (net c) (negb unreliable)) c).

Definition checkTimeout c : outcome unit :=
  if negb (sf_failed c) && (120 * 1000 <? now c - sf_start c)
  then Fatal "test took longer than 120 seconds" else Done tt.

Fixpoint kill_each (is_ : list nat) c : outcome config :=
  match is_ with
  | [] => Done c
  | i :: is' =>
      let! kv := idx (sf_servers c) (Z.of_nat i) in
      match kv with
      | Some p => let! σ := sv_kill (mem c) p in kill_each is' (set_mem σ c)
      | None => kill_each is' c
      end
  end.

Definition cleanup c : outcome config :=
  let! c := kill_each (seq 0 (length (sf_servers c))) c in
  let! rn := labrpc.Cleanup (net c) in
  let c := set_net rn c in
  let! _ := checkTimeout c in
  Done c.

(** The maximum of a size over the saved persisters. *)
Fixpoint max_size (size : Persister → Z) c (is_ : list nat) (m : Z) : outcome Z :=
  match is_ with
  | [] => Done m
  | i :: is' =>
      let! s := idx (sf_saved c) (Z.of_nat i) in
      let! p := persister_at (mem c) s in
      max_size size c is' (if m <? size p then size p else m)
  end.

Definition LogSize c : outcome Z := max_size persister.RaftStateSize c (seq 0 (sf_n c)) 0.
Definition SnapshotSize c : outcome Z := max_size persister.SnapshotSize c (seq 0 (sf_n c)) 0.

Definition rpcTotal c : Z := labrpc.GetTotalCount (net c).
Definition begin c : config := set_stats (now c) (rpcTotal c) 0 c.
(** [atomic.AddInt32(&cfg.ops, 1)] *)
Definition op c : config := set_stats (sf_t0 c) (sf_rpcs0 c) (wrap 32 (sf_ops c + 1)) c.

(** The numbers printed by [end]: time, peers, RPCs and operations. *)
Definition end_ c : outcome (option (Z * nat * Z * Z)) :=
  let! _ := checkTimeout c in
  if negb (sf_failed c)
  then Done (Some (now c - sf_t0 c, sf_n c, rpcTotal c - sf_rpcs0 c, sf_ops c))
  else Done None.

End kvcfg.
Arguments config : clear implicits.
End kvcfg.

(** ** shardctrler/config.go

    The same harness around [ShardCtrler]; only [Leader] differs: it skips the
    servers that are shut down.  There is no [maxraftstate]. *)
Module ctrlcfg.
Section ctrlcfg.
Context {Cmd : Type}.
#[local] Existing Instance shardctrler_service.
Notation config := (kvcfg.config Cmd).
Implicit Types c : config.

Definition random_handles {A} : (nat → Z) → list A → outcome (list A) := kvcfg.random_handles.
Definition checkTimeout : config → outcome unit := kvcfg.checkTimeout.
Definition connectUnlocked : Z → list Z → config → outcome config := kvcfg.connectUnlocked.
Definition connect : Z → list Z → config → outcome config := kvcfg.connect.
Definition disconnect : Z → list Z → config → outcome config := kvcfg.disconnect.
Definition disconnectUnlocked : Z → list Z → config → outcome config := kvcfg.disconnectUnlocked.
Definition All : config → list Z := kvcfg.All.
Definition ConnectAll : config → outcome config := kvcfg.ConnectAll.
Definition partition : list Z → list Z → config → outcome config := kvcfg.partition.
Definition makeClient : (nat → string) → (nat → Z) → list Z → config → outcome (config * nat) :=
  kvcfg.makeClient.
Definition deleteClient : nat → config → config := kvcfg.deleteClient.
Definition ConnectClientUnlocked : nat → list Z → config → outcome config := kvcfg.ConnectClientUnlocked.
Definition DisconnectClientUnlocked : nat → list Z → config → outcome config :=
  kvcfg.DisconnectClientUnlocked.
Definition ConnectClient : nat → list Z → config → outcome config := kvcfg.ConnectClient.
Definition DisconnectClient : nat → list Z → config → outcome config := kvcfg.DisconnectClient.
Definition ShutdownServer : Z → config → outcome config :=
  @kvcfg.ShutdownServer Cmd shardctrler_service.
Definition StartServer : Z → (nat → string) → config → outcome config :=
  @kvcfg.StartServer Cmd shardctrler_service.
Definition cleanup : config → outcome config := @kvcfg.cleanup Cmd shardctrler_service.
Definition LogSize : config → outcome Z := kvcfg.LogSize.

Fixpoint Leader_loop c (is_ : list nat) : outcome (bool * Z) :=
  match is_ with
  | [] => Done (false, 0)
  | i :: is' =>
      let! sc := idx (kvcfg.sf_servers c) (Z.of_nat i) in
      match sc with
      | None => Leader_loop c is'
      | Some p =>
          let! rf := ShardCtrler_Raft (kvcfg.mem c) p in
          let! '(_, is_leader) := get_state (kvcfg.mem c) (Some rf) in
          if (is_leader : bool) then Done (true, Z.of_nat i) else Leader_loop c is'
      end
  end.

Definition Leader c : outcome (bool * Z) := Leader_loop c (seq 0 (kvcfg.sf_n c)).

Definition make_partition c : outcome (list Z * list Z) :=
  let! '(_, l) := Leader c in
  kvcfg.split_at_leader (kvcfg.sf_n c) l.

Definition make_config (w : world Cmd) (n : nat) (unreliable : bool) (names : nat → nat → string)
    : outcome config :=
  @kvcfg.make_config Cmd shardctrler_service w n unreliable 0 names.

End ctrlcfg.
End ctrlcfg.
