(* ===== verification/KvRaftConfigFacts.v ===== *)
(** * Links, partitions and restarts in the harnesses of the replicated services

    Facts about KvRaftConfig.v: how the operations change which ends are
    enabled, how [make_partition] splits the servers, and what survives a
    restart. *)

From S2P Require Import Prelude Persister Raft LabRpc Harness HarnessFacts LabServers KvRaftConfig.
Import kvcfg.
Open Scope Z_scope.

(** ** Shuffling the handles *)
Section shuffle.
Context {A : Type}.
Implicit Types l sa : list A.

Lemma swap_perm l i j : 0 ≤ i < zlen l → 0 ≤ j < zlen l → ∃ l', swap l i j = Done l' ∧ l' ≡ₚ l.
Proof.
  intros Hi Hj. unfold swap. destruct (idx_total l i Hi) as [y Hy], (idx_total l j Hj) as [x Hx].
  rewrite Hx. simpl. rewrite Hy. simpl. rewrite (proj2 (set_idx_Done l i x _)) by done. simpl.
  eexists. split; [apply set_idx_Done; rewrite zlen_insert; done|].
  apply idx_Done in Hx as [_ Hx], Hy as [_ Hy].
  apply Permutation_inj. split; [by rewrite !length_insert|].
  set (a := Z.to_nat i) in *. set (b := Z.to_nat j) in *.
  exists (λ k, if decide (k = b) then a else if decide (k = a) then b else k). split.
  - intros k1 k2. repeat case_decide; congruence.
  - intros k. unfold zlen in *. repeat case_decide; subst.
    + rewrite list_lookup_insert_eq by (rewrite length_insert; lia). done.
    + rewrite list_lookup_insert_ne, list_lookup_insert_eq by (done || lia). done.
    + by rewrite !list_lookup_insert_ne by done.
Qed.

Lemma random_loop_perm draws (ids : list nat) : ∀ sa, Forall (λ i, i < length sa)%nat ids →
  ∃ sa', random_loop draws ids sa = Done sa' ∧ sa' ≡ₚ sa.
Proof.
  induction ids as [|i ids IH]; intros sa Hids; simpl; [eauto|].
  apply Forall_cons in Hids as [Hi Hids].
  pose proof (Z.mod_pos_bound (draws i) (Z.of_nat i + 1) ltac:(lia)) as Hj.
  destruct (swap_perm sa (Z.of_nat i) (draws i mod (Z.of_nat i + 1))) as (sa1 & -> & Hp1);
    [unfold zlen; lia..|]. simpl.
  destruct (IH sa1) as (sa' & -> & Hp'); [eapply Forall_impl; [exact Hids|]; intros k; simpl; by rewrite (Permutation_length Hp1)|]. exists sa'. split; [done|]. by rewrite Hp'.
Qed.

Lemma random_handles_perm draws l : ∃ l', random_handles draws l = Done l' ∧ l' ≡ₚ l.
Proof. apply random_loop_perm, Forall_forall. intros i Hi%elem_of_seq. lia. Qed.
End shuffle.

Section facts.
Context {Cmd : Type}.
Implicit Types c : config Cmd.

(** ** Links *)

(** All servers have their ends, and no two ends share a name. *)
Record wired c : Prop := {
  wr_len : length (sf_endnames c) = sf_n c;
  wr_all i : (i < sf_n c)%nat → ∃ names, sf_endnames c !! i = Some (Some names) ∧ length names = sf_n c;
  wr_inj a b a' b' s : endname_at c a b = Done s → endname_at c a' b' = Done s → a = a' ∧ b = b';
  wr_known a b s : endname_at c a b = Done s → is_Some (labrpc.rn_ends (net c) !! NStr s);
  wr_to a b s : endname_at c a b = Done s → labrpc.rn_connections (net c) !! NStr s = Some (Some (NInt b));
}.

Definition in_range c (i : Z) : Prop := 0 ≤ i < Z.of_nat (sf_n c).

Lemma wired_end c a b : wired c → in_range c a → in_range c b → ∃ s, endname_at c a b = Done s.
Proof.
  intros Hw Ha Hb. unfold in_range in *. destruct (wr_all _ Hw (Z.to_nat a)) as (names & Hn & Hl); [lia|].
  unfold endname_at. rewrite (proj2 (idx_Done _ a (Some names))) by (split; [lia|done]). simpl.
  apply idx_total. unfold zlen. lia.
Qed.

(** The end from [a] to [b] is enabled. *)
Definition linked c (a b : Z) : Prop :=
  ∃ s, endname_at c a b = Done s ∧ labrpc.is_enabled (net c) (NStr s) = true.

(** Ends between [i] and the servers of [l]. *)
Definition touches (i : Z) (l : list Z) (a b : Z) : Prop := (a = i ∧ b ∈ l) ∨ (b = i ∧ a ∈ l).

(** [c'] is [c] with other ends enabled. *)
Definition relinked c c' : Prop := ∃ names b, c' = set_w (enable_all names b (sf_w c)) c.

Lemma service_connect_out_spec i l : ∀ c, wired c → in_range c i → Forall (in_range c) l →
  ∃ names, connect_out i l c = Done (set_w (enable_all names true (sf_w c)) c) ∧
    ∀ s, s ∈ names ↔ ∃ j, j ∈ l ∧ endname_at c i j = Done s.
Proof.
  induction l as [|j l IH]; intros c Hw Hi Hl; simpl.
  - exists []. split; [by destruct c|]. intros s. split; [set_solver|]. by intros (j & Hj%elem_of_nil & _).
  - apply Forall_cons in Hl as [Hj Hl]. destruct (wired_end c i j Hw Hi Hj) as [s0 Hs0]. rewrite Hs0. simpl.
    destruct (IH (set_w (enable (sf_w c) (NStr s0) true) c)) as (names & -> & Hn); [by split; apply Hw|done..|].
    exists (s0 :: names). split; [done|]. intros s. rewrite elem_of_cons, Hn, exists_cons.
    change (endname_at (set_w (enable (sf_w c) (NStr s0) true) c)) with (endname_at c).
    rewrite Hs0. split; (intros [Hs|Hs]; [left|by right]); congruence.
Qed.

Lemma service_connect_in_spec i l : ∀ c, wired c → in_range c i → Forall (in_range c) l →
  ∃ names, connect_in i l c = Done (set_w (enable_all names true (sf_w c)) c) ∧
    ∀ s, s ∈ names ↔ ∃ j, j ∈ l ∧ endname_at c j i = Done s.
Proof.
  induction l as [|j l IH]; intros c Hw Hi Hl; simpl.
  - exists []. split; [by destruct c|]. intros s. split; [set_solver|]. by intros (j & Hj%elem_of_nil & _).
  - apply Forall_cons in Hl as [Hj Hl]. destruct (wired_end c j i Hw Hj Hi) as [s0 Hs0]. rewrite Hs0. simpl.
    destruct (IH (set_w (enable (sf_w c) (NStr s0) true) c)) as (names & -> & Hn); [by split; apply Hw|done..|].
    exists (s0 :: names). split; [done|]. intros s. rewrite elem_of_cons, Hn, exists_cons.
    change (endname_at (set_w (enable (sf_w c) (NStr s0) true) c)) with (endname_at c).
    rewrite Hs0. split; (intros [Hs|Hs]; [left|by right]); congruence.
Qed.

Lemma endname_at_idx c i names j : idx (sf_endnames c) i = Done (Some names) →
  endname_at c i j = idx names j.
Proof. intros Hi. unfold endname_at. by rewrite Hi. Qed.

Lemma wired_row c i : wired c → in_range c i → ∃ names, idx (sf_endnames c) i = Done (Some names).
Proof.
  intros Hw Hi. unfold in_range in Hi. destruct (wr_all _ Hw (Z.to_nat i)) as (names & Hn & _); [lia|].
  exists names. apply idx_Done. split; [lia|done].
Qed.

Lemma service_disconnect_out_spec i l : ∀ c, wired c → in_range c i → Forall (in_range c) l →
  ∃ names, disconnect_out i l c = Done (set_w (enable_all names false (sf_w c)) c) ∧
    ∀ s, s ∈ names ↔ ∃ j, j ∈ l ∧ endname_at c i j = Done s.
Proof.
  induction l as [|j l IH]; intros c Hw Hi Hl; simpl.
  - exists []. split; [by destruct c|]. intros s. split; [set_solver|]. by intros (j & Hj%elem_of_nil & _).
  - apply Forall_cons in Hl as [Hj Hl]. destruct (wired_end c i j Hw Hi Hj) as [s0 Hs0].
    destruct (wired_row c i Hw Hi) as [row Hrow]. rewrite Hrow. simpl.
    pose proof Hs0 as Hs1. rewrite (endname_at_idx _ _ _ _ Hrow) in Hs1. rewrite Hs1. simpl.
    destruct (IH (set_w (enable (sf_w c) (NStr s0) false) c)) as (names & -> & Hn); [by split; apply Hw|done..|].
    exists (s0 :: names). split; [done|]. intros s. rewrite elem_of_cons, Hn, exists_cons.
    change (endname_at (set_w (enable (sf_w c) (NStr s0) false) c)) with (endname_at c).
    rewrite Hs0. split; (intros [Hs|Hs]; [left|by right]); congruence.
Qed.

(** Since all servers have their ends, it does not matter that the test is on the
    wrong server; but the list must not be longer than the cluster. *)
Lemma service_disconnect_in_spec i l : ∀ c k, wired c → in_range c i → Forall (in_range c) l →
  0 ≤ k → k + zlen l ≤ Z.of_nat (sf_n c) →
  ∃ names, disconnect_in i k l c = Done (set_w (enable_all names false (sf_w c)) c) ∧
    ∀ s, s ∈ names ↔ ∃ j, j ∈ l ∧ endname_at c j i = Done s.
Proof.
  induction l as [|j l IH]; intros c k Hw Hi Hl Hk Hlen; simpl.
  - exists []. split; [by destruct c|]. intros s. split; [set_solver|]. by intros (j & Hj%elem_of_nil & _).
  - apply Forall_cons in Hl as [Hj Hl]. destruct (wired_end c j i Hw Hj Hi) as [s0 Hs0].
    unfold zlen in Hlen. simpl in Hlen.
    destruct (wired_row c k Hw) as [row Hrow]; [unfold in_range; lia|]. rewrite Hrow. simpl. rewrite Hs0. simpl.
    destruct (IH (set_w (enable (sf_w c) (NStr s0) false) c) (k + 1)) as (names & -> & Hn);
      [by split; apply Hw|done|done|lia|unfold zlen; simpl; lia|].
    exists (s0 :: names). split; [done|]. intros s. rewrite elem_of_cons, Hn, exists_cons.
    change (endname_at (set_w (enable (sf_w c) (NStr s0) false) c)) with (endname_at c).
    rewrite Hs0. split; (intros [Hs|Hs]; [left|by right]); congruence.
Qed.

(** Nothing but the enabled ends changes. *)
Definition only_links c c' : Prop := ∃ w, c' = set_w w c ∧
  labrpc.w_app w = mem c ∧ labrpc.w_store w = labrpc.w_store (sf_w c) ∧
  labrpc.rn_ends (labrpc.w_net w) = labrpc.rn_ends (net c) ∧
  labrpc.rn_connections (labrpc.w_net w) = labrpc.rn_connections (net c) ∧
  labrpc.rn_servers (labrpc.w_net w) = labrpc.rn_servers (net c).

Lemma only_links_enable c names b : only_links c (set_w (enable_all names b (sf_w c)) c).
Proof. eexists. split; [done|]. apply (enable_all_frame names b (sf_w c)). Qed.

Lemma only_links_refl c : only_links c c.
Proof. exists (sf_w c). by destruct c. Qed.

Lemma only_links_trans c1 c2 c3 : only_links c1 c2 → only_links c2 c3 → only_links c1 c3.
Proof.
  intros (w1 & -> & Ha & Hb & Hc & Hd & He) (w2 & -> & Ha' & Hb' & Hc' & Hd' & He').
  unfold mem, net in *. simpl in *. exists w2. unfold mem, net. split_and!; [done|congruence..].
Qed.

Lemma only_links_end c c' a b : only_links c c' → endname_at c' a b = endname_at c a b.
Proof. by intros (w & -> & _). Qed.

Lemma only_links_wired c c' : only_links c c' → wired c → wired c'.
Proof.
  intros (w & -> & _ & _ & He & Hc & _) Hw. split; unfold net; simpl; rewrite ?He, ?Hc; apply Hw.
Qed.

Lemma linked_enable c names b (P : Z → Z → Prop) :
  wired c → (∀ s, s ∈ names ↔ ∃ x y, P x y ∧ endname_at c x y = Done s) →
  ∀ x y, linked (set_w (enable_all names b (sf_w c)) c) x y ↔
    (∃ s, endname_at c x y = Done s) ∧ ((P x y ∧ b = true) ∨ (¬ P x y ∧ linked c x y)).
Proof.
  intros Hw Hn x y. unfold linked. change (endname_at (set_w _ c)) with (endname_at c).
  unfold net at 1. cbn [sf_w set_w]. setoid_rewrite enable_all_enabled.
  assert (∀ s, endname_at c x y = Done s → (NStr s ∈ NStr <$> names ↔ P x y)) as Hin.
  { intros s Hs. rewrite list_elem_of_fmap. split.
    - intros (s' & [= <-] & Hs'). apply Hn in Hs' as (x' & y' & HP & Hs').
      destruct (wr_inj _ Hw _ _ _ _ _ Hs Hs') as [-> ->]. done.
    - intros HP. exists s. split; [done|]. apply Hn. by exists x, y. }
  split.
  - intros (s & Hs & Hen). split; [by exists s|]. destruct (decide _) as [Hd|Hd].
    + left. split; [by apply (Hin s Hs)|done].
    + right. split; [by rewrite <- (Hin s Hs)|by exists s].
  - intros ((s & Hs) & Hor). exists s. split; [done|]. destruct (decide _) as [Hd|Hd].
    + apply (Hin s Hs) in Hd. by destruct Hor as [[_ ->]|[? _]].
    + rewrite (Hin s Hs) in Hd. destruct Hor as [[? _]|[_ (s' & Hs' & Hen)]]; [done|].
      assert (s' = s) as -> by congruence. exact Hen.
Qed.

Lemma connectUnlocked_spec i l c : wired c → in_range c i → Forall (in_range c) l →
  ∃ c', connectUnlocked i l c = Done c' ∧ only_links c c' ∧
    ∀ a b, linked c' a b ↔ (∃ s, endname_at c a b = Done s) ∧ (touches i l a b ∨ linked c a b).
Proof.
  intros Hw Hi Hl. unfold connectUnlocked. destruct (service_connect_out_spec i l c Hw Hi Hl) as (n1 & -> & Hn1).
  cbn [mbind outcome_bind]. set (c1 := set_w _ c).
  assert (only_links c c1) as Hol1 by apply only_links_enable.
  pose proof (only_links_wired _ _ Hol1 Hw) as Hw1.
  destruct (service_connect_in_spec i l c1 Hw1 Hi Hl) as (n2 & -> & Hn2). eexists. split; [done|].
  split; [eapply only_links_trans; [exact Hol1|apply only_links_enable]|]. intros a b.
  rewrite (linked_enable c1 n2 true (λ x y, x ∈ l ∧ y = i) Hw1).
  - unfold c1 at 2. rewrite (linked_enable c n1 true (λ x y, x = i ∧ y ∈ l) Hw).
    + change (endname_at c1) with (endname_at c). unfold touches.
      destruct (decide (a = i)), (decide (b = i)), (decide (a ∈ l)), (decide (b ∈ l)); tauto.
    + intros s. rewrite Hn1. split; [intros (j & Hj & Hs); by exists i, j|].
      by intros (x & y & [-> Hy] & Hs); exists y.
  - intros s. rewrite Hn2. split; [intros (j & Hj & Hs); by exists j, i|].
    by intros (x & y & [Hx ->] & Hs); exists x.
Qed.

Lemma disconnectUnlocked_spec i l c : wired c → in_range c i → Forall (in_range c) l →
  zlen l ≤ Z.of_nat (sf_n c) →
  ∃ c', disconnectUnlocked i l c = Done c' ∧ only_links c c' ∧
    ∀ a b, linked c' a b ↔ ¬ touches i l a b ∧ linked c a b.
Proof.
  intros Hw Hi Hl Hlen. unfold disconnectUnlocked. destruct (service_disconnect_out_spec i l c Hw Hi Hl) as (n1 & -> & Hn1).
  cbn [mbind outcome_bind]. set (c1 := set_w _ c).
  assert (only_links c c1) as Hol1 by apply only_links_enable.
  pose proof (only_links_wired _ _ Hol1 Hw) as Hw1.
  destruct (service_disconnect_in_spec i l c1 0 Hw1 Hi Hl) as (n2 & -> & Hn2); [lia|done|]. eexists. split; [done|].
  split; [eapply only_links_trans; [exact Hol1|apply only_links_enable]|]. intros a b.
  rewrite (linked_enable c1 n2 false (λ x y, x ∈ l ∧ y = i) Hw1).
  - unfold c1 at 2. rewrite (linked_enable c n1 false (λ x y, x = i ∧ y ∈ l) Hw).
    + change (endname_at c1) with (endname_at c). unfold touches.
      assert (linked c a b → ∃ s, endname_at c a b = Done s) by (intros (s & ? & _); eauto).
      destruct (decide (a = i)), (decide (b = i)), (decide (a ∈ l)), (decide (b ∈ l)); intuition congruence.
    + intros s. rewrite Hn1. split; [intros (j & Hj & Hs); by exists i, j|].
      by intros (x & y & [-> Hy] & Hs); exists y.
  - intros s. rewrite Hn2. split; [intros (j & Hj & Hs); by exists j, i|].
    by intros (x & y & [Hx ->] & Hs); exists x.
Qed.

(** ** Partitions *)

Lemma service_partition_loop_spec ids side other : ∀ c, wired c →
  Forall (in_range c) ids → Forall (in_range c) side → Forall (in_range c) other →
  zlen other ≤ Z.of_nat (sf_n c) → ids ⊆ side → (∀ x, x ∈ side → x ∉ other) →
  ∃ c', partition_loop ids side other c = Done c' ∧ only_links c c' ∧
    ∀ a b, linked c' a b ↔ (∃ s, endname_at c a b = Done s) ∧
      ((∃ i, i ∈ ids ∧ touches i side a b) ∨ (¬ (∃ i, i ∈ ids ∧ touches i other a b) ∧ linked c a b)).
Proof.
  induction ids as [|i ids IH]; intros c Hw Hids Hside Hother Hlen Hsub Hdisj; simpl.
  - exists c. split_and!; [done|apply only_links_refl|]. intros a b.
    assert (linked c a b → ∃ s, endname_at c a b = Done s) by (intros (s & ? & _); eauto).
    split; [|naive_solver set_solver]. intros Hl. split; [auto|]. right. split; [|done].
    by intros (k & Hk%elem_of_nil & _).
  - apply Forall_cons in Hids as [Hi Hids].
    destruct (disconnectUnlocked_spec i other c Hw Hi Hother Hlen) as (c1 & -> & Hol1 & Hl1). cbn [mbind outcome_bind].
    pose proof (only_links_wired _ _ Hol1 Hw) as Hw1.
    assert (sf_n c1 = sf_n c) as Hn1 by (by destruct Hol1 as (w & -> & _)).
    assert (∀ l, Forall (in_range c) l → Forall (in_range c1) l) as Hr1 by (intros l; unfold in_range; by rewrite Hn1).
    destruct (connectUnlocked_spec i side c1 Hw1) as (c2 & -> & Hol2 & Hl2);
      [unfold in_range in *; by rewrite Hn1|by apply Hr1|]. cbn [mbind outcome_bind].
    pose proof (only_links_wired _ _ Hol2 Hw1) as Hw2.
    assert (sf_n c2 = sf_n c) as Hn2 by (destruct Hol2 as (w & -> & _); exact Hn1).
    assert (∀ l, Forall (in_range c) l → Forall (in_range c2) l) as Hr2 by (intros l; unfold in_range; by rewrite Hn2).
    destruct (IH c2 Hw2) as (c' & -> & Hol' & Hl'); [by apply Hr2..|by rewrite Hn2| |done|].
    { intros x Hx. apply Hsub. by right. }
    exists c'. split; [done|]. split; [by eapply only_links_trans; [|exact Hol']; eapply only_links_trans|].
    intros a b. rewrite Hl', Hl2, Hl1, (only_links_end _ _ a b Hol2), (only_links_end _ _ a b Hol1).
    assert (i ∈ side) as His by (apply Hsub; by left).
    assert (∀ k, k ∈ ids → k ∈ side) as Hks by (intros k Hk; apply Hsub; by right).
    assert (linked c a b → ∃ s, endname_at c a b = Done s) as Hex by (intros (s & ? & _); eauto).
    assert (touches i side a b → ¬ ∃ k, k ∈ ids ∧ touches k other a b) as Hno.
    { unfold touches. intros Ht (k & Hk & Hko). pose proof (Hks k Hk).
      pose proof (Hdisj a). pose proof (Hdisj b).
      destruct Ht as [[-> ?]|[-> ?]], Hko as [[? ?]|[? ?]]; subst; tauto. }
    rewrite !exists_cons. tauto.
Qed.

Lemma touches_side (side : list Z) a b : (∃ i, i ∈ side ∧ touches i side a b) ↔ a ∈ side ∧ b ∈ side.
Proof.
  unfold touches. split.
  - intros (i & Hi & [[-> ?]|[-> ?]]); done.
  - intros [Ha Hb]. exists a. auto.
Qed.

Lemma touches_other (side other : list Z) a b : (∃ i, i ∈ side ∧ touches i other a b) ↔
  (a ∈ side ∧ b ∈ other) ∨ (b ∈ side ∧ a ∈ other).
Proof.
  unfold touches. split.
  - intros (i & Hi & [[-> ?]|[-> ?]]); auto.
  - intros [[Ha Hb]|[Hb Ha]]; [exists a|exists b]; auto.
Qed.

Lemma partition_spec p1 p2 c : wired c → Forall (in_range c) p1 → Forall (in_range c) p2 →
  NoDup p1 → NoDup p2 → (∀ x, x ∈ p1 → x ∉ p2) →
  ∃ c', partition p1 p2 c = Done c' ∧ only_links c c' ∧
    ∀ a b, linked c' a b ↔ (∃ s, endname_at c a b = Done s) ∧
      ((a ∈ p1 ∧ b ∈ p1) ∨ (a ∈ p2 ∧ b ∈ p2) ∨
       (¬ (a ∈ p1 ∧ b ∈ p2) ∧ ¬ (a ∈ p2 ∧ b ∈ p1) ∧ linked c a b)).
Proof.
  intros Hw H1 H2 Hnd1 Hnd2 Hdisj.
  assert (∀ p, Forall (in_range c) p → NoDup p → zlen p ≤ Z.of_nat (sf_n c)) as Hlen.
  { intros p Hp Hnd. unfold zlen. apply inj_le. rewrite <- (length_seq (sf_n c) 0).
    rewrite <- (length_fmap Z.of_nat). apply submseteq_length, NoDup_submseteq; [done|].
    intros x Hx. rewrite Forall_forall in Hp. specialize (Hp x Hx). unfold in_range in Hp.
    apply list_elem_of_fmap. exists (Z.to_nat x). rewrite elem_of_seq. lia. }
  unfold partition.
  destruct (service_partition_loop_spec p1 p1 p2 c Hw) as (c1 & -> & Hol1 & Hl1); [done..|by apply Hlen|done|done|].
  cbn [mbind outcome_bind]. pose proof (only_links_wired _ _ Hol1 Hw) as Hw1.
  assert (sf_n c1 = sf_n c) as Hn1 by (by destruct Hol1 as (w & -> & _)).
  assert (∀ l, Forall (in_range c) l → Forall (in_range c1) l) as Hr1 by (intros l; unfold in_range; by rewrite Hn1).
  destruct (service_partition_loop_spec p2 p2 p1 c1 Hw1) as (c2 & -> & Hol2 & Hl2);
    [by apply Hr1..|rewrite Hn1; by apply Hlen|done|intros x Hx Hx'; by apply (Hdisj x)|].
  exists c2. split; [done|]. split; [by eapply only_links_trans|]. intros a b.
  rewrite Hl2, Hl1, (only_links_end _ _ a b Hol1), !touches_side, !touches_other.
  pose proof (Hdisj a). pose proof (Hdisj b).
  assert (linked c a b → ∃ s, endname_at c a b = Done s) as Hex by (intros (s & ? & _); eauto).
  destruct (decide (a ∈ p1)), (decide (b ∈ p1)), (decide (a ∈ p2)), (decide (b ∈ p2)); tauto.
Qed.

(** ** Splitting at the leader *)

Lemma resize_snoc (L : nat) (d : list Z) x : (length d < L)%nat →
  <[length d := x]> (resize L 0 d) = resize L 0 (d ++ [x]).
Proof.
  intros Hd. rewrite !resize_ge by (rewrite ?length_app; simpl; lia). rewrite length_app. simpl.
  rewrite insert_app_r_alt, Nat.sub_diag by done. rewrite <- (assoc_L (++)).
  replace (L - length d)%nat with (S (L - (length d + 1))) by lia. done.
Qed.

Lemma zlen_resize (L : nat) (d : list Z) : zlen (resize L 0 d) = Z.of_nat L.
Proof. unfold zlen. by rewrite length_resize. Qed.

(** The loop fills [p1] and then [p2] with the servers other than [l]. *)
Lemma split_loop_spec l L1 L2 ids : ∀ d,
  (length d + length (filter (λ i, Z.of_nat i ≠ l) ids) ≤ L1 + L2)%nat →
  split_loop l ids (zlen d) (resize L1 0 d) (resize L2 0 (drop L1 d)) =
    let d' := d ++ (Z.of_nat <$> filter (λ i, Z.of_nat i ≠ l) ids) in
    Done (resize L1 0 d', resize L2 0 (drop L1 d')).
Proof.
  induction ids as [|i ids IH]; intros d Hlen; cbn [split_loop]; [simpl; by rewrite app_nil_r|].
  rewrite filter_cons in Hlen |- *.
  destruct (Z.eqb_spec (Z.of_nat i) l) as [Hi|Hi]; simpl.
  - rewrite decide_False in Hlen |- * by (intros Hne; done). by apply IH.
  - rewrite decide_True in Hlen |- * by done. simpl in Hlen.
    assert (zlen d + 1 = zlen (d ++ [Z.of_nat i])) as Hz by (rewrite zlen_app; done).
    rewrite zlen_resize. destruct (Z.ltb_spec (zlen d) (Z.of_nat L1)) as [Hlt|Hge]; unfold zlen in Hlt || unfold zlen in Hge.
    + rewrite (proj2 (set_idx_Done _ _ _ _)) by (rewrite zlen_resize; split; [unfold zlen; lia|done]).
      cbn [mbind outcome_bind]. replace (Z.to_nat (zlen d)) with (length d) by (unfold zlen; lia).
      rewrite resize_snoc by lia. rewrite Hz.
      assert (drop L1 d = drop L1 (d ++ [Z.of_nat i])) as ->.
      { rewrite !drop_ge by (rewrite ?length_app; simpl; lia). done. }
      rewrite IH by (rewrite length_app; simpl; lia). by rewrite <- (assoc_L (++)).
    + rewrite (proj2 (set_idx_Done _ _ _ _)) by (rewrite zlen_resize; split; [unfold zlen; lia|done]).
      cbn [mbind outcome_bind].
      replace (Z.to_nat (zlen d - Z.of_nat L1)) with (length (drop L1 d)) by (rewrite length_drop; unfold zlen; lia).
      rewrite resize_snoc by (rewrite length_drop; lia). rewrite Hz.
      assert (resize L1 0 d = resize L1 0 (d ++ [Z.of_nat i])) as ->.
      { rewrite !resize_le by (rewrite ?length_app; simpl; lia). by rewrite take_app_le by lia. }
      assert (drop L1 d ++ [Z.of_nat i] = drop L1 (d ++ [Z.of_nat i])) as -> by (by rewrite drop_app_le by lia).
      rewrite IH by (rewrite length_app; simpl; lia). by rewrite <- (assoc_L (++)).
Qed.

Lemma others_length n (l : nat) : (l < n)%nat →
  length (filter (λ i, Z.of_nat i ≠ Z.of_nat l) (seq 0 n)) = (n - 1)%nat ∧
  l :: filter (λ i, Z.of_nat i ≠ Z.of_nat l) (seq 0 n) ≡ₚ seq 0 n.
Proof.
  intros Hl. assert (l :: filter (λ i, Z.of_nat i ≠ Z.of_nat l) (seq 0 n) ≡ₚ seq 0 n) as Hp.
  { apply NoDup_Permutation.
    - apply NoDup_cons. split; [|apply NoDup_filter, NoDup_seq]. rewrite list_elem_of_filter. by intros [? _].
    - apply NoDup_seq.
    - intros x. rewrite elem_of_cons, list_elem_of_filter, !elem_of_seq. lia. }
  split; [|done]. apply Permutation_length in Hp. rewrite length_seq in Hp. simpl in Hp. lia.
Qed.

(** For an odd number of servers the two sides are a partition with the leader in
    the smaller one. *)
Lemma split_at_leader_spec k (l : nat) : (1 ≤ k)%nat → (l < 2 * k + 1)%nat →
  ∃ p1 p2, split_at_leader (2 * k + 1) (Z.of_nat l) = Done (p1, p2) ∧
    p1 ++ p2 ≡ₚ (Z.of_nat <$> seq 0 (2 * k + 1)) ∧ length p1 = S k ∧ length p2 = k ∧ Z.of_nat l ∈ p2.
Proof.
  intros Hk Hl. destruct (others_length _ _ Hl) as [Hlen Hperm].
  set (os := filter _ _) in *. unfold split_at_leader.
  assert ((2 * k + 1) / 2 = k)%nat as -> by (rewrite Nat.mul_comm, Nat.div_add_l by lia; simpl; lia).
  pose proof (split_loop_spec (Z.of_nat l) (k + 1) k (seq 0 (2 * k + 1)) []) as Hs.
  rewrite drop_nil, !resize_nil in Hs. fold os in Hs. simpl in Hs |- *.
  change (zlen []) with 0 in Hs. rewrite Hs by lia. clear Hs. cbn [mbind outcome_bind].
  set (ds := Z.of_nat <$> os).
  assert (length ds = 2 * k)%nat as Hds by (unfold ds; rewrite length_fmap; lia).
  rewrite resize_le by lia. rewrite (resize_ge (drop (k + 1) ds)) by (rewrite length_drop; lia).
  rewrite length_drop, Hds. replace (k - (2 * k - (k + 1)))%nat with 1%nat by lia. simpl.
  set (r := drop (k + 1) ds).
  assert (set_idx (r ++ [0]) (zlen (r ++ [0]) - 1) (Z.of_nat l) = Done (r ++ [Z.of_nat l])) as ->.
  { apply set_idx_Done. rewrite zlen_app. change (zlen [0]) with 1. unfold zlen. split; [lia|].
    replace (Z.to_nat (Z.of_nat (length r) + 1 - 1)) with (length r) by lia.
    rewrite insert_app_r_alt, Nat.sub_diag by done. done. }
  cbn [mbind outcome_bind]. eexists _, _. split; [done|]. unfold r.
  split_and!.
  - rewrite (assoc_L (++)), take_drop. unfold ds. rewrite <- Hperm. rewrite fmap_cons.
    by rewrite Permutation_app_comm.
  - rewrite length_take. lia.
  - rewrite length_app, length_drop. simpl. lia.
  - apply elem_of_app. right. by left.
Qed.

(** ** New ends *)

Lemma make_ends_spec names js : ∀ (w w' : world Cmd) es, NoDup js → make_ends names js w = Done (w', es) →
  labrpc.w_app w' = labrpc.w_app w ∧ labrpc.w_store w' = labrpc.w_store w ∧
  labrpc.rn_servers (labrpc.w_net w') = labrpc.rn_servers (labrpc.w_net w) ∧
  es = (λ j, labrpc.MkClientEnd (NStr (names j))) <$> js ∧
  (∀ j, j ∈ js → labrpc.rn_ends (labrpc.w_net w) !! NStr (names j) = None ∧
     is_Some (labrpc.rn_ends (labrpc.w_net w') !! NStr (names j)) ∧
     labrpc.is_enabled (labrpc.w_net w') (NStr (names j)) = false ∧
     labrpc.rn_connections (labrpc.w_net w') !! NStr (names j) = Some (Some (NInt (Z.of_nat j)))) ∧
  (∀ j j', j ∈ js → j' ∈ js → names j = names j' → j = j') ∧
  (∀ nm, is_Some (labrpc.rn_ends (labrpc.w_net w) !! nm) → is_Some (labrpc.rn_ends (labrpc.w_net w') !! nm)) ∧
  (∀ nm, (∀ j, j ∈ js → nm ≠ NStr (names j)) →
     labrpc.is_enabled (labrpc.w_net w') nm = labrpc.is_enabled (labrpc.w_net w) nm ∧
     labrpc.rn_connections (labrpc.w_net w') !! nm = labrpc.rn_connections (labrpc.w_net w) !! nm).
Proof.
  induction js as [|j js IH]; intros w w' es Hnd Hm; cbn [make_ends] in Hm.
  - apply Done_inj, pair_equal_spec in Hm as [<- <-]. split_and!; try done; intros; exfalso;
      by eapply not_elem_of_nil.
  - apply bind_Done in Hm as ([w1 e] & Hme & Hm). apply bind_Done in Hm as ([w2 es2] & H2 & Hm).
    apply Done_inj, pair_equal_spec in Hm as [<- <-]. apply NoDup_cons in Hnd as [Hnj Hnd].
    unfold Harness.make_end, labrpc.MakeEnd in Hme.
    destruct (labrpc.rn_ends (labrpc.w_net w) !! NStr (names j)) eqn:Hnew; [done|].
    cbn [mbind outcome_bind] in Hme. apply Done_inj, pair_equal_spec in Hme as [<- <-].
    apply IH in H2 as (Ha & Hst & Hsv & -> & Hjs & Hinj & Hold & Hoth); [|done]. clear IH. simpl in *.
    assert (∀ j', j' ∈ js → NStr (names j) ≠ NStr (names j')) as Hns.
    { intros j' Hj' Heq. destruct (Hjs j' Hj') as [Hno _]. rewrite <- Heq, lookup_insert_eq in Hno. done. }
    split_and!; [done..| | | |].
    + intros j' [->|Hj']%elem_of_cons.
      * destruct (Hoth (NStr (names j)) Hns) as [Hen Hco]. split_and!; [done|..].
        -- apply Hold. rewrite lookup_insert_eq. by eexists.
        -- rewrite Hen. unfold labrpc.is_enabled. simpl. by rewrite lookup_insert_eq.
        -- rewrite Hco. by rewrite lookup_insert_eq.
      * destruct (Hjs j' Hj') as (Hno & Hrest). split; [|done].
        by rewrite lookup_insert_ne in Hno by (by apply Hns).
    + intros j1 j2 [->|H1]%elem_of_cons [->|H2]%elem_of_cons Heq; [done|..].
      * destruct (Hns j2 H2). by rewrite Heq.
      * destruct (Hns j1 H1). by rewrite Heq.
      * by apply Hinj.
    + intros nm Hnm. apply Hold. destruct (decide (nm = NStr (names j))) as [->|Hne];
        [rewrite lookup_insert_eq; by eexists|by rewrite lookup_insert_ne].
    + intros nm Hnm. destruct (Hoth nm) as [Hen Hco].
      { intros j' Hj'. apply Hnm. by right. }
      assert (nm ≠ NStr (names j)) as Hne by (apply (Hnm j); by left).
      rewrite Hen, Hco. unfold labrpc.is_enabled. simpl. by rewrite !lookup_insert_ne by done.
Qed.

(** ** Clerks *)

Lemma switch_client_spec endnames yes js : ∀ c c', switch_client endnames js yes c = Done c' →
  ∃ ns, c' = set_w (enable_all ns yes (sf_w c)) c ∧ ∀ s, s ∈ ns ↔ ∃ j, j ∈ js ∧ idx endnames j = Done s.
Proof.
  induction js as [|j js IH]; intros c c' Hc; simpl in Hc.
  - apply Done_inj in Hc as <-. exists []. split; [by destruct c|]. intros s.
    split; [by intros ?%elem_of_nil|]. by intros (j & Hj%elem_of_nil & _).
  - apply bind_Done in Hc as (s0 & Hs0 & Hc). apply IH in Hc as (ns & -> & Hns).
    exists (s0 :: ns). split; [done|]. intros s. rewrite elem_of_cons, exists_cons, Hns, Hs0.
    split; (intros [Hs|Hs]; [left|by right]); congruence.
Qed.

(** Switching the ends of a clerk whose ends have different names. *)
Lemma switch_client_enabled names n yes js c c' j : (j < n)%nat →
  (∀ j j', (j < n)%nat → (j' < n)%nat → names j = names j' → j = j') →
  switch_client (names <$> seq 0 n) js yes c = Done c' →
  labrpc.is_enabled (net c') (NStr (names j)) =
    if decide (Z.of_nat j ∈ js) then yes else labrpc.is_enabled (net c) (NStr (names j)).
Proof.
  intros Hj Hinj (ns & -> & Hns)%switch_client_spec. unfold net. simpl. rewrite enable_all_enabled.
  assert (NStr (names j) ∈ NStr <$> ns ↔ Z.of_nat j ∈ js) as Hiff.
  { rewrite list_elem_of_fmap. split.
    - intros (s & [= <-] & Hs). apply Hns in Hs as (j' & Hj' & [Hpos Hs]%idx_Done).
      apply list_lookup_fmap_Some_1 in Hs as (x & Heq & [-> Hx]%lookup_seq).
      apply Hinj in Heq as ->; [|lia|lia]. replace (Z.of_nat (0 + Z.to_nat j')) with j' by lia. done.
    - intros Hin. exists (names j). split; [done|]. apply Hns. exists (Z.of_nat j). split; [done|].
      apply idx_Done. split; [lia|]. rewrite Nat2Z.id, list_lookup_fmap, lookup_seq_lt by done. done. }
  destruct (decide (NStr (names j) ∈ _)), (decide (Z.of_nat j ∈ js)); tauto.
Qed.

(** ** Restarting a server *)
Section restart.
Context `{Service Cmd, !ServiceLaws Cmd}.

Definition heap c : list (obj Cmd) := ap_heap (mem c).

Lemma service_copy_saved_Done i ps c c' : copy_saved i ps c = Done c' →
  ∃ p, heap c !! ps = Some (OPersister p) ∧ 0 ≤ i < zlen (sf_saved c) ∧
    c' = set_saved (<[Z.to_nat i := Some (length (heap c))]> (sf_saved c))
           (set_mem (with_heap (mem c) (heap c ++ [OPersister p])) c).
Proof.
  unfold copy_saved, copy_persister. intros Hc. apply bind_Done in Hc as ([ps' σ] & Hp & Hc).
  apply bind_Done in Hp as (p & (a & [= <-] & Ha)%persister_at_Done & Hp). unfold alloc in Hp.
  apply Done_inj, pair_equal_spec in Hp as [<- <-]. apply bind_Done in Hc as (saved & [Hi ->]%set_idx_Done & Hc).
  apply Done_inj in Hc as <-. exists p. split_and!; [done|apply Hi..|]. by destruct p.
Qed.

(** [ShutdownServer] on a server that has run. *)
Lemma ShutdownServer_spec i ps p c c' : wired c → in_range c i →
  sf_saved c !! Z.to_nat i = Some (Some ps) → heap c !! ps = Some (OPersister p) →
  ShutdownServer i c = Done c' →
  wired c' ∧ sf_n c' = sf_n c ∧ sf_endnames c' = sf_endnames c ∧
  (∀ a b, linked c' a b ↔ a ≠ i ∧ b ≠ i ∧ linked c a b) ∧
  length (sf_saved c') = length (sf_saved c) ∧
  ∃ ps', sf_saved c' !! Z.to_nat i = Some (Some ps') ∧ (length (heap c) ≤ ps')%nat ∧
    heap c' !! ps' = Some (OPersister p) ∧ (length (heap c) ≤ length (heap c'))%nat.
Proof.
  intros Hw Hi Hs Hp Hc. unfold ShutdownServer in Hc.
  assert (Forall (in_range c) (All c)) as Hall.
  { apply Forall_fmap, Forall_forall. intros j Hj%elem_of_seq. unfold in_range. simpl. lia. }
  destruct (disconnectUnlocked_spec i (All c) c Hw Hi Hall) as (c1 & Hc1 & Hol & Hlink).
  { unfold All, zlen. rewrite length_fmap, length_seq. lia. }
  rewrite Hc1 in Hc. cbn [mbind outcome_bind] in Hc. clear Hc1.
  pose proof (only_links_wired _ _ Hol Hw) as Hw1. destruct Hol as (w1 & -> & Hm & _).
  set (c1 := set_w _ _) in Hc.
  assert (∃ c2, copy_saved i ps c1 = Done c2 ∧
    (let! kv := idx (sf_servers c2) i in
     match kv with
     | Some p => let! σ := sv_kill (mem c2) p in
                 let! servers := set_idx (sf_servers c2) i None in
                 Done (set_servers servers (set_mem σ c2))
     | None => Done c2
     end) = Done c') as (c2 & (p' & Hp' & Hr & ->)%service_copy_saved_Done & Hc').
  { apply bind_Done in Hc as (s & [_ Hs']%idx_Done & Hc). change (sf_saved c1) with (sf_saved c) in Hs'.
    rewrite Hs in Hs'. injection Hs' as <-. apply bind_Done in Hc as (c2 & Hc2 & Hc). eauto. }
  clear Hc. assert (heap c1 = heap c) as Hh1 by (unfold heap, mem; simpl; by rewrite Hm).
  rewrite Hh1 in *. rewrite Hp in Hp'. injection Hp' as <-.
  set (c2 := set_saved _ _) in Hc'.
  assert (wired c2 ∧ ∀ a b, linked c2 a b ↔ a ≠ i ∧ b ≠ i ∧ linked c a b) as [Hw2 Hl2].
  { split; [split; apply Hw1|]. intros a b. change (linked c2 a b) with (linked (set_w w1 c) a b).
    rewrite Hlink. unfold touches, All. split.
    - intros [Hnt (s & Hs' & Hen)]. assert (in_range c a ∧ in_range c b) as [Ha Hb].
      { unfold endname_at in Hs'. apply bind_Done in Hs' as (names & Hn & Hb).
        apply idx_lt in Hn as Ha. apply idx_Done in Hn as [_ Hn]. unfold zlen in Ha. rewrite (wr_len _ Hw) in Ha.
        destruct (wr_all _ Hw (Z.to_nat a)) as (names' & Hn' & Hlen'); [lia|]. rewrite Hn' in Hn. injection Hn as <-.
        apply idx_lt in Hb. unfold zlen, in_range in *. simpl in Hb. lia. }
      assert (∀ x, in_range c x → x ∈ Z.of_nat <$> seq 0 (sf_n c)) as Hin.
      { intros x Hx. unfold in_range in Hx. apply list_elem_of_fmap. exists (Z.to_nat x). rewrite elem_of_seq. lia. }
      split_and!; [intros ->; apply Hnt; left; auto|intros ->; apply Hnt; right; auto|by exists s].
    - intros (Ha & Hb & Hl). split; [|done]. intros [[? _]|[? _]]; done. }
  assert (sf_saved c2 !! Z.to_nat i = Some (Some (length (heap c)))) as Hs2.
  { simpl. apply list_lookup_insert_eq. by eapply lookup_lt_Some. }
  assert (heap c2 !! length (heap c) = Some (OPersister p)) as Hh2.
  { unfold c2, heap, mem. simpl. by rewrite lookup_app_r, Nat.sub_diag by done. }
  assert (length (heap c2) = S (length (heap c))) as Hlen2.
  { unfold c2, heap, mem. simpl. rewrite length_app. simpl. lia. }
  apply bind_Done in Hc' as (kv & _ & Hc'). destruct kv as [q|].
  - apply bind_Done in Hc' as (σ & Hk & Hc'). apply bind_Done in Hc' as (servers & _ & Hc').
    apply Done_inj in Hc' as <-. apply sv_kill_spec in Hk as [Hkl Hkp].
    split_and!; [split; apply Hw2|done|done|done|simpl; apply length_insert|].
    exists (length (heap c)). split_and!; [done|lia|by apply Hkp|].
    unfold heap at 2, mem. simpl. rewrite Hkl. change (ap_heap (mem c2)) with (heap c2). lia.
  - apply Done_inj in Hc' as <-. split_and!; [done|done|done|done|simpl; apply length_insert|].
    exists (length (heap c)). split_and!; [done|lia|done|lia].
Qed.

Lemma endname_at_set c i l a b : 0 ≤ i < zlen (sf_endnames c) →
  endname_at (set_endnames (<[Z.to_nat i := Some l]> (sf_endnames c)) c) a b =
    if decide (a = i) then idx l b else endname_at c a b.
Proof.
  intros Hi. unfold endname_at. simpl.
  assert (set_idx (sf_endnames c) i (Some l) = Done (<[Z.to_nat i := Some l]> (sf_endnames c))) as Hset
    by (by apply set_idx_Done).
  case_decide as Ha.
  - subst. rewrite (idx_set_idx_eq _ _ _ _ Hset). done.
  - by rewrite (idx_set_idx_ne _ _ a _ _ Hset).
Qed.

(** While not all servers are started: the ends that exist are known. *)
Record named c : Prop := {
  nm_len : length (sf_endnames c) = sf_n c;
  nm_inj a b a' b' s : endname_at c a b = Done s → endname_at c a' b' = Done s → a = a' ∧ b = b';
  nm_known a b s : endname_at c a b = Done s → is_Some (labrpc.rn_ends (net c) !! NStr s);
  nm_to a b s : endname_at c a b = Done s → labrpc.rn_connections (net c) !! NStr s = Some (Some (NInt b));
}.
Definition has_row c (i : nat) : Prop :=
  ∃ names, sf_endnames c !! i = Some (Some names) ∧ length names = sf_n c.

Lemma wired_iff c : wired c ↔ named c ∧ ∀ i, (i < sf_n c)%nat → has_row c i.
Proof. split; [intros []; split; [by split|done]|]. by intros [[] ?]. Qed.

(** The ends [StartServer] makes for server [i] when none of its old ends is
    enabled: the servers stay wired, and [i] has no links. *)
Lemma new_row_spec i names c w es : named c → in_range c i → (∀ a b, linked c a b → a ≠ i ∧ b ≠ i) →
  make_ends names (seq 0 (sf_n c)) (sf_w c) = Done (w, es) →
  let c' := set_w w (set_endnames (<[Z.to_nat i := Some (names <$> seq 0 (sf_n c))]> (sf_endnames c)) c) in
  named c' ∧ (∀ a b, linked c' a b ↔ linked c a b) ∧ has_row c' (Z.to_nat i) ∧
  ∀ k, has_row c k → has_row c' k.
Proof.
  intros Hw Hi Hno Hm c'. unfold in_range in Hi. pose proof (nm_len _ Hw) as Hlen.
  apply make_ends_spec in Hm as (_ & _ & _ & _ & Hnew & Hinj & Hold & Hoth); [|apply NoDup_seq].
  assert (∀ a b, endname_at c' a b =
    if decide (a = i) then idx (names <$> seq 0 (sf_n c)) b else endname_at c a b) as Hend.
  { intros a b. apply (endname_at_set c). unfold zlen. lia. }
  assert (∀ b s, idx (names <$> seq 0 (sf_n c)) b = Done s →
    s = names (Z.to_nat b) ∧ Z.to_nat b ∈ seq 0 (sf_n c) ∧ 0 ≤ b) as Hrow.
  { intros b s [Hb Hs]%idx_Done. apply list_lookup_fmap_Some_1 in Hs as (j & -> & [-> Hj]%lookup_seq).
    split_and!; [by rewrite Nat.add_0_l|apply elem_of_seq; lia|done]. }
  assert (∀ a b s, endname_at c a b = Done s → ∀ j, j ∈ seq 0 (sf_n c) → NStr s ≠ NStr (names j)) as Hfresh.
  { intros a b s Hs j Hj [= ->]. destruct (nm_known _ Hw _ _ _ Hs) as [e He].
    destruct (Hnew j Hj) as [Hnone _]. unfold net in He. congruence. }
  assert (has_row c' (Z.to_nat i)) as Hri.
  { eexists. unfold c'. simpl. rewrite list_lookup_insert_eq by lia. split; [done|]. by rewrite length_fmap, length_seq. }
  split_and!; [split| |done|].
  - unfold c'. simpl. by rewrite length_insert.
  - intros a b a' b' s. rewrite !Hend. destruct (decide (a = i)) as [->|Ha], (decide (a' = i)) as [->|Ha'].
    + intros (-> & Hj & Hb)%Hrow (Heq & Hj' & Hb')%Hrow. split; [done|]. apply Hinj in Heq; [lia|done..].
    + intros (-> & Hj & Hb)%Hrow Hs. by destruct (Hfresh _ _ _ Hs _ Hj).
    + intros Hs (-> & Hj & Hb)%Hrow. by destruct (Hfresh _ _ _ Hs _ Hj).
    + apply (nm_inj _ Hw).
  - intros a b s. rewrite Hend. destruct (decide (a = i)) as [->|Ha].
    + intros (-> & Hj & Hb)%Hrow. by apply Hnew.
    + intros Hs. apply Hold. by apply (nm_known _ Hw _ _ _ Hs).
  - intros a b s. rewrite Hend. destruct (decide (a = i)) as [->|Ha].
    + intros (-> & Hj & Hb)%Hrow. destruct (Hnew _ Hj) as (_ & _ & _ & Hc).
      rewrite Z2Nat.id in Hc by done. exact Hc.
    + intros Hs. destruct (Hoth (NStr s) (Hfresh _ _ _ Hs)) as [_ Hc].
      unfold net, c'. simpl. rewrite Hc. by apply (nm_to _ Hw a).
  - intros a b. unfold linked. rewrite Hend. split.
    + intros (s & Hs & Hen). destruct (decide (a = i)) as [->|Ha].
      * apply Hrow in Hs as (-> & Hj & _). destruct (Hnew _ Hj) as (_ & _ & Hf & _).
        unfold net, c' in Hen. simpl in Hen. congruence.
      * exists s. split; [done|]. destruct (Hoth (NStr s) (Hfresh _ _ _ Hs)) as [Heq _].
        unfold net, c' in *. simpl in Hen. congruence.
    + intros (s & Hs & Hen). destruct (Hno a b) as [Ha _]; [by exists s|].
      rewrite decide_False by done. exists s. split; [done|].
      destruct (Hoth (NStr s) (Hfresh _ _ _ Hs)) as [Heq _]. unfold net, c' in *. simpl. congruence.
  - intros k (row & Hk & Hlr). destruct (decide (k = Z.to_nat i)) as [->|Hne]; [done|].
    exists row. unfold c'. simpl. by rewrite list_lookup_insert_ne.
Qed.

(** [StartServer] on a server that was shut down. *)
Lemma StartServer_spec i names ps p c c' : wired c → in_range c i →
  (∀ a b, linked c a b → a ≠ i ∧ b ≠ i) →
  sf_saved c !! Z.to_nat i = Some (Some ps) → heap c !! ps = Some (OPersister p) →
  StartServer i names c = Done c' →
  wired c' ∧ (∀ a b, linked c' a b ↔ linked c a b) ∧
  ∃ q r rf svc kvsvc a rs,
    sf_saved c' !! Z.to_nat i = Some (Some (length (heap c))) ∧
    heap c' !! length (heap c) = Some (OPersister p) ∧
    sf_servers c' !! Z.to_nat i = Some (Some q) ∧ sv_rf (mem c') q = Done r ∧
    heap c' !! r = Some (ORaft rf (length (heap c))) ∧
    labrpc.MakeService (raft_receiver r) = Done svc ∧ labrpc.MakeService (sv_receiver q) = Done kvsvc ∧
    labrpc.server_at (net c') (NInt i) = Some a ∧ labrpc.w_store (sf_w c') !! a = Some rs ∧
    labrpc.rs_services rs = <["Raft" := svc]> {[labrpc.sv_name kvsvc := kvsvc]}.
Proof.
  intros Hw Hi Hno Hs Hp Hc. unfold StartServer in Hc.
  apply bind_Done in Hc as (ens & [_ ->]%set_idx_Done & Hc).
  apply bind_Done in Hc as ([w es] & Hm & Hc). cbn [sf_n set_endnames sf_w] in Hm.
  apply wired_iff in Hw as [Hn Hrows].
  destruct (new_row_spec i names c w es Hn Hi Hno Hm) as (Hn1 & Hl1 & _ & Hrows1).
  apply make_ends_spec in Hm as (Happ & _); [|apply NoDup_seq].
  set (c1 := set_w w _) in Hn1, Hl1, Hrows1, Hc.
  assert (wired c1) as Hw1 by (apply wired_iff; split; [done|]; intros k Hk; by apply Hrows1, Hrows).
  assert (heap c1 = heap c) as Hh1 by (unfold heap, mem; simpl; by rewrite Happ).
  apply bind_Done in Hc as (c2 & Hc2 & Hc). unfold start_saved in Hc2.
  apply bind_Done in Hc2 as (s & [_ Hs']%idx_Done & Hc2). change (sf_saved c1) with (sf_saved c) in Hs'.
  rewrite Hs in Hs'. injection Hs' as <-. apply service_copy_saved_Done in Hc2 as (p' & Hp' & Hlen & ->).
  rewrite Hh1 in *. rewrite Hp in Hp'. injection Hp' as <-. set (c2 := set_saved _ _) in Hc.
  apply bind_Done in Hc as (s & [_ Hs2]%idx_Done & Hc).
  assert (sf_saved c2 !! Z.to_nat i = Some (Some (length (heap c)))) as Hs2'.
  { unfold c2. simpl. apply list_lookup_insert_eq. by eapply lookup_lt_Some. }
  rewrite Hs2' in Hs2. injection Hs2 as <-.
  assert (heap c2 = heap c ++ [OPersister p]) as Hh2 by done.
  apply bind_Done in Hc as ([q σ] & Hst & Hc). apply sv_start_spec in Hst as (rf & o & Hσ & Hq & Hrf).
  change (ap_heap (mem c2)) with (heap c2) in Hσ, Hq, Hrf.
  apply bind_Done in Hc as (servers & [Hserv ->]%set_idx_Done & Hc).
  apply bind_Done in Hc as (kvsvc & Hkv & Hc). apply bind_Done in Hc as (r & Hr & Hc).
  apply bind_Done in Hc as (svc & Hsvc & Hc). apply Done_inj in Hc as <-.
  change (sv_rf σ q = Done r) in Hr. rewrite Hrf in Hr. injection Hr as <-.
  split; [split; apply Hw1|]. split; [exact Hl1|].
  exists q, (length (heap c2)), rf, svc, kvsvc. eexists _, _.
  split_and!; [exact Hs2'| | |exact Hrf| |done|done| | |].
  - change (ap_heap σ !! length (heap c) = Some (OPersister p)). rewrite Hσ, Hh2, <- (assoc_L (++)).
    by rewrite lookup_app_r, Nat.sub_diag by done.
  - simpl. apply list_lookup_insert_eq. unfold zlen in Hserv. simpl in Hserv. lia.
  - change (ap_heap σ !! length (heap c2) = Some (ORaft rf (length (heap c)))). rewrite Hσ.
    by rewrite lookup_app_r, Nat.sub_diag by done.
  - unfold net, add_server. simpl. unfold labrpc.AddServer. rewrite server_at_insert. by rewrite decide_True.
  - simpl. by rewrite lookup_insert_eq.
  - simpl. unfold labrpc.MakeService in Hsvc. apply bind_Done in Hsvc as (ms & _ & Hsvc).
    apply Done_inj in Hsvc as <-. done.
Qed.

(** The first start of a server. *)
Lemma StartServer_first i names c c' : named c → in_range c i → (∀ a b, ¬ linked c a b) →
  StartServer i names c = Done c' →
  named c' ∧ sf_n c' = sf_n c ∧ (∀ a b, ¬ linked c' a b) ∧ has_row c' (Z.to_nat i) ∧
  ∀ k, has_row c k → has_row c' k.
Proof.
  intros Hn Hi Hno Hc. unfold StartServer in Hc. apply bind_Done in Hc as (ens & [_ ->]%set_idx_Done & Hc).
  apply bind_Done in Hc as ([w es] & Hm & Hc). cbn [sf_n set_endnames sf_w] in Hm.
  destruct (new_row_spec i names c w es Hn Hi) as (Hn1 & Hl1 & Hr1 & Hrows1); [by intros a b ?%Hno|done|].
  set (c1 := set_w w _) in Hn1, Hl1, Hr1, Hrows1, Hc.
  apply bind_Done in Hc as (c2 & Hc2 & Hc).
  assert (sf_endnames c2 = sf_endnames c1 ∧ sf_n c2 = sf_n c1 ∧ net c2 = net c1) as (He & Hnn & Hnet).
  { unfold start_saved in Hc2. apply bind_Done in Hc2 as ([ps|] & _ & Hc2).
    - by apply service_copy_saved_Done in Hc2 as (p & _ & _ & ->).
    - unfold alloc in Hc2. apply bind_Done in Hc2 as (saved & _ & Hc2). by apply Done_inj in Hc2 as <-. }
  apply bind_Done in Hc as ([ps|] & _ & Hc); [|done]. apply bind_Done in Hc as ([q σ] & _ & Hc).
  apply bind_Done in Hc as (servers & _ & Hc). apply bind_Done in Hc as (kvsvc & _ & Hc).
  apply bind_Done in Hc as (r & _ & Hc). apply bind_Done in Hc as (svc & _ & Hc). apply Done_inj in Hc as <-.
  destruct c2 as [? w2 ? ? ? ens2 ? ? ? ? ? ? ?]. cbn [sf_endnames sf_n] in He, Hnn. subst.
  unfold net in Hnet. cbn [sf_w] in Hnet.
  assert (∀ a b, ¬ linked c1 a b) as Hno1 by (intros a b ?%Hl1; by apply (Hno a b)).
  split_and!; [|done| |done|done].
  - split; unfold net; simpl; rewrite ?Hnet; apply Hn1.
  - intros a b (s & Hs & Hen). unfold net in Hen. cbn in Hen. rewrite Hnet in Hen.
    apply (Hno1 a b). by exists s.
Qed.

Lemma start_each_wired names ids : ∀ c c', named c → Forall (λ i, i < sf_n c)%nat ids →
  (∀ a b, ¬ linked c a b) → start_each names ids c = Done c' →
  named c' ∧ sf_n c' = sf_n c ∧ (∀ a b, ¬ linked c' a b) ∧ ∀ k, k ∈ ids ∨ has_row c k → has_row c' k.
Proof.
  induction ids as [|i ids IH]; intros c c' Hn Hids Hno Hs; simpl in Hs.
  - apply Done_inj in Hs as <-. split_and!; [done..|]. by intros k [?%elem_of_nil|?].
  - apply Forall_cons in Hids as [Hi Hids]. apply bind_Done in Hs as (c1 & H1 & Hs).
    apply StartServer_first in H1 as (Hn1 & Hnn & Hno1 & Hr1 & Hk1); [|done|unfold in_range; lia|done].
    rewrite Nat2Z.id in Hr1. apply IH in Hs as (Hn' & Hnn' & Hno' & Hk'); [|done|by rewrite Hnn|done].
    split_and!; [done|congruence|done|]. intros k [[->|Hk]%elem_of_cons|Hk]; auto.
Qed.

Lemma connect_each_spec ids : ∀ c, wired c → Forall (in_range c) ids →
  ∃ c', connect_each ids c = Done c' ∧ only_links c c' ∧ (∀ a b, linked c a b → linked c' a b) ∧
    ∀ a b, (a ∈ ids ∨ b ∈ ids) → in_range c a → in_range c b → linked c' a b.
Proof.
  induction ids as [|i ids IH]; intros c Hw Hids; cbn [connect_each].
  - exists c. split_and!; [done|apply only_links_refl|done|]. by intros a b [?%elem_of_nil|?%elem_of_nil].
  - apply Forall_cons in Hids as [Hi Hids].
    assert (∀ x, in_range c x → x ∈ All c) as Hall.
    { intros x Hx. unfold in_range in Hx. apply list_elem_of_fmap. exists (Z.to_nat x). rewrite elem_of_seq. lia. }
    destruct (connectUnlocked_spec i (All c) c Hw Hi) as (c1 & -> & Hol1 & Hl1).
    { apply Forall_fmap, Forall_forall. intros j Hj%elem_of_seq. unfold in_range. simpl. lia. }
    cbn [mbind outcome_bind]. pose proof (only_links_wired _ _ Hol1 Hw) as Hw1.
    assert (sf_n c1 = sf_n c) as Hn1 by (by destruct Hol1 as (w & -> & _)).
    assert (∀ x, in_range c1 x ↔ in_range c x) as Hr1 by (intros x; unfold in_range; by rewrite Hn1).
    destruct (IH c1 Hw1) as (c' & -> & Hol' & Hmono & Hl').
    { eapply Forall_impl; [exact Hids|]. intros x. apply Hr1. }
    assert (∀ a b, linked c a b → linked c1 a b) as Hmono1.
    { intros a b Hab. apply Hl1. pose proof Hab as (s & Hs & _). eauto. }
    exists c'. split; [done|]. split; [by eapply only_links_trans|]. split; [by auto|]. intros a b Hab Ha Hb.
    destruct (decide (a ∈ ids ∨ b ∈ ids)) as [Hin|Hni]; [by apply Hl'; rewrite ?Hr1|].
    apply Hmono, Hl1. split; [by apply wired_end|]. left. unfold touches.
    destruct Hab as [[->|?]%elem_of_cons|[->|?]%elem_of_cons]; auto; tauto.
Qed.

(** After [make_config] all servers are started and linked. *)
Lemma make_config_wired w n u maxraft names c : make_config w n u maxraft names = Done c →
  wired c ∧ sf_n c = n ∧ ∀ a b, in_range c a → in_range c b → linked c a b.
Proof.
  intros Hc. unfold make_config in Hc. apply bind_Done in Hc as (c1 & H1 & Hc).
  assert (∀ a b s, endname_at (new_config w n maxraft) a b ≠ Done s) as Hnone.
  { intros a b s Hs. unfold endname_at in Hs. apply bind_Done in Hs as (row & [_ Hrow]%idx_Done & Hs).
    simpl in Hrow. apply lookup_replicate in Hrow as [-> _]. by apply idx_Done in Hs as [_ ?]. }
  apply start_each_wired in H1 as (Hn1 & Hnn & _ & Hk).
  2:{ split; [apply length_replicate|intros a b a' b' s Hs|intros a b s Hs|intros a b s Hs];
        by destruct (Hnone _ _ _ Hs). }
  2:{ apply Forall_forall. intros i Hi%elem_of_seq. simpl. lia. }
  2:{ intros a b (s & Hs & _). by apply (Hnone a b s). }
  simpl in Hnn. assert (wired c1) as Hw1.
  { apply wired_iff. split; [done|]. intros i Hi. apply Hk. left. apply elem_of_seq. lia. }
  apply bind_Done in Hc as (c2 & H2 & Hc). apply Done_inj in Hc as <-. unfold ConnectAll in H2.
  destruct (connect_each_spec (All c1) c1 Hw1) as (c2' & H2' & Hol & _ & Hl).
  { apply Forall_fmap, Forall_forall. intros j Hj%elem_of_seq. unfold in_range. simpl. lia. }
  rewrite H2 in H2'. injection H2' as <-. pose proof (only_links_wired _ _ Hol Hw1) as Hw2.
  assert (sf_n c2 = n) as Hn2 by (destruct Hol as (w' & -> & _); exact Hnn).
  split_and!; [split; apply Hw2|done|]. intros a b Ha Hb. unfold in_range in Ha, Hb. simpl in Ha, Hb.
  rewrite Hn2 in Ha, Hb. destruct (Hl a b) as (s & Hs & Hen); [|unfold in_range; rewrite Hnn; lia..|by exists s].
  left. apply list_elem_of_fmap. exists (Z.to_nat a). rewrite elem_of_seq. lia.
Qed.
End restart.
End facts.
