(* ===== verification/KvRaftConfigTheorems.v ===== *)
(** * What the harnesses of the replicated services guarantee

    Partitions, restarts and clerks of kvraft/config.go and
    shardctrler/config.go. *)

From Stdlib Require Import Ascii.
From S2P Require Import Prelude Persister Raft LabRpc Harness HarnessFacts LabServers KvRaftConfig KvRaftConfigFacts.
Import kvcfg.
Open Scope Z_scope.

Section theorems.
Context {Cmd : Type}.
Implicit Types c : config Cmd.

Lemma Leader_range `{Service Cmd} c ids b l : Leader_loop c ids = Done (b, l) →
  l = 0 ∨ ∃ i, i ∈ ids ∧ l = Z.of_nat i.
Proof.
  induction ids as [|i ids IH]; intros Hl; simpl in Hl; [left; by simplify_eq|].
  apply bind_Done in Hl as ([p|] & _ & Hl); [|done]. apply bind_Done in Hl as (rf & _ & Hl).
  apply bind_Done in Hl as ([t lead] & _ & Hl). destruct lead.
  - simplify_eq. right. exists i. split; [by left|done].
  - destruct (IH Hl) as [->|(k & Hk & ->)]; [by left|right; exists k; split; [by right|done]].
Qed.

Lemma ctrl_Leader_range c ids b l : ctrlcfg.Leader_loop c ids = Done (b, l) →
  l = 0 ∨ ∃ i, i ∈ ids ∧ l = Z.of_nat i.
Proof.
  assert (∀ i ids', l = 0 ∨ (∃ k : nat, k ∈ ids' ∧ l = Z.of_nat k) →
    l = 0 ∨ ∃ k : nat, k ∈ i :: ids' ∧ l = Z.of_nat k) as Hcons.
  { intros i ids' [->|(k & Hk & ->)]; [by left|right; exists k; split; [by right|done]]. }
  induction ids as [|i ids IH]; intros Hl; simpl in Hl; [left; by simplify_eq|].
  apply bind_Done in Hl as ([p|] & _ & Hl); [|by apply Hcons, IH].
  apply bind_Done in Hl as (rf & _ & Hl). apply bind_Done in Hl as ([t lead] & _ & Hl). destruct lead.
  - simplify_eq. right. exists i. split; [by left|done].
  - by apply Hcons, IH.
Qed.

(** The effect of a partition by [make_partition] with leader [l]: two sides that
    are linked inside and not across, with [l] in the minority. *)
Definition leader_isolated c (l : Z) (mp : outcome (list Z * list Z)) : Prop :=
  ∃ p1 p2 c', mp = Done (p1, p2) ∧ partition p1 p2 c = Done c' ∧ only_links c c' ∧
    p1 ++ p2 ≡ₚ All c ∧ l ∈ p2 ∧ (2 * length p2 < sf_n c)%nat ∧
    ∀ a b, in_range c a → in_range c b →
      (linked c' a b ↔ (a ∈ p1 ∧ b ∈ p1) ∨ (a ∈ p2 ∧ b ∈ p2)).

Lemma split_isolates k l c : wired c → sf_n c = (2 * k + 1)%nat → (1 ≤ k)%nat → in_range c l →
  leader_isolated c l (split_at_leader (sf_n c) l).
Proof.
  intros Hw Hn Hk Hl. unfold in_range in Hl. rewrite Hn in *.
  destruct (split_at_leader_spec k (Z.to_nat l)) as (p1 & p2 & Hs & Hp & Hl1 & Hl2 & Hin); [done|lia|].
  rewrite Z2Nat.id in Hs, Hin by lia.
  assert (All c = Z.of_nat <$> seq 0 (2 * k + 1)) as Hall by (unfold All; by rewrite Hn).
  assert (∀ x, x ∈ p1 ++ p2 ↔ in_range c x) as Hmem.
  { intros x. rewrite Hp, list_elem_of_fmap. unfold in_range. rewrite Hn. split.
    - intros (j & -> & Hj%elem_of_seq). lia.
    - intros Hx. exists (Z.to_nat x). rewrite elem_of_seq. lia. }
  assert (NoDup (p1 ++ p2)) as (Hnd1 & Hdisj & Hnd2)%NoDup_app.
  { rewrite Hp. apply NoDup_fmap; [apply _|apply NoDup_seq]. }
  destruct (partition_spec p1 p2 c Hw) as (c' & Hpart & Hol & Hlinks); [..|done|done|exact Hdisj|].
  { apply Forall_forall. intros x Hx. apply Hmem, elem_of_app. by left. }
  { apply Forall_forall. intros x Hx. apply Hmem, elem_of_app. by right. }
  exists p1, p2, c'. split_and!; [done..|by rewrite Hall|done|lia|].
  intros a b Ha Hb. rewrite Hlinks. pose proof (wired_end c a b Hw Ha Hb) as Hend.
  apply Hmem, elem_of_app in Ha. apply Hmem, elem_of_app in Hb. tauto.
Qed.

(** Partitions put the leader in the minority.  With an odd number of
    servers, at least three, [make_partition] after [Leader] names two sides that
    together are all servers, the leader (or server 0 when there is none) is in
    the smaller side, and [partition] then leaves exactly the ends inside a side
    enabled, whatever was connected before; so it is for both services. *)
Theorem partition_leader_minority `{Service Cmd} k c :
  wired c → sf_n c = (2 * k + 1)%nat → (1 ≤ k)%nat →
  (∀ b l, Leader c = Done (b, l) → leader_isolated c l (make_partition c)) ∧
  (∀ b l, ctrlcfg.Leader c = Done (b, l) → leader_isolated c l (ctrlcfg.make_partition c)).
Proof.
  intros Hw Hn Hk. split; intros b l Hl.
  - unfold make_partition. rewrite Hl. cbn [mbind outcome_bind]. apply (split_isolates k); [done..|].
    apply Leader_range in Hl as [->|(i & Hi%elem_of_seq & ->)]; unfold in_range; lia.
  - unfold ctrlcfg.make_partition. rewrite Hl. cbn [mbind outcome_bind]. apply (split_isolates k); [done..|].
    apply ctrl_Leader_range in Hl as [->|(i & Hi%elem_of_seq & ->)]; unfold in_range; lia.
Qed.

(** Restarting a server.  After [ShutdownServer] and [StartServer], for
    every service behind the interface, the ends to and from the old instance stay
    disabled, the new instance has ends of its own that are not connected yet, the
    links of the other servers are as before; the new peer gets a fresh persister
    with the state saved last, and the network leads to the new server and its
    peer. *)
Theorem service_restart `{Service Cmd, !ServiceLaws Cmd} c c1 c2 i names ps p :
  wired c → in_range c i → sf_saved c !! Z.to_nat i = Some (Some ps) →
  heap c !! ps = Some (OPersister p) →
  ShutdownServer i c = Done c1 → StartServer i names c1 = Done c2 →
  wired c2 ∧ (∀ a b, linked c2 a b ↔ a ≠ i ∧ b ≠ i ∧ linked c a b) ∧
  ∃ ps2 q r rf svc kvsvc a rs,
    (length (heap c) ≤ ps2)%nat ∧ sf_saved c2 !! Z.to_nat i = Some (Some ps2) ∧
    heap c2 !! ps2 = Some (OPersister p) ∧
    sf_servers c2 !! Z.to_nat i = Some (Some q) ∧ sv_rf (mem c2) q = Done r ∧
    heap c2 !! r = Some (ORaft rf ps2) ∧
    labrpc.MakeService (raft_receiver r) = Done svc ∧ labrpc.MakeService (sv_receiver q) = Done kvsvc ∧
    labrpc.server_at (net c2) (NInt i) = Some a ∧ labrpc.w_store (sf_w c2) !! a = Some rs ∧
    labrpc.rs_services rs = <["Raft" := svc]> {[labrpc.sv_name kvsvc := kvsvc]}.
Proof.
  intros Hw Hi Hs Hp H1 H2.
  destruct (ShutdownServer_spec i ps p c c1 Hw Hi Hs Hp H1) as
    (Hw1 & Hn1 & _ & Hl1 & _ & ps1 & Hs1 & _ & Hp1 & Hlen).
  assert (in_range c1 i) as Hi1 by (unfold in_range in *; by rewrite Hn1).
  destruct (StartServer_spec i names ps1 p c1 c2 Hw1 Hi1) as
    (Hw2 & Hl2 & q & r & rf & svc & kvsvc & a & rs & Hrest); [|done..|].
  { intros x y Hxy. apply Hl1 in Hxy as (? & ? & _). done. }
  split; [done|]. split; [intros x y; by rewrite Hl2, Hl1|].
  exists (length (heap c1)), q, r, rf, svc, kvsvc, a, rs. split; [done|]. exact Hrest.
Qed.

(** The ends of a clerk.  [makeClient] gives the clerk one end to every
    server, in some order; enabled are exactly the ends to the servers in [to],
    and after [DisconnectClient] exactly those that are not in [from]; the ends of
    others are left alone. *)
Theorem client_links names draws to from c c' c'' ck :
  makeClient names draws to c = Done (c', ck) → DisconnectClient ck from c' = Done c'' →
  (∃ hs, heap c' !! ck = Some (OClerk (MkClerk hs)) ∧
     hs ≡ₚ ((λ j, labrpc.MkClientEnd (NStr (names j))) <$> seq 0 (sf_n c))) ∧
  (∀ j, (j < sf_n c)%nat →
     labrpc.rn_connections (net c') !! NStr (names j) = Some (Some (NInt (Z.of_nat j))) ∧
     labrpc.is_enabled (net c') (NStr (names j)) = bool_decide (Z.of_nat j ∈ to) ∧
     labrpc.is_enabled (net c'') (NStr (names j)) = bool_decide (Z.of_nat j ∈ to ∧ Z.of_nat j ∉ from)) ∧
  (∀ nm, (∀ j, (j < sf_n c)%nat → nm ≠ NStr (names j)) →
     labrpc.is_enabled (net c'') nm = labrpc.is_enabled (net c) nm).
Proof.
  intros Hmk Hdis. unfold makeClient in Hmk. apply bind_Done in Hmk as ([w es] & Hm & Hmk).
  apply make_ends_spec in Hm as (Happ & _ & _ & -> & Hnew & Hinj & _ & Hoth); [|apply NoDup_seq].
  apply bind_Done in Hmk as (hs & Hhs & Hmk).
  match type of Hhs with random_handles _ ?l = _ =>
    destruct (random_handles_perm draws l) as (hs' & Hhs' & Hperm) end.
  rewrite Hhs in Hhs'. injection Hhs' as <-.
  unfold MakeClerk, alloc in Hmk. cbn [sf_n set_w set_mem sf_clerks] in Hmk.
  set (ck0 := length _) in Hmk. apply bind_Done in Hmk as (c1 & Hc1 & Hmk).
  apply Done_inj, pair_equal_spec in Hmk as [<- <-].
  unfold ConnectClientUnlocked in Hc1. cbn [sf_clerks set_clerks] in Hc1. rewrite lookup_insert_eq in Hc1.
  cbn [default from_option id] in Hc1. set (c0 := set_clerks _ _ _) in Hc1.
  assert (∀ j j', (j < sf_n c)%nat → (j' < sf_n c)%nat → names j = names j' → j = j') as Hi.
  { intros j j' Hj Hj'. apply Hinj; apply elem_of_seq; lia. }
  pose proof (λ j Hj, switch_client_enabled names (sf_n c) true to c0 c1 j Hj Hi Hc1) as Hen1.
  unfold DisconnectClient, DisconnectClientUnlocked in Hdis.
  apply switch_client_spec in Hc1 as (n1 & -> & Hn1). cbn [sf_clerks set_w] in Hdis.
  unfold c0 at 1 in Hdis. cbn [sf_clerks set_clerks] in Hdis. rewrite lookup_insert_eq in Hdis.
  cbn [default from_option id] in Hdis.
  pose proof (λ j Hj, switch_client_enabled names (sf_n c) false from _ c'' j Hj Hi Hdis) as Hen2.
  apply switch_client_spec in Hdis as (n2 & -> & Hn2).
  destruct (enable_all_frame n1 true (sf_w c0)) as (Ha & _ & _ & Hco & _).
  split_and!.
  - exists hs. split; [|done]. unfold heap, mem, ck0. cbn [sf_w set_w]. rewrite Ha. simpl.
    by rewrite lookup_app_r, Nat.sub_diag by done.
  - intros j Hj. destruct (Hnew j) as (_ & _ & Hf & Hcj); [apply elem_of_seq; lia|]. split_and!.
    + unfold net. cbn [sf_w set_w]. rewrite Hco. exact Hcj.
    + rewrite Hen1 by done. change (net c0) with (labrpc.w_net w). rewrite Hf.
      by destruct (decide _) as [?|?]; [rewrite bool_decide_eq_true_2|rewrite bool_decide_eq_false_2].
    + rewrite Hen2, Hen1 by done. change (net c0) with (labrpc.w_net w). rewrite Hf. symmetry.
      destruct (decide (Z.of_nat j ∈ from)), (decide (Z.of_nat j ∈ to));
        [rewrite bool_decide_eq_false_2|rewrite bool_decide_eq_false_2
        |rewrite bool_decide_eq_true_2|rewrite bool_decide_eq_false_2]; tauto.
  - intros nm Hnm.
    assert (∀ (l : list Z) (ns : list string), (∀ s, s ∈ ns ↔ ∃ j, j ∈ l ∧ idx (names <$> seq 0 (sf_n c)) j = Done s) →
      nm ∉ NStr <$> ns) as Hout.
    { intros l ns Hns (s & -> & Hs)%list_elem_of_fmap. apply Hns in Hs as (j & _ & [Hpos Hs]%idx_Done).
      apply list_lookup_fmap_Some_1 in Hs as (x & -> & [-> Hx]%lookup_seq). by apply (Hnm (0 + Z.to_nat j)%nat). }
    unfold net. simpl. rewrite !enable_all_enabled.
    destruct (decide (nm ∈ NStr <$> n2)) as [Hin|_]; [by destruct (Hout from n2 Hn2)|].
    destruct (decide (nm ∈ NStr <$> n1)) as [Hin|_]; [by destruct (Hout to n1 Hn1)|].
    apply (Hoth nm). intros j Hj%elem_of_seq. apply Hnm. lia.
Qed.
End theorems.

(** ** Concrete configs *)
Module demo_service.

Definition world0 : world nat := labrpc.init (MkApp 0 []).
Definition names (i j : nat) : string :=
  String (ascii_of_nat (97 + i)) (String (ascii_of_nat (97 + j)) "").
Definition name3 (j : nat) : string := String "c" (names 0 j).

(** Three servers of kvraft, all linked; then server 1 shut down and started
    again. *)
Definition three : config nat := get (new_config world0 3 (-1)) (make_config world0 3 false (-1) names).
Definition down : config nat := get three (ShutdownServer 1 three).
Definition again : config nat := get three (StartServer 1 name3 down).

Lemma three_done : make_config world0 3 false (-1) names = Done three.
Proof. apply get_Done. vm_compute. reflexivity. Qed.
Lemma three_wired : wired three ∧ sf_n three = 3%nat.
Proof. destruct (make_config_wired _ _ _ _ _ _ three_done) as (Hw & Hn & _). by split. Qed.

End demo_service.
Import demo_service.

Lemma partition_leader_minority_witness :
  wired three ∧ sf_n three = (2 * 1 + 1)%nat ∧ leader_isolated three 0 (make_partition three).
Proof.
  destruct three_wired as [Hw Hn]. split; [exact Hw|]. split; [exact Hn|].
  apply (proj1 (partition_leader_minority 1 three Hw Hn (le_n 1)) false 0). vm_compute. reflexivity.
Defined.

Lemma service_restart_witness :
  wired again ∧ ∀ a b, linked again a b ↔ a ≠ 1 ∧ b ≠ 1 ∧ linked three a b.
Proof.
  destruct three_wired as [Hw Hn].
  refine (let H := service_restart three down again 1 name3 3 persister.MakePersister Hw _ _ _ _ _ in
          conj (proj1 H) (proj1 (proj2 H))).
  - unfold in_range. rewrite Hn. split; reflexivity || discriminate.
  - vm_compute. reflexivity.
  - vm_compute. reflexivity.
  - apply get_Done. vm_compute. reflexivity.
  - apply get_Done. vm_compute. reflexivity.
Defined.

Lemma client_links_witness :
  ∃ c' c'' ck, makeClient name3 (λ _, 0) [0; 1] three = Done (c', ck) ∧
    DisconnectClient ck [1] c' = Done c'' ∧
    labrpc.is_enabled (net c'') (NStr (name3 0)) = true ∧
    labrpc.is_enabled (net c'') (NStr (name3 1)) = false.
Proof.
  set (m := makeClient name3 (λ _, 0) [0; 1] three).
  set (r := get (three, 0%nat) m).
  assert (m = Done (r.1, r.2)) as Hm.
  { transitivity (Done r); [apply get_Done; vm_compute; reflexivity|]. by destruct r. }
  set (c'' := get three (DisconnectClient r.2 [1] r.1)).
  assert (DisconnectClient r.2 [1] r.1 = Done c'') as Hd by (apply get_Done; vm_compute; reflexivity).
  exists r.1, c'', r.2. split; [exact Hm|]. split; [exact Hd|].
  destruct (client_links name3 (λ _, 0) [0; 1] [1] three r.1 c'' r.2 Hm Hd) as (_ & He & _).
  assert (sf_n three = 3%nat) as Hn by apply three_wired.
  destruct (He 0%nat) as (_ & _ & ->); [lia|]. destruct (He 1%nat) as (_ & _ & ->); [lia|].
  split; vm_compute; reflexivity.
Defined.

(** An even number of servers: the unused slot of the smaller side is server 0,
    which then is in both sides. *)
Example even_partition_overlaps :
  split_at_leader 4 1 = Done ([0; 2; 3], [0; 1]) ∧ split_at_leader 1 0 = Panic "index out of range".
Proof. split; vm_compute; reflexivity. Qed.

(** [Leader] of kvraft panics on a server that is shut down, that of shardctrler
    does not. *)
Example leader_of_stopped_server : Leader down = Panic "nil pointer dereference" .
Proof. vm_compute. reflexivity. Qed.
