(* ===== verification/KvSrvConfig.v ===== *)
(** * The test harness of the key-value server (kvsrv/config.go)

    The harness puts the server of KvSrv.v on the network of LabRpc.v: the
    handlers are methods that labrpc calls on the memory of the process.  Draws
    of [randstring] and of the client ids are arguments; [os.Remove] of files
    that do not exist is left out. *)

From S2P Require Import Prelude LabRpc Harness KvSrv.
Open Scope Z_scope.

Definition SERVERID : Z := 0.

(** ** The server as a receiver *)

Inductive kobj :=
  | KServer (kv : KVServer)
  | KClerk (end_ : ClientEnd) (ck : Clerk).

(** The memory of the process and its clock. *)
Record kapp := MkKapp { ka_now : Z; ka_heap : list kobj }.

Definition kalloc (σ : kapp) (o : kobj) : nat * kapp :=
  (length (ka_heap σ), MkKapp (ka_now σ) (ka_heap σ ++ [o])).

Definition kserver_at (σ : kapp) (p : nat) : outcome KVServer :=
  match ka_heap σ !! p with Some (KServer kv) => Done kv | _ => nil_pointer end.
Definition kstore (σ : kapp) (p : nat) (kv : KVServer) : kapp :=
  MkKapp (ka_now σ) (<[p := KServer kv]> (ka_heap σ)).

Inductive kvalue :=
  | KPtr (p : nat)
  | KGetArgs (a : GetArgs) | KGetReply (r : GetReply)
  | KPutAppendArgs (a : PutAppendArgs) | KPutAppendReply (r : PutAppendReply)
  | KStruct (ty : string).

Definition Get_func (rcvr args reply : kvalue) (σ : kapp) : outcome (kapp * kvalue) :=
  match rcvr, args with
  | KPtr p, KGetArgs a =>
      let! kv := kserver_at σ p in
      let '(kv', r) := kvsrv.Get kv a in
      Done (kstore σ p kv', KGetReply r)
  | _, _ => wrong_type
  end.

(** [Put] or [Append]. *)
Definition PutAppend_func (h : KVServer → PutAppendArgs → KVServer * PutAppendReply)
    (rcvr args reply : kvalue) (σ : kapp) : outcome (kapp * kvalue) :=
  match rcvr, args with
  | KPtr p, KPutAppendArgs a =>
      let! kv := kserver_at σ p in
      let '(kv', r) := h kv a in
      Done (kstore σ p kv', KPutAppendReply r)
  | _, _ => wrong_type
  end.

Definition ptr_KVServer : @labrpc.rtype kvalue := labrpc.PtrTo (KStruct "KVServer").
Definition zero_put : @labrpc.rtype kvalue := labrpc.PtrTo (KPutAppendArgs (MkPutAppendArgs "" "" 0 0)).
Definition zero_put_reply : @labrpc.rtype kvalue := labrpc.PtrTo (KPutAppendReply (MkPutAppendReply "")).

(** The exported methods of [*KVServer], in the order of [reflect]. *)
Definition kvsrv_methods : list (@labrpc.Method kvalue kapp) :=
  [ labrpc.MkMethod "" "Append" [ptr_KVServer; zero_put; zero_put_reply] 0 (PutAppend_func kvsrv.Append);
    labrpc.MkMethod "" "Get"
      [ptr_KVServer; labrpc.PtrTo (KGetArgs (MkGetArgs "" 0 0)); labrpc.PtrTo (KGetReply (MkGetReply ""))] 0
      Get_func;
    labrpc.MkMethod "" "Put" [ptr_KVServer; zero_put; zero_put_reply] 0 (PutAppend_func kvsrv.Put) ].

Definition kvsrv_receiver (p : nat) : @labrpc.receiver kvalue kapp :=
  labrpc.MkReceiver (KPtr p) "KVServer" kvsrv_methods.

Module kvsrvcfg.

Notation kworld := (@labrpc.world name _ _ kvalue kapp).

Record config := MkConfig {
  ks_failed : bool;                       (* [t.Failed()] *)
  ks_w : kworld;
  ks_kvserver : option nat;
  ks_clerks : gmap nat string;
  ks_nextClientId : Z;
  ks_start : Z;
  ks_t0 : Z;
  ks_rpcs0 : Z;
  ks_ops : Z;
}.
Implicit Types c : config.

Definition set_w w c := MkConfig (ks_failed c) w (ks_kvserver c) (ks_clerks c) (ks_nextClientId c)
  (ks_start c) (ks_t0 c) (ks_rpcs0 c) (ks_ops c).
Definition set_kvserver x c := MkConfig (ks_failed c) (ks_w c) x (ks_clerks c) (ks_nextClientId c)
  (ks_start c) (ks_t0 c) (ks_rpcs0 c) (ks_ops c).
Definition set_clerks x id c := MkConfig (ks_failed c) (ks_w c) (ks_kvserver c) x id
  (ks_start c) (ks_t0 c) (ks_rpcs0 c) (ks_ops c).
Definition set_stats t0 rpcs0 ops c := MkConfig (ks_failed c) (ks_w c) (ks_kvserver c) (ks_clerks c)
  (ks_nextClientId c) (ks_start c) t0 rpcs0 ops.

Definition net c : Network := labrpc.w_net (ks_w c).
Definition mem c : kapp := labrpc.w_app (ks_w c).
Definition now c : Z := ka_now (mem c).
Definition set_net rn c : config := set_w (labrpc.with_net (ks_w c) rn) c.
Definition set_mem σ c : config :=
  set_w (labrpc.MkWorld (labrpc.w_net (ks_w c)) (labrpc.w_loop (ks_w c)) (labrpc.w_store (ks_w c)) σ
           (labrpc.w_calls (ks_w c)) (labrpc.w_log (ks_w c))) c.

Definition checkTimeout c : outcome unit :=
  if negb (ks_failed c) && (120 * 1000 <? now c - ks_start c)
  then Fatal "test took longer than 120 seconds" else Done tt.

Definition cleanup c : outcome config :=
  let! rn := labrpc.Cleanup (net c) in
  let c := set_net rn c in
  let! _ := checkTimeout c in
  Done c.

(** A clerk that is not in the map has the empty name. *)
Definition ConnectClientUnlocked (ck : nat) c : config :=
  let endname := default "" (ks_clerks c !! ck) in
  set_net (labrpc.Enable (net c) (NStr endname) true) c.
Definition ConnectClient (ck : nat) c : config := ConnectClientUnlocked ck c.

Definition makeClient (endname : string) (rand : Z) c : outcome (config * nat) :=
  let! '(rn, e) := labrpc.MakeEnd (net c) (NStr endname) in
  let c := set_net (labrpc.Connect rn (NStr endname) (NInt SERVERID)) c in
  let '(ck, σ) := kalloc (mem c) (KClerk e (clerk.MakeClerk rand)) in
  let c := set_mem σ c in
  let c := set_clerks (<[ck := endname]> (ks_clerks c)) (ks_nextClientId c + 1) c in
  Done (ConnectClientUnlocked ck c, ck).

Definition deleteClient (ck : nat) c : outcome config :=
  let v := default "" (ks_clerks c !! ck) in
  let! rn := labrpc.DeleteEnd (net c) (NStr v) in
  let c := set_net rn c in
  Done (set_clerks (delete ck (ks_clerks c)) (ks_nextClientId c) c).

Definition StartServer c : outcome config :=
  let '(kv, σ) := kalloc (mem c) (KServer kvsrv.StartKVServer) in
  let c := set_kvserver (Some kv) (set_mem σ c) in
  let! kvsvc := labrpc.MakeService (kvsrv_receiver kv) in
  let srv := fresh (dom (labrpc.w_store (ks_w c))) in
  let rs := labrpc.AddService labrpc.MakeServer kvsvc in
  let w := labrpc.with_store (ks_w c) (<[srv := rs]> (labrpc.w_store (ks_w c))) in
  Done (set_w (labrpc.with_net w (labrpc.AddServer (labrpc.w_net w) (NInt 0) srv)) c).

Definition make_config (w : kworld) (unreliable : bool) : outcome config :=
  let c := MkConfig false (labrpc.with_net w labrpc.MakeNetwork) None ∅ (SERVERID + 1)
             (ka_now (labrpc.w_app w)) 0 0 0 in
  let! c := StartServer c in
  Done (set_net (labrpc.Reliable (net c) (negb unreliable)) c).

Definition rpcTotal c : Z := labrpc.GetTotalCount (net c).
Definition begin c : config := set_stats (now c) (rpcTotal c) 0 c.
(** [atomic.AddInt32(&cfg.ops, 1)] *)
Definition op c : config := set_stats (ks_t0 c) (ks_rpcs0 c) (wrap 32 (ks_ops c + 1)) c.

(** The numbers printed by [end]: time, RPCs and operations. *)
Definition end_ c : outcome (option (Z * Z * Z)) :=
  let! _ := checkTimeout c in
  if negb (ks_failed c) then Done (Some (now c - ks_t0 c, rpcTotal c - ks_rpcs0 c, ks_ops c))
  else Done None.

End kvsrvcfg.
