(* ===== verification/KvSrvConfigTheorems.v ===== *)
(** * The network around the key-value server

    For every history of clerks that are made, deleted and connected by
    kvsrv/config.go: the requests of exactly the live clerks reach the handlers
    of KvSrv.v. *)

From S2P Require Import Prelude LabRpc Harness HarnessFacts KvSrv KvSrvConfig.
Import kvsrvcfg.
Open Scope Z_scope.

Section kvsrv_config.
Implicit Types c : config.

Definition heap c : list kobj := ka_heap (mem c).

(** The other goroutines: RPCs travel, handlers run, objects keep their type. *)
Record background c c' : Prop := {
  bg_fields : ks_clerks c' = ks_clerks c ∧ ks_kvserver c' = ks_kvserver c;
  bg_net : labrpc.rn_ends (net c') = labrpc.rn_ends (net c) ∧
    labrpc.rn_enabled (net c') = labrpc.rn_enabled (net c) ∧
    labrpc.rn_connections (net c') = labrpc.rn_connections (net c) ∧
    labrpc.rn_servers (net c') = labrpc.rn_servers (net c);
  bg_store a rs : labrpc.w_store (ks_w c) !! a = Some rs → ∃ rs',
    labrpc.w_store (ks_w c') !! a = Some rs' ∧ labrpc.rs_services rs' = labrpc.rs_services rs;
  bg_length : (length (heap c) ≤ length (heap c'))%nat;
  bg_server p kv : heap c !! p = Some (KServer kv) → ∃ kv', heap c' !! p = Some (KServer kv');
}.

(** Tests delete and connect clerks that they have made. *)
Inductive step c : config → Prop :=
  | step_make e r c' ck : makeClient e r c = Done (c', ck) → step c c'
  | step_delete ck s c' : ks_clerks c !! ck = Some s → deleteClient ck c = Done c' → step c c'
  | step_connect ck s : ks_clerks c !! ck = Some s → step c (ConnectClient ck c)
  | step_background c' : background c c' → step c c'.

Inductive reach : config → Prop :=
  | reach_make w u c : make_config w u = Done c → reach c
  | reach_step c c' : reach c → step c c' → reach c'.

(** The server that the network leads to. *)
Definition serves c : Prop := ∃ p kv a rs svc,
  ks_kvserver c = Some p ∧ heap c !! p = Some (KServer kv) ∧
  labrpc.server_at (net c) (NInt 0) = Some a ∧ labrpc.w_store (ks_w c) !! a = Some rs ∧
  labrpc.rs_services rs !! "KVServer" = Some svc ∧ labrpc.MakeService (kvsrv_receiver p) = Done svc.

Record inv c : Prop := {
  iv_clerk ck s : ks_clerks c !! ck = Some s → (ck < length (heap c))%nat ∧
    is_Some (labrpc.rn_ends (net c) !! NStr s) ∧ labrpc.is_enabled (net c) (NStr s) = true ∧
    labrpc.rn_connections (net c) !! NStr s = Some (Some (NInt 0));
  iv_inj ck ck' s : ks_clerks c !! ck = Some s → ks_clerks c !! ck' = Some s → ck = ck';
  iv_enabled nm : labrpc.is_enabled (net c) nm = true → ∃ ck s, nm = NStr s ∧ ks_clerks c !! ck = Some s;
  iv_serves : serves c;
}.

Lemma kvsrv_make_config_inv w u c : make_config w u = Done c → inv c.
Proof.
  unfold make_config, StartServer. intros Hc. apply bind_Done in Hc as (c1 & H1 & Hc).
  apply Done_inj in Hc as <-. unfold kalloc in H1. cbv beta iota zeta in H1.
  apply bind_Done in H1 as (svc & Hsvc & H1). apply Done_inj in H1 as <-. split.
  - intros ck s Hs. simpl in Hs. by rewrite lookup_empty in Hs.
  - intros ck ck' s Hs. simpl in Hs. by rewrite lookup_empty in Hs.
  - done.
  - eexists _, _, _, _, svc. split_and!; [done| | | | |exact Hsvc].
    + unfold heap, mem. simpl. by rewrite lookup_app_r, Nat.sub_diag by done.
    + unfold net, labrpc.server_at. simpl. by rewrite lookup_insert_eq.
    + simpl. by rewrite lookup_insert_eq.
    + simpl. unfold labrpc.MakeService in Hsvc. apply bind_Done in Hsvc as (ms & _ & Hsvc).
      apply Done_inj in Hsvc as <-. by rewrite lookup_insert_eq.
Qed.

Lemma serves_ext c c' : serves c → ks_kvserver c' = ks_kvserver c →
  labrpc.rn_servers (net c') = labrpc.rn_servers (net c) →
  (∀ a rs, labrpc.w_store (ks_w c) !! a = Some rs → ∃ rs',
    labrpc.w_store (ks_w c') !! a = Some rs' ∧ labrpc.rs_services rs' = labrpc.rs_services rs) →
  (∀ p kv, heap c !! p = Some (KServer kv) → ∃ kv', heap c' !! p = Some (KServer kv')) → serves c'.
Proof.
  intros (p & kv & a & rs & svc & Hk & Hp & Ha & Hrs & Hsvc & Hm) Hk' Hsv Hst Hh.
  destruct (Hst _ _ Hrs) as (rs' & Hrs' & Heq). destruct (Hh _ _ Hp) as [kv' Hp'].
  exists p, kv', a, rs', svc. unfold labrpc.server_at in *. rewrite Hk', Hsv, Heq. done.
Qed.

Lemma makeClient_inv e r c c' ck : inv c → makeClient e r c = Done (c', ck) → inv c'.
Proof.
  intros Hinv Hm. unfold makeClient in Hm. apply bind_Done in Hm as ([rn e'] & Hrn & Hm).
  unfold labrpc.MakeEnd in Hrn. destruct (labrpc.rn_ends (net c) !! NStr e) eqn:Hnew; [done|].
  apply Done_inj, pair_equal_spec in Hrn as [<- <-]. unfold kalloc in Hm.
  apply Done_inj, pair_equal_spec in Hm as [<- <-].
  unfold ConnectClientUnlocked. cbn [ks_clerks set_clerks]. rewrite lookup_insert_eq. cbn [default from_option id].
  set (k := length _).
  assert (∀ ck s, ks_clerks c !! ck = Some s → ck ≠ k ∧ s ≠ e) as Hold.
  { intros ck s Hs. destruct (iv_clerk _ Hinv _ _ Hs) as (Hlt & [x Hx] & _). split.
    - unfold k, heap, mem in *. simpl. lia.
    - intros ->. congruence. }
  assert (∀ ck s, <[k := e]> (ks_clerks c) !! ck = Some s →
    (ck = k ∧ s = e) ∨ (ck ≠ k ∧ s ≠ e ∧ ks_clerks c !! ck = Some s)) as Hcase.
  { intros ck s Hs. destruct (decide (ck = k)) as [->|Hne].
    - rewrite lookup_insert_eq in Hs. left. by simplify_eq.
    - rewrite lookup_insert_ne in Hs by done. right. by destruct (Hold _ _ Hs). }
  split.
  - intros ck s [[-> ->]|(Hne & Hse & Hs)]%Hcase; unfold net, labrpc.is_enabled; simpl.
    + rewrite !lookup_insert_eq. unfold heap, mem. simpl. rewrite length_app. simpl.
      split_and!; [unfold k, mem; simpl; lia|by eexists|done|done].
    + destruct (iv_clerk _ Hinv _ _ Hs) as (Hlt & Hk & Hen & Hco).
      unfold heap, mem in *. simpl. rewrite length_app. rewrite !lookup_insert_ne by congruence.
      split_and!; [simpl; lia|done..].
  - simpl. intros ck ck' s [[-> ->]|(Hne & Hse & Hs)]%Hcase [[-> He]|(Hne' & Hse' & Hs')]%Hcase; try done.
    by apply (iv_inj _ Hinv _ _ _ Hs).
  - intros nm Hnm. unfold net, labrpc.is_enabled in Hnm. simpl in Hnm.
    destruct (decide (nm = NStr e)) as [->|Hne].
    + exists k, e. split; [done|]. simpl. by rewrite lookup_insert_eq.
    + rewrite !lookup_insert_ne in Hnm by done.
      destruct (iv_enabled _ Hinv nm Hnm) as (ck & s & -> & Hs). exists ck, s. split; [done|].
      simpl. destruct (Hold _ _ Hs) as [? _]. by rewrite lookup_insert_ne.
  - eapply serves_ext; [apply (iv_serves _ Hinv)|done|done|eauto|].
    intros p kv Hp. exists kv. unfold heap, mem in *. simpl. by apply lookup_app_l_Some.
Qed.

Lemma deleteClient_inv ck s c c' : inv c → ks_clerks c !! ck = Some s → deleteClient ck c = Done c' → inv c'.
Proof.
  intros Hinv Hs Hd. unfold deleteClient in Hd. rewrite Hs in Hd. cbn [default from_option id] in Hd.
  unfold labrpc.DeleteEnd in Hd. destruct (labrpc.rn_ends (net c) !! NStr s); [|done].
  cbn [mbind outcome_bind] in Hd. apply Done_inj in Hd as <-.
  assert (∀ ck' s', delete ck (ks_clerks c) !! ck' = Some s' → s' ≠ s ∧ ks_clerks c !! ck' = Some s') as Hcase.
  { intros ck' s' [Hne Hs']%lookup_delete_Some. split; [|done]. intros ->.
    by apply Hne, (iv_inj _ Hinv _ _ _ Hs). }
  split.
  - intros ck' s' [Hne Hs']%Hcase. destruct (iv_clerk _ Hinv _ _ Hs') as (Hlt & Hk & Hen & Hco).
    unfold net, labrpc.is_enabled. simpl. rewrite !lookup_delete_ne by congruence. done.
  - intros ck1 ck2 s' [_ H1]%Hcase [_ H2]%Hcase. by apply (iv_inj _ Hinv _ _ _ H1).
  - intros nm Hnm. unfold net, labrpc.is_enabled in Hnm. simpl in Hnm.
    destruct (decide (nm = NStr s)) as [->|Hne]; [by rewrite lookup_delete_eq in Hnm|].
    rewrite lookup_delete_ne in Hnm by done.
    destruct (iv_enabled _ Hinv nm Hnm) as (ck' & s' & -> & Hs'). exists ck', s'. split; [done|].
    simpl. apply lookup_delete_Some. split; [|done]. intros ->. congruence.
  - eapply serves_ext; [apply (iv_serves _ Hinv)|done|done|eauto|eauto].
Qed.

Lemma kvsrv_connect_inv ck s c : inv c → ks_clerks c !! ck = Some s → inv (ConnectClient ck c).
Proof.
  intros Hinv Hs. unfold ConnectClient, ConnectClientUnlocked. rewrite Hs. cbn [default from_option id].
  assert (∀ nm, labrpc.is_enabled (net (set_net (labrpc.Enable (net c) (NStr s) true) c)) nm =
    labrpc.is_enabled (net c) nm) as Hen.
  { intros nm. unfold net, labrpc.is_enabled. simpl. destruct (decide (nm = NStr s)) as [->|Hne].
    - rewrite lookup_insert_eq. symmetry. by apply (iv_clerk _ Hinv ck).
    - by rewrite lookup_insert_ne. }
  split.
  - intros ck' s'. rewrite Hen. apply (iv_clerk _ Hinv).
  - apply (iv_inj _ Hinv).
  - intros nm. rewrite Hen. apply (iv_enabled _ Hinv).
  - eapply serves_ext; [apply (iv_serves _ Hinv)|done|done|eauto|eauto].
Qed.

Lemma kvsrv_reach_inv c : reach c → inv c.
Proof.
  induction 1 as [w u c Hc|c c' _ Hinv Hst]; [by eapply kvsrv_make_config_inv|]. destruct Hst.
  - by eapply makeClient_inv.
  - by eapply deleteClient_inv.
  - by eapply kvsrv_connect_inv.
  - destruct H as [[Hck Hkv] (He & Hen & Hco & Hsv) Hst Hlen Hh]. split.
    + intros ck s. unfold labrpc.is_enabled. rewrite Hck, He, Hen, Hco. intros Hs.
      destruct (iv_clerk _ Hinv _ _ Hs) as (Hlt & Hrest). split; [lia|exact Hrest].
    + intros ck ck' s. rewrite Hck. apply (iv_inj _ Hinv).
    + intros nm. unfold labrpc.is_enabled. rewrite Hck, Hen. apply (iv_enabled _ Hinv).
    + eapply serves_ext; [apply (iv_serves _ Hinv)|done..].
Qed.

(** The handler that a method name stands for. *)
Definition handles `{Codec kvalue} (svc : @labrpc.Service kvalue kapp) (p : nat) (kv : KVServer) (σ : kapp)
    (req : @labrpc.reqMsg name kvalue) : Prop :=
  let args := (decode (labrpc.rq_args req) (labrpc.rq_argsType req)).1 in
  let answers m (kv' : KVServer) reply := labrpc.Service_dispatch svc m req σ =
    Done (kstore σ p kv', labrpc.MkReplyMsg true (encode reply).1, (args, reply)) in
  (∀ a, args = KGetArgs a → answers "Get" (kvsrv.Get kv a).1 (KGetReply (kvsrv.Get kv a).2)) ∧
  (∀ a, args = KPutAppendArgs a →
     answers "Put" (kvsrv.Put kv a).1 (KPutAppendReply (kvsrv.Put kv a).2) ∧
     answers "Append" (kvsrv.Append kv a).1 (KPutAppendReply (kvsrv.Append kv a).2)).

Lemma kvsrv_service_handles `{Codec kvalue} p svc kv σ req : labrpc.MakeService (kvsrv_receiver p) = Done svc →
  ka_heap σ !! p = Some (KServer kv) → handles svc p kv σ req.
Proof.
  intros Hsvc Hp. unfold labrpc.MakeService in Hsvc. cbn in Hsvc. apply Done_inj in Hsvc as <-.
  unfold handles. split.
  - intros a Ha. unfold labrpc.Service_dispatch. cbn [labrpc.sv_methods].
    rewrite lookup_insert_ne, lookup_insert_eq by done. simpl. rewrite Ha. simpl.
    unfold kserver_at. rewrite Hp. simpl. by destruct (kvsrv.Get kv a).
  - intros a Ha. split; unfold labrpc.Service_dispatch; cbn [labrpc.sv_methods].
    + rewrite lookup_insert_eq. simpl. rewrite Ha. simpl. unfold kserver_at. rewrite Hp. simpl.
      by destruct (kvsrv.Put kv a).
    + rewrite !lookup_insert_ne, lookup_insert_eq by done. simpl. rewrite Ha. simpl.
      unfold kserver_at. rewrite Hp. simpl. by destruct (kvsrv.Append kv a).
Qed.

(** The clerks of the tests talk to the key-value server.  After any
    history, the end of a live clerk is enabled and leads to the one server, whose
    methods Get, Put and Append are the handlers of the key-value server run on its
    state; a request on the end of a deleted clerk, or on any other name, is never
    answered. *)
Theorem kvsrv_clerks_served `{Codec kvalue} c (call : @labrpc.call name kvalue kapp) : reach c →
  (∀ ck s, ks_clerks c !! ck = Some s → ∃ p kv a rs svc,
     ks_kvserver c = Some p ∧ heap c !! p = Some (KServer kv) ∧
     labrpc.readEndnameInfo (net c) (NStr s) =
       (true, Some (NInt 0), Some a, labrpc.rn_reliable (net c), labrpc.rn_longReordering (net c)) ∧
     labrpc.w_store (ks_w c) !! a = Some rs ∧ labrpc.rs_services rs !! "KVServer" = Some svc ∧
     ∀ req, handles svc p kv (mem c) req) ∧
  ((∀ ck s, ks_clerks c !! ck = Some s → labrpc.rq_endname (labrpc.cl_req call) ≠ NStr s) →
   ∀ r, labrpc.processReq_start (net c) call r =
     labrpc.set_proc (labrpc.Replying false labrpc.noReply) call).
Proof.
  intros Hr. apply kvsrv_reach_inv in Hr as Hinv. split.
  - intros ck s Hs. destruct (iv_clerk _ Hinv _ _ Hs) as (_ & _ & Hen & Hco).
    destruct (iv_serves _ Hinv) as (p & kv & a & rs & svc & Hk & Hp & Ha & Hrs & Hsvc & Hm).
    exists p, kv, a, rs, svc. split_and!; [done|done| |done|done|].
    + unfold labrpc.readEndnameInfo. rewrite Hco. simpl. by rewrite Hen, Ha.
    + intros req. by apply kvsrv_service_handles.
  - intros Hno r. unfold labrpc.processReq_start, labrpc.readEndnameInfo.
    destruct (labrpc.is_enabled (net c) _) eqn:Hen; [|done].
    destruct (iv_enabled _ Hinv _ Hen) as (ck & s & Heq & Hs). by destruct (Hno ck s Hs).
Qed.
End kvsrv_config.

Module demo_kvsrv.
Definition world0 : @labrpc.world name _ _ kvalue kapp := labrpc.init (MkKapp 0 []).
Definition served : config := get (MkConfig false world0 None ∅ 1 0 0 0 0) (make_config world0 false).
Definition one_clerk : config := (get (served, 0%nat) (makeClient "end" 7 served)).1.

#[export] Instance no_codec : Codec kvalue := {
  encode _ := ([], false); decode _ t := (t, false); zero v := v }.

Lemma one_clerk_reach : reach one_clerk.
Proof.
  eapply reach_step; [eapply (reach_make world0 false), (get_Done (MkConfig false world0 None ∅ 1 0 0 0 0)); vm_compute; reflexivity|].
  apply (step_make _ "end" 7 _ (get (served, 0%nat) (makeClient "end" 7 served)).2).
  unfold one_clerk. rewrite <- surjective_pairing. apply get_Done. vm_compute. reflexivity.
Qed.
End demo_kvsrv.
Import demo_kvsrv.

Lemma kvsrv_clerks_served_witness :
  reach one_clerk ∧ ks_clerks one_clerk !! 1%nat = Some "end" ∧
  ∃ p kv a, ks_kvserver one_clerk = Some p ∧ heap one_clerk !! p = Some (KServer kv) ∧
    labrpc.readEndnameInfo (net one_clerk) (NStr "end") = (true, Some (NInt 0), Some a, true, false).
Proof.
  split; [exact one_clerk_reach|]. split; [vm_compute; reflexivity|].
  destruct (proj1 (kvsrv_clerks_served one_clerk
    (labrpc.MkCall (labrpc.MkReqMsg (NStr "end") "KVServer.Get" (KStruct "") []) (KStruct "") (KStruct "")
       labrpc.Sending labrpc.NotStarted labrpc.NoExecutor false) one_clerk_reach) 1%nat "end" eq_refl)
    as (p & kv & a & rs & svc & H1 & H2 & H3 & _).
  exists p, kv, a. split; [exact H1|]. split; [exact H2|]. rewrite H3. vm_compute. reflexivity.
Defined.
