(* ===== verification/KvSrvNet.v ===== *)
(** * Clerks, network and key-value server together

    The loops of kvsrv/client.go as they run under kvsrv/config.go: a clerk is an
    object of the memory, its calls are calls of LabRpc.v on its end, and the
    handlers are the methods the network finds on the server object.  One event is
    one step of one goroutine; the clock advances with every event. *)

From S2P Require Import Prelude LabRpc Porcupine KvModel Harness KvSrv KvSrvConfig.
Open Scope Z_scope.

Module kvnet.
Import kvsrvcfg.

Section kvnet.
Context `{Codec kvalue}.

(** The process: the harness with its network and memory, the addresses of the
    clerks in the order they were made, and the call of the clerks that are inside
    [Call]. *)
Record process := MkProcess {
  pr_cfg : config;
  pr_clerks : list nat;
  pr_calls : gmap nat nat;
}.
Implicit Types s : process.

Definition world s := ks_w (pr_cfg s).
Definition heap s : list kobj := ka_heap (mem (pr_cfg s)).

Definition method (r : request) : string :=
  match r with
  | RGet _ => "KVServer.Get"
  | RPut _ _ => "KVServer." +:+ "Put"
  | RAppend _ _ => "KVServer." +:+ "Append"
  end.

(** [args] of the loop body. *)
Definition args_of (ck : Clerk) (r : request) : kvalue :=
  match r with
  | RGet k => KGetArgs (MkGetArgs k (ck_clientId ck) (ck_seqNum ck))
  | RPut k v | RAppend k v => KPutAppendArgs (MkPutAppendArgs k v (ck_clientId ck) (ck_seqNum ck))
  end.

(** [reply = GetReply{}] or [reply = PutAppendReply{}] *)
Definition reply_of (r : request) : kvalue :=
  match r with
  | RGet _ => KGetReply (MkGetReply "")
  | _ => KPutAppendReply (MkPutAppendReply "")
  end.

(** [reply.Value] *)
Definition value_of (v : kvalue) : string :=
  match v with
  | KGetReply r => gr_Value r
  | KPutAppendReply r => par_Value r
  | _ => ""
  end.

(** Clerk [k]: its address, its end and its fields. *)
Definition clerk_at s (k : nat) : option (nat * ClientEnd * Clerk) :=
  p ← pr_clerks s !! k;
  match heap s !! p with Some (KClerk e ck) => Some (p, e, ck) | _ => None end.

Definition with_cfg s c : process := MkProcess c (pr_clerks s) (pr_calls s).
Definition with_world s w : process := with_cfg s (set_w w (pr_cfg s)).
Definition set_clerk s (p : nat) (e : ClientEnd) (ck : Clerk) : process :=
  with_cfg s (set_mem (MkKapp (now (pr_cfg s)) (<[p := KClerk e ck]> (heap s))) (pr_cfg s)).
Definition set_calls s (x : gmap nat nat) : process := MkProcess (pr_cfg s) (pr_clerks s) x.

(** Time passes. *)
Definition tick (d : Z) s : process :=
  with_cfg s (set_mem (MkKapp (now (pr_cfg s) + d) (heap s)) (pr_cfg s)).

Inductive event :=
  | NMake (endname : string) (rand : Z)     (* [makeClient] *)
  | NDelete (k : nat)                       (* [deleteClient] of a clerk that is not used *)
  | NInvoke (k : nat) (r : request)         (* clerk [k] enters [Get], [Put] or [Append] *)
  | NCall (k i : nat)                       (* it enters [Call], as call [i] *)
  | NReturn (k : nat)                       (* [Call] has returned: the test [!ok] *)
  | NFinish (k : nat)                       (* the operation returns and is recorded *)
  | NNet (a : @labrpc.action name kvalue kapp)   (* a goroutine of the network *)
  | NTick (d : Z).

(** The goroutines of the network and the settings that tests change. *)
Definition of_network (a : @labrpc.action name kvalue kapp) : bool :=
  match a with
  | labrpc.AReliable _ | labrpc.ALongReordering _ | labrpc.ALongDelays _
  | labrpc.AReceive _ | labrpc.ALoopExit | labrpc.ACallDone _ | labrpc.AStart _ _
  | labrpc.AServerDispatch _ | labrpc.AServiceDispatch _ | labrpc.AReplyReady _
  | labrpc.ATimeout _ | labrpc.AFinish _ _ _ | labrpc.ADrain _ | labrpc.AReturn _ => true
  | _ => false
  end.

(** An event without the clock; [None] if the goroutine is not at that point.
    The result has the operation that the test records. *)
Definition happen s (ev : event) : option (outcome (process * option (Operation kvmodel.iface))) :=
  let c := pr_cfg s in
  match ev with
  | NMake endname rand => Some (
      let! '(c, p) := makeClient endname rand c in
      Done (MkProcess c (pr_clerks s ++ [p]) (pr_calls s), None))
  | NDelete k =>
      '(p, _, ck) ← clerk_at s k;
      match ck_doing ck, ks_clerks c !! p with
      | Idle, Some _ => Some (let! c := deleteClient p c in Done (with_cfg s c, None))
      | _, _ => None
      end
  | NInvoke k r =>
      '(p, e, ck) ← clerk_at s k;
      match ck_doing ck, ks_clerks c !! p with
      | Idle, Some _ => Some (Done (set_clerk s p e (clerk.begin ck r (now c)), None))
      | _, _ => None
      end
  | NCall k i =>
      '(p, e, ck) ← clerk_at s k;
      match ck_doing ck, pr_calls s !! k with
      | Trying r _, None =>
          m ← labrpc.act (world s) (labrpc.ACall i e (method r) (args_of ck r) (reply_of r));
          Some (let! w := m in Done (set_calls (with_world s w) (<[k := i]> (pr_calls s)), None))
      | _, _ => None
      end
  | NReturn k =>
      '(p, e, ck) ← clerk_at s k;
      i ← pr_calls s !! k;
      x ← labrpc.w_calls (world s) !! i;
      match ck_doing ck, labrpc.cl_caller x with
      | Trying r start, labrpc.Returned ok v =>
          let s := set_calls s (delete k (pr_calls s)) in
          Some (Done (if (ok : bool)
                      then set_clerk s p e (kvsys.with_doing ck (Replied r start (value_of v)))
                      else s, None))
      | _, _ => None
      end
  | NFinish k =>
      '(p, e, ck) ← clerk_at s k;
      match ck_doing ck with
      | Replied r start v =>
          Some (Done (set_clerk s p e (kvsys.with_doing ck Idle), Some (kvsys.record k r start v (now c))))
      | _ => None
      end
  | NNet a =>
      if of_network a then
        m ← labrpc.act (world s) a;
        Some (let! w := m in Done (with_world s w, None))
      else None
  | NTick d => if 0 <? d then Some (Done (tick d s, None)) else None
  end.

Definition step s (ev : event) : option (outcome (process * option (Operation kvmodel.iface))) :=
  m ← happen s ev;
  Some (let! '(s, o) := m in Done (tick 1 s, o)).

Definition op_list {A} (o : option A) : list A := match o with Some x => [x] | None => [] end.

(** The events lead from [s] to the result, and none of them ends the process;
    the second component is the history that the tests record. *)
Fixpoint run s (evs : list event) : option (process * list (Operation kvmodel.iface)) :=
  match evs with
  | [] => Some (s, [])
  | ev :: evs' =>
      match step s ev with
      | Some (Done (s1, o)) => '(s2, ops) ← run s1 evs'; Some (s2, op_list o ++ ops)
      | _ => None
      end
  end.

(** The tests begin with [make_config] in a fresh process. *)
Definition start (t : Z) (unreliable : bool) : outcome process :=
  let! c := make_config (labrpc.init (MkKapp t [])) unreliable in
  Done (MkProcess c [] ∅).

End kvnet.
End kvnet.
