(* ===== verification/KvSrvNetFacts.v ===== *)
(** * The invariant of clerks, network and server

    Every call on the network belongs to a clerk that waits for it or has
    returned; its request is the one of the clerk's loop, it goes to the one server,
    and the server is never cut off while it is executed.  The invariant holds in
    every process that [kvnet.start] begins. *)

From S2P Require Import Prelude LabRpc LabRpcFacts LabRpcClient Porcupine KvModel Harness HarnessFacts.
From S2P Require Import KvSrv KvSrvConfig KvSrvConfigTheorems KvSrvNet.
Import kvsrvcfg kvnet.
Open Scope Z_scope.

(** What the program relies on from labgob: messages are encoded without error
    and read back, and the zero value of a reply is the empty reply. *)
Class KvCodec `{Codec kvalue} : Prop := {
  kc_laws :: CodecLaws kvalue;
  kc_args ck r : (encode (args_of ck r)).2 = true;
  kc_get_reply x : (encode (KGetReply x)).2 = true ∧ zero (KGetReply x) = KGetReply (MkGetReply "");
  kc_put_reply x : (encode (KPutAppendReply x)).2 = true ∧
    zero (KPutAppendReply x) = KPutAppendReply (MkPutAppendReply "");
}.

Module kvnetproof.
Import labrpc rpcproof rpcclient.

Section facts.
Context `{HC : KvCodec}.
(** The address of the server object, of its labrpc server, and the service. *)
Context (p0 a0 : nat) (svc0 : @Service kvalue kapp).
Implicit Types (s : process) (w : kworld).

(** ** The network part *)

Definition to_server (e : name) (q : nat) : Prop := q = a0.
Definition to_method (req : @reqMsg name kvalue) (svc : @Service kvalue kapp) (m : string) : Prop :=
  ∀ x, no_dot x = true → rq_svcMeth req = "KVServer" +:+ "." +:+ x → svc = svc0 ∧ m = x.

Record netinv w : Prop := {
  nv_w : winv w;
  nv_up : rn_done (w_net w) = false;
  nv_loop : w_loop w = true;
  nv_conn e sn : rn_connections (w_net w) !! e = Some (Some sn) → sn = NInt 0;
  nv_server : server_at (w_net w) (NInt 0) = Some a0;
  nv_service : ∃ rs, w_store w !! a0 = Some rs ∧ rs_services rs !! "KVServer" = Some svc0;
  nv_aimed i c : w_calls w !! i = Some c → aimed (w_net w) c;
  nv_attended i c : w_calls w !! i = Some c → attended c;
  nv_routed : routed to_server to_method w;
}.

Lemma netinv_leads w : netinv w → leads to_server to_method w.
Proof.
  intros Hn. split.
  - intros e sn p Hco Hp. apply (nv_conn _ Hn) in Hco as ->. rewrite (nv_server _ Hn) in Hp.
    by simplify_eq.
  - intros req p rs rs' svc m -> Hrs Hd x Hx Hm. destruct (nv_service _ Hn) as (rs0 & Hrs0 & Hs0).
    rewrite Hrs in Hrs0. simplify_eq. rewrite (Server_dispatch_split _ _ "KVServer" x) in Hd by done.
    rewrite Hs0 in Hd. by simplify_eq.
Qed.

(** Only the fields of the network, the store, the calls and the log matter. *)
Lemma netinv_mem w σ : netinv w →
  netinv (MkWorld (w_net w) (w_loop w) (w_store w) σ (w_calls w) (w_log w)).
Proof. intros []. by split. Qed.

(** A goroutine of the network, or a new call. *)
Definition quiet (a : @action name kvalue kapp) : bool :=
  of_network a || match a with ACall _ _ _ _ _ => true | _ => false end.

Lemma quiet_net w a w' : netinv w → act w a = Some (Done w') → quiet a = true →
  rn_ends (w_net w') = rn_ends (w_net w) ∧ rn_enabled (w_net w') = rn_enabled (w_net w) ∧
  rn_connections (w_net w') = rn_connections (w_net w) ∧ rn_servers (w_net w') = rn_servers (w_net w) ∧
  rn_done (w_net w') = rn_done (w_net w) ∧
  ∀ p rs, w_store w !! p = Some rs → ∃ rs', w_store w' !! p = Some rs' ∧ rs_services rs' = rs_services rs.
Proof.
  intros Hn Ha Hq. destruct (admin a) eqn:Had.
  - destruct a; try done; simpl in Ha; simplify_eq; simpl; split_and!; eauto.
  - pose proof (act_ends _ _ _ Ha Had) as He. pose proof (act_config _ _ _ Ha Had) as Hc.
    unfold config in Hc. simplify_eq. split_and!; try congruence. intros p rs Hrs. by eapply act_services.
Qed.

Lemma netinv_act w a w' : netinv w → uncut w → act w a = Some (Done w') → quiet a = true → netinv w'.
Proof.
  intros Hn Hun Ha Hq. destruct (quiet_net _ _ _ Hn Ha Hq) as (He & Hen & Hco & Hsv & Hd & Hst). split.
  - eapply winv_act; [apply (nv_w _ Hn)|done].
  - by rewrite Hd, (nv_up _ Hn).
  - by rewrite (act_loop _ _ _ Ha (nv_up _ Hn)), (nv_loop _ Hn).
  - intros e sn. rewrite Hco. apply (nv_conn _ Hn).
  - unfold server_at. rewrite Hsv. apply (nv_server _ Hn).
  - destruct (nv_service _ Hn) as (rs & Hrs & Hs). destruct (Hst _ _ Hrs) as (rs' & Hrs' & Heq).
    exists rs'. by rewrite Heq.
  - by eapply aimed_act; [|done|done|apply (nv_aimed _ Hn)].
  - eapply attended_act; [apply (nv_w _ Hn)|done|apply (nv_up _ Hn)|done|apply (nv_attended _ Hn)].
  - by eapply routed_act; [apply netinv_leads|apply (nv_w _ Hn)| |apply (nv_routed _ Hn)].
Qed.

(** ** The whole process *)

(** Call [i] was made by clerk [k] in the loop of its operation. *)
Definition called s (k i : nat) : Prop := ∃ p e ck r t c,
  clerk_at s k = Some (p, e, ck) ∧ ck_doing ck = Trying r t ∧ w_calls (kvnet.world s) !! i = Some c ∧
  rq_endname (cl_req c) = ce_endname e ∧ rq_svcMeth (cl_req c) = method r ∧
  cl_args c = args_of ck r ∧ cl_reply c = reply_of r.

Record ninv s : Prop := {
  ni_reach : reach (pr_cfg s);
  ni_net : netinv (kvnet.world s);
  ni_server : ks_kvserver (pr_cfg s) = Some p0 ∧ MakeService (kvsrv_receiver p0) = Done svc0 ∧
    ∃ kv, kvnet.heap s !! p0 = Some (KServer kv);
  ni_nodup : NoDup (pr_clerks s);
  ni_clerk k p : pr_clerks s !! k = Some p → ∃ e ck, kvnet.heap s !! p = Some (KClerk e ck) ∧
    (ck_doing ck ≠ Idle → is_Some (ks_clerks (pr_cfg s) !! p)) ∧
    ∀ nm, ks_clerks (pr_cfg s) !! p = Some nm → ce_endname e = NStr nm;
  ni_called k i : pr_calls s !! k = Some i → called s k i;
  ni_inj k k' i : pr_calls s !! k = Some i → pr_calls s !! k' = Some i → k = k';
  ni_calls i c : w_calls (kvnet.world s) !! i = Some c →
    (∃ k, pr_calls s !! k = Some i) ∨ ∃ ok v, cl_caller c = Returned ok v;
  ni_replies i c x : w_calls (kvnet.world s) !! i = Some c → x ∈ execs i (w_log (kvnet.world s)) →
    decode (encode (ex_reply x)).1 (cl_reply c) = (ex_reply x, true);
}.

Lemma clerk_at_spec s k p e ck :
  clerk_at s k = Some (p, e, ck) ↔ pr_clerks s !! k = Some p ∧ kvnet.heap s !! p = Some (KClerk e ck).
Proof.
  unfold clerk_at. destruct (pr_clerks s !! k) as [q|]; simpl; [|naive_solver].
  destruct (kvnet.heap s !! q) as [[]|] eqn:Hq; simpl; naive_solver.
Qed.

Lemma clerk_at_inj s k k' p e ck e' ck' : ninv s → clerk_at s k = Some (p, e, ck) →
  clerk_at s k' = Some (p, e', ck') → k = k'.
Proof.
  intros Hs [Hk _]%clerk_at_spec [Hk' _]%clerk_at_spec. by eapply NoDup_lookup; [apply (ni_nodup _ Hs)|..].
Qed.

(** The end of a clerk inside an operation is enabled. *)
Lemma clerk_live s k p e ck : ninv s → clerk_at s k = Some (p, e, ck) → ck_doing ck ≠ Idle →
  is_enabled (w_net (kvnet.world s)) (ce_endname e) = true ∧
  rn_connections (w_net (kvnet.world s)) !! ce_endname e = Some (Some (NInt 0)).
Proof.
  intros Hs [Hk Hp]%clerk_at_spec Hdo. destruct (ni_clerk _ Hs _ _ Hk) as (e' & ck' & Hp' & Hl & Hnm).
  rewrite Hp in Hp'. simplify_eq. destruct (Hl Hdo) as [nm Hl']. rewrite (Hnm _ Hl').
  destruct (iv_clerk _ (kvsrv_reach_inv _ (ni_reach _ Hs)) _ _ Hl') as (_ & _ & ? & ?). done.
Qed.

Lemma ninv_uncut s : ninv s → uncut (kvnet.world s).
Proof.
  intros Hs. apply aimed_uncut; [apply (nv_aimed _ (ni_net _ Hs))|].
  intros i c sn p rel long Hc Hp.
  destruct (ni_calls _ Hs _ _ Hc) as [[k Hk]|(ok & v & Hr)].
  - destruct (ni_called _ Hs _ _ Hk) as (q & e & ck & r & t & c' & Hck & Hdo & Hc' & He & _).
    rewrite Hc in Hc'. simplify_eq. rewrite He. eapply clerk_live; [done..|]. by rewrite Hdo.
  - destruct (nv_attended _ (ni_net _ Hs) _ _ Hc) as (_ & _ & Hat). rewrite Hp in Hat. congruence.
Qed.
(** ** Executions *)

Definition method_name (r : request) : string :=
  match r with RGet _ => "Get" | RPut _ _ => "Put" | RAppend _ _ => "Append" end.

Lemma method_split r : method r = "KVServer" +:+ "." +:+ method_name r ∧ no_dot (method_name r) = true.
Proof. by destruct r. Qed.

(** Replies are read back into the empty reply. *)
Lemma reply_decodes r rv : (∃ x, rv = KGetReply x ∧ ∃ k, r = RGet k) ∨
    (∃ x, rv = KPutAppendReply x ∧ ∀ k, r ≠ RGet k) → decode (encode rv).1 (reply_of r) = (rv, true).
Proof.
  intros [(x & -> & k & ->)|(x & -> & Hr)].
  - destruct (kc_get_reply x) as [He Hz]. simpl. rewrite <- Hz. by apply decode_encode.
  - destruct (kc_put_reply x) as [He Hz]. assert (reply_of r = KPutAppendReply (MkPutAppendReply "")) as ->.
    { destruct r; [by destruct (Hr key)|done..]. }
    rewrite <- Hz. by apply decode_encode.
Qed.

(** The method that a clerk's request names does what [clerk.call] says. *)
Lemma service_call ck r (c : @call name kvalue kapp) kv σ :
  MakeService (kvsrv_receiver p0) = Done svc0 → ka_heap σ !! p0 = Some (KServer kv) →
  req_inv c → cl_args c = args_of ck r →
  ∃ rv, Service_dispatch svc0 (method_name r) (cl_req c) σ =
      Done (kstore σ p0 (clerk.call kv ck r).1, MkReplyMsg true (encode rv).1, (args_of ck r, rv)) ∧
    value_of rv = (clerk.call kv ck r).2 ∧ decode (encode rv).1 (reply_of r) = (rv, true).
Proof.
  intros Hsvc Hp [Hen Hz] Har.
  assert ((decode (rq_args (cl_req c)) (rq_argsType (cl_req c))).1 = args_of ck r) as Hdec.
  { rewrite Hz, Har. rewrite Har in Hen. pose proof (decode_encode (args_of ck r) (kc_args ck r)) as Hd.
    rewrite Hen in Hd. simpl in Hd. by rewrite Hd. }
  destruct (kvsrv_service_handles p0 svc0 kv σ (cl_req c) Hsvc Hp) as [Hg Hpa].
  rewrite Hdec in Hg, Hpa. destruct r as [k|k v|k v]; simpl in *.
  - exists (KGetReply (kvsrv.Get kv (MkGetArgs k (ck_clientId ck) (ck_seqNum ck))).2).
    rewrite (Hg _ eq_refl). unfold clerk.Get_call. destruct (kvsrv.Get _ _) as [kv' x]. simpl.
    split_and!; [done|done|]. apply (reply_decodes (RGet k)). left. eauto.
  - exists (KPutAppendReply (kvsrv.Put kv (MkPutAppendArgs k v (ck_clientId ck) (ck_seqNum ck))).2).
    rewrite (proj1 (Hpa _ eq_refl)). unfold clerk.PutAppend_call. simpl.
    destruct (kvsrv.Put _ _) as [kv' x]. simpl.
    split_and!; [done|done|]. apply (reply_decodes (RPut k v)). right. eauto.
  - exists (KPutAppendReply (kvsrv.Append kv (MkPutAppendArgs k v (ck_clientId ck) (ck_seqNum ck))).2).
    rewrite (proj2 (Hpa _ eq_refl)). unfold clerk.PutAppend_call. simpl.
    destruct (kvsrv.Append _ _) as [kv' x]. simpl.
    split_and!; [done|done|]. apply (reply_decodes (RAppend k v)). right. eauto.
Qed.

(** An action of the network leaves the memory alone, or it is the execution of
    the call that some clerk waits for. *)
Lemma act_effect s a w : ninv s → act (kvnet.world s) a = Some (Done w) →
  (w_log w = w_log (kvnet.world s) ∧ w_app w = w_app (kvnet.world s)) ∨
  ∃ i k p e ck r t c kv rv, a = AServiceDispatch i ∧ pr_calls s !! k = Some i ∧
    clerk_at s k = Some (p, e, ck) ∧ ck_doing ck = Trying r t ∧
    w_calls (kvnet.world s) !! i = Some c ∧ cl_reply c = reply_of r ∧
    kvnet.heap s !! p0 = Some (KServer kv) ∧ execs i (w_log (kvnet.world s)) = [] ∧
    w_log w = w_log (kvnet.world s) ++ [MkExecution i (args_of ck r) rv] ∧
    w_app w = kstore (w_app (kvnet.world s)) p0 (clerk.call kv ck r).1 ∧
    value_of rv = (clerk.call kv ck r).2 ∧ decode (encode rv).1 (reply_of r) = (rv, true).
Proof.
  intros Hs Ha. destruct (act_exec _ _ _ Ha) as [(? & ? & _)|
    (i & c & svc & m & σ & rep & u & rv & -> & Hc & Hx & Hd & ->)]; [by left|right].
  assert (∃ k, pr_calls s !! k = Some i) as [k Hk].
  { destruct (ni_calls _ Hs _ _ Hc) as [?|(ok & v & Hr)]; [done|].
    destruct (nv_attended _ (ni_net _ Hs) _ _ Hc) as (_ & Hl & Hat). rewrite Hx in Hl.
    destruct Hl as (sn & q & rel & long & Hl). rewrite Hl in Hat. congruence. }
  destruct (ni_called _ Hs _ _ Hk) as (p & e & ck & r & t & c' & Hck & Hdo & Hc' & He & Hm & Har & Hre).
  rewrite Hc in Hc'. simplify_eq.
  destruct (ni_server _ Hs) as (_ & Hsvc & kv & Hkv).
  pose proof (winv_call _ _ _ (nv_w _ (ni_net _ Hs)) Hc) as [Hrq Hxi _ _].
  pose proof (nv_routed _ (ni_net _ Hs) _ _ Hc) as Hro. unfold route in Hro. rewrite Hx in Hro.
  destruct (method_split r) as [Hms Hnd]. rewrite Hms in Hm. destruct (Hro _ Hnd Hm) as [-> ->].
  destruct (service_call ck r c' kv (w_app (kvnet.world s)) Hsvc Hkv Hrq Har) as (rv' & Hd' & Hv & Hdec).
  rewrite Hd in Hd'. simplify_eq. unfold exec_inv in Hxi. rewrite Hx in Hxi.
  exists i, k, p, e, ck, r, t, c', kv, rv'. split_and!; done.
Qed.
(** ** Events *)

Lemma reach_mem c σ : reach c → (length (ka_heap (mem c)) ≤ length (ka_heap σ))%nat →
  (∀ p kv, ka_heap (mem c) !! p = Some (KServer kv) → ∃ kv', ka_heap σ !! p = Some (KServer kv')) →
  reach (set_mem σ c).
Proof.
  intros Hr Hlen Hsv. eapply reach_step; [done|]. apply step_background. split; try done; by eauto.
Qed.

(** A change of the memory and of the calls the clerks wait for. *)
Lemma ninv_mem s σ calls : let s' := MkProcess (set_mem σ (pr_cfg s)) (pr_clerks s) calls in
  ninv s → (length (kvnet.heap s) ≤ length (ka_heap σ))%nat →
  (∀ p kv, kvnet.heap s !! p = Some (KServer kv) → ∃ kv', ka_heap σ !! p = Some (KServer kv')) →
  (∀ k p, pr_clerks s !! k = Some p → ∃ e ck, ka_heap σ !! p = Some (KClerk e ck) ∧
    (ck_doing ck ≠ Idle → is_Some (ks_clerks (pr_cfg s) !! p)) ∧
    ∀ nm, ks_clerks (pr_cfg s) !! p = Some nm → ce_endname e = NStr nm) →
  calls ⊆ pr_calls s → (∀ k i, calls !! k = Some i → called s' k i) →
  (∀ k i c, pr_calls s !! k = Some i → calls !! k = None → w_calls (kvnet.world s) !! i = Some c →
    ∃ ok v, cl_caller c = Returned ok v) → ninv s'.
Proof.
  intros s' Hs Hlen Hsv Hck Hsub Hcd Hret. destruct (ni_server _ Hs) as (Hk & Hsvc & kv & Hp0). split.
  - apply reach_mem; [apply (ni_reach _ Hs)|done..].
  - apply (netinv_mem _ σ (ni_net _ Hs)).
  - destruct (Hsv _ _ Hp0) as [kv' Hkv']. split_and!; [done|done|]. by exists kv'.
  - apply (ni_nodup _ Hs).
  - done.
  - done.
  - intros k k' i Hki Hki'. eapply (ni_inj _ Hs); by eapply lookup_weaken.
  - intros i c Hc. destruct (ni_calls _ Hs i c Hc) as [[k Hki]|?]; [|by right].
    destruct (calls !! k) as [j|] eqn:Hj.
    + left. exists k. simpl. rewrite Hj. symmetry. rewrite <- Hki. by eapply lookup_weaken.
    + right. by eapply Hret.
  - apply (ni_replies _ Hs).
Qed.

Lemma ninv_tick s d : ninv s → ninv (tick d s).
Proof.
  intros Hs. apply ninv_mem; [done|done|by eauto|apply (ni_clerk _ Hs)|done| |].
  - intros k i Hk. exact (ni_called _ Hs k i Hk).
  - intros k i c H1 H2. congruence.
Qed.

(** A clerk that waits for no call changes its fields; it may just have got the
    result of its call. *)
Lemma ninv_set_clerk s k p e ck ck' : ninv s → clerk_at s k = Some (p, e, ck) →
  (ck_doing ck' ≠ Idle → is_Some (ks_clerks (pr_cfg s) !! p)) →
  (∀ i c, pr_calls s !! k = Some i → w_calls (kvnet.world s) !! i = Some c →
    ∃ ok v, cl_caller c = Returned ok v) →
  ninv (kvnet.set_clerk (set_calls s (delete k (pr_calls s))) p e ck').
Proof.
  intros Hs Hat Hlive Hret. pose proof Hat as [Hk Hp]%clerk_at_spec.
  destruct (ni_clerk _ Hs _ _ Hk) as (e' & ck0 & Hp' & _ & Hnm). rewrite Hp in Hp'. simplify_eq.
  assert (p < length (kvnet.heap s))%nat as Hlt by (by eapply lookup_lt_Some).
  apply (ninv_mem s); [done|by simpl; rewrite length_insert| | |apply delete_subseteq| |].
  - intros q kv Hq. exists kv. simpl. rewrite list_lookup_insert_ne; [done|]. intros ->.
    by rewrite Hp in Hq.
  - intros k' p' Hk'. simpl. destruct (decide (p' = p)) as [->|Hne].
    + exists e', ck'. by rewrite list_lookup_insert_eq.
    + rewrite list_lookup_insert_ne by done. by apply (ni_clerk _ Hs k').
  - intros k' i Hd. change (delete k (pr_calls s) !! k' = Some i) in Hd.
    apply lookup_delete_Some in Hd as [Hne Hki].
    destruct (ni_called _ Hs _ _ Hki) as (p' & e1 & ck1 & r & t & c & Hck & Hrest).
    exists p', e1, ck1, r, t, c. split; [|exact Hrest].
    apply clerk_at_spec in Hck as Hck'. destruct Hck' as [Hk' Hp'].
    apply clerk_at_spec. split; [done|]. unfold kvnet.heap at 1. simpl.
    rewrite list_lookup_insert_ne; [done|]. intros ->. apply Hne. by eapply clerk_at_inj.
  - intros k' i c Hki Hd Hc. destruct (decide (k = k')) as [->|Hne]; [by eapply Hret|].
    change (delete k (pr_calls s) !! k' = None) in Hd. rewrite lookup_delete_ne in Hd by done. congruence.
Qed.

(** A clerk outside its loop waits for no call. *)
Lemma not_called s k p e ck : ninv s → clerk_at s k = Some (p, e, ck) →
  (∀ r t, ck_doing ck ≠ Trying r t) → pr_calls s !! k = None.
Proof.
  intros Hs Hat Hno. destruct (pr_calls s !! k) as [i|] eqn:Hk; [|done].
  destruct (ni_called _ Hs _ _ Hk) as (p' & e' & ck' & r & t & c & Hat' & Hdo & _).
  rewrite Hat in Hat'. simplify_eq. by destruct (Hno r t).
Qed.

Lemma set_calls_id s k : pr_calls s !! k = None → set_calls s (delete k (pr_calls s)) = s.
Proof. intros Hk. rewrite delete_id by done. by destruct s. Qed.

Lemma ninv_set_idle s k p e ck ck' : ninv s → clerk_at s k = Some (p, e, ck) →
  (∀ r t, ck_doing ck ≠ Trying r t) → (ck_doing ck' ≠ Idle → is_Some (ks_clerks (pr_cfg s) !! p)) →
  ninv (kvnet.set_clerk s p e ck').
Proof.
  intros Hs Hat Hno Hl. pose proof (not_called _ _ _ _ _ Hs Hat Hno) as Hk.
  pose proof (ninv_set_clerk s k p e ck ck' Hs Hat Hl) as Hn. rewrite set_calls_id in Hn by done.
  apply Hn. intros i c Hi. congruence.
Qed.

Lemma set_clerk_id s p e ck : kvnet.heap s !! p = Some (KClerk e ck) → kvnet.set_clerk s p e ck = s.
Proof.
  intros Hp. unfold kvnet.set_clerk. rewrite list_insert_id by done.
  destruct s as [[? [? ? ? [? ?] ? ?] ? ? ? ? ? ? ?] ? ?]. done.
Qed.

(** The actions of the network. *)
Lemma act_memory s a w : ninv s → act (kvnet.world s) a = Some (Done w) →
  (length (ka_heap (w_app w)) = length (kvnet.heap s)) ∧ ka_now (w_app w) = now (pr_cfg s) ∧
  (∀ p kv, kvnet.heap s !! p = Some (KServer kv) → ∃ kv', ka_heap (w_app w) !! p = Some (KServer kv')) ∧
  (∀ p e ck, kvnet.heap s !! p = Some (KClerk e ck) → ka_heap (w_app w) !! p = Some (KClerk e ck)).
Proof.
  intros Hs Ha. destruct (act_effect _ _ _ Hs Ha) as [[_ ->]|
    (i & k & p & e & ck & r & t & c & kv & rv & _ & _ & _ & _ & _ & _ & Hp0 & _ & _ & -> & _)].
  - by eauto.
  - simpl. rewrite length_insert. split_and!; [done|done|..].
    + intros q kv' Hq. destruct (decide (p0 = q)) as [->|].
      * rewrite list_lookup_insert_eq by (by eapply lookup_lt_Some). eauto.
      * rewrite list_lookup_insert_ne by done. eauto.
    + intros q e' ck' Hq. rewrite list_lookup_insert_ne; [done|]. intros ->.
      unfold kvnet.heap, mem, kvnet.world in *. congruence.
Qed.

Lemma ninv_act s a w calls : ninv s → act (kvnet.world s) a = Some (Done w) → quiet a = true →
  (∀ i c, w_calls w !! i = Some c → (∃ k, calls !! k = Some i) ∨ ∃ ok v, cl_caller c = Returned ok v) →
  (∀ k k' i, calls !! k = Some i → calls !! k' = Some i → k = k') →
  (∀ k i, calls !! k = Some i → called (MkProcess (set_w w (pr_cfg s)) (pr_clerks s) calls) k i) →
  ninv (MkProcess (set_w w (pr_cfg s)) (pr_clerks s) calls).
Proof.
  intros Hs Ha Hq Hcs Hinj Hcd. destruct (act_memory _ _ _ Hs Ha) as (Hlen & Hnow & Hsv & Hck).
  destruct (quiet_net _ _ _ (ni_net _ Hs) Ha Hq) as (He & Hen & Hco & Hsr & Hd & Hst).
  destruct (ni_server _ Hs) as (Hk & Hsvc & kv & Hp0). split; simpl; try done.
  - eapply reach_step; [apply (ni_reach _ Hs)|]. apply step_background. split; try done.
    unfold KvSrvConfigTheorems.heap, mem. simpl. by rewrite Hlen.
  - eapply netinv_act; [apply (ni_net _ Hs)|by apply ninv_uncut|done..].
  - split_and!; [done..|]. destruct (Hsv _ _ Hp0) as [kv' ?]. by exists kv'.
  - apply (ni_nodup _ Hs).
  - intros k p Hkp. destruct (ni_clerk _ Hs _ _ Hkp) as (e & ck & Hp & Hrest). exists e, ck.
    split; [by apply Hck|exact Hrest].
  - unfold kvnet.world at 1 2. simpl. intros i c' x Hc' Hx.
    assert (∃ c, cl_reply c' = cl_reply c ∧ (w_calls (kvnet.world s) !! i = Some c ∨
      w_calls (kvnet.world s) !! i = None ∧ ∀ j, a ≠ AServiceDispatch j)) as (c & Hre & Hc).
    { destruct (act_call _ _ _ _ _ Ha Hc') as [[Hc _]|[(c & Hc & _ & Hcst)|(Hc & e & m & args & rv & -> & _)]].
      - eauto.
      - exists c. split; [by apply (cstep_keeps _ _ _ Hcst)|by left].
      - exists c'. split; [done|]. right. done. }
    rewrite Hre. destruct (act_effect _ _ _ Hs Ha) as [[Hl _]|
      (j & k & p & e & ck & r & t & c1 & kv1 & rv & -> & _ & _ & _ & Hc1 & Hre1 & _ & Hx1 & Hl & _ & _ & Hdec)];
      rewrite Hl in Hx.
    + destruct Hc as [Hc|[Hc _]]; [by apply (ni_replies _ Hs i)|].
      pose proof (nv_w _ (ni_net _ Hs) i) as Hw. rewrite Hc in Hw. rewrite Hw in Hx. set_solver.
    + destruct Hc as [Hc|[_ Hc]]; [|by destruct (Hc j)]. destruct (decide (j = i)) as [->|Hne].
      * rewrite execs_snoc, Hx1 in Hx. apply list_elem_of_singleton in Hx as ->.
        rewrite Hc in Hc1. simplify_eq. by rewrite Hre1.
      * rewrite execs_snoc_ne in Hx by done. by apply (ni_replies _ Hs i).
Qed.

(** A call that a clerk waits for stays that call. *)
Lemma called_act s a w k i : ninv s → act (kvnet.world s) a = Some (Done w) → called s k i →
  ∀ calls, called (MkProcess (set_w w (pr_cfg s)) (pr_clerks s) calls) k i.
Proof.
  intros Hs Ha (p & e & ck & r & t & c & [Hk Hp]%clerk_at_spec & Hdo & Hc & He & Hm & Har & Hre) calls.
  destruct (act_memory _ _ _ Hs Ha) as (_ & _ & _ & Hck).
  destruct (call_keeps _ _ _ _ _ Ha Hc) as (c' & Hc' & Hq & Ha' & Hr' & _).
  exists p, e, ck, r, t, c'. split_and!; [|done|done|congruence..].
  apply clerk_at_spec. split; [done|]. by apply Hck.
Qed.

Lemma ninv_network s a w : ninv s → act (kvnet.world s) a = Some (Done w) → of_network a = true →
  ninv (with_world s w).
Proof.
  intros Hs Ha Hq. apply (ninv_act _ a); [done|done|by unfold quiet; rewrite Hq| |apply (ni_inj _ Hs)|].
  - intros i c' Hc'. destruct (act_call _ _ _ _ _ Ha Hc') as [[Hc _]|[(c & Hc & _ & Hst)|
      (_ & e & m & args & rv & -> & _)]]; [by apply (ni_calls _ Hs)| |done].
    destruct (ni_calls _ Hs _ _ Hc) as [?|(ok & v & Hr)]; [by left|right].
    exists ok, v. by apply (cstep_keeps _ _ _ Hst).
  - intros k i Hk. apply (called_act _ a); [done..|]. by apply (ni_called _ Hs).
Qed.

Lemma ninv_call s k i p e ck r t w : ninv s → clerk_at s k = Some (p, e, ck) → ck_doing ck = Trying r t →
  pr_calls s !! k = None →
  act (kvnet.world s) (ACall i e (method r) (args_of ck r) (reply_of r)) = Some (Done w) →
  ninv (set_calls (with_world s w) (<[k := i]> (pr_calls s))).
Proof.
  intros Hs Hat Hdo Hno Ha. pose proof Ha as Hact. simpl in Hact.
  destruct (w_calls (kvnet.world s) !! i) eqn:Hi; [done|]. injection Hact as Hw.
  apply bind_Done in Hw as (c & Hcall & Hw). apply Done_inj in Hw as <-.
  assert (∀ k' i', pr_calls s !! k' = Some i' → i' ≠ i) as Hnew.
  { intros k' i' Hk' ->. destruct (ni_called _ Hs _ _ Hk') as (? & ? & ? & ? & ? & ? & _ & _ & Hc & _).
    congruence. }
  apply (ninv_act s (ACall i e (method r) (args_of ck r) (reply_of r))); [done|done|done|..].
  - intros j c' Hc'. simpl in Hc'. destruct (decide (j = i)) as [->|Hne].
    { left. exists k. by rewrite lookup_insert_eq. }
    rewrite lookup_insert_ne in Hc' by done.
    destruct (ni_calls _ Hs _ _ Hc') as [[k' Hk']|?]; [left|by right].
    exists k'. rewrite lookup_insert_ne; [done|]. intros ->. congruence.
  - intros k1 k2 j. rewrite !lookup_insert_Some. intros [[<- <-]|[Hne H1]] [[<- Hj]|[Hne' H2]]; try done.
    + by destruct (Hnew _ _ H2).
    + subst. by destruct (Hnew _ _ H1).
    + by eapply (ni_inj _ Hs).
  - intros k' j. rewrite lookup_insert_Some. intros [[<- <-]|[Hne Hk']].
    + unfold Call in Hcall. destruct (encode (args_of ck r)) as [b [|]]; simplify_eq.
      apply clerk_at_spec in Hat as [Hk Hp].
      eexists p, e, ck, r, t, _. split_and!; [by apply clerk_at_spec|done|..].
      * simpl. by rewrite lookup_insert_eq.
      * done.
      * done.
      * done.
      * done.
    + eapply called_act; [done..|]. by apply (ni_called _ Hs).
Qed.
(** The loop of a call runs only for a clerk that waits for it, on its end. *)
Definition in_loop (c : @call name kvalue kapp) : bool :=
  match cl_proc c with InLoop _ _ _ _ | LoopLeft _ _ _ _ _ => true | _ => false end.

Lemma in_loop_live s i c : ninv s → w_calls (kvnet.world s) !! i = Some c → in_loop c = true →
  ∃ k p e ck r t nm, clerk_at s k = Some (p, e, ck) ∧ ck_doing ck = Trying r t ∧
    ks_clerks (pr_cfg s) !! p = Some nm ∧ rq_endname (cl_req c) = NStr nm.
Proof.
  intros Hs Hc Hp. destruct (ni_calls _ Hs _ _ Hc) as [[k Hk]|(ok & v & Hr)].
  - destruct (ni_called _ Hs _ _ Hk) as (p & e & ck & r & t & c' & Hck & Hdo & Hc' & He & _).
    rewrite Hc in Hc'. simplify_eq. pose proof Hck as [Hkp Hh]%clerk_at_spec.
    destruct (ni_clerk _ Hs _ _ Hkp) as (e' & ck' & Hp' & Hl & Hnm). rewrite Hh in Hp'. simplify_eq.
    destruct Hl as [nm Hl]; [by rewrite Hdo|]. exists k, p, e', ck', r, t, nm.
    split_and!; [done..|]. by rewrite He, (Hnm _ Hl).
  - destruct (nv_attended _ (ni_net _ Hs) _ _ Hc) as (_ & _ & Hat).
    unfold in_loop in Hp. destruct (cl_proc c); try done; congruence.
Qed.

(** Ends are made and deleted under the calls. *)
Lemma netinv_maps w (rn : @Network name _ _) : netinv w →
  rn_servers rn = rn_servers (w_net w) → rn_done rn = rn_done (w_net w) →
  (∀ e sn, rn_connections rn !! e = Some (Some sn) → sn = NInt 0) →
  (∀ i c, w_calls w !! i = Some c → in_loop c = true →
    rn_connections rn !! rq_endname (cl_req c) = rn_connections (w_net w) !! rq_endname (cl_req c)) →
  netinv (with_net w rn).
Proof.
  intros [] Hsv Hd Hco Hloop. split; simpl; try done.
  - congruence.
  - unfold server_at. by rewrite Hsv.
  - intros i c Hc. pose proof (nv_aimed0 i c Hc) as Hai. pose proof (Hloop i c Hc) as Hl.
    unfold aimed, in_loop, server_at in *. rewrite Hsv. destruct (cl_proc c); try done; by rewrite Hl.
Qed.

Lemma ninv_delete s k p e ck nm c' : ninv s → clerk_at s k = Some (p, e, ck) → ck_doing ck = Idle →
  ks_clerks (pr_cfg s) !! p = Some nm → deleteClient p (pr_cfg s) = Done c' → ninv (with_cfg s c').
Proof.
  intros Hs Hat Hdo Hnm Hdel. pose proof (kvsrv_reach_inv _ (ni_reach _ Hs)) as Hinv.
  assert (reach c') as Hr'.
  { eapply reach_step; [apply (ni_reach _ Hs)|]. by eapply step_delete. }
  unfold deleteClient in Hdel. rewrite Hnm in Hdel. cbn [default from_option id] in Hdel.
  apply bind_Done in Hdel as (rn & Hrn & Hc'). apply Done_inj in Hc' as <-.
  unfold DeleteEnd in Hrn. destruct (rn_ends _ !! _) as [ce|]; [|done]. apply Done_inj in Hrn as <-.
  split; simpl; try apply Hs; [done|..].
  - apply netinv_maps; [apply (ni_net _ Hs)|done|done|..]; simpl.
    + intros e' sn [_ Hco]%lookup_delete_Some. by apply (nv_conn _ (ni_net _ Hs) e').
    + intros i c Hc Hl. destruct (in_loop_live _ _ _ Hs Hc Hl)
        as (k' & p' & e' & ck' & r & t & nm' & Hat' & Hdo' & Hnm' & ->).
      rewrite lookup_delete_ne; [done|]. intros [= <-].
      assert (p' = p) as -> by (by eapply (iv_inj _ Hinv)).
      apply clerk_at_spec in Hat as [_ Hp]. apply clerk_at_spec in Hat' as [_ Hp']. congruence.
  - intros k' p' Hk'. destruct (ni_clerk _ Hs _ _ Hk') as (e' & ck' & Hp' & Hl & Hnm').
    exists e', ck'. split; [done|]. split.
    + intros Hbusy. destruct (Hl Hbusy) as [nm' Hp'']. exists nm'. apply lookup_delete_Some.
      split; [|done]. intros <-. apply clerk_at_spec in Hat as [_ Hp]. congruence.
    + intros nm' [_ ?]%lookup_delete_Some. by apply Hnm'.
Qed.

Lemma ninv_make s endname rand c' p : ninv s → makeClient endname rand (pr_cfg s) = Done (c', p) →
  ninv (MkProcess c' (pr_clerks s ++ [p]) (pr_calls s)) ∧ p = length (kvnet.heap s) ∧
  kvnet.heap (with_cfg s c') = kvnet.heap s ++ [KClerk (MkClientEnd (NStr endname)) (clerk.MakeClerk rand)] ∧
  w_calls (ks_w c') = w_calls (kvnet.world s) ∧ w_log (ks_w c') = w_log (kvnet.world s) ∧
  now c' = now (pr_cfg s) ∧ ks_kvserver c' = ks_kvserver (pr_cfg s).
Proof.
  intros Hs Hmk. pose proof (kvsrv_reach_inv _ (ni_reach _ Hs)) as Hinv.
  assert (reach c') as Hr'.
  { eapply reach_step; [apply (ni_reach _ Hs)|]. by eapply step_make. }
  unfold makeClient in Hmk. apply bind_Done in Hmk as ([rn e] & Hrn & Hmk).
  unfold MakeEnd in Hrn. destruct (rn_ends (net (pr_cfg s)) !! NStr endname) eqn:Hnew; [done|].
  apply Done_inj, pair_equal_spec in Hrn as [<- <-]. unfold kalloc in Hmk.
  apply Done_inj, pair_equal_spec in Hmk as [<- <-]. split; [|done].
  unfold ConnectClientUnlocked in *. cbn [ks_clerks set_clerks] in *.
  rewrite lookup_insert_eq in *. cbn [default from_option id] in *.
  assert (∀ k p, pr_clerks s !! k = Some p → p < length (kvnet.heap s))%nat as Hold.
  { intros k p Hk. destruct (ni_clerk _ Hs _ _ Hk) as (? & ? & Hp & _). by eapply lookup_lt_Some. }
  assert (∀ p nm, ks_clerks (pr_cfg s) !! p = Some nm → p < length (kvnet.heap s))%nat as Hold'.
  { intros p nm Hp. by destruct (iv_clerk _ Hinv _ _ Hp). }
  destruct (ni_server _ Hs) as (Hk & Hsvc & kv & Hp0).
  split; simpl; [done|..].
  - apply (netinv_mem (with_net (kvnet.world s) _)).
    apply netinv_maps; [apply (ni_net _ Hs)|done|done|..]; simpl.
    + intros e' sn. rewrite !lookup_insert_Some. intros [[_ ?]|[_ [[_ ?]|[_ Hco]]]]; [by simplify_eq..|].
      by apply (nv_conn _ (ni_net _ Hs) e').
    + intros i c Hc Hl. destruct (in_loop_live _ _ _ Hs Hc Hl)
        as (k' & p' & e' & ck' & r & t & nm' & Hat' & Hdo' & Hnm' & ->).
      destruct (iv_clerk _ Hinv _ _ Hnm') as (_ & [x Hx] & _).
      rewrite !lookup_insert_ne; [done|by intros [= <-]; rewrite Hnew in Hx..].
  - split_and!; [done|done|]. exists kv. unfold kvnet.heap, mem. simpl. by apply lookup_app_l_Some.
  - apply NoDup_app. split_and!; [apply (ni_nodup _ Hs)| |apply NoDup_singleton].
    intros p [k Hkp]%list_elem_of_lookup ->%list_elem_of_singleton. apply Hold in Hkp.
    unfold kvnet.heap, mem in Hkp. simpl in Hkp. lia.
  - intros k p Hkp. apply lookup_app_Some in Hkp as [Hkp|[Hge Hkp]].
    + pose proof (Hold _ _ Hkp) as Hlt.
      destruct (ni_clerk _ Hs _ _ Hkp) as (e' & ck' & Hp' & Hl & Hnm').
      exists e', ck'. unfold kvnet.heap, mem in *. simpl.
      rewrite lookup_insert_ne by (unfold kvnet.heap, mem in *; simpl; lia).
      split; [|done]. by apply lookup_app_l_Some.
    + apply list_lookup_singleton_Some in Hkp as [_ <-]. eexists _, _.
      unfold kvnet.heap, mem. simpl. rewrite lookup_app_r, Nat.sub_diag by done.
      rewrite lookup_insert_eq. simpl. split_and!; [done|done|]. by intros nm [= <-].
  - intros k i Hki. destruct (ni_called _ Hs _ _ Hki) as (p & e & ck & r & t & c & Hat & Hrest).
    exists p, e, ck, r, t, c. split; [|exact Hrest]. apply clerk_at_spec in Hat as [Hkp Hp].
    apply clerk_at_spec. split; simpl; [by apply lookup_app_l_Some|].
    unfold kvnet.heap, mem in *. simpl. by apply lookup_app_l_Some.
  - apply (ni_inj _ Hs).
  - apply (ni_calls _ Hs).
  - apply (ni_replies _ Hs).
Qed.

(** Every event keeps the invariant. *)
Lemma ninv_happen s ev s' o : ninv s → happen s ev = Some (Done (s', o)) → ninv s'.
Proof.
  intros Hs Hh. destruct ev as [endname rand|k|k r|k i|k|k|a|d]; cbn [happen] in Hh.
  - injection Hh as Hh. apply bind_Done in Hh as ([c' p] & Hmk & Hh).
    apply Done_inj, pair_equal_spec in Hh as [<- _]. by eapply ninv_make.
  - destruct (clerk_at s k) as [[[p e] ck]|] eqn:Hat; [|done]. cbn [mbind option_bind] in Hh.
    destruct (ck_doing ck) eqn:Hdo; try done. destruct (ks_clerks _ !! p) as [nm|] eqn:Hnm; [|done].
    injection Hh as Hh. apply bind_Done in Hh as (c' & Hdel & Hh).
    apply Done_inj, pair_equal_spec in Hh as [<- _]. by eapply ninv_delete.
  - destruct (clerk_at s k) as [[[p e] ck]|] eqn:Hat; [|done]. cbn [mbind option_bind] in Hh.
    destruct (ck_doing ck) eqn:Hdo; try done. destruct (ks_clerks _ !! p) as [nm|] eqn:Hnm; [|done].
    injection Hh as <- _. apply (ninv_set_idle _ k _ _ ck); [done|done| |by rewrite Hnm; eexists].
    intros ??. by rewrite Hdo.
  - destruct (clerk_at s k) as [[[p e] ck]|] eqn:Hat; [|done]. cbn [mbind option_bind] in Hh.
    destruct (ck_doing ck) eqn:Hdo; try done. destruct (pr_calls s !! k) eqn:Hno; [done|].
    destruct (act _ _) as [m|] eqn:Ha; [|done]. injection Hh as Hh.
    apply bind_Done in Hh as (w & -> & Hh). apply Done_inj, pair_equal_spec in Hh as [<- _].
    by eapply ninv_call.
  - destruct (clerk_at s k) as [[[p e] ck]|] eqn:Hat; [|done]. cbn [mbind option_bind] in Hh.
    destruct (pr_calls s !! k) as [i|] eqn:Hk; [|done]. cbn [mbind option_bind] in Hh.
    destruct (w_calls _ !! i) as [c|] eqn:Hc; [|done]. cbn [mbind option_bind] in Hh.
    destruct (ck_doing ck) as [|r t|] eqn:Hdo; try done. destruct (cl_caller c) as [| |ok v] eqn:Hca; try done.
    pose proof Hat as [Hkp Hp]%clerk_at_spec.
    destruct (ni_clerk _ Hs _ _ Hkp) as (e' & ck' & Hp' & Hl & _). rewrite Hp in Hp'. simplify_eq.
    assert (∀ j c0, pr_calls s !! k = Some j → w_calls (kvnet.world s) !! j = Some c0 →
      ∃ ok v, cl_caller c0 = Returned ok v) as Hret.
    { intros j c0 Hj Hc0. simplify_eq. eauto. }
    destruct ok; simplify_eq.
    + eapply ninv_set_clerk; [done|done| |done]. intros _. apply Hl. by rewrite Hdo.
    + assert (kvnet.set_clerk (set_calls s (delete k (pr_calls s))) p e' ck' = set_calls s (delete k (pr_calls s))) as <-.
      { by apply set_clerk_id. }
      by eapply ninv_set_clerk.
  - destruct (clerk_at s k) as [[[p e] ck]|] eqn:Hat; [|done]. cbn [mbind option_bind] in Hh.
    destruct (ck_doing ck) as [|r t|r t v] eqn:Hdo; try done. injection Hh as <- _.
    apply (ninv_set_idle _ k _ _ ck); [done|done| |done]. intros ??. by rewrite Hdo.
  - destruct (of_network a) eqn:Hq; [|done]. destruct (act _ a) as [m|] eqn:Ha; [|done].
    injection Hh as Hh. apply bind_Done in Hh as (w & -> & Hh). apply Done_inj, pair_equal_spec in Hh as [<- _].
    by eapply ninv_network.
  - destruct (0 <? d); [|done]. injection Hh as <- _. by apply ninv_tick.
Qed.

Lemma ninv_step s ev s' o : ninv s → step s ev = Some (Done (s', o)) → ninv s'.
Proof.
  intros Hs Hst. unfold step in Hst. destruct (happen s ev) as [m|] eqn:Hh; [|done].
  injection Hst as Hst. apply bind_Done in Hst as ([s1 o1] & -> & Hst).
  apply Done_inj, pair_equal_spec in Hst as [<- _]. by eapply ninv_tick, ninv_happen.
Qed.
End facts.

Lemma ninv_start `{KvCodec} t u s : start t u = Done s →
  ∃ p0 a0 svc0, ninv p0 a0 svc0 s ∧ kvnet.heap s !! p0 = Some (KServer kvsrv.StartKVServer) ∧
    pr_clerks s = [] ∧ now (pr_cfg s) = t.
Proof.
  intros Hs. unfold start in Hs. apply bind_Done in Hs as (c & Hc & Hs). apply Done_inj in Hs as <-.
  assert (reach c) as Hr by (by eapply reach_make).
  unfold make_config in Hc. apply bind_Done in Hc as (c1 & H1 & Hc).
  apply Done_inj in Hc as <-. unfold StartServer, kalloc in H1. cbv beta iota zeta in H1.
  apply bind_Done in H1 as (svc & Hsvc & H1). apply Done_inj in H1 as <-.
  assert (sv_name svc = "KVServer") as Hname.
  { unfold MakeService in Hsvc. apply bind_Done in Hsvc as (ms & _ & Hsvc). by apply Done_inj in Hsvc as <-. }
  exists 0%nat, (fresh (dom (∅ : gmap nat (@Server kvalue kapp)))), svc. split_and!; [|done|done|done]. split; simpl; try done; [| |constructor].
  - split; simpl; try done.
    eexists. rewrite lookup_insert_eq. split; [done|]. simpl. by rewrite Hname, lookup_insert_eq.
  - split_and!; [done|done|]. by eexists.
Qed.
End kvnetproof.
