(* ===== verification/KvSrvNetRefine.v ===== *)
(** * Clerks on the network refine the machine of clerks and server

    The calls, goroutines and retries of KvSrvNet.v are seen as the actions of
    [kvsys.step]: the execution of a handler is the action [Exec], and its flag says
    whether that call will return the reply.  This depends on what the network does
    later, so the abstraction of a process looks at the final world. *)

From S2P Require Import Prelude LabRpc LabRpcFacts LabRpcClient Porcupine KvModel Harness HarnessFacts.
From S2P Require Import KvSrv KvSrvFacts KvSrvConfig KvSrvConfigTheorems KvSrvNet KvSrvNetFacts.
Import kvsrvcfg kvnet.
Open Scope Z_scope.

(** Runs of [kvsys.step] with explicit times, later at every action. *)
Fixpoint timed_run (σ : sys) (t : Z) (acts : list (Z * action)) : option (sys * list (Operation kvmodel.iface)) :=
  match acts with
  | [] => Some (σ, [])
  | (t', a) :: acts' =>
      if t <=? t' then
        '(σ1, o) ← kvsys.step σ t' a;
        '(σ2, ops) ← timed_run σ1 (t' + 1) acts';
        Some (σ2, op_list o ++ ops)
      else None
  end.

Section observe.
Context `{Codec kvalue}.
Implicit Types s : process.

(** The fields of the server object. *)
Definition server_of s : KVServer :=
  match ks_kvserver (pr_cfg s) ≫= (λ p, kvnet.heap s !! p) with
  | Some (KServer kv) => kv
  | _ => kvsrv.StartKVServer
  end.

(** A call returns false although its put was executed, and the client has no
    table entry. *)
Definition lost_put s (ev : event) : bool :=
  match ev with
  | NReturn k =>
      match clerk_at s k, pr_calls s !! k with
      | Some (_, _, MkClerk id _ (Trying (RPut _ _) _)), Some i =>
          match labrpc.cl_caller <$> labrpc.w_calls (world s) !! i,
            rpcproof.execs i (labrpc.w_log (world s)), kv_clientTable (server_of s) !! id with
          | Some (labrpc.Returned false _), _ :: _, None => true
          | _, _, _ => false
          end
      | _, _ => false
      end
  | _ => false
  end.

(** This happens nowhere in the run. *)
Fixpoint unharmed s (evs : list event) : bool :=
  match evs with
  | [] => true
  | ev :: evs' =>
      negb (lost_put s ev) &&
      match step s ev with Some (Done (s1, _)) => unharmed s1 evs' | _ => true end
  end.

(** No clerk is inside an operation. *)
Definition idle s : Prop := ∀ k p e ck, clerk_at s k = Some (p, e, ck) → ck_doing ck = Idle.
End observe.

Module kvnetrefine.
Import labrpc rpcproof rpcclient kvnetproof.

Lemma imap_update {A B} (f g : nat → A → B) (l : list A) k x y :
  l !! k = Some x → g k x = y → (∀ j z, l !! j = Some z → j ≠ k → g j z = f j z) →
  imap g l = <[k := y]> (imap f l).
Proof.
  intros Hk Hy Hoth. apply list_eq. intros j. rewrite list_lookup_imap.
  destruct (decide (j = k)) as [->|Hne].
  - rewrite Hk, list_lookup_insert_eq; simpl; [by rewrite Hy|].
    rewrite length_imap. by eapply lookup_lt_Some.
  - rewrite list_lookup_insert_ne, list_lookup_imap by done.
    destruct (l !! j) as [z|] eqn:Hj; simpl; [|done]. by rewrite Hoth.
Qed.

Section refine.
Context `{HC : KvCodec}.
Context (p0 a0 : nat) (svc0 : @Service kvalue kapp).
(** The world at the end of the run. *)
Context (wf : kworld).
Implicit Types (s : process) (w : kworld).

(** The world [w] can be followed by [w']. *)
Record follows w w' : Prop := {
  fw_calls i c : w_calls w !! i = Some c → ∃ c', w_calls w' !! i = Some c' ∧ same_call c c';
  fw_log : w_log w `prefix_of` w_log w';
}.

Lemma follows_refl w : follows w w.
Proof. split; [|done]. intros i c Hc. exists c. by repeat split. Qed.

Lemma follows_trans w1 w2 w3 : follows w1 w2 → follows w2 w3 → follows w1 w3.
Proof.
  intros [Hc1 Hl1] [Hc2 Hl2]. split; [|by etrans]. intros i c Hc.
  destruct (Hc1 _ _ Hc) as (c1 & H1 & Hr1 & Ha1 & Hv1 & Hk1).
  destruct (Hc2 _ _ H1) as (c2 & H2 & Hr2 & Ha2 & Hv2 & Hk2).
  exists c2. split; [done|]. repeat split; try congruence. intros ok v Hca. by apply Hk2, Hk1.
Qed.

Lemma follows_act w a w' : act w a = Some (Done w') → follows w w'.
Proof.
  intros Ha. split; [|by eapply act_log]. intros i c Hc. by eapply call_keeps.
Qed.

(** The value that call [i] returns in the end, if it returns true. *)
Definition delivered (i : nat) : option string :=
  c ← w_calls wf !! i;
  match cl_caller c with Returned true v => Some (value_of v) | _ => None end.

Definition abs_doing s (k : nat) (ck : Clerk) : activity :=
  match ck_doing ck, pr_calls s !! k with
  | Trying r t, Some i =>
      match execs i (w_log (kvnet.world s)), delivered i with
      | _ :: _, Some v => Replied r t v
      | _, _ => Trying r t
      end
  | d, _ => d
  end.

Definition abs_clerk s (k p : nat) : Clerk :=
  match kvnet.heap s !! p with
  | Some (KClerk _ ck) => kvsys.with_doing ck (abs_doing s k ck)
  | _ => clerk.MakeClerk 0
  end.

Definition abs_server s : KVServer :=
  match kvnet.heap s !! p0 with Some (KServer kv) => kv | _ => kvsrv.StartKVServer end.

(** [fut] has the client ids of the clerks that are not made yet. *)
Definition abs (fut : list Z) s : sys :=
  MkSys (abs_server s) (imap (abs_clerk s) (pr_clerks s) ++ (clerk.MakeClerk <$> fut)).

Notation ninv := (ninv p0 a0 svc0).

Lemma abs_clerk_at s k p e ck : clerk_at s k = Some (p, e, ck) →
  pr_clerks s !! k = Some p ∧ abs_clerk s k p = kvsys.with_doing ck (abs_doing s k ck).
Proof. intros [Hk Hp]%clerk_at_spec. split; [done|]. unfold abs_clerk. by rewrite Hp. Qed.

Lemma abs_lookup fut s k p e ck : clerk_at s k = Some (p, e, ck) →
  sy_clerks (abs fut s) !! k = Some (kvsys.with_doing ck (abs_doing s k ck)).
Proof.
  intros [Hk Ha]%abs_clerk_at. simpl. apply lookup_app_l_Some. by rewrite list_lookup_imap, Hk, <- Ha.
Qed.

(** What decides the abstraction of a clerk. *)
Lemma abs_clerk_ext s s' k p : kvnet.heap s' !! p = kvnet.heap s !! p → pr_calls s' !! k = pr_calls s !! k →
  (∀ i, pr_calls s !! k = Some i → execs i (w_log (kvnet.world s')) = execs i (w_log (kvnet.world s))) →
  abs_clerk s' k p = abs_clerk s k p.
Proof.
  intros Hh Hk Hx. unfold abs_clerk, abs_doing. rewrite Hh, Hk.
  destruct (kvnet.heap s !! p) as [[|e ck]|]; try done.
  destruct (pr_calls s !! k) as [i|]; [|done]. by rewrite (Hx i).
Qed.

Lemma abs_same fut s s' : pr_clerks s' = pr_clerks s → abs_server s' = abs_server s →
  (∀ k p, pr_clerks s !! k = Some p → abs_clerk s' k p = abs_clerk s k p) → abs fut s' = abs fut s.
Proof.
  intros Hc Hs Hk. unfold abs. rewrite Hc, Hs. do 2 f_equal. apply imap_ext. intros j x Hj. by apply Hk.
Qed.

Lemma abs_update fut s s' k p ck : ninv s → pr_clerks s' = pr_clerks s → abs_server s' = abs_server s →
  pr_clerks s !! k = Some p → abs_clerk s' k p = ck →
  (∀ j q, pr_clerks s !! j = Some q → j ≠ k → q ≠ p → abs_clerk s' j q = abs_clerk s j q) →
  abs fut s' = kvsys.set_clerk (abs fut s) k ck.
Proof.
  intros Hs Hc Hsv Hk Hck Hoth. unfold abs, kvsys.set_clerk. simpl. rewrite Hc, Hsv. f_equal.
  rewrite insert_app_l by (rewrite length_imap; by eapply lookup_lt_Some).
  f_equal. eapply imap_update; [done|done|]. intros j q Hj Hne. apply Hoth; [done..|].
  intros ->. apply Hne. eapply NoDup_lookup; [apply (ni_nodup _ _ _ _ Hs)|done..].
Qed.

(** The change of one clerk outside its loop. *)
Lemma abs_set_clerk fut s k p e ck ck' : ninv s → clerk_at s k = Some (p, e, ck) →
  pr_calls s !! k = None → abs fut (kvnet.set_clerk s p e ck') = kvsys.set_clerk (abs fut s) k ck'.
Proof.
  intros Hs [Hk Hp]%clerk_at_spec Hno. assert (p < length (kvnet.heap s))%nat by (by eapply lookup_lt_Some).
  eapply abs_update; [done|done| |done|..].
  - unfold abs_server, kvnet.heap, mem. simpl. rewrite list_lookup_insert_ne; [done|]. intros ->.
    destruct (ni_server _ _ _ _ Hs) as (_ & _ & kv & Hkv). congruence.
  - unfold abs_clerk. unfold kvnet.heap at 1, mem. simpl. rewrite list_lookup_insert_eq by done.
    unfold abs_doing. simpl. rewrite Hno. by destruct ck' as [? ? []].
  - intros j q Hj Hne Hq. apply abs_clerk_ext; [|done|done]. unfold kvnet.heap at 1, mem. simpl.
    by rewrite list_lookup_insert_ne.
Qed.

Lemma abs_tick fut s d : abs fut (tick d s) = abs fut s.
Proof. by apply abs_same. Qed.
(** ** One event *)

(** Clerk [k] waits for a put that was executed without a table entry, and whose
    reply will be lost. *)
Definition unsettled s (k i : nat) : Prop := ∃ p e ck key x t,
  clerk_at s k = Some (p, e, ck) ∧ ck_doing ck = Trying (RPut key x) t ∧ pr_calls s !! k = Some i ∧
  execs i (w_log (kvnet.world s)) ≠ [] ∧ delivered i = None ∧
  kv_clientTable (abs_server s) !! ck_clientId ck = None.

(** The event shows as no action, or as one. *)
Definition matches (fut : list Z) s (t : Z) (fut' : list Z) s' (o : option (Operation kvmodel.iface)) : Prop :=
  (abs fut s = abs fut' s' ∧ o = None) ∨
  ∃ a, kvsys.step (abs fut s) t a = Some (abs fut' s', o) ∧
    (kvsys.unrecorded_put (abs fut s) a = true → ∃ k i, unsettled s' k i).

Definition makes (ev : event) : list Z := match ev with NMake _ rand => [rand] | _ => [] end.

Lemma with_doing_id ck : kvsys.with_doing ck (ck_doing ck) = ck.
Proof. by destruct ck. Qed.

Lemma abs_doing_quiet s k ck : (∀ r t, ck_doing ck ≠ Trying r t) ∨ pr_calls s !! k = None →
  abs_doing s k ck = ck_doing ck.
Proof.
  unfold abs_doing. intros Hq. destruct (ck_doing ck) as [|r t|]; try done.
  destruct Hq as [Hq| ->]; [by destruct (Hq r t)|done].
Qed.

Lemma make_matches fut s endname rand c p : ninv s → makeClient endname rand (pr_cfg s) = Done (c, p) →
  abs (rand :: fut) s = abs fut (MkProcess c (pr_clerks s ++ [p]) (pr_calls s)).
Proof.
  intros Hs Hmk. destruct (ninv_make _ _ _ _ _ _ _ _ Hs Hmk) as (_ & -> & Hh & Hc & Hl & _ & _).
  set (s' := MkProcess _ _ _). assert (kvnet.heap s' = kvnet.heap (with_cfg s c)) as Hh' by done.
  rewrite Hh in Hh'. unfold abs. f_equal.
  - unfold abs_server. rewrite Hh'. destruct (ni_server _ _ _ _ Hs) as (_ & _ & kv & Hkv). rewrite Hkv.
    by rewrite (lookup_app_l_Some _ _ _ _ Hkv).
  - simpl. rewrite imap_app, <- app_assoc. f_equal.
    + apply imap_ext. intros k q Hq. symmetry. apply abs_clerk_ext; [|done|].
      * rewrite Hh'. destruct (ni_clerk _ _ _ _ Hs _ _ Hq) as (e & ck & Hp & _). rewrite Hp.
        by apply lookup_app_l_Some.
      * intros i _. unfold kvnet.world, s'. simpl. by rewrite Hl.
    + simpl. f_equal. unfold abs_clerk. rewrite Hh', lookup_app_r, Nat.sub_diag by done. simpl.
      rewrite abs_doing_quiet; [done|by left].
Qed.

Lemma invoke_matches fut s k r p e ck : ninv s → clerk_at s k = Some (p, e, ck) → ck_doing ck = Idle →
  kvsys.step (abs fut s) (now (pr_cfg s)) (Invoke k r) =
    Some (abs fut (kvnet.set_clerk s p e (clerk.begin ck r (now (pr_cfg s)))), None).
Proof.
  intros Hs Hat Hdo. assert (∀ r t, ck_doing ck ≠ Trying r t) as Hno by (by rewrite Hdo).
  cbn [kvsys.step]. rewrite (abs_lookup fut s k p e ck Hat).
  rewrite abs_doing_quiet, with_doing_id by (by left). simpl. rewrite Hdo.
  by rewrite (abs_set_clerk fut s k p e ck) by (done || by eapply not_called).
Qed.

Lemma finish_matches fut s k r t v p e ck : ninv s → clerk_at s k = Some (p, e, ck) →
  ck_doing ck = Replied r t v →
  kvsys.step (abs fut s) (now (pr_cfg s)) (Finish k) =
    Some (abs fut (kvnet.set_clerk s p e (kvsys.with_doing ck Idle)),
          Some (kvsys.record k r t v (now (pr_cfg s)))).
Proof.
  intros Hs Hat Hdo. assert (∀ r t, ck_doing ck ≠ Trying r t) as Hno by (by rewrite Hdo).
  cbn [kvsys.step]. rewrite (abs_lookup fut s k p e ck Hat).
  rewrite abs_doing_quiet, with_doing_id by (by left). simpl. rewrite Hdo.
  by rewrite (abs_set_clerk fut s k p e ck) by (done || by eapply not_called).
Qed.

Lemma call_matches fut s k i e m args rv w : ninv s → pr_calls s !! k = None →
  act (kvnet.world s) (ACall i e m args rv) = Some (Done w) →
  abs fut (set_calls (with_world s w) (<[k := i]> (pr_calls s))) = abs fut s.
Proof.
  intros Hs Hno Ha. destruct (act_exec _ _ _ Ha) as [(Hl & Hm & _)|(?&?&?&?&?&?&?&?&[=]&_)].
  assert (execs i (w_log (kvnet.world s)) = []) as Hx.
  { simpl in Ha. destruct (w_calls (kvnet.world s) !! i) eqn:Hi; [done|].
    pose proof (nv_w _ _ _ (ni_net _ _ _ _ Hs) i) as Hw. by rewrite Hi in Hw. }
  assert (∀ p, kvnet.heap (set_calls (with_world s w) (<[k := i]> (pr_calls s))) !! p = kvnet.heap s !! p) as Hh.
  { intros p. unfold kvnet.heap, mem. simpl. by rewrite Hm. }
  apply abs_same; [done|unfold abs_server; by rewrite Hh|]. intros j p Hj.
  destruct (decide (j = k)) as [->|Hne].
  - unfold abs_clerk, abs_doing. rewrite Hh. simpl. rewrite lookup_insert_eq, Hno. unfold kvnet.world. simpl.
    rewrite Hl, Hx. done.
  - apply abs_clerk_ext; [done|simpl; by rewrite lookup_insert_ne|]. intros i' _. unfold kvnet.world.
    simpl. by rewrite Hl.
Qed.

(** The result of a call is the one that was foreseen. *)
Lemma return_matches fut s k i p e ck r t c ok v : ninv s → clerk_at s k = Some (p, e, ck) →
  ck_doing ck = Trying r t → pr_calls s !! k = Some i → w_calls (kvnet.world s) !! i = Some c →
  cl_caller c = Returned ok v → follows (kvnet.world s) wf →
  abs fut (let s := set_calls s (delete k (pr_calls s)) in
    if ok then kvnet.set_clerk s p e (kvsys.with_doing ck (Replied r t (value_of v))) else s) = abs fut s.
Proof.
  intros Hs Hat Hdo Hk Hc Hca Hf. pose proof Hat as [Hkp Hp]%clerk_at_spec.
  destruct (fw_calls _ _ Hf _ _ Hc) as (c' & Hc' & _ & _ & _ & Hkeep). apply Hkeep in Hca as Hca'.
  assert (delivered i = if ok then Some (value_of v) else None) as Hdel.
  { unfold delivered. rewrite Hc'. simpl. rewrite Hca'. by destruct ok. }
  pose proof (winv_call _ _ _ (nv_w _ _ _ (ni_net _ _ _ _ Hs)) Hc) as [_ _ _ Hcal].
  unfold caller_inv in Hcal. rewrite Hca in Hcal.
  assert (p < length (kvnet.heap s))%nat by (by eapply lookup_lt_Some). cbv zeta. symmetry.
  assert (∀ j q, pr_clerks s !! j = Some q → j ≠ k → q ≠ p) as Hne.
  { intros j q Hj Hne ->. apply Hne. eapply NoDup_lookup; [apply (ni_nodup _ _ _ _ Hs)|done..]. }
  destruct ok.
  - destruct (Hcal eq_refl) as (rep & (rv & Hx & _) & _). symmetry. apply abs_same; [done|..].
    + unfold abs_server, kvnet.heap, mem. simpl. rewrite list_lookup_insert_ne; [done|]. intros ->.
      destruct (ni_server _ _ _ _ Hs) as (_ & _ & kv & Hkv). congruence.
    + intros j q Hj. destruct (decide (j = k)) as [->|Hjk].
      * assert (q = p) as -> by congruence. unfold abs_clerk at 1. unfold kvnet.heap, mem. simpl.
        rewrite list_lookup_insert_eq by done. unfold abs_clerk. rewrite Hp.
        unfold abs_doing. simpl. rewrite Hdo, Hk, Hx, Hdel. done.
      * apply abs_clerk_ext; [|simpl; by rewrite lookup_delete_ne|done].
        unfold kvnet.heap at 1, mem. simpl. rewrite list_lookup_insert_ne; [done|]. by intros <-; eapply Hne.
  - symmetry. apply abs_same; [done|done|]. intros j q Hj. destruct (decide (j = k)) as [->|Hjk].
    + unfold abs_clerk, abs_doing. simpl. rewrite lookup_delete_eq, Hk, Hdel.
      unfold kvnet.heap. simpl. destruct (ka_heap _ !! q) as [[|e' ck']|]; try done.
      destruct (ck_doing ck'); try done. by destruct (execs i _).
    + by apply abs_clerk_ext; [|simpl; rewrite lookup_delete_ne|].
Qed.

(** The execution of a handler is the action [Exec]. *)
Lemma network_matches fut s a w : ninv s → winv wf → act (kvnet.world s) a = Some (Done w) → follows w wf →
  matches fut s (now (pr_cfg s)) fut (with_world s w) None.
Proof.
  intros Hs Hwf Ha Hf. destruct (act_effect _ _ _ _ _ _ Hs Ha) as [[Hl Hm]|
    (i & k & p & e & ck & r & t & c & kv & rv & -> & Hk & Hat & Hdo & Hc & Hre & Hp0 & Hx & Hl & Hm & Hv & Hdec)].
  { left. split; [|done]. symmetry. apply abs_same; [done|..].
    - unfold abs_server, kvnet.heap, mem. simpl. by rewrite Hm.
    - intros j q _. apply abs_clerk_ext; [|done|].
      + unfold kvnet.heap, mem. simpl. by rewrite Hm.
      + intros i' _. unfold kvnet.world. simpl. by rewrite Hl. }
  right. exists (Exec k (match delivered i with Some _ => true | None => false end)).
  cbn [kvsys.step]. rewrite (abs_lookup fut s k p e ck Hat).
  assert (abs_doing s k ck = Trying r t) as Hab.
  { unfold abs_doing. by rewrite Hdo, Hk, Hx. }
  rewrite Hab. cbn [mbind option_bind kvsys.with_doing ck_doing]. rewrite <- Hdo, with_doing_id.
  assert (abs_server s = kv) as Hsv by (unfold abs_server; by rewrite Hp0).
  change (sy_server (abs fut s)) with (abs_server s). rewrite Hsv.
  assert (∀ x, delivered i = Some x → x = (clerk.call kv ck r).2) as Hdel.
  { intros x Hx'. unfold delivered in Hx'.
    destruct (call_keeps _ _ _ _ _ Ha Hc) as (c1 & Hc1 & _ & _ & Hre1 & _).
    destruct (fw_calls _ _ Hf _ _ Hc1) as (c2 & Hc2 & _ & _ & Hre2 & _).
    rewrite Hc2 in Hx'. simpl in Hx'. destruct (cl_caller c2) as [| |[|] v2] eqn:Hca2; simplify_eq.
    pose proof (winv_call _ _ _ Hwf Hc2) as [_ _ _ Hcal]. unfold caller_inv in Hcal. rewrite Hca2 in Hcal.
    destruct (Hcal eq_refl) as (rep & (rv' & Hxs & ->) & Hd2). simpl in Hd2.
    assert (execs i (w_log w) = [MkExecution i (args_of ck r) rv]) as Hxw.
    { rewrite Hl, execs_snoc, Hx. done. }
    rewrite (execs_prefix i _ _ _ (fw_log _ _ Hf) Hxw (winv_execs_length _ _ Hwf)) in Hxs.
    simplify_eq. rewrite Hre2, Hre1, Hre, Hdec in Hd2. simplify_eq. done. }
  destruct (clerk.call kv ck r) as [kv' x] eqn:Hcall. simpl in Hdel, Hm.
  pose proof Hat as [Hkp Hp]%clerk_at_spec.
  assert (∀ q e' ck', kvnet.heap s !! q = Some (KClerk e' ck') →
    kvnet.heap (with_world s w) !! q = kvnet.heap s !! q) as Hh.
  { intros q e' ck' Hq. rewrite Hq. destruct (act_memory _ _ _ _ _ _ Hs Ha) as (_ & _ & _ & Hck).
    by apply Hck. }
  assert (abs_server (with_world s w) = kv') as Hsv'.
  { unfold abs_server, kvnet.heap, mem. simpl. rewrite Hm. simpl.
    rewrite list_lookup_insert_eq; [done|]. by eapply lookup_lt_Some. }
  split; [do 3 f_equal; unfold abs; simpl; symmetry; f_equal; [done|]|].
  - rewrite insert_app_l by (rewrite length_imap; by eapply lookup_lt_Some). f_equal.
    eapply imap_update; [done|..].
    + unfold abs_clerk. rewrite (Hh _ _ _ Hp), Hp. unfold abs_doing. rewrite Hdo. simpl.
      rewrite Hk. unfold kvnet.world. simpl. rewrite Hl, execs_snoc. rewrite Hx. simpl.
      destruct (delivered i) as [y|]; [by rewrite (Hdel y)|]. rewrite <- Hdo. apply with_doing_id.
    + intros j q Hj Hne. destruct (ni_clerk _ _ _ _ Hs _ _ Hj) as (e' & ck' & Hq & _).
      apply abs_clerk_ext; [by eapply Hh|done|]. intros i' Hi'. unfold kvnet.world. simpl.
      rewrite Hl. rewrite execs_snoc_ne; [done|]. intros <-. apply Hne. by eapply (ni_inj _ _ _ _ Hs).
  - intros Hun. exists k, i. unfold kvsys.unrecorded_put in Hun.
    destruct (delivered i) as [y|] eqn:Hdi; [done|]. rewrite (abs_lookup fut s k p e ck Hat), Hab in Hun.
    change (sy_server (abs fut s)) with (abs_server s) in Hun. rewrite Hsv in Hun.
    destruct ck as [id seq d]. simpl in Hun, Hdo. destruct r as [|key y|]; try done.
    destruct (kv_clientTable kv !! id) eqn:Htab; [done|].
    exists p, e, (MkClerk id seq d), key, y, t. split_and!; [|done|done| |done|].
    + apply clerk_at_spec. split; [done|]. by rewrite (Hh _ _ _ Hp).
    + unfold kvnet.world. simpl. by rewrite Hl, execs_snoc, Hx.
    + rewrite Hsv'. simpl. unfold clerk.call, clerk.PutAppend_call, kvsrv.Put in Hcall. simpl in Hcall.
      rewrite Htab in Hcall. injection Hcall as <- _. done.
Qed.
Lemma act_now s a w : ninv s → act (kvnet.world s) a = Some (Done w) → now (set_w w (pr_cfg s)) = now (pr_cfg s).
Proof. intros Hs Ha. by destruct (act_memory _ _ _ _ _ _ Hs Ha) as (_ & ? & _). Qed.

(** What an event does to the calls and to the clock. *)
Lemma happen_follows s ev s' o : ninv s → happen s ev = Some (Done (s', o)) →
  follows (kvnet.world s) (kvnet.world s') ∧ now (pr_cfg s) ≤ now (pr_cfg s').
Proof.
  intros Hs Hh. assert (∀ s1, w_calls (kvnet.world s1) = w_calls (kvnet.world s) →
    w_log (kvnet.world s1) = w_log (kvnet.world s) → follows (kvnet.world s) (kvnet.world s1)) as Hsame.
  { intros s1 Hc Hl. split; [|by rewrite Hl]. intros i c Hi. exists c. rewrite Hc. by repeat split. }
  destruct ev as [endname rand|k|k r|k i|k|k|a|d]; cbn [happen] in Hh.
  - injection Hh as Hh. apply bind_Done in Hh as ([c' p] & Hmk & Hh).
    apply Done_inj, pair_equal_spec in Hh as [<- _].
    destruct (ninv_make _ _ _ _ _ _ _ _ Hs Hmk) as (_ & _ & _ & Hc & Hl & Hn & _).
    split; [by apply Hsame|]. simpl. lia.
  - destruct (clerk_at s k) as [[[p e] ck]|]; [|done]. cbn [mbind option_bind] in Hh.
    destruct (ck_doing ck); try done. destruct (ks_clerks _ !! p) as [nm|]; [|done].
    injection Hh as Hh. apply bind_Done in Hh as (c' & Hdel & Hh).
    apply Done_inj, pair_equal_spec in Hh as [<- _]. unfold deleteClient in Hdel.
    apply bind_Done in Hdel as (rn & _ & Hdel). apply Done_inj in Hdel as <-.
    split; [by apply Hsame|]. done.
  - destruct (clerk_at s k) as [[[p e] ck]|]; [|done]. cbn [mbind option_bind] in Hh.
    destruct (ck_doing ck); try done. destruct (ks_clerks _ !! p) as [nm|]; [|done].
    injection Hh as <- _. split; [by apply Hsame|]. done.
  - destruct (clerk_at s k) as [[[p e] ck]|]; [|done]. cbn [mbind option_bind] in Hh.
    destruct (ck_doing ck); try done. destruct (pr_calls s !! k); [done|].
    destruct (act _ _) as [m|] eqn:Ha; [|done]. injection Hh as Hh.
    apply bind_Done in Hh as (w & -> & Hh). apply Done_inj, pair_equal_spec in Hh as [<- _].
    split; [by eapply follows_act|]. simpl. rewrite (act_now _ _ _ Hs Ha). lia.
  - destruct (clerk_at s k) as [[[p e] ck]|]; [|done]. cbn [mbind option_bind] in Hh.
    destruct (pr_calls s !! k) as [i|]; [|done]. cbn [mbind option_bind] in Hh.
    destruct (w_calls _ !! i) as [c|]; [|done]. cbn [mbind option_bind] in Hh.
    destruct (ck_doing ck); try done. destruct (cl_caller c) as [| |ok v]; try done.
    injection Hh as <- _. destruct ok; (split; [by apply Hsame|done]).
  - destruct (clerk_at s k) as [[[p e] ck]|]; [|done]. cbn [mbind option_bind] in Hh.
    destruct (ck_doing ck); try done. injection Hh as <- _. split; [by apply Hsame|done].
  - destruct (of_network a); [|done]. destruct (act _ a) as [m|] eqn:Ha; [|done].
    injection Hh as Hh. apply bind_Done in Hh as (w & -> & Hh). apply Done_inj, pair_equal_spec in Hh as [<- _].
    split; [by eapply follows_act|]. simpl. rewrite (act_now _ _ _ Hs Ha). lia.
  - destruct (Z.ltb_spec 0 d); [|done]. injection Hh as <- _. split; [by apply Hsame|].
    change (now (pr_cfg s) ≤ now (pr_cfg s) + d). lia.
Qed.

Lemma happen_matches fut s ev s' o : ninv s → winv wf → happen s ev = Some (Done (s', o)) →
  follows (kvnet.world s') wf → matches (makes ev ++ fut) s (now (pr_cfg s)) fut s' o.
Proof.
  intros Hs Hwf Hh Hf. destruct (happen_follows _ _ _ _ Hs Hh) as [Hf0 _].
  destruct ev as [endname rand|k|k r|k i|k|k|a|d]; cbn [happen] in Hh.
  - injection Hh as Hh. apply bind_Done in Hh as ([c' p] & Hmk & Hh).
    apply Done_inj, pair_equal_spec in Hh as [<- <-]. left. split; [|done]. by eapply make_matches.
  - destruct (clerk_at s k) as [[[p e] ck]|]; [|done]. cbn [mbind option_bind] in Hh.
    destruct (ck_doing ck); try done. destruct (ks_clerks _ !! p) as [nm|]; [|done].
    injection Hh as Hh. apply bind_Done in Hh as (c' & Hdel & Hh).
    apply Done_inj, pair_equal_spec in Hh as [<- <-]. unfold deleteClient in Hdel.
    apply bind_Done in Hdel as (rn & _ & Hdel). apply Done_inj in Hdel as <-. by left.
  - destruct (clerk_at s k) as [[[p e] ck]|] eqn:Hat; [|done]. cbn [mbind option_bind] in Hh.
    destruct (ck_doing ck) eqn:Hdo; try done. destruct (ks_clerks _ !! p) as [nm|]; [|done].
    injection Hh as <- <-. right. exists (Invoke k r). split; [by apply invoke_matches|done].
  - destruct (clerk_at s k) as [[[p e] ck]|]; [|done]. cbn [mbind option_bind] in Hh.
    destruct (ck_doing ck); try done. destruct (pr_calls s !! k) eqn:Hno; [done|].
    destruct (act _ _) as [m|] eqn:Ha; [|done]. injection Hh as Hh.
    apply bind_Done in Hh as (w & -> & Hh). apply Done_inj, pair_equal_spec in Hh as [<- <-].
    left. split; [|done]. symmetry. by eapply call_matches.
  - destruct (clerk_at s k) as [[[p e] ck]|] eqn:Hat; [|done]. cbn [mbind option_bind] in Hh.
    destruct (pr_calls s !! k) as [i|] eqn:Hk; [|done]. cbn [mbind option_bind] in Hh.
    destruct (w_calls _ !! i) as [c|] eqn:Hc; [|done]. cbn [mbind option_bind] in Hh.
    destruct (ck_doing ck) as [|r t|] eqn:Hdo; try done. destruct (cl_caller c) as [| |ok v] eqn:Hca; try done.
    injection Hh as <- <-. left. split; [|done]. symmetry.
    eapply (return_matches _ s); try done. by eapply follows_trans.
  - destruct (clerk_at s k) as [[[p e] ck]|] eqn:Hat; [|done]. cbn [mbind option_bind] in Hh.
    destruct (ck_doing ck) as [| |r t v] eqn:Hdo; try done. injection Hh as <- <-.
    right. exists (Finish k). split; [by apply finish_matches|done].
  - destruct (of_network a); [|done]. destruct (act _ a) as [m|] eqn:Ha; [|done].
    injection Hh as Hh. apply bind_Done in Hh as (w & -> & Hh). apply Done_inj, pair_equal_spec in Hh as [<- <-].
    by eapply network_matches.
  - destruct (0 <? d); [|done]. injection Hh as <- <-. left. by rewrite abs_tick.
Qed.

(** Clerks keep their ids. *)
Lemma step_ids σ t a σ' o : kvsys.step σ t a = Some (σ', o) →
  ck_clientId <$> sy_clerks σ' = ck_clientId <$> sy_clerks σ.
Proof.
  intros Hst. assert (∀ k ck ck', sy_clerks σ !! k = Some ck → ck_clientId ck' = ck_clientId ck →
    ck_clientId <$> <[k := ck']> (sy_clerks σ) = ck_clientId <$> sy_clerks σ) as Hset.
  { intros k ck ck' Hk Hid. rewrite list_fmap_insert, Hid. apply list_insert_id.
    by rewrite list_lookup_fmap, Hk. }
  destruct a as [k r|k|k ok|k]; simpl in Hst; destruct (sy_clerks σ !! k) as [ck|] eqn:Hk; simplify_eq/=;
    destruct (ck_doing ck); simplify_eq/=; try done; try (by eapply Hset).
  destruct (clerk.call _ _ _) as [kv v]. simplify_eq/=. eapply Hset; [done|]. by destruct ok.
Qed.

Lemma matches_ids fut s t fut' s' o : matches fut s t fut' s' o →
  NoDup (ck_clientId <$> sy_clerks (abs fut s)) → NoDup (ck_clientId <$> sy_clerks (abs fut' s')).
Proof. intros [[-> _]|(a & Ha & _)]; [done|]. by rewrite (step_ids _ _ _ _ _ Ha). Qed.

Lemma inv_later σ t t' cs hist : t ≤ t' → kvproof.inv σ t cs hist → kvproof.inv σ t' cs hist.
Proof.
  intros Ht []. split; try done.
  - eapply Forall_impl; [exact inv_timely|]. intros x. by apply kvproof.timely_mono.
  - intros c ck Hc. eapply kvproof.clerk_ok_mono; [done|]. by apply inv_clerks.
Qed.

(** ** Runs *)

Lemma step_happen s ev s' o : step s ev = Some (Done (s', o)) → ∃ s1,
  happen s ev = Some (Done (s1, o)) ∧ s' = tick 1 s1.
Proof.
  unfold step. intros Hst. destruct (happen s ev) as [m|]; [|done].
  injection Hst as Hst. apply bind_Done in Hst as ([s1 o1] & -> & Hst).
  apply Done_inj, pair_equal_spec in Hst as [<- <-]. by exists s1.
Qed.

Lemma step_follows s ev s' o : ninv s → step s ev = Some (Done (s', o)) →
  follows (kvnet.world s) (kvnet.world s') ∧ now (pr_cfg s) + 1 ≤ now (pr_cfg s').
Proof.
  intros Hs (s1 & Hh & ->)%step_happen. destruct (happen_follows _ _ _ _ Hs Hh) as [Hf Hn].
  split; [destruct Hf; by split|]. change (now (pr_cfg s) + 1 ≤ now (pr_cfg s1) + 1). lia.
Qed.

Lemma run_cons_inv s ev evs s' ops : kvnet.run s (ev :: evs) = Some (s', ops) → ∃ s1 o ops',
  step s ev = Some (Done (s1, o)) ∧ kvnet.run s1 evs = Some (s', ops') ∧ ops = op_list o ++ ops'.
Proof.
  cbn [kvnet.run]. destruct (step s ev) as [[[s1 o]| |]|]; try done.
  destruct (kvnet.run s1 evs) as [[s2 ops']|] eqn:Hr'; try done. cbn [mbind option_bind]. intros Hr.
  injection Hr as <- <-. by exists s1, o, ops'.
Qed.

Lemma run_ninv evs : ∀ s s' ops, ninv s → kvnet.run s evs = Some (s', ops) →
  ninv s' ∧ follows (kvnet.world s) (kvnet.world s').
Proof.
  induction evs as [|ev evs IH]; intros s s' ops Hs Hr.
  - simpl in Hr. simplify_eq. split; [done|apply follows_refl].
  - destruct (run_cons_inv _ _ _ _ _ Hr) as (s1 & o & ops' & Hst & Hr' & ->).
    destruct (IH s1 s' ops') as [Hs' Hf]; [by eapply ninv_step|done|]. split; [done|].
    eapply follows_trans; [|done]. by eapply step_follows.
Qed.

(** The actions that a run shows, with their times. *)
Lemma run_refines evs : ∀ s s' ops fut, ninv s → winv wf → kvnet.run s evs = Some (s', ops) →
  follows (kvnet.world s') wf → ∃ acts, ∀ t, t ≤ now (pr_cfg s) →
    timed_run (abs ((evs ≫= makes) ++ fut) s) t acts = Some (abs fut s', ops).
Proof.
  induction evs as [|ev evs IH]; intros s s' ops fut Hs Hwf Hr Hf.
  - simpl in Hr. simplify_eq. by exists [].
  - destruct (run_cons_inv _ _ _ _ _ Hr) as (s1 & o & ops' & Hst & Hr' & ->).
    assert (ninv s1) as Hs1 by (by eapply ninv_step).
    destruct (IH s1 s' ops' fut Hs1 Hwf Hr' Hf) as [acts Hacts].
    destruct (step_follows _ _ _ _ Hs Hst) as [_ Hnow].
    destruct (step_happen _ _ _ _ Hst) as (s2 & Hh & ->).
    assert (follows (kvnet.world s2) wf) as Hf2.
    { destruct (run_ninv _ _ _ _ Hs1 Hr') as [_ Hf1]. eapply follows_trans; [|done].
      destruct Hf1. by split. }
    change ((ev :: evs) ≫= makes) with (makes ev ++ (evs ≫= makes)). rewrite <- app_assoc.
    destruct (happen_matches ((evs ≫= makes) ++ fut) _ _ _ _ Hs Hwf Hh Hf2) as [[-> ->]|(a & Ha & _)].
    + exists acts. intros t Ht. rewrite <- (abs_tick _ s2 1). apply Hacts. lia.
    + exists ((now (pr_cfg s), a) :: acts). intros t Ht. cbn [timed_run].
      rewrite (proj2 (Z.leb_le _ _) Ht), Ha. cbn [mbind option_bind].
      rewrite <- (abs_tick _ s2 1), Hacts by lia. done.
Qed.
(** ** Lost replies to puts *)

Lemma server_of_abs s : ninv s → server_of s = abs_server s.
Proof. intros Hs. destruct (ni_server _ _ _ _ Hs) as (Hk & _). unfold server_of. by rewrite Hk. Qed.

Lemma unsettled_ext s s' k i : unsettled s k i →
  (∀ p e ck, clerk_at s k = Some (p, e, ck) → clerk_at s' k = Some (p, e, ck)) →
  pr_calls s' !! k = pr_calls s !! k →
  execs i (w_log (kvnet.world s')) = execs i (w_log (kvnet.world s)) →
  (∀ p e ck, clerk_at s k = Some (p, e, ck) →
    kv_clientTable (abs_server s') !! ck_clientId ck = kv_clientTable (abs_server s) !! ck_clientId ck) →
  unsettled s' k i.
Proof.
  intros (p & e & ck & key & x & t & Hat & Hdo & Hk & Hx & Hd & Htab) Hck Hk' Hx' Ht'.
  exists p, e, ck, key, x, t. rewrite Hx', Hk', (Ht' _ _ _ Hat). split_and!; auto.
Qed.

(** Another clerk changes its fields. *)
Lemma unsettled_set_clerk s k k' i p e ck ck' : ninv s → unsettled s k i → k' ≠ k →
  clerk_at s k' = Some (p, e, ck) → ∀ calls, calls !! k = pr_calls s !! k →
  unsettled (kvnet.set_clerk (set_calls s calls) p e ck') k i.
Proof.
  intros Hs Hu Hne Hat calls Hcs. apply (unsettled_ext s); [done| |done|done|].
  - intros p1 e1 ck1 Hat1. pose proof Hat1 as [Hk1 Hp1]%clerk_at_spec. apply clerk_at_spec.
    split; [done|]. unfold kvnet.heap at 1, mem. simpl. rewrite list_lookup_insert_ne; [done|].
    intros ->. apply Hne. by eapply clerk_at_inj.
  - intros _ _ ck1 _. unfold abs_server. unfold kvnet.heap at 1, mem. simpl.
    apply clerk_at_spec in Hat as [_ Hp]. rewrite list_lookup_insert_ne; [done|].
    intros ->. destruct (ni_server _ _ _ _ Hs) as (_ & _ & kv & Hkv). congruence.
Qed.

Lemma call_table kv ck r id : ck_clientId ck ≠ id →
  kv_clientTable (clerk.call kv ck r).1 !! id = kv_clientTable kv !! id.
Proof.
  intros Hne. destruct r; unfold clerk.call, clerk.Get_call, clerk.PutAppend_call; simpl;
    unfold kvsrv.Get, kvsrv.Put, kvsrv.Append; repeat case_match; simplify_eq/=;
    by rewrite ?lookup_insert_ne.
Qed.

Lemma abs_id fut s k p e ck : clerk_at s k = Some (p, e, ck) →
  (ck_clientId <$> sy_clerks (abs fut s)) !! k = Some (ck_clientId ck).
Proof. intros Hat. by rewrite list_lookup_fmap, (abs_lookup fut s k p e ck Hat). Qed.

Lemma unsettled_happen fut s ev s' o k i : ninv s → NoDup (ck_clientId <$> sy_clerks (abs fut s)) →
  happen s ev = Some (Done (s', o)) → lost_put s ev = false → follows (kvnet.world s) wf →
  unsettled s k i → unsettled s' k i.
Proof.
  intros Hs Hnd Hh Hlost Hf Hu.
  pose proof Hu as (p & e & ck & key & x & t & Hat & Hdo & Hk & Hx & Hd & Htab).
  assert (∀ k' p' e' ck', clerk_at s k' = Some (p', e', ck') → (∀ r t, ck_doing ck' ≠ Trying r t) → k' ≠ k) as Hother.
  { intros k' p' e' ck' Hat' Hno ->. rewrite Hat in Hat'. simplify_eq. by destruct (Hno (RPut key x) t). }
  destruct ev as [endname rand|k'|k' r|k' j|k'|k'|a|d]; cbn [happen] in Hh.
  - injection Hh as Hh. apply bind_Done in Hh as ([c' q] & Hmk & Hh).
    apply Done_inj, pair_equal_spec in Hh as [<- <-].
    destruct (ninv_make _ _ _ _ _ _ _ _ Hs Hmk) as (_ & _ & Hheap & _ & Hl & _).
    assert (∀ q1 o1, kvnet.heap s !! q1 = Some o1 → ka_heap (mem c') !! q1 = Some o1) as Hold.
    { intros q1 o1 Hq. change (kvnet.heap (with_cfg s c') !! q1 = Some o1). rewrite Hheap.
      by apply lookup_app_l_Some. }
    apply (unsettled_ext s); [done| |done|by unfold kvnet.world; simpl; rewrite Hl|].
    + intros p1 e1 ck1 [Hk1 Hp1]%clerk_at_spec. apply clerk_at_spec.
      split; [by apply lookup_app_l_Some|by apply Hold].
    + intros _ _ ck1 _. destruct (ni_server _ _ _ _ Hs) as (_ & _ & kv & Hkv).
      unfold abs_server. unfold kvnet.heap at 1. simpl. by rewrite (Hold _ _ Hkv), Hkv.
  - destruct (clerk_at s k') as [[[p' e'] ck']|]; [|done]. cbn [mbind option_bind] in Hh.
    destruct (ck_doing ck'); try done. destruct (ks_clerks _ !! p') as [nm|]; [|done].
    injection Hh as Hh. apply bind_Done in Hh as (c' & Hdel & Hh).
    apply Done_inj, pair_equal_spec in Hh as [<- <-]. unfold deleteClient in Hdel.
    apply bind_Done in Hdel as (rn & _ & Hdel). apply Done_inj in Hdel as <-. exact Hu.
  - destruct (clerk_at s k') as [[[p' e'] ck']|] eqn:Hat'; [|done]. cbn [mbind option_bind] in Hh.
    destruct (ck_doing ck') eqn:Hdo'; try done. destruct (ks_clerks _ !! p') as [nm|]; [|done].
    injection Hh as <- <-. 
    apply (unsettled_set_clerk s k k' i p' e' ck' _ Hs Hu) with (calls := pr_calls s); [|done|done].
    eapply Hother; [done|]. by rewrite Hdo'.
  - destruct (clerk_at s k') as [[[p' e'] ck']|]; [|done]. cbn [mbind option_bind] in Hh.
    destruct (ck_doing ck'); try done. destruct (pr_calls s !! k') eqn:Hno; [done|].
    destruct (act _ _) as [m|] eqn:Ha; [|done]. injection Hh as Hh.
    apply bind_Done in Hh as (w & -> & Hh). apply Done_inj, pair_equal_spec in Hh as [<- <-].
    destruct (act_exec _ _ _ Ha) as [(Hl & Hm & _)|(?&?&?&?&?&?&?&?&[=]&_)].
    apply (unsettled_ext s); [done|..].
    + intros p1 e1 ck1 [Hk1 Hp1]%clerk_at_spec. apply clerk_at_spec. split; [done|].
      unfold kvnet.heap, mem. simpl. by rewrite Hm.
    + simpl. rewrite lookup_insert_ne; [done|]. congruence.
    + unfold kvnet.world. simpl. by rewrite Hl.
    + intros _ _ ck1 _. unfold abs_server, kvnet.heap, mem. simpl. by rewrite Hm.
  - destruct (clerk_at s k') as [[[p' e'] ck']|] eqn:Hat'; [|done]. cbn [mbind option_bind] in Hh.
    destruct (pr_calls s !! k') as [j|] eqn:Hk'; [|done]. cbn [mbind option_bind] in Hh.
    destruct (w_calls _ !! j) as [c|] eqn:Hc; [|done]. cbn [mbind option_bind] in Hh.
    destruct (ck_doing ck') as [|r' t'|] eqn:Hdo'; try done. destruct (cl_caller c) as [| |ok v] eqn:Hca; try done.
    injection Hh as <- _. destruct (decide (k' = k)) as [->|Hne].
    + exfalso. rewrite Hat in Hat'. rewrite Hk in Hk'. simplify_eq.
      destruct (fw_calls _ _ Hf _ _ Hc) as (c2 & Hc2 & _ & _ & _ & Hkeep).
      unfold delivered in Hd. rewrite Hc2 in Hd. simpl in Hd. rewrite (Hkeep _ _ Hca) in Hd.
      destruct ok; [done|]. cbn [lost_put] in Hlost. rewrite Hat, Hk in Hlost. destruct ck' as [id sq d].
      simpl in Hdo, Htab. subst d. rewrite Hc, (server_of_abs _ Hs) in Hlost. simpl in Hlost. rewrite Hca, Htab in Hlost.
      by destruct (execs j _).
    + destruct ok.
      * apply (unsettled_set_clerk s k k' i p' e' ck'); [done..|]. by rewrite lookup_delete_ne.
      * apply (unsettled_ext s); try done. simpl. by rewrite lookup_delete_ne.
  - destruct (clerk_at s k') as [[[p' e'] ck']|] eqn:Hat'; [|done]. cbn [mbind option_bind] in Hh.
    destruct (ck_doing ck') eqn:Hdo'; try done. injection Hh as <- _.
    apply (unsettled_set_clerk s k k' i p' e' ck' _ Hs Hu) with (calls := pr_calls s); [|done|done].
    eapply Hother; [done|]. by rewrite Hdo'.
  - destruct (of_network a); [|done]. destruct (act _ a) as [m|] eqn:Ha; [|done].
    injection Hh as Hh. apply bind_Done in Hh as (w & -> & Hh). apply Done_inj, pair_equal_spec in Hh as [<- <-].
    destruct (act_memory _ _ _ _ _ _ Hs Ha) as (_ & _ & _ & Hck).
    assert (∀ p e ck, clerk_at s k = Some (p, e, ck) → clerk_at (with_world s w) k = Some (p, e, ck)) as Hat'.
    { intros p1 e1 ck1 [Hk1 Hp1]%clerk_at_spec. apply clerk_at_spec. split; [done|]. by apply Hck. }
    destruct (act_effect _ _ _ _ _ _ Hs Ha) as [[Hl Hm]|
      (j & k1 & p1 & e1 & ck1 & r1 & t1 & c1 & kv & rv & _ & Hk1 & Hat1 & _ & _ & _ & Hp0 & Hx1 & Hl & Hm & _)].
    + apply (unsettled_ext s); [done..|by unfold kvnet.world; simpl; rewrite Hl|].
      intros _ _ ck1 _. unfold abs_server, kvnet.heap, mem. simpl. by rewrite Hm.
    + assert (j ≠ i) as Hji by (intros ->; congruence).
      assert (k1 ≠ k) as Hkk by (intros ->; congruence).
      apply (unsettled_ext s); [done..| |].
      * unfold kvnet.world. simpl. rewrite Hl. by apply execs_snoc_ne.
      * intros p2 e2 ck2 Hat2. unfold abs_server. rewrite Hp0. unfold kvnet.heap, mem. simpl. rewrite Hm. simpl.
        rewrite list_lookup_insert_eq by (by eapply lookup_lt_Some). apply call_table.
        intros Heq. apply Hkk. eapply NoDup_lookup; [exact Hnd|by eapply abs_id|].
        rewrite Heq. by eapply abs_id.
  - destruct (0 <? d); [|done]. injection Hh as <- _. exact Hu.
Qed.
Lemma unsettled_run evs : ∀ s s' ops fut k i, ninv s →
  NoDup (ck_clientId <$> sy_clerks (abs ((evs ≫= makes) ++ fut) s)) →
  winv wf → kvnet.run s evs = Some (s', ops) → follows (kvnet.world s') wf → unharmed s evs = true →
  unsettled s k i → unsettled s' k i.
Proof.
  induction evs as [|ev evs IH]; intros s s' ops fut k i Hs Hnd Hwf Hr Hf Hun Hu.
  - simpl in Hr. by simplify_eq.
  - destruct (run_cons_inv _ _ _ _ _ Hr) as (s1 & o & ops' & Hst & Hr' & ->).
    cbn [unharmed] in Hun. rewrite Hst in Hun. apply andb_true_iff in Hun as [Hl%negb_true_iff Hun].
    assert (ninv s1) as Hs1 by (by eapply ninv_step).
    assert (follows (kvnet.world s1) wf) as Hf1.
    { destruct (run_ninv _ _ _ _ Hs1 Hr') as [_ Hf1]. by eapply follows_trans. }
    destruct (step_follows _ _ _ _ Hs Hst) as [Hf0 _].
    destruct (step_happen _ _ _ _ Hst) as (s2 & Hh & ->).
    eapply (IH (tick 1 s2)); try done.
    + change ((ev :: evs) ≫= makes) with (makes ev ++ (evs ≫= makes)) in Hnd. rewrite <- app_assoc in Hnd.
      rewrite abs_tick. eapply matches_ids; [|exact Hnd]. eapply happen_matches; [done..|].
      destruct Hf1. by split.
    + change (unsettled s2 k i).
      eapply (unsettled_happen _ s); [done|exact Hnd|done|done|by eapply follows_trans|done].
Qed.

(** The invariant of exactly-once execution holds along the run. *)
Lemma run_exactly_once evs : ∀ s s' ops fut cs hist, ninv s → winv wf →
  kvproof.inv (abs ((evs ≫= makes) ++ fut) s) (now (pr_cfg s)) cs hist →
  kvnet.run s evs = Some (s', ops) → follows (kvnet.world s') wf → unharmed s evs = true → idle s' →
  ∃ t cs', kvproof.inv (abs fut s') t cs' (hist ++ ops).
Proof.
  induction evs as [|ev evs IH]; intros s s' ops fut cs hist Hs Hwf Hinv Hr Hf Hun Hidle.
  - simpl in Hr. simplify_eq. rewrite app_nil_r. by eauto.
  - destruct (run_cons_inv _ _ _ _ _ Hr) as (s1 & o & ops' & Hst & Hr' & ->).
    cbn [unharmed] in Hun. rewrite Hst in Hun. apply andb_true_iff in Hun as [Hl%negb_true_iff Hun].
    assert (ninv s1) as Hs1 by (by eapply ninv_step).
    assert (follows (kvnet.world s1) wf) as Hf1.
    { destruct (run_ninv _ _ _ _ Hs1 Hr') as [_ Hf1]. by eapply follows_trans. }
    destruct (step_follows _ _ _ _ Hs Hst) as [Hf0 Hnow].
    destruct (step_happen _ _ _ _ Hst) as (s2 & Hh & ->).
    change ((ev :: evs) ≫= makes) with (makes ev ++ (evs ≫= makes)) in Hinv. rewrite <- app_assoc in Hinv.
    assert (matches (makes ev ++ (evs ≫= makes) ++ fut) s (now (pr_cfg s)) ((evs ≫= makes) ++ fut) s2 o) as Hm.
    { eapply happen_matches; [done..|]. destruct Hf1. by split. }
    pose proof (matches_ids _ _ _ _ _ _ Hm (kvproof.inv_ids _ _ _ _ Hinv)) as Hnd.
    destruct Hm as [[Heq ->]|(a & Ha & Hlost)].
    + rewrite Heq in Hinv. simpl. eapply (IH (tick 1 s2)); try done. rewrite abs_tick.
      eapply inv_later; [|exact Hinv]. lia.
    + assert (kvsys.unrecorded_put (abs (makes ev ++ (evs ≫= makes) ++ fut) s) a = false) as Hsafe.
      { destruct (kvsys.unrecorded_put _ a); [|done]. destruct (Hlost eq_refl) as (k & i & Hu).
        assert (unsettled s' k i) as (p & e & ck & key & x & t & Hat & Hdo & _).
        { eapply (unsettled_run evs (tick 1 s2)); [done|by rewrite abs_tick|done..|]. exact Hu. }
        rewrite (Hidle _ _ _ _ Hat) in Hdo. done. }
      destruct (kvproof.inv_step _ _ _ _ _ _ _ Hinv Hsafe Ha) as (cs1 & Hinv1).
      rewrite app_assoc. eapply (IH (tick 1 s2)); try done. rewrite abs_tick.
      eapply inv_later; [|exact Hinv1]. done.
Qed.
End refine.
End kvnetrefine.
