(* ===== verification/KvSrvNetProgress.v ===== *)
(** * Clerks, network and server do not get stuck

    No event of a reachable process panics or exits it, and every operation that
    a clerk has begun can return: the network can always bring the call of the
    clerk to its end, and a call that is made anew can bring the reply. *)

From S2P Require Import Prelude LabRpc LabRpcFacts LabRpcClient Porcupine KvModel Harness HarnessFacts.
From S2P Require Import KvSrv KvSrvConfig KvSrvConfigTheorems KvSrvNet KvSrvNetFacts KvSrvNetRefine.
Import kvsrvcfg kvnet.
Open Scope Z_scope.

Module kvnetprogress.
Import labrpc rpcproof rpcclient kvnetproof kvnetrefine.

Section progress.
Context `{HC : KvCodec}.
Context (p0 a0 : nat) (svc0 : @Service kvalue kapp).
Implicit Types (s : process) (w : kworld).
Notation ninv := (ninv p0 a0 svc0).

(** A call that has not returned is the one some clerk waits for. *)
Lemma open_called s i c : ninv s → w_calls (kvnet.world s) !! i = Some c →
  (∀ ok v, cl_caller c ≠ Returned ok v) → ∃ k, pr_calls s !! k = Some i.
Proof. intros Hs Hc Hno. destruct (ni_calls _ _ _ _ Hs _ _ Hc) as [?|(ok & v & ?)]; [done|by destruct (Hno ok v)]. Qed.

Lemma running_called s i c : ninv s → w_calls (kvnet.world s) !! i = Some c →
  match cl_exec c with Dispatching _ | InService _ _ => True | _ => False end →
  ∃ k, pr_calls s !! k = Some i ∧ called s k i.
Proof.
  intros Hs Hc Hx. destruct (open_called s i c Hs Hc) as [k Hk].
  - intros ok v Hr. destruct (nv_attended _ _ _ (ni_net _ _ _ _ Hs) _ _ Hc) as (_ & Hl & Hat).
    destruct (cl_exec c); try done; destruct Hl as (? & ? & ? & ? & Hl); rewrite Hl in Hat; congruence.
  - exists k. split; [done|]. by apply (ni_called _ _ _ _ Hs).
Qed.

Lemma server_dispatch_done s i c p : ninv s → w_calls (kvnet.world s) !! i = Some c →
  cl_exec c = Dispatching p → ∃ w, a_server_dispatch (kvnet.world s) i c p = Done w.
Proof.
  intros Hs Hc Hx.
  destruct (running_called s i c Hs Hc) as (k & _ & q & e & ck & r & t & c' & _ & _ & Hc' & _ & Hm & _); [by rewrite Hx|].
  rewrite Hc in Hc'. simplify_eq. pose proof (nv_routed _ _ _ (ni_net _ _ _ _ Hs) _ _ Hc) as Hro.
  unfold route in Hro. rewrite Hx in Hro. unfold to_server in Hro. subst p.
  destruct (nv_service _ _ _ (ni_net _ _ _ _ Hs)) as (rs & Hrs & Hsv). destruct (method_split r) as [Hms Hnd].
  unfold a_server_dispatch. rewrite Hrs, (Server_dispatch_split _ _ "KVServer" (method_name r)), Hsv by congruence.
  by eexists.
Qed.

Lemma service_dispatch_done s i c svc m : ninv s → w_calls (kvnet.world s) !! i = Some c →
  cl_exec c = InService svc m → ∃ w, a_service_dispatch (kvnet.world s) i c svc m = Done w.
Proof.
  intros Hs Hc Hx.
  destruct (running_called s i c Hs Hc) as (k & _ & q & e & ck & r & t & c' & _ & _ & Hc' & _ & Hm & Har & _); [by rewrite Hx|].
  rewrite Hc in Hc'. simplify_eq. pose proof (nv_routed _ _ _ (ni_net _ _ _ _ Hs) _ _ Hc) as Hro.
  unfold route in Hro. rewrite Hx in Hro. destruct (method_split r) as [Hms Hnd].
  destruct (Hro (method_name r) Hnd) as [-> ->]; [congruence|].
  destruct (ni_server _ _ _ _ Hs) as (_ & Hsvc & kv & Hkv).
  destruct (service_call p0 svc0 ck r c' kv (w_app (kvnet.world s)) Hsvc Hkv) as (rv & Hd & _); [|done|].
  { by destruct (winv_call _ _ _ (nv_w _ _ _ (ni_net _ _ _ _ Hs)) Hc). }
  unfold a_service_dispatch. rewrite Hd. by eexists.
Qed.

(** A reply that arrives can be decoded. *)
Lemma return_done s i c counted rep : ninv s → w_calls (kvnet.world s) !! i = Some c →
  cl_proc c = Replying counted rep → ∃ v, Call_return (cl_reply c) rep = Done (Returned (rp_ok rep) v).
Proof.
  intros Hs Hc Hp. pose proof (winv_call _ _ _ (nv_w _ _ _ (ni_net _ _ _ _ Hs)) Hc) as [_ _ Hpr _].
  unfold proc_inv in Hpr. rewrite Hp in Hpr. unfold Call_return. destruct (rp_ok rep); [|by eexists].
  destruct (Hpr eq_refl) as (rv & Hx & ->). simpl.
  pose proof (ni_replies _ _ _ _ Hs i c _ Hc ltac:(rewrite Hx; left)) as Hd. simpl in Hd.
  rewrite Hd. by eexists.
Qed.

(** No event crashes, except that the name of a new end may be in use. *)
Lemma happen_done s ev m : ninv s → happen s ev = Some m →
  (∀ endname rand, ev = NMake endname rand → rn_ends (net (pr_cfg s)) !! NStr endname = None) →
  ∃ x, m = Done x.
Proof.
  intros Hs Hh Hmk. destruct ev as [endname rand|k|k r|k i|k|k|a|d]; cbn [happen] in Hh.
  - injection Hh as <-. unfold makeClient, MakeEnd. rewrite (Hmk _ _ eq_refl). by eexists.
  - destruct (clerk_at s k) as [[[p e] ck]|]; [|done]. cbn [mbind option_bind] in Hh.
    destruct (ck_doing ck); try done. destruct (ks_clerks _ !! p) as [nm|] eqn:Hnm; [|done].
    injection Hh as <-. destruct (iv_clerk _ (kvsrv_reach_inv _ (ni_reach _ _ _ _ Hs)) _ _ Hnm) as (_ & [x Hx] & _).
    unfold deleteClient, DeleteEnd. rewrite Hnm. cbn [default from_option Datatypes.id]. rewrite Hx. by eexists.
  - destruct (clerk_at s k) as [[[p e] ck]|]; [|done]. cbn [mbind option_bind] in Hh.
    destruct (ck_doing ck); try done. destruct (ks_clerks _ !! p); [|done]. injection Hh as <-. by eexists.
  - destruct (clerk_at s k) as [[[p e] ck]|]; [|done]. cbn [mbind option_bind] in Hh.
    destruct (ck_doing ck) as [|r t|]; try done. destruct (pr_calls s !! k); [done|].
    destruct (act _ _) as [m'|] eqn:Ha; [|done]. injection Hh as <-. simpl in Ha.
    destruct (w_calls _ !! i); [done|]. injection Ha as <-. unfold Call.
    pose proof (kc_args ck r) as He. destruct (encode (args_of ck r)) as [b ok]. simpl in He. subst ok.
    by eexists.
  - destruct (clerk_at s k) as [[[p e] ck]|]; [|done]. cbn [mbind option_bind] in Hh.
    destruct (pr_calls s !! k) as [i|]; [|done]. cbn [mbind option_bind] in Hh.
    destruct (w_calls _ !! i) as [c|]; [|done]. cbn [mbind option_bind] in Hh.
    destruct (ck_doing ck); try done. destruct (cl_caller c); try done. injection Hh as <-. by eexists.
  - destruct (clerk_at s k) as [[[p e] ck]|]; [|done]. cbn [mbind option_bind] in Hh.
    destruct (ck_doing ck); try done. injection Hh as <-. by eexists.
  - destruct (of_network a) eqn:Hof; [|done]. destruct (act _ a) as [m'|] eqn:Ha; [|done]. injection Hh as <-.
    assert (∃ w, m' = Done w) as [w ->]; [|by eexists].
    destruct a; try done; simpl in Ha; try (injection Ha as <-; by eexists).
    all: try (destruct (w_calls (kvnet.world s) !! i) as [c|] eqn:Hc; [simpl in Ha|done]).
    + destruct (cl_caller c); try done. destruct (w_loop _); [|done]. injection Ha as <-. by eexists.
    + destruct (rn_done _); [|done]. injection Ha as <-. by eexists.
    + destruct (cl_caller c); try done. destruct (rn_done _); [|done]. injection Ha as <-. by eexists.
    + destruct (cl_proc c); try done. injection Ha as <-. by eexists.
    + destruct (cl_exec c) eqn:Hx; try done. injection Ha as <-. by eapply server_dispatch_done.
    + destruct (cl_exec c) eqn:Hx; try done. injection Ha as <-. by eapply service_dispatch_done.
    + destruct (cl_proc c); try done. destruct (cl_exec c); try done. injection Ha as <-. by eexists.
    + destruct (cl_proc c); try done. injection Ha as <-. by eexists.
    + destruct (cl_proc c); try done. injection Ha as <-. by eexists.
    + destruct (cl_drain c); try done. destruct (cl_exec c); try done. injection Ha as <-. by eexists.
    + destruct (cl_proc c) eqn:Hp; try done. destruct (cl_caller c); try done. injection Ha as <-.
      unfold a_return. destruct (return_done s i c _ _ Hs Hc Hp) as [v ->]. by eexists.
  - destruct (0 <? d); [|done]. injection Hh as <-. by eexists.
Qed.
(** ** Bringing a call to its end *)

(** How many steps are left. *)
Definition rank (c : @call name kvalue kapp) : nat :=
  match cl_caller c, cl_proc c, cl_exec c with
  | Returned _ _, _, _ => 0
  | Sending, _, _ => 8
  | Waiting, Started, _ => 7
  | Waiting, InLoop _ _ _ _, Dispatching _ => 6
  | Waiting, InLoop _ _ _ _, InService _ _ => 5
  | Waiting, InLoop _ _ _ _, _ => 4
  | Waiting, LoopLeft _ _ _ _ _, _ => 3
  | Waiting, _, _ => 2
  end.

(** Nothing of the call has been dropped so far. *)
Definition good (c : @call name kvalue kapp) : Prop :=
  match cl_proc c with
  | LoopLeft _ _ _ _ None => False
  | Replying _ rep => rp_ok rep = true
  | Finished => ∃ v, cl_caller c = Returned true v
  | _ => ∀ ok v, cl_caller c ≠ Returned ok v
  end.

Lemma call_end s k i c : ninv s → pr_calls s !! k = Some i → w_calls (kvnet.world s) !! i = Some c →
  is_enabled (w_net (kvnet.world s)) (rq_endname (cl_req c)) = true ∧
  rn_connections (w_net (kvnet.world s)) !! rq_endname (cl_req c) = Some (Some (NInt 0)).
Proof.
  intros Hs Hk Hc. destruct (ni_called _ _ _ _ Hs _ _ Hk) as (p & e & ck & r & t & c' & Hat & Hdo & Hc' & He & _).
  rewrite Hc in Hc'. simplify_eq. rewrite He. eapply clerk_live; [done..|]. by rewrite Hdo.
Qed.

Lemma drive s k i c : ninv s → pr_calls s !! k = Some i → w_calls (kvnet.world s) !! i = Some c →
  (∀ ok v, cl_caller c ≠ Returned ok v) →
  ∃ a w c', of_network a = true ∧ act (kvnet.world s) a = Some (Done w) ∧ w_calls w !! i = Some c' ∧
    (rank c' < rank c)%nat ∧ (good c → good c').
Proof.
  intros Hs Hk Hc Hopen. destruct (call_end s k i c Hs Hk Hc) as [Hen Hco].
  pose proof (ni_net _ _ _ _ Hs) as Hn. pose proof (winv_call _ _ _ (nv_w _ _ _ Hn) Hc) as [_ Hex Hpr Hcal].
  destruct (nv_attended _ _ _ Hn _ _ Hc) as (Hdr & Hl & Hat).
  pose proof (nv_aimed _ _ _ Hn _ _ Hc) as Hai. unfold proc_inv, caller_inv, aimed in *.
  destruct (cl_caller c) as [| |ok v] eqn:Hca; [| |by destruct (Hopen ok v)].
  { exists (AReceive i), (a_receive (kvnet.world s) i c). eexists. simpl. rewrite Hc. simpl.
    rewrite Hca, (nv_loop _ _ _ Hn), lookup_insert_eq. split_and!; [done..| |].
    - unfold rank. simpl. rewrite Hca. lia.
    - done. }
  destruct (cl_proc c) as [| |sn p rel long|sn p rel long reply|counted rep|] eqn:Hp.
  - done.
  - exists (AStart i 500). eexists _, _. simpl. rewrite Hc. simpl. rewrite Hp.
    split; [done|]. split; [done|]. simpl. rewrite lookup_insert_eq. split; [done|].
    unfold processReq_start, readEndnameInfo. rewrite Hen, Hco. simpl.
    rewrite (nv_server _ _ _ Hn), andb_false_r. unfold rank, good. simpl. rewrite Hca, Hp. split; [lia|done].
  - destruct (cl_exec c) as [|q|svc m|rep|] eqn:Hx; try (by destruct (Hl sn p rel long)).
    + destruct (server_dispatch_done s i c q Hs Hc Hx) as [w Hw]. exists (AServerDispatch i), w.
      unfold a_server_dispatch in Hw. destruct (w_store _ !! q) as [rs|] eqn:Hrs; [|done].
      pose proof Hw as Hw'. apply bind_Done in Hw' as ([rs' [svc m]] & _ & Hw'). apply Done_inj in Hw' as <-.
      eexists. simpl. rewrite Hc. simpl. rewrite Hx. unfold a_server_dispatch. rewrite Hrs, Hw, lookup_insert_eq.
      split_and!; [done..| |]; unfold rank, good; simpl; rewrite Hca, Hp, ?Hx; [lia|done].
    + destruct (service_dispatch_done s i c svc m Hs Hc Hx) as [w Hw]. exists (AServiceDispatch i), w.
      pose proof Hw as Hw'. unfold a_service_dispatch in Hw'.
      apply bind_Done in Hw' as ([[σ rep] [u rv]] & _ & Hw'). apply Done_inj in Hw' as <-.
      eexists. simpl. rewrite Hc. simpl. rewrite Hx, Hw, lookup_insert_eq.
      split_and!; [done..| |]; unfold rank, good; simpl; rewrite Hca, Hp, ?Hx; [lia|done].
    + exists (AReplyReady i). eexists _, _. simpl. rewrite Hc. simpl. rewrite Hp, Hx.
      split; [done|]. split; [done|]. simpl. rewrite lookup_insert_eq. split; [done|].
      unfold rank, good. simpl. rewrite Hca, Hp, Hx. split; [lia|done].
  - exists (AFinish i 500 0). eexists _, _. simpl. rewrite Hc. simpl. rewrite Hp.
    split; [done|]. split; [done|]. simpl. rewrite lookup_insert_eq. split; [done|].
    destruct Hai as [_ Hsn]. unfold processReq_finish, isServerDead. rewrite Hen, Hsn, bool_decide_eq_true_2 by done.
    unfold rank, good. rewrite Hca, Hp.
    destruct reply as [rep|]; simpl; [|rewrite Hca; split; [lia|done]].
    rewrite andb_false_r. destruct Hpr as (rv & _ & ->).
    destruct (_ && _); simpl; rewrite Hca; (split; [lia|done]).
  - destruct (return_done s i c _ _ Hs Hc Hp) as [v Hv]. exists (AReturn i). eexists _, _. simpl. rewrite Hc. simpl.
    rewrite Hp, Hca. unfold a_return. rewrite Hv. split; [done|]. split; [done|].
    split; [by destruct counted; simpl; rewrite lookup_insert_eq|]. unfold rank, good. simpl. rewrite Hca, Hp.
    split; [lia|]. intros ->. by eexists.
  - destruct Hat as (ok & v & ?). congruence.
Qed.
Lemma run_app evs1 evs2 : ∀ s s1 s2 ops1 ops2, kvnet.run s evs1 = Some (s1, ops1) →
  kvnet.run s1 evs2 = Some (s2, ops2) → kvnet.run s (evs1 ++ evs2) = Some (s2, ops1 ++ ops2).
Proof.
  induction evs1 as [|ev evs1 IH]; intros s s1 s2 ops1 ops2 H1 H2.
  - simpl in H1. by simplify_eq.
  - destruct (run_cons_inv _ _ _ _ _ H1) as (s3 & o & ops & Hst & Hr & ->).
    simpl. rewrite Hst, (IH _ _ _ _ _ Hr H2). simpl. by rewrite app_assoc.
Qed.

Lemma run_one s ev s1 o : happen s ev = Some (Done (s1, o)) → kvnet.run s [ev] = Some (tick 1 s1, op_list o).
Proof. intros Hh. simpl. unfold step. rewrite Hh. simpl. by rewrite app_nil_r. Qed.

Lemma good_returned s i c ok v : ninv s → w_calls (kvnet.world s) !! i = Some c →
  cl_caller c = Returned ok v → good c → ok = true.
Proof.
  intros Hs Hc Hca Hg. destruct (nv_attended _ _ _ (ni_net _ _ _ _ Hs) _ _ Hc) as (_ & _ & Hat). unfold good in Hg.
  destruct (cl_proc c) as [| | |? ? ? ? [?|]| |]; try congruence; try (by destruct (Hg ok v)).
  destruct Hg. congruence.
Qed.

(** The call of a clerk can return, and with the reply if nothing was dropped. *)
Lemma drive_all n : ∀ s k i c, ninv s → pr_calls s !! k = Some i → w_calls (kvnet.world s) !! i = Some c →
  (rank c ≤ n)%nat → ∃ evs s' c' ok v, kvnet.run s evs = Some (s', []) ∧ ninv s' ∧
    (∀ x, clerk_at s k = Some x → clerk_at s' k = Some x) ∧ pr_calls s' !! k = Some i ∧
    w_calls (kvnet.world s') !! i = Some c' ∧ cl_caller c' = Returned ok v ∧ (good c → ok = true).
Proof.
  induction n as [|n IH]; intros s k i c Hs Hk Hc Hn;
    (destruct (cl_caller c) as [| |ok v] eqn:Hca; [| |by exists [], s, c, ok, v; split_and!; eauto using good_returned]).
  1,2: exfalso; unfold rank in Hn; rewrite Hca in Hn; repeat case_match; lia.
  all: destruct (drive s k i c Hs Hk Hc) as (a & w & c1 & Hof & Ha & Hc1 & Hrk & Hg); [by intros ??; rewrite Hca|];
    assert (happen s (NNet a) = Some (Done (with_world s w, None))) as Hh by (cbn [happen]; by rewrite Hof, Ha);
    assert (ninv (tick 1 (with_world s w))) as Hs1 by (by eapply ninv_tick, ninv_happen);
    destruct (IH (tick 1 (with_world s w)) k i c1) as (evs & s' & c' & ok & v & Hr & Hs' & Hat & Hk' & Hc' & Hca' & Hok);
    [done..|lia|]; exists ([NNet a] ++ evs), s', c', ok, v;
    (split; [by apply (run_app [NNet a] evs s (tick 1 (with_world s w)) s' [] []); [exact (run_one _ _ _ _ Hh)|]|]);
    (split; [done|]); (split; [|split_and!; [done|done|done|by auto]]);
    intros [[p e] ck] [Hkp Hp]%clerk_at_spec; apply Hat, clerk_at_spec; (split; [done|]);
    destruct (act_memory _ _ _ _ _ _ Hs Ha) as (_ & _ & _ & Hck); by apply Hck.
Qed.

(** After the loop, the operation returns. *)
Lemma replied_finish s k p e ck r t v : clerk_at s k = Some (p, e, ck) → ck_doing ck = Replied r t v →
  ∃ s' t', kvnet.run s [NFinish k] = Some (s', [kvsys.record k r t v t']) ∧
    clerk_at s' k = Some (p, e, kvsys.with_doing ck Idle).
Proof.
  intros Hat Hdo. exists (tick 1 (kvnet.set_clerk s p e (kvsys.with_doing ck Idle))), (now (pr_cfg s)). split.
  - apply (run_one s (NFinish k) _ (Some _)). cbn [happen]. rewrite Hat. cbn [mbind option_bind]. by rewrite Hdo.
  - apply clerk_at_spec in Hat as [Hk Hp]. apply clerk_at_spec. split; [done|].
    unfold kvnet.heap, mem. simpl. apply list_lookup_insert_eq. by eapply lookup_lt_Some.
Qed.

(** A call that has brought the reply. *)
Lemma returned_finish s k i p e ck r t c v : clerk_at s k = Some (p, e, ck) → ck_doing ck = Trying r t →
  pr_calls s !! k = Some i → w_calls (kvnet.world s) !! i = Some c → cl_caller c = Returned true v →
  ∃ s' t', kvnet.run s [NReturn k; NFinish k] = Some (s', [kvsys.record k r t (value_of v) t']) ∧
    clerk_at s' k = Some (p, e, kvsys.with_doing ck Idle).
Proof.
  intros Hat Hdo Hk Hc Hca.
  set (s1 := kvnet.set_clerk (set_calls s (delete k (pr_calls s))) p e
    (kvsys.with_doing ck (Replied r t (value_of v)))).
  assert (happen s (NReturn k) = Some (Done (s1, None))) as Hh.
  { cbn [happen]. rewrite Hat. cbn [mbind option_bind]. rewrite Hk. cbn [mbind option_bind]. rewrite Hc.
    cbn [mbind option_bind]. by rewrite Hdo, Hca. }
  assert (clerk_at (tick 1 s1) k = Some (p, e, kvsys.with_doing ck (Replied r t (value_of v)))) as Hat1.
  { apply clerk_at_spec in Hat as [Hkp Hp]. apply clerk_at_spec. split; [done|].
    unfold kvnet.heap, mem. simpl. apply list_lookup_insert_eq. by eapply lookup_lt_Some. }
  destruct (replied_finish _ _ _ _ _ _ _ _ Hat1 eq_refl) as (s' & t' & Hr & Hat').
  exists s', t'. split; [|done].
  change [NReturn k; NFinish k] with ([NReturn k] ++ [NFinish k]).
  rewrite (run_app _ _ s (tick 1 s1) s' [] [kvsys.record k r t (value_of v) t']); [done|exact (run_one _ _ _ _ Hh)|done].
Qed.

(** A clerk in its loop that waits for no call. *)
Lemma retry_finish s k p e ck r t : ninv s → clerk_at s k = Some (p, e, ck) → ck_doing ck = Trying r t →
  pr_calls s !! k = None → ∃ evs s' v t', kvnet.run s evs = Some (s', [kvsys.record k r t v t']) ∧
    clerk_at s' k = Some (p, e, kvsys.with_doing ck Idle).
Proof.
  intros Hs Hat Hdo Hno. set (i := fresh (dom (w_calls (kvnet.world s)))).
  assert (w_calls (kvnet.world s) !! i = None) as Hi by apply not_elem_of_dom, is_fresh.
  assert (∃ w c, act (kvnet.world s) (ACall i e (method r) (args_of ck r) (reply_of r)) = Some (Done w) ∧
    w_calls w !! i = Some c ∧ good c) as (w & c & Ha & Hc & Hg).
  { pose proof (kc_args ck r) as He. simpl. rewrite Hi. unfold Call.
    destruct (encode (args_of ck r)) as [b ok]. simpl in He. subst ok. simpl. eexists _, _.
    split; [done|]. simpl. rewrite lookup_insert_eq. done. }
  set (s1 := set_calls (with_world s w) (<[k := i]> (pr_calls s))).
  assert (happen s (NCall k i) = Some (Done (s1, None))) as Hh.
  { cbn [happen]. rewrite Hat. cbn [mbind option_bind]. by rewrite Hdo, Hno, Ha. }
  assert (ninv (tick 1 s1)) as Hs1 by (by eapply ninv_tick, ninv_happen).
  destruct (drive_all (rank c) (tick 1 s1) k i c Hs1) as (evs & s2 & c2 & ok & v & Hr & Hs2 & Hat2 & Hk2 & Hc2 & Hca2 & Hok);
    [simpl; by rewrite lookup_insert_eq|done|done|].
  assert (clerk_at s2 k = Some (p, e, ck)) as Hat'.
  { apply Hat2. apply clerk_at_spec in Hat as [Hkp Hp]. apply clerk_at_spec. split; [done|].
    destruct (act_memory _ _ _ _ _ _ Hs Ha) as (_ & _ & _ & Hck). by apply Hck. }
  rewrite (Hok Hg) in Hca2.
  destruct (returned_finish _ _ _ _ _ _ _ _ _ _ Hat' Hdo Hk2 Hc2 Hca2) as (s3 & t' & Hr3 & Hat3).
  exists ([NCall k i] ++ evs ++ [NReturn k; NFinish k]), s3, (value_of v), t'. split; [|done].
  apply (run_app _ _ s (tick 1 s1) s3 [] [kvsys.record k r t (value_of v) t']); [exact (run_one _ _ _ _ Hh)|].
  by apply (run_app _ _ _ s2 s3 [] [kvsys.record k r t (value_of v) t']).
Qed.

(** Every operation can return. *)
Lemma can_finish s k p e ck r t : ninv s → clerk_at s k = Some (p, e, ck) → ck_doing ck = Trying r t →
  ∃ evs s' v t', kvnet.run s evs = Some (s', [kvsys.record k r t v t']) ∧
    clerk_at s' k = Some (p, e, kvsys.with_doing ck Idle).
Proof.
  intros Hs Hat Hdo. destruct (pr_calls s !! k) as [i|] eqn:Hk; [|by eapply retry_finish].
  destruct (ni_called _ _ _ _ Hs _ _ Hk) as (_ & _ & _ & _ & _ & c & _ & _ & Hc & _).
  destruct (drive_all (rank c) s k i c Hs Hk Hc (le_n _)) as (evs & s1 & c1 & ok & v & Hr & Hs1 & Hat1 & Hk1 & Hc1 & Hca1 & _).
  apply Hat1 in Hat. destruct ok.
  - destruct (returned_finish _ _ _ _ _ _ _ _ _ _ Hat Hdo Hk1 Hc1 Hca1) as (s3 & t' & Hr3 & Hat3).
    exists (evs ++ [NReturn k; NFinish k]), s3, (value_of v), t'. split; [|done].
    by apply (run_app _ _ _ s1 s3 [] [kvsys.record k r t (value_of v) t']).
  - set (s2 := set_calls s1 (delete k (pr_calls s1))).
    assert (happen s1 (NReturn k) = Some (Done (s2, None))) as Hh.
    { cbn [happen]. rewrite Hat. cbn [mbind option_bind]. rewrite Hk1. cbn [mbind option_bind]. rewrite Hc1.
      cbn [mbind option_bind]. by rewrite Hdo, Hca1. }
    assert (ninv (tick 1 s2)) as Hs2 by (by eapply ninv_tick, ninv_happen).
    destruct (retry_finish (tick 1 s2) k p e ck r t Hs2) as (evs2 & s3 & v' & t' & Hr3 & Hat3);
      [done|done|simpl; by rewrite lookup_delete_eq|].
    exists (evs ++ [NReturn k] ++ evs2), s3, v', t'. split; [|done].
    apply (run_app _ _ _ s1 s3 [] [kvsys.record k r t v' t']); [done|].
    by apply (run_app _ _ _ (tick 1 s2) s3 [] [kvsys.record k r t v' t']); [exact (run_one _ _ _ _ Hh)|].
Qed.
End progress.
End kvnetprogress.
