(* ===== verification/KvSrvNetTheorems.v ===== *)
(** * Theorems about clerks, network and key-value server together

    The process of kvsrv/config.go, labrpc and kvsrv (KvSrvNet.v) refines the
    machine of clerks and server of KvSrv.v, so that histories over the simulated
    network are linearizable; and it neither crashes nor gets stuck. *)

From S2P Require Import Prelude LabRpc LabRpcFacts LabRpcClient Bitset Porcupine PorcupineOps Linearizability KvModel.
From S2P Require Import Harness HarnessFacts KvSrv KvSrvFacts KvSrvConfig KvSrvConfigTheorems.
From S2P Require Import KvSrvNet KvSrvNetFacts KvSrvNetRefine KvSrvNetProgress.
Import pops kvsrvcfg kvnet kvnetproof kvnetrefine kvnetprogress.
Open Scope Z_scope.

Lemma abs_start `{KvCodec} p0 wf ids s : kvnet.heap s !! p0 = Some (KServer kvsrv.StartKVServer) →
  pr_clerks s = [] → abs p0 wf ids s = kvsys.init ids.
Proof. intros Hp Hc. unfold abs, abs_server. by rewrite Hp, Hc. Qed.

Lemma inv_init_at ids t : NoDup ids → kvproof.inv (kvsys.init ids) t [] [].
Proof.
  intros Hnd. destruct (kvproof.inv_init ids Hnd). split; try done.
  intros c ck Hc. specialize (inv_clerks c ck Hc). simpl in Hc. rewrite list_lookup_fmap in Hc.
  destruct (ids !! c); simplify_eq/=. exact inv_clerks.
Qed.

(** C10: What clerks do over the simulated network is what the machine of clerks
    and server does.  For every run of a fresh process, in which tests make and
    delete clerks, change the settings of the network and invoke operations while
    the goroutines of labrpc carry requests and replies, drop them or delay them,
    the same history is produced by actions of the machine at the same times (a
    handler executes once per call that reaches it, and its reply arrives if the
    call returns true), and the machine ends with the fields of the server object
    and of the clerks that wait for no call. *)
Theorem kvsrv_network_refines `{KvCodec} t unreliable s evs s' ops :
  start t unreliable = Done s → kvnet.run s evs = Some (s', ops) →
  ∃ acts σ, timed_run (kvsys.init (evs ≫= makes)) t acts = Some (σ, ops) ∧
    sy_server σ = server_of s' ∧ length (sy_clerks σ) = length (pr_clerks s') ∧
    ∀ k p e ck, clerk_at s' k = Some (p, e, ck) → pr_calls s' !! k = None → sy_clerks σ !! k = Some ck.
Proof.
  intros Hst Hr. destruct (ninv_start _ _ _ Hst) as (p0 & a0 & svc0 & Hs & Hp & Hc & Hn).
  destruct (run_ninv _ _ _ _ _ _ _ Hs Hr) as [Hs' Hf].
  destruct (run_refines p0 a0 svc0 (world s') evs s s' ops [] Hs) as [acts Hacts];
    [apply (nv_w _ _ _ (ni_net _ _ _ _ Hs'))|done|apply follows_refl|].
  rewrite app_nil_r, abs_start in Hacts by done.
  exists acts, (abs p0 (world s') [] s'). split_and!.
  - apply Hacts. lia.
  - simpl. symmetry. by eapply server_of_abs.
  - simpl. by rewrite app_nil_r, length_imap.
  - intros k p e ck Hat Hno. rewrite (abs_lookup p0 (world s') [] s' k p e ck Hat).
    rewrite abs_doing_quiet, with_doing_id by (by right). done.
Qed.

(** C4: Histories over the simulated network are linearizable.  In every run of a
    fresh process, reliable or not, by clerks with distinct ids, after which no
    operation is open, the recorded history is linearizable key by key, if no call
    of a client without a table entry returned false after its put was executed. *)
Theorem kvsrv_network_linearizable `{KvCodec} t unreliable s evs s' ops key :
  start t unreliable = Done s → NoDup (evs ≫= makes) → kvnet.run s evs = Some (s', ops) →
  unharmed s evs = true → idle s' → op_linearizable kvmodel.KvModel (kvmodel.of_key key ops).
Proof.
  intros Hst Hnd Hr Hun Hidle. destruct (ninv_start _ _ _ Hst) as (p0 & a0 & svc0 & Hs & Hp & Hc & Hn).
  destruct (run_ninv _ _ _ _ _ _ _ Hs Hr) as [Hs' Hf].
  destruct (run_exactly_once p0 a0 svc0 (world s') evs s s' ops [] [] [] Hs) as (t' & cs & Hinv);
    [apply (nv_w _ _ _ (ni_net _ _ _ _ Hs'))| |done|apply follows_refl|done|done|].
  { rewrite app_nil_r, abs_start by done. rewrite Hn. by apply inv_init_at. }
  eapply kvproof.inv_linearizable; [exact Hinv|]. unfold kvsys.idle. simpl. rewrite app_nil_r.
  apply Forall_lookup. intros k ck Hk. rewrite list_lookup_imap in Hk.
  destruct (pr_clerks s' !! k) as [p|] eqn:Hkp; simplify_eq/=.
  destruct (ni_clerk _ _ _ _ Hs' _ _ Hkp) as (e & ck & Hck & _). unfold abs_clerk. rewrite Hck. simpl.
  assert (ck_doing ck = Idle) as Hdo by (eapply (Hidle k p e), clerk_at_spec; done).
  rewrite abs_doing_quiet; [done|]. left. by rewrite Hdo.
Qed.

(** C25: Clerks over the simulated network never crash and never block for good.
    In every process that a run can reach, no event panics or exits the process
    (unless the random name of a new end is already in use), and every operation
    that is in its loop can return by further events. *)
Theorem kvsrv_network_progress `{KvCodec} t unreliable s evs s' ops :
  start t unreliable = Done s → kvnet.run s evs = Some (s', ops) →
  (∀ ev m, step s' ev = Some m →
    (∀ endname rand, ev = NMake endname rand → labrpc.rn_ends (net (pr_cfg s')) !! NStr endname = None) →
    ∃ x, m = Done x) ∧
  (∀ k p e ck r t0, clerk_at s' k = Some (p, e, ck) → ck_doing ck = Trying r t0 →
    ∃ evs' s2 v t1, kvnet.run s' evs' = Some (s2, [kvsys.record k r t0 v t1])).
Proof.
  intros Hst Hr. destruct (ninv_start _ _ _ Hst) as (p0 & a0 & svc0 & Hs & _).
  destruct (run_ninv _ _ _ _ _ _ _ Hs Hr) as [Hs' _]. split.
  - intros ev m Hev Hmk. unfold step in Hev. destruct (happen s' ev) as [m'|] eqn:Hh; [|done].
    injection Hev as <-. destruct (happen_done _ _ _ _ _ _ Hs' Hh Hmk) as [[s1 o] ->]. by eexists.
  - intros k p e ck r t0 Hat Hdo.
    destruct (can_finish _ _ _ _ _ _ _ _ _ _ Hs' Hat Hdo) as (evs' & s2 & v & t1 & Hr' & _).
    by exists evs', s2, v, t1.
Qed.

(** ** A codec and runs *)

Module demo_kvnet.

Definition kvalue_code (v : kvalue) :=
  match v with
  | KPtr p => inl p
  | KGetArgs (MkGetArgs k id n) => inr (inl (k, id, n))
  | KGetReply (MkGetReply x) => inr (inr (inl x))
  | KPutAppendArgs (MkPutAppendArgs k x id n) => inr (inr (inr (inl (k, x, id, n))))
  | KPutAppendReply (MkPutAppendReply x) => inr (inr (inr (inr (inl x))))
  | KStruct ty => inr (inr (inr (inr (inr ty))))
  end.
Definition kvalue_of c : kvalue :=
  match c with
  | inl p => KPtr p
  | inr (inl (k, id, n)) => KGetArgs (MkGetArgs k id n)
  | inr (inr (inl x)) => KGetReply (MkGetReply x)
  | inr (inr (inr (inl (k, x, id, n)))) => KPutAppendArgs (MkPutAppendArgs k x id n)
  | inr (inr (inr (inr (inl x)))) => KPutAppendReply (MkPutAppendReply x)
  | inr (inr (inr (inr (inr ty)))) => KStruct ty
  end.

#[export] Instance bits_codec : Codec kvalue := bitcodec.codec kvalue_code kvalue_of (λ v,
  match v with
  | KGetArgs _ => KGetArgs (MkGetArgs "" 0 0)
  | KGetReply _ => KGetReply (MkGetReply "")
  | KPutAppendArgs _ => KPutAppendArgs (MkPutAppendArgs "" "" 0 0)
  | KPutAppendReply _ => KPutAppendReply (MkPutAppendReply "")
  | v => v
  end).

#[export] Instance bits_kvcodec : KvCodec.
Proof. split; [|done..]. apply bitcodec.laws. by intros [| [] | [] | [] | [] |]. Qed.

(** A process on an unreliable network. *)
Definition nobody : process := MkProcess (MkConfig false (labrpc.init (MkKapp 0 [])) None ∅ 1 0 0 0 0) [] ∅.
Definition begun : process := get nobody (start 0 true).

Lemma begun_start : start 0 true = Done begun.
Proof. apply get_Done. vm_compute. reflexivity. Qed.

(** Call [i] of clerk [k], whose reply is dropped if [r1] is below 100. *)
Definition attempt (k i : nat) (r1 : Z) : list event :=
  [NCall k i; NNet (labrpc.AReceive i); NNet (labrpc.AStart i 500); NNet (labrpc.AServerDispatch i);
   NNet (labrpc.AServiceDispatch i); NNet (labrpc.ATimeout i); NNet (labrpc.AReplyReady i);
   NNet (labrpc.AFinish i r1 0); NNet (labrpc.AReturn i); NReturn k].

(** Clerk 0 appends; the first reply is lost and the request is sent again; clerk 1
    gets and puts meanwhile. *)
Definition session_events : list event :=
  [NMake "a" 7; NMake "b" 9; NInvoke 0 (RAppend "k" "x")] ++ attempt 0 0 5 ++
  [NInvoke 1 (RGet "k")] ++ attempt 1 1 700 ++ [NFinish 1] ++ attempt 0 2 700 ++
  [NTick 3; NFinish 0; NInvoke 1 (RPut "k" "y")] ++ attempt 1 3 700 ++ [NFinish 1; NDelete 0].

Definition result (s : process) (evs : list event) : process * list (Operation kvmodel.iface) :=
  default (s, []) (kvnet.run s evs).

Lemma run_result s evs : match kvnet.run s evs with Some _ => true | None => false end = true →
  kvnet.run s evs = Some ((result s evs).1, (result s evs).2).
Proof. unfold result. by destruct (kvnet.run s evs) as [[]|]. Qed.

(** Decides [idle]. *)
Definition idle_check (s : process) : bool :=
  forallb (λ k, match clerk_at s k with
                | Some (_, _, ck) => match ck_doing ck with Idle => true | _ => false end
                | None => true
                end) (seq 0 (length (pr_clerks s))).

Lemma idle_check_sound s : idle_check s = true → idle s.
Proof.
  unfold idle_check. rewrite forallb_forall. intros Hall k p e ck Hat.
  assert (k < length (pr_clerks s))%nat as Hlt by (apply clerk_at_spec in Hat as [Hk _]; by eapply lookup_lt_Some).
  specialize (Hall k). rewrite Hat in Hall.
  destruct (ck_doing ck); [done|..]; discriminate Hall; apply in_seq; lia.
Qed.
End demo_kvnet.
Import demo_kvnet.

Lemma session_run : kvnet.run begun session_events =
  Some ((result begun session_events).1, (result begun session_events).2).
Proof. apply run_result. vm_compute. reflexivity. Qed.

Lemma kvsrv_network_refines_witness :
  length (result begun session_events).2 = 3%nat ∧
  ∃ acts σ, timed_run (kvsys.init [7; 9]) 0 acts = Some (σ, (result begun session_events).2).
Proof.
  split; [vm_compute; reflexivity|].
  destruct (kvsrv_network_refines 0 true begun session_events _ _ begun_start session_run)
    as (acts & σ & Hrun & _).
  exists acts, σ. exact Hrun.
Defined.

Lemma kvsrv_network_linearizable_witness :
  op_linearizable kvmodel.KvModel (kvmodel.of_key "k" (result begun session_events).2).
Proof.
  apply (kvsrv_network_linearizable 0 true begun session_events (result begun session_events).1).
  - exact begun_start.
  - apply (bool_decide_unpack (NoDup (session_events ≫= makes))). vm_compute. exact I.
  - exact session_run.
  - vm_compute. reflexivity.
  - apply idle_check_sound. vm_compute. reflexivity.
Defined.

(** The process after the reply to the append of clerk 0 was dropped. *)
Definition retrying : process := (result begun (take 13 session_events)).1.

Lemma kvsrv_network_progress_witness : ∃ evs s v t1,
  kvnet.run retrying evs = Some (s, [kvsys.record 0 (RAppend "k" "x") 2 v t1]).
Proof.
  assert (kvnet.run begun (take 13 session_events) =
    Some (retrying, (result begun (take 13 session_events)).2)) as Hrun
    by (apply run_result; vm_compute; reflexivity).
  refine (proj2 (kvsrv_network_progress 0 true begun _ _ _ begun_start Hrun) 0%nat 1%nat
    (labrpc.MkClientEnd (NStr "a")) (MkClerk 7 1 (Trying (RAppend "k" "x") 2)) (RAppend "k" "x") 2 _ eq_refl).
  vm_compute. reflexivity.
Defined.
