(* ===== verification/ShardKvConfig.v ===== *)
(** * The test harness of the sharded key-value service (shardkv/config.go)

    Three groups of replicated [ShardKV] servers and a replicated shard
    controller on one network.  Draws of [randstring] are arguments, functions
    from the index in the loop; [t.Fatal] is [Fatal].  The operations of the
    controller's clerk are those of ShardKv.v, with the environment [Env] in
    place of the controllers.  [random_handles] is never called and left out, as
    is [os.Remove] of files that do not exist. *)

From S2P Require Import Prelude GoStrings Persister Raft LabRpc ShardKv Harness LabServers.
Import gostrings.
Open Scope Z_scope.

Module shardcfg.
Section shardcfg.
Context {Cmd : Type}.

(** A nil slice of names is the empty list: only its length and its elements
    are used. *)
Record group := MkGroup {
  gr_gid : Z;
  gr_servers : list (option nat);
  gr_saved : list (option nat);
  gr_endnames : list (list string);
  gr_mendnames : list (list string);
}.

(** Nothing changes a controller service once it is started, so it is passed by
    value. *)
Record ctrler := MkCtrler {
  ct_n : nat;
  ct_servers : list (option nat);
  ct_names : list string;
  ct_ck : option nat;
}.

Record config := MkConfig {
  kf_failed : bool;                        (* [t.Failed()] *)
  kf_w : world Cmd;
  kf_start : Z;
  kf_ctl : ctrler;
  kf_ngroups : nat;
  kf_n : nat;
  kf_groups : list group;
  kf_clerks : gmap nat (list string);
  kf_nextClientId : Z;
  kf_maxraftstate : Z;
}.
Implicit Types (c : config) (w : world Cmd) (gg : group) (ctl : ctrler).

Definition set_w w c := MkConfig (kf_failed c) w (kf_start c) (kf_ctl c) (kf_ngroups c) (kf_n c)
  (kf_groups c) (kf_clerks c) (kf_nextClientId c) (kf_maxraftstate c).
Definition set_groups x c := MkConfig (kf_failed c) (kf_w c) (kf_start c) (kf_ctl c) (kf_ngroups c) (kf_n c)
  x (kf_clerks c) (kf_nextClientId c) (kf_maxraftstate c).
Definition set_clerks x id c := MkConfig (kf_failed c) (kf_w c) (kf_start c) (kf_ctl c) (kf_ngroups c) (kf_n c)
  (kf_groups c) x id (kf_maxraftstate c).

Definition set_gservers x gg := MkGroup (gr_gid gg) x (gr_saved gg) (gr_endnames gg) (gr_mendnames gg).
Definition set_gsaved x gg := MkGroup (gr_gid gg) (gr_servers gg) x (gr_endnames gg) (gr_mendnames gg).
Definition set_gends x gg := MkGroup (gr_gid gg) (gr_servers gg) (gr_saved gg) x (gr_mendnames gg).
Definition set_gmends x gg := MkGroup (gr_gid gg) (gr_servers gg) (gr_saved gg) (gr_endnames gg) x.

Definition net c : Network := labrpc.w_net (kf_w c).
Definition mem c : app Cmd := labrpc.w_app (kf_w c).
Definition now c : Z := ap_now (mem c).
Definition set_net rn c : config := set_w (labrpc.with_net (kf_w c) rn) c.
Definition set_mem σ c : config := set_w (with_memory (kf_w c) σ) c.

(** The write through [gg], the pointer [cfg.groups[gi]]. *)
Definition put_group (gi : Z) gg c : outcome config :=
  let! gs := set_idx (kf_groups c) gi gg in Done (set_groups gs c).

Definition checkTimeout c : outcome unit :=
  if negb (kf_failed c) && (120 * 1000 <? now c - kf_start c)
  then Fatal "test took longer than 120 seconds" else Done tt.

(** ** Names *)

Definition ctrlername ctl (i : Z) : outcome string := idx (ct_names ctl) i.

Definition servername (gid i : Z) : string := "server-" +:+ Itoa gid +:+ "-" +:+ Itoa i.

(** ** Ends *)

(** [MakeEnd], [Connect] and [Enable]; also the closures given to clerks and
    servers as [make_end]. *)
Definition make_end (nm servername : string) w : outcome (world Cmd * ClientEnd) :=
  let! '(w, e) := Harness.make_end w (NStr nm) (NStr servername) in
  Done (enable w (NStr nm) true, e).

(** The loops that make an end for every index [j]. *)
Fixpoint make_ends (names : nat → string) (target : nat → outcome string) (js : list nat) w
    : outcome (world Cmd * list ClientEnd) :=
  match js with
  | [] => Done (w, [])
  | j :: js' =>
      let! server := target j in
      let! '(w, e) := make_end (names j) server w in
      let! '(w, es) := make_ends names target js' w in
      Done (w, e :: es)
  end.

Definition ctl_target ctl (j : nat) : outcome string := ctrlername ctl (Z.of_nat j).

(** ** Clerks *)

(** The loop of [makeClient]: [endnames] has [cfg.n] elements, the loop runs up
    to [ctl.n]. *)
Fixpoint client_ends (names : nat → string) ctl (js : list nat) (endnames : list string) w
    : outcome (world Cmd * list string * list ClientEnd) :=
  match js with
  | [] => Done (w, endnames, [])
  | j :: js' =>
      let! endnames := set_idx endnames (Z.of_nat j) (names j) in
      let! server := ctrlername ctl (Z.of_nat j) in
      let! '(w, e) := make_end (names j) server w in
      let! '(w, endnames, es) := client_ends names ctl js' endnames w in
      Done (w, endnames, e :: es)
  end.

(** The clerk is the object with the ends to the controllers of [ck.sm]. *)
Definition makeClient (names : nat → string) ctl c : outcome (config * nat) :=
  let! '(w, endnames, ends) := client_ends names ctl (seq 0 (ct_n ctl)) (replicate (kf_n c) "") (kf_w c) in
  let c := set_w w c in
  let '(ck, σ) := MakeClerk (mem c) ends in
  let c := set_mem σ c in
  Done (set_clerks (<[ck := endnames]> (kf_clerks c)) (kf_nextClientId c + 1) c, ck).

Definition deleteClient (ck : nat) c : config :=
  set_clerks (delete ck (kf_clerks c)) (kf_nextClientId c) c.

(** ** Servers of a group *)

Fixpoint disable_names (names : list string) (js : list nat) w : outcome (world Cmd) :=
  match js with
  | [] => Done w
  | j :: js' =>
      let! nm := idx names (Z.of_nat j) in
      disable_names names js' (enable w (NStr nm) false)
  end.

(** [gg.saved[i] = gg.saved[i].Copy()] if it is not nil, else
    [gg.saved[i] = none]. *)
Definition renew_saved (i : Z) (none : app Cmd → option nat * app Cmd) gg w : outcome (group * world Cmd) :=
  let! s := idx (gr_saved gg) i in
  let! '(s', σ) := match s with
                  | Some ps => let! '(ps', σ) := copy_persister (labrpc.w_app w) ps in Done (Some ps', σ)
                  | None => Done (none (labrpc.w_app w))
                  end in
  let! saved := set_idx (gr_saved gg) i s' in
  Done (set_gsaved saved gg, with_memory w σ).

Definition ShutdownServer (gi i : Z) c : outcome config :=
  let! gg := idx (kf_groups c) gi in
  let! ens := if (0 <? length (gr_servers gg))%nat then idx (gr_endnames gg) i else Done [] in
  let! w := disable_names ens (seq 0 (length (gr_servers gg))) (kf_w c) in
  let! mens := idx (gr_mendnames gg) i in
  let! w := disable_names mens (seq 0 (length mens)) w in
  let w := delete_server w (NStr (servername (gr_gid gg) i)) in
  let! '(gg, w) := renew_saved i (λ σ, (None, σ)) gg w in
  let! kv := idx (gr_servers gg) i in
  let! '(gg, w) := match kv with
                  | Some p =>
                      let! σ := ShardKV_Kill (labrpc.w_app w) p in
                      let! servers := set_idx (gr_servers gg) i None in
                      Done (set_gservers servers gg, with_memory w σ)
                  | None => Done (gg, w)
                  end in
  put_group gi gg (set_w w c).

Fixpoint each (f : Z → config → outcome config) (is_ : list nat) c : outcome config :=
  match is_ with
  | [] => Done c
  | i :: is' => let! c := f (Z.of_nat i) c in each f is' c
  end.

Definition ShutdownGroup (gi : Z) c : outcome config := each (ShutdownServer gi) (seq 0 (kf_n c)) c.

Definition fresh_persister (σ : app Cmd) : option nat * app Cmd :=
  let '(ps, σ) := alloc σ (OPersister persister.MakePersister) in (Some ps, σ).

Definition StartServer (names mnames : nat → string) (gi i : Z) c : outcome config :=
  let! gg := idx (kf_groups c) gi in
  let! ens := set_idx (gr_endnames gg) i (names <$> seq 0 (kf_n c)) in
  let gg := set_gends ens gg in
  let! '(w, ends) := make_ends names (λ j, Done (servername (gr_gid gg) (Z.of_nat j)))
                       (seq 0 (kf_n c)) (kf_w c) in
  let! mens := set_idx (gr_mendnames gg) i (mnames <$> seq 0 (ct_n (kf_ctl c))) in
  let gg := set_gmends mens gg in
  let! '(w, mends) := make_ends mnames (ctl_target (kf_ctl c)) (seq 0 (ct_n (kf_ctl c))) w in
  let! '(gg, w) := renew_saved i fresh_persister gg w in
  let! s := idx (gr_saved gg) i in
  match s with
  | None => nil_pointer
  | Some ps =>
      let! '(kv, σ) := ShardKV_StartServer (labrpc.w_app w) (length ends) i ps (kf_maxraftstate c)
                         (gr_gid gg) mends in
      let w := with_memory w σ in
      let! servers := set_idx (gr_servers gg) i (Some kv) in
      let gg := set_gservers servers gg in
      let! kvsvc := labrpc.MakeService (shardkv_receiver kv) in
      let! x := shardkv_at (labrpc.w_app w) kv in
      let! rfsvc := labrpc.MakeService (raft_receiver (skv_rf x)) in
      put_group gi gg (set_w (add_server w (NStr (servername (gr_gid gg) i)) [kvsvc; rfsvc]) c)
  end.

(** The draws for each server of the group. *)
Definition StartGroup (names mnames : nat → nat → string) (gi : Z) c : outcome config :=
  each (λ i, StartServer (names (Z.to_nat i)) (mnames (Z.to_nat i)) gi i) (seq 0 (kf_n c)) c.

(** ** The controllers *)

Definition set_ctl_servers x ctl := MkCtrler (ct_n ctl) x (ct_names ctl) (ct_ck ctl).

Definition StartCtrlerServer (names : nat → string) (i : Z) ctl w : outcome (ctrler * world Cmd) :=
  let! '(w, ends) := make_ends names (ctl_target ctl) (seq 0 (ct_n ctl)) w in
  let '(p, σ) := alloc (labrpc.w_app w) (OPersister persister.MakePersister) in
  let! '(sc, σ) := ShardCtrler_StartServer σ (length ends) i p in
  let w := with_memory w σ in
  let! servers := set_idx (ct_servers ctl) i (Some sc) in
  let! msvc := labrpc.MakeService (shardctrler_receiver sc) in
  let! rf := ShardCtrler_Raft (labrpc.w_app w) sc in
  let! rfsvc := labrpc.MakeService (raft_receiver rf) in
  let! server := ctrlername ctl i in
  Done (set_ctl_servers servers ctl, add_server w (NStr server) [msvc; rfsvc]).

Fixpoint start_ctrlers (names : nat → nat → string) (is_ : list nat) ctl w : outcome (ctrler * world Cmd) :=
  match is_ with
  | [] => Done (ctl, w)
  | i :: is' =>
      let! '(ctl, w) := StartCtrlerServer (names i) (Z.of_nat i) ctl w in
      start_ctrlers names is' ctl w
  end.

Definition ctrlerclerk (names : nat → string) ctl w : outcome (nat * world Cmd) :=
  let! '(w, ends) := make_ends names (ctl_target ctl) (seq 0 (ct_n ctl)) w in
  let '(ck, σ) := MakeClerk (labrpc.w_app w) ends in
  Done (ck, with_memory w σ).

(** [snames] are the draws for the names of the controllers, [names] for the
    ends of each of them, [cknames] for the clerk. *)
Definition StartCtrlerService (snames : nat → string) (names : nat → nat → string)
    (cknames : nat → string) w : outcome (ctrler * world Cmd) :=
  let n := 3%nat in
  let ctl := MkCtrler n (replicate n None) ((λ i, "ctlr-" +:+ snames i) <$> seq 0 n) None in
  let! '(ctl, w) := start_ctrlers names (seq 0 n) ctl w in
  let! '(ck, w) := ctrlerclerk cknames ctl w in
  Done (MkCtrler (ct_n ctl) (ct_servers ctl) (ct_names ctl) (Some ck), w).

(** ** Joining and leaving *)

Section clerk.
Context `{Env}.

(** [ctl.ck]; the controllers are known by their index. *)
Definition ctl_clerk ctl c : outcome ctlclerk.Clerk :=
  match ct_ck ctl ≫= (λ p, ap_heap (mem c) !! p) with
  | Some (OClerk ck) => Done (ctlclerk.MakeClerk (seq 0 (length (ck_servers ck))))
  | _ => nil_pointer
  end.

(** The loop of [joinm], which fills the map. *)
Fixpoint join_map (gis : list Z) c (m : gmap Z (list string)) : outcome (gmap Z (list string)) :=
  match gis with
  | [] => Done m
  | g :: gis' =>
      let! gg := idx (kf_groups c) g in
      let gid := gr_gid gg in
      let servernames := (λ i, servername gid (Z.of_nat i)) <$> seq 0 (kf_n c) in
      join_map gis' c (<[gid := servernames]> m)
  end.

Definition joinm (fuel : nat) (tr : list rpc) (gis : list Z) ctl c : outcome (option (list rpc)) :=
  let! m := join_map gis c ∅ in
  let! ck := ctl_clerk ctl c in
  Done (ctlclerk.Join fuel tr ck m).

Definition ctljoin (fuel : nat) (tr : list rpc) (gi : Z) ctl c : outcome (option (list rpc)) :=
  joinm fuel tr [gi] ctl c.
Definition join (fuel : nat) (tr : list rpc) (gi : Z) c : outcome (option (list rpc)) :=
  joinm fuel tr [gi] (kf_ctl c) c.

Fixpoint leave_gids (gis : list Z) c (gids : list Z) : outcome (list Z) :=
  match gis with
  | [] => Done gids
  | g :: gis' => let! gg := idx (kf_groups c) g in leave_gids gis' c (gids ++ [gr_gid gg])
  end.

Definition leavem (fuel : nat) (tr : list rpc) (gis : list Z) c : outcome (option (list rpc)) :=
  let! gids := leave_gids gis c [] in
  let! ck := ctl_clerk (kf_ctl c) c in
  Done (ctlclerk.Leave fuel tr ck gids).

Definition leave (fuel : nat) (tr : list rpc) (gi : Z) c : outcome (option (list rpc)) :=
  leavem fuel tr [gi] c.
End clerk.

(** ** The whole test *)

(** The loop of [make_config] over the groups. *)
Fixpoint start_groups (names mnames : nat → nat → nat → string) (gis : list nat) c : outcome config :=
  match gis with
  | [] => Done c
  | gi :: gis' =>
      let n := kf_n c in
      let gg := MkGroup (100 + Z.of_nat gi) (replicate n None) (replicate n None) (replicate n [])
                  (replicate (ct_n (kf_ctl c)) []) in
      let! c := put_group (Z.of_nat gi) gg c in
      let! c := StartGroup (names gi) (mnames gi) (Z.of_nat gi) c in
      start_groups names mnames gis' c
  end.

(** The names drawn: of the controllers, their ends and the ends of their clerk;
    of the ends of each server to its group and to the controllers. *)
Record draws := MkDraws {
  dr_ctl : nat → string;
  dr_ctlends : nat → nat → string;
  dr_ctlclerk : nat → string;
  dr_ends : nat → nat → nat → string;
  dr_mends : nat → nat → nat → string;
}.

(** Entries of [cfg.groups] that are still nil are read by nobody. *)
Definition nil_group : group := MkGroup 0 [] [] [] [].

Definition make_config w (n : nat) (unreliable : bool) (maxraftstate : Z) (d : draws) : outcome config :=
  let! '(ctl, w') := StartCtrlerService (dr_ctl d) (dr_ctlends d) (dr_ctlclerk d)
                       (labrpc.with_net w labrpc.MakeNetwork) in
  let ngroups := 3%nat in
  let c := MkConfig false w' (ap_now (labrpc.w_app w)) ctl ngroups n (replicate ngroups nil_group) ∅ 0
             maxraftstate in
  let! c := start_groups (dr_ends d) (dr_mends d) (seq 0 ngroups) c in
  let c := set_clerks ∅ (Z.of_nat n + 1000) c in
  Done (set_net (labrpc.Reliable (net c) (negb unreliable)) c).

Fixpoint kill_ctrlers ctl (is_ : list nat) c : outcome config :=
  match is_ with
  | [] => Done c
  | i :: is' =>
      let! sc := idx (ct_servers ctl) (Z.of_nat i) in
      match sc with
      | Some p => let! σ := ShardCtrler_Kill (mem c) p in kill_ctrlers ctl is' (set_mem σ c)
      | None => nil_pointer
      end
  end.

Definition cleanup c : outcome config :=
  let! c := each ShutdownGroup (seq 0 (kf_ngroups c)) c in
  let! c := kill_ctrlers (kf_ctl c) (seq 0 (ct_n (kf_ctl c))) c in
  let! rn := labrpc.Cleanup (net c) in
  let c := set_net rn c in
  let! _ := checkTimeout c in
  Done c.

(** The test of [checklogs] on one server. *)
Definition checklog c (gi i : nat) : outcome unit :=
  let! gg := idx (kf_groups c) (Z.of_nat gi) in
  let! s := idx (gr_saved gg) (Z.of_nat i) in
  let! p := persister_at (mem c) s in
  let raft := persister.RaftStateSize p in
  let snap := blen (persister.ReadSnapshot p) in
  if (0 <=? kf_maxraftstate c) && (wrap 64 (8 * kf_maxraftstate c) <? raft)
  then Fatal "persister.RaftStateSize() is too big"
  else if (kf_maxraftstate c <? 0) && (0 <? snap)
  then Fatal "maxraftstate is -1, but snapshot is non-empty!"
  else Done tt.

Fixpoint checklogs_loop c (gis : list (nat * nat)) : outcome unit :=
  match gis with
  | [] => Done tt
  | (gi, i) :: gis' => let! _ := checklog c gi i in checklogs_loop c gis'
  end.

Definition checklogs c : outcome unit :=
  checklogs_loop c (gi ← seq 0 (kf_ngroups c); i ← seq 0 (kf_n c); mret (gi, i)).

End shardcfg.
Arguments config : clear implicits.
End shardcfg.
