(* ===== verification/ShardKvConfigTheorems.v ===== *)
(** * What the harness of the sharded service guarantees (shardkv/config.go)

    The names that the harness gives to servers are unique, so that the map of
    servers in a [Join] leads, through [make_end], to exactly the servers of each
    group, after any sequence of starts and shutdowns; and a shutdown cuts off
    one server and nothing else. *)

From Stdlib Require Import Ascii.
From S2P Require Import Prelude GoStrings Persister Raft LabRpc ShardKv Harness HarnessFacts LabServers ShardKvConfig.
Import gostrings shardcfg.
Open Scope Z_scope.

(** ** Names *)

#[export] Instance NStr_inj : Inj (=) (=) NStr.
Proof. by intros s s' [= ->]. Qed.

Lemma Split_inj c s t s' t' : no_char c s → no_char c s' →
  s +:+ String c t = s' +:+ String c t' → s = s' ∧ t = t'.
Proof.
  revert s'. induction s as [|d s IH]; intros [|d' s'] Hs Hs' Heq; simpl in *; simplify_eq; try done.
  - by destruct Hs'.
  - by destruct Hs.
  - destruct (IH s') as [-> ->]; try done; tauto.
Qed.

Lemma servername_inj gid i gid' i' : 0 ≤ gid → 0 ≤ gid' →
  servername gid i = servername gid' i' → gid = gid' ∧ i = i'.
Proof.
  intros Hg Hg'. unfold servername. simpl. intros [= Heq].
  apply Split_inj in Heq as [Hgid Hi]; [|by apply Itoa_no_dash..]. by split; apply Itoa_inj.
Qed.

Section theorems.
Context {Cmd : Type}.
Implicit Types (c : config Cmd) (w : world Cmd) (gg : group).

Definition wheap w : list (obj Cmd) := ap_heap (labrpc.w_app w).

(** ** Changes of the world *)

(** Objects that never change: the servers of shardkv, whose handlers have empty
    bodies, and the clerks. *)
Definition constant (o : obj Cmd) : Prop :=
  match o with OShardKV _ | OClerk _ => True | _ => False end.

(** The world goes on, with servers added or deleted only at names in [P]. *)
Record ext (P : name → Prop) w w' : Prop := {
  ext_server nm : ¬ P nm → labrpc.server_at (labrpc.w_net w') nm = labrpc.server_at (labrpc.w_net w) nm;
  ext_store a rs : labrpc.w_store w !! a = Some rs → ∃ rs',
    labrpc.w_store w' !! a = Some rs' ∧ labrpc.rs_services rs' = labrpc.rs_services rs;
  ext_heap p o : constant o → wheap w !! p = Some o → wheap w' !! p = Some o;
}.

Lemma ext_refl P w : ext P w w.
Proof. split; [done|eauto|done]. Qed.

Lemma ext_trans P w w' w'' : ext P w w' → ext P w' w'' → ext P w w''.
Proof.
  intros H1 H2. split.
  - intros nm Hnm. by rewrite (ext_server _ _ _ H2), (ext_server _ _ _ H1).
  - intros a rs Hrs. destruct (ext_store _ _ _ H1 _ _ Hrs) as (rs' & Hrs' & <-).
    by apply (ext_store _ _ _ H2) in Hrs'.
  - intros p o Ho Hp. by apply (ext_heap _ _ _ H2), (ext_heap _ _ _ H1).
Qed.

Lemma ext_weaken (P Q : name → Prop) w w' : (∀ nm, P nm → Q nm) → ext P w w' → ext Q w w'.
Proof. intros HPQ [H1 H2 H3]. split; auto. Qed.

(** The network keeps its servers. *)
Lemma ext_net P w w' : labrpc.rn_servers (labrpc.w_net w') = labrpc.rn_servers (labrpc.w_net w) →
  labrpc.w_store w' = labrpc.w_store w → labrpc.w_app w' = labrpc.w_app w → ext P w w'.
Proof.
  intros Hrn Hst Happ. unfold labrpc.server_at, wheap. split.
  - intros nm _. unfold labrpc.server_at. by rewrite Hrn.
  - rewrite Hst. eauto.
  - unfold wheap. by rewrite Happ.
Qed.

Lemma ext_memory P w σ : (∀ p o, constant o → wheap w !! p = Some o → ap_heap σ !! p = Some o) →
  ext P w (with_memory w σ).
Proof. intros Hσ. split; [done|eauto|exact Hσ]. Qed.

Lemma ext_append P w σ l : ap_heap σ = wheap w ++ l → ext P w (with_memory w σ).
Proof. intros Hσ. apply ext_memory. intros p o _ Hp. rewrite Hσ. by apply lookup_app_l_Some. Qed.

Lemma ext_add_server w nm svcs : ext (eq nm) w (add_server w nm svcs).
Proof.
  split; [|intros a rs Hrs; exists rs; split; [|done]|done].
  - intros nm' Hnm. unfold add_server, labrpc.AddServer. simpl. rewrite server_at_insert.
    by rewrite decide_False by congruence.
  - simpl. rewrite lookup_insert_ne; [done|]. intros Heq.
    pose proof (is_fresh (dom (labrpc.w_store w))) as Hf. apply Hf. rewrite Heq. by apply elem_of_dom_2 in Hrs.
Qed.

Lemma ext_delete_server w nm : ext (eq nm) w (delete_server w nm).
Proof.
  split; [|eauto|done]. intros nm' Hnm. unfold delete_server, labrpc.DeleteServer. simpl.
  rewrite server_at_insert. by rewrite decide_False by congruence.
Qed.

Lemma add_server_at w nm svcs : ∃ a,
  labrpc.server_at (labrpc.w_net (add_server w nm svcs)) nm = Some a ∧
  labrpc.w_store (add_server w nm svcs) !! a = Some (foldl labrpc.AddService labrpc.MakeServer svcs).
Proof.
  eexists. unfold add_server, labrpc.AddServer. simpl. rewrite server_at_insert.
  rewrite decide_True by done. split; [done|]. by rewrite lookup_insert_eq.
Qed.

Lemma delete_server_at w nm : labrpc.server_at (labrpc.w_net (delete_server w nm)) nm = None.
Proof. unfold delete_server, labrpc.DeleteServer. simpl. rewrite server_at_insert. by rewrite decide_True. Qed.

(** The ends of the harness. *)
Lemma make_end_spec nm sn w w' e : make_end nm sn w = Done (w', e) →
  labrpc.rn_ends (labrpc.w_net w) !! NStr nm = None ∧ e = labrpc.MkClientEnd (NStr nm) ∧
  labrpc.readEndnameInfo (labrpc.w_net w') (NStr nm) =
    (true, Some (NStr sn), labrpc.server_at (labrpc.w_net w) (NStr sn),
     labrpc.rn_reliable (labrpc.w_net w), labrpc.rn_longReordering (labrpc.w_net w)) ∧
  wheap w' = wheap w ∧ ∀ P, ext P w w'.
Proof.
  unfold make_end, Harness.make_end, labrpc.MakeEnd. intros Hm.
  destruct (labrpc.rn_ends (labrpc.w_net w) !! NStr nm) eqn:Hnew; [done|].
  cbn [mbind outcome_bind] in Hm. apply Done_inj, pair_equal_spec in Hm as [<- <-].
  split_and!; [done|done| |done|intros P; by apply ext_net].
  unfold labrpc.readEndnameInfo, labrpc.is_enabled. simpl. by rewrite !lookup_insert_eq.
Qed.

Lemma make_ends_ext P names target js : ∀ w w' es, make_ends names target js w = Done (w', es) →
  ext P w w' ∧ wheap w' = wheap w ∧ length es = length js.
Proof.
  induction js as [|j js IH]; intros w w' es Hm; cbn [make_ends] in Hm.
  - apply Done_inj, pair_equal_spec in Hm as [<- <-]. split; [apply ext_refl|done].
  - apply bind_Done in Hm as (sn & _ & Hm). apply bind_Done in Hm as ([w1 e] & H1 & Hm).
    apply bind_Done in Hm as ([w2 es2] & H2 & Hm). apply Done_inj, pair_equal_spec in Hm as [<- <-].
    apply make_end_spec in H1 as (_ & _ & _ & Hh1 & He1). apply IH in H2 as (He2 & Hh2 & Hl).
    split; [by eapply ext_trans|]. split; [congruence|]. simpl. by rewrite Hl.
Qed.

Lemma client_ends_ext P names ctl js : ∀ en w w' en' es,
  client_ends names ctl js en w = Done (w', en', es) → ext P w w' ∧ wheap w' = wheap w.
Proof.
  induction js as [|j js IH]; intros en w w' en' es Hm; cbn [client_ends] in Hm.
  - apply Done_inj in Hm. simplify_eq. split; [apply ext_refl|done].
  - apply bind_Done in Hm as (en1 & _ & Hm). apply bind_Done in Hm as (sn & _ & Hm).
    apply bind_Done in Hm as ([w1 e] & H1 & Hm). apply bind_Done in Hm as ([[w2 en2] es2] & H2 & Hm).
    apply Done_inj in Hm. simplify_eq. apply make_end_spec in H1 as (_ & _ & _ & Hh1 & He1).
    apply IH in H2 as [He2 Hh2]. split; [by eapply ext_trans|congruence].
Qed.

(** ** Where a server is *)

(** The network leads from the name of server [i] of group [gid] to the object
    [p], that server, and to its peer. *)
Definition hosts w (gid i : Z) (p : nat) : Prop := ∃ kv a rs kvsvc rfsvc,
  wheap w !! p = Some (OShardKV kv) ∧ skv_gid kv = gid ∧ skv_me kv = i ∧
  labrpc.server_at (labrpc.w_net w) (NStr (servername gid i)) = Some a ∧
  labrpc.w_store w !! a = Some rs ∧
  labrpc.MakeService (shardkv_receiver p) = Done kvsvc ∧
  labrpc.MakeService (raft_receiver (skv_rf kv)) = Done rfsvc ∧
  labrpc.rs_services rs = <["Raft" := rfsvc]> {["ShardKV" := kvsvc]}.

(** An entry of [gg.servers]: a server, or nil when nothing has its name. *)
Definition in_place w (gid i : Z) (s : option nat) : Prop :=
  match s with
  | Some p => hosts w gid i p
  | None => labrpc.server_at (labrpc.w_net w) (NStr (servername gid i)) = None
  end.

Lemma in_place_ext P w w' gid i s : ext P w w' → ¬ P (NStr (servername gid i)) →
  in_place w gid i s → in_place w' gid i s.
Proof.
  intros Hext HP. destruct s as [p|]; simpl; [|by rewrite (ext_server _ _ _ Hext)].
  intros (kv & a & rs & kvsvc & rfsvc & Hp & Hg & Hi & Ha & Hrs & Hk & Hr & Hsv).
  destruct (ext_store _ _ _ Hext _ _ Hrs) as (rs' & Hrs' & Heq).
  exists kv, a, rs', kvsvc, rfsvc. rewrite (ext_server _ _ _ Hext), Heq by done.
  split_and!; try done. by apply (ext_heap _ _ _ Hext).
Qed.

(** The effect of starting or shutting down server [i] of group [gi]. *)
Definition server_step (gi i : Z) c c' : Prop := ∃ gg gg' s w',
  0 ≤ gi ∧ 0 ≤ i ∧ kf_groups c !! Z.to_nat gi = Some gg ∧ gr_gid gg' = gr_gid gg ∧
  gr_servers gg' = <[Z.to_nat i := s]> (gr_servers gg) ∧
  c' = set_groups (<[Z.to_nat gi := gg']> (kf_groups c)) (set_w w' c) ∧
  ext (eq (NStr (servername (gr_gid gg) i))) (kf_w c) w' ∧ in_place w' (gr_gid gg) i s.

Lemma renew_saved_spec P i none gg w gg' w' :
  (∀ σ, ∃ l, ap_heap (none σ).2 = ap_heap σ ++ l) → renew_saved i none gg w = Done (gg', w') →
  ∃ s', gg' = set_gsaved s' gg ∧ ext P w w' ∧ ∃ l, wheap w' = wheap w ++ l.
Proof.
  intros Hnone Hr. unfold renew_saved in Hr. apply bind_Done in Hr as (s & _ & Hr).
  apply bind_Done in Hr as ([s' σ] & Hs & Hr). apply bind_Done in Hr as (saved & _ & Hr).
  apply Done_inj, pair_equal_spec in Hr as [<- <-]. exists saved. split; [done|].
  assert (∃ l, ap_heap σ = wheap w ++ l) as [l Hl].
  { destruct s as [ps|].
    - apply bind_Done in Hs as ([ps' σ'] & Hc & Hs). apply Done_inj, pair_equal_spec in Hs as [_ <-].
      unfold copy_persister, alloc in Hc. apply bind_Done in Hc as (p & _ & Hc).
      apply Done_inj, pair_equal_spec in Hc as [_ <-]. by eexists.
    - apply Done_inj in Hs. destruct (Hnone (labrpc.w_app w)) as [l Hl]. exists l. by rewrite Hs in Hl. }
  split; [by eapply ext_append|]. by exists l.
Qed.

Lemma ShardKV_Kill_keeps (σ : app Cmd) p σ' : ShardKV_Kill σ p = Done σ' →
  ∃ kv rf ps, ap_heap σ !! p = Some (OShardKV kv) ∧ ap_heap σ !! skv_rf kv = Some (ORaft rf ps) ∧
    σ' = store σ (skv_rf kv) (ORaft (raft.Kill rf) ps).
Proof.
  unfold ShardKV_Kill, shardkv_at, nil_pointer. intros Hk. destruct (ap_heap σ !! p) as [[]|] eqn:Hp; try done.
  cbn [mbind outcome_bind] in Hk. unfold kill_raft in Hk. apply bind_Done in Hk as ([[q rf] ps] & Hq & Hk).
  apply raft_at_Done in Hq as [[= <-] Hq]. apply Done_inj in Hk as <-. by exists kv, rf, ps.
Qed.

Lemma disable_names_ext P names js : ∀ w w', disable_names names js w = Done w' →
  ext P w w' ∧ wheap w' = wheap w.
Proof.
  induction js as [|j js IH]; intros w w' Hd; cbn [disable_names] in Hd.
  - apply Done_inj in Hd as <-. split; [apply ext_refl|done].
  - apply bind_Done in Hd as (nm & _ & Hd). apply IH in Hd as [He Hh].
    split; [|done]. eapply ext_trans; [|exact He]. by apply ext_net.
Qed.

Lemma put_group_Done gi gg c c' : put_group gi gg c = Done c' →
  0 ≤ gi ∧ c' = set_groups (<[Z.to_nat gi := gg]> (kf_groups c)) c.
Proof.
  unfold put_group. intros Hp. apply bind_Done in Hp as (gs & [Hgi ->]%set_idx_Done & Hp).
  apply Done_inj in Hp as <-. split; [lia|done].
Qed.

Lemma ShutdownServer_step gi i c c' : ShutdownServer gi i c = Done c' → server_step gi i c c'.
Proof.
  unfold ShutdownServer. intros Hs. apply bind_Done in Hs as (gg & [Hgi Hgg]%idx_Done & Hs).
  apply bind_Done in Hs as (ens & _ & Hs). apply bind_Done in Hs as (w1 & H1 & Hs).
  apply bind_Done in Hs as (mens & [Hi _]%idx_Done & Hs). apply bind_Done in Hs as (w2 & H2 & Hs).
  apply bind_Done in Hs as ([gg2 w3] & H3 & Hs). apply bind_Done in Hs as (kv & [_ Hkv]%idx_Done & Hs).
  apply bind_Done in Hs as ([gg' w'] & H4 & Hs). apply put_group_Done in Hs as [_ ->].
  set (nm := NStr (servername (gr_gid gg) i)) in *.
  apply (disable_names_ext (eq nm)) in H1 as [He1 _]. apply (disable_names_ext (eq nm)) in H2 as [He2 _].
  pose proof (ext_trans _ _ _ _ He1 (ext_trans _ _ _ _ He2 (ext_delete_server w2 nm))) as He3.
  pose proof (delete_server_at w2 nm) as Hnone.
  apply (renew_saved_spec (λ _, False)) in H3 as (saved & -> & He4 & _); [|intros σ; exists []; by rewrite app_nil_r].
  rewrite <- (ext_server _ _ _ He4 nm (λ x, x)) in Hnone.
  pose proof (ext_trans _ _ _ _ He3 (ext_weaken _ (eq nm) _ _ (λ _, False_ind _) He4)) as He5.
  simpl in Hkv. exists gg, gg', None, w'. destruct kv as [p|].
  - apply bind_Done in H4 as (σ & Hk & H4). apply bind_Done in H4 as (servers & [_ ->]%set_idx_Done & H4).
    apply Done_inj, pair_equal_spec in H4 as [<- <-].
    apply ShardKV_Kill_keeps in Hk as (kv & rf & ps & Hp & Hrf & ->). split_and!; try done.
    eapply ext_trans; [exact He5|]. apply ext_memory. intros q o Ho Hq. unfold store. simpl.
    rewrite list_lookup_insert_ne; [done|]. intros <-. unfold wheap in Hq. rewrite Hrf in Hq. by simplify_eq.
  - apply Done_inj, pair_equal_spec in H4 as [<- <-]. split_and!; try done. simpl.
    symmetry. by apply list_insert_id.
Qed.

Lemma StartServer_step names mnames gi i c c' : StartServer names mnames gi i c = Done c' → server_step gi i c c'.
Proof.
  unfold StartServer. intros Hs. apply bind_Done in Hs as (gg & [Hgi Hgg]%idx_Done & Hs).
  apply bind_Done in Hs as (ens & [Hi _]%set_idx_Done & Hs). apply bind_Done in Hs as ([w1 es] & H1 & Hs).
  apply bind_Done in Hs as (mens & _ & Hs). apply bind_Done in Hs as ([w2 mes] & H2 & Hs).
  apply bind_Done in Hs as ([gg2 w3] & H3 & Hs). apply bind_Done in Hs as ([ps|] & _ & Hs); [|done].
  apply bind_Done in Hs as ([p σ] & Hst & Hs). apply bind_Done in Hs as (servers & [Hlen ->]%set_idx_Done & Hs).
  apply bind_Done in Hs as (kvsvc & Hkv & Hs). apply bind_Done in Hs as (x & Hx & Hs).
  apply bind_Done in Hs as (rfsvc & Hrf & Hs). apply put_group_Done in Hs as [_ ->].
  apply (renew_saved_spec (λ _, False)) in H3 as (saved & -> & He3 & _); [|by eexists].
  cbn [gr_gid set_gsaved set_gmends set_gends gr_servers] in *.
  apply (make_ends_ext (λ _, False)) in H1 as [He1 _]. apply (make_ends_ext (λ _, False)) in H2 as [He2 _].
  unfold ShardKV_StartServer in Hst. apply bind_Done in Hst as ([rf σ1] & Hmk & Hst).
  apply make_raft_spec in Hmk as (q & _ & -> & ->). unfold alloc in Hst.
  apply Done_inj, pair_equal_spec in Hst as [Hp Hσ]. set (kv := MkShardKV _ _ _ _ _) in Hσ.
  assert (∃ r, ap_heap σ = (wheap w3 ++ [r]) ++ [OShardKV kv] ∧ p = length (wheap w3 ++ [r])) as (r & Hh & Hlp).
  { rewrite <- Hp, <- Hσ. by eexists. }
  assert (ext (λ _, False) w3 (with_memory w3 σ)) as He4.
  { eapply ext_append. by rewrite Hh, <- app_assoc. }
  assert (ap_heap σ !! p = Some (OShardKV kv)) as Hkvp by (by rewrite Hh, Hlp, lookup_app_r, Nat.sub_diag).
  assert (x = kv) as ->.
  { unfold shardkv_at, nil_pointer in Hx. simpl in Hx. rewrite Hkvp in Hx. by simplify_eq. }
  set (nm := NStr (servername (gr_gid gg) i)). set (w' := add_server (with_memory w3 σ) nm [kvsvc; rfsvc]).
  destruct (add_server_at (with_memory w3 σ) nm [kvsvc; rfsvc]) as (a & Ha & Hrs). fold w' in Ha, Hrs.
  exists gg, (set_gservers (<[Z.to_nat i := Some p]> (gr_servers gg))
    (set_gsaved saved (set_gmends mens (set_gends ens gg)))), (Some p), w'.
  split_and!; [done|lia|done..| |].
  - pose proof (ext_trans _ _ _ _ He1 (ext_trans _ _ _ _ He2 (ext_trans _ _ _ _ He3 He4))) as He.
    eapply ext_trans; [eapply ext_weaken; [|exact He]; done|]. apply ext_add_server.
  - exists kv, a, (foldl labrpc.AddService labrpc.MakeServer [kvsvc; rfsvc]), kvsvc, rfsvc.
    split_and!; try done.
    + simpl. unfold labrpc.MakeService in Hkv, Hrf. apply bind_Done in Hkv as (m1 & _ & Hkv).
      apply bind_Done in Hrf as (m2 & _ & Hrf). apply Done_inj in Hkv as <-. by apply Done_inj in Hrf as <-.
Qed.

(** ** The groups *)

(** Group [gi] of a config with [n] servers per group. *)
Definition group_ok w (n gi : nat) gg : Prop :=
  gr_gid gg = 100 + Z.of_nat gi ∧ length (gr_servers gg) = n ∧
  ∀ i s, gr_servers gg !! i = Some s → in_place w (gr_gid gg) (Z.of_nat i) s.

(** No server of group [gi] was ever started. *)
Definition untouched w (gi : nat) : Prop := ∀ i, 0 ≤ i →
  labrpc.server_at (labrpc.w_net w) (NStr (servername (100 + Z.of_nat gi) i)) = None.

Definition clerk_at w ctl : Prop := ∃ p ck, ct_ck ctl = Some p ∧ wheap w !! p = Some (OClerk ck) ∧
  length (ck_servers ck) = ct_n ctl.

(** The first [k] of the groups are in use. *)
Record inv_upto (k : nat) c : Prop := {
  iv_count : length (kf_groups c) = kf_ngroups c;
  iv_group gi gg : (gi < k)%nat → kf_groups c !! gi = Some gg → group_ok (kf_w c) (kf_n c) gi gg;
  iv_rest gi : (k ≤ gi)%nat → untouched (kf_w c) gi;
  iv_clerk : clerk_at (kf_w c) (kf_ctl c);
}.

Lemma clerk_at_ext P w w' ctl : ext P w w' → clerk_at w ctl → clerk_at w' ctl.
Proof.
  intros He (p & ck & Hck & Hp & Hl). exists p, ck. split_and!; [done| |done]. by apply (ext_heap _ _ _ He).
Qed.

Lemma inv_ext k c w' : ext (λ _, False) (kf_w c) w' → inv_upto k c → inv_upto k (set_w w' c).
Proof.
  intros He Hinv. split.
  - apply (iv_count _ _ Hinv).
  - intros gi gg Hgi Hgg. destruct (iv_group _ _ Hinv gi gg Hgi Hgg) as (Hid & Hlen & Hs).
    split_and!; [done..|]. intros i s Hi. eapply in_place_ext; [exact He|by intros []|by apply Hs].
  - intros gi Hgi i Hi. simpl. rewrite (ext_server _ _ _ He) by (by intros []). by apply (iv_rest _ _ Hinv).
  - eapply clerk_at_ext; [exact He|apply (iv_clerk _ _ Hinv)].
Qed.

Lemma shard_inv_step k gi i c c' : (Z.to_nat gi < k)%nat → server_step gi i c c' → inv_upto k c → inv_upto k c'.
Proof.
  intros Hk (gg & gg' & s & w' & Hgi & Hi & Hgg & Hid & Hsv & -> & He & Hin) Hinv.
  destruct (iv_group _ _ Hinv _ _ Hk Hgg) as (Hgid & Hlen & Hplace).
  assert (∀ gi' i', (gi' ≠ Z.to_nat gi ∨ i' ≠ i) → 0 ≤ i' →
    NStr (servername (gr_gid gg) i) ≠ NStr (servername (100 + Z.of_nat gi') i')) as Hne.
  { intros gi' i' Hor Hi' Heq. apply (inj NStr), servername_inj in Heq; [|lia..]. lia. }
  split.
  - simpl. rewrite length_insert. apply (iv_count _ _ Hinv).
  - intros gi' g Hgi'. simpl. intros [(<- & <- & Hl)|(Hneg & Hg)]%list_lookup_insert_Some.
    + split_and!; [congruence|by rewrite Hsv, length_insert|]. rewrite Hsv, Hid.
      intros i' s' [(<- & <- & _)|(Hnei & Hs')]%list_lookup_insert_Some; [by rewrite Z2Nat.id|].
      eapply in_place_ext; [exact He| |by apply Hplace]. rewrite Hgid. rewrite Hgid in Hne. apply Hne; lia.
    + destruct (iv_group _ _ Hinv _ _ Hgi' Hg) as (Hgid' & Hlen' & Hplace').
      split_and!; [done..|]. intros i' s' Hs'. eapply in_place_ext; [exact He| |by apply Hplace'].
      rewrite Hgid'. apply Hne; lia.
  - intros gi' Hgi' i' Hi'. simpl. rewrite (ext_server _ _ _ He) by (apply Hne; lia).
    by apply (iv_rest _ _ Hinv).
  - eapply clerk_at_ext; [exact He|apply (iv_clerk _ _ Hinv)].
Qed.

Lemma each_StartServer_inv k names mnames gi ids : (Z.to_nat gi < k)%nat → ∀ c c', inv_upto k c →
  each (λ i, StartServer (names (Z.to_nat i)) (mnames (Z.to_nat i)) gi i) ids c = Done c' →
  inv_upto k c' ∧ kf_n c' = kf_n c ∧ kf_ngroups c' = kf_ngroups c.
Proof.
  intros Hk. induction ids as [|i ids IH]; intros c c' Hinv He; cbn [each] in He.
  - by apply Done_inj in He as <-.
  - apply bind_Done in He as (c1 & Hst%StartServer_step & He).
    pose proof (shard_inv_step _ _ _ _ _ Hk Hst Hinv) as Hinv1. destruct (IH _ _ Hinv1 He) as (Hinv' & Hn & Hng).
    destruct Hst as (gg & gg' & s & w' & _ & _ & _ & _ & _ & -> & _). done.
Qed.

Lemma each_ShutdownServer_inv k gi ids : (Z.to_nat gi < k)%nat → ∀ c c', inv_upto k c →
  each (ShutdownServer gi) ids c = Done c' → inv_upto k c'.
Proof.
  intros Hk. induction ids as [|i ids IH]; intros c c' Hinv He; cbn [each] in He.
  - by apply Done_inj in He as <-.
  - apply bind_Done in He as (c1 & Hst%ShutdownServer_step & He). eapply IH; [|exact He].
    by eapply shard_inv_step.
Qed.

Lemma start_groups_inv names mnames m : ∀ k c c', inv_upto k c → (k + m ≤ kf_ngroups c)%nat →
  start_groups names mnames (seq k m) c = Done c' → inv_upto (k + m) c' ∧ kf_ngroups c' = kf_ngroups c.
Proof.
  induction m as [|m IH]; intros k c c' Hinv Hk Hs; cbn [seq start_groups] in Hs.
  - apply Done_inj in Hs as <-. by rewrite Nat.add_0_r.
  - apply bind_Done in Hs as (c1 & [_ ->]%put_group_Done & Hs). apply bind_Done in Hs as (c2 & H2 & Hs).
    rewrite Nat2Z.id in H2. set (c1 := set_groups _ c) in H2. assert (inv_upto (S k) c1) as Hinv1.
    { unfold c1. split.
      - simpl. rewrite length_insert. apply (iv_count _ _ Hinv).
      - intros gi g Hgi. simpl. intros [(<- & <- & Hl)|(Hne & Hg)]%list_lookup_insert_Some.
        + split_and!; [done|apply length_replicate|]. intros i s [-> _]%lookup_replicate.
          apply (iv_rest _ _ Hinv); [done|lia].
        + apply (iv_group _ _ Hinv); [lia|done].
      - intros gi Hgi. apply (iv_rest _ _ Hinv). lia.
      - apply (iv_clerk _ _ Hinv). }
    unfold StartGroup in H2. apply (each_StartServer_inv (S k)) in H2 as (Hinv2 & _ & Hng); [|lia|done].
    rewrite <- Nat.add_succ_comm. apply IH in Hs as [Hinv' Hng']; [|done|rewrite Hng; unfold c1; simpl; lia].
    split; [done|]. by rewrite Hng', Hng.
Qed.

(** ** The controllers *)

Definition ctl_name (nm : name) : Prop := ∃ s, nm = NStr ("ctlr-" +:+ s).

Lemma StartCtrlerServer_ext names i ctl w ctl' w' :
  Forall (λ s, ctl_name (NStr s)) (ct_names ctl) → StartCtrlerServer names i ctl w = Done (ctl', w') →
  (∃ x, ctl' = set_ctl_servers x ctl) ∧ ext ctl_name w w'.
Proof.
  intros Hnames Hs. unfold StartCtrlerServer in Hs. apply bind_Done in Hs as ([w1 es] & H1 & Hs).
  unfold alloc in Hs. apply bind_Done in Hs as ([sc σ] & Hst & Hs). apply bind_Done in Hs as (x & _ & Hs).
  apply bind_Done in Hs as (msvc & _ & Hs). apply bind_Done in Hs as (rf & _ & Hs).
  apply bind_Done in Hs as (rfsvc & _ & Hs). apply bind_Done in Hs as (sn & [_ Hsn]%idx_Done & Hs).
  apply Done_inj, pair_equal_spec in Hs as [<- <-]. split; [by exists x|].
  apply (make_ends_ext ctl_name) in H1 as [He1 _]. eapply ext_trans; [exact He1|].
  unfold ShardCtrler_StartServer in Hst. apply bind_Done in Hst as ([r σ1] & Hmk & Hst).
  apply make_raft_spec in Hmk as (q & _ & -> & ->). unfold alloc in Hst.
  apply Done_inj, pair_equal_spec in Hst as [_ Hσ].
  apply (ext_trans _ _ (with_memory w1 σ)).
  - eapply ext_append. rewrite <- Hσ. simpl. by rewrite <- !app_assoc.
  - eapply ext_weaken; [|apply ext_add_server]. intros nm <-.
    rewrite Forall_forall in Hnames. apply Hnames. by eapply list_elem_of_lookup_2.
Qed.

Lemma start_ctrlers_ext names ids : ∀ ctl w ctl' w',
  Forall (λ s, ctl_name (NStr s)) (ct_names ctl) → start_ctrlers names ids ctl w = Done (ctl', w') →
  ct_n ctl' = ct_n ctl ∧ ext ctl_name w w'.
Proof.
  induction ids as [|i ids IH]; intros ctl w ctl' w' Hn Hs; cbn [start_ctrlers] in Hs.
  - apply Done_inj, pair_equal_spec in Hs as [<- <-]. split; [done|apply ext_refl].
  - apply bind_Done in Hs as ([ctl1 w1] & H1 & Hs).
    apply StartCtrlerServer_ext in H1 as [[x ->] He1]; [|done]. apply IH in Hs as [Hn' He']; [|done].
    split; [done|by eapply ext_trans].
Qed.

Lemma StartCtrlerService_spec snames names cknames w ctl w' :
  StartCtrlerService snames names cknames w = Done (ctl, w') → ext ctl_name w w' ∧ clerk_at w' ctl.
Proof.
  unfold StartCtrlerService. intros Hs. apply bind_Done in Hs as ([ctl1 w1] & H1 & Hs).
  apply bind_Done in Hs as ([ck w2] & H2 & Hs). apply Done_inj, pair_equal_spec in Hs as [<- <-].
  apply start_ctrlers_ext in H1 as [Hn1 He1].
  2:{ apply Forall_fmap, Forall_forall. intros i _. by eexists. }
  unfold ctrlerclerk in H2. apply bind_Done in H2 as ([w3 es] & H3 & H2). unfold MakeClerk, alloc in H2.
  apply Done_inj, pair_equal_spec in H2 as [<- <-].
  apply (make_ends_ext ctl_name) in H3 as (He3 & _ & Hl). split.
  - eapply ext_trans; [exact He1|]. eapply ext_trans; [exact He3|]. by eapply ext_append.
  - exists (length (wheap w3)), (MkClerk es). split_and!; [done| |simpl; by rewrite Hl, length_seq].
    unfold wheap. simpl. by rewrite lookup_app_r, Nat.sub_diag.
Qed.

Lemma shard_make_config_inv w n u maxraft d c : make_config w n u maxraft d = Done c → inv_upto (kf_ngroups c) c.
Proof.
  unfold make_config. intros Hc. apply bind_Done in Hc as ([ctl w1] & H1 & Hc).
  apply bind_Done in Hc as (c1 & H2 & Hc). apply Done_inj in Hc as <-.
  apply StartCtrlerService_spec in H1 as [He1 Hck].
  apply (start_groups_inv _ _ 3 0) in H2 as [Hinv Hng]; [|split|done].
  - cbn [kf_ngroups] in Hng. change (kf_ngroups _) with (kf_ngroups c1). rewrite Hng.
    destruct Hinv as [Hl Hg Hr Hk]. split; [exact Hl|exact Hg|exact Hr|exact Hk].
  - done.
  - intros gi gg Hgi. lia.
  - intros gi _ i Hi. simpl. rewrite (ext_server _ _ _ He1); [done|]. by intros [s [=]].
  - exact Hck.
Qed.

(** ** Histories *)

(** The operations of the tests, in any order, and the closures [make_end] that
    clerks and servers call; in between other goroutines run, which may do
    anything to the world but add or delete servers. *)
Inductive step c : config Cmd → Prop :=
  | step_start names mnames gi i c' : StartServer names mnames gi i c = Done c' → step c c'
  | step_shutdown gi i c' : ShutdownServer gi i c = Done c' → step c c'
  | step_make names ctl c' ck : makeClient names ctl c = Done (c', ck) → step c c'
  | step_delete ck : step c (deleteClient ck c)
  | step_end nm sn w' e : make_end nm sn (kf_w c) = Done (w', e) → step c (set_w w' c)
  | step_background w' : ext (λ _, False) (kf_w c) w' → step c (set_w w' c).

Inductive reach : config Cmd → Prop :=
  | reach_make w n u maxraft d c : make_config w n u maxraft d = Done c → reach c
  | reach_step c c' : reach c → step c c' → reach c'.

Lemma shard_step_inv c c' : step c c' → inv_upto (kf_ngroups c) c → inv_upto (kf_ngroups c') c'.
Proof.
  assert (∀ gi i c', server_step gi i c c' → inv_upto (kf_ngroups c) c → inv_upto (kf_ngroups c') c') as Hserver.
  { intros gi i c1 Hst Hinv. assert (kf_ngroups c1 = kf_ngroups c ∧ (Z.to_nat gi < kf_ngroups c)%nat) as [-> Hlt].
    { destruct Hst as (gg & gg' & s & w' & _ & _ & Hgg & _ & _ & -> & _). split; [done|].
      rewrite <- (iv_count _ _ Hinv). by eapply lookup_lt_Some. }
    by eapply shard_inv_step. }
  intros Hst Hinv. destruct Hst as [???? c' Hs|?? c' Hs|?? c' ck Hs|ck|?? w' e Hs|w' He].
  - by eapply Hserver, Hinv; eapply StartServer_step.
  - by eapply Hserver, Hinv; eapply ShutdownServer_step.
  - unfold makeClient in Hs. apply bind_Done in Hs as ([[w1 en] es] & H1 & Hs). unfold MakeClerk, alloc in Hs.
    apply Done_inj, pair_equal_spec in Hs as [<- _]. apply (client_ends_ext (λ _, False)) in H1 as [He1 Hh1].
    apply (inv_ext _ _ w1 He1) in Hinv.
    apply (inv_ext _ (set_w w1 c) _ (ext_append _ w1 (with_heap (labrpc.w_app w1) _) [OClerk (MkClerk es)] eq_refl))
      in Hinv.
    destruct Hinv as [Hl Hg Hr Hk]. split; [exact Hl|exact Hg|exact Hr|exact Hk].
  - destruct Hinv as [Hl Hg Hr Hk]. split; [exact Hl|exact Hg|exact Hr|exact Hk].
  - apply make_end_spec in Hs as (_ & _ & _ & _ & He). by apply inv_ext.
  - by apply inv_ext.
Qed.

Lemma shard_reach_inv c : reach c → inv_upto (kf_ngroups c) c.
Proof.
  induction 1 as [? ? ? ? ? c Hc|c c' _ IH Hst]; [by eapply shard_make_config_inv|by eapply shard_step_inv].
Qed.

Lemma join_map_spec k gis : ∀ c m, inv_upto k c → k = kf_ngroups c → Forall (λ g, 0 ≤ g < Z.of_nat k) gis →
  ∃ m', join_map gis c m = Done m' ∧
    (∀ gid, (∀ g, g ∈ gis → gid ≠ 100 + g) → m' !! gid = m !! gid) ∧
    ∀ g, g ∈ gis →
      m' !! (100 + g) = Some ((λ i, servername (100 + g) (Z.of_nat i)) <$> seq 0 (kf_n c)).
Proof.
  induction gis as [|g gis IH]; intros c m Hinv Hk Hgis; cbn [join_map].
  - exists m. split_and!; [done..|]. by intros g ?%elem_of_nil.
  - apply Forall_cons in Hgis as [Hg Hgis].
    destruct (lookup_lt_is_Some_2 (kf_groups c) (Z.to_nat g)) as [gg Hgg]; [rewrite (iv_count _ _ Hinv); lia|].
    assert (idx (kf_groups c) g = Done gg) as -> by (apply idx_Done; split; [lia|done]).
    cbn [mbind outcome_bind]. destruct (iv_group _ _ Hinv (Z.to_nat g) gg) as (Hid & _); [lia|done|].
    rewrite Hid, Z2Nat.id by lia.
    destruct (IH c (<[100 + g := (λ i, servername (100 + g) (Z.of_nat i)) <$> seq 0 (kf_n c)]> m) Hinv Hk Hgis)
      as (m' & Hm' & Hoth & Hin).
    exists m'. split; [done|]. split.
    + intros gid Hgid. rewrite Hoth by (intros g' Hg'; apply Hgid; by right).
      rewrite lookup_insert_ne; [done|]. intros Heq. by apply (Hgid g); [left|].
    + intros g' [->|Hg']%elem_of_cons; [|by apply Hin]. destruct (decide (g ∈ gis)) as [Hgi|Hni]; [by apply Hin|].
      rewrite Hoth; [by rewrite lookup_insert_eq|]. intros g' Hg' Heq. assert (g' = g) as -> by lia. done.
Qed.

(** C32: The names of a join lead to the servers of the groups.  After any
    history, [joinm] tells the controllers, for exactly the groups given, the names
    of all servers of the group; an end that a clerk or a server makes from such a
    name with [make_end] leads to that very server, the member [i] of group [gid]
    and its Raft peer, when it runs, and to no server when it is shut down; never
    to a server of another group. *)
Theorem join_reaches_groups `{Env} c fuel tr gis : reach c →
  Forall (λ g, 0 ≤ g < Z.of_nat (kf_ngroups c)) gis →
  ∃ m ck, joinm fuel tr gis (kf_ctl c) c = Done (ctlclerk.Join fuel tr ck m) ∧
    length (ctlclerk.servers ck) = ct_n (kf_ctl c) ∧
    (∀ gid, is_Some (m !! gid) ↔ ∃ g, g ∈ gis ∧ gid = 100 + g) ∧
    ∀ g, g ∈ gis → ∃ gg names, kf_groups c !! Z.to_nat g = Some gg ∧ m !! (100 + g) = Some names ∧
      length names = length (gr_servers gg) ∧
      ∀ i sn s nm w' e, names !! i = Some sn → gr_servers gg !! i = Some s →
        make_end nm sn (kf_w c) = Done (w', e) →
        e = labrpc.MkClientEnd (NStr nm) ∧ sn = servername (100 + g) (Z.of_nat i) ∧
        labrpc.readEndnameInfo (labrpc.w_net w') (NStr nm) =
          (true, Some (NStr sn), labrpc.server_at (labrpc.w_net w') (NStr sn),
           labrpc.rn_reliable (net c), labrpc.rn_longReordering (net c)) ∧
        in_place w' (100 + g) (Z.of_nat i) s.
Proof.
  intros Hr Hgis. pose proof (shard_reach_inv _ Hr) as Hinv.
  destruct (join_map_spec _ gis c ∅ Hinv eq_refl Hgis) as (m & Hm & Hoth & Hin).
  destruct (iv_clerk _ _ Hinv) as (p & ck & Hck & Hp & Hlen).
  exists m, (ctlclerk.MakeClerk (seq 0 (length (ck_servers ck)))). split_and!.
  - unfold joinm, ctl_clerk. rewrite Hm, Hck. cbn [mbind outcome_bind option_bind].
    unfold wheap in Hp. unfold mem. by rewrite Hp.
  - simpl. by rewrite length_seq.
  - intros gid. split.
    + intros Hgid. destruct (decide (gid - 100 ∈ gis)) as [Hg|Hg]; [exists (gid - 100); split; [done|lia]|].
      rewrite Hoth in Hgid; [by destruct Hgid|]. intros g Hg' ->. by replace (100 + g - 100) with g in Hg by lia.
    + intros (g & Hg & ->). rewrite Hin by done. by eexists.
  - intros g Hg. pose proof Hg as Hr'. eapply Forall_forall in Hr'; [|exact Hgis]. simpl in Hr'.
    destruct (lookup_lt_is_Some_2 (kf_groups c) (Z.to_nat g)) as [gg Hgg]; [rewrite (iv_count _ _ Hinv); lia|].
    destruct (iv_group _ _ Hinv (Z.to_nat g) gg) as (Hid & Hl & Hplace); [lia|done|].
    rewrite Z2Nat.id in Hid by lia. eexists gg, _. split_and!; [done|by apply Hin|by rewrite length_fmap, length_seq|].
    intros i sn s nm w' e Hsn Hs Hmk.
    apply list_lookup_fmap_Some_1 in Hsn as (j & -> & [-> Hj]%lookup_seq). rewrite Nat.add_0_l in *.
    apply make_end_spec in Hmk as (_ & -> & Hread & _ & He). specialize (He (λ _, False)).
    rewrite (ext_server _ _ _ He) by (by intros []). split_and!; [done|done|exact Hread|].
    eapply in_place_ext; [exact He|by intros []|]. rewrite <- Hid. by apply Hplace.
Qed.

(** ** Shutdowns *)

(** The names of the ends that the harness made for server [i]: to the servers of
    its group and to the controllers. *)
Definition own_end gg (i : Z) (s : string) : Prop :=
  (∃ row j, gr_endnames gg !! Z.to_nat i = Some row ∧ (j < length (gr_servers gg))%nat ∧ row !! j = Some s) ∨
  (∃ row, gr_mendnames gg !! Z.to_nat i = Some row ∧ s ∈ row).

Lemma disable_names_spec names js : ∀ w w', disable_names names js w = Done w' →
  ∃ l, w' = enable_all l false w ∧ ∀ s, s ∈ l ↔ ∃ j, j ∈ js ∧ names !! j = Some s.
Proof.
  induction js as [|j js IH]; intros w w' Hd; cbn [disable_names] in Hd.
  - apply Done_inj in Hd as <-. exists []. split; [done|]. intros s. rewrite elem_of_nil.
    split; [done|]. by intros (j & ?%elem_of_nil & _).
  - apply bind_Done in Hd as (nm & [_ Hnm]%idx_Done & Hd). rewrite Nat2Z.id in Hnm.
    apply IH in Hd as (l & -> & Hl). exists (nm :: l). split; [done|]. intros s.
    rewrite elem_of_cons, Hl, exists_cons. split; (intros [?|?]; [left|by right]); congruence.
Qed.

(** The ends switched off before a server is deleted. *)
Lemma disable_own gg i w w1 w2 ens mens :
  (if (0 <? length (gr_servers gg))%nat then idx (gr_endnames gg) i else Done []) = Done ens →
  disable_names ens (seq 0 (length (gr_servers gg))) w = Done w1 →
  idx (gr_mendnames gg) i = Done mens → disable_names mens (seq 0 (length mens)) w1 = Done w2 →
  ∃ l, w2 = enable_all l false w ∧ ∀ s, s ∈ l ↔ own_end gg i s.
Proof.
  intros Hens (l1 & -> & Hl1)%disable_names_spec [Hi Hmens]%idx_Done (l2 & -> & Hl2)%disable_names_spec.
  exists (l1 ++ l2). split; [unfold enable_all; by rewrite foldl_app|]. intros s.
  rewrite elem_of_app, Hl1, Hl2. unfold own_end. apply Morphisms_Prop.or_iff_morphism; split.
  - intros (j & Hj%elem_of_seq & Hs). assert (0 <? length (gr_servers gg) = true)%nat as Ht by (apply Nat.ltb_lt; lia).
    rewrite Ht in Hens. apply idx_Done in Hens as [_ Hens]. exists ens, j. split_and!; [done|lia|done].
  - intros (row & j & Hrow & Hj & Hs). exists j. rewrite elem_of_seq. split; [lia|].
    assert (0 <? length (gr_servers gg) = true)%nat as Ht by (apply Nat.ltb_lt; lia).
    rewrite Ht in Hens. apply idx_Done in Hens as [_ Hens]. rewrite Hens in Hrow. by injection Hrow as ->.
  - intros (j & _ & Hs). exists mens. split; [done|]. by eapply list_elem_of_lookup_2.
  - intros (row & Hrow & [j Hj]%list_elem_of_lookup_1). rewrite Hmens in Hrow. injection Hrow as ->.
    exists j. split; [|done]. apply elem_of_seq. apply lookup_lt_Some in Hj. lia.
Qed.

(** What [Copy] does to the persister of the server. *)
Lemma renew_saved_copy i gg w gg' w' ps p : renew_saved i (λ σ, (None, σ)) gg w = Done (gg', w') →
  gr_saved gg !! Z.to_nat i = Some (Some ps) → wheap w !! ps = Some (OPersister p) →
  gr_saved gg' !! Z.to_nat i = Some (Some (length (wheap w))) ∧
  wheap w' = wheap w ++ [OPersister (persister.Copy p)].
Proof.
  intros Hr Hps Hp. unfold renew_saved in Hr. apply bind_Done in Hr as (s & [_ Hs]%idx_Done & Hr).
  rewrite Hps in Hs. injection Hs as <-. unfold copy_persister, persister_at, alloc in Hr.
  unfold wheap in Hp. rewrite Hp in Hr. cbn [mbind outcome_bind] in Hr.
  apply bind_Done in Hr as (saved & [Hi ->]%set_idx_Done & Hr).
  apply Done_inj, pair_equal_spec in Hr as [<- <-]. split; [|done].
  simpl. apply list_lookup_insert_eq. unfold zlen in Hi. lia.
Qed.

Lemma renew_saved_net i none gg w gg' w' : renew_saved i none gg w = Done (gg', w') →
  labrpc.w_net w' = labrpc.w_net w.
Proof.
  unfold renew_saved. intros Hr. apply bind_Done in Hr as (s & _ & Hr). apply bind_Done in Hr as ([s' σ] & _ & Hr).
  apply bind_Done in Hr as (saved & _ & Hr). by apply Done_inj, pair_equal_spec in Hr as [_ <-].
Qed.

(** The phases of a shutdown of a running server. *)
Lemma ShutdownServer_phases gi i c c' gg q : ShutdownServer gi i c = Done c' →
  kf_groups c !! Z.to_nat gi = Some gg → gr_servers gg !! Z.to_nat i = Some (Some q) →
  ∃ l gg2 w3 σ, (∀ s, s ∈ l ↔ own_end gg i s) ∧
    renew_saved i (λ σ, (None, σ)) gg
      (delete_server (enable_all l false (kf_w c)) (NStr (servername (gr_gid gg) i))) = Done (gg2, w3) ∧
    gr_servers gg2 = gr_servers gg ∧ ShardKV_Kill (labrpc.w_app w3) q = Done σ ∧
    c' = set_groups (<[Z.to_nat gi := set_gservers (<[Z.to_nat i := None]> (gr_servers gg)) gg2]> (kf_groups c))
           (set_w (with_memory w3 σ) c).
Proof.
  intros Hs Hgg Hq. unfold ShutdownServer in Hs. apply bind_Done in Hs as (g & [Hgi Hg]%idx_Done & Hs).
  rewrite Hgg in Hg. injection Hg as <-.
  apply bind_Done in Hs as (ens & Hens & Hs). apply bind_Done in Hs as (w1 & H1 & Hs).
  apply bind_Done in Hs as (mens & Hmens & Hs). apply bind_Done in Hs as (w2 & H2 & Hs).
  destruct (disable_own gg i _ _ _ _ _ Hens H1 Hmens H2) as (l & -> & Hl).
  apply bind_Done in Hs as ([gg2 w3] & H3 & Hs).
  assert (gr_servers gg2 = gr_servers gg) as Hsv.
  { apply (renew_saved_spec (λ _, False)) in H3 as (saved & -> & _); [done|intros σ; exists []; by rewrite app_nil_r]. }
  rewrite Hsv in Hs. apply bind_Done in Hs as (kv & [_ Hkv]%idx_Done & Hs). rewrite Hq in Hkv. injection Hkv as <-.
  apply bind_Done in Hs as ([gg' w'] & H4 & [_ ->]%put_group_Done).
  apply bind_Done in H4 as (σ & Hk & H4). apply bind_Done in H4 as (servers & [_ ->]%set_idx_Done & H4).
  apply Done_inj, pair_equal_spec in H4 as [<- <-]. by exists l, gg2, w3, σ.
Qed.

(** A shutdown isolates one server.  [ShutdownServer] leaves no server
    under the name of the server, so no end leads to it, and disables the ends that
    the harness made for it; all other ends and servers of the network are as
    before.  Its next start will read a fresh persister with what was saved last,
    which the old instance cannot reach; the peer of the old instance is killed. *)
Theorem server_shutdown c c' gi i gg q ps p (call : @labrpc.call name (value Cmd) (app Cmd)) :
  ShutdownServer gi i c = Done c' → kf_groups c !! Z.to_nat gi = Some gg →
  gr_servers gg !! Z.to_nat i = Some (Some q) →
  gr_saved gg !! Z.to_nat i = Some (Some ps) → wheap (kf_w c) !! ps = Some (OPersister p) →
  let victim := NStr (servername (gr_gid gg) i) in
  let endname := labrpc.rq_endname (labrpc.cl_req call) in
  (labrpc.rn_connections (net c') !! endname = Some (Some victim) ∨ (∃ s, endname = NStr s ∧ own_end gg i s) →
   ∀ r, labrpc.processReq_start (net c') call r = labrpc.set_proc (labrpc.Replying false labrpc.noReply) call) ∧
  (∀ nm, (∀ s, nm = NStr s → ¬ own_end gg i s) →
     labrpc.is_enabled (net c') nm = labrpc.is_enabled (net c) nm) ∧
  labrpc.rn_connections (net c') = labrpc.rn_connections (net c) ∧
  (∀ nm, nm ≠ victim → labrpc.server_at (net c') nm = labrpc.server_at (net c) nm) ∧
  ∃ gg' kv rf rps, kf_groups c' !! Z.to_nat gi = Some gg' ∧
    gr_servers gg' = <[Z.to_nat i := None]> (gr_servers gg) ∧
    gr_saved gg' !! Z.to_nat i = Some (Some (length (wheap (kf_w c)))) ∧
    wheap (kf_w c') !! length (wheap (kf_w c)) = Some (OPersister p) ∧
    wheap (kf_w c') !! q = Some (OShardKV kv) ∧
    wheap (kf_w c') !! skv_rf kv = Some (ORaft rf rps) ∧ raft.killed rf = true.
Proof.
  intros Hs Hgg Hq Hps Hp victim endname.
  destruct (ShutdownServer_phases _ _ _ _ _ _ Hs Hgg Hq) as (l & gg2 & w3 & σ & Hl & H3 & Hsv2 & Hk & ->).
  destruct (enable_all_frame l false (kf_w c)) as (Happ & _ & _ & Hco & Hsv).
  pose proof (renew_saved_net _ _ _ _ _ _ H3) as Hn3.
  apply (renew_saved_copy _ _ _ _ _ ps p) in H3 as [Hs2 Hh2]; [|done|unfold wheap; simpl; by rewrite Happ].
  unfold wheap at 2 in Hh2. simpl in Hh2. rewrite Happ in Hh2. unfold wheap at 1 in Hs2. simpl in Hs2. rewrite Happ in Hs2.
  apply ShardKV_Kill_keeps in Hk as (kv & rf & rps & Hkq & Hrf & ->).
  unfold net. cbn [kf_w set_groups set_w]. change (labrpc.w_net (with_memory w3 _)) with (labrpc.w_net w3).
  rewrite Hn3. set (w2 := enable_all l false (kf_w c)) in *. split_and!.
  - intros Hend r. unfold labrpc.processReq_start, labrpc.readEndnameInfo. fold endname.
    destruct Hend as [Hc|(s & -> & Hown%Hl)].
    + rewrite Hc. cbn [default from_option id]. unfold victim. rewrite delete_server_at.
      by destruct (labrpc.is_enabled _ endname).
    + change (labrpc.is_enabled _ (NStr s)) with (labrpc.is_enabled (labrpc.w_net w2) (NStr s)). unfold w2.
      rewrite enable_all_enabled, decide_True; [done|]. by apply list_elem_of_fmap_2.
  - intros nm Hnm. change (labrpc.is_enabled (labrpc.w_net w2) nm = labrpc.is_enabled (labrpc.w_net (kf_w c)) nm).
    unfold w2. rewrite enable_all_enabled, decide_False; [done|].
    intros (s & -> & Hown%Hl)%list_elem_of_fmap. by apply (Hnm s).
  - exact Hco.
  - intros nm Hnm. change (labrpc.server_at (labrpc.w_net (delete_server w2 victim)) nm = labrpc.server_at (labrpc.w_net (kf_w c)) nm).
    rewrite (ext_server _ _ _ (ext_delete_server w2 victim)) by congruence. unfold labrpc.server_at. by rewrite Hsv.
  - eexists _, kv, (raft.Kill rf), rps. split; [apply list_lookup_insert_eq; by eapply lookup_lt_Some|].
    split; [done|]. split; [exact Hs2|]. unfold wheap, store, with_memory. simpl.
    fold (wheap w3). fold (wheap w3) in Hkq, Hrf. rewrite list_lookup_insert_eq by (by eapply lookup_lt_Some).
    assert (∀ a o, wheap w3 !! a = Some o → (∀ r x, o ≠ ORaft r x) →
      <[skv_rf kv := ORaft (raft.Kill rf) rps]> (wheap w3) !! a = Some o) as Hkeep.
    { intros a o Ha Ho. rewrite list_lookup_insert_ne; [done|]. intros <-. rewrite Hrf in Ha.
      injection Ha as <-. by destruct (Ho rf rps). }
    split_and!; [|by apply Hkeep|done|done]. apply Hkeep; [|done].
    rewrite Hh2, lookup_app_r, Nat.sub_diag by done. simpl. by destruct p.
Qed.
End theorems.

(** ** Concrete configs *)
Module demo_shards.

Definition world0 : world nat := labrpc.init (MkApp 0 []).
Definition nm (t : string) (g i j : nat) : string :=
  t +:+ String (ascii_of_nat (97 + g)) (String (ascii_of_nat (97 + i)) (String (ascii_of_nat (97 + j)) "")).
Definition draw : draws := MkDraws (nm "s" 0 0) (nm "t" 0) (nm "u" 0 0) (nm "v") (nm "w").
Definition nothing : config nat := MkConfig false world0 0 (MkCtrler 0 [] [] None) 0 0 [] ∅ 0 0.
Definition made (n : nat) : config nat := get nothing (make_config world0 n false (-1) draw).
(** One server per group; server 0 of group 1 shut down. *)
Definition down : config nat := get nothing (ShutdownServer 1 0 (made 1)).
Definition group1 : group := default nil_group (kf_groups (made 1) !! 1%nat).

Definition yes_env : Env := {|
  answer_query _ _ _ := None;
  answer_ctl _ _ := Some (shardctrler.MkCtlReply false "OK");
  answer_get _ _ _ := None;
  answer_put _ _ _ := None;
|}.

Lemma down_done : ShutdownServer 1 0 (made 1) = Done down.
Proof. apply get_Done. vm_compute. reflexivity. Qed.

Lemma down_reach : reach down.
Proof.
  eapply reach_step; [|exact (step_shutdown _ _ _ _ down_done)].
  eapply (reach_make world0 1 false (-1) draw), get_Done. vm_compute. reflexivity.
Qed.
End demo_shards.
Import demo_shards.

Lemma join_reaches_groups_witness :
  reach down ∧ ∃ m ck, @joinm _ yes_env 5 [] [0; 1] (kf_ctl down) down = Done (@ctlclerk.Join yes_env 5 [] ck m) ∧
    length (ctlclerk.servers ck) = 3%nat ∧ ¬ is_Some (m !! 102).
Proof.
  split; [exact down_reach|].
  destruct (@join_reaches_groups _ yes_env down 5 [] [0; 1] down_reach) as (m & ck & Hj & Hl & Hdom & _).
  { repeat constructor; vm_compute; reflexivity || discriminate. }
  exists m, ck. split; [exact Hj|]. split; [rewrite Hl; vm_compute; reflexivity|].
  rewrite Hdom. intros (g & Hg & Heq). apply elem_of_cons in Hg as [->|Hg]; [discriminate Heq|].
  apply elem_of_cons in Hg as [->|Hg]; [discriminate Heq|]. by apply elem_of_nil in Hg.
Defined.

Lemma server_shutdown_witness :
  labrpc.server_at (net (made 1)) (NStr "server-101-0") ≠ None ∧
  ∃ gg', kf_groups down !! 1%nat = Some gg' ∧ gr_servers gg' = [None].
Proof.
  split; [vm_compute; discriminate|].
  destruct (server_shutdown (made 1) down 1 0 group1 15 13 persister.MakePersister
    (labrpc.MkCall (labrpc.MkReqMsg (NStr "vbaa") "Raft.RequestVote" (VStruct "") []) (VStruct "") (VStruct "")
       labrpc.Sending labrpc.NotStarted labrpc.NoExecutor false) down_done)
    as (_ & _ & _ & _ & gg' & kv & rf & rps & Hgg & Hsv & _);
    [vm_compute; reflexivity..|].
  exists gg'. split; [exact Hgg|]. rewrite Hsv. vm_compute. reflexivity.
Defined.

(** [make_config] fails for more servers per group than controllers: the slice
    [gg.mendnames] has [cfg.ctl.n] elements. *)
Example four_servers_per_group : make_config world0 4 false (-1) draw = Panic "index out of range".
Proof. vm_compute. reflexivity. Qed.

(** [makeClient] fails for fewer servers per group than controllers: the slice
    [endnames] has [cfg.n] elements. *)
Example client_of_two_servers :
  makeClient (nm "x" 0 0) (kf_ctl (made 2)) (made 2) = Panic "index out of range".
Proof. vm_compute. reflexivity. Qed.

(** An end that a server made with [make_end] still leads from the old instance to
    another group after the shutdown. *)
Example made_end_survives_shutdown :
  match make_end "extra" (servername 100 0) (kf_w (made 1)) with
  | Done (w, _) =>
      match ShutdownServer 1 0 (set_w w (made 1)) with
      | Done c => (labrpc.readEndnameInfo (net c) (NStr "extra")).1.1.1.1 = true ∧
          (labrpc.readEndnameInfo (net c) (NStr "extra")).1.1.2 ≠ None
      | _ => False
      end
  | _ => False
  end.
Proof. vm_compute. split; [reflexivity|discriminate]. Qed.
